(* ===== verification/_CoqProject ===== *)
-Q . S2P
Prelude.v
Text.v
Channels.v
Floats.v
Histogram.v
Pin.v
Response.v
Gvl.v
Request.v
Reply.v
Streams.v
Registry.v
Dispatch.v
Queue.v
LaneProtocol.v
LogSink.v
AccessLog.v
Support.v
EnvStrings.v
Lifecycle.v
Admission.v
BuildEnv.v
StaticStrings.v
TestSupport.v
Listen.v
Control.v
Scrape.v
IoShards.v
Outcomes.v
System.v
Progress.v
Runs.v
Order.v
Shutdown.v
Delivery.v
Buffers.v
Connections.v
Boot.v
Init.v
