(* ===== verification/Prelude.v ===== *)
(** * kino, the native layer: a verification development

    kino is a Ruby web server whose native extension (Rust, under
    [src/ext/kino/src]) owns the sockets, parses HTTP with hyper on tokio
    threads, queues requests, and hands them to Ruby workers, which run in
    threads or in ractors. This library models that extension and proves what
    makes it correct. Third-party code (flume, tokio, hyper, http, rustls,
    lru, magnus and the Ruby VM) is never defined here: it appears as type
    classes of operations with the laws its documentation states, or as
    arguments of the definitions. Concrete instances ([ListChan],
    [CellOneshot], [NatSemaphore], [ListMpsc], [ListLru], the sample values of
    [Boot]) show that the laws can hold, and carry the witnesses.

    ** How the program works

    [server_start] reads a configuration Hash, binds the listener and the
    control address, and starts either tokio's pool with one accept loop or a
    fleet of single-threaded shards behind one acceptor. A request becomes a
    [RequestCtx] and a [Responder]; its body is forwarded through a bounded
    channel; it is counted in flight and placed on the shared queue or, with
    lanes on, in some worker's lane. A worker takes it ([take_one],
    [take_batch]), [admit] builds its Rack env, and the application answers in
    one shot or by streaming. Whoever claims the responder first answers: the
    worker, the supervisor after a crash, the context's [Drop], or nobody
    before the timeout. Workers are retired, reset, quarantined and aborted by
    the supervisor; the control plane reports it all to probes and scrapers.

    ** The files, in dependency order

    - [Prelude]: 64-bit words that wrap ([+w], [-w]), rotations, extremal
      elements, counting, occurrences in a list ([occ]), and the closure
      [steps] of a step relation with rule induction ([steps_invariant]).
    - [Text]: strings: prefixes, trimming, decimal printing and parsing.
    - [Channels]: the interfaces [Flume], [Oneshot], [Semaphore], [Mpsc], [Watch],
      their laws and a concrete instance of each.
    - [Floats]: binary64 arithmetic, and how Rust prints it.
    - [Histogram]: the queue-wait histogram ([registry.rs]).
    - [Pin]: zero-copy bodies and the lock-free slab of GC roots ([pin.rs],
      [body_bytes] of [request.rs]). [Pin.Shared] interleaves the slab's atomic
      operations.
    - [Response]: the responder ([response.rs]); its operations split at their
      atomic steps, and a race of any number of them.
    - [Gvl]: Ruby errors as [result], and the interruptible blocking loop
      ([gvl.rs]).
    - [Request]: the request context and the body: forwarder, reads, EOF,
      limits ([request.rs], and the forwarder task of [server.rs]).
    - [Reply]: response heads, one-shot and streamed responses,
      [split_host_port] ([request.rs]).
    - [Streams]: a streamed response under concurrency: writers, [finish],
      aborts and hyper interleaved ([response.rs], [request.rs]).
    - [Registry]: worker slots, the server record, the table of servers, and
      the bounded join of the shard threads ([registry.rs]).
    - [Dispatch]: the choice of a lane and the retry loop ([server.rs]).
    - [Queue]: takes, stealing, parking, admission, batches and the fused
      respond-and-take calls ([queue.rs]).
    - [LaneProtocol]: the retirement protocol between dispatchers and a worker,
      at the grain of its lock and flag.
    - [LogSink]: the asynchronous log and the log devices ([logsink.rs]).
    - [AccessLog]: access-log and server-log lines, colours ([access_log.rs],
      [log.rs], [style.rs]).
    - [Support]: sleep, panics, clock, CPU count, terminal ([timer.rs],
      [gvl.rs], [mono.rs], [cpus.rs], [style.rs]).
    - [EnvStrings]: the string caches of the Rack env and their rooting
      ([env_strings.rs]); [CacheLens] is the interface by which
      [get_or_insert] sees a cache.
    - [Lifecycle]: what Ruby calls to run a server: the natives of [server.rs]
      for stopping, draining, aborting, statistics, pool scaling.
    - [Admission]: [handle_request] and what it calls ([server.rs]).
    - [BuildEnv]: the Rack env of a request ([build_env] of [request.rs]) and
      its cache-free reference [env_spec].
    - [StaticStrings]: the table of frozen strings that [init] builds once, and
      what it asks of the Ruby VM for each ([env_strings.rs]).
    - [TestSupport]: the natives behind the gem's specs: string channels, a
      panic across the released GVL, the env probe ([test_support.rs]).
    - [Listen]: listening sockets, control binds and TLS setup ([listen.rs],
      [tls.rs], [control.rs]).
    - [Control]: the control plane: sensors, JSON and Prometheus texts, token,
      routing, thread ([control.rs]).
    - [Scrape]: the histogram under concurrency: any number of [record]s and
      [snapshot]s, one atomic operation at a time.
    - [IoShards]: the shard fleet: boot, thread startups, hand-off,
      accounting ([io_shards.rs]).
    - [Outcomes]: the specification of the server: a request is a stage and an
      outcome ([spec_step]); what each responder operation means there.
    - [System]: the whole server as one step relation ([sys_step]) over the
      operations of the files above, its invariant [sys_ok], and its
      refinement of [Outcomes].
    - [Progress]: from every reachable state every request can be answered.
    - [Runs]: [handle_request], [take_one] and [take_batch] are runs of
      [System].
    - [Order]: order and senders in the running system: first in, first out in
      the queue and in every lane; which senders are alive; when a worker is
      sent home.
    - [Shutdown]: a closed queue runs empty; an aborted worker's requests are
      answered.
    - [Delivery]: heads are deaf only to handlers that ended; answers and the
      fused calls are runs of [System]; the client gets what was answered.
    - [Buffers]: who owns the pinned buffers as they move from a worker to a
      head or frame channel and on to hyper, on top of [System].
    - [Connections]: accepting, changing runtimes, the TLS handshake bound,
      hyper's configuration, and the drain signal ([server.rs],
      [io_shards.rs]).
    - [Boot]: [server_start] and the default accept loop ([server.rs]).
    - [Init]: the table of native methods and the order of its definitions
      ([lib.rs]).

    ** State and time

    A server is [Registry.ServerInner]: its immutable [Config], queue, slots
    and [Counters]; the process is a [Registry]. Responders live in a heap of
    reference counts ([Registry.heap]), so that a weak pointer upgrades
    exactly while a strong one is left; contexts and slots name them. Fallible
    natives return [Gvl.result]. Times are [Z], nanoseconds unless named
    otherwise. A blocking loop is given the schedule [env] of what the other
    threads did to the world before each of its iterations: when the list runs
    out the loop is still waiting, so a theorem about a finished wait says
    under which schedules it finishes. Concurrency whose grain matters
    (responder races, streams, slab claims, retirement, in-flight counting, body
    delivery, shard fleets, accept loops, the log) is a step relation, with
    theorems for every reachable state.

    ** What the theorems show

    The composition: however arrivals, dispatches, sends, takes, steals,
    admissions, answers, streams, aborts, natives and cancellations
    interleave, the whole server stays well formed ([system_well_formed]),
    implements its specification ([system_refines_spec]), strands no request
    ([no_request_stranded]) and never replaces an answer
    ([answer_never_replaced]), and never deadlocks
    ([every_request_answerable]). Whole handlers and takes, with the others
    running while they wait, are runs of it ([handle_request_runs],
    [takes_run], [fused_calls_run]). On top of the invariant: the client gets
    the application's response byte for byte ([client_gets_answer]); requests
    are served in order ([no_overtaking]); a worker is sent home exactly when
    its source is closed and empty ([sent_home_exactly]); a closed server runs
    out of requests and lets its workers go ([close_queue_empties]); a crashed
    worker's requests are answered ([crash_answers]). Its steps are single operations; the races inside an
    operation are those of [Response], [Pin.Shared] and [LaneProtocol].

    Safety of the concurrent core: exactly one answer per request
    ([responder_race]), exclusive roots ([pins_exclusive]), no orphan in a
    retired lane ([retire_orphans_nothing]), takes that lose and duplicate
    nothing ([block_take_conserves]), an exact in-flight gauge
    ([in_flight_exact]), scrapes that are right about the moments they span
    ([scrape_consistent]), body bytes delivered in order and bounded
    ([body_delivery]), streams read in order whose truncation never looks like
    an end ([stream_end_honest], [write_chunk_runs]), connections accounted for ([connections_accounted],
    [accept_loop_limit]) and told to drain in time, each of them
    ([drain_never_missed]), lines neither lost nor reordered
    ([sink_loses_nothing]). Functional behaviour on every branch: dispatch,
    request outcomes, one-shot and streamed responses, boot (all or nothing),
    aborts, the Rack env (equal to a cache-free reference), routing, tokens.
    Termination: dispatch within the queue timeout, interruption within an
    iteration, bounded joins, boots that never hang. Round trips and bounds:
    host and port, test channels, histogram counts, Prometheus series, stream
    limits, handshakes ([handshake_bounded]).

    ** Fuel

    A responder operation has at most four atomic steps ([run_alone] gets 4).
    The greedy body drain has the number of queued chunks as its fuel, the
    lane drain of an abort the queue's length, [hand_off] one more than the
    shards, the join of the shard threads one turn per millisecond to the
    deadline ([poll_fuel]), the printing of a float 25 digits ([shortest]; a
    binary64 needs 17), the flusher two turns more than the queued lines, a
    sleep chunk two turns. The theorems about the callers of these loops hold
    of the fuel given, none of them for lack of it; only the digits of a float
    are printed with a fuel no theorem is about.

    ** What is not modelled

    The protocol machinery of hyper and rustls (HTTP codecs, the handshake's
    messages: a handshake is when and how it ends), the timestamp format of the
    access log (a time library's strftime: an argument), failures of writing to
    a terminal, and the Ruby side of the gem. A call that parks on a full frame channel is,
    in [System], a step not taken yet. Zero-capacity flume channels (a queue
    depth of 0) are outside the laws of [Flume]. *)

From stdpp Require Export base tactics list gmap strings numbers option pretty.

Declare Scope kino_scope.
Delimit Scope kino_scope with kino.

Create HintDb kino discriminated.

#[global] Open Scope Z_scope.

(** ** Machine words

    Rust's [u64] and (on the 64-bit targets the gem ships for) [usize] are
    integers of [Z] kept in the range below; the atomic [fetch_add] and
    [fetch_sub] wrap, as does plain [+] in the release profile. *)

Definition u64_modulus : Z := 2 ^ 64.

Definition u64_ok (z : Z) : Prop := 0 ≤ z < u64_modulus.

Definition wrap64 (z : Z) : Z := z mod u64_modulus.

Definition u64_add (a b : Z) : Z := wrap64 (a + b).

Definition u64_sub (a b : Z) : Z := wrap64 (a - b).

(** [u64::saturating_sub] and [usize::saturating_mul]. *)
Definition sat_sub (a b : Z) : Z := Z.max 0 (a - b).

Definition sat_mul (a b : Z) : Z := Z.min (u64_modulus - 1) (a * b).

Notation "a '+w' b" := (u64_add a b) (at level 50, left associativity) : kino_scope.
Notation "a '-w' b" := (u64_sub a b) (at level 50, left associativity) : kino_scope.
#[global] Open Scope kino_scope.

Lemma u64_modulus_pos : 0 < u64_modulus.
Proof. done. Qed.
#[export] Hint Resolve u64_modulus_pos : kino.

Lemma wrap64_ok z : u64_ok (wrap64 z).
Proof. apply Z.mod_pos_bound, u64_modulus_pos. Qed.
#[export] Hint Resolve wrap64_ok : kino.

Lemma wrap64_small z : u64_ok z → wrap64 z = z.
Proof. apply Z.mod_small. Qed.

Lemma wrap64_wrap64 z : wrap64 (wrap64 z) = wrap64 z.
Proof. apply wrap64_small, wrap64_ok. Qed.

Lemma wrap64_add_l a b : wrap64 (wrap64 a + b) = wrap64 (a + b).
Proof. apply Zplus_mod_idemp_l. Qed.

Lemma wrap64_add_r a b : wrap64 (a + wrap64 b) = wrap64 (a + b).
Proof. apply Zplus_mod_idemp_r. Qed.

Lemma wrap64_sub_l a b : wrap64 (wrap64 a - b) = wrap64 (a - b).
Proof. apply Zminus_mod_idemp_l. Qed.

Lemma u64_add_ok a b : u64_ok (a +w b).
Proof. apply wrap64_ok. Qed.

Lemma u64_sub_ok a b : u64_ok (a -w b).
Proof. apply wrap64_ok. Qed.
#[export] Hint Resolve u64_add_ok u64_sub_ok : kino.
Create Rewrite HintDb kino_u64.
#[export] Hint Rewrite wrap64_wrap64 wrap64_add_l wrap64_add_r wrap64_sub_l : kino_u64.

(** A counter that was incremented and decremented comes back. *)
Lemma u64_sub_add a b : (a +w b) -w b = wrap64 a.
Proof. unfold u64_sub, u64_add. autorewrite with kino_u64. f_equal; lia. Qed.

(** ** Tactics *)

(** Split conjunctions and existentials, substitute, and use the equations. *)
Ltac kino_crush :=
  repeat match goal with
         | H : _ ∧ _ |- _ => destruct H
         | H : ∃ _, _ |- _ => destruct H
         | H : (_, _) = (_, _) |- _ => injection H as; subst
         | H : Some _ = Some _ |- _ => injection H as; subst
         end; simplify_eq/=.

(** Case analysis on the scrutinees of the goal, closing absurd branches. *)
Ltac kino_cases := repeat (case_match; simplify_eq/=); try done.

(** ** Round-robin orders

    Both the pin slab and the lane dispatcher visit an array of [n] entries
    as [(start + k) % n], [k] ranging over [0..n], where [start] is the value
    of a wrapping [usize] cursor. *)

Definition rot_index (start : Z) (n k : nat) : nat :=
  Z.to_nat (wrap64 (start + Z.of_nat k) mod Z.of_nat n).

Definition rotation (start : Z) (n : nat) : list nat := rot_index start n <$> seq 0 n.

Lemma rot_index_lt start n k : (0 < n)%nat → (rot_index start n k < n)%nat.
Proof.
  intros Hn. unfold rot_index.
  pose proof (Z.mod_pos_bound (wrap64 (start + Z.of_nat k)) (Z.of_nat n)). lia.
Qed.
#[export] Hint Resolve rot_index_lt : kino.

Lemma elem_of_rotation_lt start n i : i ∈ rotation start n → (i < n)%nat.
Proof.
  intros (k & -> & Hk%elem_of_seq)%list_elem_of_fmap. apply rot_index_lt. lia.
Qed.

Lemma length_rotation start n : length (rotation start n) = n.
Proof. unfold rotation. by rewrite length_fmap, length_seq. Qed.

(** As long as the cursor does not wrap inside one sweep, a sweep visits
    every entry. *)
Lemma elem_of_rotation start n i :
  0 ≤ start → start + Z.of_nat n ≤ u64_modulus → (i < n)%nat → i ∈ rotation start n.
Proof.
  intros H0 Hw Hi. apply list_elem_of_fmap.
  exists (Z.to_nat ((Z.of_nat i - start) mod Z.of_nat n)).
  pose proof (Z.mod_pos_bound (Z.of_nat i - start) (Z.of_nat n)) as Hb.
  split; [|apply elem_of_seq; lia].
  unfold rot_index. rewrite Z2Nat.id by lia.
  rewrite wrap64_small by (unfold u64_ok; lia).
  rewrite Zplus_mod_idemp_r. replace (start + (Z.of_nat i - start)) with (Z.of_nat i) by lia.
  rewrite Z.mod_small by lia. lia.
Qed.

(** ** Extremal elements

    [Iterator::max_by_key] keeps the last maximum, [Iterator::min_by_key]
    the first minimum. *)

Section extremal.
Context {A : Type} (key : A → Z).

Definition max_by_key (l : list A) : option A :=
  match l with
  | [] => None
  | x :: l => Some (foldl (λ best y, if key best <=? key y then y else best) x l)
  end.

Definition min_by_key (l : list A) : option A :=
  match l with
  | [] => None
  | x :: l => Some (foldl (λ best y, if key y <? key best then y else best) x l)
  end.

Lemma max_by_key_split l m :
  max_by_key l = Some m →
  ∃ l1 l2, l = l1 ++ m :: l2 ∧ Forall (λ y, key y ≤ key m) l1 ∧ Forall (λ y, key y < key m) l2.
Proof.
  destruct l as [|x l]; simpl; [done|]. intros [= <-].
  induction l as [|y l IH] using rev_ind; simpl.
  { exists [], []. by repeat constructor. }
  destruct IH as (l1 & l2 & Heq & H1 & H2). rewrite foldl_app; simpl.
  set (m := foldl _ x l) in *. case_match eqn:E; [apply Z.leb_le in E|apply Z.leb_gt in E].
  - exists (x :: l), []. split; [done|]. split; [|done]. rewrite Heq.
    apply Forall_app; split; [|constructor; [done|]]; eapply Forall_impl; eauto; simpl; lia.
  - exists l1, (l2 ++ [y]). rewrite app_comm_cons, Heq, <- app_assoc. split; [done|].
    split; [done|]. apply Forall_app; split; [done|]. by constructor.
Qed.

Lemma min_by_key_split l m :
  min_by_key l = Some m →
  ∃ l1 l2, l = l1 ++ m :: l2 ∧ Forall (λ y, key m < key y) l1 ∧ Forall (λ y, key m ≤ key y) l2.
Proof.
  destruct l as [|x l]; simpl; [done|]. intros [= <-].
  induction l as [|y l IH] using rev_ind; simpl.
  { exists [], []. by repeat constructor. }
  destruct IH as (l1 & l2 & Heq & H1 & H2). rewrite foldl_app; simpl.
  set (m := foldl _ x l) in *. case_match eqn:E; [apply Z.ltb_lt in E|apply Z.ltb_ge in E].
  - exists (x :: l), []. split; [done|]. split; [|done]. rewrite Heq.
    apply Forall_app; split; [|constructor; [done|]]; eapply Forall_impl; eauto; simpl; lia.
  - exists l1, (l2 ++ [y]). rewrite app_comm_cons, Heq, <- app_assoc. split; [done|].
    split; [done|]. apply Forall_app; split; [done|]. by constructor.
Qed.

Lemma max_by_key_none l : max_by_key l = None → l = [].
Proof. by destruct l. Qed.

Lemma min_by_key_none l : min_by_key l = None → l = [].
Proof. by destruct l. Qed.
End extremal.

(** ** Positions

    [Iterator::position]: the index of the first element satisfying [p]. *)

Fixpoint position {A} (p : A → bool) (l : list A) : option nat :=
  match l with
  | [] => None
  | x :: l => if p x then Some 0%nat else S <$> position p l
  end.

Lemma position_some {A} (p : A → bool) l i :
  position p l = Some i ↔
  (∃ x, l !! i = Some x ∧ p x = true) ∧ ∀ j y, (j < i)%nat → l !! j = Some y → p y = false.
Proof.
  revert i. induction l as [|x l IH]; intros i; cbn.
  { split; [done|]. by intros [(y & Hy & _) _]. }
  destruct (p x) eqn:Hp.
  - split.
    + intros [= <-]. split; [by exists x|]. intros j y Hj. lia.
    + intros [_ H2]. destruct i as [|i]; [done|]. specialize (H2 0%nat x ltac:(lia) eq_refl). congruence.
  - rewrite fmap_Some. split.
    + intros (k & Hk & ->). apply IH in Hk as [H1 H2]. split; [done|].
      intros [|j] y Hj Hy; simplify_eq/=; [done|]. apply (H2 j y); [lia|done].
    + intros [(y & Hy & Hpy) H2]. destruct i as [|i]; simplify_eq/=; [congruence|].
      exists i. split; [|done]. apply IH. split; [by exists y|].
      intros j z Hj Hz. apply (H2 (S j) z); [lia|done].
Qed.

Lemma position_none {A} (p : A → bool) l :
  position p l = None ↔ ∀ j y, l !! j = Some y → p y = false.
Proof.
  induction l as [|x l IH]; cbn; [done|].
  destruct (p x) eqn:Hp.
  - split; [done|]. intros H. specialize (H 0%nat x eq_refl). congruence.
  - rewrite fmap_None, IH. split; [intros H [|j] y Hy|intros H j y Hy]; simplify_eq/=; eauto.
    by apply (H (S j) y).
Qed.

(** How many elements of [l] satisfy [p]. *)
Definition count_if {A} (p : A → bool) (l : list A) : Z := Z.of_nat (length (List.filter p l)).

Lemma count_if_app {A} (p : A → bool) l k : count_if p (l ++ k) = count_if p l + count_if p k.
Proof. unfold count_if. rewrite List.filter_app, length_app. lia. Qed.

Lemma count_if_snoc {A} (p : A → bool) l x :
  count_if p (l ++ [x]) = count_if p l + (if p x then 1 else 0).
Proof. unfold count_if. rewrite List.filter_app, length_app. cbn. destruct (p x); cbn; lia. Qed.

(** ** Sums *)

Definition Zsum (l : list Z) : Z := foldr Z.add 0 l.

Lemma Zsum_app l k : Zsum (l ++ k) = Zsum l + Zsum k.
Proof. induction l; simpl; lia. Qed.

Lemma Zsum_insert l i x y :
  l !! i = Some x → Zsum (<[i:=y]> l) = Zsum l - x + y.
Proof.
  revert i. induction l as [|z l IH]; intros [|i] ?; simplify_eq/=; [lia|].
  rewrite (IH i) by done. lia.
Qed.

Lemma sum_list_with_insert {A} (g : A → nat) (l : list A) i x y :
  l !! i = Some x → (sum_list_with g (<[i := y]> l) + g x = sum_list_with g l + g y)%nat.
Proof.
  revert i. induction l as [|z l IH]; intros [|i] Hi; try done.
  - injection Hi as ->. cbn. lia.
  - change (<[S i := y]> (z :: l)) with (z :: <[i := y]> l). cbn. specialize (IH i Hi). lia.
Qed.

Lemma sum_list_with_fmap {A} (g : A → nat) (h : A → A) (l : list A) :
  (∀ x, g (h x) = g x) → sum_list_with g (h <$> l) = sum_list_with g l.
Proof. intros Hg. induction l as [|x l IH]; cbn; [done|]. by rewrite Hg, <-IH. Qed.

(** ** Occurrences *)

(** How often [x] occurs in [l]. *)
Definition occ {A} `{EqDecision A} (x : A) (l : list A) : nat := length (filter (x =.) l).
#[global] Arguments occ {A} {_} x l : simpl never.

Lemma occ_nil {A} `{EqDecision A} (x : A) : occ x [] = 0%nat.
Proof. done. Qed.

Lemma occ_app {A} `{EqDecision A} (x : A) l k : occ x (l ++ k) = (occ x l + occ x k)%nat.
Proof. unfold occ. by rewrite filter_app, length_app. Qed.

Lemma occ_cons {A} `{EqDecision A} (x y : A) l :
  occ x (y :: l) = ((if decide (x = y) then 1 else 0) + occ x l)%nat.
Proof. unfold occ. rewrite filter_cons. by case_decide. Qed.

(** Count the occurrences in a list given by its elements. *)
Ltac occ_lia :=
  rewrite ?occ_app, ?occ_cons, ?occ_app, ?occ_nil in *; repeat case_decide; try congruence; simpl in *; lia.

Lemma occ_perm {A} `{EqDecision A} (x : A) l k : l ≡ₚ k → occ x l = occ x k.
Proof. intros H. unfold occ. by rewrite H. Qed.

Lemma occ_elem_of {A} `{EqDecision A} (x : A) l : x ∈ l ↔ occ x l ≠ 0%nat.
Proof.
  induction l as [|y l IH]; [split; [by intros ?%elem_of_nil|done]|].
  rewrite occ_cons, elem_of_cons, IH. case_decide; [split; [done|by left]|]. simpl. tauto.
Qed.

Lemma occ_not_elem_of {A} `{EqDecision A} (x : A) l : x ∉ l → occ x l = 0%nat.
Proof. rewrite occ_elem_of. destruct (occ x l); [done|]. intros H. by destruct H. Qed.

(** ** Reachability

    The closure of a step relation, used by the components whose steps
    interleave. *)

Section steps.
Context {S : Type} (step : S → S → Prop).

Inductive steps : S → S → Prop :=
  | steps_refl s : steps s s
  | steps_cons s1 s2 s3 : step s1 s2 → steps s2 s3 → steps s1 s3.

Lemma steps_one s1 s2 : step s1 s2 → steps s1 s2.
Proof. eauto using steps. Qed.

Lemma steps_trans s1 s2 s3 : steps s1 s2 → steps s2 s3 → steps s1 s3.
Proof. induction 1; eauto using steps. Qed.

(** Rule induction for invariants. *)
Lemma steps_invariant (P : S → Prop) :
  (∀ s s', step s s' → P s → P s') → ∀ s s', steps s s' → P s → P s'.
Proof. intros Hstep s s'. induction 1; eauto. Qed.
End steps.

#[export] Hint Constructors steps : kino.
