(* ===== verification/Text.v ===== *)
(** Text: the parts of [String], [str] and the integer formatting and parsing
    of Rust's standard library that the modelled code uses. A Rust string is
    the Rocq [string] of its UTF-8 bytes. *)

From S2P Require Import Prelude.
From Stdlib Require Import Ascii.

Definition lf : ascii := "010".
Definition esc : ascii := "027".
Definition dquote : string := String "034" "".
Definition nl : string := String lf "".

(** ** Appending *)

#[global] Arguments String.append !_ _ : simpl nomatch.

Lemma append_nil_r (s : string) : s +:+ "" = s.
Proof. induction s as [|c s IH]; cbn; [done|]. by f_equal. Qed.

Lemma append_assoc (a b c : string) : (a +:+ b) +:+ c = a +:+ (b +:+ c).
Proof. induction a as [|x a IH]; [done|]. cbn. by f_equal. Qed.

Lemma append_inj_r (a b c : string) : c +:+ a = c +:+ b → a = b.
Proof. induction c as [|x c IH]; cbn; [done|]. intros [= H]. auto. Qed.

(** The bytes of a string satisfy [p]. *)
Fixpoint str_all (p : ascii → bool) (s : string) : bool :=
  match s with
  | "" => true
  | String c s => p c && str_all p s
  end.

Lemma str_all_append p a b : str_all p (a +:+ b) = str_all p a && str_all p b.
Proof. induction a as [|c a IH]; cbn; [done|]. by rewrite IH, andb_assoc. Qed.

(** No byte of [s] is [c]. *)
Definition lacks (c : ascii) (s : string) : bool := str_all (λ x, negb (Ascii.eqb x c)) s.

Fixpoint str_concat (l : list string) : string :=
  match l with
  | [] => ""
  | s :: l => s +:+ str_concat l
  end.

Lemma str_concat_app l k : str_concat (l ++ k) = str_concat l +:+ str_concat k.
Proof. induction l as [|s l IH]; cbn; [done|]. by rewrite IH, append_assoc. Qed.

(** [<[_]>::join]. *)
Fixpoint str_join (sep : string) (l : list string) : string :=
  match l with
  | [] => ""
  | [s] => s
  | s :: l => s +:+ sep +:+ str_join sep l
  end.

(** ** Searching *)

(** [str::strip_prefix]. *)
Fixpoint strip_prefix (p s : string) : option string :=
  match p, s with
  | "", _ => Some s
  | String a p, String b s => if Ascii.eqb a b then strip_prefix p s else None
  | String _ _, "" => None
  end.

Lemma strip_prefix_some p s r : strip_prefix p s = Some r ↔ s = p +:+ r.
Proof.
  revert s. induction p as [|a p IH]; intros s; cbn; [naive_solver|].
  destruct s as [|b s]; [naive_solver|].
  destruct (Ascii.eqb_spec a b) as [->|Hne]; [|naive_solver].
  rewrite IH. naive_solver.
Qed.

(** [s.split(c).next()]: what precedes the first [c]. *)
Fixpoint before_char (c : ascii) (s : string) : string :=
  match s with
  | "" => ""
  | String x s => if Ascii.eqb x c then "" else String x (before_char c s)
  end.

(** [str::rsplit_once] on a one-byte pattern: split at the last occurrence. *)
Fixpoint rsplit_once (c : ascii) (s : string) : option (string * string) :=
  match s with
  | "" => None
  | String x s =>
      match rsplit_once c s with
      | Some (a, b) => Some (String x a, b)
      | None => if Ascii.eqb x c then Some ("", s) else None
      end
  end.

Lemma rsplit_once_none c s : rsplit_once c s = None ↔ lacks c s = true.
Proof.
  unfold lacks. induction s as [|x s IH]; cbn; [done|].
  destruct (rsplit_once c s) as [[a b]|], (Ascii.eqb x c); cbn; rewrite <-?IH; naive_solver.
Qed.

Lemma rsplit_once_some c s a b :
  rsplit_once c s = Some (a, b) ↔ s = a +:+ String c b ∧ lacks c b = true.
Proof.
  revert a. induction s as [|x s IH]; intros a; cbn.
  { destruct a; naive_solver. }
  destruct (rsplit_once c s) as [[a' b']|] eqn:E.
  - specialize (IH a'). destruct IH as [IH1 IH2]. split.
    + intros [= <- <-]. cbn. naive_solver.
    + intros [Heq Hl]. destruct a as [|y a]; cbn in Heq; simplify_eq.
      * apply rsplit_once_none in Hl. congruence.
      * assert (Some (a', b') = Some (a, b)) as [= -> ->]; [|done].
        rewrite <- E. clear IH1 IH2. clear E a' b'.
        induction a as [|z a IHa]; cbn.
        { apply rsplit_once_none in Hl. by rewrite Hl, Ascii.eqb_refl. }
        by rewrite IHa.
  - apply rsplit_once_none in E. destruct (Ascii.eqb_spec x c) as [->|Hne]; split.
    + by intros [= <- <-].
    + intros [Heq Hl]. destruct a as [|y a]; cbn in Heq; simplify_eq; [done|].
      unfold lacks in E. rewrite str_all_append in E. cbn in E.
      rewrite Ascii.eqb_refl in E. cbn in E. by rewrite andb_false_r in E.
    + done.
    + intros [Heq Hl]. destruct a as [|y a]; cbn in Heq; simplify_eq.
      unfold lacks in E. rewrite str_all_append in E. cbn in E.
      rewrite Ascii.eqb_refl in E. cbn in E. by rewrite andb_false_r in E.
Qed.

(** [str::trim] over the white space a visible-ASCII header value can hold. *)
Definition is_space (c : ascii) : bool :=
  let n := nat_of_ascii c in (n =? 32)%nat || ((9 <=? n)%nat && (n <=? 13)%nat).

Fixpoint trim_start (s : string) : string :=
  match s with
  | "" => ""
  | String c s' => if is_space c then trim_start s' else s
  end.

Fixpoint trim_end (s : string) : string :=
  match s with
  | "" => ""
  | String c s =>
      match trim_end s with
      | "" => if is_space c then "" else String c ""
      | t => String c t
      end
  end.

Definition trim (s : string) : string := trim_end (trim_start s).

(** [s.trim_end_matches('\n')]. *)
Fixpoint trim_end_lf (s : string) : string :=
  match s with
  | "" => ""
  | String c s =>
      match trim_end_lf s with
      | "" => if Ascii.eqb c lf then "" else String c ""
      | t => String c t
      end
  end.

(** [char::to_ascii_uppercase]. *)
Definition to_ascii_uppercase (c : ascii) : ascii :=
  let n := nat_of_ascii c in
  if (97 <=? n)%nat && (n <=? 122)%nat then ascii_of_nat (n - 32) else c.

(** ** Unsigned integers: [Display] and [FromStr] *)

Definition display (n : Z) : string := pretty (Z.to_N n).

Definition digit_val (c : ascii) : option Z :=
  let n := Z.of_nat (nat_of_ascii c) in
  if (48 <=? n) && (n <=? 57) then Some (n - 48) else None.

(** Digits accumulated with the overflow check of the integer's width. *)
Fixpoint parse_digits (max acc : Z) (s : string) : option Z :=
  match s with
  | "" => Some acc
  | String c s =>
      match digit_val c with
      | None => None
      | Some d =>
          let acc := acc * 10 + d in
          if max <? acc then None else parse_digits max acc s
      end
  end.

(** [str::parse] for an unsigned integer whose largest value is [max]: one
    leading plus sign is accepted, an empty digit string is not. *)
Definition parse_uint (max : Z) (s : string) : option Z :=
  match s with
  | "" => None
  | String c s' =>
      if Ascii.eqb c "+" then
        match s' with
        | "" => None
        | _ => parse_digits max 0 s'
        end
      else parse_digits max 0 s
  end.

Definition u16_max : Z := 65535.
Definition parse_u16 : string → option Z := parse_uint u16_max.
Definition parse_u64 : string → option Z := parse_uint (u64_modulus - 1).

Definition is_digit (c : ascii) : bool := bool_decide (is_Some (digit_val c)).

Lemma digit_val_char (x : N) :
  (x < 10)%N → digit_val (pretty_N_char x) = Some (Z.of_N x).
Proof.
  intros Hx.
  assert (x = 0 ∨ x = 1 ∨ x = 2 ∨ x = 3 ∨ x = 4 ∨ x = 5 ∨ x = 6 ∨ x = 7 ∨ x = 8 ∨ x = 9)%N
    as Hc by lia.
  by repeat (destruct Hc as [->|Hc]; [done|]); subst.
Qed.

Lemma parse_digits_go max (x : N) s :
  Z.of_N x ≤ max → parse_digits max 0 (pretty_N_go x s) = parse_digits max (Z.of_N x) s.
Proof.
  revert s. induction (N.lt_wf_0 x) as [x _ IH]. intros s Hmax.
  destruct (decide (x = 0)%N) as [->|Hx]; [done|].
  pose proof (N.div_lt x 10 ltac:(lia) eq_refl) as Hlt.
  pose proof (N.mod_lt x 10 ltac:(done)) as Hm.
  rewrite pretty_N_go_step by lia. rewrite IH by lia. cbn [parse_digits].
  rewrite digit_val_char by done.
  assert (Z.of_N (x `div` 10) * 10 + Z.of_N (x `mod` 10) = Z.of_N x) as Heq.
  { pose proof (N.div_mod x 10 ltac:(done)). lia. }
  cbv zeta. rewrite Heq. destruct (Z.ltb_spec max (Z.of_N x)); [lia|done].
Qed.

Lemma pretty_N_go_digits (x : N) s :
  str_all is_digit (pretty_N_go x s) = str_all is_digit s.
Proof.
  revert s. induction (N.lt_wf_0 x) as [x _ IH]. intros s.
  destruct (decide (x = 0)%N) as [->|Hx]; [done|].
  pose proof (N.div_lt x 10 ltac:(lia) eq_refl) as Hlt.
  pose proof (N.mod_lt x 10 ltac:(done)) as Hm.
  rewrite pretty_N_go_step by lia. rewrite IH by lia. cbn.
  unfold is_digit at 1. rewrite bool_decide_true; [done|]. rewrite digit_val_char by done. eauto.
Qed.

Lemma pretty_N_go_nonempty (x : N) s : pretty_N_go x s = "" → s = "".
Proof.
  revert s. induction (N.lt_wf_0 x) as [x _ IH]. intros s.
  destruct (decide (x = 0)%N) as [->|Hx]; [done|].
  pose proof (N.div_lt x 10 ltac:(lia) eq_refl) as Hlt.
  rewrite pretty_N_go_step by lia. intros H%IH; [done|done].
Qed.

Lemma display_digits n : str_all is_digit (display n) = true.
Proof.
  unfold display, pretty, pretty_N. case_decide; [done|]. by rewrite pretty_N_go_digits.
Qed.

Lemma display_nonempty n : display n ≠ "".
Proof.
  unfold display, pretty, pretty_N. case_decide as Hx; [done|].
  rewrite pretty_N_go_step by lia. by intros ?%pretty_N_go_nonempty.
Qed.

Lemma digits_lack c s : is_digit c = false → str_all is_digit s = true → lacks c s = true.
Proof.
  intros Hc. unfold lacks. induction s as [|x s IH]; cbn; [done|].
  intros [Hx Hs]%andb_prop. rewrite IH by done. destruct (Ascii.eqb_spec x c); [|done].
  congruence.
Qed.

Lemma display_lacks c n : is_digit c = false → lacks c (display n) = true.
Proof. intros Hc. apply digits_lack; [done|]. apply display_digits. Qed.

(** Printing then parsing an unsigned integer of the width gives it back. *)
Lemma parse_uint_display max n : 0 ≤ n ≤ max → parse_uint max (display n) = Some n.
Proof.
  intros Hn. pose proof (display_digits n) as Hd. pose proof (display_nonempty n) as Hne.
  assert (parse_digits max 0 (display n) = Some n) as Hp.
  { unfold display, pretty, pretty_N. case_decide as Hz.
    - assert (n = 0) as -> by lia. cbn. change (digit_val "0") with (Some 0). cbn.
      by rewrite (proj2 (Z.ltb_ge max (0 * 10 + 0))) by lia.
    - rewrite parse_digits_go by lia. cbn. f_equal. lia. }
  destruct (display n) as [|c s]; [done|]. unfold parse_uint.
  destruct (Ascii.eqb_spec c "+") as [->|]; [done|exact Hp].
Qed.

Lemma parse_digits_bound max acc s n :
  0 ≤ acc ≤ max → parse_digits max acc s = Some n → 0 ≤ n ≤ max.
Proof.
  revert acc. induction s as [|c s IH]; intros acc Hacc; cbn; [by intros [= <-]|].
  unfold digit_val. destruct (_ && _) eqn:E; [|done].
  apply andb_prop in E as [E1%Z.leb_le E2%Z.leb_le]. cbv zeta.
  destruct (max <? _) eqn:E3; [done|]. apply Z.ltb_ge in E3. apply IH. lia.
Qed.

Lemma parse_uint_bound max s n : 0 ≤ max → parse_uint max s = Some n → 0 ≤ n ≤ max.
Proof.
  intros Hm. unfold parse_uint. destruct s as [|c s]; [done|].
  case_match; [destruct s; [done|]|]; apply parse_digits_bound; lia.
Qed.

Lemma display_inj n m : 0 ≤ n → 0 ≤ m → display n = display m → n = m.
Proof. unfold display. intros Hn Hm H%(inj pretty). lia. Qed.
