(* ===== verification/Channels.v ===== *)
(** Channels: the interfaces the program has to the channel crates it links.

    [Flume] is what the code uses of a bounded flume channel; [Oneshot],
    [Semaphore], [Mpsc] and [Watch] are its uses of tokio's channels and
    semaphore. The crates are not part of the repository, so each is a
    parameter of the development: a class of operations together with the view
    (queued messages, capacity, live ends, versions) its documentation speaks
    of, and a class of laws stating the documented behaviour. The modules
    [ListChan], [CellOneshot], [NatSemaphore], [ListMpsc] and [VersionWatch]
    are concrete ones that satisfy the laws; the witnesses of the theorems are
    evaluated on them. *)

From S2P Require Import Prelude.

(** ** Bounded channels *)

Inductive send_result (T : Type) : Type :=
  | SendOk
  | SendFull (x : T)
  | SendDisconnected (x : T).
Arguments SendOk {T}.
Arguments SendFull {T} x.
Arguments SendDisconnected {T} x.

Inductive recv_result (T : Type) : Type :=
  | RecvOk (x : T)
  | RecvEmpty
  | RecvDisconnected.
Arguments RecvOk {T} x.
Arguments RecvEmpty {T}.
Arguments RecvDisconnected {T}.

Class Flume (chan : Type → Type) : Type := {
  bounded {T} : nat → chan T;
  try_send {T} : T → chan T → send_result T * chan T;
  try_recv {T} : chan T → recv_result T * chan T;
  clone_sender {T} : chan T → chan T;
  drop_sender {T} : chan T → chan T;
  drop_receiver {T} : chan T → chan T;
  contents {T} : chan T → list T;
  capacity {T} : chan T → nat;
  senders {T} : chan T → nat;
  receiving {T} : chan T → bool;
}.
#[global] Hint Mode Flume ! : typeclass_instances.

Section view.
Context {chan : Type → Type} `{!Flume chan} {T : Type}.

(** [len], [is_empty] and, on a receiver, [is_disconnected]. *)
Definition chan_len (c : chan T) : nat := length (contents c).
Definition chan_is_empty (c : chan T) : bool := (chan_len c =? 0)%nat.
Definition is_disconnected (c : chan T) : bool := (senders c =? 0)%nat.

(** [c'] is [c] with the queue replaced by [l]. *)
Definition chan_after (c c' : chan T) (l : list T) : Prop :=
  contents c' = l ∧ capacity c' = capacity c ∧ senders c' = senders c
  ∧ receiving c' = receiving c.

(** The channel never holds more than its capacity. *)
Definition chan_ok (c : chan T) : Prop :=
  (0 < capacity c)%nat ∧ (length (contents c) ≤ capacity c)%nat.
End view.

Class FlumeSpec (chan : Type → Type) `{!Flume chan} : Prop := {
  bounded_spec T n :
    contents (bounded n : chan T) = [] ∧ capacity (bounded n : chan T) = n
    ∧ senders (bounded n : chan T) = 1%nat ∧ receiving (bounded n : chan T) = true;
  try_send_disconnected T (x : T) (c : chan T) :
    receiving c = false → try_send x c = (SendDisconnected x, c);
  try_send_full T (x : T) (c : chan T) :
    receiving c = true → (0 < capacity c)%nat → (capacity c ≤ length (contents c))%nat →
    try_send x c = (SendFull x, c);
  try_send_ok T (x : T) (c : chan T) :
    receiving c = true → (length (contents c) < capacity c)%nat →
    ∃ c', try_send x c = (SendOk, c') ∧ chan_after c c' (contents c ++ [x]);
  try_recv_ok T (x : T) l (c : chan T) :
    contents c = x :: l → ∃ c', try_recv c = (RecvOk x, c') ∧ chan_after c c' l;
  try_recv_empty T (c : chan T) :
    contents c = [] → senders c ≠ 0%nat → try_recv c = (RecvEmpty, c);
  try_recv_disconnected T (c : chan T) :
    contents c = [] → senders c = 0%nat → try_recv c = (RecvDisconnected, c);
  clone_sender_spec T (c : chan T) :
    contents (clone_sender c) = contents c ∧ capacity (clone_sender c) = capacity c
    ∧ senders (clone_sender c) = S (senders c) ∧ receiving (clone_sender c) = receiving c;
  drop_sender_spec T (c : chan T) :
    contents (drop_sender c) = contents c ∧ capacity (drop_sender c) = capacity c
    ∧ senders (drop_sender c) = pred (senders c) ∧ receiving (drop_sender c) = receiving c;
  drop_receiver_spec T (c : chan T) :
    capacity (drop_receiver c) = capacity c ∧ senders (drop_receiver c) = senders c
    ∧ receiving (drop_receiver c) = false;
}.

Section flume_lemmas.
Context {chan : Type → Type} `{!Flume chan, !FlumeSpec chan} {T : Type}.
Implicit Types (c : chan T) (x : T).

(** What a send attempt can come to. *)
Lemma try_send_cases x c r c' :
  (0 < capacity c)%nat → try_send x c = (r, c') →
  (r = SendOk ∧ receiving c = true ∧ (length (contents c) < capacity c)%nat
     ∧ chan_after c c' (contents c ++ [x]))
  ∨ (r = SendFull x ∧ c' = c ∧ receiving c = true ∧ (capacity c ≤ length (contents c))%nat)
  ∨ (r = SendDisconnected x ∧ c' = c ∧ receiving c = false).
Proof.
  intros Hcap Hs. destruct (receiving c) eqn:Hr.
  - destruct (decide (length (contents c) < capacity c)%nat) as [Hl|Hl].
    + destruct (try_send_ok T x c Hr Hl) as (c2 & Hs2 & ?). rewrite Hs in Hs2. naive_solver.
    + rewrite try_send_full in Hs by (done || lia). simplify_eq. right; left. auto with lia.
  - rewrite try_send_disconnected in Hs by done. naive_solver.
Qed.

(** What a receive attempt can come to. *)
Lemma try_recv_cases c r c' :
  try_recv c = (r, c') →
  (∃ x l, r = RecvOk x ∧ contents c = x :: l ∧ chan_after c c' l)
  ∨ (r = RecvEmpty ∧ c' = c ∧ contents c = [] ∧ senders c ≠ 0%nat)
  ∨ (r = RecvDisconnected ∧ c' = c ∧ contents c = [] ∧ senders c = 0%nat).
Proof.
  intros Hr. destruct (contents c) as [|x l] eqn:Hc.
  - destruct (decide (senders c = 0%nat)) as [Hs|Hs].
    + rewrite try_recv_disconnected in Hr by done. naive_solver.
    + rewrite try_recv_empty in Hr by done. naive_solver.
  - destruct (try_recv_ok T x l c Hc) as (c2 & Hr2 & ?). rewrite Hr in Hr2. naive_solver.
Qed.

Lemma chan_ok_bounded n : (0 < n)%nat → chan_ok (bounded n : chan T).
Proof.
  intros Hn. destruct (bounded_spec (chan:=chan) T n) as (H1 & H2 & _).
  unfold chan_ok. rewrite H1, H2. simpl. lia.
Qed.

Lemma chan_ok_try_send x c r c' : chan_ok c → try_send x c = (r, c') → chan_ok c'.
Proof.
  intros [Hp Hl] Hs. unfold chan_ok.
  destruct (try_send_cases x c r c' Hp Hs) as [(_ & _ & ? & -> & -> & _)|[(_ & -> & _)|(_ & -> & _)]];
    rewrite ?length_app; simpl; lia.
Qed.

Lemma chan_ok_try_recv c r c' : chan_ok c → try_recv c = (r, c') → chan_ok c'.
Proof.
  intros [Hp Hl] Hr. unfold chan_ok.
  destruct (try_recv_cases c r c' Hr)
    as [(x & l & _ & Hc & -> & -> & _)|[(_ & -> & _)|(_ & -> & _)]]; [|lia..].
  rewrite Hc in Hl. simpl in Hl. lia.
Qed.

Lemma contents_drop_sender c : contents (drop_sender c) = contents c.
Proof. apply drop_sender_spec. Qed.
Lemma capacity_drop_sender c : capacity (drop_sender c) = capacity c.
Proof. apply drop_sender_spec. Qed.
Lemma receiving_drop_sender c : receiving (drop_sender c) = receiving c.
Proof. apply drop_sender_spec. Qed.
Lemma senders_drop_sender c : senders (drop_sender c) = pred (senders c).
Proof. apply drop_sender_spec. Qed.
End flume_lemmas.

#[export] Hint Resolve chan_ok_bounded chan_ok_try_send chan_ok_try_recv : kino.
Create Rewrite HintDb kino_chan.
#[export] Hint Rewrite @contents_drop_sender @capacity_drop_sender @receiving_drop_sender
  @senders_drop_sender using typeclasses eauto : kino_chan.

(** ** A concrete bounded channel *)

Module ListChan.
Record t (T : Type) : Type := Mk {
  items : list T;
  cap : nat;
  txs : nat;
  rx : bool;
}.
Arguments Mk {T}.
Arguments items {T}.
Arguments cap {T}.
Arguments txs {T}.
Arguments rx {T}.

Definition send {T} (x : T) (c : t T) : send_result T * t T :=
  if negb (rx c) then (SendDisconnected x, c)
  else if decide (length (items c) < cap c)%nat
  then (SendOk, Mk (items c ++ [x]) (cap c) (txs c) (rx c))
  else (SendFull x, c).

Definition recv {T} (c : t T) : recv_result T * t T :=
  match items c with
  | x :: l => (RecvOk x, Mk l (cap c) (txs c) (rx c))
  | [] => if decide (txs c = 0%nat) then (RecvDisconnected, c) else (RecvEmpty, c)
  end.

#[export] Instance flume : Flume t := {
  bounded T n := Mk [] n 1 true;
  try_send := @send;
  try_recv := @recv;
  clone_sender T c := Mk (items c) (cap c) (S (txs c)) (rx c);
  drop_sender T c := Mk (items c) (cap c) (pred (txs c)) (rx c);
  drop_receiver T c := Mk (items c) (cap c) (txs c) false;
  contents := @items;
  capacity := @cap;
  senders := @txs;
  receiving := @rx;
}.

#[export] Instance spec : FlumeSpec t.
Proof.
  split; intros; cbn in *; unfold send, recv; repeat split; try done.
  all: repeat match goal with
         | H : rx _ = _ |- _ => rewrite H
         | H : items _ = _ |- _ => rewrite H
         end; cbn.
  all: repeat (case_decide; try lia); unfold chan_after; cbn; eauto 10.
Qed.
End ListChan.

(** ** Oneshot channels *)

(** Nothing sent yet with both ends alive; a value sent; the sender dropped
    without sending; the receiver dropped. *)
Inductive oneshot_state (T : Type) : Type :=
  | OsPending
  | OsSent (x : T)
  | OsClosed
  | OsDeaf.
Arguments OsPending {T}.
Arguments OsSent {T} x.
Arguments OsClosed {T}.
Arguments OsDeaf {T}.

Class Oneshot (oneshot : Type → Type) : Type := {
  os_new {T} : oneshot T;
  os_send {T} : T → oneshot T → bool * oneshot T;
  os_drop_sender {T} : oneshot T → oneshot T;
  os_drop_receiver {T} : oneshot T → oneshot T;
  os_state {T} : oneshot T → oneshot_state T;
}.
#[global] Hint Mode Oneshot ! : typeclass_instances.

Class OneshotSpec (oneshot : Type → Type) `{!Oneshot oneshot} : Prop := {
  os_new_spec T : os_state (os_new : oneshot T) = OsPending;
  os_send_pending T (x : T) (o : oneshot T) :
    os_state o = OsPending → ∃ o', os_send x o = (true, o') ∧ os_state o' = OsSent x;
  os_send_deaf T (x : T) (o : oneshot T) :
    os_state o = OsDeaf → ∃ o', os_send x o = (false, o') ∧ os_state o' = OsDeaf;
  os_drop_sender_pending T (o : oneshot T) :
    os_state o = OsPending → os_state (os_drop_sender o) = OsClosed;
  os_drop_sender_deaf T (o : oneshot T) :
    os_state o = OsDeaf → os_state (os_drop_sender o) = OsDeaf;
  os_drop_receiver_spec T (o : oneshot T) : os_state (os_drop_receiver o) = OsDeaf;
}.

Module CellOneshot.
Definition send {T} (x : T) (o : oneshot_state T) : bool * oneshot_state T :=
  match o with
  | OsPending => (true, OsSent x)
  | o => (false, o)
  end.

#[export] Instance oneshot : Oneshot oneshot_state := {
  os_new T := OsPending;
  os_send := @send;
  os_drop_sender T o := match o with OsPending => OsClosed | o => o end;
  os_drop_receiver T o := OsDeaf;
  os_state T o := o;
}.

#[export] Instance spec : OneshotSpec oneshot_state.
Proof. split; intros; cbn in *; simplify_eq; eauto. Qed.
End CellOneshot.

(** ** Semaphores

    What the accept loops use of tokio's counting semaphore: an owned permit
    is taken, or refused when none is left, and comes back when dropped. *)

Class Semaphore (sem : Type) : Type := {
  sem_new : nat → sem;
  try_acquire_owned : sem → option sem;
  drop_permit : sem → sem;
  available_permits : sem → nat;
}.
#[global] Hint Mode Semaphore ! : typeclass_instances.

Class SemaphoreSpec (sem : Type) `{!Semaphore sem} : Prop := {
  sem_new_spec n : available_permits (sem_new n : sem) = n;
  acquire_none (s : sem) : available_permits s = 0%nat → try_acquire_owned s = None;
  acquire_some (s : sem) n :
    available_permits s = S n → ∃ s', try_acquire_owned s = Some s' ∧ available_permits s' = n;
  drop_permit_spec (s : sem) : available_permits (drop_permit s) = S (available_permits s);
}.

Lemma acquire_inv {sem} `{!Semaphore sem, !SemaphoreSpec sem} (s s' : sem) :
  try_acquire_owned s = Some s' → available_permits s = S (available_permits s').
Proof.
  intros E. destruct (available_permits s) as [|n] eqn:En.
  - by rewrite acquire_none in E.
  - destruct (acquire_some s n En) as (s1 & E1 & <-). congruence.
Qed.

Module NatSemaphore.
#[export] Instance semaphore : Semaphore nat := {
  sem_new n := n;
  try_acquire_owned n := match n with O => None | S n => Some n end;
  drop_permit := S;
  available_permits n := n;
}.

#[export] Instance spec : SemaphoreSpec nat.
Proof. split; intros; cbn in *; subst; eauto. Qed.
End NatSemaphore.

(** ** Unbounded channels

    What the shards use of a tokio unbounded channel with its single sender:
    a send succeeds while the receiver lives and hands the message back when
    it is gone; messages still queued when the receiver goes are dropped with
    it. *)

Class Mpsc (queue : Type → Type) : Type := {
  unbounded {T} : queue T;
  mpsc_send {T} : T → queue T → queue T + T;
  mpsc_recv {T} : queue T → recv_result T * queue T;
  mpsc_drop_tx {T} : queue T → queue T;
  mpsc_drop_rx {T} : queue T → queue T;
  mpsc_items {T} : queue T → list T;
  mpsc_tx {T} : queue T → bool;
  mpsc_rx {T} : queue T → bool;
}.
#[global] Hint Mode Mpsc ! : typeclass_instances.

Definition mpsc_view {queue : Type → Type} `{!Mpsc queue} {T} (q : queue T)
  : list T * bool * bool := (mpsc_items q, mpsc_tx q, mpsc_rx q).

Class MpscSpec (queue : Type → Type) `{!Mpsc queue} : Prop := {
  unbounded_spec T : mpsc_view (unbounded : queue T) = ([], true, true);
  mpsc_send_open T (x : T) (q : queue T) :
    mpsc_rx q = true →
    ∃ q', mpsc_send x q = inl q' ∧ mpsc_view q' = (mpsc_items q ++ [x], mpsc_tx q, true);
  mpsc_send_closed T (x : T) (q : queue T) : mpsc_rx q = false → mpsc_send x q = inr x;
  mpsc_recv_ok T (x : T) l (q : queue T) :
    mpsc_items q = x :: l →
    ∃ q', mpsc_recv q = (RecvOk x, q') ∧ mpsc_view q' = (l, mpsc_tx q, mpsc_rx q);
  mpsc_recv_nil T (q : queue T) :
    mpsc_items q = [] →
    mpsc_recv q = (if mpsc_tx q then RecvEmpty else RecvDisconnected, q);
  mpsc_drop_tx_spec T (q : queue T) :
    mpsc_view (mpsc_drop_tx q) = (mpsc_items q, false, mpsc_rx q);
  mpsc_drop_rx_spec T (q : queue T) : mpsc_view (mpsc_drop_rx q) = ([], mpsc_tx q, false);
}.

Module ListMpsc.
Definition t (T : Type) : Type := list T * bool * bool.

#[export] Instance mpsc : Mpsc t := {
  unbounded T := ([], true, true);
  mpsc_send T x '(l, tx, rx) := if rx then inl (l ++ [x], tx, rx) else inr x;
  mpsc_recv T q :=
    match q with
    | (x :: l, tx, rx) => (RecvOk x, (l, tx, rx))
    | ([], tx, _) => (if tx then RecvEmpty else RecvDisconnected, q)
    end;
  mpsc_drop_tx T '(l, tx, rx) := (l, false, rx);
  mpsc_drop_rx T '(l, tx, rx) := ([], tx, false);
  mpsc_items T q := q.1.1;
  mpsc_tx T q := q.1.2;
  mpsc_rx T q := q.2;
}.

#[export] Instance spec : MpscSpec t.
Proof.
  split; unfold mpsc_view; intros T; [done|..];
    try (intros x [[l' tx] rx]; cbn; intros ->; eauto);
    try (intros [[l' tx] rx]; cbn; try intros ->; done).
  intros x l [[l' tx] rx]; cbn. intros ->. eauto.
Qed.
End ListMpsc.

(** ** Watch channels

    What the program uses of a tokio watch channel: the latest value, and for
    each receiver whether it has seen it. A send needs a live receiver: without
    one it fails and changes nothing. [changed] is ready when there is a value
    the receiver has not seen, or the sender is gone. *)

Class Watch (watch receiver : Type → Type) : Type := {
  watch_channel {T} : T → watch T * receiver T;
  subscribe {T} : watch T → watch T * receiver T;
  watch_send {T} : T → watch T → watch T;
  watch_drop_tx {T} : watch T → watch T;
  watch_drop_rx {T} : watch T → watch T;
  borrow_and_update {T} : watch T → receiver T → T * receiver T;
  changed {T} : watch T → receiver T → option (receiver T);
  latest {T} : watch T → T;
  watch_closed {T} : watch T → bool;
  receivers {T} : watch T → nat;
  belongs {T} : watch T → receiver T → Prop;
  unseen {T} : watch T → receiver T → bool;
}.
#[global] Hint Mode Watch ! - : typeclass_instances.

Section watch_view.
Context {watch receiver : Type → Type} `{!Watch watch receiver} {T : Type}.

(** [w'] shows its receivers what [w] did. *)
Definition watch_same (w w' : watch T) : Prop :=
  latest w' = latest w
  ∧ ∀ rx : receiver T, belongs w rx → belongs w' rx ∧ unseen w' rx = unseen w rx.
End watch_view.

Class WatchSpec (watch receiver : Type → Type) `{!Watch watch receiver} : Prop := {
  watch_channel_spec T (x : T) :
    let '(w, rx) := watch_channel (watch := watch) (receiver := receiver) x in
    latest w = x ∧ receivers w = 1%nat ∧ watch_closed w = false ∧ belongs w rx ∧ unseen w rx = false;
  subscribe_spec T (w : watch T) :
    let '(w', rx) := subscribe (receiver := receiver) w in
    watch_same w w' ∧ receivers w' = S (receivers w) ∧ watch_closed w' = watch_closed w
    ∧ belongs w' rx ∧ unseen w' rx = false;
  watch_send_heard T (x : T) (w : watch T) :
    receivers w ≠ 0%nat →
    latest (watch_send x w) = x ∧ receivers (watch_send x w) = receivers w
    ∧ watch_closed (watch_send x w) = watch_closed w
    ∧ ∀ rx : receiver T, belongs w rx → belongs (watch_send x w) rx ∧ unseen (watch_send x w) rx = true;
  watch_send_unheard T (x : T) (w : watch T) : receivers w = 0%nat → watch_send x w = w;
  watch_drop_tx_spec T (w : watch T) :
    watch_same w (watch_drop_tx w) ∧ receivers (watch_drop_tx w) = receivers w
    ∧ watch_closed (watch_drop_tx w) = true;
  watch_drop_rx_spec T (w : watch T) :
    watch_same w (watch_drop_rx w) ∧ receivers (watch_drop_rx w) = pred (receivers w)
    ∧ watch_closed (watch_drop_rx w) = watch_closed w;
  borrow_and_update_spec T (w : watch T) (rx : receiver T) :
    belongs w rx →
    ∃ rx', borrow_and_update w rx = (latest w, rx') ∧ belongs w rx' ∧ unseen w rx' = false;
  changed_unseen T (w : watch T) (rx : receiver T) :
    belongs w rx → unseen w rx = true →
    ∃ rx', changed w rx = Some rx' ∧ belongs w rx' ∧ unseen w rx' = false;
  changed_closed T (w : watch T) (rx : receiver T) :
    belongs w rx → unseen w rx = false → watch_closed w = true → changed w rx = Some rx;
  changed_pending T (w : watch T) (rx : receiver T) :
    belongs w rx → unseen w rx = false → watch_closed w = false → changed w rx = None;
}.

(** Versions: a receiver is the number of the value it last saw. *)
Module VersionWatch.
Record t (T : Type) : Type := Mk {
  value : T;
  version : nat;
  dropped : bool;
  rxs : nat;
}.
Arguments Mk {T}.
Arguments value {T}.
Arguments version {T}.
Arguments dropped {T}.
Arguments rxs {T}.

Definition rx (T : Type) : Type := nat.

#[export] Instance watch : Watch t rx := {
  watch_channel T x := (Mk x 0 false 1, 0%nat);
  subscribe T w := (Mk (value w) (version w) (dropped w) (S (rxs w)), version w);
  watch_send T x w :=
    if (rxs w =? 0)%nat then w else Mk x (S (version w)) (dropped w) (rxs w);
  watch_drop_tx T w := Mk (value w) (version w) true (rxs w);
  watch_drop_rx T w := Mk (value w) (version w) (dropped w) (pred (rxs w));
  borrow_and_update T w seen := (value w, version w);
  changed T w seen :=
    if (seen =? version w)%nat then (if dropped w then Some seen else None) else Some (version w);
  latest := @value;
  watch_closed := @dropped;
  receivers := @rxs;
  belongs T w seen := (seen ≤ version w)%nat;
  unseen T w seen := negb (seen =? version w)%nat;
}.

#[export] Instance spec : WatchSpec t rx.
Proof.
  split; unfold watch_same; simpl.
  - intros T x. split_and!; auto.
  - intros T w. split_and!; auto using Nat.eqb_refl. by rewrite Nat.eqb_refl.
  - intros T x w Hw. apply Nat.eqb_neq in Hw. rewrite Hw. simpl. split_and!; [done..|].
    intros seen Hs. split; [lia|]. assert (seen =? S (version w) = false)%nat as -> by (apply Nat.eqb_neq; lia).
    done.
  - by intros T x w ->.
  - intros T w. split_and!; auto.
  - intros T w. split_and!; auto.
  - intros T w seen _. exists (version w). by rewrite Nat.eqb_refl.
  - intros T w seen _ Hs. exists (version w). rewrite Nat.eqb_refl.
    by destruct (seen =? version w)%nat.
  - intros T w seen _ Hs ->. by destruct (seen =? version w)%nat.
  - intros T w seen _ Hs ->. by destruct (seen =? version w)%nat.
Qed.
End VersionWatch.

#[export] Existing Instance NatSemaphore.semaphore.
#[export] Existing Instance NatSemaphore.spec.
#[export] Existing Instance ListMpsc.mpsc.
#[export] Existing Instance ListMpsc.spec.
#[export] Existing Instance ListChan.flume.
#[export] Existing Instance ListChan.spec.
#[export] Existing Instance CellOneshot.oneshot.
#[export] Existing Instance CellOneshot.spec.
#[export] Existing Instance VersionWatch.watch.
#[export] Existing Instance VersionWatch.spec.
