(* ===== verification/Floats.v ===== *)
(** Floating point: [f64] as IEEE binary64, what the program computes with it,
    and how Rust prints it. *)

From S2P Require Import Prelude Text.
From Stdlib Require Export SpecFloat.

(** [f64] is IEEE binary64, computed with [SpecFloat]. *)

Definition f64 : Type := spec_float.
Definition f64_of (z : Z) : f64 := binary_normalize 53 1024 z 0 false.
Definition f64_add : f64 → f64 → f64 := SFadd 53 1024.
Definition f64_mul : f64 → f64 → f64 := SFmul 53 1024.
Definition f64_div : f64 → f64 → f64 := SFdiv 53 1024.

(** [num / 2^k], rounded to an integer, ties to even. *)
Definition div_pow2_even (num : Z) (k : nat) : Z :=
  let d := 2 ^ Z.of_nat k in
  let q := num / d in
  let r := num mod d in
  if (2 * r <? d) then q
  else if (d <? 2 * r) then q + 1
  else if Z.even q then q else q + 1.

(** [{:.1}] of a non-negative number. *)
Definition fmt_1 (x : f64) : string :=
  let tenths :=
    match x with
    | S754_finite _ m e =>
        if 0 <=? e then Z.pos m * 10 * 2 ^ e else div_pow2_even (Z.pos m * 10) (Z.to_nat (- e))
    | _ => 0
    end in
  display (tenths / 10) +:+ "." +:+ display (tenths mod 10).

Lemma div_pow2_even_nonneg num k : 0 ≤ num → 0 ≤ div_pow2_even num k.
Proof.
  intros Hn. unfold div_pow2_even.
  pose proof (Z.div_pos num (2 ^ Z.of_nat k) Hn (Z.pow_pos_nonneg 2 (Z.of_nat k) ltac:(lia) ltac:(lia))).
  repeat case_match; lia.
Qed.

(** [Display] of a non-negative [f64]: the shortest decimal that reads back
    as the same number, without an exponent. For the quotients printed here
    (at most [2^64 / 10^6]) negative exponents suffice and 25 digits after the
    point are more than enough. *)
Definition decimal_of (x : f64) (digits : Z) : Z :=
  match x with
  | S754_finite _ m e =>
      let n := Z.pos m * 10 ^ digits in
      if 0 <=? e then n * 2 ^ e else div_pow2_even n (Z.to_nat (- e))
  | _ => 0
  end.

Definition reads_back (x : f64) (n digits : Z) : bool :=
  match n with
  | Z.pos p =>
      SFeqb x (f64_div (S754_finite false p 0) (S754_finite false (Z.to_pos (10 ^ digits)) 0))
  | _ => SFeqb x (f64_of 0)
  end.

Fixpoint shortest (fuel : nat) (digits : Z) (x : f64) : Z * Z :=
  let n := decimal_of x digits in
  match fuel with
  | O => (n, digits)
  | S fuel => if reads_back x n digits then (n, digits) else shortest fuel (digits + 1) x
  end.

Fixpoint zeros (n : nat) : string := match n with O => "" | S n => "0" +:+ zeros n end.

Definition display_f64 (x : f64) : string :=
  let '(n, digits) := shortest 25 0 x in
  if digits =? 0 then display n
  else
    let frac := display (n mod 10 ^ digits) in
    display (n / 10 ^ digits) +:+ "." +:+ zeros (Z.to_nat digits - String.length frac) +:+ frac.
