(* ===== verification/Histogram.v ===== *)
(** The queue-wait histogram of [registry.rs]: fourteen fixed buckets, an
    overflow count, the sum of the waits and their number, recorded at every
    admit and read by the control plane. *)

From S2P Require Import Prelude Floats.
From Stdlib Require Import Sorted.

(** Bucket boundaries in microseconds, 0.5 ms to 10 s. *)
Definition QUEUE_BOUNDS_US : list Z :=
  [500; 1000; 2500; 5000; 10000; 25000; 50000; 100000; 250000; 500000; 1000000;
   2500000; 5000000; 10000000].

Record QueueHistogram : Type := MkHistogram {
  buckets : list Z;
  overflow : Z;
  sum_us : Z;
  count : Z;
}.

Record QueueHistogramSnapshot : Type := MkHistogramSnapshot {
  snap_buckets : list Z;
  snap_overflow : Z;
  snap_sum_us : Z;
  snap_count : Z;
}.

Definition histogram_new : QueueHistogram :=
  MkHistogram (replicate (length QUEUE_BOUNDS_US) 0) 0 0 0.

(** [QueueHistogram::record], an atomic addition at a time: the first bound at
    or above the wait takes the count, else the overflow does; then the sum
    and the count. *)
Definition place (wait_us : Z) (h : QueueHistogram) : QueueHistogram :=
  match position (λ bound, wait_us <=? bound) QUEUE_BOUNDS_US with
  | Some i => MkHistogram (alter (λ n, n +w 1) i (buckets h)) (overflow h) (sum_us h) (count h)
  | None => MkHistogram (buckets h) (overflow h +w 1) (sum_us h) (count h)
  end.

Definition add_sum (wait_us : Z) (h : QueueHistogram) : QueueHistogram :=
  MkHistogram (buckets h) (overflow h) (sum_us h +w wait_us) (count h).

Definition add_count (h : QueueHistogram) : QueueHistogram :=
  MkHistogram (buckets h) (overflow h) (sum_us h) (count h +w 1).

Definition record (h : QueueHistogram) (wait_us : Z) : QueueHistogram :=
  add_count (add_sum wait_us (place wait_us h)).

Definition snapshot (h : QueueHistogram) : QueueHistogramSnapshot :=
  MkHistogramSnapshot (buckets h) (overflow h) (sum_us h) (count h).

(** The summed wait in seconds: microseconds over a million, as [f64]s. *)
Definition sum_seconds (h : QueueHistogramSnapshot) : f64 := f64_div (f64_of (snap_sum_us h)) (f64_of 1000000).

(** ** Specification *)

(** The histogram after the waits [ws], oldest first. *)
Definition recorded (ws : list Z) : QueueHistogram := foldl record histogram_new ws.

(** The half-open interval of waits bucket [i] stands for. *)
Definition in_bucket (i : nat) (w : Z) : bool :=
  match i with
  | O => true
  | S j => nth j QUEUE_BOUNDS_US 0 <? w
  end && (w <=? nth i QUEUE_BOUNDS_US 0).

Definition past_bounds (w : Z) : bool := 10000000 <? w.

Lemma strongly_sorted_lookup l :
  StronglySorted Z.lt l →
  ∀ i j x y, (i < j)%nat → l !! i = Some x → l !! j = Some y → x < y.
Proof.
  induction 1 as [|z l Hl IH Hz]; intros [|i] [|j] x y Hij Hx Hy; simplify_eq/=; try lia.
  - apply (proj1 (List.Forall_forall _ _) Hz). eapply list_elem_of_In, list_elem_of_lookup_2, Hy.
  - apply (IH i j); auto with lia.
Qed.

Lemma bounds_sorted i j x y :
  (i < j)%nat → QUEUE_BOUNDS_US !! i = Some x → QUEUE_BOUNDS_US !! j = Some y → x < y.
Proof. apply strongly_sorted_lookup. by repeat constructor. Qed.

Lemma position_bounds w i :
  position (λ bound, w <=? bound) QUEUE_BOUNDS_US = Some i
  ↔ (i < 14)%nat ∧ in_bucket i w = true.
Proof.
  rewrite position_some. unfold in_bucket. split.
  - intros [(b & Hb & Hle) Hlt].
    rewrite (nth_lookup_Some _ _ _ _ Hb), Hle, andb_true_r.
    split; [by apply lookup_lt_Some in Hb|].
    destruct i as [|i]; [done|].
    destruct (QUEUE_BOUNDS_US !! i) as [c|] eqn:Hc.
    + rewrite (nth_lookup_Some _ _ _ _ Hc). specialize (Hlt i c ltac:(lia) Hc). lia.
    + apply lookup_ge_None in Hc. apply lookup_lt_Some in Hb. lia.
  - intros [Hi [H1 H2]%andb_prop].
    destruct (lookup_lt_is_Some_2 QUEUE_BOUNDS_US i Hi) as [b Hb].
    rewrite (nth_lookup_Some _ _ _ _ Hb) in H2. split; [eauto|].
    intros j y Hj Hy. destruct i as [|i]; [lia|].
    destruct (lookup_lt_is_Some_2 QUEUE_BOUNDS_US i) as [c Hc]; [unfold QUEUE_BOUNDS_US; cbn; lia|].
    rewrite (nth_lookup_Some _ _ _ _ Hc) in H1.
    assert (y ≤ c); [|lia].
    destruct (decide (i = j)) as [->|]; [naive_solver lia|].
    pose proof (bounds_sorted j i y c ltac:(lia) Hy Hc). lia.
Qed.

Lemma position_past w :
  position (λ bound, w <=? bound) QUEUE_BOUNDS_US = None ↔ past_bounds w = true.
Proof.
  rewrite position_none. unfold past_bounds. split.
  - intros H. specialize (H 13%nat _ eq_refl). lia.
  - intros H j y Hy. assert (y ≤ 10000000); [|lia].
    destruct (decide (j = 13%nat)) as [->|]; [naive_solver lia|].
    pose proof (lookup_lt_Some _ _ _ Hy) as Hj. cbn in Hj.
    pose proof (bounds_sorted j 13 y 10000000 ltac:(lia) Hy eq_refl). lia.
Qed.

Lemma recorded_snoc ws w : recorded (ws ++ [w]) = record (recorded ws) w.
Proof. unfold recorded. by rewrite foldl_app. Qed.

Lemma length_buckets_place w h : length (buckets (place w h)) = length (buckets h).
Proof. unfold place. destruct (position _ _); cbn; [by rewrite length_alter|done]. Qed.

Lemma length_buckets_record h w : length (buckets (record h w)) = length (buckets h).
Proof. apply length_buckets_place. Qed.

Lemma length_buckets_recorded ws : length (buckets (recorded ws)) = 14%nat.
Proof.
  induction ws as [|w ws IH] using rev_ind; [done|].
  by rewrite recorded_snoc, length_buckets_record.
Qed.

Lemma place_bucket h w i n :
  (i < 14)%nat → buckets h !! i = Some n →
  buckets (place w h) !! i = Some (if in_bucket i w then n +w 1 else n).
Proof.
  intros Hi Hn. unfold place. destruct (in_bucket i w) eqn:Hb.
  - rewrite (proj2 (position_bounds w i)) by done. cbn.
    by rewrite list_lookup_alter_eq, Hn.
  - destruct (position _ _) as [j|] eqn:Hp; [|done]. cbn.
    rewrite list_lookup_alter_ne; [done|]. intros ->.
    apply position_bounds in Hp as [_ Hp]. congruence.
Qed.

Lemma record_bucket h w i n :
  (i < 14)%nat → buckets h !! i = Some n →
  buckets (record h w) !! i = Some (if in_bucket i w then n +w 1 else n).
Proof. apply place_bucket. Qed.

Lemma place_overflow h w :
  overflow (place w h) = if past_bounds w then overflow h +w 1 else overflow h.
Proof.
  unfold place. destruct (past_bounds w) eqn:Hb.
  - by rewrite (proj2 (position_past w)).
  - destruct (position _ _) as [j|] eqn:Hp; [done|]. apply position_past in Hp. congruence.
Qed.

Lemma record_overflow h w :
  overflow (record h w) = if past_bounds w then overflow h +w 1 else overflow h.
Proof. apply place_overflow. Qed.

Lemma place_frame h w : sum_us (place w h) = sum_us h ∧ count (place w h) = count h.
Proof. unfold place. by destruct (position _ _). Qed.

Lemma record_sum h w : sum_us (record h w) = sum_us h +w w.
Proof. cbn. by rewrite (proj1 (place_frame h w)). Qed.

Lemma record_count h w : count (record h w) = count h +w 1.
Proof. cbn. by rewrite (proj2 (place_frame h w)). Qed.

Lemma wrap_count_step (b : bool) z :
  (if b then wrap64 z +w 1 else wrap64 z) = wrap64 (z + (if b then 1 else 0)).
Proof. unfold u64_add. destruct b; autorewrite with kino_u64; f_equal; lia. Qed.

(** Bucket [i] counts exactly the waits of its interval. *)
Lemma recorded_bucket ws i :
  (i < 14)%nat → buckets (recorded ws) !! i = Some (wrap64 (count_if (in_bucket i) ws)).
Proof.
  intros Hi. induction ws as [|w ws IH] using rev_ind.
  { cbn [recorded foldl histogram_new buckets]. by rewrite lookup_replicate_2. }
  rewrite recorded_snoc, count_if_snoc, <- wrap_count_step. by apply record_bucket.
Qed.

Lemma recorded_totals ws :
  overflow (recorded ws) = wrap64 (count_if past_bounds ws)
  ∧ sum_us (recorded ws) = wrap64 (Zsum ws)
  ∧ count (recorded ws) = wrap64 (Z.of_nat (length ws)).
Proof.
  induction ws as [|w ws (IH1 & IH2 & IH3)] using rev_ind; [done|].
  rewrite recorded_snoc, record_overflow, record_sum, record_count, IH1, IH2, IH3,
    count_if_snoc, <- wrap_count_step, Zsum_app, length_app. cbn.
  unfold u64_add. autorewrite with kino_u64.
  repeat split; f_equal; lia.
Qed.

(** after any sequence of admits the histogram is the reference
    distribution: bucket [i] holds the number of waits in its half-open
    interval, the overflow those past 10 s, [sum_us] and [count] their sum
    and number, all modulo the width of the counters. *)
Theorem histogram_correct ws :
  (∀ i, (i < length QUEUE_BOUNDS_US)%nat →
     snap_buckets (snapshot (recorded ws)) !! i = Some (wrap64 (count_if (in_bucket i) ws)))
  ∧ snap_overflow (snapshot (recorded ws)) = wrap64 (count_if past_bounds ws)
  ∧ snap_sum_us (snapshot (recorded ws)) = wrap64 (Zsum ws)
  ∧ snap_count (snapshot (recorded ws)) = wrap64 (Z.of_nat (length ws)).
Proof.
  split; [|apply recorded_totals]. intros i Hi. by apply recorded_bucket.
Qed.
