(* ===== verification/Pin.v ===== *)
(** Zero-copy response bodies ([pin.rs], and [body_bytes] of [request.rs]):
    the slab of GC roots, its lock-free claim and release, and the choice
    between pinning a Ruby string and copying it. *)

From S2P Require Import Prelude Text.

Definition ZERO_COPY_MIN : nat := Z.to_nat 4096.
Definition SLAB_CAPACITY : nat := Z.to_nat 4096.

(** A slot holds a Ruby VALUE, 0 when empty. *)
Record PinSlab : Type := MkPinSlab {
  slots : list Z;
  cursor : Z;
  shareable_only : bool;
}.

Definition with_capacity (capacity : nat) : PinSlab := MkPinSlab (replicate capacity 0) 0 false.

(** [per_ractor_gc] is the build's [cfg!(ruby_gte_4_1)]. *)
Definition for_responses (per_ractor_gc ractor_mode : bool) : PinSlab :=
  let s := with_capacity SLAB_CAPACITY in
  MkPinSlab (slots s) (cursor s) (ractor_mode && per_ractor_gc).

(** The cursor's [fetch_add]: the old value and the slab after it. *)
Definition next_start (s : PinSlab) : Z * PinSlab :=
  (cursor s, MkPinSlab (slots s) (cursor s +w 1) (shareable_only s)).

(** [slots[index].compare_exchange(0, value)]: whether it succeeded. *)
Definition claim_slot (index : nat) (value : Z) (s : PinSlab) : bool * PinSlab :=
  if bool_decide (slots s !! index = Some 0)
  then (true, MkPinSlab (<[index:=value]> (slots s)) (cursor s) (shareable_only s))
  else (false, s).

(** The claim loop over the slot indices still to visit. *)
Fixpoint claim_first (value : Z) (order : list nat) (s : PinSlab) : option nat * PinSlab :=
  match order with
  | [] => (None, s)
  | index :: order =>
      match claim_slot index value s with
      | (true, s) => (Some index, s)
      | (false, s) => claim_first value order s
      end
  end.

Definition insert (value : Z) (s : PinSlab) : option nat * PinSlab :=
  let '(start, s) := next_start s in
  claim_first value (rotation start (length (slots s))) s.

Definition release (index : nat) (s : PinSlab) : PinSlab :=
  MkPinSlab (<[index:=0]> (slots s)) (cursor s) (shareable_only s).

(** The VALUEs [mark_all] hands to [rb_gc_mark], in slot order. *)
Definition mark_all (s : PinSlab) : list Z := filter (λ v, v ≠ 0) (slots s).

(** The GC's view of a slab: the keeper holds the slab itself, so what it
    marks is what the slab holds at that moment. *)
Record PinKeeper : Type := MkPinKeeper { kept : PinSlab }.

Definition mark (k : PinKeeper) : list Z := mark_all (kept k).

(** ** A body's bytes *)

(** What the code reads of a Ruby String: its VALUE, its bytes, and whether
    the shareable flag is set on it. *)
Record RString : Type := MkRString {
  as_raw : Z;
  rbytes : string;
  flagged_shareable : bool;
}.

Record PinnedBuf : Type := MkPinnedBuf {
  pb_index : nat;
  pb_value : Z;
  pb_bytes : string;
}.

(** [bytes::Bytes]: a copy of its own, or a view owned by a [PinnedBuf]. *)
Inductive Bytes : Type :=
  | BytesCopied (b : string)
  | BytesPinned (b : PinnedBuf).

Definition bytes_as_ref (b : Bytes) : string :=
  match b with
  | BytesCopied b => b
  | BytesPinned b => pb_bytes b
  end.

(** Dropping the buffer: [PinnedBuf]'s [Drop] releases its slot. *)
Definition drop_bytes (b : Bytes) (s : PinSlab) : PinSlab :=
  match b with
  | BytesCopied _ => s
  | BytesPinned b => release (pb_index b) s
  end.

Section body.
(** [rb_str_tmp_frozen_acquire], of Ruby's [string.c]. *)
Variable acquire : RString → RString.

Definition pinned_bytes (slab : PinSlab) (body : RString) : option Bytes * PinSlab :=
  if (String.length (rbytes body) <? ZERO_COPY_MIN)%nat then (None, slab)
  else
    let tmp := acquire body in
    if shareable_only slab && negb (flagged_shareable tmp) then (None, slab)
    else
      match insert (as_raw tmp) slab with
      | (None, slab) => (None, slab)
      | (Some index, slab) =>
          (Some (BytesPinned (MkPinnedBuf index (as_raw tmp) (rbytes tmp))), slab)
      end.

Definition body_bytes (slab : PinSlab) (body : RString) : Bytes * PinSlab :=
  match pinned_bytes slab body with
  | (Some bytes, slab) => (bytes, slab)
  | (None, slab) => (BytesCopied (rbytes body), slab)
  end.
End body.

(** ** Claims one at a time *)

Lemma claim_slot_true i v s s' :
  claim_slot i v s = (true, s') →
  slots s !! i = Some 0 ∧ slots s' = <[i:=v]> (slots s) ∧ cursor s' = cursor s
  ∧ shareable_only s' = shareable_only s.
Proof. unfold claim_slot. case_bool_decide; intros [= <-]; auto. Qed.

Lemma claim_slot_false i v s s' :
  claim_slot i v s = (false, s') → slots s !! i ≠ Some 0 ∧ s' = s.
Proof. unfold claim_slot. case_bool_decide; by intros [= <-]. Qed.

Lemma claim_first_some v order s i s' :
  claim_first v order s = (Some i, s') →
  i ∈ order ∧ slots s !! i = Some 0 ∧ slots s' = <[i:=v]> (slots s)
  ∧ cursor s' = cursor s ∧ shareable_only s' = shareable_only s.
Proof.
  induction order as [|j order IH]; cbn; [done|].
  destruct (claim_slot j v s) as [[] s1] eqn:E; intros H; simplify_eq.
  - apply claim_slot_true in E. set_solver.
  - apply claim_slot_false in E as [_ ->]. apply IH in H. set_solver.
Qed.

Lemma claim_first_none v order s s' :
  claim_first v order s = (None, s') → s' = s ∧ ∀ i, i ∈ order → slots s !! i ≠ Some 0.
Proof.
  induction order as [|j order IH]; cbn; [intros [= ->]; set_solver|].
  destruct (claim_slot j v s) as [[] s1] eqn:E; intros H; simplify_eq.
  apply claim_slot_false in E as [Hj ->]. apply IH in H as [-> H].
  split; [done|]. intros i [->|Hi]%elem_of_cons; auto.
Qed.

Definition slab_ok (s : PinSlab) : Prop :=
  u64_ok (cursor s) ∧ cursor s + Z.of_nat (length (slots s)) ≤ u64_modulus.

Lemma insert_some v s i s' :
  insert v s = (Some i, s') →
  slots s !! i = Some 0 ∧ slots s' = <[i:=v]> (slots s) ∧ shareable_only s' = shareable_only s.
Proof. unfold insert. cbn. intros (_ & H1 & H2 & _ & H3)%claim_first_some. done. Qed.

Lemma insert_none v s s' : insert v s = (None, s') → slots s' = slots s.
Proof. unfold insert. cbn. by intros [-> _]%claim_first_none. Qed.

Lemma insert_cursor v s i s' : insert v s = (Some i, s') → cursor s' = cursor s +w 1.
Proof. unfold insert. cbn. by intros (_ & _ & _ & -> & _)%claim_first_some. Qed.

Lemma insert_full v s s' :
  slab_ok s → insert v s = (None, s') → Forall (λ x, x ≠ 0) (slots s).
Proof.
  intros [Hc Hw]. unfold insert. cbn. set (s1 := MkPinSlab _ _ _). intros E.
  apply claim_first_none in E as [_ E].
  apply Forall_lookup. intros i x Hx ->. apply (E i); [|done].
  apply elem_of_rotation; [apply Hc|exact Hw|by apply lookup_lt_Some in Hx].
Qed.

(** a claim takes a slot that was empty, writes the value there and
    touches no other slot; it is refused only by a slab with no empty slot
    (the cursor not wrapping within the sweep). *)
Theorem insert_spec v s :
  slab_ok s →
  match insert v s with
  | (Some i, s') =>
      slots s !! i = Some 0 ∧ slots s' = <[i:=v]> (slots s)
      ∧ shareable_only s' = shareable_only s
  | (None, s') => slots s' = slots s ∧ Forall (λ x, x ≠ 0) (slots s)
  end.
Proof.
  intros Hok. destruct (insert v s) as [[i|] s'] eqn:E; [by apply insert_some in E|].
  split; [by apply insert_none in E|by apply insert_full in E].
Qed.

Example insert_spec_witness :
  slab_ok (with_capacity 2)
  ∧ match insert 7 (with_capacity 2) with
    | (Some i, s') =>
        slots (with_capacity 2) !! i = Some 0 ∧ slots s' = <[i:=7]> (slots (with_capacity 2))
        ∧ shareable_only s' = false
    | (None, s') => slots s' = slots (with_capacity 2) ∧ Forall (λ x, x ≠ 0) [0; 0]
    end.
Proof.
  assert (slab_ok (with_capacity 2)) as H by (vm_compute; done).
  split; [exact H|]. exact (insert_spec 7 (with_capacity 2) H).
Defined.

(** ** Claims that interleave

    Any number of threads share one slab: each advances the cursor, tries one
    slot after another, and, when its buffer is dropped (by whatever thread
    drops it), releases the slot. Every atomic operation is one step. *)

Module Shared.
Inductive pin_thread : Type :=
  | Scanning (value start : Z) (k : nat)
  | Pinned (value : Z) (index : nat)
  | Refused
  | Dropped.

Record pin_sys : Type := MkPinSys {
  slab : PinSlab;
  threads : gmap nat pin_thread;
}.

Definition init (capacity : nat) : pin_sys := MkPinSys (with_capacity capacity) ∅.

Inductive pin_step : pin_sys → pin_sys → Prop :=
  | pin_start s ts t value :
      ts !! t = None → value ≠ 0 →
      pin_step (MkPinSys s ts)
        (MkPinSys (next_start s).2 (<[t:=Scanning value (next_start s).1 0]> ts))
  | pin_try s ts t value start k :
      ts !! t = Some (Scanning value start k) → (k < length (slots s))%nat →
      pin_step (MkPinSys s ts)
        (match claim_slot (rot_index start (length (slots s)) k) value s with
         | (true, s') =>
             MkPinSys s' (<[t:=Pinned value (rot_index start (length (slots s)) k)]> ts)
         | (false, s') => MkPinSys s' (<[t:=Scanning value start (S k)]> ts)
         end)
  | pin_full s ts t value start k :
      ts !! t = Some (Scanning value start k) → (length (slots s) ≤ k)%nat →
      pin_step (MkPinSys s ts) (MkPinSys s (<[t:=Refused]> ts))
  | pin_drop s ts t value index :
      ts !! t = Some (Pinned value index) →
      pin_step (MkPinSys s ts) (MkPinSys (release index s) (<[t:=Dropped]> ts)).

(** Slots and live pins are in one-to-one correspondence. *)
Definition pins_inv (p : pin_sys) : Prop :=
  (∀ t v k i, threads p !! t = Some (Scanning v k i) → v ≠ 0)
  ∧ (∀ t v i, threads p !! t = Some (Pinned v i) → v ≠ 0 ∧ slots (slab p) !! i = Some v)
  ∧ (∀ t1 t2 v1 v2 i, threads p !! t1 = Some (Pinned v1 i) →
       threads p !! t2 = Some (Pinned v2 i) → t1 = t2)
  ∧ (∀ i v, slots (slab p) !! i = Some v → v ≠ 0 → ∃ t, threads p !! t = Some (Pinned v i)).

(** A thread that holds no pin before or after can change freely. *)
Lemma pins_inv_unpinned s s' ts t th :
  slots s' = slots s →
  (∀ v i, ts !! t ≠ Some (Pinned v i)) →
  (∀ v i, th ≠ Pinned v i) → (∀ v k i, th = Scanning v k i → v ≠ 0) →
  pins_inv (MkPinSys s ts) → pins_inv (MkPinSys s' (<[t:=th]> ts)).
Proof.
  intros Hs Hno Hth Hv (I0 & I1 & I2 & I3). unfold pins_inv; cbn in *. rewrite Hs.
  split_and!.
  - intros t' v k i. rewrite lookup_insert. case_decide; [intros [= ->]|]; eauto.
  - intros t' v i. rewrite lookup_insert. case_decide; [naive_solver|eauto].
  - intros t1 t2 v1 v2 i. rewrite !lookup_insert. repeat case_decide; naive_solver.
  - intros i v Hi Hne. destruct (I3 i v Hi Hne) as [t' Ht']. exists t'.
    rewrite lookup_insert_ne; [done|]. intros <-. by apply (Hno v i).
Qed.

Lemma pins_inv_claim s s' ts t v i :
  slots s !! i = Some 0 → slots s' = <[i:=v]> (slots s) → v ≠ 0 →
  (∀ w j, ts !! t ≠ Some (Pinned w j)) →
  pins_inv (MkPinSys s ts) → pins_inv (MkPinSys s' (<[t:=Pinned v i]> ts)).
Proof.
  intros Hi Hs Hv Hno (I0 & I1 & I2 & I3). unfold pins_inv; cbn in *. rewrite Hs.
  pose proof (lookup_lt_Some _ _ _ Hi) as Hlt.
  assert (∀ t' w, ts !! t' ≠ Some (Pinned w i)) as Hfree.
  { intros t' w Ht'. apply I1 in Ht' as [Hw Ht']. congruence. }
  split_and!.
  - intros t' w k j. rewrite lookup_insert. case_decide; [done|eauto].
  - intros t' w j. rewrite lookup_insert. case_decide.
    + intros [= <- <-]. split; [done|]. by apply list_lookup_insert_eq.
    + intros Ht'. destruct (decide (i = j)) as [->|]; [by apply Hfree in Ht'|].
      rewrite list_lookup_insert_ne by done. eauto.
  - intros t1 t2 v1 v2 j. rewrite !lookup_insert. repeat case_decide; naive_solver.
  - intros j w. destruct (decide (i = j)) as [->|].
    + rewrite list_lookup_insert_eq by done. intros [= <-] _. exists t. by rewrite lookup_insert_eq.
    + rewrite list_lookup_insert_ne by done. intros Hj Hw. destruct (I3 j w Hj Hw) as [t' Ht'].
      exists t'. rewrite lookup_insert_ne; [done|]. intros <-. by apply (Hno w j).
Qed.

Lemma pins_inv_drop s ts t v i :
  ts !! t = Some (Pinned v i) →
  pins_inv (MkPinSys s ts) → pins_inv (MkPinSys (release i s) (<[t:=Dropped]> ts)).
Proof.
  intros Ht (I0 & I1 & I2 & I3). unfold pins_inv, release; cbn in *. split_and!.
  - intros t' w k j. rewrite lookup_insert. case_decide; [done|eauto].
  - intros t' w j. rewrite lookup_insert. case_decide as Htt; [done|]. intros Ht'.
    rewrite list_lookup_insert_ne; [eauto|]. intros <-. by apply Htt, (I2 _ _ _ _ _ Ht Ht').
  - intros t1 t2 v1 v2 j. rewrite !lookup_insert. repeat case_decide; naive_solver.
  - intros j w Hj Hw. destruct (decide (i = j)) as [->|].
    + apply list_lookup_insert_Some in Hj. naive_solver.
    + rewrite list_lookup_insert_ne in Hj by done. destruct (I3 j w Hj Hw) as [t' Ht'].
      exists t'. rewrite lookup_insert_ne; [done|]. intros <-. naive_solver.
Qed.

Lemma pins_inv_step p p' : pin_step p p' → pins_inv p → pins_inv p'.
Proof.
  intros [s ts t value Ht Hv|s ts t value start k Ht Hk|s ts t value start k Ht Hk|s ts t value i Ht]
    Hinv.
  - apply (pins_inv_unpinned s); [done|congruence|done|naive_solver|done].
  - assert (value ≠ 0) as Hv by (destruct Hinv as [I0 _]; by eapply I0).
    destruct (claim_slot _ _ _) as [[] s'] eqn:E.
    + apply claim_slot_true in E as (H1 & H2 & _).
      by apply (pins_inv_claim s); [..|congruence|].
    + apply claim_slot_false in E as [_ ->].
      apply (pins_inv_unpinned s); [done|congruence|done|naive_solver|done].
  - apply (pins_inv_unpinned s); [done|congruence|done|done|done].
  - by eapply pins_inv_drop.
Qed.

Lemma pins_inv_init n : pins_inv (init n).
Proof.
  unfold pins_inv; cbn. split_and!; [by intros; simplify_map_eq..|].
  intros i v [-> _]%lookup_replicate. done.
Qed.

(** C18: however claims and drops of any number of threads interleave, two
    live pins never share a slot, each live pin's slot holds its own string,
    and the mark hook marks exactly the strings of the live pins. *)
Theorem pins_exclusive n p :
  steps pin_step (init n) p →
  (∀ t v i, threads p !! t = Some (Pinned v i) → slots (slab p) !! i = Some v)
  ∧ (∀ t1 t2 v1 v2 i, threads p !! t1 = Some (Pinned v1 i) →
       threads p !! t2 = Some (Pinned v2 i) → t1 = t2)
  ∧ ∀ v, v ∈ mark_all (slab p) ↔ ∃ t i, threads p !! t = Some (Pinned v i).
Proof.
  intros Hp. destruct (steps_invariant _ _ pins_inv_step _ _ Hp (pins_inv_init n))
    as (_ & I1 & I2 & I3).
  split; [naive_solver|]. split; [done|]. intros v. unfold mark_all.
  rewrite list_elem_of_filter, list_elem_of_lookup. split.
  - intros [Hv [i Hi]]. destruct (I3 i v Hi Hv) as [t Ht]. eauto.
  - intros (t & i & Ht). apply I1 in Ht as [? ?]. eauto.
Qed.

(** Two threads pin, the first drops. *)
Definition sample_run : pin_sys :=
  MkPinSys (release 0 (insert 9 (insert 7 (with_capacity 2)).2).2)
    {[ 1%nat := Dropped; 2%nat := Pinned 9 1 ]}.

Example pins_exclusive_witness :
  9 ∈ mark_all (slab sample_run) ↔ ∃ t i, threads sample_run !! t = Some (Pinned 9 i).
Proof.
  apply (pins_exclusive 2 sample_run). unfold sample_run.
  eapply steps_cons; [apply (pin_start _ _ 1 7); [done|done]|].
  eapply steps_cons; [apply (pin_try _ _ 1 7 0 0); [done|vm_compute; lia]|].
  eapply steps_cons; [apply (pin_start _ _ 2 9); [done|done]|].
  eapply steps_cons; [apply (pin_try _ _ 2 9 1 0); [done|vm_compute; lia]|].
  eapply steps_cons; [apply (pin_drop _ _ 1 7 0); done|].
  match goal with |- steps _ ?a ?b => replace a with b by (vm_compute; reflexivity) end.
  apply steps_refl.
Defined.
End Shared.

(** ** Zero copy is transparent *)

Section zero_copy.
Variable acquire : RString → RString.
(** [rb_str_tmp_frozen_acquire] returns a string with the same bytes. *)
Hypothesis acquire_bytes : ∀ s, rbytes (acquire s) = rbytes s.

(** whichever path a response body takes, hyper sees the bytes of the
    Ruby string; a pinned body is long enough never to be embedded, its
    acquired string is rooted in a slot that was empty, and on a slab shared
    with worker ractors under per-ractor GC it carries the shareable flag;
    dropping the buffer gives the slot back. *)
Theorem body_bytes_transparent slab body :
  let '(b, slab') := body_bytes acquire slab body in
  bytes_as_ref b = rbytes body
  ∧ match b with
    | BytesCopied _ => slots slab' = slots slab
    | BytesPinned p =>
        (ZERO_COPY_MIN ≤ String.length (rbytes body))%nat
        ∧ slots slab !! pb_index p = Some 0
        ∧ slots slab' = <[pb_index p := as_raw (acquire body)]> (slots slab)
        ∧ (shareable_only slab = true → flagged_shareable (acquire body) = true)
    end
  ∧ slots (drop_bytes b slab') = slots slab.
Proof.
  unfold body_bytes, pinned_bytes.
  destruct (String.length (rbytes body) <? ZERO_COPY_MIN)%nat eqn:Hl; [done|].
  apply Nat.ltb_ge in Hl.
  destruct (shareable_only slab && negb _) eqn:Hs; [done|].
  destruct (insert _ slab) as [[i|] slab'] eqn:E; cbn -[ZERO_COPY_MIN].
  - apply insert_some in E as (H1 & H2 & H3). split; [done|].
    split; [split_and!; [done..|]|].
    + intros Ho. rewrite Ho in Hs. by destruct (flagged_shareable _).
    + rewrite H2, list_insert_insert_eq. by apply list_insert_id.
  - apply insert_none in E. done.
Qed.
End zero_copy.

Example body_bytes_transparent_witness :
  (∀ s : RString, rbytes (id s) = rbytes s)
  ∧ bytes_as_ref (body_bytes id (with_capacity 2) (MkRString 8 "hello" false)).1 = "hello".
Proof.
  assert (∀ s : RString, rbytes (id s) = rbytes s) as H by done. split; [exact H|].
  exact (proj1 (body_bytes_transparent id H (with_capacity 2) (MkRString 8 "hello" false))).
Defined.
