(* ===== verification/Response.v ===== *)
(** The response half of a request ([response.rs]): the responses themselves
    and the [Responder] that three parties race to use, first as operations
    that run alone, then as threads whose atomic steps interleave. *)

From S2P Require Import Prelude Text Channels Pin.

(** ** Responses *)

(** [access_log::Timing], durations in nanoseconds. *)
Record Timing : Type := MkTiming {
  t_wait : Z;
  t_ruby : Z;
  t_gc : option (Z * Z);
}.

Definition Headers : Type := list (string * string).

(** A response builder: [None] once a part of the head was invalid. *)
Record Head : Type := MkHead {
  h_status : Z;
  h_headers : Headers;
  h_timing : option Timing;
}.
Definition Builder : Type := option Head.

Inductive ResponseBody : Type :=
  | FullBody (b : Bytes)
  | StreamBody.

Record HyperResponse : Type := MkResponse {
  head_of : Head;
  body_of : ResponseBody;
}.

Definition status (r : HyperResponse) : Z := h_status (head_of r).

Definition full_body (b : Bytes) : ResponseBody := FullBody b.

Definition plain_response (st : Z) (message : string) : HyperResponse :=
  MkResponse (MkHead st [("content-type", "text/plain")] None) (full_body (BytesCopied message)).

Definition internal_error : HyperResponse := plain_response 500 ("Internal Server Error" +:+ nl).

Inductive BodyAbandon : Type :=
  | Oversize
  | TimedOut.

#[export] Instance BodyAbandon_eq_dec : EqDecision BodyAbandon.
Proof. solve_decision. Defined.

(** A frame of a streamed body, or the error that makes hyper abort. *)
Inductive FrameResult : Type :=
  | FrameData (b : Bytes)
  | FrameErr (message : string).

Definition STREAM_BUFFER : nat := 8.

(** ** The Responder *)

Section responder.
Context {chan oneshot : Type → Type} `{!Flume chan, !Oneshot oneshot}.

(** [head_tx] and [body_tx] say whether the sender is still in its mutex; the
    oneshot and the frame channel it belongs to stand next to it, because
    the other ends are held by the front-end and by hyper. *)
Record Responder : Type := MkResponder {
  responded : bool;
  abandoned_code : Z;
  head_tx : bool;
  head : oneshot HyperResponse;
  body_tx : bool;
  frames : option (chan FrameResult);
}.

Definition responder_new : Responder := MkResponder false 0 true os_new false None.

Definition set_head (ht : bool) (h : oneshot HyperResponse) (r : Responder) : Responder :=
  MkResponder (responded r) (abandoned_code r) ht h (body_tx r) (frames r).

Definition set_body (bt : bool) (f : option (chan FrameResult)) (r : Responder) : Responder :=
  MkResponder (responded r) (abandoned_code r) (head_tx r) (head r) bt f.

Definition abandon_body (why : BodyAbandon) (r : Responder) : Responder :=
  let code := match why with Oversize => 1 | TimedOut => 2 end in
  MkResponder (responded r) code (head_tx r) (head r) (body_tx r) (frames r).

Definition body_abandoned (r : Responder) : option BodyAbandon :=
  if abandoned_code r =? 1 then Some Oversize
  else if abandoned_code r =? 2 then Some TimedOut
  else None.

(** The two atomic halves of [claim]: the swap, and the take of the sender. *)
Definition swap_responded (r : Responder) : bool * Responder :=
  (responded r,
   MkResponder true (abandoned_code r) (head_tx r) (head r) (body_tx r) (frames r)).

Definition take_head_tx (r : Responder) : bool * Responder :=
  (head_tx r, set_head false (head r) r).

Definition claim (r : Responder) : bool * Responder :=
  match swap_responded r with
  | (true, r) => (false, r)
  | (false, r) => take_head_tx r
  end.

(** Send on the sender a claim handed out. *)
Definition send_head (resp : HyperResponse) (r : Responder) : bool * Responder :=
  let '(ok, h) := os_send resp (head r) in (ok, set_head (head_tx r) h r).

Definition send_response (resp : HyperResponse) (r : Responder) : bool * Responder :=
  match claim r with
  | (true, r) => send_head resp r
  | (false, r) => (false, r)
  end.

Definition open_stream (r : Responder) : Responder :=
  set_body true (Some (bounded STREAM_BUFFER)) r.

Definition drop_head_tx (r : Responder) : Responder :=
  set_head (head_tx r) (os_drop_sender (head r)) r.

Definition map_frames (f : chan FrameResult → chan FrameResult) (r : Responder) : Responder :=
  set_body (body_tx r) (match frames r with Some c => Some (f c) | None => None end) r.

(** The streaming head, carrying the receiving end of the frame channel: it
    is dropped with the response when nobody waits for the head. *)
Definition send_stream (h : Head) (r : Responder) : Responder :=
  match send_head (MkResponse h StreamBody) r with
  | (true, r) => r
  | (false, r) => map_frames drop_receiver r
  end.

(** [None] is the builder's error, raised to Ruby: the claimed sender is
    dropped unsent. *)
Definition send_stream_head (builder : Builder) (r : Responder) : option bool * Responder :=
  match claim r with
  | (false, r) => (Some false, r)
  | (true, r) =>
      match builder with
      | None => (None, drop_head_tx r)
      | Some h => (Some true, send_stream h (open_stream r))
      end
  end.

(** A clone of the live frame sender, if a stream is open. *)
Definition body_sender (r : Responder) : bool * Responder :=
  if body_tx r then (true, map_frames clone_sender r) else (false, r).

Definition take_body_tx (r : Responder) : bool * Responder :=
  (body_tx r, set_body false (frames r) r).

Definition finish_stream (r : Responder) : Responder :=
  match take_body_tx r with
  | (true, r) => map_frames drop_sender r
  | (false, r) => r
  end.

(** A blocking send either goes through (or fails on a gone receiver) or
    parks the calling thread until hyper takes a frame. *)
Inductive blocking : Type :=
  | Returned
  | Parked.

Definition abandoned_frame : FrameResult := FrameErr "Kino: response abandoned mid-stream".

(** [body_tx.send(Err(..))] on the sender taken out of the mutex, which is
    dropped once the send is over. *)
Definition send_abandoned (r : Responder) : blocking * Responder :=
  match frames r with
  | None => (Returned, r)
  | Some c =>
      match try_send abandoned_frame c with
      | (SendFull _, _) => (Parked, r)
      | (_, c) => (Returned, set_body (body_tx r) (Some (drop_sender c)) r)
      end
  end.

Definition respond_500_if_unsent (r : Responder) : blocking * Responder :=
  match claim r with
  | (true, r) => (Returned, (send_head internal_error r).2)
  | (false, r) =>
      match take_body_tx r with
      | (true, r) => send_abandoned r
      | (false, r) => (Returned, r)
      end
  end.

(** ** The race

    Three parties call the responder from their own threads. A thread's
    atomic steps are the swap of [responded], the take of [head_tx] and of
    [body_tx] under their locks, and the sends. *)

Inductive op : Type :=
  | OpRespond (resp : HyperResponse)
  | OpStream (builder : Builder)
  | OpAbort.

Inductive pc : Type :=
  | PCall (o : op)
  | PWon (o : op)
  | PHold (o : op)
  | PInstalled (h : Head)
  | PLost
  | PAborting
  | PDone (o : op) (claimed : bool).

(** One atomic step of a thread; [None] when it is done, or parked. *)
Definition atom (p : pc) (r : Responder) : option (pc * Responder) :=
  match p with
  | PCall o =>
      let '(was, r) := swap_responded r in
      Some (if was then (if o is OpAbort then PLost else PDone o false) else PWon o, r)
  | PWon o =>
      let '(got, r) := take_head_tx r in
      Some (if got then PHold o else (if o is OpAbort then PLost else PDone o false), r)
  | PHold (OpRespond resp) => Some (PDone (OpRespond resp) true, (send_head resp r).2)
  | PHold (OpStream None) => Some (PDone (OpStream None) true, drop_head_tx r)
  | PHold (OpStream (Some h)) => Some (PInstalled h, open_stream r)
  | PHold OpAbort => Some (PDone OpAbort true, (send_head internal_error r).2)
  | PInstalled h => Some (PDone (OpStream (Some h)) true, send_stream h r)
  | PLost =>
      let '(got, r) := take_body_tx r in
      Some (if got then PAborting else PDone OpAbort false, r)
  | PAborting =>
      match send_abandoned r with
      | (Returned, r) => Some (PDone OpAbort false, r)
      | (Parked, _) => None
      end
  | PDone _ _ => None
  end.

(** A thread running alone: [fuel] bounds its atomic steps, of which no call
    takes more than four. *)
Fixpoint run_alone (fuel : nat) (p : pc) (r : Responder) : pc * Responder :=
  match fuel with
  | O => (p, r)
  | S fuel => match atom p r with Some (p, r) => run_alone fuel p r | None => (p, r) end
  end.

(** What the call [o] does when no other thread interferes. *)
Definition call (o : op) (r : Responder) : Responder :=
  match o with
  | OpRespond resp => (send_response resp r).2
  | OpStream builder => (send_stream_head builder r).2
  | OpAbort => (respond_500_if_unsent r).2
  end.

Record race_sys : Type := MkRace {
  threads : list pc;
  shared : Responder;
}.

(** The other ends: the front-end drops the head receiver (a 504 or a client
    that is gone); hyper takes frames or drops their receiver. *)
Inductive race_step : race_sys → race_sys → Prop :=
  | race_thread i p p' ths r r' :
      ths !! i = Some p → atom p r = Some (p', r') →
      race_step (MkRace ths r) (MkRace (<[i:=p']> ths) r')
  | race_hangup ths r :
      race_step (MkRace ths r) (MkRace ths (set_head (head_tx r) (os_drop_receiver (head r)) r))
  | race_frame ths r :
      race_step (MkRace ths r) (MkRace ths (map_frames (λ c, (try_recv c).2) r))
  | race_frames_gone ths r :
      race_step (MkRace ths r) (MkRace ths (map_frames drop_receiver r)).

Definition race_init (ops : list op) : race_sys := MkRace (PCall <$> ops) responder_new.

(** The run in which the threads of [turns] move in that order. *)
Fixpoint schedule (turns : list nat) (s : race_sys) : option race_sys :=
  match turns with
  | [] => Some s
  | i :: turns =>
      p ← threads s !! i;
      '(p, r) ← atom p (shared s);
      schedule turns (MkRace (<[i:=p]> (threads s)) r)
  end.

(** The response an operation puts on the head channel. *)
Definition answer (o : op) : option HyperResponse :=
  match o with
  | OpRespond resp => Some resp
  | OpStream (Some h) => Some (MkResponse h StreamBody)
  | OpStream None => None
  | OpAbort => Some internal_error
  end.

(** The call a thread makes. *)
Definition op_of (p : pc) : op :=
  match p with
  | PCall o | PWon o | PHold o | PDone o _ => o
  | PInstalled h => OpStream (Some h)
  | PLost | PAborting => OpAbort
  end.

(** The thread has won the claim. *)
Definition claimant (p : pc) : bool :=
  match p with
  | PWon _ | PHold _ | PInstalled _ => true
  | PDone _ claimed => claimed
  | _ => false
  end.

Definition unsent (r : Responder) : Prop :=
  os_state (head r) = OsPending ∨ os_state (head r) = OsDeaf.

(** The head and the claimant's place agree. *)
Definition head_agrees (p : pc) (r : Responder) : Prop :=
  match p with
  | PWon _ => head_tx r = true ∧ unsent r
  | PHold _ | PInstalled _ => head_tx r = false ∧ unsent r
  | PDone o _ =>
      head_tx r = false
      ∧ (os_state (head r) = OsDeaf
         ∨ match answer o with
           | Some resp => os_state (head r) = OsSent resp
           | None => os_state (head r) = OsClosed
           end)
  | _ => False
  end.

Definition race_inv (s : race_sys) : Prop :=
  let '(MkRace ths r) := s in
  if responded r
  then ∃ i p, ths !! i = Some p ∧ claimant p = true ∧ head_agrees p r
       ∧ ∀ j q, ths !! j = Some q → claimant q = true → j = i
  else head_tx r = true ∧ unsent r
       ∧ ∀ j q, ths !! j = Some q → ∃ o, q = PCall o.
End responder.
Arguments Responder : clear implicits.
Arguments race_sys : clear implicits.

Section race_proofs.
Context {chan oneshot : Type → Type}
  `{!Flume chan, !FlumeSpec chan, !Oneshot oneshot, !OneshotSpec oneshot}.
Implicit Types (r : Responder chan oneshot) (s : race_sys chan oneshot).

Lemma responded_map_frames f r : responded (map_frames f r) = responded r.
Proof. done. Qed.

(** A thread that is no claimant leaves head and flag alone, or wins. *)
Lemma atom_bystander p r p' r' :
  claimant p = false → responded r = true → atom p r = Some (p', r') →
  claimant p' = false ∧ responded r' = true ∧ head r' = head r ∧ head_tx r' = head_tx r.
Proof.
  intros Hc Hr Ha. destruct r as [re ab ht h bt fr]. simpl in Hr; subst.
  destruct p as [[| |]|o|o|h'| | |o []]; try done; simpl in Ha; simplify_eq/=; try done.
  - destruct bt; done.
  - unfold send_abandoned in Ha. simpl in Ha. repeat case_match; simplify_eq/=; done.
Qed.

Lemma send_head_agrees x r :
  unsent r → let r' := (send_head x r).2 in
  os_state (head r') = OsDeaf ∨ os_state (head r') = OsSent x.
Proof.
  unfold unsent, send_head. intros [Hp|Hd].
  - destruct (os_send_pending _ x _ Hp) as (o' & -> & ?). by right.
  - destruct (os_send_deaf _ x _ Hd) as (o' & -> & ?). by left.
Qed.

Lemma send_head_frame x r :
  let r' := (send_head x r).2 in
  head_tx r' = head_tx r ∧ responded r' = responded r.
Proof. unfold send_head. by destruct (os_send _ _). Qed.

Lemma send_stream_head_of h r :
  head (send_stream h r) = head (send_head (MkResponse h StreamBody) r).2
  ∧ head_tx (send_stream h r) = head_tx r ∧ responded (send_stream h r) = responded r.
Proof. unfold send_stream, send_head. by destruct (os_send _ _) as [[] ?]. Qed.

(** The claimant keeps the head and its place in agreement. *)
Lemma atom_claimant p r p' r' :
  claimant p = true → responded r = true → head_agrees p r → atom p r = Some (p', r') →
  claimant p' = true ∧ responded r' = true ∧ head_agrees p' r'.
Proof.
  intros Hc Hr Ha Hs. destruct p as [| o|o|h| | |]; try done; simpl in Hs.
  - simpl in Ha. destruct Ha as [Ht Hu]. rewrite Ht in Hs. by simplify_eq/=.
  - simpl in Ha. destruct Ha as [Ht Hu].
    destruct o as [x|[h|]|]; simplify_eq/=; rewrite ?Ht; split_and?; auto;
      try (rewrite (proj1 (send_head_frame _ _)) || rewrite (proj2 (send_head_frame _ _))); auto;
      try (by apply send_head_agrees).
    destruct Hu as [Hp|Hd]; [right; by apply os_drop_sender_pending|left; by apply os_drop_sender_deaf].
  - simpl in Ha. destruct Ha as [Ht Hu]. simplify_eq/=.
    destruct (send_stream_head_of h r) as (-> & -> & ->). split_and?; auto.
    by apply send_head_agrees.
Qed.

Lemma race_inv_hangup ths r :
  race_inv (MkRace ths r) →
  race_inv (MkRace ths (set_head (head_tx r) (os_drop_receiver (head r)) r)).
Proof.
  assert (Hd : os_state (os_drop_receiver (head r)) = OsDeaf) by apply os_drop_receiver_spec.
  unfold race_inv, unsent. simpl. case_match; [|naive_solver].
  intros (i & p & ? & ? & Ha & ?). exists i, p. split_and?; auto.
  destruct p; simpl in *; unfold unsent in *; simpl; naive_solver.
Qed.

Lemma race_inv_step s s' : race_step s s' → race_inv s → race_inv s'.
Proof.
  intros [i p p' ths r r' Hi Ha|ths r|ths r|ths r]; [|apply race_inv_hangup|done..].
  unfold race_inv. destruct (responded r) eqn:Hr.
  - intros (j & q & Hj & Hc & Hag & Huniq).
    destruct (claimant p) eqn:Hp.
    + assert (i = j) as -> by eauto. assert (p = q) as -> by congruence.
      destruct (atom_claimant _ _ _ _ Hp Hr Hag Ha) as (Hc' & -> & Hag').
      exists j, p'. rewrite list_lookup_insert_eq by eauto using lookup_lt_Some.
      split_and?; auto. intros k q' [[-> _]|[_ Hk]]%list_lookup_insert_Some; eauto.
    + destruct (atom_bystander _ _ _ _ Hp Hr Ha) as (Hp' & -> & Hh & Ht).
      exists j, q. rewrite list_lookup_insert_ne by congruence. split_and?; auto.
      * destruct q; simpl in *; unfold unsent in *; rewrite ?Hh, ?Ht; done.
      * intros k q' [(-> & -> & _)|[_ Hk]]%list_lookup_insert_Some Hq; [congruence|eauto].
  - intros (Ht & Hu & Hall). destruct (Hall _ _ Hi) as [o ->]. simpl in Ha.
    rewrite Hr in Ha. simplify_eq/=. exists i, (PWon o).
    rewrite list_lookup_insert_eq by eauto using lookup_lt_Some. split_and?; [done|done|by split|].
    intros k q' [(-> & <- & _)|[_ Hk]]%list_lookup_insert_Some Hq; [done|].
    destruct (Hall _ _ Hk) as [? ->]. done.
Qed.

Lemma race_inv_reachable ops s : steps race_step (race_init ops) s → race_inv s.
Proof.
  intros Hs. apply (steps_invariant race_step race_inv) in Hs; [done|eauto using race_inv_step|].
  unfold race_inv, race_init, unsent. simpl. split_and?; auto using os_new_spec.
  intros j q (o & -> & _)%list_lookup_fmap_Some. eauto.
Qed.

(** No thread forgets which call it is. *)
Lemma op_of_atom p r p' r' : atom p r = Some (p', r') → op_of p' = op_of p.
Proof.
  destruct p as [o|o|o|h| | |o c]; simpl; intros ?; simplify_eq/=.
  - destruct (responded r); [|done]. by destruct o.
  - destruct (head_tx r); [done|]. by destruct o.
  - destruct o as [|[]|]; by simplify_eq/=.
  - done.
  - by destruct (body_tx r).
  - by case_match; destruct b; simplify_eq/=.
Qed.

Lemma op_of_reachable ops s : steps race_step (race_init ops) s → op_of <$> threads s = ops.
Proof.
  intros Hs. apply (steps_invariant race_step (λ s, op_of <$> threads s = ops)) in Hs; [done| |].
  - intros ? ? [i p p' ths r r' Hi Ha|ths r|ths r|ths r] Hops; try done. simpl in *.
    rewrite list_fmap_insert, (op_of_atom _ _ _ _ Ha), list_insert_id; [done|].
    by rewrite list_lookup_fmap, Hi.
  - simpl. rewrite <-list_fmap_compose. apply list_fmap_id.
Qed.

Lemma schedule_steps turns s s' : schedule turns s = Some s' → steps race_step s s'.
Proof.
  revert s. induction turns as [|i turns IH]; intros [ths r] H; simpl in H; [simplify_eq; constructor|].
  destruct (ths !! i) as [p|] eqn:Hi; [|done]. simpl in H.
  destruct (atom p r) as [[p' r']|] eqn:Ha; [|done]. simpl in H.
  eapply steps_cons; [by eapply race_thread|]. by apply IH.
Qed.

(** C17: Whatever the interleaving of any number of [send_response],
    [send_stream_head] and [respond_500_if_unsent] calls with each other,
    with the front-end dropping the head receiver and with hyper draining the
    frames: at most one call ever claims the responder; a response that
    reached the head channel is the claimant's own; and once no thread can
    move, one call has claimed and the head channel is settled, so the
    front-end never waits on a responder nobody will answer. *)
Theorem responder_race ops ths (r : Responder chan oneshot) :
  steps race_step (race_init ops) (MkRace ths r) →
  (∀ i j p q, ths !! i = Some p → ths !! j = Some q →
     claimant p = true → claimant q = true → i = j)
  ∧ (∀ x, os_state (head r) = OsSent x →
       ∃ i o, ops !! i = Some o ∧ ths !! i = Some (PDone o true) ∧ answer o = Some x)
  ∧ (ops ≠ [] → (∀ i p, ths !! i = Some p → atom p r = None) →
       os_state (head r) ≠ OsPending ∧ ∃ i o, ths !! i = Some (PDone o true)).
Proof.
  intros Hs. pose proof (race_inv_reachable _ _ Hs) as Hinv.
  pose proof (op_of_reachable _ _ Hs) as Hops. simpl in *.
  destruct (responded r) eqn:Hr; [destruct Hinv as (i & p & Hi & Hc & Hag & Huniq)
                                 |destruct Hinv as (Ht & Hu & Hall)]; split_and?.
  - intros j k ? ? ? ? ? ?. transitivity i; [|symmetry]; eauto.
  - intros x Hx. destruct p as [|o|o|h| | |o []]; simpl in *; unfold unsent in *; try done;
      destruct Hag as [_ Hag]; try (destruct Hag; congruence).
    exists i, o. rewrite <-Hops, list_lookup_fmap, Hi. split_and!; [done..|].
    destruct (answer o); destruct Hag; congruence.
  - intros _ Hq. pose proof (Hq _ _ Hi) as Hn.
    destruct p as [|o|[|[]|]|h| | |o []]; simpl in *; try done; split; eauto.
    destruct Hag as [_ [->|Hx]]; [done|]. destruct (answer o); by rewrite Hx.
  - intros j k p q Hp Hq Hcp. destruct (Hall _ _ Hp) as [? ->]. done.
  - intros x Hx. unfold unsent in Hu. destruct Hu; congruence.
  - intros Hne Hq. destruct ops as [|o ops]; [done|].
    destruct ths as [|p ths]; [done|]. destruct (Hall 0%nat p eq_refl) as [o' ->].
    specialize (Hq 0%nat _ eq_refl). simpl in Hq. done.
Qed.

(** A call that runs without interference does, in at most four
    atomic steps, what its sequential definition says, and returns, unless it
    is the abort of a stream whose frame channel is full. *)
Theorem call_alone o (r : Responder chan oneshot) :
  let '(p, r') := run_alone 4 (PCall o) r in
  r' = call o r ∧ ((∃ claimed, p = PDone o claimed) ∨ (p = PAborting ∧ (respond_500_if_unsent r).1 = Parked)).
Proof.
  destruct r as [[] ab [] hd bt fr]; destruct o as [resp|[h|]|]; simpl; eauto 6;
    cbn -[send_abandoned]; try (destruct bt; cbn -[send_abandoned]; [|by eauto 6]).
  all: unfold respond_500_if_unsent, claim; cbn -[send_abandoned].
  all: destruct (send_abandoned _) as [[] ?] eqn:He; cbn -[send_abandoned]; eauto 6.
  all: unfold send_abandoned in He; cbn in He; repeat case_match; simplify_eq/=; eauto 6.
Qed.

(** Abandoning a response whose stream is open never claims, and
    closes the stream for the app. With room in the frame channel the error
    frame goes in behind the frames already queued; with a full channel the
    calling thread parks on it. *)
Theorem abandon_mid_stream (r : Responder chan oneshot) c :
  responded r = true → body_tx r = true → frames r = Some c → receiving c = true → chan_ok c →
  let '(b, r') := respond_500_if_unsent r in
  (body_sender r').1 = false ∧ head r' = head r
  ∧ (if decide (length (contents c) < capacity c)%nat
     then b = Returned ∧ ∃ c', frames r' = Some c' ∧ contents c' = contents c ++ [abandoned_frame]
          ∧ senders c' = pred (senders c)
     else b = Parked ∧ frames r' = Some c).
Proof.
  destruct r as [re ab ht hd bt fr]. simpl. intros -> -> -> Hrx [Hcap Hlen].
  unfold respond_500_if_unsent, claim, send_abandoned. simpl.
  case_decide as Hl.
  - destruct (try_send_ok FrameResult abandoned_frame c Hrx Hl) as (c' & -> & Hc & _ & Hs & _).
    simpl. split_and!; eauto. eexists; split_and!; eauto.
    + by rewrite contents_drop_sender.
    + by rewrite senders_drop_sender, Hs.
  - rewrite try_send_full by (done || lia). done.
Qed.
End race_proofs.

(** The test of the source: [concurrent_claimants_yield_exactly_one_winner],
    with two responders and an abort, the abort winning. *)
Lemma responder_race_witness :
  let a := OpRespond (plain_response 200 "race") in
  ∃ (ths : list pc) (r : Responder ListChan.t oneshot_state),
    ths = [PDone a false; PDone OpAbort true; PDone a false]
    ∧ os_state (head r) = OsSent internal_error
    ∧ ∃ i o, ths !! i = Some (PDone o true).
Proof.
  intros a. destruct (schedule [1; 0; 1; 2; 1]%nat
    (race_init [a; OpAbort; a] : race_sys ListChan.t oneshot_state)) as [[ths r]|] eqn:Hs;
    [|vm_compute in Hs; congruence].
  exists ths, r. apply schedule_steps in Hs as Hsteps.
  destruct (responder_race _ _ _ Hsteps) as (_ & _ & Hq).
  vm_compute in Hs. injection Hs as <- <-. split_and!; [reflexivity..|].
  apply Hq; [done|]. intros [|[|[|]]] p Hp; vm_compute in Hp; by simplify_eq.
Defined.

Lemma call_alone_witness :
  run_alone 4 (PCall OpAbort) (responder_new : Responder ListChan.t oneshot_state)
    = (PDone OpAbort true, call OpAbort responder_new).
Proof.
  pose proof (call_alone OpAbort (responder_new : Responder ListChan.t oneshot_state)) as H.
  vm_compute in H |- *. destruct H as [_ _]. reflexivity.
Defined.

(** Eight frames the client has not drained, and the abort is parked. *)
Definition undrained : Responder ListChan.t oneshot_state :=
  MkResponder true 0 false (OsSent (MkResponse (MkHead 200 [] None) StreamBody)) true
    (Some (ListChan.Mk (replicate 8 (FrameData (BytesCopied "x"))) 8 1 true)).

Lemma abandon_mid_stream_witness : (respond_500_if_unsent undrained).1 = Parked.
Proof.
  pose proof (abandon_mid_stream undrained _ eq_refl eq_refl eq_refl eq_refl
                ltac:(split; simpl; lia)) as H.
  destruct (respond_500_if_unsent undrained) as [b r']. simpl in *. apply H.
Defined.
