(* ===== verification/Gvl.v ===== *)
(** Blocking calls and their errors ([gvl.rs], [timer.rs]): what a native
    call returns to Ruby, and the crate's one blocking idiom. *)

From S2P Require Import Prelude Channels.

(** ** Results *)

(** The exceptions a native call raises, by Ruby class. *)
Inductive Error : Type :=
  | ArgError (message : string)
  | RuntimeError (message : string)
  | RubyRaised (message : string).

Inductive result (A : Type) : Type :=
  | Ok (x : A)
  | Err (e : Error).
Arguments Ok {A} x.
Arguments Err {A} e.

#[export] Instance result_bind : MBind result := λ A B f r,
  match r with Ok x => f x | Err e => Err e end.

#[export] Instance result_ret : MRet result := λ A x, Ok x.

(** ** [interruptible]

    The loop shares the world [W] with every other thread. Those run between
    the iterations: [env] lists, one entry per iteration, what they did to
    the world before it. A loop that goes through the whole list is still
    waiting. *)

Inductive waited (T : Type) : Type :=
  | Waiting
  | Interrupted
  | Finished (x : T).
Arguments Waiting {T}.
Arguments Interrupted {T}.
Arguments Finished {T} x.

Section interruptible.
Context {W T : Type} (flag : W → bool) (attempt : W → option T * W).

Fixpoint interruptible (env : list (W → W)) (w : W) : waited T * W :=
  match env with
  | [] => (Waiting, w)
  | others :: env =>
      let w := others w in
      if flag w then (Interrupted, w)
      else
        match attempt w with
        | (Some x, w) => (Finished x, w)
        | (None, w) => interruptible env w
        end
  end.

(** The world as the loop's iteration sees it. *)
Fixpoint world_at (env : list (W → W)) (w : W) : W :=
  match env with
  | [] => w
  | others :: env => world_at env (attempt (others w)).2
  end.

(** Rule induction on the loop: what the others and failed attempts keep
    holds when the loop stops. *)
Lemma interruptible_inv (P : W → Prop) env w :
  (∀ others w, others ∈ env → P w → P (others w)) →
  (∀ w w', P w → flag w = false → attempt w = (None, w') → P w') →
  P w →
  let '(r, w') := interruptible env w in
  match r with
  | Waiting => P w'
  | Interrupted => P w' ∧ flag w' = true
  | Finished x => ∃ w0, P w0 ∧ flag w0 = false ∧ attempt w0 = (Some x, w')
  end.
Proof.
  revert w. induction env as [|others env IH]; intros w Henv Hatt Hw; cbn; [done|].
  assert (P (others w)) as Hw' by (apply Henv; [by left|done]).
  destruct (flag (others w)) eqn:Hf; [done|].
  destruct (attempt (others w)) as [[x|] w'] eqn:Ha; [by exists (others w)|].
  apply IH; [|done|by eapply Hatt]. intros o v Ho. apply Henv. by right.
Qed.

(** A blocked call is over within one iteration of its flag being
    raised, and of an attempt that succeeds: however the other threads behave
    before and after, it does not go round again. *)
Theorem interruptible_wakes env1 others env2 w :
  (flag (others (world_at env1 w)) = true
   ∨ (attempt (others (world_at env1 w))).1 ≠ None) →
  (interruptible (env1 ++ others :: env2) w).1 ≠ Waiting
  ∧ interruptible (env1 ++ others :: env2) w = interruptible (env1 ++ [others]) w.
Proof.
  revert w. induction env1 as [|o env1 IH]; intros w Hor; cbn in *.
  - destruct (flag (others w)); [done|]. destruct Hor as [?|Hor]; [done|].
    by destruct (attempt (others w)) as [[x|] w'].
  - destruct (flag (o w)); [done|].
    destruct (attempt (o w)) as [[x|] w']; [done|]. by apply IH.
Qed.
End interruptible.

(** A flag raised by the second of three iterations. *)
Example interruptible_wakes_witness :
  (interruptible (W:=bool) (T:=unit) id (λ w, (None, w)) [id; (λ _, true); id] false).1 ≠ Waiting.
Proof.
  apply (interruptible_wakes (W:=bool) (T:=unit) id (λ w, (None, w)) [id] (λ _, true) [id] false).
  by left.
Defined.

(** ** Timed channel operations

    One bounded tick of [recv_timeout] and [send_timeout]: the queue's state
    when the tick is over decides. *)

Inductive recv_timeout_result (T : Type) : Type :=
  | RtOk (x : T)
  | RtTimeout
  | RtDisconnected.
Arguments RtOk {T} x.
Arguments RtTimeout {T}.
Arguments RtDisconnected {T}.

Section timed.
Context {chan : Type → Type} `{!Flume chan} {T : Type}.

Definition recv_timeout (c : chan T) : recv_timeout_result T * chan T :=
  match try_recv c with
  | (RecvOk x, c) => (RtOk x, c)
  | (RecvEmpty, c) => (RtTimeout, c)
  | (RecvDisconnected, c) => (RtDisconnected, c)
  end.
End timed.
