(* ===== verification/Request.v ===== *)
(** The request handle ([request.rs]): its context, the body reads, the
    response head and the streamed response. *)

From S2P Require Import Prelude Text Channels Gvl Response.
From S2P Require Pin.

(** ** The request *)

(** [http::uri::Authority]: the text and the host and port the http crate
    splits it into. *)
Record Authority : Type := MkAuthority {
  au_str : string;
  au_host : string;
  au_port_u16 : option Z;
}.

Record Uri : Type := MkUri {
  path : string;
  query : option string;
  authority : option Authority;
}.

Inductive Version : Type := HTTP_10 | HTTP_11 | HTTP_2.

Inductive IpAddr : Type :=
  | V4 (a b c d : Z)
  | V6 (text : string).

Record SocketAddr : Type := MkSocketAddr {
  ip : IpAddr;
  port : Z;
}.

(** Times are nanoseconds; [responder] and [slot] are the pointees' names in
    the responder heap and the slot vector. [body_rx] is the channel the
    forwarder feeds. *)
Record RequestCtx (chan : Type → Type) : Type := MkCtx {
  method : string;
  uri : Uri;
  version : Version;
  headers : list (string * list string);
  remote_addr : SocketAddr;
  local_addr : SocketAddr;
  https : bool;
  body_rx : option (chan string);
  leftover : option string;
  slot : option nat;
  responder : nat;
  enqueued_at : Z;
  is_timed : bool;
  wait : Z;
  admitted_at : Z;
  gc : option (Z * Z);
}.
Arguments MkCtx {chan}.
Arguments method {chan}.
Arguments uri {chan}.
Arguments version {chan}.
Arguments headers {chan}.
Arguments remote_addr {chan}.
Arguments local_addr {chan}.
Arguments https {chan}.
Arguments body_rx {chan}.
Arguments leftover {chan}.
Arguments slot {chan}.
Arguments responder {chan}.
Arguments enqueued_at {chan}.
Arguments is_timed {chan}.
Arguments wait {chan}.
Arguments admitted_at {chan}.
Arguments gc {chan}.

Section ctx.
Context {chan : Type → Type}.
Implicit Types (ctx : RequestCtx chan).

Definition set_body_state (rx : option (chan string)) (lo : option string) ctx : RequestCtx chan :=
  MkCtx (method ctx) (uri ctx) (version ctx) (headers ctx) (remote_addr ctx) (local_addr ctx)
    (https ctx) rx lo (slot ctx) (responder ctx) (enqueued_at ctx) (is_timed ctx) (wait ctx)
    (admitted_at ctx) (gc ctx).

(** What [admit] stamps on the context. *)
Definition set_admitted (sl : nat) (w now : Z) ctx : RequestCtx chan :=
  MkCtx (method ctx) (uri ctx) (version ctx) (headers ctx) (remote_addr ctx) (local_addr ctx)
    (https ctx) (body_rx ctx) (leftover ctx) (Some sl) (responder ctx) (enqueued_at ctx)
    (is_timed ctx) w now (gc ctx).

Definition set_timing (gc_nanos allocs : Z) ctx : RequestCtx chan :=
  MkCtx (method ctx) (uri ctx) (version ctx) (headers ctx) (remote_addr ctx) (local_addr ctx)
    (https ctx) (body_rx ctx) (leftover ctx) (slot ctx) (responder ctx) (enqueued_at ctx)
    (is_timed ctx) (wait ctx) (admitted_at ctx) (Some (gc_nanos, allocs)).

(** [now] is the clock at the call. *)
Definition timing (now : Z) ctx : Timing :=
  MkTiming (wait ctx) (sat_sub now (admitted_at ctx)) (gc ctx).

Definition timed (now : Z) ctx (builder : Builder) : Builder :=
  if is_timed ctx then
    match builder with
    | Some h => Some (MkHead (h_status h) (h_headers h) (Some (timing now ctx)))
    | None => None
    end
  else builder.
End ctx.

Definition interrupted_error : Error := RuntimeError "Kino: request interrupted during shutdown".
Definition body_too_large_error : Error := RuntimeError "Kino: request body exceeded max_body_size".
Definition body_timeout_error : Error := RuntimeError "Kino: request body read timed out".
Definition invalid_response (e : string) : Error := RuntimeError ("invalid response: " +:+ e).

(** ** Request bodies *)

(** [Bytes::split_off]: what stays and what is split off. *)
Fixpoint split_off (at_ : nat) (s : string) : string * string :=
  match at_, s with
  | S n, String c s => let '(a, b) := split_off n s in (String c a, b)
  | _, _ => ("", s)
  end.

Lemma split_off_append n s : (split_off n s).1 +:+ (split_off n s).2 = s.
Proof.
  revert s. induction n as [|n IH]; intros [|c s]; try done. cbn.
  specialize (IH s). destruct (split_off n s) as [a b]. cbn in *. by f_equal.
Qed.

Lemma split_off_length n s : String.length (split_off n s).1 = (n `min` String.length s)%nat.
Proof.
  revert s. induction n as [|n IH]; intros [|c s]; try done. cbn.
  specialize (IH s). destruct (split_off n s) as [a b]. cbn in *. by f_equal.
Qed.

(** What the client's side of a request body does next, as hyper reports it
    to the forwarder: a frame, a body error, the end, or silence until the
    idle deadline. *)
Inductive frame_event : Type :=
  | FeData (data : string)
  | FeTrailers
  | FeError
  | FeEnd
  | FeSilence.

Inductive forwarder : Type :=
  | FwPull (total : Z)
  | FwSend (total : Z) (data : string)
  | FwDone.

(** One request body in flight: the client's frames to come, the forwarder
    task, the handle's end of the channel, the responder and the interrupt
    flag of the worker's slot. *)
Record BodyIo (chan oneshot : Type → Type) : Type := MkIo {
  incoming : list frame_event;
  fw : forwarder;
  rctx : RequestCtx chan;
  resp : Responder chan oneshot;
  interrupted : bool;
}.
Arguments MkIo {chan oneshot}.
Arguments incoming {chan oneshot}.
Arguments fw {chan oneshot}.
Arguments rctx {chan oneshot}.
Arguments resp {chan oneshot}.
Arguments interrupted {chan oneshot}.

Section body.
Context {chan oneshot : Type → Type} `{!Flume chan, !Oneshot oneshot}.
Implicit Types (w : BodyIo chan oneshot) (ctx : RequestCtx chan).

Definition body_possible ctx : bool :=
  bool_decide (is_Some (leftover ctx))
  || match body_rx ctx with
     | Some rx => negb (chan_is_empty rx && is_disconnected rx)
     | None => false
     end.

Definition set_ctx (c : RequestCtx chan) w : BodyIo chan oneshot :=
  MkIo (incoming w) (fw w) c (resp w) (interrupted w).

(** Replace the channel. *)
Definition set_rx (rx : chan string) w : BodyIo chan oneshot :=
  set_ctx (set_body_state (Some rx) (leftover (rctx w)) (rctx w)) w.

Definition set_leftover (lo : option string) w : BodyIo chan oneshot :=
  set_ctx (set_body_state (body_rx (rctx w)) lo (rctx w)) w.

(** The forwarder breaks out of its loop, dropping its sender: [why] was
    stored first. *)
Definition fw_stop (why : option BodyAbandon) (rest : list frame_event) w : BodyIo chan oneshot :=
  let rx := match body_rx (rctx w) with Some c => Some (drop_sender c) | None => None end in
  MkIo rest FwDone (set_body_state rx (leftover (rctx w)) (rctx w))
    (match why with Some y => abandon_body y (resp w) | None => resp w end) (interrupted w).

(** One turn of the forwarder task: pull a frame, or hand over the pulled
    one. [None] when it is waiting (for the client, or for room), or done. *)
Definition forward (max_body : Z) w : option (BodyIo chan oneshot) :=
  match fw w with
  | FwPull total =>
      match incoming w with
      | [] => None
      | FeEnd :: rest | FeError :: rest => Some (fw_stop None rest w)
      | FeSilence :: rest => Some (fw_stop (Some TimedOut) rest w)
      | FeTrailers :: rest =>
          Some (MkIo rest (FwPull total) (rctx w) (resp w) (interrupted w))
      | FeData data :: rest =>
          let total := total +w Z.of_nat (String.length data) in
          if (0 <? max_body) && (max_body <? total) then Some (fw_stop (Some Oversize) rest w)
          else Some (MkIo rest (FwSend total data) (rctx w) (resp w) (interrupted w))
      end
  | FwSend total data =>
      match body_rx (rctx w) with
      | None => None
      | Some rx =>
          match try_send data rx with
          | (SendOk, rx) =>
              Some (set_rx rx (MkIo (incoming w) (FwPull total) (rctx w) (resp w) (interrupted w)))
          | (SendFull _, _) => None
          | (SendDisconnected _, _) => Some (fw_stop None (incoming w) w)
          end
      end
  | FwDone => None
  end.

(** [read_body]'s one bounded tick on the channel. *)
Definition recv_tick w : option (option string) * BodyIo chan oneshot :=
  match body_rx (rctx w) with
  | None => (None, w)
  | Some rx =>
      match recv_timeout rx with
      | (RtOk bytes, rx) => (Some (Some bytes), set_rx rx w)
      | (RtTimeout, _) => (None, w)
      | (RtDisconnected, _) => (Some None, w)
      end
  end.

(** The greedy drain. Each turn takes one queued chunk; the loop also ends
    when the queue is empty, so [fuel] is the number of queued chunks. *)
Fixpoint drain (fuel : nat) (max_len : nat) (out : string) w : string * BodyIo chan oneshot :=
  match fuel with
  | O => (out, w)
  | S fuel =>
      let total := String.length out in
      if (max_len <=? total)%nat then (out, w)
      else
        match body_rx (rctx w) with
        | None => (out, w)
        | Some rx =>
            match try_recv rx with
            | (RecvOk more, rx) =>
                let w := set_rx rx w in
                if (max_len - total <? String.length more)%nat then
                  let '(more, rest) := split_off (max_len - total) more in
                  drain fuel max_len (out +:+ more) (set_leftover (Some rest) w)
                else drain fuel max_len (out +:+ more) w
            | (_, _) => (out, w)
            end
        end
  end.

Definition queued_chunks w : nat :=
  match body_rx (rctx w) with Some rx => chan_len rx | None => O end.

(** The rest of [read_body] once it holds a chunk. *)
Definition serve_chunk (max_len : nat) (chunk : string) w : string * BodyIo chan oneshot :=
  if (max_len <? String.length chunk)%nat then
    let '(chunk, rest) := split_off max_len chunk in
    (chunk, set_leftover (Some rest) w)
  else drain (queued_chunks w) max_len chunk w.

(** A read either is still blocked when the schedule [env] of the other
    threads runs out, or returns: [Ok None] is nil, the end of the body. *)
Inductive read_outcome : Type :=
  | Blocked
  | ReadReturned (r : result (option string)).

Definition read_body (max_len : nat) (env : list (BodyIo chan oneshot → BodyIo chan oneshot)) w
  : read_outcome * BodyIo chan oneshot :=
  let max_len := (max_len `max` 1)%nat in
  match leftover (rctx w) with
  | Some bytes =>
      let '(s, w) := serve_chunk max_len bytes (set_leftover None w) in
      (ReadReturned (Ok (Some s)), w)
  | None =>
      match body_rx (rctx w) with
      | None => (ReadReturned (Ok None), w)
      | Some _ =>
          match interruptible interrupted recv_tick env w with
          | (Waiting, w) => (Blocked, w)
          | (Interrupted, w) => (ReadReturned (Err interrupted_error), w)
          | (Finished None, w) =>
              (ReadReturned
                 match body_abandoned (resp w) with
                 | Some Oversize => Err body_too_large_error
                 | Some TimedOut => Err body_timeout_error
                 | None => Ok None
                 end, w)
          | (Finished (Some bytes), w) =>
              let '(s, w) := serve_chunk max_len bytes w in
              (ReadReturned (Ok (Some s)), w)
          end
      end
  end.
End body.
Arguments read_outcome : clear implicits.

(** ** What a read promises *)

(** The bytes the client sends before its side ends, fails or goes silent. *)
Fixpoint client_data (l : list frame_event) : string :=
  match l with
  | FeData data :: l => data +:+ client_data l
  | FeTrailers :: l => client_data l
  | _ => ""
  end.

Definition str_len (s : string) : Z := Z.of_nat (String.length s).

Lemma str_len_append a b : str_len (a +:+ b) = str_len a + str_len b.
Proof. unfold str_len. induction a as [|c a IH]; cbn in *; lia. Qed.

Lemma str_len_nonneg s : 0 ≤ str_len s.
Proof. unfold str_len. lia. Qed.

Lemma u64_prefix a b : str_len (a +:+ b) < u64_modulus → u64_ok (str_len a).
Proof.
  rewrite str_len_append. pose proof (str_len_nonneg a). pose proof (str_len_nonneg b).
  unfold u64_ok. lia.
Qed.

Section delivery.
Context {chan oneshot : Type → Type} `{!Flume chan, !FlumeSpec chan, !Oneshot oneshot}.
Variable max_body : Z.
Implicit Types (w : BodyIo chan oneshot) (d D : string).

Definition set_interrupted (b : bool) w : BodyIo chan oneshot :=
  MkIo (incoming w) (fw w) (rctx w) (resp w) b.

(** What the other threads do while a read is blocked. *)
Inductive other_step : BodyIo chan oneshot → BodyIo chan oneshot → Prop :=
  | other_forward w w' : forward max_body w = Some w' → other_step w w'
  | other_interrupt b w : other_step w (set_interrupted b w).

Definition others (f : BodyIo chan oneshot → BodyIo chan oneshot) : Prop :=
  ∀ w, steps other_step w (f w).

(** The application reads, the rest of the system moves; [d] is what the
    application has got so far. *)
Inductive body_step : BodyIo chan oneshot * string → BodyIo chan oneshot * string → Prop :=
  | body_other w w' d : other_step w w' → body_step (w, d) (w', d)
  | body_read max_len env w r w' d :
      Forall others env → read_body max_len env w = (r, w') →
      body_step (w, d) (w', match r with ReadReturned (Ok (Some s)) => d +:+ s | _ => d end).

Definition body_init (events : list frame_event) (ctx : RequestCtx chan) : BodyIo chan oneshot :=
  MkIo events (FwPull 0) (set_body_state (Some (bounded 8)) None ctx) responder_new false.

Definition queue w : list string :=
  match body_rx (rctx w) with Some rx => contents rx | None => [] end.

Definition in_hand (f : forwarder) : string :=
  match f with FwSend _ data => data | _ => "" end.

Definition pending w : string :=
  default "" (leftover (rctx w)) +:+ str_concat (queue w) +:+ in_hand (fw w).

Definition fw_agrees D w d : Prop :=
  match fw w with
  | FwDone =>
      match body_abandoned (resp w) with
      | None => d +:+ pending w = D
      | Some Oversize => 0 < max_body < str_len D
      | Some TimedOut => True
      end
  | FwPull total | FwSend total _ =>
      body_abandoned (resp w) = None ∧ total = str_len (d +:+ pending w)
      ∧ (d +:+ pending w) +:+ client_data (incoming w) = D
  end.

Definition body_inv D w d : Prop :=
  (∃ rx, body_rx (rctx w) = Some rx ∧ receiving rx = true ∧ (0 < capacity rx)%nat
     ∧ senders rx = match fw w with FwDone => 0%nat | _ => 1%nat end)
  ∧ (0 < max_body → str_len (d +:+ pending w) ≤ max_body)
  ∧ (∃ tail, D = (d +:+ pending w) +:+ tail)
  ∧ fw_agrees D w d.

Lemma body_inv_init events ctx : body_inv (client_data events) (body_init events ctx) "".
Proof.
  destruct (bounded_spec (chan:=chan) string 8) as (H1 & H2 & H3 & H4).
  unfold body_inv, fw_agrees, pending, queue. cbn. rewrite H1. cbn.
  split; [|split; [by unfold str_len; cbn; lia|split; [eauto|done]]].
  eexists. split_and!; [done|done| |done]. rewrite H2. lia.
Qed.

Lemma body_inv_interrupt D b w d : body_inv D w d → body_inv D (set_interrupted b w) d.
Proof. done. Qed.

(** The forwarder stops without handing anything over. *)
Lemma body_inv_stop D why rest w d :
  in_hand (fw w) = "" → fw w ≠ FwDone →
  body_inv D w d →
  match why with
  | None => client_data (incoming w) = ""
  | Some Oversize => 0 < max_body < str_len D
  | Some TimedOut => True
  end →
  body_inv D (fw_stop why rest w) d.
Proof.
  intros Hh Hd ((rx & Hrx & Hr & Hc & Hs) & Hm & Ht & Ha) Hwhy.
  assert (Hp : pending (fw_stop why rest w) = pending w).
  { unfold pending, queue, fw_stop. cbn. rewrite Hrx, Hh. cbn. by rewrite contents_drop_sender. }
  unfold body_inv. rewrite Hp. split; [|split; [done|split; [done|]]].
  - unfold fw_stop. cbn. rewrite Hrx. eexists. split; [done|].
    rewrite receiving_drop_sender, capacity_drop_sender, senders_drop_sender, Hs.
    by destruct (fw w).
  - unfold fw_agrees in *. rewrite Hp. cbn. destruct why as [[]|]; cbn; [done..|].
    destruct (fw w) eqn:Hf; [| |done]; destruct Ha as (-> & _ & Ha);
      by rewrite Hwhy, append_nil_r in Ha.
Qed.

(** A frame that moves from the client into the forwarder's hand. *)
Lemma body_inv_pull D data rest total w d :
  str_len D < u64_modulus →
  fw w = FwPull total → incoming w = FeData data :: rest → body_inv D w d →
  let total' := total +w str_len data in
  (0 < max_body → total' ≤ max_body) →
  body_inv D (MkIo rest (FwSend total' data) (rctx w) (resp w) (interrupted w)) d.
Proof.
  intros HD Hf Hi ((rx & Hrx & Hr & Hc & Hs) & Hm & (tail & Ht) & Ha) total' Hcap.
  unfold fw_agrees in Ha. rewrite Hf, Hi in Ha. destruct Ha as (Hab & Htot & Ha).
  assert (Hp : d +:+ pending (MkIo rest (FwSend total' data) (rctx w) (resp w) (interrupted w))
               = (d +:+ pending w) +:+ data).
  { unfold pending, queue. cbn. rewrite Hf. cbn. by rewrite append_nil_r, !append_assoc. }
  cbn in Ha. rewrite <-append_assoc in Ha.
  assert (Htot' : total' = str_len ((d +:+ pending w) +:+ data)).
  { subst total'. unfold u64_add. rewrite Htot, <-str_len_append. apply wrap64_small.
    apply (u64_prefix _ (client_data rest)). by rewrite Ha. }
  unfold body_inv, fw_agrees. rewrite Hp. split_and!; cbn; eauto.
  - exists rx. rewrite Hf in Hs. done.
  - intros Hpos. rewrite <-Htot'. auto.
Qed.

Lemma body_inv_forward D w w' d :
  str_len D < u64_modulus → forward max_body w = Some w' → body_inv D w d → body_inv D w' d.
Proof.
  intros HD Hw Hinv. unfold forward in Hw. destruct (fw w) as [total|total data|] eqn:Hf; [| |done].
  - destruct (incoming w) as [|[data| | | |] rest] eqn:Hi; simplify_eq/=.
    + destruct (_ && _) eqn:Hcap; simplify_eq/=.
      * apply andb_prop in Hcap as [Hpos%Z.ltb_lt Hover%Z.ltb_lt].
        apply body_inv_stop; [by rewrite Hf|by rewrite Hf|done|].
        destruct Hinv as (_ & _ & _ & Ha). unfold fw_agrees in Ha. rewrite Hf, Hi in Ha.
        destruct Ha as (_ & Htot & Ha). cbn in Ha. rewrite <-append_assoc in Ha.
        assert (Hs : u64_ok (str_len ((d +:+ pending w) +:+ data)))
          by (apply (u64_prefix _ (client_data rest)); by rewrite Ha).
        fold (str_len data) in Hover. unfold u64_add in Hover.
        rewrite Htot, <-str_len_append, wrap64_small in Hover by done.
        rewrite <-Ha, str_len_append. pose proof (str_len_nonneg (client_data rest)). lia.
      * apply (body_inv_pull _ _ _ _ _ _ HD Hf Hi Hinv). intros Hpos.
        apply andb_false_iff in Hcap as [Hc%Z.ltb_ge|Hc%Z.ltb_ge]; [lia|done].
    + destruct Hinv as ((rx & Hrx) & Hm & Ht & Ha). unfold body_inv, fw_agrees, pending, queue in *.
      cbn. rewrite Hf, Hi in *. cbn in *. split; [by exists rx|done].
    + apply body_inv_stop; rewrite ?Hf, ?Hi; done.
    + apply body_inv_stop; rewrite ?Hf, ?Hi; done.
    + apply body_inv_stop; rewrite ?Hf, ?Hi; done.
  - destruct Hinv as ((rx & Hrx & Hr & Hc & Hs) & Hm & Ht & Ha). rewrite Hrx in Hw.
    destruct (try_send data rx) as [r rx'] eqn:Hsend.
    destruct (try_send_cases _ _ _ _ Hc Hsend) as [(-> & _ & _ & Hq & Hcap & Hsn & Hrc)
                                                  |[(-> & _)|(-> & _ & Hno)]]; [|done|congruence].
    simplify_eq/=.
    match goal with |- body_inv _ ?w' _ => assert (Hp : pending w' = pending w) end.
    { unfold pending, queue. cbn. rewrite Hrx, Hf, Hq, str_concat_app. cbn.
      by rewrite !append_nil_r. }
    unfold body_inv. rewrite Hp. split_and!; try done.
    + exists rx'. cbn. rewrite Hrc, Hcap, Hsn, Hs, Hf. done.
    + unfold fw_agrees in *. rewrite Hp. cbn. by rewrite Hf in Ha.
Qed.

Lemma body_inv_others D f w d :
  str_len D < u64_modulus → others f → body_inv D w d → body_inv D (f w) d.
Proof.
  intros HD Hf. specialize (Hf w). revert Hf. generalize (f w). intros w'.
  induction 1 as [|w1 w2 w3 [] ? IH]; [done|..]; intros Hw; apply IH.
  - by eapply body_inv_forward.
  - by apply body_inv_interrupt.
Qed.

Lemma others_leftover f w : others f → leftover (rctx w) = None → leftover (rctx (f w)) = None.
Proof.
  intros Hf. specialize (Hf w). revert Hf. generalize (f w). intros w'.
  induction 1 as [|w1 w2 w3 [w1' w2' H|] ? IH]; [done|..]; intros Hw; apply IH; [|done].
  unfold forward, fw_stop in H. repeat (case_match; simplify_eq/=; try done).
Qed.

(** Bytes that move between the handle's buffers and the application. *)
Lemma body_inv_move D w w' d d' :
  fw w' = fw w → incoming w' = incoming w → resp w' = resp w →
  (∀ rx, body_rx (rctx w) = Some rx → ∃ rx', body_rx (rctx w') = Some rx'
     ∧ receiving rx' = receiving rx ∧ capacity rx' = capacity rx ∧ senders rx' = senders rx) →
  d' +:+ pending w' = d +:+ pending w → body_inv D w d → body_inv D w' d'.
Proof.
  intros Hf Hi Hr Hrx Hp ((rx & Hx & H1 & H2 & H3) & Hm & Ht & Ha).
  unfold body_inv, fw_agrees in *. rewrite Hp, Hf, Hi, Hr.
  split; [|done]. destruct (Hrx _ Hx) as (rx' & Hx' & E1 & E2 & E3). exists rx'. by rewrite E1, E2, E3.
Qed.

Lemma body_inv_recv D w d rx x rx' :
  body_rx (rctx w) = Some rx → leftover (rctx w) = None → try_recv rx = (RecvOk x, rx') →
  body_inv D w d → body_inv D (set_rx rx' w) (d +:+ x).
Proof.
  intros Hrx Hlo Hrecv. destruct (try_recv_cases _ _ _ Hrecv)
    as [(y & l & Hy & Hc & Hc' & Hcap & Hs & Hr)|[(? & _)|(? & _)]]; simplify_eq.
  apply body_inv_move; try done.
  - intros rx0 Hrx0. exists rx'. cbn. naive_solver.
  - unfold pending, queue. cbn. rewrite Hlo, Hrx, Hc. cbn. by rewrite !append_assoc.
Qed.

Lemma body_inv_put_back D w d a rest :
  leftover (rctx w) = None → body_inv D w (d +:+ (a +:+ rest)) →
  body_inv D (set_leftover (Some rest) w) (d +:+ a).
Proof.
  intros Hlo. apply body_inv_move; try done.
  - intros rx Hrx. exists rx. cbn. naive_solver.
  - unfold pending, queue. cbn. by rewrite Hlo, !append_assoc.
Qed.

Lemma body_inv_take_leftover D w d bytes :
  leftover (rctx w) = Some bytes → body_inv D w d →
  body_inv D (set_leftover None w) (d +:+ bytes).
Proof.
  intros Hlo. apply body_inv_move; try done.
  - intros rx Hrx. exists rx. cbn. naive_solver.
  - unfold pending, queue. cbn. by rewrite Hlo, !append_assoc.
Qed.

(** Once enough bytes are out the drain stops. *)
Lemma drain_full fuel max_len out w :
  (max_len ≤ String.length out)%nat → drain fuel max_len out w = (out, w).
Proof. intros H%Nat.leb_le. destruct fuel; cbn; [done|]. by rewrite H. Qed.

Lemma length_append_nat a b : String.length (a +:+ b) = (String.length a + String.length b)%nat.
Proof. pose proof (str_len_append a b). unfold str_len in *. lia. Qed.

Lemma drain_inv D fuel max_len out w d :
  leftover (rctx w) = None → (String.length out ≤ max_len)%nat → body_inv D w (d +:+ out) →
  let '(s, w') := drain fuel max_len out w in
  body_inv D w' (d +:+ s) ∧ (String.length s ≤ max_len)%nat.
Proof.
  revert out w. induction fuel as [|fuel IH]; intros out w Hlo Hlen Hinv; cbn -[Nat.ltb Nat.leb]; [done|].
  destruct (max_len <=? String.length out)%nat eqn:Hf; [done|]. apply Nat.leb_gt in Hf.
  destruct (body_rx (rctx w)) as [rx|] eqn:Hrx; [|done].
  destruct (try_recv rx) as [[more| |] rx'] eqn:Hrecv; [|done..].
  pose proof (body_inv_recv _ _ _ _ _ _ Hrx Hlo Hrecv Hinv) as Hinv'.
  rewrite append_assoc in Hinv'.
  destruct (max_len - String.length out <? String.length more)%nat eqn:Hbig.
  - apply Nat.ltb_lt in Hbig. pose proof (split_off_append (max_len - String.length out) more) as Hsp.
    pose proof (split_off_length (max_len - String.length out) more) as Hsl.
    destruct (split_off _ more) as [a rest]. cbn in Hsp, Hsl. subst more.
    assert (String.length (out +:+ a) = max_len) as Hl by (rewrite length_append_nat; lia).
    rewrite drain_full by lia. rewrite Hl. split; [|done].
    rewrite <-(append_assoc out) in Hinv'. by apply body_inv_put_back in Hinv'.
  - apply Nat.ltb_ge in Hbig. apply IH; [done| |done]. rewrite length_append_nat. lia.
Qed.

Lemma serve_chunk_inv D max_len chunk w d :
  leftover (rctx w) = None → body_inv D w (d +:+ chunk) →
  let '(s, w') := serve_chunk max_len chunk w in
  body_inv D w' (d +:+ s) ∧ (String.length s ≤ max_len)%nat.
Proof.
  intros Hlo Hinv. unfold serve_chunk.
  destruct (max_len <? String.length chunk)%nat eqn:Hbig.
  - apply Nat.ltb_lt in Hbig. pose proof (split_off_append max_len chunk) as Hsp.
    pose proof (split_off_length max_len chunk) as Hsl.
    destruct (split_off _ chunk) as [a rest]. cbn in Hsp, Hsl. subst chunk.
    split; [by apply body_inv_put_back|lia].
  - apply Nat.ltb_ge in Hbig. by apply drain_inv.
Qed.

(** A read leaves the body in order, whatever it comes to. *)
Lemma read_body_inv D max_len env w d :
  str_len D < u64_modulus → Forall others env → body_inv D w d →
  match read_body max_len env w with
  | (ReadReturned (Ok (Some s)), w') =>
      body_inv D w' (d +:+ s) ∧ (String.length s ≤ max_len `max` 1)%nat
  | (ReadReturned (Ok None), w') =>
      body_inv D w' d ∧ pending w' = "" ∧ fw w' = FwDone ∧ body_abandoned (resp w') = None
  | (ReadReturned (Err e), w') =>
      body_inv D w' d
      ∧ (e = interrupted_error
         ∨ (e = body_too_large_error ∧ body_abandoned (resp w') = Some Oversize ∧ fw w' = FwDone)
         ∨ (e = body_timeout_error ∧ body_abandoned (resp w') = Some TimedOut))
  | (Blocked, w') => body_inv D w' d
  end.
Proof.
  intros HD Henv Hinv. unfold read_body. destruct (leftover (rctx w)) as [bytes|] eqn:Hlo.
  { pose proof (body_inv_take_leftover _ _ _ _ Hlo Hinv) as Hinv'.
    pose proof (serve_chunk_inv D (max_len `max` 1) bytes (set_leftover None w) d eq_refl Hinv') as H.
    by destruct (serve_chunk _ _ _). }
  destruct (body_rx (rctx w)) as [rx0|] eqn:Hrx0;
    [|by destruct Hinv as ((? & ? & _) & _); congruence].
  assert (Hothers : ∀ f v, f ∈ env → body_inv D v d ∧ leftover (rctx v) = None →
                           body_inv D (f v) d ∧ leftover (rctx (f v)) = None).
  { intros f v Hf [Hv Hvl]. rewrite Forall_forall in Henv.
    split; [by apply body_inv_others; [..|apply Henv|]|by apply others_leftover; [apply Henv|]]. }
  assert (Hatt : ∀ v v', body_inv D v d ∧ leftover (rctx v) = None → interrupted v = false →
                         recv_tick v = (None, v') → body_inv D v' d ∧ leftover (rctx v') = None).
  { intros v v' [Hv Hvl] _ Hatt. unfold recv_tick in Hatt.
    destruct (body_rx (rctx v)) as [rx|] eqn:Hrx; [|by simplify_eq].
    by destruct (recv_timeout rx) as [[] ?]; simplify_eq. }
  pose proof (interruptible_inv _ _ _ _ _ Hothers Hatt (conj Hinv Hlo)) as Hloop.
  destruct (interruptible _ _ env w) as [r w'].
  destruct r as [| |[bytes|]]; [by destruct Hloop|by destruct Hloop as [[? ?] _]; auto| |]; clear Hothers Hatt.
  - destruct Hloop as (v & [Hv Hvl] & _ & Hatt). unfold recv_tick, recv_timeout in Hatt.
    destruct (body_rx (rctx v)) as [rx|] eqn:Hrx; [|done].
    destruct (try_recv rx) as [[x| |] rx'] eqn:Hrecv; simplify_eq/=.
    pose proof (body_inv_recv _ _ _ _ _ _ Hrx Hvl Hrecv Hv) as Hinv'.
    pose proof (serve_chunk_inv D (max_len `max` 1) bytes (set_rx rx' v) d Hvl Hinv') as H.
    by destruct (serve_chunk _ _ _).
  - destruct Hloop as (v & [Hv Hvl] & _ & Hatt). unfold recv_tick, recv_timeout in Hatt.
    destruct (body_rx (rctx v)) as [rx|] eqn:Hrx; [|done].
    destruct (try_recv rx) as [[x| |] rx'] eqn:Hrecv; simplify_eq/=.
    destruct (try_recv_cases _ _ _ Hrecv) as [(? & ? & ? & _)|[(? & _)|(_ & -> & Hc & Hs)]]; try done.
    assert (Hdone : fw w' = FwDone).
    { destruct Hv as ((rx1 & Hrx1 & _ & _ & Hs1) & _). destruct (fw w'); [..|done]; congruence. }
    assert (Hp : pending w' = "")
      by (unfold pending, queue; by rewrite Hvl, Hrx, Hc, Hdone).
    destruct (body_abandoned (resp w')) as [[]|] eqn:Hab; auto 10.
Qed.
End delivery.

Section delivered.
Context {chan oneshot : Type → Type} `{!Flume chan, !FlumeSpec chan, !Oneshot oneshot}.
Implicit Types (w : BodyIo chan oneshot) (d : string).

Lemma body_inv_reachable max_body events ctx w d :
  str_len (client_data events) < u64_modulus →
  steps (body_step max_body) (body_init events ctx, "") (w, d) →
  body_inv max_body (client_data events) w d.
Proof.
  intros HD Hs.
  apply (steps_invariant (body_step max_body)
    (λ s, body_inv max_body (client_data events) s.1 s.2) ) in Hs; [done| |apply body_inv_init].
  clear Hs w d. intros ? ? [w w' d [] | n env w r w' d Henv Hr] Hinv; cbn in *.
  - by eapply body_inv_forward.
  - by apply body_inv_interrupt.
  - pose proof (read_body_inv max_body _ n env w d HD Henv Hinv) as H. rewrite Hr in H.
    destruct r as [|[[x|]|e]]; by try apply H.
Qed.

(** C24: However the forwarder, the interrupt flag and the reads interleave:
    what the application has read is a prefix of what the client sent, in
    order, without loss or duplication, and never longer than
    [max_body_size]; a read hands out at most the bytes it was asked for; nil
    means that everything the client sent was delivered; and "too large" is
    raised only for a body that does exceed the cap. *)
Theorem body_delivery max_body events ctx w d max_len env :
  str_len (client_data events) < u64_modulus →
  steps (body_step max_body) (body_init events ctx, "") (w, d) →
  Forall (others max_body) env →
  (∃ tail, client_data events = d +:+ tail)
  ∧ (0 < max_body → str_len d ≤ max_body)
  ∧ match (read_body max_len env w).1 with
    | ReadReturned (Ok (Some s)) =>
        (∃ tail, client_data events = (d +:+ s) +:+ tail)
        ∧ (String.length s ≤ max_len `max` 1)%nat
    | ReadReturned (Ok None) => d = client_data events
    | ReadReturned (Err e) =>
        e = interrupted_error ∨ e = body_timeout_error
        ∨ (e = body_too_large_error ∧ 0 < max_body < str_len (client_data events))
    | Blocked => True
    end.
Proof.
  intros HD Hs Henv. pose proof (body_inv_reachable _ _ _ _ _ HD Hs) as Hinv.
  pose proof (read_body_inv max_body _ max_len env w d HD Henv Hinv) as Hr.
  destruct Hinv as (_ & Hm & (tail & Ht) & _). split_and!.
  - exists (pending w +:+ tail). by rewrite Ht, append_assoc.
  - intros Hpos. specialize (Hm Hpos). rewrite str_len_append in Hm.
    pose proof (str_len_nonneg (pending w)). lia.
  - destruct (read_body max_len env w) as [[|[[s|]|e]] w']; cbn; [done|..].
    + destruct Hr as [(_ & _ & (tail' & ->) & _) Hlen]. split; [|done].
      exists (pending w' +:+ tail'). by rewrite append_assoc.
    + destruct Hr as ((_ & _ & _ & Ha) & Hp & Hd & Hab). unfold fw_agrees in Ha.
      by rewrite Hd, Hab, Hp, append_nil_r in Ha.
    + destruct Hr as [(_ & _ & _ & Ha) [?|[(? & Hab & Hd)|(? & _)]]]; [by left| |by right; left].
      right; right. unfold fw_agrees in Ha. by rewrite Hd, Hab in Ha.
Qed.
End delivered.

(** Runs of a body: the forwarder moves, the application reads. *)
Inductive move : Type := MForward | MRead (max_len : nat).

Fixpoint play (max_body : Z) (moves : list move)
    (s : BodyIo ListChan.t oneshot_state * string) : BodyIo ListChan.t oneshot_state * string :=
  match moves with
  | [] => s
  | MForward :: moves =>
      play max_body moves (match forward max_body s.1 with Some w => (w, s.2) | None => s end)
  | MRead n :: moves =>
      let '(r, w) := read_body n [id] s.1 in
      play max_body moves (w, match r with ReadReturned (Ok (Some x)) => s.2 +:+ x | _ => s.2 end)
  end.

Lemma play_steps max_body moves s : steps (body_step max_body) s (play max_body moves s).
Proof.
  revert s. induction moves as [|[|n] moves IH]; intros [w d]; cbn; [constructor|..].
  - destruct (forward max_body w) as [w'|] eqn:Hf; [|apply IH].
    eapply steps_cons; [by apply body_other, other_forward|apply IH].
  - destruct (read_body n [id] w) as [r w'] eqn:Hr. eapply steps_cons; [|apply IH].
    eapply body_read; [|done]. constructor; [|done]. intros v. constructor.
Qed.

Definition bare_ctx : RequestCtx ListChan.t :=
  MkCtx "GET" (MkUri "/" None None) HTTP_11 [] (MkSocketAddr (V4 127 0 0 1) 40000)
    (MkSocketAddr (V4 127 0 0 1) 9292) false None None (Some 0%nat) 0 0 false 0 0 None.

(** Two frames, the second cut by a read of four bytes. *)
Definition two_frames : list frame_event := [FeData "abc"; FeData "def"; FeEnd].

Definition two_frames_moves : list move := [MForward; MForward; MForward; MForward; MRead 4].

Example body_delivery_witness :
  (play 100 two_frames_moves (body_init two_frames bare_ctx, "")).2 = "abcd"
  ∧ ∃ tail, client_data two_frames
            = (play 100 two_frames_moves (body_init two_frames bare_ctx, "")).2 +:+ tail.
Proof.
  split; [by vm_compute|].
  pose proof (play_steps 100 two_frames_moves (body_init two_frames bare_ctx, "")) as Hs.
  destruct (play 100 two_frames_moves (body_init two_frames bare_ctx, "")) as [w d].
  exact (proj1 (body_delivery 100 two_frames bare_ctx w d 4 [] eq_refl Hs (Forall_nil_2 _))).
Defined.

(** A body error is not told apart from the end: after [FeError] the
    application reads nil, with no exception, behind a truncated body. *)
Example body_error_reads_as_eof :
  (read_body 100 [id]
    (play 0 [MForward; MForward; MForward; MRead 100]
       (body_init [FeData "partial upl"; FeError] bare_ctx, "")).1).1 = ReadReturned (Ok None).
Proof. vm_compute. reflexivity. Qed.
