(* ===== verification/Reply.v ===== *)
(** How a worker answers ([request.rs]): the response head built from the
    Rack headers, the one-shot response, and the streamed response with its
    backpressure. *)

From S2P Require Import Prelude Text Channels Gvl Pin Response Request.
From Stdlib Require Import Ascii.

(** ** The Rack headers *)

(** What the code distinguishes of a Ruby value. *)
Inductive RbValue : Type :=
  | VStr (s : string)
  | VArray (l : list RbValue)
  | VOther (object : nat).

Section head.
(** Ruby's [to_s], called on anything but a String; the http crate's checks
    of a status and of a header line, and the text of its error. *)
Variables (to_s : RbValue → result string) (valid_status : Z → bool)
  (valid_header : string → string → bool) (http_error : string).

Definition coerce_str (v : RbValue) : result string :=
  match v with
  | VStr s => Ok s
  | v => to_s v
  end.

Definition builder_new (st : Z) : Builder :=
  if valid_status st then Some (MkHead st [] None) else None.

Definition builder_header (name value : string) (b : Builder) : Builder :=
  match b with
  | Some h =>
      if valid_header name value
      then Some (MkHead (h_status h) (h_headers h ++ [(name, value)]) (h_timing h))
      else None
  | None => None
  end.

(** One value per line of the header. *)
Fixpoint add_values (name : string) (values : list RbValue) (b : Builder) : result Builder :=
  match values with
  | [] => Ok b
  | v :: values => v ← coerce_str v; add_values name values (builder_header name v b)
  end.

Definition add_header (name value : RbValue) (b : Builder) : result Builder :=
  name ← coerce_str name;
  match value with
  | VArray values => add_values name values b
  | v => v ← coerce_str v; Ok (builder_header name v b)
  end.

Fixpoint add_headers (hs : list (RbValue * RbValue)) (b : Builder) : result Builder :=
  match hs with
  | [] => Ok b
  | (name, value) :: hs => b ← add_header name value b; add_headers hs b
  end.

Definition build_head (st : Z) (hs : list (RbValue * RbValue)) : result Builder :=
  add_headers hs (builder_new st).

(** The header lines a Rack hash of strings stands for. *)
Definition rack_lines (hs : list (string * list string)) : Headers :=
  '(name, values) ← hs; (λ v, (name, v)) <$> values.

Definition rack_value (values : list string) : RbValue :=
  match values with
  | [v] => VStr v
  | _ => VArray (VStr <$> values)
  end.

Definition rack_hash (hs : list (string * list string)) : list (RbValue * RbValue) :=
  (λ '(name, values), (VStr name, rack_value values)) <$> hs.

Definition valid_lines (ls : Headers) : bool := forallb (λ '(n, v), valid_header n v) ls.

Definition with_lines (ls : Headers) (b : Builder) : Builder :=
  match b with
  | Some h =>
      if valid_lines ls
      then Some (MkHead (h_status h) (h_headers h ++ ls) (h_timing h)) else None
  | None => None
  end.

Lemma with_lines_app l1 l2 b : with_lines (l1 ++ l2) b = with_lines l2 (with_lines l1 b).
Proof.
  destruct b as [h|]; [|done]. unfold with_lines, valid_lines. rewrite forallb_app.
  destruct (forallb _ l1); cbn; [|done]. by rewrite app_assoc.
Qed.

Lemma with_lines_nil b : with_lines [] b = b.
Proof. destruct b as [[st hs t]|]; [|done]. cbn. by rewrite app_nil_r. Qed.

Lemma builder_header_line n v b : builder_header n v b = with_lines [(n, v)] b.
Proof. destruct b as [h|]; [|done]. cbn. by destruct (valid_header n v). Qed.

Lemma add_values_lines name values b :
  add_values name (VStr <$> values) b = Ok (with_lines ((λ v, (name, v)) <$> values) b).
Proof.
  revert b. induction values as [|v values IH]; intros b; cbn; [by rewrite with_lines_nil|].
  rewrite IH, builder_header_line. f_equal. by rewrite <-with_lines_app.
Qed.

Lemma add_header_lines name values b :
  add_header (VStr name) (rack_value values) b
  = Ok (with_lines ((λ v, (name, v)) <$> values) b).
Proof.
  destruct values as [|v [|v' values]]; cbn -[add_values]; [by rewrite with_lines_nil| |].
  - by rewrite builder_header_line.
  - apply (add_values_lines name (v :: v' :: values)).
Qed.

(** A Rack header hash of Strings and Arrays of Strings becomes
    exactly its header lines: one per array element, in hash order, under the
    given status; the head is refused only when the http crate refuses the
    status or one of the lines. *)
Theorem build_head_lines st hs :
  build_head st (rack_hash hs)
  = Ok (if valid_status st && valid_lines (rack_lines hs)
        then Some (MkHead st (rack_lines hs) None) else None).
Proof.
  unfold build_head. transitivity (Ok (with_lines (rack_lines hs) (builder_new st))).
  - generalize (builder_new st). induction hs as [|[name values] hs IH]; intros b.
    + by rewrite with_lines_nil.
    + cbn -[add_header]. rewrite add_header_lines. cbn. rewrite IH. f_equal.
      unfold rack_lines. cbn. by rewrite with_lines_app.
  - unfold builder_new. by destruct (valid_status st).
Qed.

(** ** The one-shot response *)

Context {chan oneshot : Type → Type} `{!Flume chan, !Oneshot oneshot}.
Variable acquire : RString → RString.
Implicit Types (r : Responder chan oneshot) (ctx : RequestCtx chan).

(** A response nobody took is dropped, and its body with it. *)
Definition respond_simple (now : Z) ctx (st : Z) (hs : list (RbValue * RbValue)) (body : RString)
    (r : Responder chan oneshot) (slab : PinSlab)
  : result bool * (Responder chan oneshot * PinSlab) :=
  match build_head st hs with
  | Err e => (Err e, (r, slab))
  | Ok b =>
      let '(bytes, slab) := body_bytes acquire slab body in
      match timed now ctx b with
      | None => (Err (invalid_response http_error), (r, drop_bytes bytes slab))
      | Some h =>
          match send_response (MkResponse h (full_body bytes)) r with
          | (true, r) => (Ok true, (r, slab))
          | (false, r) => (Ok false, (r, drop_bytes bytes slab))
          end
      end
  end.

Definition send_headers (now : Z) ctx (st : Z) (hs : list (RbValue * RbValue)) r
  : result bool * Responder chan oneshot :=
  match build_head st hs with
  | Err e => (Err e, r)
  | Ok b =>
      match send_stream_head (timed now ctx b) r with
      | (None, r) => (Err (invalid_response http_error), r)
      | (Some started, r) => (Ok started, r)
      end
  end.
End head.

Definition finish {chan oneshot} `{!Flume chan} (r : Responder chan oneshot)
  : Responder chan oneshot := finish_stream r.

Definition abort {chan oneshot} `{!Flume chan, !Oneshot oneshot} (r : Responder chan oneshot)
  : blocking * Responder chan oneshot := respond_500_if_unsent r.

Section respond.
Context {chan oneshot : Type → Type} `{!Flume chan, !Oneshot oneshot, !OneshotSpec oneshot}.
Variables (to_s : RbValue → result string) (valid_status : Z → bool)
  (valid_header : string → string → bool) (http_error : string).
Variable acquire : RString → RString.
Hypothesis acquire_bytes : ∀ s, rbytes (acquire s) = rbytes s.
Implicit Types (r : Responder chan oneshot) (ctx : RequestCtx chan).

Lemma drop_body_bytes slab body :
  let '(b, slab') := body_bytes acquire slab body in
  bytes_as_ref b = rbytes body ∧ slots (drop_bytes b slab') = slots slab.
Proof.
  unfold body_bytes, pinned_bytes. destruct (_ <? _)%nat; [done|].
  destruct (_ && _); [done|]. destruct (insert _ slab) as [[i|] slab'] eqn:E; cbn -[ZERO_COPY_MIN].
  - apply insert_some in E as (Hi & -> & _). split; [done|].
    rewrite list_insert_insert_eq. by apply list_insert_id.
  - by apply insert_none in E.
Qed.

(** A valid head on an unclaimed responder that somebody waits for is sent. *)
Lemma respond_simple_sends now ctx st hs body r slab :
  os_state (head r) = OsPending → head_tx r = true → responded r = false →
  valid_status st && valid_lines valid_header (rack_lines hs) = true →
  ∃ r' slab' x bytes,
    respond_simple to_s valid_status valid_header http_error acquire now ctx st (rack_hash hs) body r slab
    = (Ok true, (r', slab'))
    ∧ os_state (head r') = OsSent x ∧ status x = st ∧ h_headers (head_of x) = rack_lines hs
    ∧ body_of x = FullBody bytes ∧ bytes_as_ref bytes = rbytes body.
Proof.
  intros Hpend Htx Hr Hok. unfold respond_simple. rewrite build_head_lines, Hok.
  pose proof (drop_body_bytes slab body) as Hb.
  destruct (body_bytes acquire slab body) as [bytes slab']. destruct Hb as [Hb _].
  assert (∃ t, timed now ctx (Some (MkHead st (rack_lines hs) None))
               = Some (MkHead st (rack_lines hs) t)) as [t ->]
    by (unfold timed; destruct (is_timed ctx); eauto).
  unfold send_response, claim, swap_responded. cbn. rewrite Hr, Htx. unfold send_head. cbn.
  destruct (os_send_pending _ (MkResponse (MkHead st (rack_lines hs) t) (full_body bytes))
              (head r) Hpend) as (o' & -> & Ho').
  do 4 eexists. split; [done|]. by split_and!.
Qed.

(** The complete response: on an unclaimed responder a valid head is
    sent with the status, the header lines and the bytes of the Ruby body; an
    invalid one raises and leaves the responder unclaimed, so the worker's
    rescue can still answer 500; once somebody else has answered, nothing is
    sent. In every case but the first the zero-copy slab is left as it was. *)
Theorem respond_simple_spec now ctx st hs body r slab :
  os_state (head r) = OsPending → head_tx r = true →
  let ok := valid_status st && valid_lines valid_header (rack_lines hs) in
  let '(res, (r', slab')) :=
    respond_simple to_s valid_status valid_header http_error acquire now ctx st (rack_hash hs)
      body r slab in
  if negb ok then
    res = Err (invalid_response http_error) ∧ r' = r ∧ slots slab' = slots slab
  else if responded r then
    res = Ok false ∧ head r' = head r ∧ slots slab' = slots slab
  else
    res = Ok true
    ∧ ∃ x bytes, os_state (head r') = OsSent x ∧ status x = st
        ∧ h_headers (head_of x) = rack_lines hs ∧ body_of x = FullBody bytes
        ∧ bytes_as_ref bytes = rbytes body.
Proof.
  intros Hpend Htx. cbn zeta.
  destruct (valid_status st && valid_lines valid_header (rack_lines hs)) eqn:Hok; cbn [negb].
  - destruct (responded r) eqn:Hr.
    + unfold respond_simple. rewrite build_head_lines, Hok. pose proof (drop_body_bytes slab body) as Hb.
      destruct (body_bytes acquire slab body) as [bytes slab']. destruct Hb as [_ Hd].
      assert (∃ hd, timed now ctx (Some (MkHead st (rack_lines hs) None)) = Some hd) as [hd ->]
        by (unfold timed; destruct (is_timed ctx); eauto).
      unfold send_response, claim, swap_responded. cbn. by rewrite Hr.
    + destruct (respond_simple_sends now ctx st hs body r slab Hpend Htx Hr Hok)
        as (r' & slab' & x & bytes & -> & ?). split; [done|]. by exists x, bytes.
  - unfold respond_simple. rewrite build_head_lines, Hok. pose proof (drop_body_bytes slab body) as Hb.
    destruct (body_bytes acquire slab body) as [bytes slab']. destruct Hb as [_ Hd].
    unfold timed. by destruct (is_timed ctx).
Qed.
End respond.

Example respond_simple_spec_witness :
  (respond_simple (λ _, Ok "") (λ _, true) (λ _ _, true) "" id 0 bare_ctx 200
     [(VStr "content-type", VStr "text/html"); (VStr "set-cookie", VArray [VStr "a"; VStr "b"])]
     (MkRString 8 "hi" false)
     (responder_new : Responder ListChan.t oneshot_state) (with_capacity 2)).1 = Ok true.
Proof.
  pose proof (respond_simple_spec (chan:=ListChan.t) (oneshot:=oneshot_state)
    (λ _, Ok "") (λ _, true) (λ _ _, true) "" id (λ _, eq_refl) 0 bare_ctx 200
    [("content-type", ["text/html"]); ("set-cookie", ["a"; "b"])]
    (MkRString 8 "hi" false) responder_new (with_capacity 2) eq_refl eq_refl) as H.
  exact (proj1 H).
Defined.

(** ** The streamed response *)

(** A stream in flight: the responder, the interrupt flag of the worker's
    slot, the zero-copy slab, and the frames hyper has taken so far. *)
Record StreamIo (chan oneshot : Type → Type) : Type := MkStream {
  sresp : Responder chan oneshot;
  sint : bool;
  sslab : PinSlab;
  taken : list FrameResult;
}.
Arguments MkStream {chan oneshot}.
Arguments sresp {chan oneshot}.
Arguments sint {chan oneshot}.
Arguments sslab {chan oneshot}.
Arguments taken {chan oneshot}.

Section stream.
Context {chan oneshot : Type → Type} `{!Flume chan, !Oneshot oneshot}.
Variable acquire : RString → RString.
Implicit Types (w : StreamIo chan oneshot).

Definition set_sresp r w : StreamIo chan oneshot := MkStream r (sint w) (sslab w) (taken w).
Definition set_sslab s w : StreamIo chan oneshot := MkStream (sresp w) (sint w) s (taken w).

(** One tick of [send_timeout] on the cloned sender: whether the frame went
    in, or the receiver is gone; [None] when the channel stayed full. *)
Definition send_tick (frame : FrameResult) w : option bool * StreamIo chan oneshot :=
  match frames (sresp w) with
  | None => (Some false, w)
  | Some c =>
      match try_send frame c with
      | (SendOk, c) => (Some true, set_sresp (set_body (body_tx (sresp w)) (Some c) (sresp w)) w)
      | (SendFull _, _) => (None, w)
      | (SendDisconnected _, _) => (Some false, w)
      end
  end.

(** The clone of the sender is dropped when the call returns. *)
Definition drop_clone w : StreamIo chan oneshot := set_sresp (map_frames drop_sender (sresp w)) w.

Inductive write_outcome : Type :=
  | WriteBlocked
  | WriteReturned (r : result unit).

Definition not_streaming : Error :=
  RuntimeError "Kino: response stream not started or already finished".

Definition write_chunk (chunk : RString) (env : list (StreamIo chan oneshot → StreamIo chan oneshot)) w
  : write_outcome * StreamIo chan oneshot :=
  match body_sender (sresp w) with
  | (false, _) => (WriteReturned (Err not_streaming), w)
  | (true, r) =>
      let '(bytes, slab) := body_bytes acquire (sslab w) chunk in
      let w := set_sslab slab (set_sresp r w) in
      match interruptible sint (send_tick (FrameData bytes)) env w with
      | (Waiting, w) => (WriteBlocked, w)
      | (Interrupted, w) =>
          (WriteReturned (Err interrupted_error),
           drop_clone (set_sslab (drop_bytes bytes (sslab w)) w))
      | (Finished true, w) => (WriteReturned (Ok tt), drop_clone w)
      | (Finished false, w) =>
          (WriteReturned (Ok tt), drop_clone (set_sslab (drop_bytes bytes (sslab w)) w))
      end
  end.

(** hyper takes the next frame. *)
Definition take_frame w : StreamIo chan oneshot :=
  match frames (sresp w) with
  | None => w
  | Some c =>
      match try_recv c with
      | (RecvOk x, c) =>
          MkStream (set_body (body_tx (sresp w)) (Some c) (sresp w)) (sint w) (sslab w)
            (taken w ++ [x])
      | _ => w
      end
  end.

(** What may happen on other threads while a write is blocked: hyper takes
    frames, the flag goes up. *)
Definition stream_others (f : StreamIo chan oneshot → StreamIo chan oneshot) : Prop :=
  ∀ w, f w = take_frame w ∨ (∃ b, f w = MkStream (sresp w) b (sslab w) (taken w)) ∨ f w = w.

Definition queued_frames w : list FrameResult :=
  match frames (sresp w) with Some c => contents c | None => [] end.

(** The bytes of a frame, as hyper writes them. *)
Definition frame_bytes (f : FrameResult) : string :=
  match f with FrameData b => bytes_as_ref b | FrameErr _ => "" end.

Definition stream_bytes w : string := str_concat (frame_bytes <$> taken w ++ queued_frames w).

Definition bounded_frames w : Prop :=
  ∀ c, frames (sresp w) = Some c → (length (contents c) ≤ capacity c)%nat.

(** The stream is open: its receiver lives, and its queue is bounded. *)
Definition streaming w : Prop :=
  body_tx (sresp w) = true
  ∧ ∃ c, frames (sresp w) = Some c ∧ receiving c = true ∧ (0 < senders c)%nat
       ∧ (0 < capacity c)%nat ∧ (length (contents c) ≤ capacity c)%nat.
End stream.

Section stream_proofs.
Context {chan oneshot : Type → Type} `{!Flume chan, !FlumeSpec chan, !Oneshot oneshot}.
Variable acquire : RString → RString.
Hypothesis acquire_bytes : ∀ s, rbytes (acquire s) = rbytes s.
Implicit Types (w : StreamIo chan oneshot).

(** What a blocked write keeps: the stream with the sender cloned. *)
Definition writing (bytes : string) w : Prop := streaming w ∧ stream_bytes w = bytes.

Lemma take_frame_writing b w : writing b w → writing b (take_frame w).
Proof.
  intros [(Hb & c & Hc & Hr & Hs & Hcap & Hlen) Hbytes]. unfold take_frame. rewrite Hc.
  destruct (try_recv c) as [[x| |] c'] eqn:Hrecv; [|by split; [split; eauto 10|]..].
  destruct (try_recv_cases _ _ _ Hrecv) as [(y & l & Hy & Hl & Hc' & Hcap' & Hs' & Hr')|[(? & _)|(? & _)]];
    simplify_eq/=.
  split.
  - split; [done|]. exists c'. cbn. rewrite Hr', Hs', Hcap'. rewrite Hl in Hlen. cbn in Hlen.
    split_and!; [done..|lia].
  - unfold stream_bytes, queued_frames . cbn. rewrite Hc, Hl.
    by rewrite <-app_assoc.
Qed.

Lemma others_writing b f w : stream_others f → writing b w → writing b (f w).
Proof.
  intros Hf Hw. destruct (Hf w) as [->|[[i ->]| ->]]; [by apply take_frame_writing|done|done].
Qed.

Lemma send_tick_writing b frame w x w' :
  writing b w → send_tick frame w = (x, w') →
  match x with
  | None => w' = w
  | Some sent => sent = true ∧ writing (b +:+ frame_bytes frame) w'
  end.
Proof.
  intros [(Hb & c & Hc & Hr & Hs & Hcap & Hlen) Hbytes]. unfold send_tick. rewrite Hc.
  destruct (try_send frame c) as [res c'] eqn:Hsend.
  destruct (try_send_cases _ _ _ _ Hcap Hsend) as
    [(-> & _ & Hlt & Hc' & Hcap' & Hs' & Hr')|[(-> & _)|(-> & _ & Hno)]]; intros; simplify_eq/=;
    [|done|congruence].
  split; [done|]. split.
  - split; [done|]. exists c'. cbn. rewrite Hr', Hs', Hcap', Hc', length_app. cbn.
    split_and!; [done..|lia].
  - unfold stream_bytes, queued_frames . cbn. rewrite Hc. rewrite Hc'.
    by rewrite app_assoc, fmap_app, str_concat_app; cbn; rewrite append_nil_r.
Qed.

Lemma writing_clone b w :
  writing b w → writing b (set_sresp (map_frames clone_sender (sresp w)) w)
  ∧ ∀ c, frames (map_frames clone_sender (sresp w)) = Some c → (1 < senders c)%nat.
Proof.
  intros [(Hb & c & Hc & Hr & Hs & Hcap & Hlen) Hbytes].
  destruct (clone_sender_spec (chan:=chan) FrameResult c) as (H1 & H2 & H3 & H4).
  unfold writing, streaming, stream_bytes, queued_frames, map_frames in *. cbn. rewrite Hc in *.
  rewrite H1. split; [split; [split; [done|]|done]|].
  - exists (clone_sender c). rewrite H1, H2, H3, H4. split_and!; [done|done|lia|done|done].
  - intros c' [= <-]. rewrite H3. lia.
Qed.

Lemma writing_bounded b w : writing b w → bounded_frames w.
Proof. intros [(_ & c & Hc & _ & _ & _ & ?) _] c' ?. naive_solver. Qed.

Lemma drop_clone_bytes w :
  stream_bytes (drop_clone w) = stream_bytes w ∧ (bounded_frames w → bounded_frames (drop_clone w)).
Proof.
  unfold stream_bytes, queued_frames, bounded_frames, drop_clone, map_frames. cbn.
  destruct (frames (sresp w)) as [c|]; [|done]. rewrite contents_drop_sender. split; [done|].
  intros Hl c' [= <-]. rewrite contents_drop_sender, capacity_drop_sender. by apply Hl.
Qed.

(** Writing a chunk on an open stream: the call returns only once the
    chunk's bytes stand at the end of the stream behind everything written
    before it, exactly once, or because the worker was interrupted, in which
    case none of them do; while the bounded channel is full it blocks, and
    the queue never outgrows its capacity. Frames hyper takes meanwhile do
    not disturb the order. *)
Theorem write_chunk_spec chunk env w :
  streaming w →
  Forall stream_others env →
  let '(out, w') := write_chunk acquire chunk env w in
  stream_bytes w' =
    match out with
    | WriteReturned (Ok _) => stream_bytes w +:+ rbytes chunk
    | _ => stream_bytes w
    end
  ∧ bounded_frames w'
  ∧ (out = WriteBlocked ∨ out = WriteReturned (Ok tt) ∨ out = WriteReturned (Err interrupted_error)).
Proof.
  intros Hst Henv. unfold write_chunk, body_sender.
  pose proof Hst as (Hb & _). rewrite Hb.
  pose proof (drop_body_bytes acquire acquire_bytes (sslab w) chunk) as Hbytes.
  destruct (body_bytes acquire (sslab w) chunk) as [bytes slab]. destruct Hbytes as [Hbytes _].
  destruct (writing_clone (stream_bytes w) w (conj Hst eq_refl)) as [Hw _].
  set (w1 := set_sslab slab _). assert (Hw1 : writing (stream_bytes w) w1) by exact Hw.
  pose proof (interruptible_inv sint (send_tick (FrameData bytes)) (writing (stream_bytes w)) env w1)
    as Hloop.
  destruct (interruptible _ _ env w1) as [r w2].
  assert (Hl : match r with
               | Waiting => writing (stream_bytes w) w2
               | Interrupted => writing (stream_bytes w) w2 ∧ sint w2 = true
               | Finished x => ∃ w0, writing (stream_bytes w) w0 ∧ sint w0 = false
                                ∧ send_tick (FrameData bytes) w0 = (Some x, w2)
               end).
  { apply Hloop; [|intros v v' Hv _ Hs|done].
    - intros f v Hf. rewrite Forall_forall in Henv. apply others_writing, Henv, Hf.
    - apply (send_tick_writing _ _ _ _ _ Hv) in Hs. rewrite Hs; exact Hv. }
  destruct r as [| |sent].
  - split; [apply Hl|]. split; [by eapply writing_bounded|by left].
  - destruct Hl as [Hl _]. destruct (drop_clone_bytes (set_sslab (drop_bytes bytes (sslab w2)) w2)) as [-> Hd].
    split; [apply Hl|]. split; [apply Hd; by eapply writing_bounded|by right; right].
  - destruct Hl as (w0 & Hw0 & _ & Hs). apply (send_tick_writing _ _ _ _ _ Hw0) in Hs as [-> Hs].
    destruct (drop_clone_bytes w2) as [-> Hd]. split; [|split; [apply Hd; by eapply writing_bounded|by right; left]].
    destruct Hs as [_ ->]. cbn. by rewrite Hbytes.
Qed.
End stream_proofs.

Definition open_io (queued : nat) : StreamIo ListChan.t oneshot_state :=
  MkStream
    (MkResponder true 0 false (OsSent (MkResponse (MkHead 200 [] None) StreamBody)) true
       (Some (ListChan.Mk (replicate queued (FrameData (BytesCopied "x"))) 8 1 true)))
    false (with_capacity 2) [].

(** A full channel: the write goes through when hyper takes a frame. *)
Example write_chunk_spec_witness :
  stream_bytes (write_chunk id (MkRString 8 "yz" false) [id; take_frame] (open_io 8)).2
  = "xxxxxxxxyz".
Proof.
  assert (Hst : streaming (open_io 8)).
  { split; [done|]. eexists. split_and!; [reflexivity|done|..]; cbn; lia. }
  assert (Henv : Forall (stream_others (chan:=ListChan.t) (oneshot:=oneshot_state)) [id; take_frame]).
  { apply Forall_cons; split; [|apply Forall_cons; split; [|by apply Forall_nil]]; intros w; [by right; right|by left]. }
  pose proof (write_chunk_spec id (λ _, eq_refl) (MkRString 8 "yz" false) [id; take_frame]
    (open_io 8) Hst Henv) as H.
  destruct (write_chunk _ _ _ _) as [out w'] eqn:Hw. destruct H as [H _].
  vm_compute in Hw. injection Hw as <- <-. exact H.
Defined.

(** ** The Host header *)

Definition split_host_port (host : string) (default_port : Z) : string * Z :=
  match rsplit_once ":"%char host with
  | Some (name, port) =>
      if (String.length name =? 0)%nat then (host, default_port)
      else
        match parse_u16 port with
        | Some p => (name, p)
        | None => (host, default_port)
        end
  | None => (host, default_port)
  end.

(** C40: Splitting what was put together: a non-empty host name and a
    16-bit port joined by a colon come apart again, whatever colons the name
    holds (bracketed IPv6). Of any input, either a non-empty name and the
    text of a 16-bit port after the last colon come out, or the whole input
    comes back with the default port. *)
Theorem split_host_port_spec name p dflt :
  (name ≠ "" → 0 ≤ p ≤ u16_max →
   split_host_port (name +:+ ":" +:+ display p) dflt = (name, p))
  ∧ ∀ host, split_host_port host dflt = (host, dflt)
     ∨ ∃ n text q, host = n +:+ ":" +:+ text ∧ n ≠ "" ∧ lacks ":"%char text = true
         ∧ parse_u16 text = Some q ∧ 0 ≤ q ≤ u16_max ∧ split_host_port host dflt = (n, q).
Proof.
  unfold split_host_port. split.
  - intros Hne Hp.
    assert (rsplit_once ":"%char (name +:+ ":" +:+ display p) = Some (name, display p)) as ->.
    { apply rsplit_once_some. split; [done|]. by apply display_lacks. }
    destruct name as [|c name]; [done|]. cbn -[parse_u16].
    unfold parse_u16. by rewrite parse_uint_display.
  - intros host. destruct (rsplit_once ":"%char host) as [[n text]|] eqn:E; [|by left].
    apply rsplit_once_some in E as [-> Hl]. destruct n as [|c n]; [by left|]. cbn -[parse_u16].
    destruct (parse_u16 text) as [q|] eqn:Hq; [|by left]. right. exists (String c n), text, q.
    apply parse_uint_bound in Hq as Hb; [|done]. split_and!; [done|done|done|done|lia|unfold u16_max in *; lia|done].
Qed.

Example split_host_port_roundtrip : split_host_port "[::1]:8080" 80 = ("[::1]", 8080).
Proof. apply (split_host_port_spec "[::1]" 8080 80); [done|]. unfold u16_max. lia. Defined.

Example split_host_port_tests :
  split_host_port "example.com" 80 = ("example.com", 80)
  ∧ split_host_port "example.com:99999" 80 = ("example.com:99999", 80)
  ∧ split_host_port "example.com:" 80 = ("example.com:", 80)
  ∧ split_host_port ":8080" 80 = (":8080", 80).
Proof. by vm_compute. Qed.
