(* ===== verification/Streams.v ===== *)
(** Streamed responses under concurrency ([send_stream_head], [body_sender],
    [finish_stream] and [respond_500_if_unsent] of [response.rs], [write_chunk]
    and [finish] of [request.rs]): the application's threads writing chunks
    and finishing, aborts from the worker's rescue, the supervisor and
    [Drop], and hyper reading the frames, interleaved at their channel and
    mutex operations. *)

From S2P Require Import Prelude Channels Gvl Response Request Reply.
From S2P Require Pin.

Section streams.
Context {chan oneshot : Type → Type} `{!Flume chan, !Oneshot oneshot}.
Implicit Types (r : Responder chan oneshot).

(** A stream whose head is out. [pending] are the frames of the writes that
    hold a clone of the sender and have not sent yet, [leaving] counts the
    writes that are through and still hold theirs; [aborting] is an abort that
    took the sender and has not sent its error frame yet. [log] is every
    frame that went in, [seen] every frame hyper took out; [finished] and
    [aborted] say who took the sender out of its mutex, and is through. *)
Record Stream : Type := MkStreaming {
  responder_ : Responder chan oneshot;
  pending : list FrameResult;
  leaving : nat;
  aborting : bool;
  log : list FrameResult;
  seen : list FrameResult;
  finished : bool;
  aborted : bool;
}.

(** One operation on the mutex or on the channel. *)
Inductive stream_step : Stream → Stream → Prop :=
  (** [write_chunk] clones the sender, if it is still there; *)
  | st_clone r r' ps k ab lg se fi ad b :
      body_sender r = (true, r') →
      stream_step (MkStreaming r ps k ab lg se fi ad) (MkStreaming r' (FrameData b :: ps) k ab lg se fi ad)
  (** its frame goes in; or the client has gone, or it is interrupted; *)
  | st_write r c c' p1 f p2 k ab lg se fi ad :
      frames r = Some c → try_send f c = (SendOk, c') →
      stream_step (MkStreaming r (p1 ++ f :: p2) k ab lg se fi ad)
        (MkStreaming (set_body (body_tx r) (Some c') r) (p1 ++ p2) (S k) ab (lg ++ [f]) se fi ad)
  | st_give_up r p1 f p2 k ab lg se fi ad :
      stream_step (MkStreaming r (p1 ++ f :: p2) k ab lg se fi ad)
        (MkStreaming r (p1 ++ p2) (S k) ab lg se fi ad)
  (** and the clone is dropped. *)
  | st_drop_clone r ps k ab lg se fi ad :
      stream_step (MkStreaming r ps (S k) ab lg se fi ad)
        (MkStreaming (map_frames drop_sender r) ps k ab lg se fi ad)
  (** [finish]. *)
  | st_finish r ps k ab lg se fi ad :
      stream_step (MkStreaming r ps k ab lg se fi ad)
        (MkStreaming (finish_stream r) ps k ab lg se (fi || body_tx r) ad)
  (** An abort takes the sender, if it is still there, and sends the error
      frame once there is room. *)
  | st_abort r r' ps k lg se fi ad :
      take_body_tx r = (true, r') →
      stream_step (MkStreaming r ps k false lg se fi ad) (MkStreaming r' ps k true lg se fi ad)
  | st_abandon r r' ps k lg se fi ad :
      send_abandoned r = (Returned, r') →
      stream_step (MkStreaming r ps k true lg se fi ad)
        (MkStreaming r' ps k false
           (lg ++ (if match frames r with Some c => receiving c | None => false end then [abandoned_frame] else []))
           se fi true)
  (** hyper, while it has the body, takes a frame; or drops it. *)
  | st_frame r c x c' ps k ab lg se fi ad :
      frames r = Some c → receiving c = true → try_recv c = (RecvOk x, c') →
      stream_step (MkStreaming r ps k ab lg se fi ad)
        (MkStreaming (set_body (body_tx r) (Some c') r) ps k ab lg (se ++ [x]) fi ad)
  | st_gone r ps k ab lg se fi ad :
      stream_step (MkStreaming r ps k ab lg se fi ad)
        (MkStreaming (map_frames drop_receiver r) ps k ab lg se fi ad).

(** The head is sent on a responder nobody has claimed. *)
Definition stream_init (h : Head) r : Stream :=
  MkStreaming (send_stream_head (Some h) r).2 [] 0 false [] [] false false.
End streams.

(** ** What hyper reads *)

Section proofs.
Context {chan oneshot : Type → Type}
  `{!Flume chan, !FlumeSpec chan, !Oneshot oneshot, !OneshotSpec oneshot}.
Implicit Types (r : Responder chan oneshot) (s : Stream (chan := chan) (oneshot := oneshot)).

Definition is_data (f : FrameResult) : Prop := match f with FrameData _ => True | FrameErr _ => False end.

(** The sender in the mutex went to [finish] or to one abort. *)
Definition one_taker s : Prop :=
  (Nat.b2n (body_tx (responder_ s)) + Nat.b2n (finished s) + Nat.b2n (aborting s)
   + Nat.b2n (aborted s) = 1)%nat.

(** The log is the chunks that went in, and behind the chunks written before
    the abort its error frame. *)
Definition log_ok s : Prop :=
  Forall (λ f, is_data f ∨ f = abandoned_frame) (log s)
  ∧ (abandoned_frame ∈ log s ↔ aborted s = true).

Record stream_ok (c : chan FrameResult) s : Prop := {
  so_frames : frames (responder_ s) = Some c;
  so_capacity : capacity c = STREAM_BUFFER;
  so_senders : senders c =
    (Nat.b2n (body_tx (responder_ s)) + length (pending s) + leaving s + Nat.b2n (aborting s))%nat;
  so_taker : one_taker s;
  so_pending : Forall is_data (pending s);
  so_prefix : seen s `prefix_of` log s;
  so_queue : receiving c = true → seen s ++ contents c = log s ∧ (length (contents c) ≤ STREAM_BUFFER)%nat
             ∧ log_ok s;
}.

Lemma log_ok_data f s s' :
  is_data f → log s' = log s ++ [f] → aborted s' = aborted s → log_ok s → log_ok s'.
Proof.
  intros Hd Hl Ha [H1 H2]. unfold log_ok. rewrite Hl, Ha. split.
  - apply Forall_app. split; [done|]. apply Forall_singleton. by left.
  - rewrite elem_of_app, list_elem_of_singleton, H2. split; [intros [?|<-]|]; [done|done|by left].
Qed.

(** The channel is only read and written from its two ends, and every sender
    of it is accounted for. *)
Lemma stream_ok_step s s' c :
  stream_step s s' → stream_ok c s → ∃ c', stream_ok c' s' ∧ (receiving c' = true → receiving c = true).
Proof.
  intros Hstep [Hf Hcap Hs Ht Hp Hpre Hq]. unfold one_taker in Ht.
  destruct Hstep; cbn [responder_ pending leaving aborting log seen finished aborted] in *.
  - unfold body_sender in H. destruct (body_tx r) eqn:Hb; [|done]. injection H as <-.
    destruct (clone_sender_spec _ c) as (K1 & K2 & K3 & K4).
    exists (clone_sender c). split; [|by rewrite K4].
    split; unfold one_taker; cbn; rewrite ?Hf, ?K1, ?K2, ?K3, ?K4, ?Hb; [done|done|simpl in *; lia|done| |done|done].
    by constructor.
  - rewrite Hf in H. injection H as <-.
    apply try_send_cases in H0 as [(_ & Hrx & Hroom & K1 & K2 & K3 & K4)|[([=] & _)|([=] & _)]]; [|unfold STREAM_BUFFER in *; lia].
    apply Forall_app in Hp as [Hp1 (Hd & Hp2)%Forall_cons]. destruct (Hq Hrx) as (Hl & Hlen & Hlog).
    exists c'. split; [|by rewrite K4].
    split; unfold one_taker; cbn; rewrite ?K2, ?K3, ?K4; [done|done| |done|by apply Forall_app| |].
    + rewrite Hs, !length_app. simpl. lia.
    + by apply prefix_app_r.
    + intros _. rewrite K1, app_assoc, Hl. split_and!; [done|rewrite length_app; simpl; lia|].
      by apply (log_ok_data f (MkStreaming r (p1 ++ f :: p2) k ab lg se fi ad)).
  - exists c. split; [|done]. apply Forall_app in Hp as [Hp1 (Hd & Hp2)%Forall_cons].
    split; cbn; try done; [|by apply Forall_app]. rewrite Hs, !length_app. simpl. lia.
  - exists (drop_sender c). autorewrite with kino_chan. split; [|done].
    split; unfold one_taker; cbn; autorewrite with kino_chan; try done; [by rewrite Hf|]. lia.
  - unfold finish_stream, take_body_tx. destruct (body_tx r) eqn:Hb; cbn.
    + exists (drop_sender c). autorewrite with kino_chan. split; [|done].
      split; unfold one_taker; cbn; autorewrite with kino_chan; rewrite ?orb_true_r; try done; [by rewrite Hf|..];
        destruct fi, ab, ad; simpl in *; try lia.
    + exists c. split; [|done]. rewrite orb_false_r. by split; unfold one_taker; cbn; rewrite ?Hb.
  - unfold take_body_tx in H. destruct (body_tx r) eqn:Hb; [|done]. injection H as <-.
    exists c. split; [|done]. split; unfold one_taker; cbn; try done; simpl in *; lia.
  - unfold send_abandoned in H. rewrite Hf in H.
    destruct (try_send abandoned_frame c) as [res c'] eqn:Hsend.
    apply try_send_cases in Hsend as [(-> & Hrx & Hroom & K1 & K2 & K3 & K4)|[(-> & _)|(-> & -> & Hrx)]];
      [|done| |unfold STREAM_BUFFER in *; lia]; injection H as <-; rewrite Hf, Hrx.
    + destruct (Hq Hrx) as (Hl & Hlen & Hlog1 & Hlog2).
      exists (drop_sender c'). autorewrite with kino_chan. rewrite K4. split; [|done].
      split; unfold one_taker; cbn; autorewrite with kino_chan; rewrite ?K1, ?K2, ?K3, ?K4; try done.
      * destruct (body_tx r); simpl in *; lia.
      * destruct (body_tx r), fi, ad; simpl in *; lia.
      * by apply prefix_app_r.
      * intros _. rewrite app_assoc, Hl. split_and!; [done|rewrite length_app; simpl; lia|]. split; cbn.
        -- apply Forall_app. split; [done|]. apply Forall_singleton. by right.
        -- split; [done|]. intros _. apply elem_of_app. right. by left.
    + exists (drop_sender c). autorewrite with kino_chan. rewrite Hrx. split; [|done]. rewrite app_nil_r.
      split; unfold one_taker; cbn; autorewrite with kino_chan; rewrite ?Hrx; try done.
      * destruct (body_tx r); simpl in *; lia.
      * destruct (body_tx r), fi, ad; simpl in *; lia.
  - rewrite Hf in H. injection H as <-. destruct (Hq H0) as (Hl & Hlen & Hlog).
    apply try_recv_cases in H1 as [(y & q & [= ->] & Hc & K1 & K2 & K3 & K4)|[([=] & _)|([=] & _)]].
    exists c'. split; [|by rewrite K4]. rewrite Hc in *.
    split; unfold one_taker; cbn; rewrite ?K1, ?K2, ?K3, ?K4; try done.
    + exists q. by rewrite <-Hl, <-app_assoc.
    + intros _. rewrite <-app_assoc. split_and!; [done|simpl in *; lia|done].
  - destruct (drop_receiver_spec _ c) as (K2 & K3 & K4).
    exists (drop_receiver c). rewrite K4. split; [|done].
    split; unfold one_taker; cbn; rewrite ?Hf, ?K2, ?K3, ?K4; done.
Qed.

(** A responder nobody has claimed and somebody waits for. *)
Definition unclaimed r : Prop := responded r = false ∧ head_tx r = true ∧ os_state (head r) = OsPending.

Lemma stream_ok_init h r : unclaimed r → ∃ c, stream_ok c (stream_init h r) ∧ receiving c = true.
Proof.
  intros (Hr & Htx & Hp). unfold stream_init, send_stream_head, claim, swap_responded. rewrite Hr. cbn. rewrite Htx.
  unfold send_stream, send_head. cbn.
  destruct (os_send_pending _ (MkResponse h StreamBody) (head r) Hp) as (o & -> & _). cbn.
  destruct (bounded_spec FrameResult STREAM_BUFFER) as (K1 & K2 & K3 & K4).
  exists (bounded STREAM_BUFFER). split; [|done].
  split; unfold one_taker; cbn; rewrite ?K1, ?K2, ?K3; try done. intros _.
  split_and!; [done|simpl; lia|]. split; [done|]. cbn. split; [by intros ?%elem_of_nil|done].
Qed.

Lemma stream_ok_steps s s' c :
  steps stream_step s s' → stream_ok c s → ∃ c', stream_ok c' s' ∧ (receiving c' = true → receiving c = true).
Proof.
  intros Hs. revert c. induction Hs as [s|s1 s2 s3 Hstep _ IH]; intros c H; [by exists c|].
  destruct (stream_ok_step _ _ _ Hstep H) as (c2 & H2 & R2). destruct (IH _ H2) as (c3 & H3 & R3).
  exists c3. auto.
Qed.

(** C22: A streamed response is read in order, and its end is honest. Whatever
    writes, finishes, aborts, interrupts and reads interleave on a stream, as
    long as hyper has the body: what it has read and what is queued (eight
    frames at most) are the frames that went in, in order; the error frame is
    among them exactly when an abort got through, once somebody has taken the
    sender nobody else does; hyper waits only while somebody still holds a
    sender; and when it sees the end, it has read every frame that went in,
    and either the application finished the stream, and then they are all
    chunks, or an abort is among them: a truncated response never looks
    complete. *)
Theorem stream_end_honest h r s :
  unclaimed r → steps stream_step (stream_init h r) s →
  ∃ c, frames (responder_ s) = Some c
    ∧ (receiving c = true →
       seen s ++ contents c = log s ∧ (length (contents c) ≤ STREAM_BUFFER)%nat
       ∧ (abandoned_frame ∈ log s ↔ aborted s = true) ∧ one_taker s
       ∧ match (try_recv c).1 with
         | RecvOk x => ∃ rest, log s = seen s ++ x :: rest
         | RecvEmpty =>
             seen s = log s
             ∧ (body_tx (responder_ s) = true ∨ pending s ≠ [] ∨ leaving s ≠ 0%nat ∨ aborting s = true)
         | RecvDisconnected =>
             seen s = log s
             ∧ ((finished s = true ∧ Forall is_data (seen s)) ∨ (aborted s = true ∧ abandoned_frame ∈ seen s))
         end).
Proof.
  intros Hr Hs. destruct (stream_ok_init h r Hr) as (c0 & H0 & _).
  destruct (stream_ok_steps _ _ _ Hs H0) as (c & [Hf _ Hse Ht _ _ Hq] & _).
  exists c. split; [done|]. intros Hrx. destruct (Hq Hrx) as (Hl & Hlen & Hlog1 & Hlog2). split_and!; [done..|].
  destruct (try_recv c) as [res c'] eqn:Hrecv. cbn.
  apply try_recv_cases in Hrecv as [(x & q & -> & Hc & _)|[(-> & _ & Hc & Hne)|(-> & _ & Hc & Hz)]].
  - exists q. by rewrite <-Hl, Hc.
  - rewrite Hc, app_nil_r in Hl. split; [done|]. unfold one_taker in Ht. rewrite Hse in Hne.
    destruct (body_tx _), (pending s), (leaving s), (aborting s); simpl in *; auto; lia.
  - rewrite Hc, app_nil_r in Hl. split; [done|]. unfold one_taker in Ht. rewrite Hse in Hz.
    destruct (body_tx _), (aborting s); simpl in *; try lia.
    destruct (aborted s) eqn:Ha; simpl in *; [right; split; [done|]; rewrite Hl; by apply Hlog2|].
    left. destruct (finished s); [|simpl in Ht; lia]. split; [done|]. rewrite Hl.
    apply Forall_forall. intros f Hin. rewrite Forall_forall in Hlog1. destruct (Hlog1 f Hin) as [?| ->]; [done|].
    by apply Hlog2 in Hin.
Qed.

(** ** [write_chunk] is a run *)

Section writes.
Variable acquire : Pin.RString → Pin.RString.
Implicit Types (w : StreamIo chan oneshot).

(** The stream as [write_chunk] sees it. *)
Definition shows w s : Prop := responder_ s = sresp w ∧ seen s = taken w.

(** What the other threads do while the write of [f] blocks is a run that
    leaves its frame and its clone alone. *)
Definition others_writing (f : FrameResult) (g : StreamIo chan oneshot → StreamIo chan oneshot) : Prop :=
  ∀ s w, shows w s → f ∈ pending s →
    ∃ s', steps stream_step s s' ∧ shows (g w) s' ∧ f ∈ pending s'.

Lemma drop_clone_run s w :
  shows w s → leaving s ≠ 0%nat →
  ∃ s', stream_step s s' ∧ shows (drop_clone w) s' ∧ log s' = log s.
Proof.
  destruct s as [r ps [|k] ab lg se fi ad]; [done|]. intros [Hr Hse] _. cbn in Hr, Hse. subst r se.
  eexists. split; [apply st_drop_clone|]. done.
Qed.

Lemma send_tick_run s w f (b : option bool) w' :
  shows w s → f ∈ pending s → send_tick f w = (b, w') →
  match b with
  | None => w' = w
  | Some true => ∃ s', stream_step s s' ∧ shows w' s' ∧ leaving s' ≠ 0%nat ∧ f ∈ log s'
  | Some false => w' = w
  end.
Proof.
  destruct s as [r ps k ab lg se fi ad]. intros [Hr Hse] Hin. cbn in Hr, Hse, Hin. subst r se. unfold send_tick.
  destruct (frames (sresp w)) as [c|] eqn:Hf; [|by intros [= <- <-]].
  destruct (try_send f c) as [[| |] c'] eqn:Hs; intros [= <- <-]; [|done..].
  apply list_elem_of_split in Hin as (p1 & p2 & ->). eexists.
  split; [by eapply st_write|]. split; [done|]. split; [done|]. cbn. apply elem_of_app. right. by left.
Qed.

Lemma abandoned_run s w f :
  shows w s → f ∈ pending s → ∃ s', stream_step s s' ∧ shows w s' ∧ leaving s' ≠ 0%nat.
Proof.
  destruct s as [r ps k ab lg se fi ad]. intros [Hr Hse] Hin. cbn in Hr, Hse, Hin. subst r se.
  apply list_elem_of_split in Hin as (p1 & p2 & ->). eexists. split; [by apply st_give_up|]. by split.
Qed.

(** The blocked write, to its end. *)
Lemma blocked_write_run f env s w (res : waited bool) w' :
  shows w s → f ∈ pending s → Forall (others_writing f) env →
  interruptible sint (send_tick f) env w = (res, w') →
  ∃ s', steps stream_step s s' ∧ shows w' s'
    ∧ match res with
      | Gvl.Finished true => leaving s' ≠ 0%nat ∧ f ∈ log s'
      | Gvl.Finished false => f ∈ pending s' ∧ send_tick f w' = (Some false, w')
      | Interrupted => f ∈ pending s' ∧ sint w' = true
      | Waiting => f ∈ pending s'
      end.
Proof.
  revert s w. induction env as [|g env IH]; intros s w Hw Hin Henv; cbn.
  { intros [= <- <-]. exists s. by split_and!; [constructor|..]. }
  apply Forall_cons in Henv as [Hg Henv]. destruct (Hg s w Hw Hin) as (s1 & Hs1 & Hw1 & Hin1).
  destruct (sint (g w)) eqn:Hint; [intros [= <- <-]; by exists s1|].
  destruct (send_tick f (g w)) as [b w1] eqn:Ht. pose proof (send_tick_run _ _ _ _ _ Hw1 Hin1 Ht) as Hb.
  destruct b as [[]|].
  - destruct Hb as (s2 & Hs2 & Hw2 & Hk & Hl). intros [= <- <-]. exists s2.
    split; [eapply steps_trans; [exact Hs1|by apply steps_one]|]. by split_and!.
  - subst w1. intros [= <- <-]. by exists s1.
  - subst w1. intros Hi. destruct (IH _ _ Hw1 Hin1 Henv Hi) as (s' & Hs' & ? & ?).
    exists s'. split; [by eapply steps_trans|done].
Qed.

(** The end of a write: the frame is given up if need be, the clone goes. *)
Lemma leave_write_run s w f :
  shows w s → f ∈ pending s → ∃ s', steps stream_step s s' ∧ shows (drop_clone w) s'.
Proof.
  intros Hw Hin. destruct (abandoned_run _ _ _ Hw Hin) as (s1 & Hs1 & Hw1 & Hk).
  destruct (drop_clone_run _ _ Hw1 Hk) as (s2 & Hs2 & Hw2 & _).
  exists s2. split; [|done]. eapply steps_cons; [exact Hs1|by apply steps_one].
Qed.

(** A send that finds the channel disconnected: hyper has dropped the body. *)
Lemma send_tick_gone c s w f w' :
  stream_ok c s → shows w s → send_tick f w = (Some false, w') → receiving c = false.
Proof.
  intros [Hf Hcap _ _ _ _ _] [Hr _]. unfold send_tick. rewrite <-Hr, Hf.
  destruct (try_send f c) as [res c'] eqn:Hs.
  apply try_send_cases in Hs as [(-> & _)|[(-> & _)|(-> & -> & Hrx)]]; [done|done|done|].
  rewrite Hcap. unfold STREAM_BUFFER. lia.
Qed.

Lemma receiving_gone s s' c c' :
  stream_ok c s → steps stream_step s s' → stream_ok c' s' → receiving c = false → receiving c' = false.
Proof.
  intros H Hs H' Hrx. destruct (stream_ok_steps _ _ _ Hs H) as (c2 & H2 & Hr).
  assert (c2 = c') as -> by (pose proof (so_frames _ _ H2); pose proof (so_frames _ _ H'); congruence).
  destruct (receiving c'); [|done]. by rewrite Hr in Hrx.
Qed.

(** C23: Writing a chunk, whole and blocked as long as it may be, is a run of the
    stream, whatever runs of the others go on meanwhile (another thread
    writing, finishing or aborting, hyper reading or leaving). It raises only
    when the stream is not open any more or the worker was interrupted; it
    returns only when its bytes, pinned or copied, went into the stream, or
    hyper has dropped the body; and while it blocks it keeps its frame. *)
Theorem write_chunk_runs h r chunk env s w res w' :
  unclaimed r → steps stream_step (stream_init h r) s → shows w s →
  let f := FrameData (Pin.body_bytes acquire (sslab w) chunk).1 in
  Forall (others_writing f) env → write_chunk acquire chunk env w = (res, w') →
  ∃ s', steps stream_step (stream_init h r) s' ∧ steps stream_step s s' ∧ shows w' s'
    ∧ match res with
      | WriteBlocked => f ∈ pending s'
      | WriteReturned (Ok _) => f ∈ log s' ∨ ∀ c, frames (responder_ s') = Some c → receiving c = false
      | WriteReturned (Err e) =>
          (e = not_streaming ∧ body_tx (responder_ s) = false) ∨ (e = interrupted_error ∧ sint w' = true)
      end.
Proof.
  intros Hun Hs Hw f Henv Hwr.
  destruct (stream_ok_init h r Hun) as (c0 & H0 & _). destruct (stream_ok_steps _ _ _ Hs H0) as (c & H & _).
  assert (Hreach : ∀ s', steps stream_step s s' → steps stream_step (stream_init h r) s')
    by (intros; by eapply steps_trans).
  unfold write_chunk in Hwr. destruct (body_sender (sresp w)) as [[] r1] eqn:Hb.
  2:{ injection Hwr as <- <-. exists s. split_and!; [done|constructor|done|]. left. split; [done|].
      rewrite (proj1 Hw). unfold body_sender in Hb. by destruct (body_tx (sresp w)). }
  destruct (Pin.body_bytes acquire (sslab w) chunk) as [bytes sl] eqn:Hbytes. cbn in f. fold f in Hwr.
  assert (Hclone : ∃ s1, stream_step s s1 ∧ shows (set_sslab sl (set_sresp r1 w)) s1 ∧ f ∈ pending s1).
  { destruct s as [r0 ps k ab lg se fi ad]. destruct Hw as [Hr Hse]. cbn in Hr, Hse. subst r0 se.
    eexists. split; [by eapply st_clone|]. split; [done|]. by left. }
  destruct Hclone as (s1 & Hs1 & Hw1 & Hin1).
  destruct (interruptible sint (send_tick f) env _) as [wt w2] eqn:Hi.
  destruct (blocked_write_run f env _ _ _ _ Hw1 Hin1 Henv Hi) as (s2 & Hs2 & Hw2 & Hend).
  assert (Hs02 : steps stream_step s s2) by (eapply steps_cons; [exact Hs1|exact Hs2]).
  destruct wt as [| |[]].
  - injection Hwr as <- <-. exists s2. split_and!; auto.
  - destruct Hend as [Hin2 Hint]. injection Hwr as <- <-.
    destruct (leave_write_run s2 (set_sslab (Pin.drop_bytes bytes (sslab w2)) w2) f Hw2 Hin2) as (s3 & Hs3 & Hw3).
    assert (Hs03 : steps stream_step s s3) by (by eapply steps_trans).
    exists s3. split_and!; auto.
  - destruct Hend as [Hk Hl]. injection Hwr as <- <-.
    destruct (drop_clone_run _ _ Hw2 Hk) as (s3 & Hs3 & Hw3 & Hl3).
    assert (Hs03 : steps stream_step s s3) by (eapply steps_trans; [exact Hs02|by apply steps_one]).
    exists s3. split_and!; auto. left. by rewrite Hl3.
  - destruct Hend as [Hin2 Htick]. injection Hwr as <- <-.
    destruct (leave_write_run s2 (set_sslab (Pin.drop_bytes bytes (sslab w2)) w2) f Hw2 Hin2) as (s3 & Hs3 & Hw3).
    assert (Hs03 : steps stream_step s s3) by (by eapply steps_trans).
    exists s3. split_and!; auto. right. intros c3 Hf3.
    destruct (stream_ok_steps _ _ _ Hs02 H) as (c2 & H2 & _).
    destruct (stream_ok_steps _ _ _ Hs03 H) as (c3' & H3 & _).
    assert (c3' = c3) as -> by (pose proof (so_frames _ _ H3); congruence).
    eapply (receiving_gone s2 s3 c2 c3); [done..|]. by eapply send_tick_gone.
Qed.
End writes.
End proofs.

(** ** Examples *)

Notation sample_stream_state := (Stream (chan:=ListChan.t) (oneshot:=oneshot_state)).

Definition sample_head : Head := MkHead 200 [] None.

Lemma unclaimed_new : unclaimed (responder_new : Responder ListChan.t oneshot_state).
Proof. by split_and!. Defined.

Definition piece : FrameResult := FrameData (Pin.BytesCopied "x").

(** One chunk is written and read; then the worker dies, and hyper reads the
    error before the end. *)
Example stream_end_honest_witness :
  ∃ (s : sample_stream_state) c, steps stream_step (stream_init sample_head responder_new) s
    ∧ frames (responder_ s) = Some c ∧ (try_recv c).1 = RecvDisconnected ∧ abandoned_frame ∈ seen s.
Proof.
  assert (Hrun : ∃ s : sample_stream_state, steps stream_step (stream_init sample_head responder_new) s
    ∧ ∃ c, frames (responder_ s) = Some c ∧ receiving c = true ∧ (try_recv c).1 = RecvDisconnected ∧ finished s = false).
  { eexists. split.
    - eapply steps_cons; [eapply (st_clone _ _ _ _ _ _ _ _ _ (Pin.BytesCopied "x")); reflexivity|].
      eapply steps_cons; [eapply (st_write _ _ _ [] piece []); reflexivity|].
      eapply steps_cons; [eapply st_drop_clone|].
      eapply steps_cons; [eapply st_frame; reflexivity|].
      eapply steps_cons; [eapply st_abort; reflexivity|].
      eapply steps_cons; [eapply st_abandon; reflexivity|].
      eapply steps_cons; [eapply st_frame; reflexivity|]. apply steps_refl.
    - eexists. split_and!; reflexivity. }
  destruct Hrun as (s & Hs & c & Hf & Hrx & Hend & Hfi). exists s, c. split; [exact Hs|]. split; [exact Hf|].
  split; [exact Hend|].
  destruct (stream_end_honest sample_head responder_new s unclaimed_new Hs) as (c' & Hf' & H).
  rewrite Hf in Hf'. injection Hf' as <-. destruct (H Hrx) as (_ & _ & _ & _ & H5). rewrite Hend in H5.
  destruct H5 as [_ [[Hfin _]|[_ Hin]]]; [congruence|exact Hin].
Defined.

Definition sample_world : StreamIo ListChan.t oneshot_state :=
  MkStream (responder_ (stream_init sample_head (responder_new : Responder ListChan.t oneshot_state))) false
    (Pin.with_capacity 2) [].

(** A chunk is written while nobody interferes. *)
Example write_chunk_runs_witness :
  ∃ s : sample_stream_state, steps stream_step (stream_init sample_head responder_new) s ∧ piece ∈ log s.
Proof.
  destruct (write_chunk (λ b, b) (Pin.MkRString 8 "x" false) [λ w, w] sample_world) as [res w'] eqn:Hw.
  assert (Hres : res = WriteReturned (Ok tt) ∧ ∃ c, frames (sresp w') = Some c ∧ receiving c = true).
  { vm_compute in Hw. injection Hw as <- <-. split; [reflexivity|]. eexists. split; reflexivity. }
  assert (Henv : Forall (others_writing (FrameData (Pin.body_bytes (λ b, b) (sslab sample_world)
    (Pin.MkRString 8 "x" false)).1)) [λ w : StreamIo ListChan.t oneshot_state, w]).
  { apply Forall_singleton. intros s w Hs Hin. exists s. split; [constructor|]. by split. }
  destruct (write_chunk_runs (λ b, b) sample_head responder_new (Pin.MkRString 8 "x" false) [λ w, w]
    (stream_init sample_head responder_new) sample_world res w' unclaimed_new (steps_refl _ _) (conj eq_refl eq_refl)
    Henv Hw) as (s' & Hs' & _ & [Hr _] & Hend).
  destruct Hres as [-> (c & Hf & Hrx)]. exists s'. split; [exact Hs'|].
  destruct Hend as [Hin|Hgone]; [exact Hin|]. rewrite <-Hr in Hf. specialize (Hgone _ Hf). congruence.
Defined.

(** The window before a stream: an abort that comes between the claim and the
    installation of the frame sender does nothing, and the stream opens. *)
Example abort_misses_the_stream :
  ∃ r : Responder ListChan.t oneshot_state,
    schedule [0; 1; 1; 0; 0; 0]%nat (race_init [OpStream (Some sample_head); OpAbort])
    = Some (MkRace [PDone (OpStream (Some sample_head)) true; PDone OpAbort false] r)
    ∧ body_tx r = true.
Proof. eexists. split; [vm_compute; reflexivity|done]. Qed.
