(* ===== verification/Registry.v ===== *)
(** The server registry ([registry.rs]): worker slots and their lanes, the
    server's shared state, the table of servers, and the bounded teardown of
    the I/O threads. *)

From S2P Require Import Prelude Channels Gvl Response Request.
From S2P Require Pin Histogram.

Inductive ServerState : Type := STATE_BOOTING | STATE_READY | STATE_DRAINING.

#[export] Instance ServerState_eq_dec : EqDecision ServerState.
Proof. solve_decision. Defined.

Record Topology : Type := MkTopology {
  mode : string;
  workers : Z;
  max_workers : Z;
  t_threads : Z;
  batch : Z;
}.

(** ** The responders' heap

    [Arc<Responder>] with its strong count. A [Weak] is the name of the
    cell; it upgrades while the count is positive. *)

Notation heap chan oneshot := (gmap nat (nat * Responder chan oneshot)).

Section heap.
Context {chan oneshot : Type → Type}.
Implicit Types (h : heap chan oneshot).

Definition upgrade (id : nat) (h : heap chan oneshot) : option (Responder chan oneshot) :=
  match h !! id with
  | Some (S _, r) => Some r
  | _ => None
  end.

Definition store (id : nat) (r : Responder chan oneshot) (h : heap chan oneshot)
  : heap chan oneshot :=
  alter (λ '(n, _), (n, r)) id h.

Definition arc_drop (id : nat) (h : heap chan oneshot) : heap chan oneshot :=
  alter (λ '(n, r), (pred n, r)) id h.
End heap.

(** ** Worker slots *)

Definition LANE_DEPTH : nat := 4.

(** [lane_tx] says whether the sender is still in its mutex; [lane_rx] is the
    channel. [current] holds weak pointers. *)
Record WorkerSlot (chan : Type → Type) : Type := MkSlot {
  interrupted : bool;
  current : list nat;
  lane_tx : bool;
  lane_rx : option (chan (RequestCtx chan));
  parked : bool;
  parked_at : Z;
  served : Z;
  in_flight : Z;
  last_started_ms : Z;
  quarantined : bool;
  retired : bool;
}.
Arguments MkSlot {chan}.
Arguments interrupted {chan}.
Arguments current {chan}.
Arguments lane_tx {chan}.
Arguments lane_rx {chan}.
Arguments parked {chan}.
Arguments parked_at {chan}.
Arguments served {chan}.
Arguments in_flight {chan}.
Arguments last_started_ms {chan}.
Arguments quarantined {chan}.
Arguments retired {chan}.

Section slot.
Context {chan : Type → Type} `{!Flume chan}.
Implicit Types (s : WorkerSlot chan).

Definition slot_new (lanes : bool) : WorkerSlot chan :=
  MkSlot false [] lanes (if lanes then Some (bounded LANE_DEPTH) else None)
    false 0 0 0 0 false false.

Definition set_interrupted (b : bool) s : WorkerSlot chan :=
  MkSlot b (current s) (lane_tx s) (lane_rx s) (parked s) (parked_at s) (served s) (in_flight s)
    (last_started_ms s) (quarantined s) (retired s).

Definition set_lane (tx : bool) (rx : option (chan (RequestCtx chan))) s : WorkerSlot chan :=
  MkSlot (interrupted s) (current s) tx rx (parked s) (parked_at s) (served s) (in_flight s)
    (last_started_ms s) (quarantined s) (retired s).

Definition set_parked (b : bool) (at_ : Z) s : WorkerSlot chan :=
  MkSlot (interrupted s) (current s) (lane_tx s) (lane_rx s) b at_ (served s) (in_flight s)
    (last_started_ms s) (quarantined s) (retired s).

Definition set_quarantined (b : bool) s : WorkerSlot chan :=
  MkSlot (interrupted s) (current s) (lane_tx s) (lane_rx s) (parked s) (parked_at s) (served s)
    (in_flight s) (last_started_ms s) b (retired s).

(** The sensors and the in-flight list, which a take and an admit write. *)
Definition set_work (cur : list nat) (sv inf started : Z) s : WorkerSlot chan :=
  MkSlot (interrupted s) cur (lane_tx s) (lane_rx s) (parked s) (parked_at s) sv inf
    started (quarantined s) (retired s).

Definition retire s : WorkerSlot chan :=
  MkSlot (interrupted s) (current s) (lane_tx s) (lane_rx s) (parked s) (parked_at s) (served s)
    (in_flight s) (last_started_ms s) (quarantined s) true.

Definition reset s : WorkerSlot chan :=
  MkSlot false [] (lane_tx s) (lane_rx s) false 0 0 0 0 (quarantined s) false.

(** What is queued in a slot's lane. *)
Definition lane s : list (RequestCtx chan) :=
  match lane_rx s with Some rx => contents rx | None => [] end.

(** A lane's sender goes with its slot, and its queue is bounded. *)
Definition slot_ok s : Prop :=
  match lane_rx s with
  | Some rx => chan_ok rx ∧ capacity rx = LANE_DEPTH ∧ receiving rx = true
  | None => lane_tx s = false
  end.

(** The lane sender is either in the mutex or dropped. *)
Definition close_lane s : WorkerSlot chan :=
  if lane_tx s
  then set_lane false (match lane_rx s with Some c => Some (drop_sender c) | None => None end) s
  else s.
End slot.

(** A retired slot that is reset is as fresh as a new one, except for
    its lane, which the next worker goes on taking from with whatever is
    queued there, and for its quarantine mark, which stays. *)
Theorem retire_reset_fresh {chan : Type → Type} `{!Flume chan} (s : WorkerSlot chan) :
  reset (retire s)
  = set_quarantined (quarantined s)
      (set_lane (lane_tx s) (lane_rx s) (slot_new (bool_decide (is_Some (lane_rx s)))))
  ∧ lane (reset (retire s)) = lane s
  ∧ reset (reset s) = reset s.
Proof. done. Qed.

(** ** The server *)

Inductive RuntimeHandle : Type :=
  | RtNone
  | MultiThread
  | Shards (stop : bool) (threads : list (option Z)).

(** What boot decides for good. *)
Record Config : Type := MkConfig {
  id : nat;
  queue_timeout_ms : Z;
  request_timeout_ms : Z;
  max_body_size : Z;
  topology : Topology;
  s_https : bool;
  http2 : bool;
  unix_path : option string;
  access_log : bool;
  lanes : bool;
}.

Record Counters : Type := MkCounters {
  c_in_flight : Z;
  c_served : Z;
  c_rejected : Z;
  c_timeouts : Z;
  c_respawns : Z;
  c_quarantine_replacements : Z;
  c_active_workers : Z;
  c_scale_ups : Z;
  c_scale_downs : Z;
}.

Definition counters_new (floor : Z) : Counters := MkCounters 0 0 0 0 0 0 floor 0 0.

Definition set_in_flight (z : Z) (c : Counters) : Counters :=
  MkCounters z (c_served c) (c_rejected c) (c_timeouts c) (c_respawns c)
    (c_quarantine_replacements c) (c_active_workers c) (c_scale_ups c) (c_scale_downs c).
Definition set_served (z : Z) (c : Counters) : Counters :=
  MkCounters (c_in_flight c) z (c_rejected c) (c_timeouts c) (c_respawns c)
    (c_quarantine_replacements c) (c_active_workers c) (c_scale_ups c) (c_scale_downs c).
Definition set_rejected (z : Z) (c : Counters) : Counters :=
  MkCounters (c_in_flight c) (c_served c) z (c_timeouts c) (c_respawns c)
    (c_quarantine_replacements c) (c_active_workers c) (c_scale_ups c) (c_scale_downs c).
Definition set_timeouts (z : Z) (c : Counters) : Counters :=
  MkCounters (c_in_flight c) (c_served c) (c_rejected c) z (c_respawns c)
    (c_quarantine_replacements c) (c_active_workers c) (c_scale_ups c) (c_scale_downs c).
Definition set_respawns (z : Z) (c : Counters) : Counters :=
  MkCounters (c_in_flight c) (c_served c) (c_rejected c) (c_timeouts c) z
    (c_quarantine_replacements c) (c_active_workers c) (c_scale_ups c) (c_scale_downs c).
Definition set_quarantine_replacements (z : Z) (c : Counters) : Counters :=
  MkCounters (c_in_flight c) (c_served c) (c_rejected c) (c_timeouts c) (c_respawns c)
    z (c_active_workers c) (c_scale_ups c) (c_scale_downs c).
Definition set_active (z : Z) (c : Counters) : Counters :=
  MkCounters (c_in_flight c) (c_served c) (c_rejected c) (c_timeouts c) (c_respawns c)
    (c_quarantine_replacements c) z (c_scale_ups c) (c_scale_downs c).
Definition set_scale_ups (z : Z) (c : Counters) : Counters :=
  MkCounters (c_in_flight c) (c_served c) (c_rejected c) (c_timeouts c) (c_respawns c)
    (c_quarantine_replacements c) (c_active_workers c) z (c_scale_downs c).
Definition set_scale_downs (z : Z) (c : Counters) : Counters :=
  MkCounters (c_in_flight c) (c_served c) (c_rejected c) (c_timeouts c) (c_respawns c)
    (c_quarantine_replacements c) (c_active_workers c) (c_scale_ups c) z.

(** [req_tx] says whether the queue's sender is still in its mutex; [req] is
    the queue; [draining] is the watch channel's value. *)
Record ServerInner (chan : Type → Type) : Type := MkServer {
  config : Config;
  req_tx : bool;
  req : chan (RequestCtx chan);
  draining : bool;
  runtime : RuntimeHandle;
  slots : list (WorkerSlot chan);
  counters : Counters;
  state : ServerState;
  lane_cursor : Z;
  park_seq : Z;
  pin_slab : Pin.PinSlab;
  queue_histogram : Histogram.QueueHistogram;
}.
Arguments MkServer {chan}.
Arguments config {chan}.
Arguments req_tx {chan}.
Arguments req {chan}.
Arguments draining {chan}.
Arguments runtime {chan}.
Arguments slots {chan}.
Arguments counters {chan}.
Arguments state {chan}.
Arguments lane_cursor {chan}.
Arguments park_seq {chan}.
Arguments pin_slab {chan}.
Arguments queue_histogram {chan}.

Section server.
Context {chan : Type → Type} `{!Flume chan}.
Implicit Types (sv : ServerInner chan).

Definition set_queue (tx : bool) (q : chan (RequestCtx chan)) sv : ServerInner chan :=
  MkServer (config sv) tx q (draining sv) (runtime sv) (slots sv) (counters sv) (state sv)
    (lane_cursor sv) (park_seq sv) (pin_slab sv) (queue_histogram sv).
Definition set_draining (b : bool) (rt : RuntimeHandle) sv : ServerInner chan :=
  MkServer (config sv) (req_tx sv) (req sv) b rt (slots sv) (counters sv) (state sv)
    (lane_cursor sv) (park_seq sv) (pin_slab sv) (queue_histogram sv).
Definition set_slots (l : list (WorkerSlot chan)) sv : ServerInner chan :=
  MkServer (config sv) (req_tx sv) (req sv) (draining sv) (runtime sv) l (counters sv) (state sv)
    (lane_cursor sv) (park_seq sv) (pin_slab sv) (queue_histogram sv).
Definition set_counters (c : Counters) sv : ServerInner chan :=
  MkServer (config sv) (req_tx sv) (req sv) (draining sv) (runtime sv) (slots sv) c (state sv)
    (lane_cursor sv) (park_seq sv) (pin_slab sv) (queue_histogram sv).
Definition set_state (st : ServerState) sv : ServerInner chan :=
  MkServer (config sv) (req_tx sv) (req sv) (draining sv) (runtime sv) (slots sv) (counters sv) st
    (lane_cursor sv) (park_seq sv) (pin_slab sv) (queue_histogram sv).
Definition set_lane_cursor (z : Z) sv : ServerInner chan :=
  MkServer (config sv) (req_tx sv) (req sv) (draining sv) (runtime sv) (slots sv) (counters sv)
    (state sv) z (park_seq sv) (pin_slab sv) (queue_histogram sv).
Definition set_park_seq (z : Z) sv : ServerInner chan :=
  MkServer (config sv) (req_tx sv) (req sv) (draining sv) (runtime sv) (slots sv) (counters sv)
    (state sv) (lane_cursor sv) z (pin_slab sv) (queue_histogram sv).
Definition set_histogram (h : Histogram.QueueHistogram) sv : ServerInner chan :=
  MkServer (config sv) (req_tx sv) (req sv) (draining sv) (runtime sv) (slots sv) (counters sv)
    (state sv) (lane_cursor sv) (park_seq sv) (pin_slab sv) h.

Definition set_pins (sl : Pin.PinSlab) sv : ServerInner chan :=
  MkServer (config sv) (req_tx sv) (req sv) (draining sv) (runtime sv) (slots sv) (counters sv)
    (state sv) (lane_cursor sv) (park_seq sv) sl (queue_histogram sv).

Definition lane_depths sv : option (list Z) :=
  if negb (lanes (config sv)) then None
  else Some (omap (λ s, match lane_rx s with
                        | Some rx => Some (Z.of_nat (chan_len rx))
                        | None => None
                        end) (slots sv)).

Definition queued sv : Z :=
  Z.of_nat (chan_len (req sv)) + match lane_depths sv with Some d => Zsum d | None => 0 end.

Definition register_worker sv : Z * ServerInner chan :=
  let sv := set_slots (slots sv ++ [slot_new (lanes (config sv))]) sv in
  (Z.of_nat (length (slots sv)) - 1, sv).

Definition slot (worker_id : nat) sv : result (WorkerSlot chan) :=
  match slots sv !! worker_id with
  | Some s => Ok s
  | None => Err (ArgError ("unknown worker " +:+ pretty (N.of_nat worker_id)))
  end.

(** Every request waiting anywhere. *)
Definition waiting sv : list (RequestCtx chan) :=
  contents (req sv) ++ (slots sv ≫= lane).
End server.

(** ** The table of servers *)

Section table.
Context {chan : Type → Type}.

(** [REGISTRY] and [NEXT_SERVER_ID]. *)
Record Registry : Type := MkRegistry {
  servers : gmap nat (ServerInner chan);
  next_id : nat;
}.

Definition registry_new : Registry := MkRegistry ∅ 1.

Definition next_server_id (g : Registry) : nat * Registry :=
  (next_id g, MkRegistry (servers g) (S (next_id g))).

Definition insert (sv : ServerInner chan) (g : Registry) : Registry :=
  MkRegistry (<[id (config sv) := sv]> (servers g)) (next_id g).

Definition remove (i : nat) (g : Registry) : option (ServerInner chan) * Registry :=
  (servers g !! i, MkRegistry (delete i (servers g)) (next_id g)).

Definition get (i : nat) (g : Registry) : result (ServerInner chan) :=
  match servers g !! i with
  | Some sv => Ok sv
  | None => Err (ArgError ("unknown server " +:+ pretty (N.of_nat i)))
  end.

Definition try_get (i : nat) (g : Registry) : option (ServerInner chan) := servers g !! i.
End table.
Arguments Registry : clear implicits.

(** ** Teardown of the I/O threads *)

(** A thread is the time at which it finishes, if it ever does. *)
Definition is_finished (now : Z) (t : option Z) : bool :=
  match t with Some f => f <=? now | None => false end.

Definition poll_ns : Z := 1000000.

(** The polling loop, each turn sleeping a millisecond: [fuel] turns. *)
Fixpoint await_thread (fuel : nat) (deadline now : Z) (t : option Z) : Z :=
  match fuel with
  | O => now
  | S fuel =>
      if negb (is_finished now t) && (now <? deadline)
      then await_thread fuel deadline (now + poll_ns) t
      else now
  end.

Definition poll_fuel (deadline now : Z) : nat := Z.to_nat ((deadline - now) / poll_ns + 1).

(** Whether each thread was joined, and the time when the loop is over. *)
Fixpoint join_threads (deadline now : Z) (ts : list (option Z)) : list bool * Z :=
  match ts with
  | [] => ([], now)
  | t :: ts =>
      let now := await_thread (poll_fuel deadline now) deadline now t in
      let '(joined, fin) := join_threads deadline now ts in
      (is_finished now t :: joined, fin)
  end.

(** [shutdown_timeout] is tokio's: when it returns, called at [now]. *)
Definition shutdown (shutdown_timeout : Z → Z → Z) (now timeout : Z) (rt : RuntimeHandle)
  : list bool * Z :=
  match rt with
  | RtNone => ([], now)
  | MultiThread => ([], shutdown_timeout now timeout)
  | Shards _ threads => join_threads (now + timeout) now threads
  end.

(** Enough turns: the loop only ends because the thread is done, or because
    the deadline has passed. *)
Lemma await_thread_done fuel deadline now t :
  (deadline - now) / poll_ns < Z.of_nat fuel →
  let fin := await_thread fuel deadline now t in
  (is_finished fin t = true ∨ deadline ≤ fin)
  ∧ now ≤ fin ∧ (fin ≤ now ∨ fin < deadline + poll_ns).
Proof.
  revert now. induction fuel as [|fuel IH]; intros now Hf; cbn -[Z.div Z.of_nat poll_ns].
  - split; [|lia]. right. destruct (Z.le_gt_cases deadline now); [done|].
    pose proof (Z.div_pos (deadline - now) poll_ns ltac:(lia) ltac:(done)). lia.
  - destruct (is_finished now t) eqn:Hd; [cbn; split; [by left|lia]|].
    destruct (Z.ltb_spec now deadline) as [Hl|Hl]; cbn -[Z.div Z.of_nat poll_ns]; [|split; [by right|lia]].
    destruct (IH (now + poll_ns)) as (H1 & H2 & H3).
    { replace (deadline - (now + poll_ns)) with (deadline - now + -1 * poll_ns) by lia.
      rewrite Z.div_add by done. lia. }
    split; [done|]. unfold poll_ns in *. lia.
Qed.

Lemma join_threads_done deadline now ts :
  let '(joined, fin) := join_threads deadline now ts in
  now ≤ fin ∧ (fin ≤ now ∨ fin < deadline + poll_ns)
  ∧ (∀ i t, ts !! i = Some t → (∃ f, t = Some f ∧ f ≤ now) → joined !! i = Some true)
  ∧ (∀ i t, ts !! i = Some t → joined !! i = Some false → deadline ≤ fin).
Proof.
  revert now. induction ts as [|t ts IH]; intros now; cbn -[await_thread]; [split_and!; try lia; done|].
  pose proof (await_thread_done (poll_fuel deadline now) deadline now t) as (H1 & H2 & H3).
  { unfold poll_fuel. lia. }
  set (mid := await_thread _ _ _ _) in *. specialize (IH mid).
  destruct (join_threads deadline mid ts) as [joined fin]. destruct IH as (I1 & I2 & I3 & I4).
  split_and!; [lia| lia |..].
  - intros [|i] t' Ht' (f & -> & Hf); simplify_eq/=; [f_equal; apply Z.leb_le; lia|].
    eapply I3; [done|]. exists f. split; [done|lia].
  - intros [|i] t' Ht' Hj; simplify_eq/=; [|by eapply I4].
    destruct H1 as [H1|H1]; [congruence|lia].
Qed.

(** Stopping a sharded server returns within a poll interval of its
    deadline however wedged its threads are; a thread already finished is
    joined, and one is abandoned only once the deadline has passed. *)
Theorem shutdown_bounded tokio now timeout stop ts :
  0 ≤ timeout →
  let '(joined, fin) := shutdown tokio now timeout (Shards stop ts) in
  now ≤ fin < now + timeout + poll_ns
  ∧ (∀ i f, ts !! i = Some (Some f) → f ≤ now → joined !! i = Some true)
  ∧ (∀ i t, ts !! i = Some t → joined !! i = Some false → now + timeout ≤ fin).
Proof.
  intros Ht. cbn -[join_threads]. pose proof (join_threads_done (now + timeout) now ts) as H.
  destruct (join_threads _ _ ts) as [joined fin]. destruct H as (H1 & H2 & H3 & H4).
  split_and!; [lia|unfold poll_ns in *; lia| |done].
  intros i f Hi Hf. eapply H3; [done|]. eauto.
Qed.

(** A finished thread and a wedged one, with a 50 ms deadline. *)
Example shutdown_bounded_witness :
  (shutdown Z.add 0 50000000 (Shards true [Some 0; None])).1 = [true; false]
  ∧ (shutdown Z.add 0 50000000 (Shards true [Some 0; None])).2 < 51000000.
Proof.
  split; [by vm_compute|].
  pose proof (shutdown_bounded Z.add 0 50000000 true [Some 0; None] ltac:(done)) as H.
  destruct (shutdown Z.add 0 50000000 (Shards true [Some 0; None])) as [joined fin]. apply H.
Defined.
