(* ===== verification/Dispatch.v ===== *)
(** Lane dispatch ([try_dispatch] and [dispatch_to_lane] of [server.rs]):
    which worker's lane a request goes to. *)

From S2P Require Import Prelude Channels Gvl Response Request Registry.

Inductive Dispatch (chan : Type → Type) : Type :=
  | Sent
  | Full (ctx : RequestCtx chan)
  | Closed (ctx : RequestCtx chan).
Arguments Sent {chan}.
Arguments Full {chan} ctx.
Arguments Closed {chan} ctx.

Section dispatch.
Context {chan : Type → Type} `{!Flume chan}.
Implicit Types (s : WorkerSlot chan) (sv : ServerInner chan) (ctx : RequestCtx chan).

(** The [try_lane] closure: the context when it did not go in, the slot, and
    whether the lane was open. *)
Definition try_lane s ctx : option (RequestCtx chan) * WorkerSlot chan * bool :=
  match lane_rx s with
  | Some rx =>
      if lane_tx s then
        if retired s then (Some ctx, s, true)
        else
          match try_send ctx rx with
          | (SendOk, rx) => (None, set_lane true (Some rx) s, true)
          | (SendFull c, _) | (SendDisconnected c, _) => (Some c, s, true)
          end
      else (Some ctx, s, false)
  | None => (Some ctx, s, false)
  end.

(** One sweep over the slots whose indices are listed, passing over those
    that [skip] selects. *)
Fixpoint sweep (skip : WorkerSlot chan → bool) (order : list nat) (l : list (WorkerSlot chan))
    (ctx : RequestCtx chan) (any_open : bool)
  : option (RequestCtx chan) * list (WorkerSlot chan) * bool :=
  match order with
  | [] => (Some ctx, l, any_open)
  | i :: order =>
      match l !! i with
      | None => sweep skip order l ctx any_open
      | Some s =>
          if skip s then sweep skip order l ctx any_open
          else
            match try_lane s ctx with
            | (None, s, open) => (None, <[i:=s]> l, any_open || open)
            | (Some ctx, s, open) => sweep skip order (<[i:=s]> l) ctx (any_open || open)
            end
      end
  end.

(** The idle worker that parked last, among those whose lane is empty. *)
Definition parked_empty (p : nat * WorkerSlot chan) : bool :=
  parked p.2 && match lane_rx p.2 with Some rx => chan_is_empty rx | None => false end.

Definition hottest (l : list (WorkerSlot chan)) : option (nat * WorkerSlot chan) :=
  max_by_key (λ p, parked_at p.2) (List.filter parked_empty (imap pair l)).

Definition try_dispatch sv ctx : Dispatch chan * ServerInner chan :=
  let n := length (slots sv) in
  if (n =? 0)%nat then (Full ctx, sv)
  else
    let start := lane_cursor sv in
    let sv := set_lane_cursor (start +w 1) sv in
    let order := rotation start n in
    match sweep parked order (slots sv) ctx false with
    | (None, l, _) => (Sent, set_slots l sv)
    | (Some ctx, l, any_open) =>
        let hot := match hottest l with Some (i, _) => [i] | None => [] end in
        match sweep (λ _, false) (hot ++ order) l ctx any_open with
        | (None, l, _) => (Sent, set_slots l sv)
        | (Some ctx, l, any_open) =>
            (if any_open then Full ctx else Closed ctx, set_slots l sv)
        end
    end.

(** The retry loop. Each turn sees the server as the other threads left it,
    at a clock that [env] gives; a loop that outlives [env] is still going. *)
Fixpoint dispatch_loop (deadline : Z) (env : list ((ServerInner chan → ServerInner chan) * Z))
    sv ctx : option bool * ServerInner chan :=
  match env with
  | [] => (None, sv)
  | (others, now) :: env =>
      match try_dispatch (others sv) ctx with
      | (Sent, sv) => (Some true, sv)
      | (Closed _, sv) => (Some false, sv)
      | (Full ctx, sv) =>
          if deadline <=? now then (Some false, sv) else dispatch_loop deadline env sv ctx
      end
  end.

Definition dispatch_to_lane (now0 : Z) (env : list ((ServerInner chan → ServerInner chan) * Z))
    sv ctx : option bool * ServerInner chan :=
  dispatch_loop (now0 + queue_timeout_ms (config sv) * 1000000) env sv ctx.

(** ** What a dispatch promises *)

(** A lane that would take a request. *)
Definition available s : Prop :=
  lane_tx s = true ∧ retired s = false
  ∧ ∃ rx, lane_rx s = Some rx ∧ (length (contents rx) < capacity rx)%nat.

(** [s'] is [s] with [ctx] at the end of its lane. *)
Definition enqueued s ctx s' : Prop :=
  ∃ rx rx', lane_rx s = Some rx ∧ chan_after rx rx' (contents rx ++ [ctx])
    ∧ s' = set_lane true (Some rx') s.
End dispatch.

Section dispatch_proofs.
Context {chan : Type → Type} `{!Flume chan, !FlumeSpec chan}.
Implicit Types (s : WorkerSlot chan) (sv : ServerInner chan) (ctx : RequestCtx chan).

Lemma try_lane_spec s ctx :
  slot_ok s →
  (available s ∧ ∃ s', try_lane s ctx = (None, s', true) ∧ enqueued s ctx s')
  ∨ (¬ available s ∧ try_lane s ctx = (Some ctx, s, lane_tx s)).
Proof.
  unfold slot_ok, try_lane, available, enqueued. intros Hok.
  destruct (lane_rx s) as [rx|] eqn:Hrx; [|right; rewrite Hok; split; [naive_solver|done]].
  destruct Hok as ([Hcap Hlen] & HD & Hr). destruct (lane_tx s); [|right; split; [naive_solver|done]].
  destruct (retired s); [right; split; [naive_solver|done]|].
  destruct (try_send ctx rx) as [r rx'] eqn:Hs.
  destruct (try_send_cases _ _ _ _ Hcap Hs) as [(-> & _ & Hl & Ha)|[(-> & -> & _ & Hl)|(_ & _ & Hd)]].
  - left. split; [eauto|]. eexists. split; [done|]. eauto.
  - right. split; [|done]. intros (_ & _ & rx' & [= <-] & ?). lia.
  - congruence.
Qed.

Definition open_among (skip : WorkerSlot chan → bool) (order : list nat)
    (l : list (WorkerSlot chan)) : Prop :=
  ∃ j t, j ∈ order ∧ l !! j = Some t ∧ skip t = false ∧ lane_tx t = true.

Definition passed_over (skip : WorkerSlot chan → bool) (order : list nat)
    (l : list (WorkerSlot chan)) : Prop :=
  ∀ j t, j ∈ order → l !! j = Some t → skip t = true ∨ ¬ available t.

(** The request goes to slot [i], the first of [order] that takes it. *)
Definition sent_to (skip : WorkerSlot chan → bool) (order : list nat) (l : list (WorkerSlot chan)) ctx
    (l' : list (WorkerSlot chan)) : Prop :=
  ∃ i s s' before after, l' = <[i:=s']> l ∧ order = before ++ i :: after ∧ l !! i = Some s
    ∧ skip s = false ∧ available s ∧ enqueued s ctx s' ∧ passed_over skip before l.

Lemma open_among_nil skip l : ¬ open_among skip [] l.
Proof. intros (j & t & Hj & _). by apply elem_of_nil in Hj. Qed.

Lemma open_among_cons skip i order l :
  open_among skip (i :: order) l
  ↔ (∃ t, l !! i = Some t ∧ skip t = false ∧ lane_tx t = true) ∨ open_among skip order l.
Proof.
  unfold open_among. split.
  - intros (j & t & [->|Hj]%elem_of_cons & Ht); eauto.
  - intros [(t & Ht)|(j & t & Hj & Ht)]; [exists i, t|exists j, t]; rewrite elem_of_cons; eauto.
Qed.

Lemma passed_over_cons skip i order l :
  (∀ t, l !! i = Some t → skip t = true ∨ ¬ available t) → passed_over skip order l →
  passed_over skip (i :: order) l.
Proof. intros Hi Ho j t [->|Hj]%elem_of_cons; eauto. Qed.

Lemma sent_to_cons skip i order l ctx l' :
  (∀ t, l !! i = Some t → skip t = true ∨ ¬ available t) →
  sent_to skip order l ctx l' → sent_to skip (i :: order) l ctx l'.
Proof.
  intros Hi (k & s & s' & o1 & o2 & -> & -> & H). exists k, s, s', (i :: o1), o2.
  destruct H as (? & ? & ? & ? & ?). split_and!; try done. by apply passed_over_cons.
Qed.

(** A sweep sends at the first available slot of its order, or nowhere. *)
Lemma sweep_spec skip order l ctx any_open :
  Forall slot_ok l →
  (∃ l', sweep skip order l ctx any_open = (None, l', true) ∧ sent_to skip order l ctx l')
  ∨ (∃ open, sweep skip order l ctx any_open = (Some ctx, l, open)
     ∧ (open = true ↔ any_open = true ∨ open_among skip order l) ∧ passed_over skip order l).
Proof.
  intros Hok. revert any_open. induction order as [|i order IH]; intros any_open; cbn.
  { right. exists any_open. split; [done|]. pose proof (open_among_nil skip l). split; [tauto|].
    intros j t Hj. by apply elem_of_nil in Hj. }
  assert (Hpass : ∀ o, (∀ t, l !! i = Some t → skip t = true ∨ ¬ available t) →
    (any_open || o = true ↔ any_open = true ∨ ∃ t, l !! i = Some t ∧ skip t = false ∧ lane_tx t = true) →
    (∃ l', sweep skip order l ctx (any_open || o) = (None, l', true)
       ∧ sent_to skip (i :: order) l ctx l')
    ∨ (∃ open, sweep skip order l ctx (any_open || o) = (Some ctx, l, open)
       ∧ (open = true ↔ any_open = true ∨ open_among skip (i :: order) l)
       ∧ passed_over skip (i :: order) l)).
  { intros o Hi Ho. destruct (IH (any_open || o)) as [(l' & H1 & H2)|(open & H1 & H2 & H3)].
    - left. exists l'. split; [done|]. by apply sent_to_cons.
    - right. exists open. split; [done|]. split; [|by apply passed_over_cons].
      rewrite H2, open_among_cons. tauto. }
  destruct (l !! i) as [s|] eqn:Hi.
  2: { specialize (Hpass false). rewrite orb_false_r in Hpass. apply Hpass; [done|]. naive_solver. }
  destruct (skip s) eqn:Hskip.
  { specialize (Hpass false). rewrite orb_false_r in Hpass.
    apply Hpass; [intros t [= <-]; by left|]. split; [by left|]. intros [?|(t & ? & ? & _)]; [done|congruence]. }
  assert (Hs : slot_ok s) by (rewrite Forall_lookup in Hok; eauto).
  destruct (try_lane_spec s ctx Hs) as [(Hav & s' & -> & He)|(Hav & ->)].
  - left. exists (<[i:=s']> l). rewrite orb_true_r. split; [done|].
    exists i, s, s', [], order. split_and!; [done..|]. intros j t Hj. by apply elem_of_nil in Hj.
  - rewrite list_insert_id by done. apply Hpass; [intros t [= <-]; by right|].
    rewrite orb_true_iff. split; [intros [?|?]; [by left|right; eauto]|].
    intros [?|(t & [= <-] & _ & ?)]; auto.
Qed.

Lemma hottest_spec (l : list (WorkerSlot chan)) h t :
  hottest l = Some (h, t) →
  l !! h = Some t ∧ parked_empty (h, t) = true
  ∧ ∀ j u, l !! j = Some u → parked_empty (j, u) = true → parked_at u ≤ parked_at t.
Proof.
  intros Hh. apply max_by_key_split in Hh as (l1 & l2 & Heq & H1 & H2).
  assert (Hin : (h, t) ∈ List.filter parked_empty (imap pair l))
    by (rewrite Heq; apply elem_of_app; right; by left).
  apply list_elem_of_In, List.filter_In in Hin as [Hin Hpe].
  apply list_elem_of_In, elem_of_lookup_imap in Hin as (j & u & [= -> ->] & Hl).
  split_and!; [done|done|]. intros k v Hk Hu.
  assert (Hin : (k, v) ∈ List.filter parked_empty (imap pair l)).
  { apply list_elem_of_In, List.filter_In. split; [|done].
    apply list_elem_of_In, elem_of_lookup_imap. eauto. }
  rewrite Heq in Hin. rewrite Forall_forall in H1, H2.
  apply elem_of_app in Hin as [Hin|[Hin|Hin]%elem_of_cons].
  - by apply (H1 _ Hin).
  - injection Hin as -> ->. done.
  - specialize (H2 _ Hin). cbn in H2. lia.
Qed.

(** The round-robin cursor is a [usize] that does not wrap in this sweep. *)
Definition cursor_ok sv : Prop :=
  0 ≤ lane_cursor sv ∧ lane_cursor sv + Z.of_nat (length (slots sv)) ≤ u64_modulus.

Definition all_unavailable sv : Prop := ∀ j t, slots sv !! j = Some t → ¬ available t.

(** C31: One dispatch attempt. If the request is sent, it is appended to
    the lane of exactly one worker, one whose lane is open with room and which
    is not retired, and no other slot changes; a parked worker is woken only
    when no awake worker could take it, and then it is the one that parked
    last with an empty lane, whenever that one can take it. [Full] hands the
    request back only when no lane at all can take it, and [Closed] is
    answered exactly when every lane is closed. *)
Theorem try_dispatch_spec sv ctx :
  Forall slot_ok (slots sv) → cursor_ok sv →
  let '(d, sv') := try_dispatch sv ctx in
  match d with
  | Sent =>
      ∃ i s s', slots sv !! i = Some s ∧ available s ∧ enqueued s ctx s'
        ∧ slots sv' = <[i:=s']> (slots sv)
        ∧ (parked s = true →
             (∀ j t, slots sv !! j = Some t → parked t = false → ¬ available t)
             ∧ ∀ h t, hottest (slots sv) = Some (h, t) → available t → i = h)
  | Full c =>
      c = ctx ∧ slots sv' = slots sv ∧ all_unavailable sv
      ∧ (slots sv = [] ∨ ∃ j t, slots sv !! j = Some t ∧ lane_tx t = true)
  | Closed c =>
      c = ctx ∧ slots sv' = slots sv ∧ slots sv ≠ []
      ∧ ∀ j t, slots sv !! j = Some t → lane_tx t = false
  end.
Proof.
  intros Hok [Hc Hw]. unfold try_dispatch. destruct (slots sv) as [|s0 l0] eqn:Hsl.
  { cbn. unfold all_unavailable. rewrite Hsl. split_and!; [done..|by left]. }
  set (l := s0 :: l0) in *. assert (Hn : l ≠ []) by done. clearbody l. clear s0 l0.
  assert ((length l =? 0)%nat = false) as -> by (destruct l; done). cbn -[rotation].
  set (order := rotation _ _).
  assert (Hall : ∀ j t, l !! j = Some t → j ∈ order).
  { intros j t Hj. apply elem_of_rotation; [lia|lia|by eapply lookup_lt_Some]. }
  rewrite ?Hsl.
  destruct (sweep_spec parked order l ctx false Hok) as [(l' & -> & Hsent)|(open & -> & Hopen & Hpass)].
  { destruct Hsent as (i & s & s' & o1 & o2 & -> & Ho & Hi & Hp & Hav & He & _).
    exists i, s, s'. split_and!; [done..|congruence]. }
  match goal with |- context [sweep _ (?hot ++ order)] => set (hots := hot) end.
  destruct (sweep_spec (λ _, false) (hots ++ order) l ctx open Hok)
    as [(l' & -> & Hsent)|(open' & -> & Hopen' & Hpass')].
  - destruct Hsent as (i & s & s' & o1 & o2 & -> & Ho & Hi & _ & Hav & He & Hpo).
    exists i, s, s'. split_and!; [done..|]. intros _. split.
    + intros j t Hj Hp Ha. destruct (Hpass j t (Hall _ _ Hj) Hj); [congruence|done].
    + intros h t Hh Ha. subst hots. rewrite Hh in Ho. destruct o1 as [|x o1]; simplify_eq/=; [done|].
      apply hottest_spec in Hh as (Hl & _). destruct (Hpo x t) as [?|?]; [by left|done..].
  - assert (Hun : all_unavailable sv).
    { intros j t. rewrite Hsl. intros Hj. destruct (Hpass' j t) as [?|?]; [|done..].
      apply elem_of_app. right. by eapply Hall. }
    destruct open' eqn:Hop; cbn; split_and!; try done.
    + right. destruct Hopen' as [Hopen' _]. destruct (Hopen' eq_refl) as [Ho|(j & t & _ & Hj & _ & Ht)].
      * apply Hopen in Ho as [?|(j & t & _ & Hj & _ & Ht)]; [done|eauto].
      * eauto.
    + intros j t Hj. destruct (lane_tx t) eqn:Ht; [|done].
      destruct Hopen' as [_ Hopen']. discriminate Hopen'. right. exists j, t.
      split_and!; [|done..]. apply elem_of_app. right. by eapply Hall.
Qed.

(** A failed attempt hands the request back and leaves the lanes alone. *)
Lemma try_dispatch_failed sv ctx d sv' :
  Forall slot_ok (slots sv) → try_dispatch sv ctx = (d, sv') → d ≠ Sent →
  slots sv' = slots sv ∧ (d = Full ctx ∨ d = Closed ctx).
Proof.
  intros Hok Hd Hne. unfold try_dispatch in Hd. destruct (_ =? _)%nat; [simplify_eq; auto|].
  cbn -[rotation] in Hd.
  destruct (sweep_spec parked (rotation (lane_cursor sv) (length (slots sv))) (slots sv) ctx false Hok)
    as [(l' & Hs & _)|(open & Hs & _)]; rewrite Hs in Hd; [by simplify_eq|].
  match goal with H : context [sweep _ (?hot ++ ?o) ?l ?c ?b] |- _ =>
    destruct (sweep_spec (λ _, false) (hot ++ o) l c b Hok) as [(l' & Hs' & _)|(open' & Hs' & _)] end;
    rewrite Hs' in Hd; [by simplify_eq|].
  simplify_eq/=. split; [done|]. destruct open'; auto.
Qed.

Definition retry_ns : Z := 500000.

(** The turns' clocks: a turn that finds every lane full sleeps 500
    microseconds before the next. *)
Fixpoint clocked (now : Z) (env : list ((ServerInner chan → ServerInner chan) * Z)) : Prop :=
  match env with
  | [] => True
  | (_, t) :: env => now ≤ t ∧ clocked (t + retry_ns) env
  end.

(** The other threads keep the lanes well formed. *)
Definition keeps_slots (f : ServerInner chan → ServerInner chan) : Prop :=
  ∀ sv, Forall slot_ok (slots sv) → Forall slot_ok (slots (f sv)).

Lemma dispatch_loop_ends deadline now env sv ctx :
  clocked now env → Forall (λ e, keeps_slots e.1) env → Forall slot_ok (slots sv) →
  Z.max 0 ((deadline - now) / retry_ns + 1) < Z.of_nat (length env) →
  ∃ b sv' seen t,
    dispatch_loop deadline env sv ctx = (Some b, sv')
    ∧ match b with
      | true => try_dispatch seen ctx = (Sent, sv')
      | false => try_dispatch seen ctx = (Closed ctx, sv')
                 ∨ (try_dispatch seen ctx = (Full ctx, sv') ∧ deadline ≤ t)
      end.
Proof.
  revert now sv. induction env as [|[f t] env IH]; intros now sv Hcl Hk Hok Hlen; cbn in Hlen; [lia|].
  destruct Hcl as [Hnow Hcl]. apply Forall_cons in Hk as [Hf Hk]. cbn in Hf. cbn.
  destruct (try_dispatch (f sv) ctx) as [d sv'] eqn:Hd.
  assert (d = Sent ∨ d ≠ Sent) as [->|Hne] by (destruct d; [by left|by right..]);
    [exists true, sv', (f sv), t; done|].
  destruct (try_dispatch_failed _ _ _ _ (Hf _ Hok) Hd Hne) as [Hs [->| ->]].
  2: { exists false, sv', (f sv), t. auto. }
  destruct (Z.leb_spec deadline t); [exists false, sv', (f sv), t; auto|].
  apply (IH (t + retry_ns)); [done|done|rewrite Hs; by apply Hf|].
  assert ((deadline - (t + retry_ns)) / retry_ns ≤ (deadline - now) / retry_ns - 1) as Hdiv.
  { replace (deadline - (t + retry_ns)) with (deadline - t + -1 * retry_ns) by lia.
    rewrite Z.div_add by done.
    pose proof (Z.div_le_mono (deadline - t) (deadline - now) retry_ns ltac:(done) ltac:(lia)). lia. }
  pose proof (Z.div_pos (deadline - t) retry_ns ltac:(lia) ltac:(done)).
  pose proof (Z.div_le_mono (deadline - t) (deadline - now) retry_ns ltac:(done) ltac:(lia)).
  unfold retry_ns in *. lia.
Qed.

End dispatch_proofs.

(** ** Examples on concrete channels *)

Definition sample_config (lanes : bool) : Config :=
  MkConfig 1 10 0 0 (MkTopology "threaded" 2 2 1 1) false true None false lanes.

Definition sample_server (lanes : bool) (l : list (WorkerSlot ListChan.t)) : ServerInner ListChan.t :=
  MkServer (sample_config lanes) true (bounded 4) false RtNone l (counters_new 2) STATE_READY 0 0
    (Pin.with_capacity 2) Histogram.histogram_new.

(** Two idle workers; the second parked last. *)
Definition two_parked : ServerInner ListChan.t :=
  sample_server true [set_parked true 1 (slot_new true); set_parked true 2 (slot_new true)].

Lemma slot_ok_new : slot_ok (slot_new (chan:=ListChan.t) true).
Proof. split; [|done]. split; vm_compute; lia. Qed.

Example try_dispatch_spec_witness :
  (length ∘ lane) <$> slots (try_dispatch two_parked bare_ctx).2 = [0; 1]%nat
  ∧ ∃ i s s', slots two_parked !! i = Some s ∧ enqueued s bare_ctx s'
      ∧ slots (try_dispatch two_parked bare_ctx).2 = <[i:=s']> (slots two_parked).
Proof.
  split; [by vm_compute|].
  assert (Hok : Forall slot_ok (slots two_parked))
    by (repeat (apply Forall_cons; split; [exact slot_ok_new|]); by apply Forall_nil).
  assert (Hc : cursor_ok two_parked) by (vm_compute; done).
  pose proof (try_dispatch_spec two_parked bare_ctx Hok Hc) as H.
  assert (Hs : (try_dispatch two_parked bare_ctx).1 = Sent) by (vm_compute; reflexivity).
  destruct (try_dispatch two_parked bare_ctx) as [d sv']. cbn in Hs. subst d.
  destruct H as (i & s & s' & H1 & _ & H2 & H3 & _). exists i, s, s'. split_and!; [exact H1|exact H2|exact H3].
Defined.

(** No worker at all: the loop gives up at its deadline. *)
Definition thirty_turns : list ((ServerInner ListChan.t → ServerInner ListChan.t) * Z) :=
  List.map (λ k : Z, ((λ sv, sv), k * 500000)) (seqZ 0 30).

