(* ===== verification/Queue.v ===== *)
(** The worker's side of the queue ([queue.rs]): blocking takes, stealing and
    parking, the admission of a taken request, batches, and the fused
    respond-and-take calls. *)

From S2P Require Import Prelude Channels Gvl Response Request Registry.
From S2P Require Pin Histogram Reply.

Section take.
Context {chan oneshot : Type → Type} `{!Flume chan, !Oneshot oneshot}.
Implicit Types (s : WorkerSlot chan) (sv : ServerInner chan) (ctx : RequestCtx chan).

(** [None] is shutdown (or, for a retired slot, the end of its work). *)
Definition Taken : Type := option (RequestCtx chan).

(** Receive from a slot's lane. *)
Definition recv_lane s : Taken * WorkerSlot chan :=
  match lane_rx s with
  | None => (None, s)
  | Some rx =>
      match try_recv rx with
      | (RecvOk ctx, rx) => (Some ctx, set_lane (lane_tx s) (Some rx) s)
      | _ => (None, s)
      end
  end.

Definition after_timeout s : option Taken * WorkerSlot chan :=
  if negb (retired s) then (None, s)
  else let '(ctx, s) := recv_lane s in (Some ctx, s).

Definition put_slot (i : nat) (s : WorkerSlot chan) sv : ServerInner chan :=
  set_slots (<[i:=s]> (slots sv)) sv.

(** The interrupt flag of worker [w]'s slot. *)
Definition flag_of (w : nat) sv : bool :=
  match slots sv !! w with Some s => interrupted s | None => false end.

(** [after_timeout] on worker [w]'s slot. *)
Definition timeout_at (w : nat) sv : option Taken * ServerInner chan :=
  match slots sv !! w with
  | None => (None, sv)
  | Some s => let '(r, s) := after_timeout s in (r, put_slot w s sv)
  end.

(** One tick on the shared queue. *)
Definition queue_tick (w : nat) sv : option Taken * ServerInner chan :=
  match recv_timeout (req sv) with
  | (RtOk ctx, q) => (Some (Some ctx), set_queue (req_tx sv) q sv)
  | (RtTimeout, _) => timeout_at w sv
  | (RtDisconnected, _) => (Some None, sv)
  end.

(** The sweep over the siblings' lanes. *)
Fixpoint steal_from (w : nat) (order : list nat) (l : list (WorkerSlot chan))
  : Taken * list (WorkerSlot chan) :=
  match order with
  | [] => (None, l)
  | i :: order =>
      if (i =? w)%nat then steal_from w order l
      else
        match l !! i with
        | None => steal_from w order l
        | Some s =>
            match recv_lane s with
            | (Some ctx, s) => (Some ctx, <[i:=s]> l)
            | (None, _) => steal_from w order l
            end
        end
  end.

Definition steal (w : nat) sv : Taken * ServerInner chan :=
  let '(ctx, l) := steal_from w (seq 0 (length (slots sv))) (slots sv) in (ctx, set_slots l sv).

(** One tick on the own lane, with the periodic steal. *)
Definition lane_tick (w : nat) sv : option Taken * ServerInner chan :=
  match slots sv !! w with
  | None => (Some None, sv)
  | Some s =>
      match lane_rx s with
      | None => (Some None, sv)
      | Some rx =>
          match recv_timeout rx with
          | (RtOk ctx, rx) =>
              (Some (Some ctx), put_slot w (set_lane (lane_tx s) (Some rx) s) sv)
          | (RtTimeout, _) =>
              match timeout_at w sv with
              | (Some taken, sv) => (Some taken, sv)
              | (None, sv) =>
                  match steal w sv with
                  | (Some ctx, sv) => (Some (Some ctx), sv)
                  | (None, sv) => (None, sv)
                  end
              end
          | (RtDisconnected, _) => (Some None, sv)
          end
      end
  end.

(** A take either is blocked when [env] runs out, or came to an end. *)
Inductive take_outcome : Type :=
  | TakeBlocked
  | TakeEnded (taken : Taken).

Definition waited_taken (r : waited Taken) : take_outcome :=
  match r with
  | Waiting => TakeBlocked
  | Interrupted => TakeEnded None
  | Finished taken => TakeEnded taken
  end.

(** Raise the parked flag, stamped by the park counter. *)
Definition park (w : nat) sv : ServerInner chan :=
  let seq := park_seq sv +w 1 in
  set_slots (alter (set_parked true seq) w (slots sv)) (set_park_seq seq sv).

Definition unpark (w : nat) sv : ServerInner chan :=
  set_slots (alter (λ s, set_parked false (parked_at s) s) w (slots sv)) sv.

Definition lane_take (w : nat) (rx : chan (RequestCtx chan)) s
    (env : list (ServerInner chan → ServerInner chan)) sv : take_outcome * ServerInner chan :=
  match try_recv rx with
  | (RecvOk ctx, rx) =>
      (TakeEnded (Some ctx), put_slot w (set_lane (lane_tx s) (Some rx) s) sv)
  | (RecvDisconnected, _) => (TakeEnded None, sv)
  | (RecvEmpty, _) =>
      match steal w sv with
      | (Some ctx, sv) => (TakeEnded (Some ctx), sv)
      | (None, sv) =>
          match interruptible (flag_of w) (lane_tick w) env (park w sv) with
          | (Waiting, sv) => (TakeBlocked, sv)
          | (r, sv) => (waited_taken r, unpark w sv)
          end
      end
  end.

Definition block_take (w : nat) (env : list (ServerInner chan → ServerInner chan)) sv
  : take_outcome * ServerInner chan :=
  match slots sv !! w with
  | None => (TakeEnded None, sv)
  | Some s =>
      match lane_rx s with
      | Some rx => lane_take w rx s env sv
      | None =>
          match try_recv (req sv) with
          | (RecvOk ctx, q) => (TakeEnded (Some ctx), set_queue (req_tx sv) q sv)
          | (RecvDisconnected, _) => (TakeEnded None, sv)
          | (RecvEmpty, _) =>
              let '(r, sv) := interruptible (flag_of w) (queue_tick w) env sv in
              (waited_taken r, sv)
          end
      end
  end.

(** [Worker::checkout]: [alive] says whether the weak server upgrades. *)
Definition checkout (alive : bool) (w : nat) (env : list (ServerInner chan → ServerInner chan)) sv
  : take_outcome * ServerInner chan :=
  if negb alive then (TakeEnded None, sv)
  else
    block_take w env
      (set_slots
         (alter (λ s, set_interrupted false (set_work [] (served s) 0 (last_started_ms s) s)) w
            (slots sv)) sv).

(** ** Admission *)

(** [RequestCtx]'s [Drop]: the backstop, then the responder's [Arc]. *)
Definition drop_ctx ctx (h : heap chan oneshot) : blocking * heap chan oneshot :=
  match h !! responder ctx with
  | Some (_, r) =>
      let '(b, r) := respond_500_if_unsent r in (b, arc_drop (responder ctx) (store (responder ctx) r h))
  | None => (Returned, h)
  end.

(** The Rack env is built by [build_env], which can raise. *)
Context {env_t : Type} (build_env : RequestCtx chan → result env_t).

Definition admit_slot (w : nat) (mono_ms : Z) ctx s : WorkerSlot chan :=
  set_work (current s ++ [responder ctx]) (served s +w 1) (in_flight s +w 1) mono_ms s.

(** [now] is the instant, [mono_ms] the millisecond clock of [mono.rs]. *)
Definition admit_request (w : nat) (now mono_ms : Z) ctx sv (h : heap chan oneshot)
  : result (env_t * RequestCtx chan) * (ServerInner chan * heap chan oneshot) :=
  let waited := sat_sub now (enqueued_at ctx) in
  let sv := set_counters (set_served (c_served (counters sv) +w 1) (counters sv)) sv in
  let sv := set_histogram (Histogram.record (queue_histogram sv) (wrap64 (waited / 1000))) sv in
  let sv := set_slots (alter (admit_slot w mono_ms ctx) w (slots sv)) sv in
  let ctx := set_admitted w waited now ctx in
  match build_env ctx with
  | Ok env => (Ok (env, ctx), (sv, h))
  | Err e => (Err e, (sv, (drop_ctx ctx h).2))
  end.

(** [None]: still blocked. The inner [None] is nil. *)
Definition take_one (alive : bool) (w : nat) (env : list (ServerInner chan → ServerInner chan))
    (now mono_ms : Z) sv (h : heap chan oneshot)
  : option (result (option (env_t * RequestCtx chan))) * (ServerInner chan * heap chan oneshot) :=
  match checkout alive w env sv with
  | (TakeBlocked, sv) => (None, (sv, h))
  | (TakeEnded None, sv) => (Some (Ok None), (sv, h))
  | (TakeEnded (Some ctx), sv) =>
      match admit_request w now mono_ms ctx sv h with
      | (Ok x, world) => (Some (Ok (Some x)), world)
      | (Err e, world) => (Some (Err e), world)
      end
  end.

(** The non-blocking drain of a batch: [n] more takes at most. *)
Fixpoint fill_batch (n w : nat) (now mono_ms : Z) (batch : list (env_t * RequestCtx chan)) sv
    (h : heap chan oneshot)
  : result (list (env_t * RequestCtx chan)) * (ServerInner chan * heap chan oneshot) :=
  match n with
  | O => (Ok batch, (sv, h))
  | S n =>
      match try_recv (req sv) with
      | (RecvOk ctx, q) =>
          match admit_request w now mono_ms ctx (set_queue (req_tx sv) q sv) h with
          | (Ok x, (sv, h)) => fill_batch n w now mono_ms (batch ++ [x]) sv h
          | (Err e, world) => (Err e, world)
          end
      | _ => (Ok batch, (sv, h))
      end
  end.

Definition take_batch (alive : bool) (w max : nat)
    (env : list (ServerInner chan → ServerInner chan)) (now mono_ms : Z) sv
    (h : heap chan oneshot)
  : option (result (option (list (env_t * RequestCtx chan))))
    * (ServerInner chan * heap chan oneshot) :=
  match checkout alive w env sv with
  | (TakeBlocked, sv) => (None, (sv, h))
  | (TakeEnded None, sv) => (Some (Ok None), (sv, h))
  | (TakeEnded (Some first), sv) =>
      match admit_request w now mono_ms first sv h with
      | (Err e, world) => (Some (Err e), world)
      | (Ok x, (sv, h)) =>
          match fill_batch (max - 1) w now mono_ms [x] sv h with
          | (Ok batch, world) => (Some (Ok (Some batch)), world)
          | (Err e, world) => (Some (Err e), world)
          end
      end
  end.
End take.
Arguments Taken : clear implicits.
Arguments take_outcome : clear implicits.

(** ** What a take promises *)

Section take_proofs.
Context {chan oneshot : Type → Type} `{!Flume chan, !FlumeSpec chan, !Oneshot oneshot}.
Implicit Types (s : WorkerSlot chan) (sv : ServerInner chan) (ctx : RequestCtx chan).

(** Nothing but the taken request leaves the server. *)
Definition took (r : Taken chan) sv sv' : Prop :=
  match r with
  | Some ctx => waiting sv ≡ₚ ctx :: waiting sv'
  | None => waiting sv' = waiting sv
  end.

Lemma lane_set_lane tx rx s : lane (set_lane tx (Some rx) s) = contents rx.
Proof. done. Qed.

Lemma recv_lane_spec s r s' :
  recv_lane s = (r, s') →
  match r with
  | Some ctx => lane s = ctx :: lane s'
  | None => s' = s ∧ lane s = []
  end.
Proof.
  unfold recv_lane, lane at 1 3. destruct (lane_rx s) as [rx|]; [|intros; by simplify_eq].
  destruct (try_recv rx) as [x rx'] eqn:Hx.
  destruct (try_recv_cases _ _ _ Hx) as [(c & l & -> & Hc & Hl & _)|[(-> & -> & Hc & _)|(-> & -> & Hc & _)]];
    intros; simplify_eq/=; [|done|done].
  by rewrite lane_set_lane, Hc.
Qed.

(** Replacing a slot's lane moves exactly its requests. *)
Lemma lanes_insert_cons (l : list (WorkerSlot chan)) i s s' ctx :
  l !! i = Some s → lane s = ctx :: lane s' →
  (l ≫= lane) ≡ₚ ctx :: (<[i:=s']> l ≫= lane).
Proof.
  intros Hi Hl. apply list_elem_of_split_length in Hi as (l1 & l2 & -> & ->).
  rewrite insert_app_r_alt by lia. rewrite Nat.sub_diag. simpl.
  rewrite !bind_app, !bind_cons, Hl. symmetry. apply Permutation_middle.
Qed.

Lemma lanes_insert_same (l : list (WorkerSlot chan)) i s s' :
  l !! i = Some s → lane s' = lane s → (<[i:=s']> l ≫= lane) = l ≫= lane.
Proof.
  intros Hi Hl. apply list_elem_of_split_length in Hi as (l1 & l2 & -> & ->).
  rewrite insert_app_r_alt by lia. rewrite Nat.sub_diag. simpl.
  by simpl; rewrite !bind_app, !bind_cons, Hl.
Qed.

Lemma lanes_alter (f : WorkerSlot chan → WorkerSlot chan) (l : list (WorkerSlot chan)) i :
  (∀ s, lane (f s) = lane s) → (alter f i l ≫= lane) = l ≫= lane.
Proof.
  intros Hf. revert i. induction l as [|s l IH]; intros [|i]; cbn; [done..| |].
  - by rewrite Hf.
  - by rewrite IH.
Qed.

Lemma recv_lane_took w s r s' sv :
  slots sv !! w = Some s → recv_lane s = (r, s') → took r sv (put_slot w s' sv).
Proof.
  intros Hw Hr. apply recv_lane_spec in Hr. unfold took, waiting, put_slot. cbn.
  destruct r as [ctx|].
  - rewrite (lanes_insert_cons _ _ _ _ _ Hw Hr). by rewrite Permutation_middle.
  - destruct Hr as [-> _]. by rewrite list_insert_id.
Qed.

Lemma timeout_at_took w sv r sv' :
  timeout_at w sv = (r, sv') →
  match r with
  | None => waiting sv' = waiting sv
  | Some taken => took taken sv sv'
  end.
Proof.
  unfold timeout_at, after_timeout. destruct (slots sv !! w) as [s|] eqn:Hw; [|by intros [= <- <-]].
  destruct (retired s); cbn.
  - destruct (recv_lane s) as [c s'] eqn:Hr. intros [= <- <-]. by eapply recv_lane_took.
  - intros [= <- <-]. unfold waiting, put_slot. cbn. by rewrite list_insert_id.
Qed.

Lemma req_took sv x q :
  try_recv (req sv) = (RecvOk x, q) → took (Some x) sv (set_queue (req_tx sv) q sv).
Proof.
  intros Hr. destruct (try_recv_cases _ _ _ Hr) as [(y & l & [= <-] & Hc & Hl & _)|[(? & _)|(? & _)]];
    [|done..].
  unfold took, waiting. cbn. by rewrite Hc, Hl.
Qed.

Lemma queue_tick_took w sv r sv' :
  queue_tick w sv = (r, sv') →
  match r with
  | None => waiting sv' = waiting sv
  | Some taken => took taken sv sv'
  end.
Proof.
  unfold queue_tick, recv_timeout. destruct (try_recv (req sv)) as [[x| |] q] eqn:Hr.
  - intros [= <- <-]. by apply req_took.
  - apply timeout_at_took.
  - by intros [= <- <-].
Qed.

Lemma steal_from_took w order (l : list (WorkerSlot chan)) r l' :
  steal_from w order l = (r, l') →
  match r with
  | Some ctx => (l ≫= lane) ≡ₚ ctx :: (l' ≫= lane)
  | None => l' = l ∧ ∀ i s, i ∈ order → i ≠ w → l !! i = Some s → lane s = []
  end.
Proof.
  induction order as [|i order IH]; cbn; [intros [= <- <-]; split; [done|]; intros i s Hi; by apply elem_of_nil in Hi|].
  destruct (Nat.eqb_spec i w) as [->|Hne].
  { intros H%IH. destruct r; [done|]. destruct H as [-> H]. split; [done|].
    intros j s [->|Hj]%elem_of_cons Hw; [done|by apply H]. }
  destruct (l !! i) as [s|] eqn:Hi.
  2: { intros H%IH. destruct r; [done|]. destruct H as [-> H]. split; [done|].
       intros j s [->|Hj]%elem_of_cons Hw; [congruence|by apply H]. }
  destruct (recv_lane s) as [[c|] s'] eqn:Hr.
  - intros [= <- <-]. apply recv_lane_spec in Hr. by eapply lanes_insert_cons.
  - intros H%IH. destruct r; [done|]. destruct H as [-> H]. split; [done|].
    apply recv_lane_spec in Hr as [-> Hr].
    intros j t [->|Hj]%elem_of_cons Hw Hjt; [congruence|by eapply H].
Qed.

Lemma steal_took w sv r sv' : steal w sv = (r, sv') → took r sv sv'.
Proof.
  unfold steal. destruct (steal_from _ _ _) as [c l] eqn:Hs. intros [= <- <-].
  apply steal_from_took in Hs. unfold took, waiting. cbn. destruct c as [c|].
  - by rewrite Hs, Permutation_middle.
  - by destruct Hs as [-> _].
Qed.

Lemma lane_tick_took w sv r sv' :
  lane_tick w sv = (r, sv') →
  match r with
  | None => waiting sv' = waiting sv
  | Some taken => took taken sv sv'
  end.
Proof.
  unfold lane_tick. destruct (slots sv !! w) as [s|] eqn:Hw; [|by intros [= <- <-]].
  destruct (lane_rx s) as [rx|] eqn:Hrx; [|by intros [= <- <-]]. unfold recv_timeout.
  destruct (try_recv rx) as [[x| |] rx'] eqn:Hr; [| |by intros [= <- <-]].
  - intros [= <- <-]. apply (recv_lane_took w s (Some x)); [done|].
    unfold recv_lane. by rewrite Hrx, Hr.
  - destruct (timeout_at w sv) as [[taken|] sv1] eqn:Ht; apply timeout_at_took in Ht.
    + by intros [= <- <-].
    + destruct (steal w sv1) as [[c|] sv2] eqn:Hs; apply steal_took in Hs; intros [= <- <-];
        unfold took in *; by rewrite <-?Ht.
Qed.

Lemma waiting_park w sv : waiting (park w sv) = waiting sv.
Proof. unfold waiting, park. cbn. by rewrite lanes_alter. Qed.

Lemma waiting_unpark w sv : waiting (unpark w sv) = waiting sv.
Proof. unfold waiting, unpark. cbn. by rewrite lanes_alter. Qed.

(** The loops of a take, for any property of the waiting requests that the
    other threads keep. *)
Lemma loop_took (P : list (RequestCtx chan) → Prop) flag tick env sv :
  (∀ sv r sv', tick sv = (r, sv') →
     match r with None => waiting sv' = waiting sv | Some taken => took taken sv sv' end) →
  (∀ f v, f ∈ env → P (waiting v) → P (waiting (f v))) → P (waiting sv) →
  let '(r, sv') := interruptible flag tick env sv in
  match r with
  | Finished (Some c) => ∃ l, P l ∧ l ≡ₚ c :: waiting sv'
  | _ => P (waiting sv')
  end.
Proof.
  intros Htick Henv HP.
  assert (Hn : ∀ v v', P (waiting v) → flag v = false → tick v = (None, v') → P (waiting v'))
    by (intros v v' Hv _ Ht; apply Htick in Ht; by rewrite Ht).
  pose proof (interruptible_inv flag tick (λ v, P (waiting v)) env sv Henv Hn HP) as H.
  destruct (interruptible flag tick env sv) as [[| |[c|]] sv']; [done|by destruct H|..].
  - destruct H as (v & Hv & _ & Ht). apply Htick in Ht. cbn in Ht. eauto.
  - destruct H as (v & Hv & _ & Ht). apply Htick in Ht. cbn in Ht. by rewrite Ht.
Qed.

Lemma block_take_took (P : list (RequestCtx chan) → Prop) w env sv r sv' :
  (∀ f v, f ∈ env → P (waiting v) → P (waiting (f v))) → P (waiting sv) →
  block_take w env sv = (TakeEnded r, sv') →
  match r with
  | Some c => ∃ l, P l ∧ l ≡ₚ c :: waiting sv'
  | None => P (waiting sv')
  end.
Proof.
  intros Henv HP. unfold block_take. destruct (slots sv !! w) as [s|] eqn:Hw; [|by intros [= <- <-]].
  destruct (lane_rx s) as [rx|] eqn:Hrx.
  - unfold lane_take. destruct (try_recv rx) as [[x| |] rx'] eqn:Hr; [|..].
    + intros [= <- <-]. exists (waiting sv). split; [done|].
      apply (recv_lane_took w s (Some x)); [done|]. unfold recv_lane. by rewrite Hrx, Hr.
    + destruct (steal w sv) as [[c|] sv1] eqn:Hs; apply steal_took in Hs; cbn in Hs.
      { intros [= <- <-]. eauto. }
      pose proof (loop_took P (flag_of w) (lane_tick w) env (park w sv1) (lane_tick_took w) Henv) as H.
      rewrite waiting_park, Hs in H. specialize (H HP).
      destruct (interruptible _ _ env _) as [[| |[c|]] sv2]; intros; simplify_eq/=;
        by rewrite waiting_unpark.
    + by intros [= <- <-].
  - destruct (try_recv (req sv)) as [[x| |] q] eqn:Hr.
    + intros [= <- <-]. exists (waiting sv). split; [done|]. by apply (req_took sv x).
    + pose proof (loop_took P (flag_of w) (queue_tick w) env sv (queue_tick_took w) Henv HP) as H.
      destruct (interruptible _ _ env _) as [[| |[c|]] sv2]; intros; by simplify_eq/=.
    + by intros [= <- <-].
Qed.

(** C20: A take loses nothing and duplicates nothing, on the shared queue
    and on the lanes, stealing included: when the other threads leave the
    waiting requests alone, the requests waiting before are, counted with
    multiplicity, those waiting afterwards plus the one returned; and
    whatever the others add or take, a request they leave waiting is still
    waiting afterwards or is the one returned. *)
Theorem block_take_conserves w env sv r sv' :
  block_take w env sv = (TakeEnded r, sv') →
  ((∀ f v, f ∈ env → waiting (f v) ≡ₚ waiting v) → waiting sv ≡ₚ option_list r ++ waiting sv')
  ∧ ∀ ctx, (∀ f v, f ∈ env → ctx ∈ waiting v → ctx ∈ waiting (f v)) → ctx ∈ waiting sv →
      r = Some ctx ∨ ctx ∈ waiting sv'.
Proof.
  intros Ht. split.
  - intros Henv. pose proof (block_take_took (λ l, l ≡ₚ waiting sv) w env sv r sv') as H.
    assert (match r with Some c => ∃ l, l ≡ₚ waiting sv ∧ l ≡ₚ c :: waiting sv'
            | None => waiting sv' ≡ₚ waiting sv end) as Hr.
    { apply H; [|done|done]. intros f v Hf Hv. by rewrite Henv. }
    destruct r as [c|]; [destruct Hr as (l & <- & ->)|rewrite Hr]; done.
  - intros ctx Henv Hin. pose proof (block_take_took (λ l, ctx ∈ l) w env sv r sv' Henv Hin Ht) as H.
    destruct r as [c|]; [|by right]. destruct H as (l & Hl & Hp). rewrite Hp in Hl.
    apply elem_of_cons in Hl as [->|Hl]; auto.
Qed.

(** [n] timeouts of a parked worker, each handing out what it got. *)
Fixpoint timeouts (n : nat) s : list (option (Taken chan)) * WorkerSlot chan :=
  match n with
  | O => ([], s)
  | S n =>
      let '(r, s) := after_timeout s in
      let '(l, s) := timeouts n s in (r :: l, s)
  end.

Lemma retired_recv_lane s r s' : recv_lane s = (r, s') → retired s' = retired s.
Proof. unfold recv_lane. repeat case_match; intros; by simplify_eq/=. Qed.

(** A retired worker serves everything its lane still holds, one
    request per timeout and in order, and leaves at the first timeout after
    that; a worker that is not retired keeps waiting. *)
Theorem retired_worker_drains s :
  (retired s = false → after_timeout s = (None, s))
  ∧ (retired s = true →
     let n := length (lane s) in
     (timeouts (S n) s).1 = ((λ c, Some (Some c)) <$> lane s) ++ [Some None]
     ∧ lane (timeouts (S n) s).2 = []).
Proof.
  split; [intros Hr; unfold after_timeout; by rewrite Hr|].
  remember (length (lane s)) as n eqn:Hn. revert s Hn.
  induction n as [|n IH]; intros s Hn Hret; cbn -[after_timeout] in *.
  - unfold after_timeout. rewrite Hret. cbn. destruct (recv_lane s) as [r s'] eqn:Hr.
    apply recv_lane_spec in Hr. destruct r as [c|]; [by rewrite Hr in Hn|].
    destruct Hr as [-> Hl]. by rewrite Hl.
  - unfold after_timeout at 1 3. rewrite Hret. cbn -[after_timeout].
    destruct (recv_lane s) as [r s'] eqn:Hr. apply retired_recv_lane in Hr as Hret'.
    apply recv_lane_spec in Hr. destruct r as [c|]; [|destruct Hr as [_ Hl]; by rewrite Hl in Hn].
    rewrite Hr in Hn |- *. cbn in Hn. specialize (IH s' ltac:(lia) ltac:(congruence)).
    destruct (after_timeout s') as [r2 s2]. destruct (timeouts n s2) as [l s3]. cbn in *.
    destruct IH as [-> ->]. done.
Qed.
End take_proofs.

(** ** Batches *)

Section batch.
Context {chan oneshot : Type → Type} `{!Flume chan, !FlumeSpec chan, !Oneshot oneshot}.
Context {env_t : Type} (build_env : RequestCtx chan → result env_t).
Hypothesis build_env_ok : ∀ ctx, ∃ e, build_env ctx = Ok e.
Implicit Types (s : WorkerSlot chan) (sv : ServerInner chan) (h : heap chan oneshot).

(** A counter after [n] [fetch_add(1)]s. *)
Fixpoint bumped (n : nat) (z : Z) : Z :=
  match n with
  | O => z
  | S n => bumped n (z +w 1)
  end.

Lemma bumped_small n z : 0 ≤ z → z + Z.of_nat n < u64_modulus → bumped n z = z + Z.of_nat n.
Proof.
  revert z. induction n as [|n IH]; intros z Hz Hn; cbn [bumped]; [lia|].
  unfold u64_add. rewrite wrap64_small by (unfold u64_ok; lia). rewrite IH; lia.
Qed.

(** What the slot and the counters say about the requests a worker holds. *)
Definition holding (w : nat) (held : list nat) (inf total : Z) (q : list (RequestCtx chan)) sv : Prop :=
  contents (req sv) = q ∧ c_served (counters sv) = total
  ∧ ∃ s, slots sv !! w = Some s ∧ current s = held ∧ in_flight s = inf ∧ interrupted s = false
         ∧ lane_rx s = None.

Lemma admit_ok w now ms ctx sv h held inf total q :
  holding w held inf total q sv →
  ∃ e ctx' sv', admit_request build_env w now ms ctx sv h = (Ok (e, ctx'), (sv', h))
    ∧ responder ctx' = responder ctx ∧ req sv' = req sv
    ∧ holding w (held ++ [responder ctx]) (inf +w 1) (total +w 1) q sv'.
Proof.
  intros (Hq & Ht & s & Hs & Hc & Hi & Hint & Hl). unfold admit_request.
  destruct (build_env_ok (set_admitted w (sat_sub now (enqueued_at ctx)) now ctx)) as [e He].
  rewrite He. do 3 eexists. split_and!; [done|done|done|].
  split_and!; [done|by rewrite <-Ht|]. exists (admit_slot w ms ctx s). cbn.
  rewrite list_lookup_alter_eq, Hs. cbn. rewrite Hc, Hi. done.
Qed.

Lemma fill_batch_ok n w now ms batch sv h held inf total q :
  holding w held inf total q sv →
  ∃ rest sv', fill_batch build_env n w now ms batch sv h = (Ok (batch ++ rest), (sv', h))
    ∧ (λ p, responder p.2) <$> rest = responder <$> take n q
    ∧ holding w (held ++ (responder <$> take n q))
        (bumped (length rest) inf) (bumped (length rest) total)
        (drop n q) sv'.
Proof.
  revert batch sv held inf total q. induction n as [|n IH]; intros batch sv held inf total q Hh; cbn.
  { exists [], sv. rewrite !app_nil_r. done. }
  destruct (try_recv (req sv)) as [x q'] eqn:Hr.
  destruct Hh as (Hq & Ht & s & Hs & Hc & Hi & Hint & Hl).
  destruct (try_recv_cases _ _ _ Hr) as [(c & l & -> & Hcon & Hcon' & _)|[(-> & _ & Hcon & _)|(-> & _ & Hcon & _)]].
  2,3: exists [], sv; assert (q = []) as -> by congruence; cbn; rewrite !app_nil_r;
       split_and!; [done|done|]; split_and!; [done|done|]; eauto 10.
  assert (q = c :: l) as -> by congruence.
  assert (Hh' : holding w held inf total l (set_queue (req_tx sv) q' sv))
    by (split_and!; [done|done|]; eauto 10).
  destruct (admit_ok w now ms c _ h _ _ _ _ Hh') as (e & ctx' & sv1 & -> & Hres & _ & Hh1).
  destruct (IH (batch ++ [(e, ctx')]) sv1 _ _ _ _ Hh1) as (rest & sv2 & -> & Hrest & Hh2).
  exists ((e, ctx') :: rest), sv2. rewrite <-app_assoc. cbn. rewrite Hrest, Hres.
  split_and!; [done|done|]. rewrite <-app_assoc in Hh2. cbn in Hh2.
  exact Hh2.
Qed.

End batch.

(** ** The worker's handle and the fused calls *)

Section fused.
Context {chan oneshot : Type → Type} `{!Flume chan, !Oneshot oneshot}.
Variables (to_s : Reply.RbValue → result string) (valid_status : Z → bool)
  (valid_header : string → string → bool) (http_error : string).
Variable acquire : Pin.RString → Pin.RString.
Context {env_t : Type} (build_env : RequestCtx chan → result env_t).
Implicit Types (sv : ServerInner chan) (ctx : RequestCtx chan) (h : heap chan oneshot).

(** [Worker]: the server (held weakly) and the slot, by name; nil when the
    server is gone. *)
Definition worker (i w : nat) (g : Registry chan) : result (option (nat * nat)) :=
  match try_get i g with
  | None => Ok None
  | Some sv => _ ← slot w sv; Ok (Some (i, w))
  end.

(** [respond_simple] on the request's responder, which the handle keeps
    alive, with the server's slab. *)
Definition respond_request (now : Z) ctx (st : Z) (hs : list (Reply.RbValue * Reply.RbValue))
    (body : Pin.RString) sv h : result bool * (ServerInner chan * heap chan oneshot) :=
  match h !! responder ctx with
  | None => (Ok false, (sv, h))
  | Some (_, r) =>
      let '(res, (r, sl)) :=
        Reply.respond_simple to_s valid_status valid_header http_error acquire now ctx st hs body r
          (pin_slab sv) in
      (res, (set_pins sl sv, store (responder ctx) r h))
  end.

Definition respond_and_take_one (now : Z) ctx (st : Z) (hs : list (Reply.RbValue * Reply.RbValue))
    (body : Pin.RString) (alive : bool) (w : nat) (env : list (ServerInner chan → ServerInner chan))
    (now' mono_ms : Z) sv h
  : option (result (option (env_t * RequestCtx chan))) * (ServerInner chan * heap chan oneshot) :=
  match respond_request now ctx st hs body sv h with
  | (Err e, world) => (Some (Err e), world)
  | (Ok _, (sv, h)) => take_one build_env alive w env now' mono_ms sv h
  end.

Definition respond_and_take (now : Z) ctx (max : nat) (st : Z)
    (hs : list (Reply.RbValue * Reply.RbValue)) (body : Pin.RString) (alive : bool) (w : nat)
    (env : list (ServerInner chan → ServerInner chan)) (now' mono_ms : Z) sv h
  : option (result (option (list (env_t * RequestCtx chan)))) * (ServerInner chan * heap chan oneshot) :=
  match respond_request now ctx st hs body sv h with
  | (Err e, world) => (Some (Err e), world)
  | (Ok _, (sv, h)) => take_batch build_env alive w max env now' mono_ms sv h
  end.
End fused.

(** ** Examples on concrete channels *)

Definition ctx_n (n : nat) : RequestCtx ListChan.t :=
  MkCtx "GET" (MkUri "/" None None) HTTP_11 [] (MkSocketAddr (V4 127 0 0 1) 40000)
    (MkSocketAddr (V4 127 0 0 1) 9292) false None None None n 0 false 0 0 None.

Definition queue_of (l : list (RequestCtx ListChan.t)) : ListChan.t (RequestCtx ListChan.t) :=
  ListChan.Mk l 8 1 true.

Definition server_with (lanes_on : bool) (q : list (RequestCtx ListChan.t))
    (l : list (WorkerSlot ListChan.t)) : ServerInner ListChan.t :=
  MkServer (MkConfig 1 10 0 0 (MkTopology "threaded" 2 2 1 1) false true None false lanes_on)
    true (queue_of q) false RtNone l (counters_new 2) STATE_READY 0 0 (Pin.with_capacity 2)
    Histogram.histogram_new.

Definition lane_of (l : list (RequestCtx ListChan.t)) : WorkerSlot ListChan.t :=
  set_lane true (Some (ListChan.Mk l LANE_DEPTH 1 true)) (slot_new true).

(** Worker 0's lane is empty: it steals from worker 1. *)
Example block_take_conserves_witness :
  let '(r, sv') := block_take 0 [] (server_with true [] [lane_of []; lane_of [ctx_n 5; ctx_n 6]]) in
  r = TakeEnded (Some (ctx_n 5)) ∧ [ctx_n 5; ctx_n 6] ≡ₚ ctx_n 5 :: waiting sv'.
Proof.
  destruct (block_take 0 [] (server_with true [] [lane_of []; lane_of [ctx_n 5; ctx_n 6]]))
    as [r sv'] eqn:Ht.
  pose proof Ht as Hr. vm_compute in Hr. injection Hr as Hr Hsv. subst r. split; [reflexivity|].
  destruct (block_take_conserves 0 [] _ _ _ Ht) as [H _]. apply H.
  intros f v Hf. by apply elem_of_nil in Hf.
Defined.

Example retired_worker_drains_witness :
  (timeouts 3 (retire (lane_of [ctx_n 5; ctx_n 6]))).1
  = [Some (Some (ctx_n 5)); Some (Some (ctx_n 6)); Some None].
Proof.
  destruct (retired_worker_drains (retire (lane_of [ctx_n 5; ctx_n 6]))) as [_ H].
  exact (proj1 (H eq_refl)).
Defined.

