(* ===== verification/LaneProtocol.v ===== *)
(** Retiring a lane worker, step by step ([WorkerSlot::retire], [try_lane]
    and [after_timeout]): dispatchers, the pool scaler, thieves and the
    worker itself interleave on one lane, under the lane lock. *)

From S2P Require Import Prelude Channels Gvl Request Registry Dispatch Queue.

Section protocol.
Context {chan : Type → Type} `{!Flume chan}.
Implicit Types (s : WorkerSlot chan) (ctx : RequestCtx chan).

(** A dispatcher in [try_lane]: waiting for the lane lock; holding it; having
    seen the lane open and the slot not retired; done. *)
Inductive disp : Type :=
  | DWant ctx
  | DLocked ctx
  | DCleared ctx
  | DDone (sent : bool).

(** The lane's worker: receiving; its bounded wait timed out; it has read the
    flag and found the slot retired; gone. *)
Inductive worker_pc : Type :=
  | WTaking
  | WTimedOut
  | WLeaving
  | WLeft.

(** [accepted] lists what dispatchers have sent, [taken] what was received,
    by the worker or a thief. *)
Record lane_sys : Type := MkLane {
  lslot : WorkerSlot chan;
  lock : option nat;
  disps : gmap nat disp;
  worker : worker_pc;
  accepted : list (RequestCtx chan);
  taken : list (RequestCtx chan);
}.

Definition lane_init : lane_sys := MkLane (slot_new true) None ∅ WTaking [] [].

Inductive lane_step : lane_sys → lane_sys → Prop :=
  | lane_arrive s lk ds w acc tk d ctx :
      ds !! d = None →
      lane_step (MkLane s lk ds w acc tk) (MkLane s lk (<[d:=DWant ctx]> ds) w acc tk)
  | lane_lock s ds w acc tk d ctx :
      ds !! d = Some (DWant ctx) →
      lane_step (MkLane s None ds w acc tk) (MkLane s (Some d) (<[d:=DLocked ctx]> ds) w acc tk)
  | lane_refuse s lk ds w acc tk d ctx :
      ds !! d = Some (DLocked ctx) → lane_tx s = false ∨ retired s = true →
      lane_step (MkLane s lk ds w acc tk) (MkLane s None (<[d:=DDone false]> ds) w acc tk)
  | lane_clear s lk ds w acc tk d ctx :
      ds !! d = Some (DLocked ctx) → lane_tx s = true → retired s = false →
      lane_step (MkLane s lk ds w acc tk) (MkLane s lk (<[d:=DCleared ctx]> ds) w acc tk)
  | lane_send s lk ds w acc tk d ctx rx rx' :
      ds !! d = Some (DCleared ctx) → lane_rx s = Some rx → try_send ctx rx = (SendOk, rx') →
      lane_step (MkLane s lk ds w acc tk)
        (MkLane (set_lane true (Some rx') s) None (<[d:=DDone true]> ds) w (acc ++ [ctx]) tk)
  | lane_full s lk ds w acc tk d ctx rx r rx' :
      ds !! d = Some (DCleared ctx) → lane_rx s = Some rx → try_send ctx rx = (r, rx') → r ≠ SendOk →
      lane_step (MkLane s lk ds w acc tk) (MkLane s None (<[d:=DDone false]> ds) w acc tk)
  | lane_retire s ds w acc tk :
      lane_step (MkLane s None ds w acc tk) (MkLane (retire s) None ds w acc tk)
  | lane_close s ds w acc tk :
      lane_step (MkLane s None ds w acc tk) (MkLane (close_lane s) None ds w acc tk)
  | lane_steal s lk ds w acc tk c s' :
      recv_lane s = (Some c, s') →
      lane_step (MkLane s lk ds w acc tk) (MkLane s' lk ds w acc (tk ++ [c]))
  | lane_serve s lk ds acc tk c s' :
      recv_lane s = (Some c, s') →
      lane_step (MkLane s lk ds WTaking acc tk) (MkLane s' lk ds WTaking acc (tk ++ [c]))
  | lane_closed s lk ds acc tk :
      lane_tx s = false → lane s = [] →
      lane_step (MkLane s lk ds WTaking acc tk) (MkLane s lk ds WLeft acc tk)
  | lane_timeout s lk ds acc tk :
      lane s = [] →
      lane_step (MkLane s lk ds WTaking acc tk) (MkLane s lk ds WTimedOut acc tk)
  | lane_go_on s lk ds acc tk :
      retired s = false →
      lane_step (MkLane s lk ds WTimedOut acc tk) (MkLane s lk ds WTaking acc tk)
  | lane_see s lk ds acc tk :
      retired s = true →
      lane_step (MkLane s lk ds WTimedOut acc tk) (MkLane s lk ds WLeaving acc tk)
  | lane_drain s lk ds acc tk c s' :
      recv_lane s = (Some c, s') →
      lane_step (MkLane s lk ds WLeaving acc tk) (MkLane s' lk ds WTaking acc (tk ++ [c]))
  | lane_leave s lk ds acc tk s' :
      recv_lane s = (None, s') →
      lane_step (MkLane s lk ds WLeaving acc tk) (MkLane s lk ds WLeft acc tk).

(** No dispatcher can send any more. *)
Definition shut s : Prop := retired s = true ∨ lane_tx s = false.

Definition holds_lock (p : disp) : bool :=
  match p with DLocked _ | DCleared _ => true | _ => false end.

Definition has_room s : Prop :=
  match lane_rx s with Some rx => (0 < capacity rx)%nat | None => True end.

Definition lane_inv (y : lane_sys) : Prop :=
  has_room (lslot y) ∧ accepted y = taken y ++ lane (lslot y)
  ∧ (∀ d p, disps y !! d = Some p → holds_lock p = true → lock y = Some d)
  ∧ (∀ d ctx, disps y !! d = Some (DCleared ctx) → ¬ shut (lslot y))
  ∧ match worker y with
    | WTaking | WTimedOut => True
    | WLeaving => retired (lslot y) = true
    | WLeft => lane (lslot y) = [] ∧ shut (lslot y)
    end.
End protocol.
Arguments lane_sys : clear implicits.
Arguments disp : clear implicits.

Section protocol_proofs.
Context {chan : Type → Type} `{!Flume chan, !FlumeSpec chan}.
Implicit Types (s : WorkerSlot chan) (ctx : RequestCtx chan) (y : lane_sys chan).

(** A receive changes neither flag nor lock state. *)
Lemma recv_lane_frame s r s' :
  recv_lane s = (r, s') →
  retired s' = retired s ∧ lane_tx s' = lane_tx s ∧ (has_room s → has_room s').
Proof.
  unfold recv_lane. destruct (lane_rx s) as [rx|] eqn:Hrx; [|intros; by simplify_eq].
  destruct (try_recv rx) as [x rx'] eqn:Hx.
  destruct (try_recv_cases _ _ _ Hx) as [(c & l & -> & _ & _ & Hcap & _)|[(-> & _)|(-> & _)]];
    intros; simplify_eq/=; [|done|done].
  split_and!; [done|done|]. unfold has_room. cbn. by rewrite Hrx, Hcap.
Qed.

Lemma lane_close_lane s : lane (close_lane s) = lane s.
Proof.
  unfold close_lane, lane. destruct (lane_tx s); [|done]. cbn. destruct (lane_rx s); [|done].
  apply contents_drop_sender.
Qed.

Lemma has_room_close_lane s : has_room s → has_room (close_lane s).
Proof.
  unfold close_lane, has_room. destruct (lane_tx s); [|done]. cbn. destruct (lane_rx s); [|done].
  by rewrite capacity_drop_sender.
Qed.

(** A successful send. *)
Lemma send_lane s ctx rx rx' :
  has_room s → lane_rx s = Some rx → try_send ctx rx = (SendOk, rx') →
  let s' := set_lane true (Some rx') s in
  lane s' = lane s ++ [ctx] ∧ has_room s' ∧ retired s' = retired s ∧ lane_tx s' = true.
Proof.
  unfold has_room. intros Hroom Hrx Hs. rewrite Hrx in Hroom.
  destruct (try_send_cases _ _ _ _ Hroom Hs) as [(_ & _ & _ & Hc & Hcap & _)|[(? & _)|(? & _)]]; [|done..].
  unfold lane. cbn. rewrite Hrx, Hcap. done.
Qed.

(** The locks after dispatcher [d] moves from [p] to [p']. *)
Lemma locks_move (ds : gmap nat (disp chan)) lk lk' d p p' :
  ds !! d = Some p →
  (∀ e q, ds !! e = Some q → holds_lock q = true → lk = Some e) →
  (holds_lock p = true ∨ lk = None) →
  (holds_lock p' = true → lk' = Some d) → 
  ∀ e q, <[d:=p']> ds !! e = Some q → holds_lock q = true → lk' = Some e.
Proof.
  intros Hd Hall Hor Hp' e q [[-> ->]|[Hne He]]%lookup_insert_Some Hq; [auto|].
  pose proof (Hall _ _ He Hq) as Hlk. destruct Hor as [Hp|Hp]; [|congruence].
  pose proof (Hall _ _ Hd Hp). congruence.
Qed.

Lemma cleared_move (ds : gmap nat (disp chan)) s d p' :
  (∀ e ctx, ds !! e = Some (DCleared ctx) → ¬ shut s) →
  (∀ ctx, p' = DCleared ctx → ¬ shut s) →
  ∀ e ctx, <[d:=p']> ds !! e = Some (DCleared ctx) → ¬ shut s.
Proof. intros Hall Hp' e ctx [[-> ->]|[_ He]]%lookup_insert_Some; eauto. Qed.

(** A receive keeps the ledger and everything else. *)
Lemma lane_inv_recv s lk ds w acc tk c s' w' :
  recv_lane s = (Some c, s') → lane_inv (MkLane s lk ds w acc tk) →
  (w' = WTaking ∨ w' = w) → lane_inv (MkLane s' lk ds w' acc (tk ++ [c])).
Proof.
  intros Hr (Hroom & Hacc & Hlk & Hcl & Hw) Hw'. apply recv_lane_frame in Hr as Hf.
  apply recv_lane_spec in Hr. destruct Hf as (Hret & Htx & Hroom'). unfold lane_inv, shut in *.
  cbn [lslot lock disps worker accepted taken] in *.
  split_and!; [auto|by rewrite Hacc, Hr, <-app_assoc|done|by rewrite Hret, Htx|].
  destruct Hw' as [->| ->]; [done|]. destruct w; [done..|congruence|]. destruct Hw; congruence.
Qed.

Lemma lane_inv_step y y' : lane_step y y' → lane_inv y → lane_inv y'.
Proof.
  intros [s lk ds w acc tk d ctx Hd|s ds w acc tk d ctx Hd|s lk ds w acc tk d ctx Hd Hor
         |s lk ds w acc tk d ctx Hd Htx Hret|s lk ds w acc tk d ctx rx rx' Hd Hrx Hs
         |s lk ds w acc tk d ctx rx r rx' Hd Hrx Hs Hne|s ds w acc tk|s ds w acc tk
         |s lk ds w acc tk c s' Hr|s lk ds acc tk c s' Hr|s lk ds acc tk Htx Hl|s lk ds acc tk Hl
         |s lk ds acc tk Hret|s lk ds acc tk Hret|s lk ds acc tk c s' Hr|s lk ds acc tk s' Hr].
  all: try (intros Hinv; eapply lane_inv_recv; [done|done|auto]; fail).
  all: intros (Hroom & Hacc & Hlk & Hcl & Hw); unfold lane_inv in *;
    cbn [lslot lock disps worker accepted taken] in *.
  - split_and!; [done|done| |by apply cleared_move|done].
    intros e q [[-> <-]|[Hne He]]%lookup_insert_Some Hq; [done|eauto].
  - split_and!; [done|done| |by apply cleared_move|done]. by eapply (locks_move ds None); eauto.
  - split_and!; [done|done| |by apply cleared_move|done]. eapply (locks_move ds lk); eauto; done.
  - split_and!; [done|done| | |done].
    + eapply (locks_move ds lk); eauto.
    + apply cleared_move; [done|]. intros ? _ [?|?]; congruence.
  - destruct (send_lane s ctx rx rx' Hroom Hrx Hs) as (Hl & Hroom' & Hret' & Htx').
    pose proof (Hcl _ _ Hd) as Hn. unfold shut in *.
    split_and!; [done|by rewrite Hacc, Hl, app_assoc| | |].
    + eapply (locks_move ds lk); eauto; done.
    + rewrite Hret', Htx'. intros _ _ _ [?|?]; [|done]. apply Hn. by left.
    + destruct w; [done|done| |]; [by rewrite Hret'|]. by destruct Hw.
  - split_and!; [done|done| |by apply cleared_move|done]. eapply (locks_move ds lk); eauto; done.
  - split_and!; [done|done|done| |].
    + intros d c Hd. pose proof (Hlk _ _ Hd eq_refl). done.
    + destruct w; [done..|]. cbn. destruct Hw as [Hw _]. split; [done|]. by left.
  - rewrite lane_close_lane. split_and!; [by apply has_room_close_lane|done|done| |].
    + intros d c Hd. pose proof (Hlk _ _ Hd eq_refl). done.
    + unfold shut, close_lane in *. destruct w; [done..| |]; destruct (lane_tx s) eqn:Htx; cbn; auto.
      all: destruct Hw as [? _]; auto.
  - split_and!; [done|done|done|done|done|by right].
  - done.
  - done.
  - done.
  - apply recv_lane_spec in Hr as [-> Hl]. split_and!; [done|done|done|done|done|by left].
Qed.

Lemma lane_inv_init : lane_inv (lane_init (chan:=chan)).
Proof.
  destruct (bounded_spec (chan:=chan) (RequestCtx chan) LANE_DEPTH) as (Hc & Hcap & _).
  unfold lane_inv, lane_init, slot_new, has_room, lane. cbn. rewrite Hc, Hcap.
  split_and!; [unfold LANE_DEPTH; lia|done|..|done]; intros d ?; by rewrite lookup_empty.
Qed.

(** C19: Retiring a worker orphans no request. However dispatchers, the
    scaler, the draining server, thieves and the worker interleave: what was
    received is, in order, what was sent, less what the lane still holds; and
    once the worker has left, its lane is empty, everything ever sent to it
    has been received, and no dispatcher is about to send. *)
Theorem retire_orphans_nothing y :
  steps lane_step lane_init y →
  accepted y = taken y ++ lane (lslot y)
  ∧ (worker y = WLeft →
     taken y = accepted y ∧ lane (lslot y) = [] ∧ ∀ d ctx, disps y !! d ≠ Some (DCleared ctx)).
Proof.
  intros Hs. destruct (steps_invariant _ _ lane_inv_step _ _ Hs lane_inv_init)
    as (_ & Hacc & _ & Hcl & Hw).
  split; [done|]. intros Hleft. rewrite Hleft in Hw. destruct Hw as [Hl Hsh].
  rewrite Hacc, Hl, app_nil_r. split_and!; [done|done|]. intros d ctx Hd. by apply Hcl in Hd.
Qed.
End protocol_proofs.

(** A dispatcher wins the lock before the scaler: its request is served
    before the worker leaves. *)
Definition left_lane : lane_sys ListChan.t :=
  MkLane (retire (lane_of [])) None {[ 1%nat := DDone true ]} WLeft [ctx_n 5] [ctx_n 5].

Example retire_orphans_nothing_witness :
  taken left_lane = accepted left_lane ∧ lane (lslot left_lane) = [].
Proof.
  assert (Hs : steps lane_step lane_init left_lane).
  { eapply steps_cons; [apply (lane_arrive _ _ _ _ _ _ 1 (ctx_n 5)); reflexivity|].
    eapply steps_cons; [by apply (lane_lock _ _ _ _ _ 1 (ctx_n 5))|].
    eapply steps_cons; [by apply (lane_clear _ _ _ _ _ _ 1 (ctx_n 5))|].
    eapply steps_cons; [by apply lane_timeout|].
    eapply steps_cons; [by eapply (lane_send _ _ _ _ _ _ 1 (ctx_n 5))|].
    eapply steps_cons; [by apply lane_retire|].
    eapply steps_cons; [by apply lane_see|].
    eapply steps_cons; [by eapply lane_drain|].
    eapply steps_cons; [by apply lane_timeout|].
    eapply steps_cons; [by apply lane_see|].
    eapply steps_cons; [by eapply lane_leave|].
    match goal with |- steps _ ?a ?b => replace a with b by (vm_compute; reflexivity) end.
    apply steps_refl. }
  destruct (retire_orphans_nothing left_lane Hs) as [_ H]. destruct (H eq_refl) as (H1 & H2 & _).
  split; [exact H1|exact H2].
Defined.
