(* ===== verification/LogSink.v ===== *)
(** The asynchronous log sink ([logsink.rs]): callers queue lines without ever
    blocking, one flusher thread writes them out, and Ruby's log devices are
    sinks in a registry. *)

From S2P Require Import Prelude Text Channels Gvl.

Definition SINK_DEPTH : nat := Z.to_nat 8192.

(** Where the flusher thread is: blocked for a first line, draining what is
    queued behind it, or gone. *)
Inductive flusher : Type := FlWait | FlDrain | FlExit.

(** The channel with its sender, the flusher, what it has written to the
    output, and how much of that has been flushed. *)
Record Sink (chan : Type → Type) : Type := MkSink {
  lines : chan string;
  fl : flusher;
  written : string;
  flushed : string;
}.
Arguments MkSink {chan}.
Arguments lines {chan}.
Arguments fl {chan}.
Arguments written {chan}.
Arguments flushed {chan}.

Section sink.
Context {chan : Type → Type} `{!Flume chan}.
Implicit Types (k : Sink chan).

Definition sink_new : Sink chan := MkSink (bounded SINK_DEPTH) FlWait "" "".

(** The line goes in or, when the channel is full, is dropped. *)
Definition write_line (line : string) k : Sink chan :=
  MkSink (try_send line (lines k)).2 (fl k) (written k) (flushed k).

(** Dropping the sink drops the sender. *)
Definition sink_drop k : Sink chan :=
  MkSink (drop_sender (lines k)) (fl k) (written k) (flushed k).

Definition put (line : string) q k : Sink chan :=
  MkSink q FlDrain (written k +:+ line +:+ nl) (flushed k).

Definition flush (next : flusher) k : Sink chan := MkSink (lines k) next (written k) (written k).

(** One step of the flusher; [None] while it is blocked, and once it is
    gone. *)
Definition flusher_turn k : option (Sink chan) :=
  match fl k with
  | FlWait =>
      match try_recv (lines k) with
      | (RecvOk line, q) => Some (put line q k)
      | (RecvEmpty, _) => None
      | (RecvDisconnected, _) => Some (flush FlExit k)
      end
  | FlDrain =>
      match try_recv (lines k) with
      | (RecvOk line, q) => Some (put line q k)
      | _ => Some (flush FlWait k)
      end
  | FlExit => None
  end.

(** The flusher left to itself. *)
Fixpoint run_flusher (fuel : nat) k : Sink chan :=
  match fuel with
  | O => k
  | S fuel => match flusher_turn k with Some k => run_flusher fuel k | None => k end
  end.

(** Callers, the flusher and the end of the sink interleave; the lines the
    channel took are kept beside. *)
Definition took_line (line : string) k : bool :=
  match try_send line (lines k) with (SendOk, _) => true | _ => false end.

Inductive sink_step : Sink chan * list string → Sink chan * list string → Prop :=
  | sk_write line k log :
      senders (lines k) ≠ 0%nat →
      sink_step (k, log) (write_line line k, if took_line line k then log ++ [line] else log)
  | sk_flush k k' log : flusher_turn k = Some k' → sink_step (k, log) (k', log)
  | sk_drop k log : senders (lines k) ≠ 0%nat → sink_step (k, log) (sink_drop k, log).

Definition text_of (log : list string) : string := str_concat ((λ l, l +:+ nl) <$> log).

(** Everything taken is written or queued, in order; the flusher's writes are
    flushed whenever it is not in the middle of a batch. *)
Definition sink_inv (s : Sink chan * list string) : Prop :=
  let '(k, log) := s in
  chan_ok (lines k) ∧ capacity (lines k) = SINK_DEPTH ∧ receiving (lines k) = true
  ∧ text_of log = written k +:+ text_of (contents (lines k))
  ∧ match fl k with
    | FlWait => flushed k = written k
    | FlDrain => True
    | FlExit => flushed k = written k ∧ contents (lines k) = [] ∧ senders (lines k) = 0%nat
    end.
End sink.

(** ** Devices *)

Section devices.
Context {chan : Type → Type} `{!Flume chan}.

Record Devices : Type := MkDevices {
  devices : gmap nat (Sink chan);
  next_device_id : nat;
}.

(** [opened] is the OS opening the file to append to. *)
Definition device_open (opened : string → option string) (path : option string) (d : Devices)
  : result nat * Devices :=
  match path with
  | None | Some "" =>
      (Ok (next_device_id d), MkDevices (<[next_device_id d := sink_new]> (devices d)) (S (next_device_id d)))
  | Some p =>
      match opened p with
      | Some e => (Err (RuntimeError ("Kino::Logger::Device: cannot open " +:+ p +:+ ": " +:+ e)), d)
      | None =>
          (Ok (next_device_id d), MkDevices (<[next_device_id d := sink_new]> (devices d)) (S (next_device_id d)))
      end
  end.

Definition device_write (id : nat) (message : string) (d : Devices) : Devices :=
  MkDevices (alter (write_line (trim_end_lf message)) id (devices d)) (next_device_id d).

(** The closed sink, whose flusher goes on by itself, leaves the registry. *)
Definition device_close (id : nat) (d : Devices) : option (Sink chan) * Devices :=
  (sink_drop <$> devices d !! id, MkDevices (delete id (devices d)) (next_device_id d)).
End devices.
Arguments Devices : clear implicits.

(** ** Nothing taken is lost *)

Section sink_proofs.
Context {chan : Type → Type} `{!Flume chan, !FlumeSpec chan}.
Implicit Types (k : Sink chan).

Lemma text_of_app a b : text_of (a ++ b) = text_of a +:+ text_of b.
Proof. unfold text_of. by rewrite fmap_app, str_concat_app. Qed.

Lemma text_of_cons l log : text_of (l :: log) = l +:+ nl +:+ text_of log.
Proof. unfold text_of. cbn [fmap list_fmap str_concat]. by rewrite append_assoc. Qed.

Lemma text_of_one l : text_of [l] = l +:+ nl.
Proof. rewrite text_of_cons. cbn [text_of fmap list_fmap str_concat]. by rewrite append_nil_r. Qed.

Lemma sink_inv_new : sink_inv (sink_new : Sink chan, []).
Proof.
  destruct (bounded_spec (chan := chan) string SINK_DEPTH) as (H1 & H2 & H3 & H4).
  unfold sink_inv, sink_new. cbn [lines fl written flushed]. rewrite H1.
  split_and!; try done. apply chan_ok_bounded. unfold SINK_DEPTH. lia.
Qed.

Lemma sink_inv_turn k k' log : flusher_turn k = Some k' → sink_inv (k, log) → sink_inv (k', log).
Proof.
  intros Ht (Hok & Hcap & Hrx & Htxt & Hfl). unfold flusher_turn in Ht.
  destruct (try_recv (lines k)) as [r q] eqn:Er.
  pose proof (chan_ok_try_recv _ _ _ Hok Er) as Hok'.
  destruct (try_recv_cases _ _ _ Er) as [(x & l & -> & Hc & Hl & Hcap' & Hs & Hr)|[(-> & -> & Hc & Hs)|(-> & -> & Hc & Hs)]].
  - assert (k' = put x q k) as -> by (destruct (fl k); congruence). unfold sink_inv. cbn.
    split_and!; [done|congruence|congruence| |done].
    rewrite Htxt, Hc, Hl, text_of_cons, !append_assoc. done.
  - destruct (fl k); [done| |done]. injection Ht as <-. by split_and!.
  - destruct (fl k); [| |done]; injection Ht as <-; by split_and!.
Qed.

Lemma sink_inv_step (s s' : Sink chan * list string) : sink_step s s' → sink_inv s → sink_inv s'.
Proof.
  intros [line k log Htx|k k' log Ht|k log Htx]; [|by apply sink_inv_turn|].
  - intros (Hok & Hcap & Hrx & Htxt & Hfl). unfold write_line, took_line.
    assert (Hfl' : fl k ≠ FlExit) by (intros E; rewrite E in Hfl; tauto).
    destruct (try_send line (lines k)) as [r q] eqn:Es. cbn [snd].
    pose proof (chan_ok_try_send _ _ _ _ Hok Es) as Hok'.
    destruct (try_send_cases _ _ _ _ (proj1 Hok) Es)
      as [(-> & _ & Hlt & Hl & Hc & Hs & Hr)|[(-> & -> & _)|(-> & -> & ?)]];
      unfold sink_inv; cbn; split_and!; try done; try congruence.
    + by rewrite Hl, !text_of_app, Htxt, append_assoc.
    + by destruct (fl k).
  - intros (Hok & Hcap & Hrx & Htxt & Hfl). unfold sink_inv, sink_drop. cbn [lines fl written flushed].
    unfold chan_ok in *. autorewrite with kino_chan. split_and!; try done; [apply Hok|apply Hok|].
    destruct (fl k); [done|done|]. tauto.
Qed.

(** What the flusher left to itself comes to: [text] flushed, nothing queued,
    and gone if the sender is. *)
Definition settled (k k' : Sink chan) (text : string) : Prop :=
  contents (lines k') = [] ∧ flushed k' = text
  ∧ (senders (lines k) = 0%nat → fl k' = FlExit) ∧ senders (lines k') = senders (lines k).

Lemma run_flusher_idle n k :
  fl k = FlWait → contents (lines k) = [] → flushed k = written k →
  settled k (run_flusher (S n) k) (written k).
Proof.
  intros Hp Hc Hf. cbn [run_flusher]. unfold flusher_turn. rewrite Hp.
  destruct (decide (senders (lines k) = 0%nat)) as [Hs|Hs].
  - rewrite try_recv_disconnected by done. by destruct n.
  - rewrite try_recv_empty by done. by split_and!.
Qed.

Lemma run_flusher_nil n k log :
  sink_inv (k, log) → contents (lines k) = [] → settled k (run_flusher (S (S n)) k) (written k).
Proof.
  intros (_ & _ & _ & _ & Hfl) Hc. destruct (fl k) eqn:Hp; [by apply run_flusher_idle| |].
  - assert (Ht : flusher_turn k = Some (flush FlWait k)).
    { unfold flusher_turn. rewrite Hp. destruct (decide (senders (lines k) = 0%nat)).
      - by rewrite try_recv_disconnected.
      - by rewrite try_recv_empty. }
    rewrite (ltac:(cbn [run_flusher]; by rewrite Ht) :
      run_flusher (S (S n)) k = run_flusher (S n) (flush FlWait k)).
    by apply (run_flusher_idle n (flush FlWait k)).
  - cbn [run_flusher]. unfold flusher_turn. rewrite Hp. split_and!; [done|by apply Hfl|done|done].
Qed.

Lemma run_flusher_done fuel k log l :
  sink_inv (k, log) → contents (lines k) = l → (length l + 2 ≤ fuel)%nat →
  settled k (run_flusher fuel k) (written k +:+ text_of l).
Proof.
  revert fuel k. induction l as [|x l IH]; intros fuel k Hi Hc Hf.
  - destruct fuel as [|[|fuel]]; [cbn in Hf; lia..|]. unfold text_of. cbn [fmap list_fmap str_concat].
    rewrite append_nil_r. by eapply run_flusher_nil.
  - destruct fuel as [|fuel]; [cbn in Hf; lia|]. cbn [run_flusher].
    destruct (try_recv_ok _ _ _ _ Hc) as (q & Er & Hl & _ & Hs & _).
    assert (Ht : flusher_turn k = Some (put x q k)).
    { unfold flusher_turn. rewrite Er. destruct (fl k) eqn:Hp; [done|done|].
      destruct Hi as (_ & _ & _ & _ & Hfl). rewrite Hp in Hfl. rewrite Hc in Hfl. naive_solver. }
    rewrite Ht. destruct (IH fuel (put x q k) (sink_inv_turn _ _ _ Ht Hi) Hl ltac:(cbn in Hf; lia))
      as (H1 & H2 & H3 & H4). cbn [written put lines] in *.
    split_and!; [done| |by rewrite <-Hs|by rewrite H4]. by rewrite H2, text_of_cons, !append_assoc.
Qed.
End sink_proofs.



(** ** Devices *)

(** A device takes every message line-wise, trailing newlines trimmed, until
    it is closed; after that the id means nothing, and the other devices are
    never affected. Ids are never reused. *)
Lemma device_write_other {chan} `{!Flume chan} i j message (d : Devices chan) :
  i ≠ j → devices (device_write i message d) !! j = devices d !! j.
Proof. intros Hij. cbn. by rewrite lookup_alter_ne. Qed.

Lemma device_write_closed {chan} `{!Flume chan} i message (d : Devices chan) :
  devices (device_write i message (device_close i d).2) !! i = None.
Proof. cbn. by rewrite lookup_alter_eq, lookup_delete_eq. Qed.
