(* ===== verification/AccessLog.v ===== *)
(** What the server writes to the terminal: ANSI styling ([style.rs]), the
    access log's records ([access_log.rs]) and the server log's lines
    ([log.rs]). *)

From S2P Require Import Prelude Text Floats Gvl Response Request.
From Stdlib Require Import Ascii.

(** ** Durations in seconds *)

(** [Duration::as_secs_f64], of a duration in nanoseconds. *)
Definition as_secs_f64 (ns : Z) : f64 :=
  f64_add (f64_of (ns / 1000000000)) (f64_div (f64_of (ns mod 1000000000)) (f64_of 1000000000)).

Definition millis (ns : Z) : f64 := f64_mul (as_secs_f64 ns) (f64_of 1000).

(** ** Styling *)

Definition csi (code : string) : string := String esc ("[" +:+ code +:+ "m").

Definition sgr (code text : string) (color : bool) : string :=
  if color then csi code +:+ text +:+ csi "0" else text.

Definition DIM : string := "90".
Definition BOLD_WHITE : string := "1;97".
Definition WARN : string := "33".
Definition ERROR : string := "91".

Definition status_sgr (status : Z) : option string :=
  if (200 <=? status) && (status <=? 299) then Some "1;32"
  else if (300 <=? status) && (status <=? 399) then Some "1;33"
  else if (400 <=? status) && (status <=? 499) then Some "1;31"
  else if (500 <=? status) && (status <=? 599) then Some "1;91"
  else None.

(** What a terminal shows: escape sequences, from ESC to the closing [m], are
    not text. *)
Fixpoint shown_from (escaped : bool) (s : string) : string :=
  match s with
  | "" => ""
  | String c s =>
      if escaped then shown_from (negb (Ascii.eqb c "m"%char)) s
      else if Ascii.eqb c esc then shown_from true s
      else String c (shown_from false s)
  end.

Definition shown : string → string := shown_from false.

(** ** Access-log records *)

(** [Display] of an address; an IPv6 address carries its text. *)
Definition display_ip (a : IpAddr) : string :=
  match a with
  | V4 a b c d => str_join "." [display a; display b; display c; display d]
  | V6 text => text
  end.

(** UTF-8 of the arrows. *)
Definition right_arrow : string :=
  String "226"%char (String "134"%char (String "146"%char "")).
Definition left_arrow : string :=
  String "226"%char (String "134"%char (String "144"%char "")).

Definition arrival_line (method target : string) (ip : IpAddr) : string :=
  right_arrow +:+ " " +:+ method +:+ " " +:+ target +:+ "  from " +:+ display_ip ip.

Definition completion_line (status : Z) (method target : string) (total : Z) : string :=
  left_arrow +:+ " " +:+ display status +:+ " " +:+ method +:+ " " +:+ target +:+ "  "
  +:+ fmt_1 (millis total) +:+ "ms".

Definition write_count (n : Z) : string :=
  if n <? 1000 then display n
  else if n <? 10000 then fmt_1 (f64_div (f64_of n) (f64_of 1000)) +:+ "k"
  else display (n / 1000) +:+ "k".

(** The server's own share of the total. *)
Definition kino_share (total : Z) (t : Timing) : Z := sat_sub (sat_sub total (t_ruby t)) (t_wait t).

Definition write_breakdown (total : Z) (t : Timing) : string :=
  "(ruby " +:+ fmt_1 (millis (t_ruby t)) +:+ "ms"
  +:+ match t_gc t with
      | Some (gc, allocs) => " [gc " +:+ fmt_1 (millis gc) +:+ "ms; " +:+ write_count allocs +:+ " obj]"
      | None => ""
      end
  +:+ "; kino " +:+ fmt_1 (millis (kino_share total t)) +:+ "ms; wait "
  +:+ fmt_1 (millis (t_wait t)) +:+ "ms)".

(** [stamp] is the local wall clock, formatted by the jiff crate. *)
Definition stamped (stamp record : string) (color : bool) : string :=
  sgr DIM stamp color +:+ " " +:+ record.

Definition arrival (stamp : string) (color : bool) (method target : string) (ip : IpAddr) : string :=
  stamped stamp (sgr BOLD_WHITE (arrival_line method target ip) color) color.

Definition completion (stamp : string) (color : bool) (status : Z) (method target : string)
    (total : Z) (timing : option Timing) : string :=
  let record := completion_line status method target total in
  let record := match status_sgr status with Some code => sgr code record color | None => record end in
  stamped stamp record color
  +:+ match timing with
      | Some t => " " +:+ sgr DIM (write_breakdown total t) color
      | None => ""
      end
  +:+ nl.

(** ** Server log lines *)

Inductive Level : Type := Info | Warn | LevelError.

Definition parse (name : string) : option Level :=
  if String.eqb name "info" then Some Info
  else if String.eqb name "warn" then Some Warn
  else if String.eqb name "error" then Some LevelError
  else None.

Inductive Stream : Type := Stdout | Stderr.

Definition stream (l : Level) : Stream :=
  match l with
  | Info => Stdout
  | Warn | LevelError => Stderr
  end.

Definition level_sgr (l : Level) : string :=
  match l with
  | Info => DIM
  | Warn => WARN
  | LevelError => ERROR
  end.

Definition label (pid : Z) (source : string) : string :=
  "kino[" +:+ display pid +:+ "] " +:+ source +:+ ":".

Definition format_line (l : Level) (label message : string) (color : bool) : string :=
  sgr (level_sgr l) label color +:+ " " +:+ message.

(** Which stream gets what; [colors] says which streams are color terminals. *)
Definition emit (colors : Stream → bool) (pid : Z) (l : Level) (source message : string)
  : Stream * string :=
  (stream l, format_line l (label pid source) message (colors (stream l)) +:+ nl).

(** [debug] is [Debug]'s quoting, for the error message. *)
Definition log_line (debug : string → string) (colors : Stream → bool) (pid : Z)
    (level source message : string) : result (Stream * string) :=
  match parse level with
  | Some l => Ok (emit colors pid l source message)
  | None => Err (ArgError ("unknown log level " +:+ debug level))
  end.

(** ** Colour is only colour *)

Lemma shown_plain a b : lacks esc a = true → shown (a +:+ b) = a +:+ shown b.
Proof.
  unfold shown, lacks. induction a as [|c a IH]; cbn -[esc]; [done|].
  intros [Hc Ha]%andb_prop. apply negb_true_iff in Hc. rewrite Hc. by rewrite IH.
Qed.

Lemma shown_escaped code b : lacks "m"%char code = true → shown_from true (code +:+ "m" +:+ b) = shown b.
Proof.
  unfold lacks. induction code as [|c code IH]; cbn; [done|].
  intros [Hc Ha]%andb_prop. rewrite Hc. by apply IH.
Qed.

Lemma shown_csi code b : lacks "m"%char code = true → shown (csi code +:+ b) = shown b.
Proof. intros Hc. unfold csi. cbn. rewrite append_assoc. by apply shown_escaped. Qed.

Lemma shown_sgr code text color b :
  lacks "m"%char code = true → lacks esc text = true →
  shown (sgr code text color +:+ b) = text +:+ shown b.
Proof.
  intros Hc Ht. unfold sgr. destruct color; [|by apply shown_plain].
  by rewrite !append_assoc, shown_csi, shown_plain, shown_csi.
Qed.

Lemma lacks_append c a b : lacks c (a +:+ b) = lacks c a && lacks c b.
Proof. apply str_all_append. Qed.

Lemma display_no_esc n : lacks esc (display n) = true.
Proof. by apply display_lacks. Qed.

Lemma fmt_1_no_esc x : lacks esc (fmt_1 x) = true.
Proof. unfold fmt_1. by rewrite !lacks_append, !display_no_esc. Qed.

Lemma write_count_no_esc n : lacks esc (write_count n) = true.
Proof.
  unfold write_count. repeat case_match; by rewrite ?lacks_append, ?display_no_esc, ?fmt_1_no_esc.
Qed.

Lemma completion_line_no_esc status method target total :
  lacks esc method = true → lacks esc target = true →
  lacks esc (completion_line status method target total) = true.
Proof.
  intros Hm Ht. unfold completion_line.
  by rewrite !lacks_append, display_no_esc, fmt_1_no_esc, Hm, Ht.
Qed.

Lemma write_breakdown_no_esc total t : lacks esc (write_breakdown total t) = true.
Proof.
  unfold write_breakdown. destruct (t_gc t) as [[gc allocs]|];
    by rewrite !lacks_append, ?write_count_no_esc, !fmt_1_no_esc.
Qed.

Lemma status_sgr_code status code : status_sgr status = Some code → lacks "m"%char code = true.
Proof. unfold status_sgr. repeat case_match; intros; by simplify_eq. Qed.

(** Colouring a completion record changes nothing a reader sees: with
    the escape sequences taken away, the record is the uncoloured one, and
    reads: stamp, arrow, status, method, target, total, breakdown, and the
    newline that sets it apart. In the breakdown the server's own time is what
    the worker and the queue leave of the total, never negative. *)
Theorem completion_colour_transparent stamp color status method target total timing :
  lacks esc stamp = true → lacks esc method = true → lacks esc target = true →
  shown (completion stamp color status method target total timing)
  = stamp +:+ " " +:+ completion_line status method target total
    +:+ match timing with Some t => " " +:+ write_breakdown total t | None => "" end +:+ nl
  ∧ ∀ t, timing = Some t → 0 ≤ t_ruby t → 0 ≤ t_wait t → t_ruby t + t_wait t ≤ total →
      t_ruby t + kino_share total t + t_wait t = total.
Proof.
  intros Hs Hm Ht. pose proof (completion_line_no_esc status method target total Hm Ht) as Hl.
  split; [|intros t _ ? ? ?; unfold kino_share, sat_sub; lia].
  unfold completion, stamped. rewrite !append_assoc, shown_sgr by done. f_equal.
  rewrite (shown_plain " ") by done. f_equal.
  assert (Htail : shown (match timing with
                         | Some t => " " +:+ sgr DIM (write_breakdown total t) color
                         | None => "" end +:+ nl)
                  = match timing with Some t => " " +:+ write_breakdown total t | None => "" end +:+ nl).
  { destruct timing as [t|]; [|done]. rewrite append_assoc, (shown_plain " ") by done.
    rewrite shown_sgr by (done || apply write_breakdown_no_esc). by rewrite append_assoc. }
  destruct (status_sgr status) as [code|] eqn:Hc.
  - apply status_sgr_code in Hc. rewrite shown_sgr by done. by rewrite Htail.
  - rewrite shown_plain by done. by rewrite Htail.
Qed.

Example completion_colour_transparent_witness :
  shown (completion "now" true 200 "GET" "/" 12400000 (Some (MkTiming 100000 9100000 (Some (800000, 1500)))))
  = "now " +:+ left_arrow
    +:+ " 200 GET /  12.4ms (ruby 9.1ms [gc 0.8ms; 1.5k obj]; kino 3.2ms; wait 0.1ms)" +:+ nl.
Proof.
  rewrite (proj1 (completion_colour_transparent "now" true 200 "GET" "/" 12400000
    (Some (MkTiming 100000 9100000 (Some (800000, 1500)))) eq_refl eq_refl eq_refl)).
  vm_compute. reflexivity.
Defined.
