(* ===== verification/Support.v ===== *)
(** The small native services: the interruptible sleep ([timer.rs]), panics in
    blocking calls ([gvl.rs]), the monotonic clock ([mono.rs]), the CPU count
    ([cpus.rs]) and the colour switch ([style.rs]). *)

From S2P Require Import Prelude Text Floats Gvl AccessLog.

(** ** Panics in blocking calls *)

(** The payload of a caught panic, as its downcasts see it. *)
Inductive payload : Type :=
  | PanicStr (message : string)
  | PanicString (message : string)
  | PanicOpaque.

Definition panic_error (p : payload) : Error :=
  RuntimeError ("Kino: panic in native blocking call: " +:+
    match p with
    | PanicStr m | PanicString m => m
    | PanicOpaque => "opaque panic payload"
    end).

(** The block either returns or panics; nothing unwinds into the VM. *)
Definition without_gvl {R : Type} (run : payload + R) : result R :=
  match run with
  | inr value => Ok value
  | inl p => Err (panic_error p)
  end.

(** The VM's callback and its argument, as [without_gvl] passes them: the
    block to run, and what it left. *)
Definition gvl_slot (R : Type) : Type := option (payload + R) * option (payload + R).

(** [None]: the block is run a second time. *)
Definition trampoline {R : Type} (slot : gvl_slot R) : option (gvl_slot R) :=
  match slot.1 with
  | Some run => Some (None, Some run)
  | None => None
  end.

(** Run once by the VM, the callback leaves what [without_gvl] returns, and
    cannot be run again. *)
Lemma trampoline_once {R : Type} (run : payload + R) :
  ∃ slot r, trampoline (Some run, None) = Some slot ∧ slot.2 = Some r
    ∧ without_gvl r = without_gvl run ∧ trampoline slot = None.
Proof. by do 2 eexists. Qed.

(** The unblock function raises the flag, whatever it was. *)
Definition ubf_interrupt (flag : bool) : bool := true.

(** ** Sleeping *)

Definition TICK : Z := 50 * 1000000.

Definition is_finite (x : f64) : bool :=
  match x with S754_zero _ | S754_finite _ _ _ => true | _ => false end.

Definition is_negative (x : f64) : bool :=
  match x with S754_finite true _ _ => true | S754_infinity true => true | _ => false end.

Definition nanos_per_sec : Z := 1000000000.

(** [Duration::from_secs_f64] in nanoseconds, rounded to the nearest, ties to
    even; [None] is its panic, when the seconds do not fit 64 bits. *)
Definition from_secs_f64 (x : f64) : option Z :=
  match x with
  | S754_zero _ => Some 0
  | S754_finite false m e =>
      let ns := if 0 <=? e then Z.pos m * 2 ^ e * nanos_per_sec
                else div_pow2_even (Z.pos m * nanos_per_sec) (Z.to_nat (- e)) in
      if ns <? u64_modulus * nanos_per_sec then Some ns else None
  | _ => None
  end.

Inductive sleep_outcome : Type :=
  | SleepRaises (e : Error)
  | SleepPanics
  | SleepDone (remaining : Z) (now : Z).

(** The loop with the GVL released: [os_sleep now d] is when a sleep of [d]
    begun at [now] is over, [flag] whether the interrupt flag is up then. *)
Fixpoint sleep_loop (fuel : nat) (os_sleep : Z → Z → Z) (flag : Z → bool) (deadline now : Z) : option Z :=
  match fuel with
  | O => None
  | S fuel =>
      if flag now then Some now
      else if deadline <=? now then Some now
      else sleep_loop fuel os_sleep flag deadline (os_sleep now (deadline - now))
  end.

Definition sleep_fuel : nat := 2.

(** [None]: still asleep. The remaining time is in nanoseconds; Ruby gets it
    in seconds ([as_secs_f64]). *)
Definition sleep_chunk (os_sleep : Z → Z → Z) (flag : Z → bool) (now : Z) (seconds : f64)
  : option sleep_outcome :=
  if negb (is_finite seconds) || is_negative seconds
  then Some (SleepRaises (ArgError "sleep duration must be a non-negative number"))
  else
    match from_secs_f64 seconds with
    | None => Some SleepPanics
    | Some requested =>
        let chunk := Z.min requested TICK in
        match sleep_loop sleep_fuel os_sleep flag (now + chunk) now with
        | Some now => Some (SleepDone (sat_sub requested chunk) now)
        | None => None
        end
    end.

Lemma from_secs_f64_nonneg x ns : from_secs_f64 x = Some ns → 0 ≤ ns.
Proof.
  unfold from_secs_f64. destruct x as [| | |[] m e]; try done; [intros [= <-]; lia|].
  destruct (Z.leb_spec 0 e) as [He|He].
  - case_match; [|done]. intros [= <-].
    pose proof (Z.pow_nonneg 2 e ltac:(lia)). unfold nanos_per_sec. nia.
  - case_match; [|done]. intros [= <-]. apply div_pow2_even_nonneg. unfold nanos_per_sec. lia.
Qed.

(** A finite non-negative number either is a duration or makes the conversion
    panic; nothing else does. *)
Lemma sleep_chunk_total os_sleep flag now seconds :
  (∀ t d, 0 ≤ d → t + d ≤ os_sleep t d) →
  is_Some (sleep_chunk os_sleep flag now seconds).
Proof.
  intros Hos. unfold sleep_chunk. destruct (_ || _); [done|].
  destruct (from_secs_f64 seconds) as [ns|] eqn:E; [|done].
  cbn [sleep_loop sleep_fuel]. destruct (flag now); [done|].
  destruct (Z.leb_spec (now + Z.min ns TICK) now) as [Hl|Hl]; [done|].
  set (t := os_sleep now _). destruct (flag t); [done|].
  assert (now + Z.min ns TICK ≤ t).
  { pose proof (Hos now (now + Z.min ns TICK - now) ltac:(lia)). subst t. lia. }
  by rewrite (proj2 (Z.leb_le _ _)).
Qed.

(** One chunk of a sleep. A duration that is negative, infinite or
    not a number raises; one that fits sleeps at most one interrupt tick, no
    less unless interrupted, and reports what is left of it to the
    nanosecond: nothing once the whole of it fits a tick, else less by
    exactly a tick, so that the caller's loop ends. The chunk always comes
    back, an interruption before it starts at once. *)
Theorem sleep_chunk_spec os_sleep flag now seconds :
  (∀ t d, 0 ≤ d → t + d ≤ os_sleep t d) →
  (is_finite seconds = false ∨ is_negative seconds = true →
   ∃ e, sleep_chunk os_sleep flag now seconds = Some (SleepRaises (ArgError e)))
  ∧ (∀ ns, is_negative seconds = false → from_secs_f64 seconds = Some ns →
       ∃ fin, sleep_chunk os_sleep flag now seconds
                = Some (SleepDone (if ns <=? TICK then 0 else ns - TICK) fin)
              ∧ (flag now = true → fin = now)
              ∧ ((∀ t, flag t = false) → now + Z.min ns TICK ≤ fin)).
Proof.
  intros Hos. split.
  - intros H. unfold sleep_chunk. exists "sleep duration must be a non-negative number".
    destruct H as [-> | ->]; [done|]. by rewrite orb_true_r.
  - intros ns Hneg Hns. destruct (sleep_chunk_total os_sleep flag now seconds Hos) as [o Ho].
    pose proof (from_secs_f64_nonneg _ _ Hns) as Hpos.
    unfold sleep_chunk in *. rewrite Hneg, Hns in Ho |- *.
    assert (is_finite seconds = true) as Hfin by (by destruct seconds).
    rewrite Hfin in Ho |- *. cbn [negb orb] in *.
    destruct (sleep_loop sleep_fuel os_sleep flag (now + Z.min ns TICK) now) as [fin|] eqn:El; [|done].
    exists fin. split; [do 2 f_equal; unfold sat_sub; destruct (Z.leb_spec ns TICK); lia|].
    cbn [sleep_loop sleep_fuel] in El. split; intros Hf.
    + rewrite Hf in El. by simplify_eq.
    + rewrite !Hf in El. destruct (Z.leb_spec (now + Z.min ns TICK) now); [simplify_eq; lia|].
      destruct (Z.leb_spec (now + Z.min ns TICK) (os_sleep now (now + Z.min ns TICK - now))); simplify_eq; lia.
Qed.

Example sleep_chunk_spec_witness :
  sleep_chunk Z.add (λ _, false) 0 (f64_of 2) = Some (SleepDone (2000000000 - TICK) TICK).
Proof.
  destruct (sleep_chunk_spec Z.add (λ _, false) 0 (f64_of 2) ltac:(lia)) as [_ H].
  destruct (H 2000000000 ltac:(reflexivity) ltac:(vm_compute; reflexivity)) as (fin & E & _).
  vm_compute in E. injection E as <-. reflexivity.
Defined.

(** A finite duration past 64 bits of seconds passes the check and panics. *)
Example sleep_chunk_panics :
  sleep_chunk Z.add (λ _, false) 0 (f64_of (10 ^ 20)) = Some SleepPanics.
Proof. vm_compute. reflexivity. Qed.

(** ** The monotonic clock *)

(** The epoch is the first call's instant (nanoseconds). *)
Definition mono_ms (instant : Z) (epoch : option Z) : Z * option Z :=
  let e := default instant epoch in (wrap64 ((instant - e) / 1000000), Some e).

(** ** CPUs and colours *)

Definition count (available_parallelism : option Z) : Z := default 1 available_parallelism.

(** What the process sees of its terminal, and the answers remembered. *)
Record Terminal : Type := MkTerminal {
  stdout_tty : bool;
  stderr_tty : bool;
  no_color : bool;
  term : option string;
}.

Record Remembered : Type := MkRemembered {
  stdout_on : option bool;
  stderr_on : option bool;
}.

Definition env_ok (t : Terminal) : bool :=
  negb (no_color t) && match term t with Some v => negb (String.eqb v "dumb") | None => true end.

Definition enabled (s : Stream) (t : Terminal) (m : Remembered) : bool * Remembered :=
  match s with
  | Stdout =>
      let b := default (stdout_tty t && env_ok t) (stdout_on m) in (b, MkRemembered (Some b) (stderr_on m))
  | Stderr =>
      let b := default (stderr_tty t && env_ok t) (stderr_on m) in (b, MkRemembered (stdout_on m) (Some b))
  end.

(** The answer is given once and for all, whatever becomes of the terminal. *)
Lemma enabled_once s t t' m : (enabled s t' (enabled s t m).2).1 = (enabled s t m).1.
Proof. by destruct s. Qed.

Lemma mono_ms_monotone i j : i ≤ j → j - i < u64_modulus →
  let '(a, e) := mono_ms i None in let '(b, _) := mono_ms j e in a ≤ b.
Proof.
  intros Hij Hmax. unfold mono_ms. cbn [default from_option]. cbn. rewrite Z.sub_diag.
  assert (0 ≤ (j - i) / 1000000 ≤ j - i).
  { split; [apply Z.div_pos; lia|apply Z.div_le_upper_bound; lia]. }
  rewrite !wrap64_small; [|unfold u64_ok; lia|done]. apply Z.div_le_mono; lia.
Qed.
