(* ===== verification/EnvStrings.v ===== *)
(** The string caches of the Rack env ([env_strings.rs]): the CGI key names,
    the frozen tables, and the three LRU caches whose strings are rooted in a
    slab so that the garbage collector sees them while an entry lives. *)

From S2P Require Import Prelude Text Gvl Request.
From S2P Require Pin AccessLog.
From Stdlib Require Import Ascii.

(** ** Tables *)

Definition HOST_CACHE_CAP : nat := 256.
Definition ADDR_CACHE_CAP : nat := Z.to_nat 1024.
Definition VALUE_CACHE_CAP : nat := Z.to_nat 512.

Definition CACHE_SLAB_CAPACITY : nat :=
  (HOST_CACHE_CAP + 1) * 3 + (ADDR_CACHE_CAP + 1) + (VALUE_CACHE_CAP + 1).

Definition VALUE_INTERN_MAX_LEN : nat := Z.to_nat 512.

Definition INTERNABLE_VALUES : list string :=
  ["user-agent"; "accept"; "accept-encoding"; "accept-language"; "cache-control"; "dnt"; "origin";
   "pragma"; "priority"; "sec-ch-ua"; "sec-ch-ua-mobile"; "sec-ch-ua-platform"; "sec-fetch-dest";
   "sec-fetch-mode"; "sec-fetch-site"; "sec-fetch-user"; "upgrade-insecure-requests";
   "x-requested-with"].

Definition COMMON_METHODS : list string :=
  ["GET"; "HEAD"; "POST"; "PUT"; "DELETE"; "PATCH"; "OPTIONS"; "TRACE"; "CONNECT"].

Definition COMMON_HEADERS : list string :=
  ["host"; "connection"; "user-agent"; "accept"; "accept-encoding"; "accept-language";
   "accept-charset"; "cookie"; "referer"; "origin"; "authorization"; "cache-control"; "pragma";
   "expect"; "forwarded"; "via"; "range"; "te"; "dnt"; "upgrade-insecure-requests";
   "if-none-match"; "if-modified-since"; "if-match"; "if-unmodified-since"; "if-range";
   "x-forwarded-for"; "x-forwarded-proto"; "x-forwarded-host"; "x-forwarded-port"; "x-real-ip";
   "x-request-id"; "x-requested-with"; "x-csrf-token"; "x-api-key"; "content-encoding";
   "content-language"; "sec-fetch-dest"; "sec-fetch-mode"; "sec-fetch-site"; "sec-fetch-user";
   "sec-ch-ua"; "sec-ch-ua-mobile"; "sec-ch-ua-platform"; "keep-alive"; "priority"; "alt-used"].

Definition cgi_char (c : ascii) : ascii :=
  if Ascii.eqb c "-"%char then "_"%char else to_ascii_uppercase c.

Fixpoint map_chars (f : ascii → ascii) (s : string) : string :=
  match s with
  | "" => ""
  | String c s => String (f c) (map_chars f s)
  end.

Definition cgi_name (lower : string) : string := "HTTP_" +:+ map_chars cgi_char lower.

(** [header_names] of the static table. *)
Definition header_names : list (string * string) := (λ h, (h, cgi_name h)) <$> COMMON_HEADERS.

Definition find_header (name : string) : option string :=
  snd <$> List.find (λ p, String.eqb p.1 name) header_names.

(** ** LRU caches

    What the code relies on of the [lru] crate: a bounded map whose lookup
    returns the entry under a key (and may reorder), whose [put] of a new key
    adds an entry and drops another when full, and whose [get_mut] lets an
    entry be written. *)

Class Lru (lru : Type → Type → Type) : Type := {
  lru_new {K V} : nat → lru K V;
  lru_get {K V} `{EqDecision K} : K → lru K V → option V * lru K V;
  lru_put {K V} `{EqDecision K} : K → V → lru K V → list (K * V) * lru K V;
  lru_set {K V} `{EqDecision K} : K → V → lru K V → lru K V;
  lru_entries {K V} : lru K V → list (K * V);
  lru_cap {K V} : lru K V → nat;
}.
#[global] Hint Mode Lru ! : typeclass_instances.

Class LruSpec (lru : Type → Type → Type) `{!Lru lru} : Prop := {
  lru_new_spec K V n : lru_entries (lru_new n : lru K V) = [] ∧ lru_cap (lru_new n : lru K V) = n;
  lru_get_spec K V `{EqDecision K} (k : K) (c : lru K V) :
    lru_entries (lru_get k c).2 ≡ₚ lru_entries c ∧ lru_cap (lru_get k c).2 = lru_cap c
    ∧ match (lru_get k c).1 with
      | Some v => (k, v) ∈ lru_entries c
      | None => k ∉ (lru_entries c).*1
      end;
  lru_put_spec K V `{EqDecision K} (k : K) (v : V) (c : lru K V) :
    k ∉ (lru_entries c).*1 → (length (lru_entries c) ≤ lru_cap c)%nat →
    lru_entries (lru_put k v c).2 ++ (lru_put k v c).1 ≡ₚ (k, v) :: lru_entries c
    ∧ lru_cap (lru_put k v c).2 = lru_cap c
    ∧ (length (lru_entries (lru_put k v c).2) ≤ lru_cap c)%nat;
  lru_set_spec K V `{EqDecision K} (k : K) (v v' : V) rest (c : lru K V) :
    lru_entries c ≡ₚ (k, v) :: rest → k ∉ rest.*1 →
    lru_entries (lru_set k v' c) ≡ₚ (k, v') :: rest ∧ lru_cap (lru_set k v' c) = lru_cap c;
}.

(** An LRU list, the most recent entry first. *)
Module ListLru.
Record t (K V : Type) : Type := Mk {
  items : list (K * V);
  cap : nat;
}.
Arguments Mk {K V}.
Arguments items {K V}.
Arguments cap {K V}.

Section ops.
Context {K V : Type} `{EqDecision K}.
Implicit Types (c : t K V).

Definition get (k : K) c : option V * t K V :=
  match list_find (λ p, p.1 = k) (items c) with
  | Some (i, (k, v)) => (Some v, Mk ((k, v) :: delete i (items c)) (cap c))
  | None => (None, c)
  end.

Definition put (k : K) (v : V) c : list (K * V) * t K V :=
  let l := (k, v) :: items c in (drop (cap c) l, Mk (take (cap c) l) (cap c)).

Definition set (k : K) (v : V) c : t K V :=
  match list_find (λ p, p.1 = k) (items c) with
  | Some (i, _) => Mk ((k, v) :: delete i (items c)) (cap c)
  | None => c
  end.
End ops.

#[export] Instance lru : Lru t := {
  lru_new K V n := Mk [] n;
  lru_get K V _ := get;
  lru_put K V _ := put;
  lru_set K V _ := set;
  lru_entries := @items;
  lru_cap := @cap;
}.

Lemma delete_perm {A} (l : list A) i x : l !! i = Some x → x :: delete i l ≡ₚ l.
Proof. intros Hi. symmetry. by apply delete_Permutation. Qed.

#[export] Instance spec : LruSpec t.
Proof.
  split; cbn -[take drop].
  - done.
  - intros K V ? k c. unfold get. destruct (list_find _ (items c)) as [[i [k' v]]|] eqn:E; cbn.
    + apply list_find_Some in E as (Hi & <- & _). cbn. split_and!; [by apply delete_perm|done|].
      by eapply list_elem_of_lookup_2.
    + split_and!; [done..|]. intros Hk. apply list_elem_of_fmap in Hk as ([k' v] & -> & Hin).
      apply list_find_None in E. rewrite Forall_forall in E. by apply (E _ Hin).
  - intros K V ? k v c Hk Hl. unfold put. cbn -[take drop]. split_and!; [|done|].
    + by rewrite take_drop.
    + rewrite length_take. lia.
  - intros K V ? k v v' rest c Hp Hk. unfold set.
    destruct (list_find _ (items c)) as [[i [k' v0]]|] eqn:E; cbn.
    + apply list_find_Some in E as (Hi & Hkk & _). cbn in Hkk. subst k'. split; [|done].
      apply perm_skip. pose proof (Permutation_trans (delete_perm _ _ _ Hi) Hp) as Hi'. clear Hi.
      assert (Hin : (k, v0) ∈ (k, v) :: rest) by (rewrite <-Hi'; left).
      apply elem_of_cons in Hin as [[= ->]|Hin]; [by apply Permutation_cons_inv in Hi'|].
      destruct Hk. apply list_elem_of_fmap. by exists (k, v0).
    + apply list_find_None in E. rewrite Forall_forall in E. exfalso.
      apply (E (k, v)); [rewrite Hp; left|done].
Qed.
End ListLru.

#[export] Existing Instance ListLru.lru.
#[export] Existing Instance ListLru.spec.

(** ** Rooted strings *)

(** A frozen Ruby string: its VALUE, its bytes, whether its encoding is
    binary. *)
Record RbStr : Type := MkRbStr {
  raw : Z;
  text : string;
  binary : bool;
}.

Record CachedStr : Type := MkCached {
  cs_value : RbStr;
  cs_slot : nat;
}.

Record HostEntry : Type := MkHostEntry {
  he_name : CachedStr;
  he_port : CachedStr;
  he_host : option CachedStr;
}.

Definition cached_root (s : RbStr) (sl : Pin.PinSlab) : option CachedStr * Pin.PinSlab :=
  match Pin.insert (raw s) sl with
  | (Some slot, sl) => (Some (MkCached s slot), sl)
  | (None, sl) => (None, sl)
  end.

Definition cached_drop (cs : CachedStr) (sl : Pin.PinSlab) : Pin.PinSlab := Pin.release (cs_slot cs) sl.

(** The strings rooted before one fails are dropped again. *)
Definition host_root (name port : RbStr) (host : option RbStr) (sl : Pin.PinSlab)
  : option HostEntry * Pin.PinSlab :=
  match cached_root name sl with
  | (None, sl) => (None, sl)
  | (Some n, sl) =>
      match cached_root port sl with
      | (None, sl) => (None, cached_drop n sl)
      | (Some p, sl) =>
          match host with
          | None => (Some (MkHostEntry n p None), sl)
          | Some host =>
              match cached_root host sl with
              | (None, sl) => (None, cached_drop n (cached_drop p sl))
              | (Some h, sl) => (Some (MkHostEntry n p (Some h)), sl)
              end
          end
      end
  end.

Definition host_strs (e : HostEntry) : list CachedStr :=
  he_name e :: he_port e :: option_list (he_host e).

Definition name_port (e : HostEntry) : RbStr * RbStr := (cs_value (he_name e), cs_value (he_port e)).

Definition fill_host (host : RbStr) (e : HostEntry) (sl : Pin.PinSlab) : RbStr * HostEntry * Pin.PinSlab :=
  match he_host e with
  | Some h => (cs_value h, e, sl)
  | None =>
      let '(h, sl) := cached_root host sl in
      (match h with Some h => cs_value h | None => host end, MkHostEntry (he_name e) (he_port e) h, sl)
  end.

Definition drop_all (l : list CachedStr) (sl : Pin.PinSlab) : Pin.PinSlab := foldr cached_drop sl l.

(** ** The caches *)

Record EnvCaches (lru : Type → Type → Type) : Type := MkCaches {
  next_raw : Z;
  slab : Pin.PinSlab;
  hosts : lru string HostEntry;
  addrs : lru IpAddr CachedStr;
  values : lru string CachedStr;
}.
Arguments MkCaches {lru}.
Arguments next_raw {lru}.
Arguments slab {lru}.
Arguments hosts {lru}.
Arguments addrs {lru}.
Arguments values {lru}.

#[export] Instance IpAddr_eq_dec : EqDecision IpAddr.
Proof. solve_decision. Defined.

Section caches.
Context {lru : Type → Type → Type} `{!Lru lru}.
Implicit Types (w : EnvCaches lru).

Definition caches_new : EnvCaches lru :=
  MkCaches 1 (Pin.with_capacity CACHE_SLAB_CAPACITY) (lru_new HOST_CACHE_CAP)
    (lru_new ADDR_CACHE_CAP) (lru_new VALUE_CACHE_CAP).

Definition set_slab (sl : Pin.PinSlab) w : EnvCaches lru :=
  MkCaches (next_raw w) sl (hosts w) (addrs w) (values w).
Definition set_hosts (c : lru string HostEntry) w : EnvCaches lru :=
  MkCaches (next_raw w) (slab w) c (addrs w) (values w).
Definition set_addrs (c : lru IpAddr CachedStr) w : EnvCaches lru :=
  MkCaches (next_raw w) (slab w) (hosts w) c (values w).
Definition set_values (c : lru string CachedStr) w : EnvCaches lru :=
  MkCaches (next_raw w) (slab w) (hosts w) (addrs w) c.

(** [str_new] and [str_from_slice], frozen: a fresh VALUE. *)
Definition fresh (s : string) (bin : bool) w : RbStr * EnvCaches lru :=
  (MkRbStr (next_raw w) s bin, MkCaches (next_raw w + 1) (slab w) (hosts w) (addrs w) (values w)).

Definition frozen_str (s : string) w : RbStr * EnvCaches lru := fresh s false w.
Definition frozen_slice (s : string) w : RbStr * EnvCaches lru := fresh s true w.

(** Rooting works on the slab alone. *)
Definition on_slab {A} (f : Pin.PinSlab → A * Pin.PinSlab) w : A * EnvCaches lru :=
  let '(x, sl) := f (slab w) in (x, set_slab sl w).

(** [race] is what other ractors do between the two times the lock is held. *)
Definition get_or_insert {K V T} `{EqDecision K} (cache : EnvCaches lru → lru K V)
    (set_cache : lru K V → EnvCaches lru → EnvCaches lru) (strs : V → list CachedStr)
    (race : EnvCaches lru → EnvCaches lru)
    (key : K) (read : V → T) (build : EnvCaches lru → T * EnvCaches lru)
    (root : T → Pin.PinSlab → option V * Pin.PinSlab) w : T * EnvCaches lru :=
  match lru_get key (cache w) with
  | (Some found, c) => (read found, set_cache c w)
  | (None, c) =>
      let '(new, w) := build (set_cache c w) in
      let w := race w in
      match lru_get key (cache w) with
      | (Some found, c) => (read found, set_cache c w)
      | (None, c) =>
          match on_slab (root new) (set_cache c w) with
          | (None, w) => (new, w)
          | (Some entry, w) =>
              let '(dropped, c) := lru_put key entry (cache w) in
              (new, set_slab (drop_all (dropped ≫= strs ∘ snd) (slab w)) (set_cache c w))
          end
      end
  end.

Definition one (cs : CachedStr) : list CachedStr := [cs].

(** The SERVER_NAME and SERVER_PORT strings for a Host header or the socket's
    address, from the cache or made by [make]. *)
Definition host_env (race : EnvCaches lru → EnvCaches lru) (host : string) (make : string * Z) w
  : RbStr * RbStr * EnvCaches lru :=
  get_or_insert hosts set_hosts host_strs race host name_port
    (λ w, let '(name, w) := frozen_str make.1 w in
          let '(port, w) := frozen_str (display make.2) w in ((name, port), w))
    (λ np, host_root np.1 np.2 None) w.

(** The lock is taken a second time to adopt or to insert. *)
Definition authority_insert (authority : string) (name port host : RbStr) w
  : RbStr * RbStr * RbStr * EnvCaches lru :=
  match on_slab (host_root name port (Some host)) w with
  | (None, w) => (name, port, host, w)
  | (Some entry, w) =>
      let '(dropped, c) := lru_put authority entry (hosts w) in
      (name, port, host, set_slab (drop_all (dropped ≫= host_strs ∘ snd) (slab w)) (set_hosts c w))
  end.

Definition adopt_host (key : string) (host : RbStr) (e : HostEntry) w : RbStr * EnvCaches lru :=
  let '(h, e, sl) := fill_host host e (slab w) in
  (h, set_slab sl (set_hosts (lru_set key e (hosts w)) w)).

Definition authority_env (race : EnvCaches lru → EnvCaches lru) (authority : string) (make : string * Z) w
  : RbStr * RbStr * RbStr * EnvCaches lru :=
  match lru_get authority (hosts w) with
  | (Some e, c) =>
      let w := set_hosts c w in
      let '(name, port) := name_port e in
      match he_host e with
      | Some host => (name, port, cs_value host, w)
      | None =>
          let '(host, w) := frozen_str authority w in
          let w := race w in
          match lru_get authority (hosts w) with
          | (Some e, c) =>
              let '(host, w) := adopt_host authority host e (set_hosts c w) in (name, port, host, w)
          | (None, c) => (name, port, host, set_hosts c w)
          end
      end
  | (None, c) =>
      let '(name, w) := frozen_str make.1 (set_hosts c w) in
      let '(port, w) := frozen_str (display make.2) w in
      let '(host, w) := frozen_str authority w in
      let w := race w in
      match lru_get authority (hosts w) with
      | (Some e, c) =>
          let '(name, port) := name_port e in
          let '(host, w) := adopt_host authority host e (set_hosts c w) in (name, port, host, w)
      | (None, c) => authority_insert authority name port host (set_hosts c w)
      end
  end.

(** Interned when the header qualifies. *)
Definition value_env (race : EnvCaches lru → EnvCaches lru) (name value : string) w
  : RbStr * EnvCaches lru :=
  if (VALUE_INTERN_MAX_LEN <? String.length value)%nat || negb (existsb (String.eqb name) INTERNABLE_VALUES)
  then fresh value true w
  else get_or_insert values set_values one race value cs_value (frozen_slice value) cached_root w.

Definition addr_env (race : EnvCaches lru → EnvCaches lru) (ip : IpAddr) w : RbStr * EnvCaches lru :=
  get_or_insert addrs set_addrs one race ip cs_value (frozen_str (AccessLog.display_ip ip)) cached_root w.
End caches.

(** ** Rooting, exactly

    The slab's occupied slots are those of the strings in [l], each holding
    its string's VALUE. *)

Definition rooted (l : list CachedStr) (sl : Pin.PinSlab) : Prop :=
  NoDup (cs_slot <$> l)
  ∧ Forall (λ cs, 1 ≤ raw (cs_value cs) ∧ Pin.slots sl !! cs_slot cs = Some (raw (cs_value cs))) l
  ∧ ∀ i v, Pin.slots sl !! i = Some v → v ≠ 0 → i ∈ cs_slot <$> l.

#[export] Instance rooted_proper : Proper ((≡ₚ) ==> eq ==> iff) rooted.
Proof.
  assert (Hone : ∀ l l' sl, l ≡ₚ l' → rooted l sl → rooted l' sl).
  { intros l l' sl Hp (Hn & Hf & Ho). split_and!; [by rewrite <-Hp|by rewrite <-Hp|].
    intros i v Hi Hv. rewrite <-Hp. by eapply Ho. }
  intros l l' Hp sl ? <-. split; apply Hone; [done|by symmetry].
Qed.

(** What the collector marks is exactly the cached strings. *)
Lemma rooted_marked l sl cs : rooted l sl → cs ∈ l → raw (cs_value cs) ∈ Pin.mark_all sl.
Proof.
  intros (_ & Hf & _) Hin. rewrite Forall_forall in Hf. destruct (Hf cs Hin) as [Hr Hi].
  unfold Pin.mark_all. apply list_elem_of_filter. split; [lia|]. by eapply list_elem_of_lookup_2.
Qed.

Lemma cached_root_some l s sl cs sl' :
  rooted l sl → 1 ≤ raw s → cached_root s sl = (Some cs, sl') →
  cs_value cs = s ∧ rooted (cs :: l) sl'.
Proof.
  intros (Hn & Hf & Ho) Hs. unfold cached_root.
  destruct (Pin.insert (raw s) sl) as [[i|] sl1] eqn:E; [|done]. intros [= <- <-].
  apply Pin.insert_some in E as (Hi & Hsl & _). split; [done|].
  assert (Hfresh : i ∉ cs_slot <$> l).
  { intros (cs & -> & Hin)%list_elem_of_fmap. rewrite Forall_forall in Hf.
    destruct (Hf cs Hin) as [Hr Hc]. rewrite Hi in Hc. injection Hc. lia. }
  pose proof (lookup_lt_Some _ _ _ Hi) as Hlt. unfold rooted. cbn [fmap list_fmap cs_slot]. rewrite Hsl.
  split_and!.
  - by constructor.
  - constructor; [split; [done|]; cbn; by apply list_lookup_insert_eq|].
    rewrite Forall_forall in Hf |- *. intros cs Hin. destruct (Hf cs Hin) as [Hr Hc]. split; [done|].
    rewrite list_lookup_insert_ne; [done|]. intros ->. apply Hfresh, list_elem_of_fmap. eauto.
  - intros j v Hj Hv. destruct (decide (j = i)) as [->|Hne]; [left|right].
    rewrite list_lookup_insert_ne in Hj by done. by eapply Ho.
Qed.

Lemma cached_root_none l s sl sl' :
  rooted l sl → cached_root s sl = (None, sl') → rooted l sl'.
Proof.
  unfold cached_root. intros Hr. destruct (Pin.insert (raw s) sl) as [[i|] sl1] eqn:E; [done|].
  intros [= <-]. apply Pin.insert_none in E. unfold rooted in *. by rewrite E.
Qed.

Lemma cached_drop_rooted l cs sl : rooted (cs :: l) sl → rooted l (cached_drop cs sl).
Proof.
  intros (Hn & Hf & Ho). apply NoDup_cons in Hn as [Hfresh Hn]. inversion_clear Hf as [|? ? [_ Hc] Hf'].
  pose proof (lookup_lt_Some _ _ _ Hc) as Hlt. unfold rooted, cached_drop, Pin.release. cbn [Pin.slots].
  split_and!; [done| |].
  - rewrite Forall_forall in Hf' |- *. intros x Hin. destruct (Hf' x Hin) as [Hr Hx]. split; [done|].
    rewrite list_lookup_insert_ne; [done|]. intros Heq. apply Hfresh. rewrite Heq. apply list_elem_of_fmap. eauto.
  - intros j v Hj Hv. destruct (decide (j = cs_slot cs)) as [->|Hne].
    + rewrite list_lookup_insert_eq in Hj by done. by injection Hj as <-.
    + rewrite list_lookup_insert_ne in Hj by done.
      destruct (proj1 (elem_of_cons _ _ _) (Ho j v Hj Hv)); [done|done].
Qed.

Lemma drop_all_rooted l l' sl : rooted (l' ++ l) sl → rooted l (drop_all l' sl).
Proof.
  revert l sl. induction l' as [|cs l' IH]; intros l sl H; cbn; [done|].
  apply cached_drop_rooted, IH.
  eapply rooted_proper; [|done|exact H]. solve_Permutation.
Qed.

Lemma host_root_some l name port host sl e sl' :
  rooted l sl → 1 ≤ raw name → 1 ≤ raw port → (∀ h, host = Some h → 1 ≤ raw h) →
  host_root name port host sl = (Some e, sl') →
  name_port e = (name, port) ∧ cs_value <$> he_host e = host ∧ rooted (host_strs e ++ l) sl'.
Proof.
  intros Hr Hn Hp Hh. unfold host_root.
  destruct (cached_root name sl) as [[n|] sl1] eqn:E1; [|done].
  destruct (cached_root_some l name sl n sl1 Hr Hn E1) as [Hn' Hr1].
  destruct (cached_root port sl1) as [[p|] sl2] eqn:E2; [|done].
  destruct (cached_root_some _ port sl1 p sl2 Hr1 Hp E2) as [Hp' Hr2].
  unfold name_port, host_strs. destruct host as [h|].
  - destruct (cached_root h sl2) as [[h'|] sl3] eqn:E3; [|done]. intros [= <- <-].
    destruct (cached_root_some _ h sl2 h' sl3 Hr2 (Hh h eq_refl) E3) as [Hh' Hr3]. cbn.
    split_and!; [by rewrite Hn', Hp'|by rewrite Hh'|].
    eapply rooted_proper; [|done|exact Hr3]. solve_Permutation.
  - intros [= <- <-]. cbn. split_and!; [by rewrite Hn', Hp'|done|].
    eapply rooted_proper; [|done|exact Hr2]. solve_Permutation.
Qed.

Lemma host_root_none l name port host sl sl' :
  rooted l sl → 1 ≤ raw name → 1 ≤ raw port →
  host_root name port host sl = (None, sl') → rooted l sl'.
Proof.
  intros Hr Hn Hp. unfold host_root.
  destruct (cached_root name sl) as [[n|] sl1] eqn:E1;
    [|intros [= <-]; by eapply cached_root_none].
  destruct (cached_root_some l name sl n sl1 Hr Hn E1) as [_ Hr1].
  destruct (cached_root port sl1) as [[p|] sl2] eqn:E2.
  2:{ intros [= <-]. apply cached_drop_rooted. by eapply cached_root_none. }
  destruct (cached_root_some _ port sl1 p sl2 Hr1 Hp E2) as [_ Hr2].
  destruct host as [h|]; [|done].
  destruct (cached_root h sl2) as [[h'|] sl3] eqn:E3; [done|]. intros [= <-].
  apply cached_drop_rooted, cached_drop_rooted. by eapply cached_root_none.
Qed.

(** A slab with room never refuses. *)
Lemma cached_root_room l s sl :
  rooted l sl → Pin.slab_ok sl → (length l < length (Pin.slots sl))%nat →
  ∃ cs sl', cached_root s sl = (Some cs, sl') .
Proof.
  intros (_ & _ & Ho) Hok Hlen. unfold cached_root.
  destruct (Pin.insert (raw s) sl) as [[i|] sl'] eqn:E; [eauto|].
  exfalso. apply Pin.insert_full in E; [|done].
  assert (Hsub : seq 0 (length (Pin.slots sl)) ⊆+ cs_slot <$> l).
  { apply NoDup_submseteq; [apply NoDup_seq|]. intros i Hi. apply elem_of_seq in Hi as [_ Hi].
    destruct (lookup_lt_is_Some_2 _ _ Hi) as [v Hv]. eapply Ho; [exact Hv|].
    by eapply Forall_lookup_1 in E. }
  apply submseteq_length in Hsub.
  rewrite length_seq, length_fmap in Hsub. lia.
Qed.

(** ** The caches' invariant *)

Section invariant.
Context {lru : Type → Type → Type} `{!Lru lru, !LruSpec lru}.
(** What a hosts key stands for: every request of the process agrees. *)
Context (server_of : string → string * Z).
Implicit Types (w : EnvCaches lru).

Definition is_str (s : RbStr) (t : string) (bin : bool) : Prop := text s = t ∧ binary s = bin.

Definition value_good (k : string) (cs : CachedStr) : Prop := is_str (cs_value cs) k true.

Definition addr_good (k : IpAddr) (cs : CachedStr) : Prop :=
  is_str (cs_value cs) (AccessLog.display_ip k) false.

Definition host_good (k : string) (e : HostEntry) : Prop :=
  is_str (name_port e).1 (server_of k).1 false
  ∧ is_str (name_port e).2 (display (server_of k).2) false
  ∧ ∀ h, he_host e = Some h → is_str (cs_value h) k false.

Definition entries_ok {K V} (good : K → V → Prop) (cap : nat) (c : lru K V) : Prop :=
  Forall (λ p, good p.1 p.2) (lru_entries c) ∧ NoDup (lru_entries c).*1
  ∧ (length (lru_entries c) ≤ cap)%nat ∧ lru_cap c = cap.

Definition strings {K V} (strs : V → list CachedStr) (c : lru K V) : list CachedStr :=
  lru_entries c ≫= strs ∘ snd.

Definition cached w : list CachedStr :=
  strings host_strs (hosts w) ++ strings one (addrs w) ++ strings one (values w).

Definition env_inv w : Prop :=
  1 ≤ next_raw w ∧ rooted (cached w) (slab w)
  ∧ entries_ok host_good HOST_CACHE_CAP (hosts w)
  ∧ entries_ok addr_good ADDR_CACHE_CAP (addrs w)
  ∧ entries_ok value_good VALUE_CACHE_CAP (values w)
  ∧ length (Pin.slots (slab w)) = CACHE_SLAB_CAPACITY.

Lemma entries_ok_perm {K V} (good : K → V → Prop) cap (c c' : lru K V) :
  entries_ok good cap c → lru_entries c' ≡ₚ lru_entries c → lru_cap c' = lru_cap c →
  entries_ok good cap c'.
Proof.
  intros (Hg & Hn & Hl & Hc) Hp Hcap. split_and!.
  - by eapply Permutation_Forall; [symmetry|].
  - eapply NoDup_Permutation_proper; [by apply fmap_Permutation|done].
  - by rewrite (Permutation_length Hp).
  - by rewrite Hcap.
Qed.

Lemma entries_ok_get {K V} `{EqDecision K} (good : K → V → Prop) cap (k : K) (c : lru K V) :
  entries_ok good cap c →
  entries_ok good cap (lru_get k c).2 ∧ (∀ v, (lru_get k c).1 = Some v → good k v)
  ∧ ((lru_get k c).1 = None → k ∉ (lru_entries (lru_get k c).2).*1).
Proof.
  intros Hok. destruct (lru_get_spec K V k c) as (Hp & Hcap & Hv).
  split_and!; [by eapply entries_ok_perm| |].
  - intros v E. rewrite E in Hv. destruct Hok as (Hg & _). rewrite Forall_forall in Hg. exact (Hg _ Hv).
  - intros E. rewrite E in Hv. intros Hin. apply Hv.
    apply list_elem_of_fmap in Hin as ([k' v] & -> & Hin).
    apply list_elem_of_fmap. exists (k', v). split; [done|].
    apply list_elem_of_In. eapply Permutation_in; [exact Hp|]. by apply list_elem_of_In.
Qed.

Lemma entries_ok_put {K V} `{EqDecision K} (good : K → V → Prop) cap (k : K) v (c : lru K V) :
  entries_ok good cap c → good k v → k ∉ (lru_entries c).*1 → entries_ok good cap (lru_put k v c).2.
Proof.
  intros (Hg & Hn & Hl & Hc) Hv Hk.
  destruct (lru_put_spec K V k v c Hk ltac:(lia)) as (Hp & Hcap & Hlen). split_and!.
  - eapply (Forall_app _ _ (lru_put k v c).1). eapply Permutation_Forall; [symmetry; exact Hp|]. by constructor.
  - eapply (NoDup_app _ ((lru_put k v c).1).*1). rewrite <-fmap_app.
    eapply NoDup_Permutation_proper; [by apply fmap_Permutation|]. cbn. by constructor.
  - lia.
  - lia.
Qed.

Lemma strings_perm {K V} (strs : V → list CachedStr) (c : lru K V) es :
  lru_entries c ≡ₚ es → strings strs c ≡ₚ es ≫= strs ∘ snd.
Proof. intros Hp. unfold strings. by rewrite Hp. Qed.

(** A cache as [get_or_insert] sees it: one field of the caches, whose entries'
    strings are some of those rooted. *)
Class CacheLens {K V} `{EqDecision K} (cache : EnvCaches lru → lru K V)
    (set_cache : lru K V → EnvCaches lru → EnvCaches lru) (strs : V → list CachedStr)
    (good : K → V → Prop) (cap : nat) : Prop := {
  lens_get c w : cache (set_cache c w) = c;
  lens_get_slab sl w : cache (set_slab sl w) = cache w;
  lens_slab c w : slab (set_cache c w) = slab w;
  lens_comm c sl w : set_cache c (set_slab sl w) = set_slab sl (set_cache c w);
  lens_ok w : env_inv w → entries_ok good cap (cache w);
  lens_rest w : ∃ rest, cached w ≡ₚ strings strs (cache w) ++ rest
    ∧ ∀ c sl, cached (set_slab sl (set_cache c w)) ≡ₚ strings strs c ++ rest;
  lens_inv c sl w :
    env_inv w → entries_ok good cap c → rooted (cached (set_slab sl (set_cache c w))) sl →
    length (Pin.slots sl) = length (Pin.slots (slab w)) → env_inv (set_slab sl (set_cache c w));
}.

#[export] Instance hosts_lens : CacheLens hosts set_hosts host_strs host_good HOST_CACHE_CAP.
Proof.
  split; try done.
  - by intros w (_ & _ & ? & _).
  - intros w. by exists (strings one (addrs w) ++ strings one (values w)).
  - intros c sl w (H1 & _ & _ & H4 & H5 & H6) Hc Hr Hl. split_and!; try done; cbn; by rewrite Hl.
Qed.

#[export] Instance addrs_lens : CacheLens addrs set_addrs one addr_good ADDR_CACHE_CAP.
Proof.
  split; try done.
  - by intros w (_ & _ & _ & ? & _).
  - intros w. exists (strings host_strs (hosts w) ++ strings one (values w)).
    split; [|intros c sl]; apply Permutation_app_swap_app.
  - intros c sl w (H1 & _ & H3 & _ & H5 & H6) Hc Hr Hl. split_and!; try done; cbn; by rewrite Hl.
Qed.

#[export] Instance values_lens : CacheLens values set_values one value_good VALUE_CACHE_CAP.
Proof.
  split; try done.
  - by intros w (_ & _ & _ & _ & ? & _).
  - intros w. exists (strings host_strs (hosts w) ++ strings one (addrs w)).
    split; [|intros c sl]; unfold cached; rewrite app_assoc; apply Permutation_app_comm.
  - intros c sl w (H1 & _ & H3 & H4 & _ & H6) Hc Hr Hl. split_and!; try done; cbn; by rewrite Hl.
Qed.

Lemma set_slab_same w : set_slab (slab w) w = w.
Proof. by destruct w. Qed.

Lemma env_inv_slab w sl :
  env_inv w → rooted (cached w) sl → length (Pin.slots sl) = length (Pin.slots (slab w)) →
  env_inv (set_slab sl w).
Proof. intros (H1 & _ & H3 & H4 & H5 & H6) Hr Hl. split_and!; try done; cbn; by rewrite Hl. Qed.

Lemma env_inv_fresh s bin w :
  env_inv w → let '(t, w') := fresh s bin w in env_inv w' ∧ is_str t s bin ∧ 1 ≤ raw t.
Proof.
  intros (H1 & H2 & H3 & H4 & H5 & H6). cbn. split; [|done]. split_and!; try done. cbn. lia.
Qed.
End invariant.

(** ** One lookup, one insert *)

Lemma cached_root_length s sl : length (Pin.slots (cached_root s sl).2) = length (Pin.slots sl).
Proof.
  unfold cached_root. destruct (Pin.insert (raw s) sl) as [[i|] sl'] eqn:E; cbn.
  - apply Pin.insert_some in E as (_ & -> & _). apply length_insert.
  - by apply Pin.insert_none in E as ->.
Qed.

Lemma cached_drop_length cs sl : length (Pin.slots (cached_drop cs sl)) = length (Pin.slots sl).
Proof. apply length_insert. Qed.

Lemma drop_all_length l sl : length (Pin.slots (drop_all l sl)) = length (Pin.slots sl).
Proof. induction l as [|cs l IH]; cbn -[cached_drop]; [done|]. by rewrite cached_drop_length. Qed.

Lemma host_root_length name port host sl :
  length (Pin.slots (host_root name port host sl).2) = length (Pin.slots sl).
Proof.
  unfold host_root.
  pose proof (cached_root_length name sl) as H1. destruct (cached_root name sl) as [[n|] sl1]; [|done].
  pose proof (cached_root_length port sl1) as H2. destruct (cached_root port sl1) as [[p|] sl2]; cbn [fst snd] in *;
    [|rewrite cached_drop_length; congruence].
  destruct host as [h|]; cbn [fst snd]; [|congruence].
  pose proof (cached_root_length h sl2) as H3.
  destruct (cached_root h sl2) as [[h'|] sl3]; cbn [fst snd] in *; rewrite ?cached_drop_length; congruence.
Qed.

Section lookups.
Context {lru : Type → Type → Type} `{!Lru lru, !LruSpec lru}.
Context (server_of : string → string * Z).
Implicit Types (w : EnvCaches lru).

Lemma rooted_put {K V} `{EqDecision K} (strs : V → list CachedStr) (k : K) v (c : lru K V) rest sl :
  k ∉ (lru_entries c).*1 → (length (lru_entries c) ≤ lru_cap c)%nat →
  rooted (strs v ++ strings strs c ++ rest) sl →
  rooted (strings strs (lru_put k v c).2 ++ rest) (drop_all ((lru_put k v c).1 ≫= strs ∘ snd) sl).
Proof.
  intros Hk Hl Hr. destruct (lru_put_spec K V k v c Hk Hl) as (Hp & _ & _).
  apply drop_all_rooted. eapply rooted_proper; [|done|exact Hr].
  rewrite !app_assoc. apply Permutation_app_tail. unfold strings.
  etransitivity; [apply Permutation_app_comm|]. rewrite <-bind_app. by rewrite Hp.
Qed.

Section lens.
Context {K V : Type} `{EqDecision K} (cache : EnvCaches lru → lru K V).
Context (set_cache : lru K V → EnvCaches lru → EnvCaches lru) (strs : V → list CachedStr).
Context (good : K → V → Prop) (cap : nat).
Context `{Hlens : !CacheLens server_of cache set_cache strs good cap}.
Notation inv := (env_inv server_of).

Lemma get_set c w : cache (set_cache c w) = c.
Proof. by destruct Hlens. Qed.

Lemma get_set_slab sl w : cache (set_slab sl w) = cache w.
Proof. by destruct Hlens. Qed.

Lemma set_cache_slab c sl w : set_cache c (set_slab sl w) = set_slab sl (set_cache c w).
Proof. by destruct Hlens. Qed.

Lemma lens_set_slab c w : set_slab (slab w) (set_cache c w) = set_cache c w.
Proof. rewrite <-(lens_slab server_of c w). apply set_slab_same. Qed.

Lemma lens_get_inv k w :
  inv w →
  inv (set_cache (lru_get k (cache w)).2 w)
  ∧ (∀ v, (lru_get k (cache w)).1 = Some v → good k v)
  ∧ ((lru_get k (cache w)).1 = None → k ∉ (lru_entries (lru_get k (cache w)).2).*1).
Proof.
  intros Hi. destruct (entries_ok_get good cap k (cache w) (lens_ok server_of w Hi)) as (Hok & Hv & Hk).
  split; [|done]. rewrite <-lens_set_slab. apply (lens_inv server_of); [done|done| |done].
  destruct (lens_rest server_of w) as (rest & Hc & Hset). destruct Hi as (_ & Hr & _).
  eapply rooted_proper; [|done|exact Hr]. rewrite Hset, Hc. apply Permutation_app_tail, strings_perm.
  apply lru_get_spec.
Qed.

(** An entry whose strings have just been rooted goes in, and what it pushes
    out is unrooted. *)
Lemma lens_put_inv k v w sl :
  inv w → good k v → k ∉ (lru_entries (cache w)).*1 →
  rooted (strs v ++ cached w) sl → length (Pin.slots sl) = length (Pin.slots (slab w)) →
  inv (set_slab (drop_all ((lru_put k v (cache w)).1 ≫= strs ∘ snd) sl)
         (set_cache (lru_put k v (cache w)).2 w)).
Proof.
  intros Hi Hv Hk Hr Hl. pose proof (lens_ok server_of w Hi) as Hok. apply (lens_inv server_of); [done| | |].
  - by apply entries_ok_put.
  - destruct (lens_rest server_of w) as (rest & Hc & Hset).
    eapply rooted_proper; [apply Hset|done|]. destruct Hok as (_ & _ & Hlen & Hcap).
    apply rooted_put; [done|lia|]. eapply rooted_proper; [|done|exact Hr].
    by apply Permutation_app_head.
  - by rewrite drop_all_length.
Qed.

Lemma get_or_insert_inv {T} (want : T → Prop) race (key : K) (read : V → T) build root w :
  (∀ v, good key v → want (read v)) →
  (∀ w, inv w → inv (build w).2 ∧ want (build w).1) →
  (∀ w, inv w → inv (race w)) →
  (∀ t sl, length (Pin.slots (root t sl).2) = length (Pin.slots sl)) →
  (∀ w t l sl, inv w → t = (build w).1 → rooted l sl →
     match root t sl with
     | (Some v, sl') => good key v ∧ rooted (strs v ++ l) sl'
     | (None, sl') => rooted l sl'
     end) →
  inv w →
  let '(t, w') := get_or_insert cache set_cache strs race key read build root w in want t ∧ inv w'.
Proof.
  intros Hread Hbuild Hrace Hlen Hroot Hi. unfold get_or_insert.
  destruct (lens_get_inv key w Hi) as (Hi1 & Hg & _).
  destruct (lru_get key (cache w)) as [[v|] c]; cbn in *; [by auto|].
  destruct (Hbuild _ Hi1) as [Hi2 Hw].
  pose proof (λ l sl, Hroot _ _ l sl Hi1 eq_refl) as Hroot'.
  destruct (build (set_cache c w)) as [new w2]; cbn in *.
  pose proof (Hrace _ Hi2) as Hi3. set (w3 := race w2) in *.
  destruct (lens_get_inv key w3 Hi3) as (Hi4 & Hg' & Hk).
  destruct (lru_get key (cache w3)) as [[v|] c'] eqn:E; cbn in *; [by auto|].
  specialize (Hk eq_refl). unfold on_slab. set (w4 := set_cache c' w3) in *.
  specialize (Hroot' (cached w4) (slab w4) (proj1 (proj2 Hi4))). specialize (Hlen new (slab w4)).
  destruct (root new (slab w4)) as [[v|] sl]; cbn in *; [|split; [done|by apply (env_inv_slab server_of)]].
  destruct Hroot' as [Hv Hr]. rewrite get_set_slab.
  assert (Hc4 : cache w4 = c') by apply get_set. rewrite Hc4.
  pose proof (lens_put_inv key v w4 sl Hi4 Hv) as Hput. rewrite Hc4 in Hput.
  destruct (lru_put key v c') as [dropped c'']; cbn in *. split; [done|].
  rewrite set_cache_slab. cbn. by apply Hput.
Qed.
End lens.

Notation inv := (env_inv server_of).

(** A fresh string that goes in as an entry of its own. *)
Lemma one_root_spec {K} (good : K → CachedStr → Prop) key bin s w t l sl :
  inv w → (∀ cs, is_str (cs_value cs) s bin → good key cs) → t = (fresh s bin w).1 → rooted l sl →
  match cached_root t sl with
  | (Some v, sl') => good key v ∧ rooted (one v ++ l) sl'
  | (None, sl') => rooted l sl'
  end.
Proof.
  intros Hi Hgood -> Hr. pose proof (env_inv_fresh server_of s bin w Hi) as Hf.
  destruct (fresh s bin w) as [t w']. destruct Hf as (_ & Ht & Hraw). cbn [fst].
  destruct (cached_root t sl) as [[cs|] sl'] eqn:E.
  - destruct (cached_root_some l t sl cs sl' Hr Hraw E) as [<- Hr']. by auto.
  - by eapply cached_root_none.
Qed.

Lemma value_env_inv race name value w :
  (∀ w, inv w → inv (race w)) → inv w →
  let '(t, w') := value_env race name value w in is_str t value true ∧ inv w'.
Proof.
  intros Hrace Hi. pose proof (λ w, env_inv_fresh server_of value true w) as Hfresh.
  unfold value_env. destruct (_ || _); [specialize (Hfresh w Hi); destruct (fresh value true w); tauto|].
  apply (get_or_insert_inv values set_values one value_good VALUE_CACHE_CAP (λ t, is_str t value true));
    try done.
  - intros w1 Hi1. specialize (Hfresh w1 Hi1). unfold frozen_slice. destruct (fresh value true w1). tauto.
  - apply cached_root_length.
  - intros w1 t l sl Hi1 Ht Hr. by apply (one_root_spec value_good value true value w1).
Qed.

Lemma addr_env_inv race ip w :
  (∀ w, inv w → inv (race w)) → inv w →
  let '(t, w') := addr_env race ip w in is_str t (AccessLog.display_ip ip) false ∧ inv w'.
Proof.
  intros Hrace Hi. set (s := AccessLog.display_ip ip).
  pose proof (λ w, env_inv_fresh server_of s false w) as Hfresh. unfold addr_env.
  apply (get_or_insert_inv addrs set_addrs one addr_good ADDR_CACHE_CAP (λ t, is_str t s false));
    try done.
  - intros w1 Hi1. specialize (Hfresh w1 Hi1). unfold frozen_str. subst s.
    destruct (fresh (AccessLog.display_ip ip) false w1). tauto.
  - apply cached_root_length.
  - intros w1 t l sl Hi1 Ht Hr. by apply (one_root_spec addr_good ip false s w1).
Qed.

(** The name and port of a host entry, as the env shows them. *)
Definition names (make : string * Z) (np : RbStr * RbStr) : Prop :=
  is_str np.1 make.1 false ∧ is_str np.2 (display make.2) false.

Lemma frozen_pair (make : string * Z) w :
  inv w →
  let '(name, w1) := frozen_str make.1 w in
  let '(port, w2) := frozen_str (display make.2) w1 in
  inv w2 ∧ names make (name, port) ∧ 1 ≤ raw name ∧ 1 ≤ raw port.
Proof.
  intros Hi. pose proof (env_inv_fresh server_of make.1 false w Hi) as H1. unfold frozen_str.
  destruct (fresh make.1 false w) as [name w1]. destruct H1 as (Hi1 & Hn & Hr1).
  pose proof (env_inv_fresh server_of (display make.2) false w1 Hi1) as H2.
  destruct (fresh (display make.2) false w1) as [port w2]. destruct H2 as (Hi2 & Hp & Hr2).
  by split_and!.
Qed.

Lemma host_root_good key name port host l sl :
  names (server_of key) (name, port) → 1 ≤ raw name → 1 ≤ raw port →
  (∀ h, host = Some h → is_str h key false ∧ 1 ≤ raw h) → rooted l sl →
  match host_root name port host sl with
  | (Some e, sl') => host_good server_of key e ∧ rooted (host_strs e ++ l) sl'
  | (None, sl') => rooted l sl'
  end.
Proof.
  intros [Hn Hp] Hrn Hrp Hh Hr. destruct (host_root name port host sl) as [[e|] sl'] eqn:E.
  - destruct (host_root_some l name port host sl e sl') as (Hnp & Hhost & Hr'); try done.
    { intros h Hhs. by apply Hh. }
    split; [|done]. unfold host_good. rewrite Hnp. split_and!; [done|done|].
    intros h Heh. rewrite Heh in Hhost. destruct (Hh (cs_value h)); [done|done].
  - by eapply (host_root_none l name port host).
Qed.

Lemma host_env_inv race host make w :
  (∀ w, inv w → inv (race w)) → server_of host = make → inv w →
  let '(name, port, w') := host_env race host make w in names make (name, port) ∧ inv w'.
Proof.
  intros Hrace Hm Hi.
  assert (H : let '(np, w') := host_env race host make w in names make np ∧ inv w').
  { apply (get_or_insert_inv hosts set_hosts host_strs (host_good server_of) HOST_CACHE_CAP (names make));
      try done.
    - intros e (H1 & H2 & _). by rewrite Hm in H1, H2.
    - intros w1 Hi1. pose proof (frozen_pair make w1 Hi1) as Hf.
      destruct (frozen_str make.1 w1) as [name w2]. destruct (frozen_str (display make.2) w2). cbn. tauto.
    - intros t sl. apply host_root_length.
    - intros w1 t l sl Hi1 -> Hr. pose proof (frozen_pair make w1 Hi1) as Hf.
      destruct (frozen_str make.1 w1) as [name w2]. destruct (frozen_str (display make.2) w2) as [port w3].
      destruct Hf as (_ & Hnm & Hrn & Hrp). cbn. apply host_root_good; try done. by rewrite Hm. }
  by destruct (host_env race host make w) as [[name port] w'].
Qed.
End lookups.

Section authority.
Context {lru : Type → Type → Type} `{!Lru lru, !LruSpec lru}.
Context (server_of : string → string * Z).
Implicit Types (w : EnvCaches lru).
Notation inv := (env_inv server_of).

Lemma get_hit k e w :
  inv w → (lru_get k (hosts w)).1 = Some e →
  ∃ rest, lru_entries (lru_get k (hosts w)).2 ≡ₚ (k, e) :: rest ∧ k ∉ rest.*1.
Proof.
  intros (_ & _ & (_ & Hn & _) & _) E. destruct (lru_get_spec string HostEntry k (hosts w)) as (Hp & _ & Hin).
  rewrite E in Hin. apply elem_of_Permutation in Hin as [rest Hrest].
  exists rest. split; [by etransitivity|].
  eapply NoDup_Permutation_proper in Hn; [|symmetry; by apply fmap_Permutation].
  by apply NoDup_cons in Hn as [Hk _].
Qed.

Lemma set_hosts_inv key e e' rest w sl :
  inv w → lru_entries (hosts w) ≡ₚ (key, e) :: rest → key ∉ rest.*1 → host_good server_of key e' →
  rooted (host_strs e' ++ (rest ≫= host_strs ∘ snd) ++ strings one (addrs w) ++ strings one (values w)) sl →
  length (Pin.slots sl) = length (Pin.slots (slab w)) →
  inv (set_slab sl (set_hosts (lru_set key e' (hosts w)) w)).
Proof.
  intros Hi Hp Hk Hg Hr Hl. destruct (lru_set_spec string HostEntry key e e' rest (hosts w) Hp Hk) as (Hp' & Hcap).
  pose proof Hi as (_ & _ & (Hgs & Hn & Hlen & Hc) & _).
  apply (lens_inv server_of); [done| | |done].
  - split_and!.
    + eapply Permutation_Forall; [symmetry; exact Hp'|]. eapply Permutation_Forall in Hgs; [|exact Hp].
      inversion_clear Hgs. by constructor.
    + eapply NoDup_Permutation_proper; [by apply fmap_Permutation|].
      eapply NoDup_Permutation_proper in Hn; [|symmetry; by apply fmap_Permutation]. exact Hn.
    + rewrite (Permutation_length Hp'). rewrite (Permutation_length Hp) in Hlen. exact Hlen.
    + by rewrite Hcap.
  - eapply rooted_proper; [|done|exact Hr]. unfold cached. cbn [hosts addrs values set_slab set_hosts].
    rewrite (app_assoc (host_strs e')). apply Permutation_app_tail.
    exact (strings_perm host_strs _ _ Hp').
Qed.

Lemma adopt_host_inv key host e rest w :
  inv w → lru_entries (hosts w) ≡ₚ (key, e) :: rest → key ∉ rest.*1 →
  is_str host key false → 1 ≤ raw host →
  let '(h, w') := adopt_host key host e w in is_str h key false ∧ inv w'.
Proof.
  intros Hi Hp Hk Hh Hraw. pose proof Hi as (_ & Hr & (Hgs & _) & _).
  eapply Permutation_Forall in Hgs; [|exact Hp]. inversion_clear Hgs as [|? ? Hg _]. cbn in Hg.
  assert (Hr' : rooted (host_strs e ++ (rest ≫= host_strs ∘ snd) ++ strings one (addrs w) ++ strings one (values w)) (slab w)).
  { eapply rooted_proper; [|done|exact Hr]. unfold cached. rewrite (app_assoc (host_strs e)).
    apply Permutation_app_tail. symmetry. exact (strings_perm host_strs _ _ Hp). }
  unfold adopt_host, fill_host. destruct (he_host e) as [h|] eqn:Eh.
  - split; [by apply Hg|]. by apply (set_hosts_inv key e e rest w).
  - pose proof (cached_root_length host (slab w)) as Hlen.
    destruct (cached_root host (slab w)) as [[h|] sl] eqn:Er; cbn [fst snd] in *.
    + destruct (cached_root_some _ host (slab w) h sl Hr' Hraw Er) as [Hv Hr2].
      split; [by rewrite Hv|]. apply (set_hosts_inv key e _ rest w); try done.
      * destruct Hg as (G1 & G2 & _). split_and!; [done|done|]. intros ? [= <-]. by rewrite Hv.
      * eapply rooted_proper; [|done|exact Hr2]. unfold host_strs. rewrite Eh. cbn. solve_Permutation.
    + split; [done|]. apply (set_hosts_inv key e _ rest w); try done.
      * destruct Hg as (G1 & G2 & _). by split_and!.
      * pose proof (cached_root_none _ host (slab w) sl Hr' Er) as Hr2.
        unfold host_strs in *. by rewrite Eh in Hr2.
Qed.

Lemma authority_insert_inv authority name port host w :
  inv w → authority ∉ (lru_entries (hosts w)).*1 →
  names (server_of authority) (name, port) → 1 ≤ raw name → 1 ≤ raw port →
  is_str host authority false → 1 ≤ raw host →
  let '(n, p, h, w') := authority_insert authority name port host w in
  n = name ∧ p = port ∧ h = host ∧ inv w'.
Proof.
  intros Hi Hk Hnm Hrn Hrp Hh Hrh. unfold authority_insert, on_slab.
  pose proof (host_root_length name port (Some host) (slab w)) as Hlen.
  pose proof (host_root_good server_of authority name port (Some host) (cached w) (slab w) Hnm Hrn Hrp
    ltac:(by intros ? [= <-]) (proj1 (proj2 Hi))) as Hroot.
  destruct (host_root name port (Some host) (slab w)) as [[e|] sl]; cbn [fst snd] in *.
  - destruct Hroot as [Hg Hr]. cbn [hosts set_slab slab].
    pose proof (lens_put_inv server_of hosts set_hosts host_strs (host_good server_of) HOST_CACHE_CAP
      authority e w sl Hi Hg Hk Hr Hlen) as Hput.
    destruct (lru_put authority e (hosts w)) as [dropped c]. by split_and!.
  - split_and!; [done..|]. by apply (env_inv_slab server_of).
Qed.

Lemma authority_env_inv race authority make w :
  (∀ w, inv w → inv (race w)) → server_of authority = make → inv w →
  let '(name, port, host, w') := authority_env race authority make w in
  names make (name, port) ∧ is_str host authority false ∧ inv w'.
Proof.
  intros Hrace Hm Hi. unfold authority_env.
  destruct (lens_get_inv server_of hosts set_hosts host_strs (host_good server_of) HOST_CACHE_CAP authority w Hi)
    as (Hi1 & Hg & _).
  destruct (lru_get authority (hosts w)) as [[e|] c] eqn:Eget; cbn [fst snd] in *.
  - destruct (Hg e eq_refl) as (G1 & G2 & G3). rewrite Hm in G1, G2. unfold name_port in *. cbn [fst snd] in *.
    destruct (he_host e) as [h|] eqn:Eh; [split; [by split|split; [by apply G3|done]]|].
    pose proof (env_inv_fresh server_of authority false _ Hi1) as Hf. unfold frozen_str.
    destruct (fresh authority false (set_hosts c w)) as [host w1]. destruct Hf as (Hi2 & Hh & Hrh).
    apply Hrace in Hi2. set (w2 := race w1) in *.
    destruct (lens_get_inv server_of hosts set_hosts host_strs (host_good server_of) HOST_CACHE_CAP authority w2 Hi2)
      as (Hi3 & _ & _).
    pose proof (get_hit authority) as Hhit. specialize (λ e, Hhit e w2 Hi2).
    destruct (lru_get authority (hosts w2)) as [[e2|] c2]; cbn [fst snd] in *; [|split; [by split|by split]].
    destruct (Hhit e2 eq_refl) as (rest & Hp & Hk).
    pose proof (adopt_host_inv authority host e2 rest (set_hosts c2 w2) Hi3 Hp Hk Hh Hrh) as Ha.
    destruct (adopt_host authority host e2 _) as [h' w3]. split; [by split|exact Ha].
  - pose proof (frozen_pair server_of make _ Hi1) as Hf.
    destruct (frozen_str make.1 (set_hosts c w)) as [name w1].
    destruct (frozen_str (display make.2) w1) as [port w2]. destruct Hf as (Hi2 & Hnm & Hrn & Hrp).
    pose proof (env_inv_fresh server_of authority false _ Hi2) as Hf. unfold frozen_str.
    destruct (fresh authority false w2) as [host w3]. destruct Hf as (Hi3 & Hh & Hrh).
    apply Hrace in Hi3. set (w4 := race w3) in *.
    destruct (lens_get_inv server_of hosts set_hosts host_strs (host_good server_of) HOST_CACHE_CAP authority w4 Hi3)
      as (Hi4 & Hg4 & Hk4).
    pose proof (get_hit authority) as Hhit. specialize (λ e, Hhit e w4 Hi3).
    destruct (lru_get authority (hosts w4)) as [[e2|] c2]; cbn [fst snd] in *.
    + destruct (Hg4 e2 eq_refl) as (G1 & G2 & _). rewrite Hm in G1, G2. destruct (Hhit e2 eq_refl) as (rest & Hp & Hk).
      pose proof (adopt_host_inv authority host e2 rest (set_hosts c2 w4) Hi4 Hp Hk Hh Hrh) as Ha.
      unfold name_port in *. destruct (adopt_host authority host e2 _) as [h' w5].
      split; [by split|exact Ha].
    + rewrite <-Hm in Hnm.
      pose proof (authority_insert_inv authority name port host (set_hosts c2 w4) Hi4 (Hk4 eq_refl) Hnm Hrn Hrp Hh Hrh) as Ha.
      destruct (authority_insert authority name port host _) as [[[n p] h] w5].
      destruct Ha as (-> & -> & -> & Hi5). rewrite Hm in Hnm. by split_and!.
Qed.
End authority.

(** ** The slab never fills *)

Lemma length_strings {lru : Type → Type → Type} `{!Lru lru} {K V} (strs : V → list CachedStr) n (c : lru K V) :
  (∀ v, (length (strs v) ≤ n)%nat) → (length (strings strs c) ≤ n * length (lru_entries c))%nat.
Proof.
  intros Hn. unfold strings. induction (lru_entries c) as [|[k v] l IH]; cbn; [lia|].
  rewrite length_app. specialize (Hn v). cbn. lia.
Qed.

Lemma length_cached {lru : Type → Type → Type} `{!Lru lru} server_of (w : EnvCaches lru) :
  env_inv server_of w → (length (cached w) + 5 ≤ CACHE_SLAB_CAPACITY)%nat.
Proof.
  intros (_ & _ & (_ & _ & Hh & _) & (_ & _ & Ha & _) & (_ & _ & Hv & _) & _).
  unfold cached. rewrite !length_app.
  pose proof (length_strings host_strs 3 (hosts w) ltac:(intros [n p [h|]]; cbn; lia)) as H1.
  pose proof (length_strings one 1 (addrs w) ltac:(done)) as H2.
  pose proof (length_strings one 1 (values w) ltac:(done)) as H3.
  unfold CACHE_SLAB_CAPACITY, HOST_CACHE_CAP, ADDR_CACHE_CAP, VALUE_CACHE_CAP in *. lia.
Qed.

(** Rooting succeeds while there is room, and advances the cursor by one. *)
Lemma cached_root_ok l s sl :
  rooted l sl → 1 ≤ raw s → 0 ≤ Pin.cursor sl →
  Pin.cursor sl + 1 + Z.of_nat (length (Pin.slots sl)) ≤ u64_modulus →
  (length l < length (Pin.slots sl))%nat →
  ∃ cs sl', cached_root s sl = (Some cs, sl') ∧ rooted (cs :: l) sl'
    ∧ Pin.cursor sl' = Pin.cursor sl + 1 ∧ length (Pin.slots sl') = length (Pin.slots sl).
Proof.
  intros Hr Hraw Hc Hmax Hlen.
  destruct (cached_root_room l s sl Hr) as (cs & sl' & E); [split; [split; [done|lia]|lia]|done|].
  exists cs, sl'. split; [done|]. split; [by apply (cached_root_some l s sl cs sl')|].
  pose proof (cached_root_length s sl) as Hl. rewrite E in Hl. split; [|done].
  unfold cached_root in E. destruct (Pin.insert (raw s) sl) as [[i|] sl1] eqn:Ei; [|done]. simplify_eq.
  apply Pin.insert_cursor in Ei as ->. unfold u64_add. apply wrap64_small. unfold u64_ok. lia.
Qed.


Lemma env_inv_new {lru : Type → Type → Type} `{!Lru lru, !LruSpec lru} server_of :
  env_inv server_of (caches_new (lru := lru)).
Proof.
  destruct (lru_new_spec string HostEntry HOST_CACHE_CAP) as [H1 H1'].
  destruct (lru_new_spec IpAddr CachedStr ADDR_CACHE_CAP) as [H2 H2'].
  destruct (lru_new_spec string CachedStr VALUE_CACHE_CAP) as [H3 H3'].
  unfold env_inv, entries_ok, cached, strings, caches_new. cbn [hosts addrs values slab next_raw].
  rewrite H1, H2, H3, H1', H2', H3'.
  split; [done|]. split; [|split_and!; try (by constructor); try done; cbn; try lia; apply length_replicate].
  split_and!; [by constructor|by constructor|].
  intros i v Hi Hv. cbn [Pin.with_capacity Pin.slots] in Hi. by apply lookup_replicate in Hi as [-> _].
Qed.

