(* ===== verification/Lifecycle.v ===== *)
(** The lifecycle natives ([server.rs]): what the Ruby side calls to register,
    drain, abort, scale and tear down a server, resolved through the table of
    servers. *)

From S2P Require Import Prelude Channels Floats Gvl Response Request Registry Dispatch Queue.
From S2P Require Pin Histogram.

Section lifecycle.
Context {chan oneshot : Type → Type} `{!Flume chan, !Oneshot oneshot}.
Implicit Types (s : WorkerSlot chan) (sv : ServerInner chan) (g : Registry chan)
  (h : heap chan oneshot).

(** A native that mutates the server in place, or does nothing when it is
    gone. *)
Definition on_server (i : nat) (f : ServerInner chan → ServerInner chan) g : Registry chan :=
  match try_get i g with
  | Some sv => MkRegistry (<[i := f sv]> (servers g)) (next_id g)
  | None => g
  end.

Definition count (f : Counters → Counters) sv : ServerInner chan := set_counters (f (counters sv)) sv.

Definition register_worker_native (i : nat) g : result Z * Registry chan :=
  match get i g with
  | Ok sv => let '(n, sv) := register_worker sv in (Ok n, on_server i (λ _, sv) g)
  | Err e => (Err e, g)
  end.

(** The keeper of the server's response slab. *)
Definition pin_keeper (i : nat) g : result Pin.PinKeeper :=
  match get i g with
  | Ok sv => Ok (Pin.MkPinKeeper (pin_slab sv))
  | Err e => Err e
  end.

Definition stop_accepting (i : nat) g : Registry chan :=
  on_server i (λ sv, set_draining true (runtime sv) (set_state STATE_DRAINING sv)) g.

Definition control_ready (i : nat) g : Registry chan := on_server i (set_state STATE_READY) g.

Definition record_respawn (i : nat) g : Registry chan :=
  on_server i (count (λ c, set_respawns (c_respawns c +w 1) c)) g.

Definition close_req sv : ServerInner chan :=
  if req_tx sv then set_queue false (drop_sender (req sv)) sv else sv.

Definition close_queue (i : nat) g : Registry chan :=
  on_server i (λ sv, let sv := close_req sv in set_slots (close_lane <$> slots sv) sv) g.

Definition queue_stats (i : nat) g : Z * Z :=
  match try_get i g with
  | Some sv => (queued sv, c_in_flight (counters sv))
  | None => (0, 0)
  end.

(** ** Aborting a dead worker *)

(** The 500s of the in-flight list: each weak pointer that still upgrades. *)
Fixpoint abort_each (ids : list nat) h : blocking * heap chan oneshot :=
  match ids with
  | [] => (Returned, h)
  | i :: ids =>
      match upgrade i h with
      | None => abort_each ids h
      | Some r =>
          match respond_500_if_unsent r with
          | (Parked, r) => (Parked, store i r h)
          | (Returned, r) => abort_each ids (store i r h)
          end
      end
  end.

(** [while rx.try_recv().is_ok() {}], dropping what it takes: as many turns
    as the lane holds requests, and one that finds it empty. *)
Fixpoint drain_lane (fuel : nat) s h : blocking * (WorkerSlot chan * heap chan oneshot) :=
  match fuel with
  | O => (Returned, (s, h))
  | S fuel =>
      match recv_lane s with
      | (None, s) => (Returned, (s, h))
      | (Some ctx, s) =>
          match drop_ctx ctx h with
          | (Parked, h) => (Parked, (s, h))
          | (Returned, h) => drain_lane fuel s h
          end
      end
  end.

Definition lane_fuel s : nat := S (length (lane s)).

Definition abort_slot s h : blocking * (WorkerSlot chan * heap chan oneshot) :=
  match abort_each (current s) h with
  | (Parked, h) => (Parked, (s, h))
  | (Returned, h) =>
      let s := set_work [] (served s) 0 (last_started_ms s) s in
      let s := set_parked true (parked_at s) (close_lane s) in
      drain_lane (lane_fuel s) s h
  end.

Definition abort_inflight (i w : nat) g h : result blocking * (Registry chan * heap chan oneshot) :=
  match try_get i g with
  | None => (Ok Returned, (g, h))
  | Some sv =>
      match slot w sv with
      | Err e => (Err e, (g, h))
      | Ok s =>
          let '(b, (s, h)) := abort_slot s h in
          (Ok b, (on_server i (put_slot w s) g, h))
      end
  end.

Fixpoint abort_slots (l : list (WorkerSlot chan)) h
  : blocking * (list (WorkerSlot chan) * heap chan oneshot) :=
  match l with
  | [] => (Returned, ([], h))
  | s :: l =>
      match abort_slot s h with
      | (Parked, (s, h)) => (Parked, (s :: l, h))
      | (Returned, (s, h)) => let '(b, (l, h)) := abort_slots l h in (b, (s :: l, h))
      end
  end.

Definition abort_all_inflight (i : nat) g h : blocking * (Registry chan * heap chan oneshot) :=
  match try_get i g with
  | None => (Returned, (g, h))
  | Some sv =>
      let '(b, (l, h)) := abort_slots (slots sv) h in (b, (on_server i (set_slots l) g, h))
  end.

(** ** The rest of the lifecycle *)

Definition interrupt_all_workers (i : nat) g : Registry chan :=
  on_server i (λ sv, set_slots (set_interrupted true <$> slots sv) sv) g.

(** What teardown did: the threads joined, the time, the socket file removed. *)
Record Teardown : Type := MkTeardown {
  joined : list bool;
  ended : Z;
  unlinked : option string;
}.

Definition shutdown_runtime (tokio : Z → Z → Z) (now : Z) (i : nat) (timeout_ms : Z) g
  : option Teardown * Registry chan :=
  match remove i g with
  | (None, g) => (None, g)
  | (Some sv, g) =>
      let '(j, t) := shutdown tokio now (timeout_ms * 1000000) (runtime sv) in
      (Some (MkTeardown j t (unix_path (config sv))), g)
  end.

Definition server_stats (i : nat) g : Z * Z * Z * Z * Z * Z * option (list Z) :=
  match try_get i g with
  | None => (0, 0, 0, 0, 0, 0, None)
  | Some sv =>
      let c := counters sv in
      (queued sv, c_in_flight c, c_served c, c_rejected c, c_timeouts c, c_respawns c, lane_depths sv)
  end.

(** The count and the summed microseconds; Ruby sees the sum in seconds. *)
Definition queue_time (i : nat) g : Z * f64 :=
  match try_get i g with
  | None => (0, f64_of 0)
  | Some sv =>
      let h := Histogram.snapshot (queue_histogram sv) in (Histogram.snap_count h, Histogram.sum_seconds h)
  end.

Definition slot_native (f : WorkerSlot chan → WorkerSlot chan) (i w : nat) g
  : result unit * Registry chan :=
  match try_get i g with
  | None => (Ok tt, g)
  | Some sv =>
      match slot w sv with
      | Err e => (Err e, g)
      | Ok s => (Ok tt, on_server i (put_slot w (f s)) g)
      end
  end.

Definition quarantine_slot : nat → nat → Registry chan → result unit * Registry chan :=
  slot_native (set_quarantined true).
Definition retire_slot : nat → nat → Registry chan → result unit * Registry chan :=
  slot_native retire.
Definition reset_slot : nat → nat → Registry chan → result unit * Registry chan :=
  slot_native reset.

Definition set_active_workers (i : nat) (n : Z) g : Registry chan :=
  on_server i (count (set_active n)) g.
Definition record_scale_up (i : nat) g : Registry chan :=
  on_server i (count (λ c, set_scale_ups (c_scale_ups c +w 1) c)) g.
Definition record_scale_down (i : nat) g : Registry chan :=
  on_server i (count (λ c, set_scale_downs (c_scale_downs c +w 1) c)) g.
Definition record_quarantine_replacement (i : nat) g : Registry chan :=
  on_server i (count (λ c, set_quarantine_replacements (c_quarantine_replacements c +w 1) c)) g.

Definition pool_stats (i : nat) g : Z * Z * Z * Z :=
  match try_get i g with
  | None => (0, 0, 0, 0)
  | Some sv =>
      let c := counters sv in
      (c_active_workers c, max_workers (topology (config sv)), c_scale_ups c, c_scale_downs c)
  end.
End lifecycle.

(** ** Aborting answers everybody *)

Section abort_proofs.
Context {chan oneshot : Type → Type}
  `{!Flume chan, !FlumeSpec chan, !Oneshot oneshot, !OneshotSpec oneshot}.
Implicit Types (s : WorkerSlot chan) (h : heap chan oneshot) (r : Responder chan oneshot).

(** A responder between calls: unclaimed with its sender, or settled; and no
    stream whose channel is full, on which an abort would park. *)
Definition resting r : Prop :=
  (responded r = false → head_tx r = true ∧ unsent r ∧ body_tx r = false)
  ∧ (responded r = true → os_state (head r) ≠ OsPending)
  ∧ (responded r = true → body_tx r = true →
       ∀ c, frames r = Some c → chan_ok c ∧ (length (contents c) < capacity c)%nat).

Definition all_resting h : Prop := ∀ i n r, h !! i = Some (n, r) → resting r.

(** Nobody waits for [i] any more. *)
Definition settled h (i : nat) : Prop :=
  ∀ r, upgrade i h = Some r → os_state (head r) ≠ OsPending.

Lemma respond_500_settles r :
  resting r →
  ∃ r', respond_500_if_unsent r = (Returned, r') ∧ resting r' ∧ os_state (head r') ≠ OsPending.
Proof.
  intros (Hun & Hres & Hfr). unfold respond_500_if_unsent, claim. cbn.
  destruct (responded r) eqn:Hr.
  - destruct (body_tx r) eqn:Hb; cbn.
    + unfold send_abandoned. cbn. destruct (frames r) as [c|] eqn:Hf.
      * destruct (Hfr eq_refl eq_refl c eq_refl) as [[Hcap _] Hlen].
        destruct (try_send abandoned_frame c) as [x c'] eqn:Hs.
        destruct (try_send_cases _ _ _ _ Hcap Hs) as [(-> & _)|[(_ & _ & _ & ?)|(-> & _)]]; [|lia|];
          eexists; (split; [done|]); (split; [|by apply Hres]); by split_and!.
      * eexists. split; [done|]. split; [|by apply Hres]. by split_and!.
    + eexists. split; [done|]. split; [|by apply Hres]. by split_and!.
  - destruct (Hun eq_refl) as (Ht & Hu & Hb). rewrite Ht. cbn.
    pose proof (send_head_agrees internal_error (set_head false (head r) (swap_responded r).2) Hu) as Ha.
    pose proof (send_head_frame internal_error (set_head false (head r) (swap_responded r).2)) as [_ Hre].
    assert (Hbt : body_tx (send_head internal_error (set_head false (head r) (swap_responded r).2)).2 = false)
      by (unfold send_head; by destruct (os_send _ _)).
    set (r' := (send_head _ _).2) in *. cbn in Ha.
    assert (Hne : os_state (head r') ≠ OsPending) by (destruct Ha; congruence).
    exists r'. split; [done|]. split; [|done]. cbn in Hre.
    split_and!; intros; congruence.
Qed.

Lemma store_resting i r h : resting r → all_resting h → all_resting (store i r h).
Proof.
  intros Hr Hh j n r' Hj. unfold store in Hj.
  destruct (decide (i = j)) as [->|Hne]; [|rewrite lookup_alter_ne in Hj by done; by eapply Hh].
  rewrite lookup_alter_eq in Hj. destruct (h !! j) as [[m q]|]; naive_solver.
Qed.

Lemma arc_drop_resting i h : all_resting h → all_resting (arc_drop i h).
Proof.
  intros Hh j n r' Hj. unfold arc_drop in Hj.
  destruct (decide (i = j)) as [->|Hne]; [|rewrite lookup_alter_ne in Hj by done; by eapply Hh].
  rewrite lookup_alter_eq in Hj. destruct (h !! j) as [[m q]|] eqn:Hq; simplify_eq/=. by eapply Hh.
Qed.

Lemma upgrade_some i r h : upgrade i h = Some r → ∃ n, h !! i = Some (n, r).
Proof. unfold upgrade. destruct (h !! i) as [[[|n] q]|]; naive_solver. Qed.

(** A step that settles one responder keeps the others settled. *)
Lemma settled_store i j r h :
  os_state (head r) ≠ OsPending → settled h j ∨ i = j → settled (store i r h) j.
Proof.
  intros Hr Hor r' Hup. unfold settled, upgrade, store in *.
  destruct (decide (i = j)) as [->|Hne].
  - rewrite lookup_alter_eq in Hup. destruct (h !! j) as [[[|n] q]|]; naive_solver.
  - rewrite lookup_alter_ne in Hup by done. destruct Hor; [eauto|done].
Qed.

Lemma settled_arc_drop i j h : settled h j → settled (arc_drop i h) j.
Proof.
  intros Hs r Hup. unfold settled, upgrade, arc_drop in *.
  destruct (decide (i = j)) as [->|Hne]; [|rewrite lookup_alter_ne in Hup by done; eauto].
  rewrite lookup_alter_eq in Hup. destruct (h !! j) as [[[|[|n]] q]|]; naive_solver.
Qed.

Lemma abort_each_settles ids h :
  all_resting h →
  ∃ h', abort_each ids h = (Returned, h') ∧ all_resting h'
    ∧ (∀ j, settled h j ∨ j ∈ ids → settled h' j).
Proof.
  revert h. induction ids as [|i ids IH]; intros h Hh; cbn.
  { exists h. split_and!; [done..|]. intros j [?|Hj]; [done|]. by apply elem_of_nil in Hj. }
  destruct (upgrade i h) as [r|] eqn:Hup.
  - destruct (upgrade_some _ _ _ Hup) as [n Hn].
    destruct (respond_500_settles r (Hh _ _ _ Hn)) as (r' & -> & Hr' & Hne).
    destruct (IH (store i r' h) (store_resting _ _ _ Hr' Hh)) as (h' & -> & Hh' & Hs).
    exists h'. split_and!; [done..|]. intros j [Hj|[->|Hj]%elem_of_cons]; apply Hs.
    + left. apply settled_store; auto.
    + left. apply settled_store; auto.
    + by right.
  - destruct (IH h Hh) as (h' & -> & Hh' & Hs). exists h'. split_and!; [done..|].
    intros j [Hj|[->|Hj]%elem_of_cons]; apply Hs; [by left| |by right].
    left. intros r Hr. congruence.
Qed.

Lemma drop_ctx_settles ctx h :
  all_resting h →
  ∃ h', drop_ctx ctx h = (Returned, h') ∧ all_resting h'
    ∧ (∀ j, settled h j ∨ j = responder ctx → settled h' j).
Proof.
  intros Hh. unfold drop_ctx. destruct (h !! responder ctx) as [[n r]|] eqn:Hl.
  - destruct (respond_500_settles r (Hh _ _ _ Hl)) as (r' & -> & Hr' & Hne).
    eexists. split; [done|]. split; [by apply arc_drop_resting, store_resting|].
    intros j Hj. apply settled_arc_drop, settled_store; [done|]. destruct Hj; auto.
  - exists h. split_and!; [done..|]. intros j [?| ->]; [done|]. intros r Hr.
    apply upgrade_some in Hr as [? ?]. congruence.
Qed.

Lemma drain_lane_settles fuel s h :
  all_resting h → (length (lane s) < fuel)%nat →
  ∃ s' h', drain_lane fuel s h = (Returned, (s', h')) ∧ all_resting h' ∧ lane s' = []
    ∧ lane_tx s' = lane_tx s ∧ parked s' = parked s ∧ in_flight s' = in_flight s
    ∧ current s' = current s
    ∧ (∀ j, settled h j ∨ j ∈ (responder <$> lane s) → settled h' j).
Proof.
  revert s h. induction fuel as [|fuel IH]; intros s h Hh Hf; [lia|]. cbn.
  destruct (recv_lane s) as [[c|] s'] eqn:Hr; pose proof (recv_lane_spec _ _ _ Hr) as Hl; cbn in Hl.
  - destruct (drop_ctx_settles c h Hh) as (h1 & -> & Hh1 & Hs1).
    assert (Hframe : lane_tx s' = lane_tx s ∧ parked s' = parked s ∧ in_flight s' = in_flight s
                     ∧ current s' = current s)
      by (unfold recv_lane in Hr; repeat case_match; by simplify_eq/=).
    destruct Hframe as (E1 & E2 & E3 & E4).
    rewrite Hl in Hf |- *. cbn in Hf.
    destruct (IH s' h1 Hh1 ltac:(lia)) as (s2 & h2 & -> & Hh2 & Hl2 & F1 & F2 & F3 & F4 & Hs2).
    exists s2, h2. split_and!; [done|done|done|congruence..|].
    intros j [Hj|Hj]; apply Hs2; [left; apply Hs1; by left|].
    cbn in Hj. apply elem_of_cons in Hj as [->|Hj]; [left; apply Hs1; by right|by right].
  - destruct Hl as [-> Hl]. exists s, h. rewrite Hl. split_and!; [done..|].
    intros j [?|Hj]; [done|]. by apply elem_of_nil in Hj.
Qed.

Lemma lane_abort_prepared s :
  lane (set_parked true (parked_at s)
    (close_lane (set_work [] (served s) 0 (last_started_ms s) s))) = lane s.
Proof.
  unfold close_lane, lane. cbn. destruct (lane_tx s); [|done]. cbn.
  destruct (lane_rx s); [|done]. apply contents_drop_sender.
Qed.

(** After a worker died: aborting its slot returns, and then every
    request it was holding and every request queued in its lane has been
    answered (the client has its 500, or the response somebody sent before,
    or is gone); the lane is closed and empty, so no dispatch can choose it
    and no request is left behind in it, and the slot reports nothing in
    flight. What was answered before stays answered. *)
Theorem abort_slot_answers s h :
  all_resting h →
  ∃ s' h', abort_slot s h = (Returned, (s', h'))
    ∧ (∀ j, j ∈ current s ++ (responder <$> lane s) → settled h' j)
    ∧ lane s' = [] ∧ lane_tx s' = false ∧ parked s' = true ∧ in_flight s' = 0 ∧ current s' = []
    ∧ (∀ j, settled h j → settled h' j)
    ∧ all_resting h'.
Proof.
  intros Hh. unfold abort_slot.
  destruct (abort_each_settles (current s) h Hh) as (h1 & -> & Hh1 & Hs1).
  set (s1 := set_parked _ _ _).
  destruct (drain_lane_settles (lane_fuel s1) s1 h1 Hh1 ltac:(unfold lane_fuel; lia))
    as (s2 & h2 & -> & Hh2 & Hl2 & F1 & F2 & F3 & F4 & Hs2).
  assert (Hl1 : lane s1 = lane s) by exact (lane_abort_prepared s). rewrite Hl1 in Hs2.
  exists s2, h2. split; [done|]. split.
  { intros j [Hj|Hj]%elem_of_app; apply Hs2; [left; apply Hs1; by right|by right]. }
  rewrite F1, F2, F3, F4.
  assert (lane_tx s1 = false ∧ in_flight s1 = 0 ∧ current s1 = []) as (-> & -> & ->).
  { subst s1. unfold close_lane. cbn. by destruct (lane_tx s) eqn:E. }
  split_and!; [done..| |done]. intros j Hj. apply Hs2. left. apply Hs1. by left.
Qed.
End abort_proofs.

(** ** Draining and teardown *)

Section drain_proofs.
Context {chan oneshot : Type → Type}
  `{!Flume chan, !FlumeSpec chan, !Oneshot oneshot, !OneshotSpec oneshot}.
Implicit Types (s : WorkerSlot chan) (sv : ServerInner chan) (g : Registry chan)
  (h : heap chan oneshot) (ctx : RequestCtx chan).

Lemma lane_tx_close_lane s : lane_tx (close_lane s) = false.
Proof. unfold close_lane. by destruct (lane_tx s) eqn:E. Qed.

Lemma lane_of_close_lane s : lane (close_lane s) = lane s.
Proof.
  unfold close_lane, lane. destruct (lane_tx s); [|done]. cbn. destruct (lane_rx s); [|done].
  apply contents_drop_sender.
Qed.

Lemma close_lane_idemp s : close_lane (close_lane s) = close_lane s.
Proof. unfold close_lane at 1. by rewrite lane_tx_close_lane. Qed.

Lemma lanes_fmap_close (l : list (WorkerSlot chan)) : ((close_lane <$> l) ≫= lane) = l ≫= lane.
Proof. induction l as [|s l IH]; [done|]. rewrite fmap_cons, !bind_cons, IH. by rewrite lane_of_close_lane. Qed.

Lemma sweep_closed skip order (l : list (WorkerSlot chan)) ctx any_open :
  (∀ i s, l !! i = Some s → lane_tx s = false) → sweep skip order l ctx any_open = (Some ctx, l, any_open).
Proof.
  intros Hl. revert any_open. induction order as [|i order IH]; intros any_open; cbn; [done|].
  destruct (l !! i) as [s|] eqn:Hi; [|apply IH]. destruct (skip s); [apply IH|].
  assert (try_lane s ctx = (Some ctx, s, false)) as ->
    by (unfold try_lane; rewrite (Hl _ _ Hi); by destruct (lane_rx s)).
  rewrite list_insert_id, orb_false_r by done. apply IH.
Qed.

(** With every lane closed nothing is placed. *)
Lemma try_dispatch_closed sv ctx :
  (∀ i s, slots sv !! i = Some s → lane_tx s = false) →
  (try_dispatch sv ctx).1 = (if bool_decide (slots sv = []) then Full ctx else Closed ctx).
Proof.
  intros Hc. unfold try_dispatch. destruct (Nat.eqb_spec (length (slots sv)) 0) as [E|E].
  - apply nil_length_inv in E. by rewrite bool_decide_true by done.
  - rewrite bool_decide_false by (by intros H; rewrite H in E). cbn -[rotation sweep hottest].
    by rewrite !sweep_closed by exact Hc.
Qed.

Lemma on_server_twice i f g :
  (∀ sv, f (f sv) = f sv) → on_server i f (on_server i f g) = on_server i f g.
Proof.
  intros Hf. unfold on_server, try_get. destruct (servers g !! i) as [sv|] eqn:Hi; cbn.
  - rewrite lookup_insert_eq. cbn. by rewrite Hf, insert_insert_eq.
  - by rewrite Hi.
Qed.

Lemma try_get_on_server i f g sv :
  try_get i g = Some sv → try_get i (on_server i f g) = Some (f sv).
Proof. intros Hg. unfold on_server. rewrite Hg. unfold try_get. cbn. apply lookup_insert_eq. Qed.

Definition close_server sv : ServerInner chan :=
  set_slots (close_lane <$> slots (close_req sv)) (close_req sv).

Lemma waiting_close sv : waiting (close_server sv) = waiting sv.
Proof.
  unfold waiting, close_server, close_req. destruct (req_tx sv); cbn;
    by rewrite ?contents_drop_sender, lanes_fmap_close.
Qed.

Lemma close_server_idemp sv : close_server (close_server sv) = close_server sv.
Proof.
  unfold close_server, close_req. destruct (req_tx sv) eqn:Hr; cbn; rewrite ?Hr; cbn;
    rewrite <-list_fmap_compose; unfold set_slots, set_queue; cbn; f_equal;
    apply list_fmap_ext; intros; apply close_lane_idemp.
Qed.

(** Draining: closing the queue leaves every waiting request where it
    is, is idempotent, and from then on no request gets in by either path
    (the queue's sender is gone, and every dispatch answers [Closed]), while
    a shared-queue worker that finds the queue empty sees it disconnected and
    ends its loop at once instead of blocking. *)
Theorem close_queue_drains i g sv :
  try_get i g = Some sv →
  ∃ sv', try_get i (close_queue i g) = Some sv'
    ∧ waiting sv' = waiting sv
    ∧ close_queue i (close_queue i g) = close_queue i g
    ∧ req_tx sv' = false
    ∧ (slots sv ≠ [] → ∀ ctx, (try_dispatch sv' ctx).1 = Closed ctx)
    ∧ ∀ w s env, slots sv !! w = Some s → lane_rx s = None → req_tx sv = true →
        senders (req sv) = 1%nat → contents (req sv) = [] →
        block_take w env sv' = (TakeEnded None, sv').
Proof.
  intros Hg. exists (close_server sv). split; [by apply (try_get_on_server i close_server)|].
  split; [apply waiting_close|]. split; [apply on_server_twice, close_server_idemp|].
  split; [unfold close_server, close_req; by destruct (req_tx sv) eqn:E|]. split.
  - intros Hne ctx.
    assert (Hs : slots (close_server sv) = close_lane <$> slots sv)
      by (unfold close_server, close_req; by destruct (req_tx sv)).
    rewrite try_dispatch_closed; rewrite Hs; [by rewrite bool_decide_false by (by intros ?%fmap_nil_inv)|].
    intros j s (t & -> & _)%list_lookup_fmap_Some. apply lane_tx_close_lane.
  - intros w s env Hw Hl Ht Hn Hc. unfold block_take, close_server, close_req. rewrite Ht. cbn.
    rewrite list_lookup_fmap, Hw. cbn.
    assert (lane_rx (close_lane s) = None) as -> by (unfold close_lane; destruct (lane_tx s); cbn; by rewrite Hl).
    rewrite try_recv_disconnected; [done|by rewrite contents_drop_sender|].
    by rewrite senders_drop_sender, Hn.
Qed.

(** Teardown: once [shutdown_runtime] has run, every tolerant native
    called for that server, by a worker or a supervisor that wakes late, is a
    no-op that raises nothing and reports zeros; a second teardown is one
    too. *)
Theorem gone_server_tolerated tokio now i timeout_ms g h w n :
  let g' := (shutdown_runtime tokio now i timeout_ms g).2 in
  try_get i g' = None
  ∧ shutdown_runtime tokio now i timeout_ms g' = (None, g')
  ∧ stop_accepting i g' = g' ∧ control_ready i g' = g' ∧ record_respawn i g' = g'
  ∧ close_queue i g' = g' ∧ interrupt_all_workers i g' = g'
  ∧ abort_inflight i w g' h = (Ok Returned, (g', h)) ∧ abort_all_inflight i g' h = (Returned, (g', h))
  ∧ quarantine_slot i w g' = (Ok tt, g') ∧ retire_slot i w g' = (Ok tt, g')
  ∧ reset_slot i w g' = (Ok tt, g')
  ∧ set_active_workers i n g' = g' ∧ record_scale_up i g' = g' ∧ record_scale_down i g' = g'
  ∧ record_quarantine_replacement i g' = g'
  ∧ queue_stats i g' = (0, 0) ∧ pool_stats i g' = (0, 0, 0, 0) ∧ queue_time i g' = (0, f64_of 0)
  ∧ server_stats i g' = (0, 0, 0, 0, 0, 0, None).
Proof.
  intros g'. assert (Hg : try_get i g' = None).
  { subst g'. unfold shutdown_runtime, remove, try_get. destruct (servers g !! i) eqn:Hi; cbn.
    - destruct (shutdown _ _ _ _). cbn. apply lookup_delete_eq.
    - apply lookup_delete_eq. }
  clearbody g'.
  unfold stop_accepting, control_ready, record_respawn, close_queue, interrupt_all_workers,
    set_active_workers, record_scale_up, record_scale_down, record_quarantine_replacement,
    quarantine_slot, retire_slot, reset_slot, slot_native, on_server, abort_inflight,
    abort_all_inflight, queue_stats, pool_stats, queue_time, server_stats.
  rewrite Hg. split_and!; try done. unfold shutdown_runtime, remove. unfold try_get in Hg.
  rewrite Hg. rewrite delete_id by done. by destruct g'.
Qed.
End drain_proofs.

Definition one_server : Registry ListChan.t :=
  insert (server_with false [] [slot_new false]) registry_new.

Example close_queue_drains_witness :
  ∃ sv', try_get 1 (close_queue 1 one_server) = Some sv'
    ∧ block_take 0 [] sv' = (TakeEnded None, sv').
Proof.
  destruct (close_queue_drains 1 one_server (server_with false [] [slot_new false]) eq_refl)
    as (sv' & H1 & _ & _ & _ & _ & H2).
  exists sv'. split; [exact H1|].
  apply (H2 0%nat (slot_new false)); reflexivity.
Defined.

Example gone_server_tolerated_witness :
  close_queue 1 (shutdown_runtime Z.add 0 1 1000 one_server).2
  = (shutdown_runtime Z.add 0 1 1000 one_server).2.
Proof.
  apply (gone_server_tolerated (oneshot:=oneshot_state) Z.add 0 1 1000 one_server ∅ 0 0).
Defined.

(** A crashed worker holding request 1 with request 2 in its lane. *)
Definition crashed_heap : heap ListChan.t oneshot_state :=
  {[ 1%nat := (1%nat, responder_new); 2%nat := (1%nat, responder_new) ]}.

Definition crashed_slot : WorkerSlot ListChan.t :=
  set_work [1%nat] 1 1 0 (lane_of [ctx_n 2]).

Example abort_slot_answers_witness :
  ∃ s' h', abort_slot crashed_slot crashed_heap = (Returned, (s', h')) ∧ lane s' = [] ∧ in_flight s' = 0.
Proof.
  assert (Hh : all_resting crashed_heap).
  { intros i n r Hi. unfold crashed_heap in Hi.
    apply lookup_insert_Some in Hi as [[_ [= _ <-]]|[_ Hi]];
      [|apply lookup_singleton_Some in Hi as [_ [= _ <-]]];
      (split_and!; [by intros _; split_and!; [|left|]|done|done]). }
  destruct (abort_slot_answers crashed_slot crashed_heap Hh) as (s' & h' & H1 & _ & H2 & _ & _ & H3 & _).
  exists s', h'. split_and!; [exact H1|exact H2|exact H3].
Defined.
