(* ===== verification/Admission.v ===== *)
(** Request intake ([handle_request] of [server.rs] and what it calls): the
    body-size guard, the way into a lane or the queue, the wait for the head,
    and the counters every outcome leaves behind. *)

From S2P Require Import Prelude Text Channels Gvl Response Request Registry Dispatch Queue AccessLog.
From S2P Require Lifecycle Pin Histogram.

(** ** Admission limits *)

Definition advertised_streams (workers threads : Z) : Z :=
  let slots := sat_mul workers threads in
  if slots =? 0 then 200 else Z.max 8 (Z.min slots 1024).

Definition stream_capacity (t : Topology) : Z := advertised_streams (max_workers t) (t_threads t).

(** The HTTP/2 stream limit follows the pool's ceiling: worker
    slots times threads, never below 8 nor above 1024, and hyper's 200 for an
    unknown topology; a product past the machine word saturates instead of
    wrapping round to a small limit; more workers never lower it. *)
Theorem stream_capacity_bounds t :
  0 ≤ max_workers t → 0 ≤ t_threads t →
  let c := stream_capacity t in
  let product := max_workers t * t_threads t in
  8 ≤ c ≤ 1024
  ∧ (product = 0 → c = 200)
  ∧ (8 ≤ product ≤ 1024 → c = product)
  ∧ (1024 ≤ product → c = 1024)
  ∧ ∀ t', max_workers t ≤ max_workers t' → t_threads t = t_threads t' → 0 < product →
      c ≤ stream_capacity t'.
Proof.
  intros Hw Ht. unfold stream_capacity, advertised_streams, sat_mul. cbn zeta.
  assert (1024 < u64_modulus) as Hm by done.
  set (p := max_workers t * t_threads t). assert (0 ≤ p) by nia.
  destruct (Z.eqb_spec (u64_modulus - 1) 0); [lia|].
  split; [|split; [|split; [|split]]].
  - destruct (Z.eqb_spec (Z.min (u64_modulus - 1) p) 0); lia.
  - intros ->. rewrite Z.min_r by lia. done.
  - intros ?. destruct (Z.eqb_spec (Z.min (u64_modulus - 1) p) 0); lia.
  - intros ?. destruct (Z.eqb_spec (Z.min (u64_modulus - 1) p) 0); lia.
  - intros t' Hle Heq Hp. assert (p ≤ max_workers t' * t_threads t') by (rewrite <-Heq; nia).
    destruct (Z.eqb_spec (Z.min (u64_modulus - 1) p) 0); [lia|].
    destruct (Z.eqb_spec (Z.min (u64_modulus - 1) (max_workers t' * t_threads t')) 0); lia.
Qed.

Example stream_capacity_bounds_witness :
  let t := MkTopology "ractor" 4 16 3 1 in 8 ≤ stream_capacity t ≤ 1024.
Proof. apply (stream_capacity_bounds (MkTopology "ractor" 4 16 3 1)); done. Defined.

(** ** One request *)

(** What hyper hands over: the head, and whether the body is known empty. *)
Record HttpRequest : Type := MkRequest {
  rq_method : string;
  rq_uri : Uri;
  rq_version : Version;
  rq_headers : list (string * list string);
  rq_end_stream : bool;
}.

Section intake.
Context {chan oneshot : Type → Type} `{!Flume chan, !Oneshot oneshot}.
Implicit Types (sv : ServerInner chan) (h : heap chan oneshot) (ctx : RequestCtx chan).

(** [HeaderValue::to_str] is the http crate's. *)
Variable to_str : string → option string.

Definition header (name : string) (hs : list (string * list string)) : option string :=
  match List.find (λ p, String.eqb p.1 name) hs with
  | Some (_, v :: _) => Some v
  | _ => None
  end.

Definition content_length (hs : list (string * list string)) : option Z :=
  v ← header "content-length" hs;
  s ← to_str v;
  parse_u64 (trim s).

Definition oversize (max_body : Z) (hs : list (string * list string)) : bool :=
  (0 <? max_body) && match content_length hs with Some len => max_body <? len | None => false end.

Definition unavailable sv : HyperResponse * ServerInner chan :=
  (plain_response 503 ("Service Unavailable" +:+ nl),
   set_counters (set_rejected (c_rejected (counters sv) +w 1) (counters sv)) sv).

Definition branded (r : HyperResponse) : HyperResponse :=
  let hd := head_of r in
  if bool_decide (Exists (λ p, p.1 = "server") (h_headers hd)) then r
  else MkResponse (MkHead (h_status hd) (h_headers hd ++ [("server", "Kino")]) (h_timing hd)) (body_of r).

(** The context, at the clock [now]; [rid] names the new responder. *)
Definition make_ctx sv (rq : HttpRequest) (peer lcl : SocketAddr) (rid : nat) (now : Z) : RequestCtx chan :=
  let over := oversize (max_body_size (config sv)) (rq_headers rq) in
  MkCtx (rq_method rq) (rq_uri rq) (rq_version rq) (rq_headers rq) peer lcl (s_https (config sv))
    (if over || rq_end_stream rq then None else Some (bounded 8)) None None rid now
    (access_log (config sv)) 0 now None.

(** The timed [send_async] on a full queue: each entry of [env] is what other
    threads did before the send is retried; the list ends at the timeout. *)
Fixpoint timed_send (env : list (ServerInner chan → ServerInner chan)) ctx sv
  : bool * ServerInner chan :=
  match env with
  | [] => (false, sv)
  | others :: env =>
      let sv := others sv in
      match try_send ctx (req sv) with
      | (SendOk, q) => (true, set_queue (req_tx sv) q sv)
      | (SendFull _, _) => timed_send env ctx sv
      | (SendDisconnected _, _) => (false, sv)
      end
  end.

Definition with_tx (f : chan (RequestCtx chan) → chan (RequestCtx chan)) sv : ServerInner chan :=
  set_queue (req_tx sv) (f (req sv)) sv.

(** The shared queue, through a clone of its sender that lives until the
    request is in, or given up. *)
Definition enqueue (env : list (ServerInner chan → ServerInner chan)) ctx sv
  : bool * ServerInner chan :=
  if negb (req_tx sv) then (false, sv)
  else
    let sv := with_tx clone_sender sv in
    let '(sent, sv) :=
      match try_send ctx (req sv) with
      | (SendOk, q) => (true, set_queue (req_tx sv) q sv)
      | (SendDisconnected _, _) => (false, sv)
      | (SendFull _, _) => timed_send env ctx sv
      end in
    (sent, with_tx drop_sender sv).

(** Admitted: the head is awaited. Refused: answered on the spot. *)
Inductive intake : Type :=
  | Waits
  | Refused (r : HyperResponse)
  | Dispatching.

Definition take_in (over : bool) (now : Z) (env : list ((ServerInner chan → ServerInner chan) * Z))
    ctx sv h : intake * (ServerInner chan * heap chan oneshot) :=
  if over then (Refused (plain_response 413 ("Payload Too Large" +:+ nl)), (sv, (drop_ctx ctx h).2))
  else
    let '(sent, sv) :=
      if lanes (config sv) then dispatch_to_lane now env sv ctx
      else let '(b, sv) := enqueue (fst <$> env) ctx sv in (Some b, sv) in
    match sent with
    | None => (Dispatching, (sv, h))
    | Some true => (Waits, (sv, h))
    | Some false => let '(r, sv) := unavailable sv in (Refused r, (sv, (drop_ctx ctx h).2))
    end.

(** The wait for the head, over when the channel settles or the deadline has
    passed. [None]: no deadline, and nothing there yet. *)
Definition await_head (rid : nat) sv h : option HyperResponse * ServerInner chan :=
  match os_state <$> (head ∘ snd <$> h !! rid) with
  | Some (OsSent r) => (Some r, sv)
  | Some OsClosed => (Some internal_error, sv)
  | _ =>
      if 0 <? request_timeout_ms (config sv)
      then (Some (plain_response 504 ("Gateway Timeout" +:+ nl)),
            set_counters (set_timeouts (c_timeouts (counters sv) +w 1) (counters sv)) sv)
      else (None, sv)
  end.

(** The end of the handler: the head receiver and the in-flight guard drop. *)
Definition leave (rid : nat) sv h : ServerInner chan * heap chan oneshot :=
  (set_counters (set_in_flight (c_in_flight (counters sv) -w 1) (counters sv)) sv,
   alter (λ '(n, r), (n, set_head (head_tx r) (os_drop_receiver (head r)) r)) rid h).

Definition enter (rid : nat) ctx sv h : ServerInner chan * heap chan oneshot :=
  (set_counters (set_in_flight (c_in_flight (counters sv) +w 1) (counters sv)) sv,
   <[rid := ((if body_rx ctx then 2 else 1)%nat, responder_new)]> h).

(** [env1] is the schedule of the other threads while the request is being
    placed, [env2] what they do until the head is looked at. [None]: the
    handler is still at one of its two waits. *)
Definition handle_request (rq : HttpRequest) (peer lcl : SocketAddr) (rid : nat) (now : Z)
    (env1 : list ((ServerInner chan → ServerInner chan) * Z))
    (env2 : ServerInner chan * heap chan oneshot → ServerInner chan * heap chan oneshot) sv h
  : option HyperResponse * (ServerInner chan * heap chan oneshot) :=
  let over := oversize (max_body_size (config sv)) (rq_headers rq) in
  let ctx := make_ctx sv rq peer lcl rid now in
  let '(sv, h) := enter rid ctx sv h in
  match take_in over now env1 ctx sv h with
  | (Dispatching, world) => (None, world)
  | (Refused r, (sv, h)) => (Some (branded r), leave rid sv h)
  | (Waits, world) =>
      let '(sv, h) := env2 world in
      match await_head rid sv h with
      | (None, sv) => (None, (sv, h))
      | (Some r, sv) => (Some (branded r), leave rid sv h)
      end
  end.

(** The access log's two records around it; [stamp1] and [stamp2] are the
    clock's text, [elapsed] the time between. *)
Definition log_target (u : Uri) : string :=
  match query u with
  | Some q => path u +:+ "?" +:+ q
  | None => path u
  end.

Definition request_records (stamp1 stamp2 : string) (color : bool) (elapsed : Z) (rq : HttpRequest)
    (peer : SocketAddr) (resp : option HyperResponse) sv : list string :=
  if access_log (config sv) then
    arrival stamp1 color (rq_method rq) (log_target (rq_uri rq)) (ip peer)
    :: match resp with
       | Some r =>
           [completion stamp2 color (status r) (rq_method rq) (log_target (rq_uri rq)) elapsed
              (h_timing (head_of r))]
       | None => []
       end
  else [].

(** ** Outcomes *)

(** The other threads leave the counters to the handler. *)
Definition quiet (f : ServerInner chan → ServerInner chan) : Prop :=
  ∀ sv, counters (f sv) = counters sv ∧ config (f sv) = config sv.

Lemma branded_status r : status (branded r) = status r.
Proof. unfold branded. by case_bool_decide. Qed.

Lemma dispatch_counters now env sv ctx b sv' :
  Forall (λ e, quiet e.1) env → dispatch_to_lane now env sv ctx = (b, sv') →
  counters sv' = counters sv ∧ config sv' = config sv.
Proof.
  unfold dispatch_to_lane. generalize (now + queue_timeout_ms (config sv) * 1000000). intros deadline.
  revert sv ctx. induction env as [|[f t] env IH]; intros sv ctx Hq Hd; cbn in Hd; [by simplify_eq|].
  apply Forall_cons in Hq as [Hf Hq]. destruct (Hf sv) as [Hc1 Hc2].
  destruct (try_dispatch (f sv) ctx) as [d sv1] eqn:Ht.
  assert (counters sv1 = counters sv ∧ config sv1 = config sv) as [Hs1 Hs2].
  { unfold try_dispatch in Ht. cbn -[rotation] in Ht. rewrite <-Hc1, <-Hc2.
    repeat case_match; by simplify_eq/=. }
  destruct d as [|c|c]; [by simplify_eq| |by simplify_eq].
  destruct (deadline <=? t); [by simplify_eq|]. apply IH in Hd; [|done].
  by rewrite <-Hs1, <-Hs2.
Qed.

Lemma timed_send_counters env ctx sv b sv' :
  Forall quiet env → timed_send env ctx sv = (b, sv') →
  counters sv' = counters sv ∧ config sv' = config sv.
Proof.
  revert sv. induction env as [|f env IH]; intros sv Hq Hs; cbn in Hs; [by simplify_eq|].
  apply Forall_cons in Hq as [Hf Hq]. destruct (Hf sv) as [Hc1 Hc2].
  destruct (try_send ctx (req (f sv))) as [[| |] q]; [by simplify_eq| |by simplify_eq].
  apply IH in Hs; [|done]. by rewrite <-Hc1, <-Hc2.
Qed.

Lemma enqueue_counters env ctx sv b sv' :
  Forall quiet env → enqueue env ctx sv = (b, sv') →
  counters sv' = counters sv ∧ config sv' = config sv.
Proof.
  intros Hq. unfold enqueue. destruct (req_tx sv); cbn; [|intros; by simplify_eq].
  destruct (try_send ctx _) as [[| |] q]; [intros; by simplify_eq| |intros; by simplify_eq].
  destruct (timed_send env ctx _) as [b' sv1] eqn:Ht. intros; simplify_eq/=.
  by apply timed_send_counters in Ht.
Qed.

Lemma await_head_cases rid sv h r sv' :
  await_head rid sv h = (Some r, sv') →
  (sv' = sv ∧ ∃ n re, h !! rid = Some (n, re)
     ∧ ((∃ x, os_state (head re) = OsSent x ∧ r = x)
        ∨ (os_state (head re) = OsClosed ∧ r = internal_error)))
  ∨ (r = plain_response 504 ("Gateway Timeout" +:+ nl) ∧ 0 < request_timeout_ms (config sv)
     ∧ sv' = set_counters (set_timeouts (c_timeouts (counters sv) +w 1) (counters sv)) sv).
Proof.
  unfold await_head. intros Ha.
  destruct (Z.ltb_spec 0 (request_timeout_ms (config sv))) as [Hpos|_];
    destruct (h !! rid) as [[n re]|]; cbn in Ha; try (destruct (os_state (head re)) eqn:Ho);
    simplify_eq/=; eauto 10.
Qed.

End intake.

Definition refused_request : HttpRequest :=
  MkRequest "POST" (MkUri "/upload" None None) HTTP_11
    [("host", ["example.com"]); ("content-length", [" 4096 "])] false.

Definition capped_server : ServerInner ListChan.t :=
  MkServer (MkConfig 1 10 0 1024 (MkTopology "threaded" 2 2 1 1) false true None false false)
    true (queue_of []) false RtNone [] (counters_new 2) STATE_READY 0 0 (Pin.with_capacity 2)
    Histogram.histogram_new.


(** ** The in-flight gauge under cancellation

    hyper drops a handler at any of its awaits when the client goes away. The
    guard is created before the first await, so every way out passes it. *)

Inductive handler_pc : Type :=
  | HPlacing
  | HAwaiting
  | HAnswered
  | HDropped.

Record flight : Type := MkFlight {
  gauge : Counters;
  handlers : list handler_pc;
}.

(** The guard's [Drop], at the end of the handler or of the dropped future. *)
Definition guard_drop (c : Counters) : Counters := set_in_flight (c_in_flight c -w 1) c.
Definition guard_new (c : Counters) : Counters := set_in_flight (c_in_flight c +w 1) c.

Inductive flight_step : flight → flight → Prop :=
  | flight_enter c l : flight_step (MkFlight c l) (MkFlight (guard_new c) (l ++ [HPlacing]))
  | flight_placed c l i :
      l !! i = Some HPlacing → flight_step (MkFlight c l) (MkFlight c (<[i:=HAwaiting]> l))
  | flight_refused c l i :
      l !! i = Some HPlacing →
      flight_step (MkFlight c l) (MkFlight (guard_drop (set_rejected (c_rejected c +w 1) c)) (<[i:=HAnswered]> l))
  | flight_answered c l i :
      l !! i = Some HAwaiting →
      flight_step (MkFlight c l) (MkFlight (guard_drop c) (<[i:=HAnswered]> l))
  | flight_timed_out c l i :
      l !! i = Some HAwaiting →
      flight_step (MkFlight c l) (MkFlight (guard_drop (set_timeouts (c_timeouts c +w 1) c)) (<[i:=HAnswered]> l))
  | flight_cancelled c l i p :
      l !! i = Some p → p = HPlacing ∨ p = HAwaiting →
      flight_step (MkFlight c l) (MkFlight (guard_drop c) (<[i:=HDropped]> l)).

Definition live (p : handler_pc) : Z :=
  match p with HPlacing | HAwaiting => 1 | _ => 0 end.

Definition live_count (l : list handler_pc) : Z := Zsum (live <$> l).
#[local] Arguments live_count : simpl never.

Definition flight_inv (f : flight) : Prop := c_in_flight (gauge f) = wrap64 (live_count (handlers f)).

Lemma live_count_insert l i p q :
  l !! i = Some p → live_count (<[i:=q]> l) = live_count l - live p + live q.
Proof.
  intros Hi. unfold live_count. rewrite list_fmap_insert. apply Zsum_insert.
  by rewrite list_lookup_fmap, Hi.
Qed.

Lemma flight_inv_step f f' : flight_step f f' → flight_inv f → flight_inv f'.
Proof.
  unfold flight_inv.
  intros [c l|c l i Hi|c l i Hi|c l i Hi|c l i Hi|c l i p Hi Hp] Hinv; cbn in *;
    rewrite ?Hinv; try (rewrite (live_count_insert _ _ _ _ Hi)); cbn; unfold u64_add, u64_sub;
    autorewrite with kino_u64.
  - unfold live_count. rewrite fmap_app, Zsum_app. reflexivity.
  - f_equal; lia.
  - f_equal; lia.
  - f_equal; lia.
  - f_equal; lia.
  - f_equal. destruct Hp as [->| ->]; cbn; lia.
Qed.

(** However requests arrive, are placed, refused, answered, time out
    or are cancelled by clients that go away at any await, the in-flight gauge
    is the number of handlers still running; once they are all over it reads
    zero, so a drain never waits on a request that is gone. *)
Theorem in_flight_exact n f :
  steps flight_step (MkFlight (counters_new n) []) f →
  Z.of_nat (length (handlers f)) < u64_modulus →
  c_in_flight (gauge f) = live_count (handlers f)
  ∧ (Forall (λ p, p = HAnswered ∨ p = HDropped) (handlers f) → c_in_flight (gauge f) = 0).
Proof.
  intros Hs Hlen. pose proof (steps_invariant _ _ flight_inv_step _ _ Hs eq_refl) as Hinv.
  unfold flight_inv in Hinv. destruct f as [c l]. cbn in *.
  assert (Hb : 0 ≤ live_count l ≤ Z.of_nat (length l)).
  { clear. induction l as [|p l IH]; [done|].
    change (live_count (p :: l)) with (live p + live_count l). cbn [length].
    destruct p; cbn [live]; lia. }
  rewrite wrap64_small in Hinv by (unfold u64_ok; lia). split; [done|]. intros Hall. rewrite Hinv.
  clear -Hall. induction Hall as [|p l [->| ->] Hall IH]; [done|exact IH..].
Qed.

(** One request answered, one cancelled while it waits for a lane. *)
Example in_flight_exact_witness :
  let c := set_in_flight 0 (counters_new 2) in
  ∃ f, steps flight_step (MkFlight (counters_new 2) []) f ∧ c_in_flight (gauge f) = 0.
Proof.
  intros c. exists (MkFlight c [HAnswered; HDropped]).
  assert (Hs : steps flight_step (MkFlight (counters_new 2) []) (MkFlight c [HAnswered; HDropped])).
  { eapply steps_cons; [apply flight_enter|]. eapply steps_cons; [apply flight_enter|].
    eapply steps_cons; [by apply (flight_placed _ _ 0)|].
    eapply steps_cons; [by apply (flight_cancelled _ _ 1 HPlacing); [|left]|].
    eapply steps_cons; [by apply (flight_answered _ _ 0)|].
    match goal with |- steps _ ?a ?b => replace a with b by (vm_compute; reflexivity) end.
    apply steps_refl. }
  split; [exact Hs|]. apply (in_flight_exact 2 _ Hs); [done|].
  apply Forall_cons; split; [by left|]. apply Forall_cons; split; [by right|]. by apply Forall_nil.
Defined.
