(* ===== verification/BuildEnv.v ===== *)
(** The Rack env of a request ([build_env] of [request.rs], the setters and
    [register_defaults] of [env_strings.rs]), and the proof that its string
    caches cannot be observed. *)

From S2P Require Import Prelude Text Channels Gvl Response Request Registry EnvStrings.
From S2P Require AccessLog Reply Admission.
From Stdlib Require Import Ascii.

(** ** Env entries *)

(** A frozen static string, a cached or fresh one, or a Ruby object. *)
Inductive EnvEntry : Type :=
  | EnvFrozen (s : string)
  | EnvStr (s : RbStr)
  | EnvObj (v : Z).

(** What the application sees of an entry: bytes and encoding, or the object. *)
Inductive EnvVal : Type :=
  | VStr (s : string) (bin : bool)
  | VObj (v : Z).

Definition view (e : EnvEntry) : EnvVal :=
  match e with
  | EnvFrozen s => VStr s false
  | EnvStr s => VStr (text s) (binary s)
  | EnvObj v => VObj v
  end.

Notation env_hash := (gmap string EnvEntry).

(** The shareable singletons the Ruby layer registers. *)
Record Defaults : Type := MkDefaults {
  errors_stream : option Z;
  null_input : option Z;
}.

Definition register_defaults (shareable : Z → bool) (errors null_input : Z) (d : Defaults)
  : result unit * Defaults :=
  if forallb shareable [errors; null_input]
  then (Ok (), MkDefaults (Some errors) (Some null_input))
  else (Err (ArgError "register_defaults expects Ractor-shareable objects"), d).

Definition header_key (name : string) : string :=
  if String.eqb name "content-type" then "CONTENT_TYPE"
  else if String.eqb name "content-length" then "CONTENT_LENGTH"
  else match find_header name with
       | Some key => key
       | None => cgi_name name
       end.

Definition separator (name : string) : string := if String.eqb name "cookie" then "; " else ", ".

Section build_env.
Context {chan : Type → Type} `{!Flume chan} {lru : Type → Type → Type} `{!Lru lru}.
(** [std::str::from_utf8] and [String::from_utf8_lossy]. *)
Context (valid_utf8 : string → bool) (from_utf8_lossy : string → string).
Implicit Types (ctx : RequestCtx chan) (w : EnvCaches lru) (env : env_hash).

(** The key under which the hosts cache keeps the request's server name, and
    the name and port it makes on a miss. *)
Definition host_make (host : string) (local_port : Z) : string * Z :=
  if valid_utf8 host then Reply.split_host_port host local_port else (from_utf8_lossy host, local_port).

Definition authority_make (au : Authority) (local_port : Z) : string * Z :=
  (au_host au, default local_port (au_port_u16 au)).

Definition nul : ascii := "000"%char.

Definition host_source ctx : string * (string * Z) :=
  let local_port := port (local_addr ctx) in
  match authority (uri ctx) with
  | Some au => (au_str au, authority_make au local_port)
  | None =>
      match Admission.header "host" (headers ctx) with
      | Some host => (host, host_make host local_port)
      | None =>
          let ip := AccessLog.display_ip (ip (local_addr ctx)) in
          (String nul (ip +:+ ":" +:+ display local_port), (ip, local_port))
      end
  end.

Definition protocol_of (v : Version) : string :=
  match v with
  | HTTP_10 => "HTTP/1.0"
  | HTTP_2 => "HTTP/2"
  | HTTP_11 => "HTTP/1.1"
  end.

Definition query_of (q : option string) : option string :=
  match q with
  | Some "" | None => None
  | Some q => Some q
  end.

(** Everything the request line says. *)
Definition env_request_line ctx w : env_hash * EnvCaches lru :=
  let '(m, w) := if existsb (String.eqb (method ctx)) COMMON_METHODS then (EnvFrozen (method ctx), w)
                 else let '(s, w) := fresh (method ctx) false w in (EnvStr s, w) in
  let '(p, w) := fresh (path (uri ctx)) true w in
  let '(q, w) := match query_of (query (uri ctx)) with
                 | Some q => let '(s, w) := fresh q true w in (EnvStr s, w)
                 | None => (EnvFrozen "", w)
                 end in
  (<["SERVER_PROTOCOL" := EnvFrozen (protocol_of (version ctx))]>
     (<["QUERY_STRING" := q]>
        (<["PATH_INFO" := EnvStr p]>
           (<["SCRIPT_NAME" := EnvFrozen ""]>
              (<["REQUEST_METHOD" := m]> ∅)))), w).

(** The peer, the scheme and the shareable singletons. *)
Definition env_connection (race : EnvCaches lru → EnvCaches lru) (d : Defaults) ctx env w
  : env_hash * EnvCaches lru :=
  let '(a, w) := addr_env race (ip (remote_addr ctx)) w in
  let env := <["REMOTE_ADDR" := EnvStr a]> env in
  let env := <["rack.url_scheme" := EnvFrozen (if https ctx then "https" else "http")]> env in
  let env := match errors_stream d with
             | Some e => <["rack.errors" := EnvObj e]> env
             | None => env
             end in
  let env := if body_possible ctx then env
             else match null_input d with
                  | Some i => <["rack.input" := EnvObj i]> env
                  | None => env
                  end in
  (env, w).

(** One value through the value cache; several joined, uncached. *)
Definition env_value (race : EnvCaches lru → EnvCaches lru) (name : string) (vs : list string) w
  : RbStr * EnvCaches lru :=
  match vs with
  | [] => value_env race name "" w
  | [v] => value_env race name v w
  | _ => fresh (str_join (separator name) vs) true w
  end.

Fixpoint env_headers (race : EnvCaches lru → EnvCaches lru) (hs : list (string * list string)) env w
  : env_hash * EnvCaches lru :=
  match hs with
  | [] => (env, w)
  | (name, vs) :: hs =>
      let '(v, w) := env_value race name vs w in
      env_headers race hs (<[header_key name := EnvStr v]> env) w
  end.

(** SERVER_NAME, SERVER_PORT and, from an authority, HTTP_HOST; last, so that
    the authority wins over a Host header. *)
Definition env_server (race : EnvCaches lru → EnvCaches lru) ctx env w : env_hash * EnvCaches lru :=
  let '(key, make) := host_source ctx in
  match authority (uri ctx) with
  | Some _ =>
      let '(name, port, host, w) := authority_env race key make w in
      (<[default "" (find_header "host") := EnvStr host]>
         (<["SERVER_PORT" := EnvStr port]> (<["SERVER_NAME" := EnvStr name]> env)), w)
  | None =>
      let '(name, port, w) := host_env race key make w in
      (<["SERVER_PORT" := EnvStr port]> (<["SERVER_NAME" := EnvStr name]> env), w)
  end.

Definition build_env (race : EnvCaches lru → EnvCaches lru) (d : Defaults) ctx w
  : env_hash * EnvCaches lru :=
  let '(env, w) := env_request_line ctx w in
  let '(env, w) := env_connection race d ctx env w in
  let '(env, w) := env_headers race (headers ctx) env w in
  env_server race ctx env w.

(** ** The reference

    The same env without any cache: the assignments in order. *)

Definition header_value (name : string) (vs : list string) : string := str_join (separator name) vs.

Definition rack_assignments (d : Defaults) ctx : list (string * EnvVal) :=
  [("REQUEST_METHOD", VStr (method ctx) false); ("SCRIPT_NAME", VStr "" false);
   ("PATH_INFO", VStr (path (uri ctx)) true);
   ("QUERY_STRING", match query_of (query (uri ctx)) with Some q => VStr q true | None => VStr "" false end);
   ("SERVER_PROTOCOL", VStr (protocol_of (version ctx)) false);
   ("REMOTE_ADDR", VStr (AccessLog.display_ip (ip (remote_addr ctx))) false);
   ("rack.url_scheme", VStr (if https ctx then "https" else "http") false)]
  ++ match errors_stream d with Some e => [("rack.errors", VObj e)] | None => [] end
  ++ (if body_possible ctx then [] else match null_input d with Some i => [("rack.input", VObj i)] | None => [] end)
  ++ ((λ '(name, vs), (header_key name, VStr (header_value name vs) true)) <$> headers ctx)
  ++ [("SERVER_NAME", VStr (host_source ctx).2.1 false);
      ("SERVER_PORT", VStr (display (host_source ctx).2.2) false)]
  ++ match authority (uri ctx) with Some au => [("HTTP_HOST", VStr (au_str au) false)] | None => [] end.

Definition assign (m : gmap string EnvVal) (p : string * EnvVal) : gmap string EnvVal := <[p.1 := p.2]> m.

Definition env_spec (d : Defaults) ctx : gmap string EnvVal := foldl assign ∅ (rack_assignments d ctx).
End build_env.

(** ** The caches cannot be observed *)

Definition agrees (env : env_hash) (l : list (string * EnvVal)) : Prop :=
  view <$> env = foldl assign ∅ l.

Lemma agrees_nil : agrees ∅ [].
Proof. apply fmap_empty. Qed.

Lemma agrees_insert env l k e v :
  view e = v → agrees env l → agrees (<[k := e]> env) (l ++ [(k, v)]).
Proof.
  unfold agrees. intros Hv H. rewrite fmap_insert, H, foldl_app, Hv. done.
Qed.
Create HintDb env discriminated.
#[export] Hint Resolve agrees_nil agrees_insert : env.

Section transparency.
Context {chan : Type → Type} `{!Flume chan} {lru : Type → Type → Type} `{!Lru lru, !LruSpec lru}.
Context (valid_utf8 : string → bool) (from_utf8_lossy : string → string).
Context (server_of : string → string * Z).
Context (race : EnvCaches lru → EnvCaches lru).
Context (race_inv : ∀ w, env_inv server_of w → env_inv server_of (race w)).
Implicit Types (ctx : RequestCtx chan) (w : EnvCaches lru) (env : env_hash).
Notation inv := (env_inv server_of).

Lemma fresh_inv s bin w : inv w → inv (fresh s bin w).2 ∧ view (EnvStr (fresh s bin w).1) = VStr s bin.
Proof. intros Hi. by destruct (env_inv_fresh server_of s bin w Hi) as (? & _). Qed.

Definition request_line_assignments ctx : list (string * EnvVal) :=
  [("REQUEST_METHOD", VStr (method ctx) false); ("SCRIPT_NAME", VStr "" false);
   ("PATH_INFO", VStr (path (uri ctx)) true);
   ("QUERY_STRING", match query_of (query (uri ctx)) with Some q => VStr q true | None => VStr "" false end);
   ("SERVER_PROTOCOL", VStr (protocol_of (version ctx)) false)].

Lemma env_request_line_agrees ctx w :
  inv w →
  let '(env, w') := env_request_line ctx w in
  agrees env (request_line_assignments ctx) ∧ inv w'.
Proof.
  intros Hi. unfold env_request_line.
  assert (Hm : ∃ m w1, (if existsb (String.eqb (method ctx)) COMMON_METHODS then (EnvFrozen (method ctx), w)
    else let '(s, w) := fresh (method ctx) false w in (EnvStr s, w)) = (m, w1)
    ∧ inv w1 ∧ view m = VStr (method ctx) false).
  { destruct (existsb _ _); [by eauto|]. pose proof (fresh_inv (method ctx) false w Hi) as [H1 H2].
    destruct (fresh (method ctx) false w). eauto. }
  destruct Hm as (m & w1 & -> & Hi1 & Hm).
  destruct (fresh_inv (path (uri ctx)) true w1 Hi1) as [Hi2 Hp].
  destruct (fresh (path (uri ctx)) true w1) as [p w2]. cbn [fst snd] in *.
  assert (Hq : ∃ q w3, (match query_of (query (uri ctx)) with
                 | Some q => let '(s, w) := fresh q true w2 in (EnvStr s, w)
                 | None => (EnvFrozen "", w2)
                 end) = (q, w3) ∧ inv w3
    ∧ view q = match query_of (query (uri ctx)) with Some q => VStr q true | None => VStr "" false end).
  { destruct (query_of _) as [q|]; [|by eauto]. pose proof (fresh_inv q true w2 Hi2) as [H1 H2].
    destruct (fresh q true w2). eauto. }
  destruct Hq as (q & w3 & -> & Hi3 & Hq). split; [|done].
  unfold request_line_assignments.
  apply (agrees_insert _ [_; _; _; _]), (agrees_insert _ [_; _; _]), (agrees_insert _ [_; _]),
    (agrees_insert _ [_]), (agrees_insert _ []), agrees_nil; done.
Qed.

Definition connection_assignments (d : Defaults) ctx : list (string * EnvVal) :=
  [("REMOTE_ADDR", VStr (AccessLog.display_ip (ip (remote_addr ctx))) false);
   ("rack.url_scheme", VStr (if https ctx then "https" else "http") false)]
  ++ match errors_stream d with Some e => [("rack.errors", VObj e)] | None => [] end
  ++ (if body_possible ctx then [] else match null_input d with Some i => [("rack.input", VObj i)] | None => [] end).

Lemma env_connection_agrees d ctx env l w :
  agrees env l → inv w →
  let '(env', w') := env_connection race d ctx env w in
  agrees env' (l ++ connection_assignments d ctx) ∧ inv w'.
Proof.
  intros He Hi. unfold env_connection, connection_assignments.
  pose proof (addr_env_inv server_of race (ip (remote_addr ctx)) w race_inv Hi) as Ha.
  destruct (addr_env race (ip (remote_addr ctx)) w) as [a w']. destruct Ha as [[Ht Hb] Hi']. split; [|done].
  rewrite (app_assoc _ (_ :: _)).
  set (l2 := l ++ [_; _]). set (e2 := <["rack.url_scheme" := _]> _).
  assert (H2 : agrees e2 l2).
  { subst e2 l2. rewrite (app_assoc l [_] [_] : l ++ [_; _] = _). apply agrees_insert; [done|].
    apply agrees_insert; [cbn; by rewrite Ht, Hb|done]. }
  set (e3 := match errors_stream d with Some e => _ | None => e2 end).
  assert (H3 : agrees e3 (l2 ++ match errors_stream d with Some e => [("rack.errors", VObj e)] | None => [] end)).
  { subst e3. destruct (errors_stream d); [by apply agrees_insert|by rewrite app_nil_r]. }
  rewrite app_assoc. revert H3. generalize e3 as e. intros e H3.
  destruct (body_possible ctx); [by rewrite app_nil_r|].
  destruct (null_input d); [by apply agrees_insert|by rewrite app_nil_r].
Qed.

Lemma env_value_agrees name vs w :
  inv w →
  let '(v, w') := env_value race name vs w in
  view (EnvStr v) = VStr (header_value name vs) true ∧ inv w'.
Proof.
  intros Hi. unfold env_value, header_value.
  assert (Hone : ∀ s, let '(v, w') := value_env race name s w in view (EnvStr v) = VStr s true ∧ inv w').
  { intros s. pose proof (value_env_inv server_of race name s w race_inv Hi) as H.
    destruct (value_env race name s w) as [v w']. destruct H as [[<- <-] H]. done. }
  destruct vs as [|v [|v' vs]]; [exact (Hone "")|exact (Hone v)|].
  destruct (fresh_inv (str_join (separator name) (v :: v' :: vs)) true w Hi) as [H1 H2].
  by destruct (fresh _ true w).
Qed.

Lemma env_headers_agrees hs env l w :
  agrees env l → inv w →
  let '(env', w') := env_headers race hs env w in
  agrees env' (l ++ ((λ '(name, vs), (header_key name, VStr (header_value name vs) true)) <$> hs)) ∧ inv w'.
Proof.
  revert env l w. induction hs as [|[name vs] hs IH]; intros env l w He Hi; cbn [env_headers fmap list_fmap].
  { by rewrite app_nil_r. }
  pose proof (env_value_agrees name vs w Hi) as Hv.
  destruct (env_value race name vs w) as [v w1]. destruct Hv as [Hv Hi1].
  specialize (IH (<[header_key name := EnvStr v]> env) (l ++ [(header_key name, VStr (header_value name vs) true)]) w1
                (agrees_insert _ _ _ _ _ Hv He) Hi1).
  destruct (env_headers race hs _ w1) as [env' w']. by rewrite <-app_assoc in IH.
Qed.

Lemma env_server_agrees ctx env l w :
  server_of (host_source valid_utf8 from_utf8_lossy ctx).1 = (host_source valid_utf8 from_utf8_lossy ctx).2 →
  agrees env l → inv w →
  let '(env', w') := env_server valid_utf8 from_utf8_lossy race ctx env w in
  agrees env' (l ++ [("SERVER_NAME", VStr (host_source valid_utf8 from_utf8_lossy ctx).2.1 false);
                     ("SERVER_PORT", VStr (display (host_source valid_utf8 from_utf8_lossy ctx).2.2) false)]
                 ++ match authority (uri ctx) with Some au => [("HTTP_HOST", VStr (au_str au) false)] | None => [] end)
  ∧ inv w'.
Proof.
  intros Hs He Hi. unfold env_server.
  assert (Hkey : ∀ au, authority (uri ctx) = Some au → (host_source valid_utf8 from_utf8_lossy ctx).1 = au_str au)
    by (intros au E; unfold host_source; by rewrite E).
  destruct (host_source valid_utf8 from_utf8_lossy ctx) as [key make]. cbn [fst snd] in *.
  assert (Hnp : ∀ name port : RbStr, names make (name, port) →
    agrees (<["SERVER_PORT" := EnvStr port]> (<["SERVER_NAME" := EnvStr name]> env))
      (l ++ [("SERVER_NAME", VStr make.1 false); ("SERVER_PORT", VStr (display make.2) false)])).
  { intros name port [[Hn1 Hn2] [Hp1 Hp2]]. cbn [fst snd] in *.
    rewrite (app_assoc l [_] [_] : l ++ [_; _] = _).
    apply agrees_insert; [cbn; by rewrite Hp1, Hp2|]. apply agrees_insert; [cbn; by rewrite Hn1, Hn2|done]. }
  destruct (authority (uri ctx)) as [au|].
  - pose proof (authority_env_inv server_of race key make w race_inv Hs Hi) as Ha.
    destruct (authority_env race key make w) as [[[name port] host] w']. destruct Ha as (Hn & [Hh1 Hh2] & Hi').
    split; [|done]. rewrite app_assoc. apply agrees_insert; [|by apply Hnp].
    cbn. by rewrite Hh1, Hh2, (Hkey au eq_refl).
  - pose proof (host_env_inv server_of race key make w race_inv Hs Hi) as Ha.
    destruct (host_env race key make w) as [[name port] w']. destruct Ha as (Hn & Hi').
    split; [|done]. rewrite app_nil_r. by apply Hnp.
Qed.
End transparency.

(** C29: The caches and their races cannot be observed: whatever they hold
    and whatever other ractors do to them meanwhile, the env a worker gets is,
    entry by entry and encoding by encoding, the one built without any cache,
    provided the requests of the process agree on what the key of the server
    name stands for. And the caches stay sound: every entry holds the strings
    of its key, within its capacity, and exactly the cached strings are rooted
    in the slab. *)
Theorem build_env_transparent {chan lru} `{!Flume chan, !Lru lru, !LruSpec lru}
    valid_utf8 from_utf8_lossy server_of (race : EnvCaches lru → EnvCaches lru) d
    (ctx : RequestCtx chan) (w : EnvCaches lru) :
  (∀ w, env_inv server_of w → env_inv server_of (race w)) →
  server_of (host_source valid_utf8 from_utf8_lossy ctx).1 = (host_source valid_utf8 from_utf8_lossy ctx).2 →
  env_inv server_of w →
  let '(env, w') := build_env valid_utf8 from_utf8_lossy race d ctx w in
  view <$> env = env_spec valid_utf8 from_utf8_lossy d ctx ∧ env_inv server_of w'.
Proof.
  intros Hrace Hs Hi. unfold build_env.
  pose proof (env_request_line_agrees server_of ctx w Hi) as H1.
  destruct (env_request_line ctx w) as [e1 w1]. destruct H1 as [H1 Hi1].
  pose proof (env_connection_agrees server_of race Hrace d ctx e1 _ w1 H1 Hi1) as H2.
  destruct (env_connection race d ctx e1 w1) as [e2 w2]. destruct H2 as [H2 Hi2].
  pose proof (env_headers_agrees server_of race Hrace (headers ctx) e2 _ w2 H2 Hi2) as H3.
  destruct (env_headers race (headers ctx) e2 w2) as [e3 w3]. destruct H3 as [H3 Hi3].
  pose proof (env_server_agrees valid_utf8 from_utf8_lossy server_of race Hrace ctx e3 _ w3 Hs H3 Hi3) as H4.
  destruct (env_server valid_utf8 from_utf8_lossy race ctx e3 w3) as [e4 w4]. destruct H4 as [H4 Hi4].
  split; [|done]. rewrite H4. unfold env_spec, rack_assignments, request_line_assignments, connection_assignments.
  by rewrite <-!app_assoc.
Qed.

(** ** What the env says *)

Lemma foldl_assign_not k (l : list (string * EnvVal)) m :
  k ∉ l.*1 → foldl assign m l !! k = m !! k.
Proof.
  revert m. induction l as [|[k' v] l IH]; intros m Hk; cbn; [done|].
  cbn in Hk. apply not_elem_of_cons in Hk as [Hne Hk]. rewrite IH by done.
  apply lookup_insert_ne. by intros ->.
Qed.

Lemma starts_HTTP s : ∃ r, cgi_name s = String "H" r.
Proof. unfold cgi_name. cbn. eauto. Qed.

Lemma find_header_cgi name key : find_header name = Some key → key = cgi_name name.
Proof.
  unfold find_header, header_names. destruct (List.find _ _) as [[h k]|] eqn:E; [|done]. intros [= <-].
  apply List.find_some in E as [Hin Heq%String.eqb_eq]. cbn in Heq. subst h.
  apply list_elem_of_In, list_elem_of_fmap in Hin as (h & [= -> ->] & _). done.
Qed.

(** The table of common names only saves the work. *)
Lemma header_key_spec name :
  header_key name = (if String.eqb name "content-type" then "CONTENT_TYPE"
                     else if String.eqb name "content-length" then "CONTENT_LENGTH" else cgi_name name).
Proof.
  unfold header_key. repeat case_match; try done. by apply find_header_cgi.
Qed.

Definition connection_keys : list string :=
  ["REQUEST_METHOD"; "SCRIPT_NAME"; "PATH_INFO"; "QUERY_STRING"; "SERVER_PROTOCOL"; "REMOTE_ADDR";
   "rack.url_scheme"; "rack.errors"; "rack.input"; "SERVER_NAME"; "SERVER_PORT"].

Lemma header_key_not k name : k ∈ connection_keys → k ≠ header_key name.
Proof.
  rewrite header_key_spec. destruct (starts_HTTP name) as [r ->]. unfold connection_keys.
  destruct (String.eqb name "content-type"), (String.eqb name "content-length");
    rewrite !elem_of_cons, elem_of_nil; naive_solver.
Qed.

Section rack.
Context {chan : Type → Type} `{!Flume chan}.
Context (valid_utf8 : string → bool) (from_utf8_lossy : string → string).
Implicit Types (ctx : RequestCtx chan).
Notation spec := (env_spec valid_utf8 from_utf8_lossy).

Definition header_assignments ctx : list (string * EnvVal) :=
  (λ '(name, vs), (header_key name, VStr (header_value name vs) true)) <$> headers ctx.

Definition server_assignments ctx : list (string * EnvVal) :=
  [("SERVER_NAME", VStr (host_source valid_utf8 from_utf8_lossy ctx).2.1 false);
   ("SERVER_PORT", VStr (display (host_source valid_utf8 from_utf8_lossy ctx).2.2) false)]
  ++ match authority (uri ctx) with Some au => [("HTTP_HOST", VStr (au_str au) false)] | None => [] end.

Lemma env_spec_split d ctx :
  spec d ctx = foldl assign (foldl assign (foldl assign ∅
    (request_line_assignments ctx ++ connection_assignments d ctx)) (header_assignments ctx))
    (server_assignments ctx).
Proof.
  rewrite <-!foldl_app. unfold env_spec, rack_assignments, request_line_assignments,
    connection_assignments, header_assignments, server_assignments. by rewrite <-!app_assoc.
Qed.

Lemma header_keys_in k ctx : k ∈ (header_assignments ctx).*1 → ∃ name vs, (name, vs) ∈ headers ctx ∧ k = header_key name.
Proof.
  unfold header_assignments. rewrite <-list_fmap_compose, list_elem_of_fmap.
  intros ([name vs] & -> & Hin). by exists name, vs.
Qed.

Lemma spec_connection d ctx k :
  k ∈ connection_keys → k ≠ "SERVER_NAME" → k ≠ "SERVER_PORT" →
  spec d ctx !! k
  = foldl assign ∅ (request_line_assignments ctx ++ connection_assignments d ctx) !! k.
Proof.
  intros Hk H1 H2. rewrite env_spec_split, (foldl_assign_not _ (server_assignments _)),
    (foldl_assign_not _ (header_assignments _)); [done| |].
  - intros (name & vs & _ & E)%header_keys_in. by apply (header_key_not k name).
  - unfold server_assignments. rewrite fmap_app, elem_of_app. cbn.
    rewrite !elem_of_cons, elem_of_nil. destruct (authority (uri ctx)); cbn;
      rewrite ?elem_of_cons, ?elem_of_nil; [|tauto].
    intros [[|[|[]]]|[->|[]]]; [done|done|]. revert Hk. unfold connection_keys.
    rewrite !elem_of_cons, elem_of_nil. naive_solver.
Qed.

Lemma spec_header d ctx k :
  k ∉ ["SERVER_NAME"; "SERVER_PORT"] → (k = "HTTP_HOST" → authority (uri ctx) = None) →
  spec d ctx !! k
  = foldl assign (foldl assign ∅ (request_line_assignments ctx ++ connection_assignments d ctx))
      (header_assignments ctx) !! k.
Proof.
  intros Hk Hh. rewrite env_spec_split, foldl_assign_not; [done|].
  unfold server_assignments. rewrite fmap_app, elem_of_app. intros [H|H]; [by apply Hk|].
  destruct (authority (uri ctx)); [|by apply elem_of_nil in H].
  cbn in H. apply elem_of_cons in H as [->|H%elem_of_nil]; [|done]. by discriminate Hh.
Qed.
End rack.

(** The last assignment to a key is the one that counts. *)
Ltac last_set :=
  repeat (unfold assign at 1; cbn [fst snd];
          first [apply lookup_insert_eq | rewrite lookup_insert_ne by done]).


(** ** Two listeners *)

Definition host_ctx (local_port : Z) : RequestCtx ListChan.t :=
  MkCtx "GET" (MkUri "/" None None) HTTP_11 [("host", ["app.test"])]
    (MkSocketAddr (V4 127 0 0 1) 40000) (MkSocketAddr (V4 127 0 0 1) local_port)
    false None None (Some 0%nat) 0 0 false 0 0 None.

Definition all_utf8 : string → bool := λ _, true.

Example build_env_transparent_witness :
  let '(env, w') := build_env all_utf8 (λ s, s) (λ w, w) (MkDefaults None None) (host_ctx 9292)
                      (caches_new (lru := ListLru.t)) in
  view <$> env = env_spec all_utf8 (λ s, s) (MkDefaults None None) (host_ctx 9292)
  ∧ env_inv (λ _, ("app.test", 9292)) w'.
Proof.
  apply (build_env_transparent all_utf8 (λ s, s) (λ _, ("app.test", 9292)) (λ w, w)).
  - intros w Hw. exact Hw.
  - reflexivity.
  - apply env_inv_new.
Defined.

(** The key of the server name does not tell listeners apart: after a request
    with the same Host header on the listener of port 9292, one on port 9393
    is told it came in on 9292. *)
Example host_cache_forgets_the_listener :
  let caches := (build_env all_utf8 (λ s, s) (λ w, w) (MkDefaults None None) (host_ctx 9292)
                   (caches_new (lru := ListLru.t))).2 in
  let env := (build_env all_utf8 (λ s, s) (λ w, w) (MkDefaults None None) (host_ctx 9393) caches).1 in
  view <$> (env !! "SERVER_PORT") = Some (VStr "9292" false)
  ∧ env_spec all_utf8 (λ s, s) (MkDefaults None None) (host_ctx 9393) !! "SERVER_PORT" = Some (VStr "9393" false).
Proof. vm_compute. done. Qed.
