(* ===== verification/StaticStrings.v ===== *)
(** The static half of the env strings ([env_strings.rs]): the frozen keys and
    values that [init] builds once on the main ractor, what it asks of the
    Ruby VM for each of them, and the cell they are kept in. *)

From S2P Require Import Prelude Text EnvStrings BuildEnv.
From S2P Require Pin.

(** ** What the code asks of the VM *)

(** A Ruby String: its bytes, whether its encoding is binary, whether it is
    frozen and flagged shareable. *)
Record StrObj : Type := MkStrObj {
  so_bytes : string;
  so_binary : bool;
  so_frozen : bool;
  so_shareable : bool;
}.

(** The strings and the wrapped keepers made so far, by VALUE, and the objects
    registered as mark objects, which the collector never frees nor moves. *)
Record Vm : Type := MkVm {
  vm_next : Z;
  vm_strings : gmap Z StrObj;
  vm_keepers : gmap Z Pin.PinKeeper;
  vm_marked : list Z;
}.

(** Ruby code runs under the GVL: a call is a function of the VM. *)
Definition Gvl (A : Type) : Type := Vm → A * Vm.

#[export] Instance gvl_ret : MRet Gvl := λ A x vm, (x, vm).
#[export] Instance gvl_bind : MBind Gvl := λ A B f m vm, let '(x, vm) := m vm in f x vm.

Definition new_str (bin : bool) (s : string) : Gvl Z := λ vm,
  (vm_next vm,
   MkVm (vm_next vm + 1) (<[vm_next vm := MkStrObj s bin false false]> (vm_strings vm)) (vm_keepers vm)
     (vm_marked vm)).

Definition str_new : string → Gvl Z := new_str false.
Definition str_from_slice : string → Gvl Z := new_str true.

Definition on_str (f : StrObj → StrObj) (v : Z) : Gvl () := λ vm,
  (tt, MkVm (vm_next vm) (alter f v (vm_strings vm)) (vm_keepers vm) (vm_marked vm)).

Definition freeze : Z → Gvl () :=
  on_str (λ o, MkStrObj (so_bytes o) (so_binary o) true (so_shareable o)).
Definition rb_ractor_make_shareable : Z → Gvl () :=
  on_str (λ o, MkStrObj (so_bytes o) (so_binary o) (so_frozen o) true).

Definition gc_register_mark_object (v : Z) : Gvl () := λ vm,
  (tt, MkVm (vm_next vm) (vm_strings vm) (vm_keepers vm) (v :: vm_marked vm)).

Definition obj_wrap (k : Pin.PinKeeper) : Gvl Z := λ vm,
  (vm_next vm, MkVm (vm_next vm + 1) (vm_strings vm) (<[vm_next vm := k]> (vm_keepers vm)) (vm_marked vm)).

(** ** Frozen strings *)

Definition shareable (string : Z) : Gvl Z :=
  _ ← freeze string; _ ← rb_ractor_make_shareable string; mret string.

Definition frozen_str (s : string) : Gvl Z := string ← str_new s; shareable string.

Definition frozen_slice (bytes : string) : Gvl Z := string ← str_from_slice bytes; shareable string.

Definition frozen (s : string) : Gvl Z :=
  string ← frozen_str s; _ ← gc_register_mark_object string; mret string.

(** ** The table *)

Record EnvStrings (lru : Type → Type → Type) : Type := MkEnvStrings {
  request_method : Z; script_name : Z; path_info : Z; query_string : Z; server_protocol : Z;
  server_name : Z; server_port : Z; remote_addr : Z; content_type : Z; content_length : Z;
  rack_url_scheme : Z; rack_input : Z; rack_errors : Z; kino_request : Z;
  empty : Z; http : Z; https : Z; http10 : Z; http11 : Z; http2 : Z;
  methods : gmap string Z;
  header_keys : gmap string Z;
  caches : EnvCaches lru;
  internable : gset string;
  defaults : Defaults;
}.
Arguments request_method {lru}. Arguments script_name {lru}. Arguments path_info {lru}.
Arguments query_string {lru}. Arguments server_protocol {lru}. Arguments server_name {lru}.
Arguments server_port {lru}. Arguments remote_addr {lru}. Arguments content_type {lru}.
Arguments content_length {lru}. Arguments rack_url_scheme {lru}. Arguments rack_input {lru}.
Arguments rack_errors {lru}. Arguments kino_request {lru}. Arguments empty {lru}.
Arguments http {lru}. Arguments https {lru}. Arguments http10 {lru}. Arguments http11 {lru}.
Arguments http2 {lru}. Arguments methods {lru}. Arguments header_keys {lru}.
Arguments caches {lru}. Arguments internable {lru}. Arguments defaults {lru}.
Arguments MkEnvStrings {lru}.

(** [iter], [map] over the names, a frozen string for each. *)
Definition frozen_table (g : string → string) (l : list string) : Gvl (list (string * Z)) :=
  mapM (λ m, v ← frozen (g m); mret (m, v)) l.

(** The keeper of a slab, registered. *)
Definition rooted_keeper (k : Pin.PinKeeper) : Gvl Z :=
  keeper ← obj_wrap k; _ ← gc_register_mark_object keeper; mret keeper.

(** [collect] into a map: a later pair replaces an earlier one. *)
Definition collect (l : list (string * Z)) : gmap string Z := foldl (λ m p, <[p.1 := p.2]> m) ∅ l.

Section init.
Context {lru : Type → Type → Type} `{!Lru lru}.

Definition build_strings : Gvl (EnvStrings lru) :=
  methods ← frozen_table (λ m, m) COMMON_METHODS;
  header_names ← frozen_table cgi_name COMMON_HEADERS;
  _ ← rooted_keeper (Pin.MkPinKeeper (slab (caches_new (lru := lru))));
  request_method ← frozen "REQUEST_METHOD";
  script_name ← frozen "SCRIPT_NAME";
  path_info ← frozen "PATH_INFO";
  query_string ← frozen "QUERY_STRING";
  server_protocol ← frozen "SERVER_PROTOCOL";
  server_name ← frozen "SERVER_NAME";
  server_port ← frozen "SERVER_PORT";
  remote_addr ← frozen "REMOTE_ADDR";
  content_type ← frozen "CONTENT_TYPE";
  content_length ← frozen "CONTENT_LENGTH";
  rack_url_scheme ← frozen "rack.url_scheme";
  rack_input ← frozen "rack.input";
  rack_errors ← frozen "rack.errors";
  kino_request ← frozen "kino.request";
  empty ← frozen "";
  http ← frozen "http";
  https ← frozen "https";
  http10 ← frozen "HTTP/1.0";
  http11 ← frozen "HTTP/1.1";
  http2 ← frozen "HTTP/2";
  mret (MkEnvStrings request_method script_name path_info query_string server_protocol server_name
    server_port remote_addr content_type content_length rack_url_scheme rack_input rack_errors
    kino_request empty http https http10 http11 http2 (collect methods) (collect header_names)
    caches_new (list_to_set INTERNABLE_VALUES) (MkDefaults None None)).

(** [ENV_STRINGS], a [OnceLock]: the first table set stays. *)
Definition init (cell : option (EnvStrings lru)) : Gvl (option (EnvStrings lru)) :=
  strings ← build_strings;
  mret (match cell with Some s => Some s | None => Some strings end).

(** [None]: [get] panics. *)
Definition get (cell : option (EnvStrings lru)) : option (EnvStrings lru) := cell.
End init.

(** ** What [init] leaves behind *)

(** A string that no collection, on any ractor, can take away: frozen, flagged
    shareable, and registered. *)
Definition immortal (vm : Vm) (s : string) (v : Z) : Prop :=
  vm_strings vm !! v = Some (MkStrObj s false true true) ∧ v ∈ vm_marked vm.

(** VALUEs are fresh, and no object is registered twice. *)
Definition vm_ok (vm : Vm) : Prop :=
  (∀ v, vm_next vm ≤ v → vm_strings vm !! v = None ∧ vm_keepers vm !! v = None ∧ v ∉ vm_marked vm)
  ∧ NoDup (vm_marked vm).

(** What exists is kept as it is. *)
Record vm_le (vm vm' : Vm) : Prop := {
  le_strings : vm_strings vm ⊆ vm_strings vm';
  le_keepers : vm_keepers vm ⊆ vm_keepers vm';
  le_marked : vm_marked vm ⊆ vm_marked vm';
}.

#[export] Instance vm_le_preorder : PreOrder vm_le.
Proof. split; [by intros vm; split|]. intros vm1 vm2 vm3 [] []. split; by etrans. Qed.

(** The rule by which a construction is followed step by step. *)
Definition makes {A} (m : Gvl A) (P : Vm → A → Prop) : Prop :=
  ∀ vm, vm_ok vm → let '(x, vm') := m vm in vm_ok vm' ∧ vm_le vm vm' ∧ P vm' x.

Definition lasting (P : Vm → Prop) : Prop := ∀ vm vm', vm_le vm vm' → P vm → P vm'.

Lemma lasting_immortal s v : lasting (λ vm, immortal vm s v).
Proof. intros vm vm' [Hs _ Hm] [Hv Hin]. split; [by eapply lookup_weaken|by apply Hm]. Qed.

Lemma makes_ret {A} (x : A) (P : Vm → A → Prop) : (∀ vm, P vm x) → makes (mret x) P.
Proof. intros HP vm Hok. by split_and!. Qed.

Lemma makes_bind {A B} (m : Gvl A) (k : A → Gvl B) (P : Vm → A → Prop) (Q : A → Vm → B → Prop) :
  makes m P → (∀ x, lasting (λ vm, P vm x)) → (∀ x, makes (k x) (Q x)) →
  makes (m ≫= k) (λ vm y, ∃ x, P vm x ∧ Q x vm y).
Proof.
  intros Hm Hl Hk vm Hok. unfold mbind, gvl_bind. specialize (Hm vm Hok). destruct (m vm) as [x vm1].
  destruct Hm as (Hok1 & Hle1 & HP). specialize (Hk x vm1 Hok1). destruct (k x vm1) as [y vm2].
  destruct Hk as (Hok2 & Hle2 & HQ). split_and!; [done|by etrans|].
  exists x. split; [|done]. by eapply Hl.
Qed.

Lemma makes_weaken {A} (m : Gvl A) (P Q : Vm → A → Prop) :
  makes m P → (∀ vm x, P vm x → Q vm x) → makes m Q.
Proof.
  intros Hm HPQ vm Hok. specialize (Hm vm Hok). destruct (m vm) as [x vm1].
  destruct Hm as (? & ? & ?). split_and!; auto.
Qed.

Lemma makes_frozen s : makes (frozen s) (λ vm v, immortal vm s v).
Proof.
  intros vm [Hfresh Hnd]. destruct (Hfresh (vm_next vm)) as (Hnone & _ & Hnin); [lia|].
  unfold frozen, frozen_str, str_new, shareable, new_str, freeze, rb_ractor_make_shareable, on_str,
    gc_register_mark_object, mbind, gvl_bind, mret, gvl_ret.
  cbn [vm_next vm_strings vm_marked vm_keepers]. rewrite !alter_insert_eq.
  cbn [so_bytes so_binary so_frozen so_shareable]. split_and!.
  - split; cbn [vm_next vm_strings vm_keepers vm_marked]; [|by constructor].
    intros v Hv. destruct (Hfresh v) as (Hs & Hk & Hm); [lia|].
    rewrite lookup_insert_ne by lia. rewrite not_elem_of_cons. split_and!; [done|done|lia|done].
  - split; cbn [vm_strings vm_keepers vm_marked]; [by apply insert_subseteq|done|by apply list_subseteq_cons].
  - split; cbn [vm_strings vm_marked]; [by rewrite lookup_insert_eq|by left].
Qed.

(** The slab's keeper, registered: whatever the slab holds is marked. *)
Definition kept_by (k : Pin.PinKeeper) (vm : Vm) (v : Z) : Prop :=
  vm_keepers vm !! v = Some k ∧ v ∈ vm_marked vm.

Lemma lasting_kept k v : lasting (λ vm, kept_by k vm v).
Proof. intros vm vm' [_ Hk Hm] [Hv Hin]. split; [by eapply lookup_weaken|by apply Hm]. Qed.

Lemma makes_keeper k : makes (rooted_keeper k) (kept_by k).
Proof.
  intros vm [Hfresh Hnd]. destruct (Hfresh (vm_next vm)) as (_ & Hnone & Hnin); [lia|].
  unfold rooted_keeper, obj_wrap, gc_register_mark_object, mbind, gvl_bind, mret, gvl_ret.
  cbn [vm_next vm_strings vm_marked vm_keepers]. split_and!.
  - split; cbn [vm_next vm_strings vm_keepers vm_marked]; [|by constructor].
    intros v Hv. destruct (Hfresh v) as (Hs & Hk & Hm); [lia|].
    rewrite lookup_insert_ne by lia. rewrite not_elem_of_cons. split_and!; [done|done|lia|done].
  - split; cbn [vm_strings vm_keepers vm_marked]; [done|by apply insert_subseteq|by apply list_subseteq_cons].
  - split; cbn [vm_keepers vm_marked]; [by rewrite lookup_insert_eq|by left].
Qed.

(** A string per name. *)
Definition table_of (g : string → string) (l : list string) (vm : Vm) (t : list (string * Z)) : Prop :=
  t.*1 = l ∧ Forall (λ p, immortal vm (g p.1) p.2) t.

Lemma lasting_table g l t : lasting (λ vm, table_of g l vm t).
Proof.
  intros vm vm' Hle [Hd Ht]. split; [done|]. eapply Forall_impl; [exact Ht|].
  intros p. by apply lasting_immortal.
Qed.

Lemma makes_table g l : makes (frozen_table g l) (table_of g l).
Proof.
  induction l as [|m l IH]; [by apply makes_ret|]. eapply makes_weaken.
  - eapply (makes_bind _ _ (λ vm p, p.1 = m ∧ immortal vm (g m) p.2)).
    + eapply makes_weaken; [eapply makes_bind; [apply makes_frozen|intros v; apply lasting_immortal|]|].
      * intros v. apply (makes_ret _ (λ _ p, p = (m, v))). done.
      * by intros vm p (v & Hv & ->).
    + intros p vm vm' Hle [? ?]. split; [done|]. by eapply lasting_immortal.
    + intros p. eapply makes_bind; [exact IH|intros t; apply lasting_table|].
      intros t. apply (makes_ret _ (λ _ t', t' = p :: t)). done.
  - intros vm t' ([m' v] & [? Hv] & t & [Hd Ht] & ->). cbn in *. subst m'.
    split; [by rewrite fmap_cons, Hd|by constructor].
Qed.

Lemma collect_lookup l k v : NoDup l.*1 → (k, v) ∈ l → collect l !! k = Some v.
Proof.
  unfold collect. intros Hnd Hin.
  assert (Hgen : ∀ m : gmap string Z, foldl (λ m p, <[p.1 := p.2]> m) m l !! k = Some v); [|done].
  revert Hnd Hin. induction l as [|[k' v'] l IH]; intros Hnd Hin m; [by apply elem_of_nil in Hin|].
  cbn in *. apply NoDup_cons in Hnd as [Hni Hnd]. apply elem_of_cons in Hin as [[= -> ->]|Hin]; [|by apply IH].
  assert (Hkeep : ∀ m : gmap string Z, m !! k' = Some v' → foldl (λ m p, <[p.1 := p.2]> m) m l !! k' = Some v').
  { clear -Hni. induction l as [|[k2 v2] l IH]; [done|]. cbn in *. intros m Hm.
    apply not_elem_of_cons in Hni as [Hne Hni]. apply IH; [done|]. by rewrite lookup_insert_ne. }
  apply Hkeep. by rewrite lookup_insert_eq.
Qed.

Lemma collect_in l k v : collect l !! k = Some v → (k, v) ∈ l.
Proof.
  assert (Hgen : ∀ m : gmap string Z,
    foldl (λ m p, <[p.1 := p.2]> m) m l !! k = Some v → (k, v) ∈ l ∨ m !! k = Some v).
  { induction l as [|[k' v'] l IH]; cbn; intros m H; [by right|].
    destruct (IH _ H) as [?|Hm]; [left; by right|].
    apply lookup_insert_Some in Hm as [[-> ->]|[_ ?]]; [left; by left|by right]. }
  intros H. by destruct (Hgen ∅ H) as [?|?%lookup_empty_Some].
Qed.

(** *** The table *)

Section table.
Context {lru : Type → Type → Type} `{!Lru lru}.
Implicit Types (s : EnvStrings lru).

(** The keys and values of every env, with their bytes. *)
Definition fields s : list (Z * string) :=
  [(request_method s, "REQUEST_METHOD"); (script_name s, "SCRIPT_NAME"); (path_info s, "PATH_INFO");
   (query_string s, "QUERY_STRING"); (server_protocol s, "SERVER_PROTOCOL");
   (server_name s, "SERVER_NAME"); (server_port s, "SERVER_PORT"); (remote_addr s, "REMOTE_ADDR");
   (content_type s, "CONTENT_TYPE"); (content_length s, "CONTENT_LENGTH");
   (rack_url_scheme s, "rack.url_scheme"); (rack_input s, "rack.input");
   (rack_errors s, "rack.errors"); (kino_request s, "kino.request"); (empty s, "");
   (http s, "http"); (https s, "https"); (http10 s, "HTTP/1.0"); (http11 s, "HTTP/1.1");
   (http2 s, "HTTP/2")].

(** From states that have [H], the construction leads to [Q]. *)
Definition leads {A} (H : Vm → Prop) (m : Gvl A) (Q : Vm → A → Prop) : Prop :=
  ∀ vm, vm_ok vm → H vm → let '(x, vm') := m vm in vm_ok vm' ∧ Q vm' x.

Lemma leads_ret {A} (H : Vm → Prop) (x : A) (Q : Vm → A → Prop) :
  (∀ vm, H vm → Q vm x) → leads H (mret x) Q.
Proof. intros HQ vm Hok Hv. split; [done|by apply HQ]. Qed.

Lemma leads_bind {A B} (H : Vm → Prop) (m : Gvl A) (P : Vm → A → Prop) (k : A → Gvl B) (Q : Vm → B → Prop) :
  lasting H → makes m P → (∀ x, leads (λ vm, H vm ∧ P vm x) (k x) Q) → leads H (m ≫= k) Q.
Proof.
  intros HH Hm Hk vm Hok Hv. unfold mbind, gvl_bind. specialize (Hm vm Hok). destruct (m vm) as [x vm1].
  destruct Hm as (Hok1 & Hle & HP). apply (Hk x vm1 Hok1). split; [by eapply HH|done].
Qed.

Lemma lasting_and (P Q : Vm → Prop) : lasting P → lasting Q → lasting (λ vm, P vm ∧ Q vm).
Proof. intros HP HQ vm vm' Hle [? ?]. split; [by eapply HP|by eapply HQ]. Qed.

Lemma lasting_const (P : Prop) : lasting (λ _, P).
Proof. by intros vm vm' _. Qed.

(** What each name of [l] leads to in the table. *)
Definition names (m : gmap string Z) (g : string → string) (l : list string) (vm : Vm) : Prop :=
  ∀ name, match m !! name with
          | Some v => name ∈ l ∧ immortal vm (g name) v
          | None => name ∉ l
          end.

(** Every string of the table is immortal and has the bytes its name says, in
    it no name is missing and no other is there; the slab of the caches is
    marked from a registered keeper. *)
Definition table_ok vm s : Prop :=
  Forall (λ f, immortal vm f.2 f.1) (fields s)
  ∧ names (methods s) (λ m, m) COMMON_METHODS vm ∧ names (header_keys s) cgi_name COMMON_HEADERS vm
  ∧ (∃ v, kept_by (Pin.MkPinKeeper (slab (caches s))) vm v)
  ∧ (∀ name, name ∈ internable s ↔ name ∈ INTERNABLE_VALUES)
  ∧ caches s = caches_new ∧ defaults s = MkDefaults None None.

#[local] Hint Resolve lasting_and lasting_immortal lasting_kept lasting_table lasting_const : lasts.

Lemma names_collect g l vm t : NoDup l → table_of g l vm t → names (collect t) g l vm.
Proof.
  intros Hnd [Hd Ht] name. rewrite <-Hd in Hnd |- *. rewrite Forall_forall in Ht.
  destruct (collect t !! name) as [v|] eqn:Hc.
  - apply collect_in in Hc. split; [by apply (list_elem_of_fmap_2 fst) in Hc|exact (Ht _ Hc)].
  - intros ([k v] & -> & Hin)%list_elem_of_fmap. cbn in Hc. by rewrite (collect_lookup _ _ _ Hnd Hin) in Hc.
Qed.

Lemma common_nodup : NoDup COMMON_METHODS ∧ NoDup COMMON_HEADERS.
Proof. split; refine (bool_decide_unpack (NoDup _) _); by vm_compute. Qed.

Lemma build_strings_ok : leads (λ _, True) (build_strings (lru := lru)) table_ok.
Proof.
  unfold build_strings.
  eapply leads_bind; [auto with lasts|apply makes_table|intros ms].
  eapply leads_bind; [auto with lasts|apply makes_table|intros hs].
  eapply leads_bind; [auto with lasts|apply makes_keeper|intros keeper].
  do 20 (eapply leads_bind; [auto 30 with lasts|apply makes_frozen|intros ?]).
  apply leads_ret. intros vm H. destruct_and! H.
  split_and!; [by repeat (apply Forall_cons; split; [assumption|]); apply Forall_nil| | |by eexists|intros name; apply elem_of_list_to_set|done|done];
    by apply names_collect; [apply common_nodup|].
Qed.

Lemma find_header_spec name :
  find_header name = if decide (name ∈ COMMON_HEADERS) then Some (cgi_name name) else None.
Proof.
  unfold find_header, header_names. induction COMMON_HEADERS as [|h l IH]; [done|]. cbn [fmap list_fmap List.find fst].
  destruct (String.eqb_spec h name) as [->|Hne].
  - by rewrite decide_True by left.
  - etrans; [exact IH|]. destruct (decide (name ∈ l)); case_decide as Hd; [done| | |done].
    + destruct Hd. by right.
    + by apply elem_of_cons in Hd as [->|?].
Qed.

(** What [build_env] finds for a name is what the table holds. *)
Lemma header_keys_find s vm name :
  table_ok vm s →
  find_header name = (header_keys s !! name ≫= λ v, so_bytes <$> vm_strings vm !! v).
Proof.
  intros (_ & _ & H & _). specialize (H name). rewrite find_header_spec.
  destruct (header_keys s !! name) as [v|]; cbn.
  - destruct H as [Hin [Hv _]]. rewrite decide_True by done. by rewrite Hv.
  - by rewrite decide_False.
Qed.

(** The static table is sound on every ractor. [init] run on any VM fills the
    empty cell with a table in which each key and value of the env has
    exactly its bytes, every common method and header name has its entry (the
    header's CGI name) and no other name has one; each of these strings is
    frozen, flagged shareable and registered, so that neither the main
    ractor's collector nor a worker's can free it; the caches start empty,
    their slab kept by a registered keeper; and what the Rack env's
    [find_header] answers is what the table holds. No object is registered twice,
    and a cell that is already set keeps its first table. *)
Theorem init_strings_immortal (cell : option (EnvStrings lru)) vm :
  vm_ok vm →
  let '(cell', vm') := init cell vm in
  vm_ok vm'
  ∧ match cell with
    | Some s => get cell' = Some s
    | None =>
        ∃ s, get cell' = Some s ∧ table_ok vm' s
          ∧ ∀ name, find_header name = (header_keys s !! name ≫= λ v, so_bytes <$> vm_strings vm' !! v)
    end.
Proof.
  intros Hok. unfold init, mbind, gvl_bind. pose proof (build_strings_ok vm Hok I) as H.
  destruct (build_strings vm) as [s vm']. destruct H as [Hok' Ht]. split; [done|].
  destruct cell; [done|]. exists s. split_and!; [done..|]. intros name. by apply header_keys_find.
Qed.
End table.

(** A VM in which nothing has been made. *)
Definition empty_vm : Vm := MkVm 1 ∅ ∅ [].

Example init_strings_immortal_witness :
  ∃ s : EnvStrings ListLru.t, (init None empty_vm).1 = Some s
    ∧ table_ok (init (None : option (EnvStrings ListLru.t)) empty_vm).2 s.
Proof.
  assert (Hok : vm_ok empty_vm).
  { split; [|apply NoDup_nil_2]. intros v _. split_and!; [apply lookup_empty..|apply not_elem_of_nil]. }
  pose proof (init_strings_immortal (None : option (EnvStrings ListLru.t)) empty_vm Hok) as H.
  destruct (init None empty_vm) as [cell vm]. destruct H as [_ (s & Hs & Ht & _)]. exists s. by split.
Defined.
