(* ===== verification/TestSupport.v ===== *)
(** The natives behind the gem's own specs ([test_support.rs]): leaked string
    channels that are taken from with the GVL released, a panic across the
    released GVL, and a probe of the cached slice of the Rack env. *)

From S2P Require Import Prelude Text Channels Gvl Request Reply EnvStrings BuildEnv.
From S2P Require AccessLog Support Pin.

(** ** Channels *)

Section channels.
Context {chan : Type → Type} `{!Flume chan}.

(** [tc_tx] says whether the sender is still in its mutex. *)
Record TestChannel : Type := MkTestChannel {
  tc_tx : bool;
  tc_rx : chan string;
  tc_interrupted : bool;
}.

(** [CHANNELS] and [NEXT_ID]; a channel is never removed. *)
Record TestWorld : Type := MkTestWorld {
  channels : gmap nat TestChannel;
  next_test_id : nat;
}.
Implicit Types (w : TestWorld).

Definition lookup_channel (id : nat) w : result TestChannel :=
  match channels w !! id with
  | Some c => Ok c
  | None => Err (ArgError ("unknown test channel " +:+ pretty (N.of_nat id)))
  end.

Definition put_channel (id : nat) (c : TestChannel) w : TestWorld :=
  MkTestWorld (<[id := c]> (channels w)) (next_test_id w).

Definition create (depth : nat) w : nat * TestWorld :=
  let id := next_test_id w in
  (id, MkTestWorld (<[id := MkTestChannel true (bounded depth) false]> (channels w)) (S id)).

(** flume's texts for a full and for a closed channel. *)
Variables (full_text closed_text : string).

Definition push (id : nat) (value : string) w : result unit * TestWorld :=
  match lookup_channel id w with
  | Err e => (Err e, w)
  | Ok c =>
      if tc_tx c then
        match try_send value (tc_rx c) with
        | (SendOk, q) => (Ok tt, put_channel id (MkTestChannel (tc_tx c) q (tc_interrupted c)) w)
        | (SendFull _, _) => (Err (RuntimeError ("push failed: " +:+ full_text)), w)
        | (SendDisconnected _, _) => (Err (RuntimeError ("push failed: " +:+ closed_text)), w)
        end
      else (Err (RuntimeError "test channel is closed"), w)
  end.

Definition close (id : nat) w : result unit * TestWorld :=
  match lookup_channel id w with
  | Err e => (Err e, w)
  | Ok c =>
      (Ok tt, if tc_tx c
              then put_channel id (MkTestChannel false (drop_sender (tc_rx c)) (tc_interrupted c)) w
              else w)
  end.

Definition test_flag (id : nat) w : bool :=
  match channels w !! id with Some c => tc_interrupted c | None => false end.

(** One tick: the outer [None] goes round again, the inner one is nil. *)
Definition take_tick (id : nat) w : option (option string) * TestWorld :=
  match channels w !! id with
  | None => (Some None, w)
  | Some c =>
      match recv_timeout (tc_rx c) with
      | (RtOk v, q) => (Some (Some v), put_channel id (MkTestChannel (tc_tx c) q (tc_interrupted c)) w)
      | (RtTimeout, _) => (None, w)
      | (RtDisconnected, _) => (Some None, w)
      end
  end.

(** [None]: still blocked when [env] runs out. *)
Definition take (id : nat) (env : list (TestWorld → TestWorld)) w : option (result (option string)) * TestWorld :=
  match lookup_channel id w with
  | Err e => (Some (Err e), w)
  | Ok c =>
      match interruptible (test_flag id) (take_tick id) env
              (put_channel id (MkTestChannel (tc_tx c) (tc_rx c) false) w) with
      | (Waiting, w) => (None, w)
      | (Interrupted, w) => (Some (Ok None), w)
      | (Finished taken, w) => (Some (Ok taken), w)
      end
  end.

Definition panic_in_release : result unit :=
  Support.without_gvl (inl (Support.PanicStr "intentional test panic")).
End channels.
Arguments TestChannel : clear implicits.
Arguments TestWorld : clear implicits.

Section channel_proofs.
Context {chan : Type → Type} `{!Flume chan, !FlumeSpec chan}.
Variables (full_text closed_text : string).
Implicit Types (w : TestWorld chan).

Fixpoint push_all (id : nat) (vs : list string) w : list (result unit) * TestWorld chan :=
  match vs with
  | [] => ([], w)
  | v :: vs =>
      let '(r, w) := push full_text closed_text id v w in
      let '(rs, w) := push_all id vs w in (r :: rs, w)
  end.

(** Takes with nobody else around. *)
Fixpoint take_all (n id : nat) w : list (option (result (option string))) * TestWorld chan :=
  match n with
  | O => ([], w)
  | S n =>
      let '(r, w) := take id [λ w, w] w in
      let '(rs, w) := take_all n id w in (r :: rs, w)
  end.

(** The channel holds [l], with [cap] places and [tx] senders. *)
Definition channel_holds (id : nat) (tx : bool) (l : list string) (cap : nat) w : Prop :=
  ∃ c, channels w !! id = Some c ∧ tc_tx c = tx ∧ contents (tc_rx c) = l ∧ capacity (tc_rx c) = cap
       ∧ senders (tc_rx c) = (if tx then 1 else 0)%nat ∧ receiving (tc_rx c) = true.

Lemma push_all_holds id vs l cap w :
  (length l + length vs ≤ cap)%nat → channel_holds id true l cap w →
  let '(rs, w') := push_all id vs w in
  rs = replicate (length vs) (Ok tt) ∧ channel_holds id true (l ++ vs) cap w'.
Proof.
  revert l w. induction vs as [|v vs IH]; intros l w Hlen Hw; simpl in *.
  { by rewrite app_nil_r. }
  destruct Hw as (c & Hc & Htx & Hl & Hcap & Hs & Hr).
  unfold push, lookup_channel. rewrite Hc, Htx.
  destruct (try_send_ok _ v (tc_rx c) Hr) as (q & -> & Hq1 & Hq2 & Hq3 & Hq4); [rewrite Hl, Hcap; lia|].
  set (w1 := put_channel _ _ w).
  assert (H1 : channel_holds id true (l ++ [v]) cap w1).
  { eexists. split; [by apply lookup_insert_eq|]. simpl. by rewrite Hq1, Hq2, Hq3, Hq4, Hl. }
  specialize (IH (l ++ [v]) w1 ltac:(rewrite length_app; simpl; lia) H1).
  destruct (push_all id vs w1) as [rs w']. destruct IH as [-> IH]. split; [done|].
  by rewrite <-app_assoc in IH.
Qed.

Lemma take_one id v l cap w :
  channel_holds id false (v :: l) cap w →
  ∃ w1, take id [λ w, w] w = (Some (Ok (Some v)), w1) ∧ channel_holds id false l cap w1.
Proof.
  intros (c & Hc & Htx & Hl & Hcap & Hs & Hr). unfold take, lookup_channel. rewrite Hc.
  cbn [interruptible]. unfold test_flag, take_tick, put_channel. simpl. rewrite !lookup_insert_eq. simpl.
  unfold recv_timeout. destruct (try_recv_ok _ _ _ _ Hl) as (q & -> & Hq1 & Hq2 & Hq3 & Hq4). simpl.
  eexists. split; [done|]. eexists. split; [by apply lookup_insert_eq|]. simpl.
  rewrite Hq1, Hq2, Hq3, Hq4. by split_and!.
Qed.

Lemma take_closed id cap w :
  channel_holds id false [] cap w → ∃ w1, take id [λ w, w] w = (Some (Ok None), w1).
Proof.
  intros (c & Hc & Htx & Hl & Hcap & Hs & Hr). unfold take, lookup_channel. rewrite Hc.
  cbn [interruptible]. unfold test_flag, take_tick, put_channel. simpl. rewrite !lookup_insert_eq. simpl.
  unfold recv_timeout. rewrite (try_recv_disconnected _ _ Hl Hs). by eexists.
Qed.

Lemma take_all_holds id l cap w :
  channel_holds id false l cap w →
  (take_all (S (length l)) id w).1 = ((λ v, Some (Ok (Some v))) <$> l) ++ [Some (Ok None)].
Proof.
  revert w. induction l as [|v l IH]; intros w Hw; cbn [take_all length].
  - by destruct (take_closed _ _ _ Hw) as (w1 & ->).
  - destruct (take_one _ _ _ _ _ Hw) as (w1 & -> & H1). specialize (IH w1 H1).
    cbn [take_all] in IH. destruct (take id [λ w, w] w1) as [r w2].
    destruct (take_all (length l) id w2) as [rs w3]. simpl in *. by rewrite IH.
Qed.

(** What is pushed into a test channel comes out in order, and nil comes
    after it once the channel is closed. *)
Theorem test_channel_roundtrip depth vs w :
  (0 < depth)%nat → (length vs ≤ depth)%nat →
  let '(id, w1) := create depth w in
  let '(pushed, w2) := push_all id vs w1 in
  let '(closed, w3) := close id w2 in
  pushed = replicate (length vs) (Ok tt) ∧ closed = Ok tt
  ∧ (take_all (S (length vs)) id w3).1 = ((λ v, Some (Ok (Some v))) <$> vs) ++ [Some (Ok None)].
Proof.
  intros Hd Hlen. simpl. set (id := next_test_id w). set (w1 := MkTestWorld _ _).
  assert (H1 : channel_holds id true [] depth w1).
  { destruct (bounded_spec (chan := chan) string depth) as (? & ? & ? & ?).
    eexists. split; [by apply lookup_insert_eq|]. by split_and!. }
  pose proof (push_all_holds id vs [] depth w1 Hlen H1) as H2.
  destruct (push_all id vs w1) as [rs w2]. destruct H2 as [-> (c & Hc & Htx & Hl & Hcap & Hs & Hr)].
  unfold close, lookup_channel. rewrite Hc, Htx. split_and!; [done..|].
  apply (take_all_holds id vs depth). eexists. split; [by apply lookup_insert_eq|]. simpl.
  autorewrite with kino_chan. by rewrite Hl, Hcap, Hs, Hr.
Qed.
End channel_proofs.

(** ** The env probe *)

Section probe.
Context {lru : Type → Type → Type} `{!Lru lru}.
(** Parsing an IP address, and the text of the error for one that does not
    parse, are the standard library's. *)
Variable parse_ip : string → option IpAddr.
Variable bad_ip_text : string → string.

(** The cached slice of an env, as [build_env] makes it. *)
Definition env_probe (race : EnvCaches lru → EnvCaches lru) (host : string) (authority : option string)
    (ip_text user_agent : string) (w : EnvCaches lru) : result env_hash * EnvCaches lru :=
  match parse_ip ip_text with
  | None => (Err (ArgError (bad_ip_text ip_text)), w)
  | Some ip =>
      let '(a, w) := addr_env race ip w in
      let env := <["REMOTE_ADDR" := EnvStr a]> ∅ in
      let '(env, w) :=
        match authority with
        | Some au =>
            let '(name, port, host, w) := authority_env race au (split_host_port au 80) w in
            (<["HTTP_HOST" := EnvStr host]>
               (<["SERVER_PORT" := EnvStr port]> (<["SERVER_NAME" := EnvStr name]> env)), w)
        | None =>
            let '(name, port, w) := host_env race host (split_host_port host 80) w in
            (<["SERVER_PORT" := EnvStr port]> (<["SERVER_NAME" := EnvStr name]> env), w)
        end in
      let '(v, w) := value_env race "user-agent" user_agent w in
      (Ok (<[header_key "user-agent" := EnvStr v]> env), w)
  end.

(** The same slice with no cache. *)
Definition server_assignments (host : string) (authority : option string) : list (string * EnvVal) :=
  let make := split_host_port (default host authority) 80 in
  [("SERVER_NAME", VStr make.1 false); ("SERVER_PORT", VStr (display make.2) false)]
  ++ match authority with Some au => [("HTTP_HOST", VStr au false)] | None => [] end.

Definition probe_assignments (host : string) (authority : option string) (ip : IpAddr) (user_agent : string)
  : list (string * EnvVal) :=
  [("REMOTE_ADDR", VStr (AccessLog.display_ip ip) false)] ++ server_assignments host authority
  ++ [(header_key "user-agent", VStr user_agent true)].

Notation inv := (env_inv (λ key, split_host_port key 80)).

Lemma probe_server_agrees name port make (env : env_hash) l :
  names make (name, port) → agrees env l →
  agrees (<["SERVER_PORT" := EnvStr port]> (<["SERVER_NAME" := EnvStr name]> env))
    (l ++ [("SERVER_NAME", VStr make.1 false); ("SERVER_PORT", VStr (display make.2) false)]).
Proof.
  intros [[Hn1 Hn2] [Hp1 Hp2]] He. cbn [fst snd] in *.
  rewrite (app_assoc l [_] [_] : l ++ [_; _] = _).
  apply agrees_insert; [cbn; by rewrite Hp1, Hp2|]. apply agrees_insert; [cbn; by rewrite Hn1, Hn2|done].
Qed.

(** What the probe shows is what the strings it was given say, whatever the
    caches hold and whatever other threads do to them meanwhile; and the
    caches keep their rooting. *)
Theorem env_probe_transparent `{!LruSpec lru} race host authority ip_text ip user_agent w :
  (∀ w, inv w → inv (race w)) → parse_ip ip_text = Some ip → inv w →
  let '(r, w') := env_probe race host authority ip_text user_agent w in
  ∃ env, r = Ok env ∧ agrees env (probe_assignments host authority ip user_agent) ∧ inv w'.
Proof.
  intros Hrace Hip Hi. unfold env_probe, probe_assignments. rewrite Hip.
  pose proof (addr_env_inv _ race ip w Hrace Hi) as Ha.
  destruct (addr_env race ip w) as [a w1]. destruct Ha as [[Ht Hb] Hi1].
  assert (He1 : agrees (<["REMOTE_ADDR" := EnvStr a]> ∅) [("REMOTE_ADDR", VStr (AccessLog.display_ip ip) false)])
    by (apply (agrees_insert _ []), agrees_nil; cbn; by rewrite Ht, Hb).
  set (env1 := <["REMOTE_ADDR" := EnvStr a]> ∅) in *.
  set (server := match authority with Some _ => _ | None => _ end).
  assert (Hs : agrees server.1 ([("REMOTE_ADDR", VStr (AccessLog.display_ip ip) false)]
                                ++ server_assignments host authority) ∧ inv server.2).
  { subst server. unfold server_assignments. destruct authority as [au|]; cbn [default].
    - pose proof (authority_env_inv _ race au _ w1 Hrace eq_refl Hi1) as H. cbn beta in H.
      destruct (authority_env race au _ w1) as [[[name port] h] w2]. destruct H as (Hn & [Hh1 Hh2] & Hi2).
      split; [|done]. rewrite app_assoc. apply agrees_insert; [cbn; by rewrite Hh1, Hh2|].
      by apply probe_server_agrees.
    - pose proof (host_env_inv _ race host _ w1 Hrace eq_refl Hi1) as H. cbn beta in H.
      destruct (host_env race host _ w1) as [[name port] w2]. destruct H as [Hn Hi2].
      split; [|done]. rewrite app_nil_r. by apply probe_server_agrees. }
  destruct server as [env w2]. destruct Hs as [He Hi2]. cbn [fst snd] in *.
  pose proof (value_env_inv _ race "user-agent" user_agent w2 Hrace Hi2) as Hv.
  destruct (value_env race "user-agent" user_agent w2) as [v w3]. destruct Hv as [[Hv1 Hv2] Hi3].
  eexists. split_and!; [done| |done]. rewrite app_assoc. apply agrees_insert; [cbn; by rewrite Hv1, Hv2|done].
Qed.
End probe.
