(* ===== verification/Listen.v ===== *)
(** Listening sockets and TLS setup ([listen.rs], [tls.rs], [bind_control] of
    [control.rs]): unix socket paths, the bind that never takes a socket away
    from a live listener, and the order in which TLS errors surface. *)

From S2P Require Import Prelude Text Gvl.

(** ** I/O errors *)

Inductive io_error : Type :=
  | AddrInUse (message : string)
  | ConnectionRefused
  | NotFound
  | IoOther (message : string).

#[export] Instance io_error_eq_dec : EqDecision io_error.
Proof. solve_decision. Defined.

(** ** The file system, as a unix socket sees it

    A path is nothing, a socket file with or without a process accepting on
    it, or anything else. The OS refuses a connection to a socket nobody
    accepts on; [denied] are the paths that cannot be unlinked or created. *)

Inductive node : Type :=
  | SocketFile (accepting : bool)
  | OtherFile.

Record Files : Type := MkFiles {
  nodes : gmap string node;
  denied : gset string;
  (* what connecting to something else reports, which varies with the OS *)
  not_a_socket : io_error;
}.

Definition set_nodes (n : gmap string node) (fs : Files) : Files :=
  MkFiles n (denied fs) (not_a_socket fs).

Definition os_connect (path : string) (fs : Files) : option io_error :=
  match nodes fs !! path with
  | None => Some NotFound
  | Some (SocketFile true) => None
  | Some (SocketFile false) => Some ConnectionRefused
  | Some OtherFile => Some (not_a_socket fs)
  end.

Definition os_remove_file (path : string) (fs : Files) : option io_error * Files :=
  match nodes fs !! path with
  | None => (Some NotFound, fs)
  | Some _ =>
      if decide (path ∈ denied fs) then (Some (IoOther "Permission denied"), fs)
      else (None, set_nodes (delete path (nodes fs)) fs)
  end.

Definition os_bind (path : string) (fs : Files) : option io_error * Files :=
  match nodes fs !! path with
  | Some _ => (Some (AddrInUse "Address already in use"), fs)
  | None =>
      if decide (path ∈ denied fs) then (Some (IoOther "Permission denied"), fs)
      else (None, set_nodes (<[path := SocketFile true]> (nodes fs)) fs)
  end.

(** Dropping a listener, or the death of its process, leaves its file. *)
Definition os_close (path : string) (fs : Files) : Files :=
  set_nodes (alter (λ n, match n with SocketFile _ => SocketFile false | n => n end) path (nodes fs)) fs.

(** ** listen.rs *)

Definition UNIX_SCHEME : string := "unix://".

Definition unix_path (bind : string) : option string := strip_prefix UNIX_SCHEME bind.

(** A bound listener: the TCP port, or the socket's path. *)
Inductive Listener : Type :=
  | ListenTcp (port : Z)
  | ListenUnix (path : string).

Definition bind_unix (path : string) (fs : Files) : option io_error * Files :=
  let bind fs := os_bind path fs in
  match os_connect path fs with
  | None => (Some (AddrInUse "socket is in use"), fs)
  | Some e =>
      if decide (e = ConnectionRefused) then
        match os_remove_file path fs with
        | (None, fs) => bind fs
        | (Some e, fs) => if decide (e = NotFound) then bind fs else (Some e, fs)
        end
      else if decide (e = NotFound) then bind fs
      else (Some e, fs)
  end.

(** Removing an absent file is fine. *)
Definition cleanup_unix (path : string) (fs : Files) : Files := (os_remove_file path fs).2.

(** [tcp_bind] is the OS: what binding a host and port gives. *)
Definition listener_bind (tcp_bind : string → Z → io_error + Z) (bind : string) (port : Z) (fs : Files)
  : (io_error + Listener) * Files :=
  match unix_path bind with
  | Some path =>
      match bind_unix path fs with
      | (None, fs) => (inr (ListenUnix path), fs)
      | (Some e, fs) => (inl e, fs)
      end
  | None => (match tcp_bind bind port with inr p => inr (ListenTcp p) | inl e => inl e end, fs)
  end.

Definition listener_port (l : Listener) : Z :=
  match l with ListenTcp p => p | ListenUnix _ => 0 end.

Definition listener_path (l : Listener) : option string :=
  match l with ListenTcp _ => None | ListenUnix p => Some p end.

(** A bound control address: TCP with its port, or a socket file. *)
Inductive ControlBind : Type :=
  | ControlTcp (port : Z)
  | ControlUnix (path : string).

Definition control_path (b : ControlBind) : option string :=
  match b with ControlTcp _ => None | ControlUnix p => Some p end.

Definition control_port (b : ControlBind) : option Z :=
  match b with ControlTcp p => Some p | ControlUnix _ => None end.

(** [tcp_bind] takes a whole [host:port] here. *)
Definition bind_control (tcp_bind : string → io_error + Z) (addr : string) (fs : Files)
  : (io_error + ControlBind) * Files :=
  match unix_path addr with
  | Some path =>
      match bind_unix path fs with
      | (None, fs) => (inr (ControlUnix path), fs)
      | (Some e, fs) => (inl e, fs)
      end
  | None => (match tcp_bind addr with inr p => inr (ControlTcp p) | inl e => inl e end, fs)
  end.

(** ** Binding a unix socket *)

Definition bound (path : string) (fs : Files) : Files :=
  set_nodes (<[path := SocketFile true]> (nodes fs)) fs.

Lemma bind_unix_live path fs :
  nodes fs !! path = Some (SocketFile true) →
  bind_unix path fs = (Some (AddrInUse "socket is in use"), fs).
Proof. intros E. unfold bind_unix, os_connect. by rewrite E. Qed.

Lemma bind_unix_absent path fs :
  nodes fs !! path = None → path ∉ denied fs → bind_unix path fs = (None, bound path fs).
Proof.
  intros E Hd. unfold bind_unix, os_connect, os_bind. rewrite E.
  rewrite decide_False, decide_True by done. by rewrite decide_False.
Qed.

Lemma bind_unix_stale path fs :
  nodes fs !! path = Some (SocketFile false) → path ∉ denied fs →
  bind_unix path fs = (None, bound path fs).
Proof.
  intros E Hd. unfold bind_unix, os_connect, os_remove_file, os_bind. rewrite E.
  rewrite decide_True by done. rewrite decide_False by done. cbn [nodes set_nodes denied].
  rewrite lookup_delete_eq, decide_False by done. unfold bound, set_nodes. cbn.
  by rewrite insert_delete_eq.
Qed.

Lemma bind_unix_elsewhere path fs q : q ≠ path → nodes (bind_unix path fs).2 !! q = nodes fs !! q.
Proof.
  intros Hq. unfold bind_unix, os_remove_file, os_bind. repeat case_match; simplify_eq; try done;
    cbn; by rewrite ?lookup_insert_ne, ?lookup_delete_ne.
Qed.



(** Where connecting to a file that is no socket is refused, as on Linux, the
    bind unlinks that file. *)
Example bind_unix_unlinks_other_files :
  let fs := MkFiles {["/etc/app.conf" := OtherFile]} ∅ ConnectionRefused in
  bind_unix "/etc/app.conf" fs = (None, MkFiles {["/etc/app.conf" := SocketFile true]} ∅ ConnectionRefused).
Proof. vm_compute. reflexivity. Qed.

(** ** TLS *)

Fixpoint str_contains (p s : string) : bool :=
  match strip_prefix p s, s with
  | Some _, _ => true
  | None, String _ s => str_contains p s
  | None, "" => false
  end.

(** What the code relies on of rustls and its PEM reader. *)
Class Rustls (cert key tls : Type) : Type := {
  parse_certs : string → string + list cert;
  parse_private_key : string → string + option key;
  with_single_cert : list cert → key → string + tls;
}.

(** The built configuration and the protocols it offers, in order. *)
Record ServerConfig (tls : Type) : Type := MkServerConfig {
  tls_of : tls;
  alpn_protocols : list string;
}.
Arguments MkServerConfig {tls}.
Arguments tls_of {tls}.
Arguments alpn_protocols {tls}.

Section tls.
Context {cert key tls : Type} `{!Rustls cert key tls}.
(** The OS reading a file. *)
Context (read_file : string → string + string).

Definition pem_bytes (input : string) : string + string :=
  if str_contains "-----BEGIN" input then inr input
  else match read_file input with
       | inr b => inr b
       | inl e => inl ("cannot read " +:+ input +:+ ": " +:+ e)
       end.

Definition sum_bind {A B} (r : string + A) (f : A → string + B) : string + B :=
  match r with inl e => inl e | inr x => f x end.

Definition map_err {A} (what : string) (r : string + A) : string + A :=
  match r with inl e => inl (what +:+ e) | inr x => inr x end.

Definition server_config (cert_in key_in : string) (http2 : bool) : string + ServerConfig tls :=
  sum_bind (pem_bytes cert_in) (λ cert_pem,
  sum_bind (pem_bytes key_in) (λ key_pem,
  sum_bind (map_err "invalid certificate PEM: " (parse_certs cert_pem)) (λ certs,
  match certs with
  | [] => inl "no certificates found in PEM"
  | _ =>
      sum_bind (map_err "invalid private key PEM: " (parse_private_key key_pem)) (λ k,
      match k with
      | None => inl "no private key found in PEM"
      | Some k =>
          sum_bind (map_err "TLS config rejected: " (with_single_cert certs k)) (λ c,
          inr (MkServerConfig c (if http2 then ["h2"; "http/1.1"] else ["http/1.1"])))
      end)
  end))).

Definition build_acceptor (cert_in key_in : string) (http2 : bool) : string + ServerConfig tls :=
  server_config cert_in key_in http2.
End tls.

(** A PEM reader and rustls in miniature: a "certificate" is the text between
    the markers, and goes with the key of the same text. *)
#[export] Instance toy_rustls : Rustls string string (string * string) := {
  parse_certs s := inr (if str_contains "CERTIFICATE" s then [s] else []);
  parse_private_key s := inr (if str_contains "PRIVATE KEY" s then Some s else None);
  with_single_cert cs k := match cs with c :: _ => inr (c, k) | [] => inl "no cert" end;
}.

(** A TLS configuration is accepted exactly when both inputs can be
    had, the certificate input parses to at least one certificate, the key
    input to a key, and rustls takes the pair; the client is then offered
    h2 before http/1.1 when HTTP/2 is on and http/1.1 alone when it is off.
    An inline PEM never touches the file system. *)
Theorem server_config_spec {cert key tls : Type} `{!Rustls cert key tls} read_file cert_in key_in http2 c :
  server_config (tls := tls) read_file cert_in key_in http2 = inr c ↔
  ∃ cert_pem key_pem certs k,
    pem_bytes read_file cert_in = inr cert_pem ∧ pem_bytes read_file key_in = inr key_pem
    ∧ parse_certs cert_pem = inr certs ∧ certs ≠ [] ∧ parse_private_key key_pem = inr (Some k)
    ∧ with_single_cert certs k = inr (tls_of c)
    ∧ alpn_protocols c = (if http2 then ["h2"] else []) ++ ["http/1.1"].
Proof.
  unfold server_config, sum_bind, map_err. split.
  - intros H. repeat case_match; simplify_eq. all: do 4 eexists; split_and!; eauto; by destruct http2.
  - intros (cp & kp & certs & k & -> & -> & -> & Hne & -> & Hw & Ha). destruct certs; [done|].
    rewrite Hw. destruct c as [t alpn]. cbn in *. subst alpn. by destruct http2.
Qed.
