(* ===== verification/Control.v ===== *)
(** The control plane ([control.rs]): the worker sensors and the snapshot every
    endpoint reports, its JSON and Prometheus renderings, the bearer-token
    check, the routing, and the life of the control thread. *)

From S2P Require Import Prelude Text Channels Gvl Response Request Registry AccessLog Floats.
From S2P Require Histogram Lifecycle Listen.
From Stdlib Require Import Ascii.

(** ** Sensors *)

Record WorkerStat : Type := MkWorkerStat {
  ws_index : Z;
  ws_served : Z;
  ws_in_flight : Z;
  ws_busy_ms : Z;
  ws_quarantined : bool;
  ws_retired : bool;
}.

Record StatsSnapshot : Type := MkStats {
  ss_mode : string;
  ss_lanes : bool;
  ss_workers : Z;
  ss_threads : Z;
  ss_batch : Z;
  ss_respawns : Z;
  ss_queued : Z;
  ss_in_flight : Z;
  ss_served : Z;
  ss_rejected : Z;
  ss_timeouts : Z;
  ss_lane_depths : option (list Z);
  ss_state : ServerState;
  ss_worker_status : list WorkerStat;
  ss_quarantined_count : Z;
  ss_quarantine_replacements : Z;
  ss_max_workers : Z;
  ss_active_workers : Z;
  ss_scale_ups : Z;
  ss_scale_downs : Z;
  ss_queue_histogram : Histogram.QueueHistogramSnapshot;
}.

Section sensors.
Context {chan : Type → Type} `{!Flume chan}.
Implicit Types (sv : ServerInner chan) (s : WorkerSlot chan).

(** How long the slot has been busy at [now], in milliseconds. *)
Definition busy_ms (now : Z) s : Z :=
  if quarantined s || (in_flight s =? 0) then 0 else sat_sub now (last_started_ms s).

Definition worker_stat (now : Z) (i : nat) s : WorkerStat :=
  MkWorkerStat (Z.of_nat i) (served s) (in_flight s) (busy_ms now s) (quarantined s) (retired s).

(** [now] is [mono_ms()], read once. *)
Definition collect_worker_status (now : Z) sv : list WorkerStat := imap (worker_stat now) (slots sv).

Definition take (now : Z) sv : StatsSnapshot :=
  let ws := collect_worker_status now sv in
  let c := counters sv in
  let t := topology (config sv) in
  MkStats (mode t) (lanes (config sv)) (workers t) (t_threads t) (batch t) (c_respawns c) (queued sv)
    (c_in_flight c) (c_served c) (c_rejected c) (c_timeouts c) (lane_depths sv) (state sv) ws
    (count_if ws_quarantined ws) (c_quarantine_replacements c) (max_workers t) (c_active_workers c)
    (c_scale_ups c) (c_scale_downs c) (Histogram.snapshot (queue_histogram sv)).

(** The native behind [Server#stats]: one row per slot. *)
Definition worker_stats (now : Z) (i : nat) (g : Registry chan) : list (Z * Z * Z * Z * bool * bool) :=
  match try_get i g with
  | None => []
  | Some sv =>
      (λ w, (ws_index w, ws_served w, ws_in_flight w, ws_busy_ms w, ws_quarantined w, ws_retired w))
        <$> collect_worker_status now sv
  end.
End sensors.

Definition state_name (s : StatsSnapshot) : string :=
  match ss_state s with
  | STATE_READY => "ready"
  | STATE_DRAINING => "draining"
  | STATE_BOOTING => "booting"
  end.

(** ** Numbers as text *)

(** A bucket bound in seconds: its microseconds over a million. *)
Definition display_seconds (us : Z) : string := display_f64 (f64_div (f64_of us) (f64_of 1000000)).

Example display_seconds_tests :
  display_seconds <$> [0; 500; 1000; 2500; 10000000; 123456789; 20000001]
  = ["0"; "0.0005"; "0.001"; "0.0025"; "10"; "123.456789"; "20.000001"].
Proof. by vm_compute. Qed.

Definition show_bool (b : bool) : string := if b then "true" else "false".

(** ** JSON *)

Definition quoted (s : string) : string := dquote +:+ s +:+ dquote.
Definition field (name value : string) : string := quoted name +:+ ":" +:+ value.

Definition worker_json (w : WorkerStat) : string :=
  "{" +:+ field "index" (display (ws_index w))
  +:+ "," +:+ field "served" (display (ws_served w))
  +:+ "," +:+ field "in_flight" (display (ws_in_flight w))
  +:+ "," +:+ field "busy_ms" (display (ws_busy_ms w))
  +:+ "," +:+ field "quarantined" (show_bool (ws_quarantined w))
  +:+ "," +:+ field "retired" (show_bool (ws_retired w)) +:+ "}".

(** [version] is the crate's, known at build time. *)
Definition stats_json (version : string) (s : StatsSnapshot) : string :=
  "{" +:+ field "mode" (quoted (ss_mode s))
  +:+ "," +:+ field "lanes" (show_bool (ss_lanes s))
  +:+ "," +:+ field "workers" (display (ss_workers s))
  +:+ "," +:+ field "threads" (display (ss_threads s))
  +:+ "," +:+ field "batch" (display (ss_batch s))
  +:+ "," +:+ field "respawns" (display (ss_respawns s))
  +:+ "," +:+ field "queued" (display (ss_queued s))
  +:+ "," +:+ field "in_flight" (display (ss_in_flight s))
  +:+ "," +:+ field "served" (display (ss_served s))
  +:+ "," +:+ field "rejected" (display (ss_rejected s))
  +:+ "," +:+ field "timeouts" (display (ss_timeouts s))
  +:+ "," +:+ field "max_workers" (display (ss_max_workers s))
  +:+ "," +:+ field "active_workers" (display (ss_active_workers s))
  +:+ "," +:+ field "scale_ups" (display (ss_scale_ups s))
  +:+ "," +:+ field "scale_downs" (display (ss_scale_downs s))
  +:+ match ss_lane_depths s with
      | Some d => "," +:+ field "lane_depths" ("[" +:+ str_join "," (display <$> d) +:+ "]")
      | None => ""
      end
  +:+ "," +:+ field "worker_status" ("[" +:+ str_join "," (worker_json <$> ss_worker_status s) +:+ "]")
  +:+ "," +:+ field "queue_time"
        ("{" +:+ field "count" (display (Histogram.snap_count (ss_queue_histogram s)))
         +:+ "," +:+ field "sum_seconds" (display_f64 (Histogram.sum_seconds (ss_queue_histogram s)))
         +:+ "}")
  +:+ "," +:+ field "quarantined" (display (ss_quarantined_count s))
  +:+ "," +:+ field "state" (quoted (state_name s))
  +:+ "," +:+ field "version" (quoted version) +:+ "}".

(** ** Prometheus text *)

Definition metric_head (name kind help : string) : string :=
  "# HELP " +:+ name +:+ " " +:+ help +:+ nl +:+ "# TYPE " +:+ name +:+ " " +:+ kind +:+ nl.

Definition metric (name kind help value : string) : string :=
  metric_head name kind help +:+ name +:+ " " +:+ value +:+ nl.

(** One labelled sample. *)
Definition sample (name lbl key value : string) : string :=
  name +:+ "{" +:+ lbl +:+ "=" +:+ quoted key +:+ "} " +:+ value +:+ nl.

Definition series (name kind help lbl : string) (rows : list (Z * Z)) : string :=
  metric_head name kind help
  +:+ str_concat ((λ '(k, v), sample name lbl (display k) (display v)) <$> rows).

(** The running totals of the bucket counts, in the width of the counters. *)
Fixpoint cumulate (acc : Z) (buckets : list Z) : list Z :=
  match buckets with
  | [] => []
  | b :: buckets => let acc := acc +w b in acc :: cumulate acc buckets
  end.

Definition cumulative (h : Histogram.QueueHistogramSnapshot) : list Z :=
  cumulate 0 (Histogram.snap_buckets h).

Definition total_waits (h : Histogram.QueueHistogramSnapshot) : Z :=
  default 0 (last (cumulative h)) +w Histogram.snap_overflow h.

Definition queue_seconds : string := "kino_request_queue_seconds".

Definition histogram_text (h : Histogram.QueueHistogramSnapshot) : string :=
  metric_head queue_seconds "histogram"
    "Seconds requests waited in the queue before a worker admitted them."
  +:+ str_concat
        (zip_with (λ bound n, sample (queue_seconds +:+ "_bucket") "le" (display_seconds bound) (display n))
           Histogram.QUEUE_BOUNDS_US (cumulative h))
  +:+ sample (queue_seconds +:+ "_bucket") "le" "+Inf" (display (total_waits h))
  +:+ queue_seconds +:+ "_sum " +:+ display_f64 (Histogram.sum_seconds h) +:+ nl
  +:+ queue_seconds +:+ "_count " +:+ display (total_waits h) +:+ nl.

Definition metrics_text (s : StatsSnapshot) : string :=
  metric "kino_requests_served_total" "counter"
        "Requests handed to Ruby workers." (display (ss_served s))
  +:+ metric "kino_requests_rejected_total" "counter"
        "Requests rejected with a 503." (display (ss_rejected s))
  +:+ metric "kino_request_timeouts_total" "counter"
        "Responses past the request timeout (client got a 504)." (display (ss_timeouts s))
  +:+ metric "kino_worker_respawns_total" "counter"
        "Crashed workers respawned by the supervisor." (display (ss_respawns s))
  +:+ metric "kino_queue_depth" "gauge"
        "Requests waiting for a worker." (display (ss_queued s))
  +:+ metric "kino_requests_in_flight" "gauge"
        "Requests currently inside Ruby workers." (display (ss_in_flight s))
  +:+ metric "kino_workers" "gauge"
        "Configured worker count." (display (ss_workers s))
  +:+ metric "kino_threads_per_worker" "gauge"
        "Configured threads per worker." (display (ss_threads s))
  +:+ metric "kino_max_workers" "gauge"
        "Worker pool ceiling (equals kino_workers for a fixed pool)." (display (ss_max_workers s))
  +:+ metric "kino_active_workers" "gauge"
        "Workers currently alive and serving." (display (ss_active_workers s))
  +:+ metric "kino_scale_ups_total" "counter"
        "Workers added by the pool scaler." (display (ss_scale_ups s))
  +:+ metric "kino_scale_downs_total" "counter"
        "Idle workers retired by the pool scaler." (display (ss_scale_downs s))
  +:+ metric "kino_ready" "gauge"
        "1 when serving, 0 while booting or draining."
        (match ss_state s with STATE_READY => "1" | _ => "0" end)
  +:+ match ss_lane_depths s with
      | Some d =>
          series "kino_lane_depth" "gauge" "Queued requests in each worker lane." "lane"
            (imap (λ i n, (Z.of_nat i, n)) d)
      | None => ""
      end
  +:+ series "kino_worker_requests_served_total" "counter"
        "Requests handed to each dispatch slot." "worker"
        ((λ w, (ws_index w, ws_served w)) <$> ss_worker_status s)
  +:+ series "kino_worker_in_flight" "gauge"
        "Requests executing in each dispatch slot." "worker"
        ((λ w, (ws_index w, ws_in_flight w)) <$> ss_worker_status s)
  +:+ series "kino_worker_busy_ms" "gauge"
        "Age in ms of the current in-flight request per slot (0 when idle)." "worker"
        ((λ w, (ws_index w, ws_busy_ms w)) <$> ss_worker_status s)
  +:+ metric "kino_quarantined_workers" "gauge"
        "Dispatch slots abandoned as wedged." (display (ss_quarantined_count s))
  +:+ metric "kino_quarantine_replacements_total" "counter"
        "Replacement workers spawned after a wedge." (display (ss_quarantine_replacements s))
  +:+ histogram_text (ss_queue_histogram s).

(** ** Access *)

(** The accumulated difference of two strings' bytes. *)
Fixpoint diff_bytes (e p : string) : Z :=
  match e, p with
  | String a e, String b p =>
      Z.lor (Z.lxor (Z.of_nat (nat_of_ascii a)) (Z.of_nat (nat_of_ascii b))) (diff_bytes e p)
  | _, _ => 0
  end.

Definition presented_token (authorization : option string) : string :=
  match authorization with
  | Some h => default "" (strip_prefix "Bearer " h)
  | None => ""
  end.

Definition token_ok (expected : string) (authorization : option string) : bool :=
  let presented := presented_token authorization in
  if negb (String.length expected =? String.length presented)%nat then false
  else diff_bytes expected presented =? 0.

(** Status, content type, body. *)
Definition route (version method path : string) (authorization token : option string)
    (s : StatsSnapshot) : Z * string * string :=
  if negb (String.eqb method "GET") && negb (String.eqb method "HEAD")
  then (405, "text/plain", "method not allowed" +:+ nl)
  else
    let path := before_char "?"%char path in
    if String.eqb path "/live" then (200, "text/plain", "ok" +:+ nl)
    else if String.eqb path "/ready" then
      match ss_state s with
      | STATE_READY => (200, "text/plain", "ok" +:+ nl)
      | _ => (503, "text/plain", state_name s +:+ nl)
      end
    else if String.eqb path "/stats" || String.eqb path "/metrics" then
      if match token with Some expected => negb (token_ok expected authorization) | None => false end
      then (401, "text/plain", "unauthorized" +:+ nl)
      else if String.eqb path "/stats" then (200, "application/json", stats_json version s)
      else (200, "text/plain; version=0.0.4", metrics_text s)
    else (404, "text/plain", "not found" +:+ nl).

(** The response of [handle]: status, header lines, body. *)
Definition handle (version method path : string) (authorization token : option string)
    (s : StatsSnapshot) : Z * Headers * string :=
  let '(st, ct, body) := route version method path authorization token s in
  (st,
   ("content-type", ct) :: (if st =? 401 then [("www-authenticate", "Bearer")] else []),
   if String.eqb method "HEAD" then "" else body).

(** ** The histogram is cumulative *)

Lemma count_if_plus {A} (p q r : A → bool) (l : list A) :
  (∀ x, (if p x then 1 else 0) = (if q x then 1 else 0) + (if r x then 1 else 0)) →
  count_if p l = count_if q l + count_if r l.
Proof.
  intros H. induction l as [|x l IH] using rev_ind; [done|].
  rewrite !count_if_snoc, IH. specialize (H x). lia.
Qed.

Lemma cumulate_at (F : nat → Z) acc bs :
  (∀ i b, bs !! i = Some b → b = wrap64 (F (S i) - F i)) → acc = wrap64 (F 0%nat) →
  ∀ i, (i < length bs)%nat → cumulate acc bs !! i = Some (wrap64 (F (S i))).
Proof.
  revert F acc. induction bs as [|b bs IH]; intros F acc Hb Ha i Hi; cbn in *; [lia|].
  assert (acc +w b = wrap64 (F 1%nat)) as Hacc.
  { rewrite Ha, (Hb 0%nat b) by done. unfold u64_add. autorewrite with kino_u64. f_equal; lia. }
  destruct i as [|i]; cbn; [by f_equal|].
  apply (IH (λ n, F (S n))); [|done|lia]. intros k c Hc. by apply (Hb (S k)).
Qed.

Definition at_most (b w : Z) : bool := w <=? b.

(** The waits at or below the [i]-th bound; none below the first. *)
Definition below (ws : list Z) (i : nat) : Z :=
  match i with
  | O => 0
  | S j => count_if (at_most (nth j Histogram.QUEUE_BOUNDS_US 0)) ws
  end.

Lemma below_step ws i :
  (i < 14)%nat → below ws (S i) - below ws i = count_if (Histogram.in_bucket i) ws.
Proof.
  intros Hi. cbn [below]. destruct i as [|i]; cbn [below]; [rewrite Z.sub_0_r; reflexivity|].
  rewrite (count_if_plus (at_most (nth (S i) Histogram.QUEUE_BOUNDS_US 0))
             (at_most (nth i Histogram.QUEUE_BOUNDS_US 0)) (Histogram.in_bucket (S i))); [lia|].
  intros w. unfold Histogram.in_bucket, at_most.
  destruct (lookup_lt_is_Some_2 Histogram.QUEUE_BOUNDS_US (S i) Hi) as [b Hb].
  destruct (lookup_lt_is_Some_2 Histogram.QUEUE_BOUNDS_US i) as [a Ha]; [cbn in *; lia|].
  rewrite (nth_lookup_Some _ _ _ _ Ha), (nth_lookup_Some _ _ _ _ Hb).
  pose proof (Histogram.bounds_sorted i (S i) a b ltac:(lia) Ha Hb).
  destruct (Z.leb_spec w b), (Z.leb_spec w a), (Z.ltb_spec a w); cbn; lia.
Qed.

Lemma count_if_bound {A} (p : A → bool) l : 0 ≤ count_if p l ≤ Z.of_nat (length l).
Proof. unfold count_if. pose proof (List.filter_length_le p l). lia. Qed.

Lemma count_if_true {A} (l : list A) : count_if (λ _, true) l = Z.of_nat (length l).
Proof. unfold count_if. induction l as [|x l IH]; cbn; [done|]. cbn in IH. lia. Qed.

(** Every wait is in a bucket or past the last bound. *)
Lemma below_past ws : Z.of_nat (length ws) = below ws 14 + count_if Histogram.past_bounds ws.
Proof.
  rewrite <-count_if_true. cbn [below]. apply count_if_plus. intros w. unfold at_most, Histogram.past_bounds.
  change (nth 13 Histogram.QUEUE_BOUNDS_US 0) with 10000000.
  destruct (Z.leb_spec w 10000000), (Z.ltb_spec 10000000 w); lia.
Qed.

Lemma length_cumulate acc bs : length (cumulate acc bs) = length bs.
Proof. revert acc. induction bs as [|b bs IH]; intros acc; cbn; [done|]. by rewrite IH. Qed.

Lemma cumulative_at ws i :
  (i < 14)%nat →
  cumulative (Histogram.snapshot (Histogram.recorded ws)) !! i = Some (wrap64 (below ws (S i))).
Proof.
  intros Hi. apply (cumulate_at (below ws)); [|done|cbn; by rewrite Histogram.length_buckets_recorded].
  intros j b Hj. pose proof (lookup_lt_Some _ _ _ Hj) as Hl. cbn in Hj, Hl.
  rewrite Histogram.length_buckets_recorded in Hl.
  rewrite Histogram.recorded_bucket in Hj by done. by rewrite below_step by done; congruence.
Qed.

(** What Prometheus is told of the queue waits is a proper cumulative
    histogram of the admits: the sample labelled with a bound counts exactly
    the waits at or below it, the samples never decrease from one bound to
    the next, and the [+Inf] sample and the count both are the number of
    requests admitted. *)
Theorem cumulative_counts ws :
  Z.of_nat (length ws) < u64_modulus →
  let h := Histogram.snapshot (Histogram.recorded ws) in
  (∀ i b, Histogram.QUEUE_BOUNDS_US !! i = Some b →
     cumulative h !! i = Some (count_if (at_most b) ws))
  ∧ (∀ i j m n, (i ≤ j)%nat → cumulative h !! i = Some m → cumulative h !! j = Some n → m ≤ n)
  ∧ total_waits h = Z.of_nat (length ws).
Proof.
  intros Hlen h.
  assert (Hat : ∀ i b, Histogram.QUEUE_BOUNDS_US !! i = Some b →
                       cumulative h !! i = Some (count_if (at_most b) ws)).
  { intros i b Hb. pose proof (lookup_lt_Some _ _ _ Hb) as Hi.
    subst h. rewrite cumulative_at by exact Hi. cbn [below]. rewrite (nth_lookup_Some _ _ _ _ Hb).
    rewrite wrap64_small; [done|]. pose proof (count_if_bound (at_most b) ws). unfold u64_ok. lia. }
  assert (Hlc : length (cumulative h) = 14%nat)
    by (unfold cumulative; rewrite length_cumulate; apply Histogram.length_buckets_recorded).
  split_and!; [exact Hat| |].
  - intros i j m n Hij Hm Hn.
    pose proof (lookup_lt_Some _ _ _ Hm) as Hi. pose proof (lookup_lt_Some _ _ _ Hn) as Hj.
    rewrite Hlc in Hi, Hj.
    destruct (lookup_lt_is_Some_2 Histogram.QUEUE_BOUNDS_US i Hi) as [a Ha].
    destruct (lookup_lt_is_Some_2 Histogram.QUEUE_BOUNDS_US j Hj) as [b Hb].
    rewrite (Hat _ _ Ha) in Hm. rewrite (Hat _ _ Hb) in Hn. simplify_eq.
    assert (a ≤ b) as Hab.
    { destruct (decide (i = j)) as [->|]; [naive_solver lia|].
      pose proof (Histogram.bounds_sorted i j a b ltac:(lia) Ha Hb). lia. }
    rewrite (count_if_plus (at_most b) (at_most a) (λ w, (a <? w) && (w <=? b))).
    + pose proof (count_if_bound (λ w, (a <? w) && (w <=? b)) ws). lia.
    + intros w. unfold at_most. destruct (Z.leb_spec w b), (Z.leb_spec w a), (Z.ltb_spec a w); cbn; lia.
  - unfold total_waits. rewrite last_lookup, Hlc. cbn [Nat.pred].
    rewrite (Hat 13%nat 10000000 eq_refl). cbn [default from_option id].
    destruct (Histogram.recorded_totals ws) as (Ho & _). subst h. cbn [Histogram.snap_overflow Histogram.snapshot].
    rewrite Ho.
    pose proof (below_past ws) as Hsum. change (below ws 14) with (count_if (at_most 10000000) ws) in Hsum.
    unfold u64_add. autorewrite with kino_u64.
    unfold Datatypes.id. rewrite <-Hsum. apply wrap64_small. unfold u64_ok. lia.
Qed.

Example cumulative_counts_witness :
  total_waits (Histogram.snapshot (Histogram.recorded [400; 600; 20000000])) = 3.
Proof. apply (cumulative_counts [400; 600; 20000000]). vm_compute. reflexivity. Defined.

(** ** Who sees what *)

Lemma diff_bytes_nonneg e p : 0 ≤ diff_bytes e p.
Proof.
  revert p. induction e as [|a e IH]; intros [|b p]; cbn; try lia.
  apply Z.lor_nonneg. split; [|apply IH]. apply Z.lxor_nonneg. lia.
Qed.

Lemma diff_bytes_zero e p :
  String.length e = String.length p → diff_bytes e p = 0 ↔ e = p.
Proof.
  revert p. induction e as [|a e IH]; intros [|b p] Hl; cbn in *; try done.
  rewrite Z.lor_eq_0_iff, Z.lxor_eq_0_iff, IH by lia. split; [|naive_solver].
  intros [Hab ->]. f_equal. apply Nat2Z.inj in Hab.
  by rewrite <-(ascii_nat_embedding a), <-(ascii_nat_embedding b), Hab.
Qed.

(** The token check accepts exactly the configured token: for a
    non-empty one, the header must be "Bearer " and that token, byte for byte,
    neither longer nor shorter; the accumulated comparison loses nothing. An
    empty configured token accepts requests that present none. *)
Theorem token_ok_exact expected authorization :
  (expected ≠ "" →
   token_ok expected authorization = true ↔ authorization = Some ("Bearer " +:+ expected))
  ∧ token_ok "" None = true.
Proof.
  split; [|done]. intros Hne. unfold token_ok.
  assert (Hok : (if negb (String.length expected =? String.length (presented_token authorization))%nat
                 then false else diff_bytes expected (presented_token authorization) =? 0) = true
                ↔ presented_token authorization = expected).
  { destruct (Nat.eqb_spec (String.length expected) (String.length (presented_token authorization)))
      as [Hl|Hl]; cbn.
    - rewrite Z.eqb_eq, diff_bytes_zero by done. split; congruence.
    - split; [done|]. congruence. }
  rewrite Hok. unfold presented_token. split.
  - destruct authorization as [h|]; [|congruence].
    destruct (strip_prefix "Bearer " h) as [r|] eqn:Hs; cbn; [|congruence].
    intros ->. apply strip_prefix_some in Hs. by rewrite Hs.
  - intros ->. by rewrite (proj2 (strip_prefix_some "Bearer " _ expected)).
Qed.

(** Two snapshots that differ in what the probes do not show. *)
Definition same_state (s1 s2 : StatsSnapshot) : Prop := ss_state s1 = ss_state s2.

(** The routing matrix: only GET and HEAD are served, and nothing but
    the four endpoints exists; the probes never ask for credentials, and
    /ready answers 200 exactly while the server is ready; with a token
    configured, a request that does not present it gets a response from which
    nothing but the lifecycle state can be learnt, whatever the statistics;
    and a HEAD never carries a body. *)
Theorem route_matrix version method path authorization token s1 s2 :
  let r := route version method path authorization token in
  let p := before_char "?"%char path in
  (method ≠ "GET" → method ≠ "HEAD" → (r s1).1.1 = 405)
  ∧ (method = "GET" ∨ method = "HEAD" →
     (p = "/live" → (r s1).1.1 = 200)
     ∧ (p = "/ready" → (r s1).1.1 = if decide (ss_state s1 = STATE_READY) then 200 else 503)
     ∧ (p ∉ ["/live"; "/ready"; "/stats"; "/metrics"] → (r s1).1.1 = 404)
     ∧ (p ∈ ["/stats"; "/metrics"] →
        (r s1).1.1 = match token with
                     | Some t => if token_ok t authorization then 200 else 401
                     | None => 200
                     end))
  ∧ (∀ t, token = Some t → token_ok t authorization = false → same_state s1 s2 → r s1 = r s2)
  ∧ (handle version "HEAD" path authorization token s1).2 = "".
Proof.
  intros r p. unfold r, route. fold p. split_and!.
  - intros H1 H2. by rewrite (proj2 (String.eqb_neq _ _) H1), (proj2 (String.eqb_neq _ _) H2).
  - intros Hm.
    assert (negb (String.eqb method "GET") && negb (String.eqb method "HEAD") = false) as ->
      by (destruct Hm as [->| ->]; done).
    split_and!.
    + by intros ->.
    + intros ->. cbn. by destruct (ss_state s1).
    + rewrite !elem_of_cons, elem_of_nil. intros Hp.
      rewrite !(proj2 (String.eqb_neq p _)) by tauto. done.
    + intros [->|[->|Hp%elem_of_nil]%elem_of_cons]%elem_of_cons; [..|done]; cbn;
        destruct token as [t|]; cbn; try done; by destruct (token_ok t authorization).
  - intros t -> Ht Hs. rewrite Ht. unfold same_state in Hs. unfold state_name. rewrite Hs.
    destruct (negb (String.eqb method "GET")), (negb (String.eqb method "HEAD")), (String.eqb p "/live"),
      (String.eqb p "/ready"), (String.eqb p "/stats"), (String.eqb p "/metrics"); reflexivity.
  - unfold handle. by destruct (route _ _ _ _ _ _) as [[? ?] ?].
Qed.

(** ** The control thread *)

Definition CONTROL_MAX_CONNECTIONS : nat := 16.

(** [stop_tx] and [join] belong to the thread: whether it was told to stop. *)
Record ControlHandle : Type := MkControl {
  ch_stopped : bool;
  ch_unix_path : option string;
}.

(** The control registry and the file system. *)
Record ControlWorld : Type := MkControlWorld {
  handles : gmap nat ControlHandle;
  files : Listen.Files;
}.

(** The thread's listener is dropped, and its socket file removed. *)
Definition reclaim (p : option string) (fs : Listen.Files) : Listen.Files :=
  match p with
  | Some p => Listen.cleanup_unix p (Listen.os_close p fs)
  | None => fs
  end.

(** [spawned] says whether the OS gave the thread. *)
Definition start (spawned : option string) (b : Listen.ControlBind) (id : nat) (w : ControlWorld)
  : (string + option Z) * ControlWorld :=
  match spawned with
  | Some e => (inl e, MkControlWorld (handles w) (reclaim (Listen.control_path b) (files w)))
  | None =>
      (inr (Listen.control_port b),
       MkControlWorld (<[id := MkControl false (Listen.control_path b)]> (handles w)) (files w))
  end.

Definition control_stop (id : nat) (w : ControlWorld) : ControlWorld :=
  match handles w !! id with
  | Some hd => MkControlWorld (delete id (handles w)) (reclaim (ch_unix_path hd) (files w))
  | None => w
  end.

(** The accept loop: a connection is served under a permit, or dropped at once
    when none is left; one that ends, or meets its deadline, gives its permit
    back; an accept error only backs off. *)
Record Monitoring (sem : Type) : Type := MkMonitoring {
  mon_permits : sem;
  mon_conns : list nat;
}.
Arguments MkMonitoring {sem}.
Arguments mon_permits {sem}.
Arguments mon_conns {sem}.

Inductive serve_event : Type :=
  | ConnAccepted (c : nat)
  | AcceptFailed
  | ConnOver (c : nat).

Section serve.
Context {sem : Type} `{!Semaphore sem}.
Implicit Types (m : Monitoring sem).

Definition monitoring_new : Monitoring sem := MkMonitoring (sem_new CONTROL_MAX_CONNECTIONS) [].

Definition serve_turn m (e : serve_event) : Monitoring sem :=
  match e with
  | ConnAccepted c =>
      match try_acquire_owned (mon_permits m) with
      | Some s => MkMonitoring s (c :: mon_conns m)
      | None => m
      end
  | AcceptFailed => m
  | ConnOver c =>
      match list_find (c =.) (mon_conns m) with
      | Some (i, _) => MkMonitoring (drop_permit (mon_permits m)) (delete i (mon_conns m))
      | None => m
      end
  end.

Definition serve (events : list serve_event) : Monitoring sem := foldl serve_turn monitoring_new events.

Lemma serve_permits `{!SemaphoreSpec sem} events :
  (available_permits (mon_permits (serve events)) + length (mon_conns (serve events))
   = CONTROL_MAX_CONNECTIONS)%nat.
Proof.
  unfold serve. induction events as [|e events IH] using rev_ind; cbn [foldl].
  { cbn. by rewrite sem_new_spec. }
  rewrite foldl_app. cbn [foldl]. revert IH. generalize (foldl serve_turn monitoring_new events).
  intros m IH. destruct e as [c| |c]; cbn [serve_turn]; [|done|].
  - destruct (try_acquire_owned (mon_permits m)) eqn:E; [|done]. apply acquire_inv in E. cbn. lia.
  - destruct (list_find (c =.) (mon_conns m)) as [[i x]|] eqn:E; [|done].
    apply list_find_Some in E as (Hi & _). cbn.
    rewrite drop_permit_spec. apply lookup_lt_Some in Hi as Hlt.
    rewrite length_delete by eauto. lia.
Qed.
End serve.

(** ** What the thread runs *)

Definition CONTROL_MAX_REQUEST_BYTES : Z := 8192.
Definition CONTROL_DEADLINE : Z := 5 * 1000000000.

(** Level, source and message of a log line. *)
Definition native_error (message : string) : AccessLog.Level * string * string :=
  (AccessLog.LevelError, "native", message).

Inductive TcpOrUnix : Type := CtlTcp | CtlUnix.

(** The runtime's and the registration's errors, if any: the thread then logs
    and ends; otherwise it serves the listener. *)
Definition run (runtime_error register_error : option string) (b : Listen.ControlBind)
  : AccessLog.Level * string * string + TcpOrUnix :=
  match runtime_error with
  | Some e => inl (native_error ("control runtime failed: " +:+ e))
  | None =>
      match register_error with
      | Some e => inl (native_error ("control listener failed: " +:+ e))
      | None => inr (match b with Listen.ControlTcp _ => CtlTcp | Listen.ControlUnix _ => CtlUnix end)
      end
  end.

Record ControlBuilder : Type := MkControlBuilder {
  cb_keep_alive : bool;
  cb_max_buf_size : Z;
}.

Definition control_builder : ControlBuilder := MkControlBuilder false CONTROL_MAX_REQUEST_BYTES.

(** A connection's task: when its permit comes back. [serve_http] is hyper:
    when a connection so configured ends, if it does. *)
Definition spawn_connection (serve_http : ControlBuilder → nat → option Z) (now : Z) (stream : nat) : Z :=
  let deadline := now + CONTROL_DEADLINE in
  match serve_http control_builder stream with
  | Some t => Z.min t deadline
  | None => deadline
  end.

(** A monitoring client holds its permit for five seconds at most. *)
Lemma spawn_connection_bounded serve_http now stream :
  (∀ t, serve_http control_builder stream = Some t → now ≤ t) →
  now ≤ spawn_connection serve_http now stream ≤ now + CONTROL_DEADLINE.
Proof.
  intros H. unfold spawn_connection. assert (0 < CONTROL_DEADLINE) by done.
  destruct (serve_http _ _) as [t|]; [specialize (H t eq_refl)|]; lia.
Qed.

Lemma reclaim_gone p fs : p ∉ Listen.denied fs → Listen.nodes (reclaim (Some p) fs) !! p = None.
Proof.
  intros Hd. unfold reclaim, Listen.cleanup_unix, Listen.os_remove_file.
  destruct (Listen.nodes (Listen.os_close p fs) !! p) as [n|] eqn:E; [|done].
  rewrite decide_False by done. cbn. apply lookup_delete_eq.
Qed.

(** Starting the control thread and stopping it again leaves no trace:
    the handle is gone, and so is the socket file; stopping twice, or a server
    that has no control plane, is a no-op. When the thread cannot be started
    the error is reported and the socket file reclaimed, so that the next
    bind of the path succeeds. Whatever connections come and go, never more
    than 16 are served at once, and the rest of the permits are free. *)
Theorem control_start_stop {sem} `{!Semaphore sem, !SemaphoreSpec sem} b id w e events :
  handles w !! id = None →
  (∀ p, Listen.control_path b = Some p → p ∉ Listen.denied (files w)) →
  (let '(r, w') := start None b id w in
   r = inr (Listen.control_port b) ∧ handles (control_stop id w') = handles w
   ∧ (∀ p, Listen.control_path b = Some p → Listen.nodes (files (control_stop id w')) !! p = None)
   ∧ control_stop id (control_stop id w') = control_stop id w')
  ∧ (let '(r, w') := start (Some e) b id w in
     r = inl e ∧ handles w' = handles w
     ∧ ∀ p, Listen.control_path b = Some p → (Listen.bind_unix p (files w')).1 = None)
  ∧ control_stop id w = w
  ∧ (available_permits (mon_permits (serve (sem := sem) events))
     + length (mon_conns (serve (sem := sem) events)) = CONTROL_MAX_CONNECTIONS)%nat.
Proof.
  intros Hid Hd. split_and!.
  - cbn. unfold control_stop. cbn. rewrite lookup_insert_eq. cbn. rewrite lookup_delete_eq.
    split_and!; [done|by apply delete_insert_id| |done].
    intros p Hp. rewrite Hp. apply reclaim_gone. by apply Hd.
  - cbn [start]. split_and!; [done|done|]. intros p Hp. rewrite Hp. cbn [files].
    rewrite Listen.bind_unix_absent; [done|by apply reclaim_gone, Hd|].
    intros Hin. apply (Hd p Hp). revert Hin. unfold reclaim, Listen.cleanup_unix, Listen.os_remove_file.
    by repeat case_match.
  - unfold control_stop. by rewrite Hid.
  - apply serve_permits.
Qed.

Example control_start_stop_witness :
  let w := MkControlWorld ∅ (Listen.MkFiles {["/run/ctl.sock" := Listen.SocketFile true]} ∅ Listen.ConnectionRefused) in
  let w' := (start None (Listen.ControlUnix "/run/ctl.sock") 1 w).2 in
  handles (control_stop 1 w') = ∅.
Proof.
  intros w w'.
  destruct (control_start_stop (sem := nat) (Listen.ControlUnix "/run/ctl.sock") 1 w "" [] eq_refl) as [H _].
  - intros p [= <-]. apply not_elem_of_empty.
  - apply H.
Defined.
