(* ===== verification/Scrape.v ===== *)
(** A scrape while requests are admitted: any number of workers record their
    waits and any number of scrapes read the histogram, all one atomic
    operation at a time ([record] and [snapshot] of [registry.rs]), and the
    cumulative series the control plane prints from what a scrape read. The
    source's operations are relaxed; the model interleaves them, and the
    bounds proved are of each cell by itself, whose additions have one order. *)

From S2P Require Import Prelude Histogram.
From S2P Require Control.

(** ** Threads *)

(** A worker in [record]: before the bucket's addition, before the sum's,
    before the count's, done. A scrape in [snapshot]: the cells loaded so far,
    buckets first, then the overflow, the sum and the count. *)
Inductive meter : Type :=
  | RCall (w : Z)
  | RPlaced (w : Z)
  | RSummed (w : Z)
  | RDone (w : Z)
  | Loading (read : list Z).

Definition loads (h : QueueHistogram) : list Z := buckets h ++ [overflow h; sum_us h; count h].

(** One atomic operation; [None] when the thread is done. *)
Definition meter_atom (p : meter) (h : QueueHistogram) : option (meter * QueueHistogram) :=
  match p with
  | RCall w => Some (RPlaced w, place w h)
  | RPlaced w => Some (RSummed w, add_sum w h)
  | RSummed w => Some (RDone w, add_count h)
  | RDone _ => None
  | Loading l =>
      match loads h !! length l with
      | Some v => Some (Loading (l ++ [v]), h)
      | None => None
      end
  end.

(** What a scrape has read. *)
Definition snapshot_of (l : list Z) : QueueHistogramSnapshot :=
  MkHistogramSnapshot (take 14 l) (nth 14 l 0) (nth 15 l 0) (nth 16 l 0).

Record Metered : Type := MkMetered {
  hist : QueueHistogram;
  meters : list meter;
}.

(** Workers and scrapes come at any time. *)
Inductive meter_step : Metered → Metered → Prop :=
  | ms_admit h ms w : meter_step (MkMetered h ms) (MkMetered h (ms ++ [RCall w]))
  | ms_scrape h ms : meter_step (MkMetered h ms) (MkMetered h (ms ++ [Loading []]))
  | ms_move h ms i p p' h' :
      ms !! i = Some p → meter_atom p h = Some (p', h') →
      meter_step (MkMetered h ms) (MkMetered h' (<[i := p']> ms)).

Definition metered_new : Metered := MkMetered histogram_new [].

(** The operations in a row are [record] and [snapshot]. *)
Example alone :
  (∀ h w, ∃ h1 h2, meter_atom (RCall w) h = Some (RPlaced w, h1) ∧ meter_atom (RPlaced w) h1 = Some (RSummed w, h2)
     ∧ meter_atom (RSummed w) h2 = Some (RDone w, record h w))
  ∧ ∀ h, length (buckets h) = 14%nat → snapshot_of (loads h) = snapshot h.
Proof.
  split; [intros h w; by do 2 eexists|]. intros [b o s c] Hb. cbn in Hb. unfold snapshot_of, snapshot, loads. cbn.
  rewrite take_app_length' by done. do 3 (rewrite app_nth2 by lia). by rewrite Hb.
Qed.

(** ** What the histogram holds *)

Definition placed_wait (p : meter) : option Z :=
  match p with RPlaced w | RSummed w | RDone w => Some w | _ => None end.
Definition summed_wait (p : meter) : option Z :=
  match p with RSummed w | RDone w => Some w | _ => None end.
Definition counted_wait (p : meter) : option Z :=
  match p with RDone w => Some w | _ => None end.

(** The waits whose bucket, sum and count have been added to. *)
Definition placed_waits (s : Metered) : list Z := omap placed_wait (meters s).
Definition summed_waits (s : Metered) : list Z := omap summed_wait (meters s).
Definition counted_waits (s : Metered) : list Z := omap counted_wait (meters s).

Record hist_ok (s : Metered) : Prop := {
  ho_length : length (buckets (hist s)) = 14%nat;
  ho_bucket i : (i < 14)%nat → buckets (hist s) !! i = Some (wrap64 (count_if (in_bucket i) (placed_waits s)));
  ho_overflow : overflow (hist s) = wrap64 (count_if past_bounds (placed_waits s));
  ho_sum : sum_us (hist s) = wrap64 (Zsum (summed_waits s));
  ho_count : count (hist s) = wrap64 (Z.of_nat (length (counted_waits s)));
}.

(** A thread that moves changes its own share only. *)
Lemma omap_moved (f : meter → option Z) (ms : list meter) (i : nat) p p' :
  ms !! i = Some p →
  ∃ l1 l2, omap f ms = l1 ++ option_list (f p) ++ l2 ∧ omap f (<[i:=p']> ms) = l1 ++ option_list (f p') ++ l2.
Proof.
  intros Hi. apply list_elem_of_split_length in Hi as (m1 & m2 & -> & ->).
  exists (omap f m1), (omap f m2). rewrite insert_app_r_alt, Nat.sub_diag by lia. cbn [insert list_insert].
  rewrite !omap_app. cbn [omap list_omap]. by destruct (f p), (f p').
Qed.

Lemma omap_same (f : meter → option Z) (ms : list meter) (i : nat) p p' :
  ms !! i = Some p → f p' = f p → omap f (<[i:=p']> ms) = omap f ms.
Proof. intros Hi Hf. destruct (omap_moved f ms i p p' Hi) as (l1 & l2 & -> & ->). by rewrite Hf. Qed.

Lemma omap_joined (f : meter → option Z) (ms : list meter) (i : nat) p p' w :
  ms !! i = Some p → f p = None → f p' = Some w → omap f (<[i:=p']> ms) ≡ₚ omap f ms ++ [w].
Proof.
  intros Hi Hp Hp'. destruct (omap_moved f ms i p p' Hi) as (l1 & l2 & -> & ->). rewrite Hp, Hp'. cbn.
  by rewrite <-app_assoc, (Permutation_app_comm l2).
Qed.

#[export] Instance count_if_perm {A} (p : A → bool) : Proper ((≡ₚ) ==> (=)) (count_if p).
Proof.
  unfold count_if. induction 1 as [|x l k _ IH|x y l|l k m _ IH1 _ IH2]; cbn; [done|..].
  - destruct (p x); cbn; lia.
  - destruct (p x), (p y); cbn; lia.
  - lia.
Qed.

#[export] Instance Zsum_perm : Proper ((≡ₚ) ==> (=)) Zsum.
Proof. unfold Zsum. induction 1; cbn in *; lia. Qed.

Lemma hist_ok_init : hist_ok metered_new.
Proof. split; try done. intros i Hi. exact (recorded_bucket [] i Hi). Qed.

Lemma meter_step_ok s s' : meter_step s s' → hist_ok s → hist_ok s'.
Proof.
  intros Hstep [Hl Hb Ho Hs Hc]. destruct Hstep as [h ms w|h ms|h ms i p p' h' Hi Ha].
  - split; unfold placed_waits, summed_waits, counted_waits in *; cbn in *; by rewrite ?omap_app, ?app_nil_r.
  - split; unfold placed_waits, summed_waits, counted_waits in *; cbn in *; by rewrite ?omap_app, ?app_nil_r.
  - unfold placed_waits, summed_waits, counted_waits in *. cbn in *.
    destruct p as [w|w|w|w|l]; cbn in Ha; simplify_eq.
    + pose proof (omap_joined placed_wait ms i _ (RPlaced w) w Hi eq_refl eq_refl) as Hp.
      destruct (place_frame h w) as [Hfs Hfc].
      split; unfold placed_waits, summed_waits, counted_waits; cbn [hist meters]; rewrite ?Hp, ?Hfs, ?Hfc.
      * by rewrite length_buckets_place.
      * intros j Hj. rewrite Hp, count_if_snoc, <-wrap_count_step. by apply place_bucket, Hb.
      * by rewrite place_overflow, Ho, count_if_snoc, <-wrap_count_step.
      * by rewrite (omap_same summed_wait _ _ _ (RPlaced w) Hi).
      * by rewrite (omap_same counted_wait _ _ _ (RPlaced w) Hi).
    + pose proof (omap_joined summed_wait ms i _ (RSummed w) w Hi eq_refl eq_refl) as Hp.
      split; unfold placed_waits, summed_waits, counted_waits; cbn [hist meters add_sum buckets overflow sum_us count];
        rewrite ?(omap_same placed_wait _ _ _ (RSummed w) Hi), ?(omap_same counted_wait _ _ _ (RSummed w) Hi) by done; try done.
      rewrite Hp, Zsum_app, Hs. unfold u64_add. cbn. autorewrite with kino_u64. unfold Zsum. f_equal. lia.
    + pose proof (omap_joined counted_wait ms i _ (RDone w) w Hi eq_refl eq_refl) as Hp.
      split; unfold placed_waits, summed_waits, counted_waits; cbn [hist meters add_count buckets overflow sum_us count];
        rewrite ?(omap_same placed_wait _ _ _ (RDone w) Hi), ?(omap_same summed_wait _ _ _ (RDone w) Hi) by done; try done.
      rewrite Hp, length_app, Hc. unfold u64_add. cbn. autorewrite with kino_u64. f_equal. lia.
    + destruct (loads h !! length l) as [v|]; simplify_eq.
      split; unfold placed_waits, summed_waits, counted_waits; cbn [hist meters];
        by rewrite ?(omap_same _ _ _ _ (Loading (l ++ [v])) Hi).
Qed.

(** ** A scrape reads between two moments *)

(** What cell [k] counts: a bucket's waits, or those past the last bound. *)
Definition counts (k : nat) : Z → bool := if (k <? 14)%nat then in_bucket k else past_bounds.

Lemma loads_at s k :
  hist_ok s → (k < 15)%nat → loads (hist s) !! k = Some (wrap64 (count_if (counts k) (placed_waits s))).
Proof.
  intros [Hl Hb Ho _ _] Hk. unfold loads, counts. destruct (Nat.ltb_spec k 14) as [Hlt|Hge].
  - rewrite lookup_app_l by lia. by apply Hb.
  - replace k with 14%nat by lia. rewrite lookup_app_r by lia. by rewrite Hl, <-Ho.
Qed.

Lemma count_if_nonneg {A} (q : A → bool) l : 0 ≤ count_if q l.
Proof. unfold count_if. lia. Qed.

(** Nothing recorded is forgotten, and no thread leaves. *)
Lemma meter_grows s s' :
  meter_step s s' →
  (∀ q, count_if q (placed_waits s) ≤ count_if q (placed_waits s')) ∧ (length (meters s) ≤ length (meters s'))%nat.
Proof.
  destruct 1 as [h ms w|h ms|h ms i p p' h' Hi Ha]; unfold placed_waits; cbn [meters];
    rewrite ?omap_app, ?length_app, ?length_insert; (split; [|cbn; lia]); intros q.
  - cbn. by rewrite app_nil_r.
  - cbn. by rewrite app_nil_r.
  - destruct (omap_moved placed_wait ms i p p' Hi) as (l1 & l2 & -> & ->). rewrite !count_if_app.
    pose proof (count_if_nonneg q (option_list (placed_wait p'))).
    assert (Hn : count_if q (option_list None) = 0) by done.
    destruct p; cbn in Ha; try case_match; simplify_eq; cbn [placed_wait option_list] in *; lia.
Qed.

Lemma meters_grow s s' :
  steps meter_step s s' →
  (∀ q, count_if q (placed_waits s) ≤ count_if q (placed_waits s')) ∧ (length (meters s) ≤ length (meters s'))%nat.
Proof.
  induction 1 as [|s s1 s' H1 _ [IH1 IH2]]; [done|]. destruct (meter_grows _ _ H1) as [G1 G2].
  split; [|lia]. intros q. specialize (G1 q). specialize (IH1 q). lia.
Qed.

Lemma placed_bound s q : count_if q (placed_waits s) ≤ Z.of_nat (length (meters s)).
Proof.
  unfold count_if, placed_waits. pose proof (List.filter_length_le q (omap placed_wait (meters s))).
  assert (Hl : ∀ l, (length (omap placed_wait l) ≤ length l)%nat)
    by (induction l as [|p l IH]; cbn; [done|]; destruct (placed_wait p); cbn; lia).
  specialize (Hl (meters s)). lia.
Qed.

(** The cells read so far lie between what they held when the scrape began
    and what they hold now. *)
Definition reading_ok (s0 : Metered) (t : nat) (s : Metered) : Prop :=
  ∃ l, meters s !! t = Some (Loading l)
  ∧ ∀ k v, (k < 15)%nat → l !! k = Some v →
      count_if (counts k) (placed_waits s0) ≤ v ≤ count_if (counts k) (placed_waits s).

Lemma reading_step s0 t s s' :
  meter_step s s' → hist_ok s → Z.of_nat (length (meters s)) < u64_modulus →
  (∀ q, count_if q (placed_waits s0) ≤ count_if q (placed_waits s)) →
  reading_ok s0 t s → reading_ok s0 t s'.
Proof.
  intros Hstep Hok Hlen Hfrom (l & Ht & Hl). destruct (meter_grows _ _ Hstep) as [Hg _].
  assert (Hkeep : meters s' !! t = Some (Loading l) → reading_ok s0 t s').
  { intros Ht'. exists l. split; [done|]. intros k v Hk Hv. specialize (Hl k v Hk Hv). specialize (Hg (counts k)). lia. }
  destruct Hstep as [h ms w|h ms|h ms i p p' h' Hi Ha]; cbn [meters] in *;
    try (apply Hkeep; by apply lookup_app_l_Some).
  destruct (decide (i = t)) as [->|Hne]; [|apply Hkeep; by rewrite list_lookup_insert_ne].
  simplify_eq. cbn in Ha. destruct (loads h !! length l) as [v|] eqn:Hv; simplify_eq.
  exists (l ++ [v]). split; [apply list_lookup_insert_eq; by apply lookup_lt_Some in Hi|].
  intros k x Hk [Hx|[Hx1 Hx2]]%lookup_app_Some.
  - specialize (Hl k x Hk Hx). specialize (Hg (counts k)). lia.
  - apply list_lookup_singleton_Some in Hx2 as [Hx2 <-]. assert (k = length l) as -> by lia.
    pose proof (loads_at _ _ Hok Hk) as Hld. cbn [hist] in Hld. rewrite Hld in Hv. injection Hv as Hv.
    pose proof (placed_bound (MkMetered h' ms) (counts (length l))). pose proof (count_if_nonneg (counts (length l)) (placed_waits (MkMetered h' ms))).
    cbn [meters] in *. rewrite wrap64_small in Hv by (unfold u64_ok; lia).
    specialize (Hg (counts (length l))). specialize (Hfrom (counts (length l))). lia.
Qed.

Lemma reading_steps s0 t s :
  steps meter_step s0 s → hist_ok s0 → meters s0 !! t = Some (Loading []) →
  Z.of_nat (length (meters s)) < u64_modulus → hist_ok s ∧ reading_ok s0 t s.
Proof.
  intros Hs Hok Ht Hlen.
  assert (Hgen : ∀ a b, steps meter_step a b → Z.of_nat (length (meters b)) < u64_modulus →
    hist_ok a → (∀ q, count_if q (placed_waits s0) ≤ count_if q (placed_waits a)) → reading_ok s0 t a →
    hist_ok b ∧ reading_ok s0 t b).
  { induction 1 as [|a a1 b H1 H2 IH]; [done|]. intros Hb Ha Hfrom Hr. destruct (meter_grows _ _ H1) as [G1 G2].
    pose proof (proj2 (meters_grow _ _ H2)). apply IH; [done|by eapply meter_step_ok| |].
    - intros q. specialize (G1 q). specialize (Hfrom q). lia.
    - eapply reading_step; [done..|lia|done|done]. }
  apply (Hgen s0 s); [done..|]. exists []. by split.
Qed.

(** ** What the control plane prints of it *)

Definition no_worker_inside (s : Metered) : Prop :=
  Forall (λ p, match p with RDone _ | Loading _ => True | _ => False end) (meters s).

Lemma Zsum_nonneg l : Forall (λ x, 0 ≤ x) l → 0 ≤ Zsum l.
Proof. unfold Zsum. induction 1; cbn; lia. Qed.

Lemma prefix_sums l i j : Forall (λ x, 0 ≤ x) l → (i ≤ j)%nat → Zsum (take i l) ≤ Zsum (take j l).
Proof.
  intros Hl Hij. rewrite <-(take_drop i (take j l)), Zsum_app, take_take, Nat.min_l by done.
  assert (0 ≤ Zsum (drop i (take j l))) by (by apply Zsum_nonneg, Forall_drop, Forall_take). lia.
Qed.

(** The cumulative series of bucket counts that do not overflow. *)
Lemma cumulative_sums bs o s c i :
  Forall (λ x, 0 ≤ x) bs → Zsum bs < u64_modulus → (i < length bs)%nat →
  Control.cumulative (MkHistogramSnapshot bs o s c) !! i = Some (Zsum (take (S i) bs)).
Proof.
  intros Hpos Hmax Hi.
  assert (Hsmall : ∀ k, wrap64 (Zsum (take k bs)) = Zsum (take k bs)).
  { intros k. apply wrap64_small. pose proof (prefix_sums bs 0 k Hpos ltac:(lia)) as H0.
    pose proof (prefix_sums bs k (k + length bs) Hpos ltac:(lia)) as H1. rewrite (take_ge bs (k + length bs)) in H1 by lia.
    change (Zsum (take 0 bs)) with 0 in H0. unfold u64_ok. lia. }
  unfold Control.cumulative. cbn [snap_buckets]. rewrite (Control.cumulate_at (λ k, Zsum (take k bs))); [by rewrite Hsmall| |done|done].
  intros k b Hk. cbv beta. rewrite (take_S_r _ _ _ Hk), Zsum_app.
  assert (Hb : Zsum [b] = b) by (unfold Zsum; cbn; lia). rewrite Hb.
  replace (Zsum (take k bs) + b - Zsum (take k bs)) with b by lia.
  pose proof (prefix_sums bs (S k) (S k + length bs) Hpos ltac:(lia)) as H1.
  rewrite (take_ge bs (S k + length bs)), (take_S_r _ _ _ Hk), Zsum_app, Hb in H1 by lia.
  pose proof (prefix_sums bs 0 k Hpos ltac:(lia)) as H0. change (Zsum (take 0 bs)) with 0 in H0.
  rewrite Forall_lookup in Hpos. specialize (Hpos _ _ Hk). rewrite wrap64_small; [lia|]. unfold u64_ok. lia.
Qed.

(** The waits at or below a bound are those of the buckets up to it. *)
Lemma bucket_sums l i :
  (i ≤ 14)%nat → Zsum ((λ k, count_if (in_bucket k) l) <$> seq 0 i) = Control.below l i.
Proof.
  induction i as [|i IH]; intros Hi; [done|]. rewrite seq_S, fmap_app, Zsum_app, IH by lia.
  pose proof (Control.below_step l i ltac:(lia)). cbn [fmap list_fmap Nat.add]. unfold Zsum at 1. cbn [foldr]. lia.
Qed.

Lemma Zsum_mono l k : Forall2 Z.le l k → Zsum l ≤ Zsum k.
Proof. unfold Zsum. induction 1; cbn; lia. Qed.

Definition bucket_counts (l : list Z) : list Z := (λ k, count_if (in_bucket k) l) <$> seq 0 14.

Lemma bucket_counts_below l i : (i ≤ 14)%nat → Zsum (take i (bucket_counts l)) = Control.below l i.
Proof.
  intros Hi. unfold bucket_counts. rewrite <-fmap_take, take_seq, Nat.min_l by lia. by apply bucket_sums.
Qed.

(** The histogram between calls is the recorded one. *)
Lemma quiet_hist s : hist_ok s → no_worker_inside s → hist s = recorded (placed_waits s).
Proof.
  intros [Hl Hb Ho Hs Hc] Hq.
  assert (Hsame : summed_waits s = placed_waits s ∧ counted_waits s = placed_waits s).
  { unfold summed_waits, counted_waits, placed_waits. unfold no_worker_inside in Hq.
    induction Hq as [|p ms Hp _ [IH1 IH2]]; [done|]. cbn. destruct p; try done; cbn; split; congruence. }
  destruct Hsame as [E1 E2]. rewrite E1 in Hs. rewrite E2 in Hc. destruct (recorded_totals (placed_waits s)) as (T1 & T2 & T3).
  destruct (hist s) as [bs o sm ct], (recorded (placed_waits s)) as [bs' o' sm' ct'] eqn:Hr. cbn in *. f_equal; [|congruence..].
  assert (Hl' : length bs' = 14%nat) by (change bs' with (buckets (MkHistogram bs' o' sm' ct')); rewrite <-Hr; apply length_buckets_recorded).
  apply list_eq. intros i. destruct (decide (i < 14)%nat) as [Hi|Hi].
  - rewrite (Hb i Hi). change bs' with (buckets (MkHistogram bs' o' sm' ct')). rewrite <-Hr. symmetry. by apply recorded_bucket.
  - rewrite !lookup_ge_None_2 by lia. done.
Qed.

Lemma prefix_le l k i : Forall2 Z.le l k → Zsum (take i l) ≤ Zsum (take i k).
Proof. intros H. by apply Zsum_mono, Forall2_take. Qed.

Section scrape.
Variables (s1 s2 : Metered) (t : nat) (l : list Z).
Hypothesis Hreach : steps meter_step metered_new s1.
Hypothesis Hbegin : meters s1 !! t = Some (Loading []).
Hypothesis Hrun : steps meter_step s1 s2.
Hypothesis Hend : meters s2 !! t = Some (Loading l).
Hypothesis Hfull : length l = 17%nat.
Hypothesis Hwidth : Z.of_nat (length (meters s2)) < u64_modulus.

Let P1 := placed_waits s1.
Let P2 := placed_waits s2.

(** What was read, cell by cell. *)
Lemma read_between k : (k < 15)%nat → ∃ v, l !! k = Some v ∧ count_if (counts k) P1 ≤ v ≤ count_if (counts k) P2.
Proof.
  intros Hk. destruct (lookup_lt_is_Some_2 l k) as [v Hv]; [lia|]. exists v. split; [done|].
  assert (Hok : hist_ok s1) by (apply (steps_invariant meter_step hist_ok meter_step_ok _ _ Hreach), hist_ok_init).
  destruct (reading_steps s1 t s2 Hrun Hok Hbegin Hwidth) as [_ (l' & Hl' & H)].
  rewrite Hend in Hl'. injection Hl' as <-. by apply H.
Qed.

Lemma buckets_between :
  Forall2 Z.le (bucket_counts P1) (take 14 l) ∧ Forall2 Z.le (take 14 l) (bucket_counts P2).
Proof.
  assert (H : ∀ k, (k < 14)%nat → ∃ v, take 14 l !! k = Some v ∧ count_if (in_bucket k) P1 ≤ v ≤ count_if (in_bucket k) P2).
  { intros k Hk. destruct (read_between k) as (v & Hv & Hb); [lia|]. exists v. rewrite lookup_take_lt by lia.
    split; [done|]. unfold counts in Hb. by rewrite (proj2 (Nat.ltb_lt k 14) Hk) in Hb. }
  assert (Hc : ∀ Q k x, bucket_counts Q !! k = Some x → (k < 14)%nat ∧ x = count_if (in_bucket k) Q).
  { intros Q k x (j & -> & [-> Hj]%lookup_seq)%list_lookup_fmap_Some. done. }
  assert (Hn : ∀ Q, length (bucket_counts Q) = 14%nat) by done.
  split; apply Forall2_same_length_lookup; rewrite length_take, Hn, Hfull; (split; [done|]); intros k x y Hx Hy.
  - destruct (Hc _ _ _ Hx) as [Hk ->]. destruct (H k Hk) as (v & Hv & ?). simplify_eq. lia.
  - destruct (Hc _ _ _ Hy) as [Hk ->]. destruct (H k Hk) as (v & Hv & ?). simplify_eq. lia.
Qed.

Lemma read_nonneg : Forall (λ x, 0 ≤ x) (take 14 l).
Proof.
  apply Forall_lookup. intros k x Hx. destruct (Forall2_lookup_r _ _ _ _ _ (proj1 buckets_between) Hx) as (y & Hy & Hle).
  apply list_lookup_fmap_Some in Hy as (j & -> & _). pose proof (count_if_nonneg (in_bucket j) P1). lia.
Qed.

(** The prefix sums of what was read, at the two moments. *)
Lemma sums_between i :
  (i ≤ 14)%nat → Control.below P1 i ≤ Zsum (take i (take 14 l)) ≤ Control.below P2 i.
Proof.
  intros Hi. destruct buckets_between as [HL HU]. rewrite <-!bucket_counts_below by done.
  split; by apply Zsum_mono, Forall2_take.
Qed.

(** Everything read, and all of it fits. *)
Lemma read_overflow :
  ∃ o, l !! 14%nat = Some o ∧ 0 ≤ o
  ∧ Z.of_nat (length P1) ≤ Zsum (take 14 l) + o ≤ Z.of_nat (length P2) ∧ Z.of_nat (length P2) < u64_modulus.
Proof.
  destruct (read_between 14) as (o & Ho & Hob); [lia|]. change (counts 14) with past_bounds in Hob.
  pose proof (sums_between 14 ltac:(lia)) as Hs. rewrite take_take in Hs. change (14 `min` 14)%nat with 14%nat in Hs.
  pose proof (placed_bound s2 (λ _, true)) as Hb2. rewrite Control.count_if_true in Hb2. fold P2 in Hb2.
  exists o. rewrite (Control.below_past P1), (Control.below_past P2) in *.
  pose proof (count_if_nonneg past_bounds P1). split_and!; [done|lia..].
Qed.

Lemma scrape_at i :
  (i < 14)%nat → Control.cumulative (snapshot_of l) !! i = Some (Zsum (take (S i) (take 14 l))).
Proof.
  destruct read_overflow as (o & _ & Ho & Hsum & Hmax). intros Hi.
  apply cumulative_sums; [apply read_nonneg|lia|rewrite length_take; lia].
Qed.

Lemma scrape_length : length (Control.cumulative (snapshot_of l)) = 14%nat.
Proof. unfold Control.cumulative. rewrite Control.length_cumulate. cbn. rewrite length_take. lia. Qed.

Lemma scrape_inv i m :
  Control.cumulative (snapshot_of l) !! i = Some m → (i < 14)%nat ∧ m = Zsum (take (S i) (take 14 l)).
Proof.
  intros Hm. pose proof (lookup_lt_Some _ _ _ Hm) as Hi. rewrite scrape_length in Hi. split; [done|].
  rewrite scrape_at in Hm by done. congruence.
Qed.

Lemma scrape_total :
  ∃ o, Control.total_waits (snapshot_of l) = Zsum (take 14 l) + o ∧ 0 ≤ o
  ∧ Z.of_nat (length P1) ≤ Zsum (take 14 l) + o ≤ Z.of_nat (length P2).
Proof.
  destruct read_overflow as (o & Ho & Hz & Hsum & Hmax). exists o. split_and!; [|done|lia..].
  unfold Control.total_waits. rewrite last_lookup, scrape_length. cbn [Nat.pred]. rewrite scrape_at by lia.
  cbn [default from_option snap_overflow snapshot_of]. rewrite take_take, (nth_lookup_Some _ _ _ _ Ho).
  change (14 `min` 14)%nat with 14%nat. unfold u64_add, Datatypes.id. apply wrap64_small.
  pose proof (Zsum_nonneg _ read_nonneg). unfold u64_ok. lia.
Qed.

(** C39: A scrape is right about the moments it spans. While any number
    of requests are being admitted and any number of scrapes run, all
    interleaved one atomic operation at a time, take a scrape from its start
    to its end. Then what the control plane prints of it is a proper
    cumulative histogram, torn as the read may be: the samples never decrease
    from one bound to the next nor to [+Inf]; the sample of each bound lies
    between the number of waits at or below it that were recorded when the
    scrape began and when it ended, and so does [+Inf] with all waits. And
    no addition is lost: with no worker inside [record], the histogram is
    the one the recorded waits give one after another. *)
Theorem scrape_consistent :
  let h := snapshot_of l in
  (∀ i j m n, (i ≤ j)%nat → Control.cumulative h !! i = Some m → Control.cumulative h !! j = Some n → m ≤ n)
  ∧ (∀ i m, Control.cumulative h !! i = Some m → m ≤ Control.total_waits h)
  ∧ (∀ i b, QUEUE_BOUNDS_US !! i = Some b → ∃ m, Control.cumulative h !! i = Some m
       ∧ count_if (Control.at_most b) (placed_waits s1) ≤ m ≤ count_if (Control.at_most b) (placed_waits s2))
  ∧ Z.of_nat (length (placed_waits s1)) ≤ Control.total_waits h ≤ Z.of_nat (length (placed_waits s2))
  ∧ (no_worker_inside s2 → hist s2 = recorded (placed_waits s2)).
Proof.
  intros h. unfold h; clear h. split_and!.
  - intros i j m n Hij [_ ->]%scrape_inv [_ ->]%scrape_inv. apply prefix_sums; [apply read_nonneg|lia].
  - intros i m [Hi ->]%scrape_inv. destruct scrape_total as (o & -> & Ho & _).
    pose proof (prefix_sums _ (S i) 14 read_nonneg ltac:(lia)) as H.
    assert (E : take 14 (take 14 l) = take 14 l) by (by rewrite take_take). rewrite E in H. lia.
  - intros i b Hb. assert (Hi : (i < 14)%nat) by (apply lookup_lt_Some in Hb; exact Hb).
    eexists. split; [by apply scrape_at|]. pose proof (sums_between (S i) ltac:(lia)) as H. cbn [Control.below] in H.
    rewrite (nth_lookup_Some _ _ _ _ Hb) in H. exact H.
  - destruct scrape_total as (o & -> & _ & H). apply H.
  - destruct scrape_total as (o & -> & _ & H). apply H.
  - apply quiet_hist. eapply (steps_invariant meter_step hist_ok meter_step_ok); [|apply hist_ok_init].
    eapply steps_trans; [exact Hreach|exact Hrun].
Qed.
End scrape.

(** The run in which the threads of [ts] move in that order. *)
Fixpoint turns (ts : list nat) (s : Metered) : option Metered :=
  match ts with
  | [] => Some s
  | i :: ts =>
      p ← meters s !! i;
      '(p', h) ← meter_atom p (hist s);
      turns ts (MkMetered h (<[i := p']> (meters s)))
  end.

Lemma turns_steps ts s s' : turns ts s = Some s' → steps meter_step s s'.
Proof.
  revert s. induction ts as [|i ts IH]; intros s H; cbn in H; [injection H as <-; constructor|].
  destruct (meters s !! i) as [p|] eqn:Hi; [|done]. cbn in H.
  destruct (meter_atom p (hist s)) as [[p' h]|] eqn:Ha; [|done]. cbn in H.
  eapply steps_cons; [|by apply IH]. destruct s. by eapply ms_move.
Qed.

(** A worker and a scrape: the scrape reads the worker's bucket after it was
    added to and finds the count not yet added to. *)
Definition both_started : Metered := MkMetered histogram_new [RCall 400; Loading []].
Definition torn_turns : list nat := [0; 1; 1]%nat ++ replicate 15 1%nat ++ [0; 0]%nat.
Definition both_ended : Metered := default metered_new (turns torn_turns both_started).
Definition torn_read : list Z := match meters both_ended !! 1%nat with Some (Loading l) => l | _ => [] end.

Example scrape_consistent_witness :
  nth 16 torn_read 7 = 0 ∧ Control.cumulative (snapshot_of torn_read) !! 0%nat = Some 1
  ∧ 0 ≤ Control.total_waits (snapshot_of torn_read) ≤ 1 ∧ hist both_ended = recorded [400].
Proof.
  assert (H1 : steps meter_step metered_new both_started)
    by (eapply steps_cons; [apply ms_admit|]; apply steps_one, (ms_scrape histogram_new [RCall 400])).
  assert (H2 : steps meter_step both_started both_ended) by (apply (turns_steps torn_turns); vm_compute; reflexivity).
  destruct (scrape_consistent both_started both_ended 1 torn_read H1 ltac:(vm_compute; reflexivity) H2
    ltac:(vm_compute; reflexivity) ltac:(vm_compute; reflexivity) ltac:(vm_compute; reflexivity))
    as (_ & _ & _ & Ht & Hq).
  split; [vm_compute; reflexivity|]. split; [vm_compute; reflexivity|]. split; [exact Ht|].
  apply Hq. vm_compute. repeat constructor.
Defined.
