(* ===== verification/IoShards.v ===== *)
(** Sharded I/O ([io_shards.rs]): the boot of the shard threads and their
    acceptor, the assignment of accepted connections to the least loaded
    shard, and the accounting of connections against [max_connections]. *)

From S2P Require Import Prelude Channels Request Registry AccessLog.

(** ** Shard count *)

(** [cpus] is what the OS reports, if it does. *)
Definition default_thread_count (cpus : Z) : Z := (cpus + 1) / 2.

Definition thread_count (cpus : option Z) (io_threads : Z) : Z :=
  if 0 <? io_threads then io_threads else default_thread_count (default 1 cpus).

(** ** The fleet *)

(** The accepted stream is named by a number; its permit is the slot it holds
    against the connection limit. *)
Record Accepted : Type := MkAccepted {
  ac_conn : nat;
  ac_remote : SocketAddr;
  ac_local : SocketAddr;
}.

Inductive shard_pc : Type := Serving | Finishing | ShardGone.

(** A shard: its channel from the acceptor, the shared connection count, the
    connection tasks it runs. *)
Record Shard (queue : Type → Type) : Type := MkShard {
  sh_rx : queue Accepted;
  sh_load : Z;
  sh_conns : list Accepted;
  sh_pc : shard_pc;
}.
Arguments MkShard {queue}.
Arguments sh_rx {queue}.
Arguments sh_load {queue}.
Arguments sh_conns {queue}.
Arguments sh_pc {queue}.

Inductive acceptor_pc : Type := Waiting | Permitted | Ended.

Record Fleet (queue : Type → Type) (sem : Type) : Type := MkFleet {
  fleet : list (Shard queue);
  live : list bool;
  conn_limit : sem;
  acceptor : acceptor_pc;
  f_state : ServerState;
  emitted : list (Level * string);
}.
Arguments MkFleet {queue sem}.
Arguments fleet {queue sem}.
Arguments live {queue sem}.
Arguments conn_limit {queue sem}.
Arguments acceptor {queue sem}.
Arguments f_state {queue sem}.
Arguments emitted {queue sem}.

(** The live shard with the fewest open connections. *)
Definition candidates (loads : list Z) (live : list bool) : list (nat * Z) :=
  List.filter (λ p, nth p.1 live false) (zip (seq 0 (length loads)) loads).

Definition least_loaded (loads : list Z) (live : list bool) : option nat :=
  fst <$> min_by_key snd (candidates loads live).

Section shards.
Context {queue : Type → Type} {sem : Type} `{!Mpsc queue, !Semaphore sem}.
Implicit Types (f : Fleet queue sem) (sh : Shard queue) (a : Accepted).

Definition put_shard (i : nat) sh f : Fleet queue sem :=
  MkFleet (<[i := sh]> (fleet f)) (live f) (conn_limit f) (acceptor f) (f_state f) (emitted f).

Definition set_acceptor (p : acceptor_pc) (s : sem) f : Fleet queue sem :=
  MkFleet (fleet f) (live f) s p (f_state f) (emitted f).

Definition mark_dead (i : nat) f : Fleet queue sem :=
  MkFleet (fleet f) (<[i := false]> (live f)) (conn_limit f) (acceptor f) (f_state f)
    (emitted f ++ [(Warn, "I/O shard is down; routing around it")]).

Definition set_load (z : Z) sh : Shard queue := MkShard (sh_rx sh) z (sh_conns sh) (sh_pc sh).

Definition drop_tx sh : Shard queue :=
  MkShard (mpsc_drop_tx (sh_rx sh)) (sh_load sh) (sh_conns sh) (sh_pc sh).

(** The acceptor ends: its senders go, and the permit it may hold. *)
Definition end_accept f : Fleet queue sem :=
  MkFleet (drop_tx <$> fleet f) (live f)
    (match acceptor f with Permitted => drop_permit (conn_limit f) | _ => conn_limit f end)
    Ended (f_state f) (emitted f).

(** No shard is left: stop accepting and stop reporting ready. *)
Definition drop_conn f : Fleet queue sem :=
  let f := end_accept f in
  MkFleet (fleet f) (live f) (conn_limit f) (acceptor f) STATE_DRAINING
    (emitted f ++ [(LevelError, "all I/O shards are down; not accepting connections")]).

(** The inner loop of the sharded accept loop. *)
Fixpoint hand_off (fuel : nat) a f : option (Fleet queue sem) :=
  match fuel with
  | O => None
  | S fuel =>
      match least_loaded (sh_load <$> fleet f) (live f) with
      | None => Some (drop_conn f)
      | Some i =>
          match fleet f !! i with
          | None => None
          | Some sh =>
              let sh := set_load (sh_load sh +w 1) sh in
              match mpsc_send a (sh_rx sh) with
              | inl q =>
                  Some (set_acceptor Waiting (conn_limit f)
                    (put_shard i (MkShard q (sh_load sh) (sh_conns sh) (sh_pc sh)) f))
              | inr a => hand_off fuel a (mark_dead i (put_shard i (set_load (sh_load sh -w 1) sh) f))
              end
          end
      end
  end.

Definition retries f : nat := S (length (live f)).

(** One turn of the accept loop: the permit comes before the accept, a failed
    accept or detach drops it, an accepted stream goes to a shard. *)
Inductive accept_event : Type :=
  | Shutdown
  | Granted
  | AcceptError
  | DetachError
  | Detached (a : Accepted).

Definition drop_stream f : Fleet queue sem := set_acceptor Waiting (drop_permit (conn_limit f)) f.

Definition warn (message : string) f : Fleet queue sem :=
  MkFleet (fleet f) (live f) (conn_limit f) (acceptor f) (f_state f) (emitted f ++ [(Warn, message)]).

Definition accept_turn (e : accept_event) f : option (Fleet queue sem) :=
  match acceptor f, e with
  | Waiting, Shutdown | Permitted, Shutdown => Some (end_accept f)
  | Waiting, Granted =>
      match try_acquire_owned (conn_limit f) with
      | Some s => Some (set_acceptor Permitted s f)
      | None => None
      end
  | Permitted, AcceptError => Some (drop_stream f)
  | Permitted, DetachError =>
      Some (warn "failed to detach an accepted stream; connection dropped" (drop_stream f))
  | Permitted, Detached a => hand_off (retries f) a f
  | _, _ => None
  end.

(** What a shard's loop and its connection tasks do. *)
Definition return_permits (n : nat) (s : sem) : sem := Nat.iter n drop_permit s.

Definition start_conn a (q : queue Accepted) sh : Shard queue :=
  MkShard q (sh_load sh) (sh_conns sh ++ [a]) (sh_pc sh).

Definition load_guard_drop (conns : list Accepted) sh : Shard queue :=
  MkShard (sh_rx sh) (sh_load sh -w 1) conns (sh_pc sh).

Definition set_pc (p : shard_pc) sh : Shard queue :=
  MkShard (sh_rx sh) (sh_load sh) (sh_conns sh) p.

Definition shard_held sh : nat := length (mpsc_items (sh_rx sh)) + length (sh_conns sh).

(** The thread ends, early or not: its runtime cancels the tasks, whose
    guards and permits drop; what is still queued goes with the receiver. *)
Definition shard_end sh : Shard queue :=
  MkShard (mpsc_drop_rx (sh_rx sh)) (sh_load sh -w Z.of_nat (length (sh_conns sh))) [] ShardGone.

Definition with_permits (n : nat) f : Fleet queue sem :=
  set_acceptor (acceptor f) (return_permits n (conn_limit f)) f.

Inductive shard_step (i : nat) : Fleet queue sem → Fleet queue sem → Prop :=
  | shard_recv f sh a q :
      fleet f !! i = Some sh → sh_pc sh = Serving → mpsc_recv (sh_rx sh) = (RecvOk a, q) →
      shard_step i f (put_shard i (start_conn a q sh) f)
  | shard_conn_over f sh l1 a l2 :
      fleet f !! i = Some sh → sh_pc sh ≠ ShardGone → sh_conns sh = l1 ++ a :: l2 →
      shard_step i f (with_permits 1 (put_shard i (load_guard_drop (l1 ++ l2) sh) f))
  | shard_finish f sh :
      fleet f !! i = Some sh → sh_pc sh = Serving →
      mpsc_recv (sh_rx sh) = (RecvDisconnected, sh_rx sh) →
      shard_step i f (put_shard i (set_pc Finishing sh) f)
  | shard_leave f sh :
      fleet f !! i = Some sh → sh_pc sh ≠ ShardGone →
      (* drained, told to stop, or panicked *)
      shard_step i f (with_permits (shard_held sh) (put_shard i (shard_end sh) f)).

Inductive fleet_step : Fleet queue sem → Fleet queue sem → Prop :=
  | fs_accept e f f' : accept_turn e f = Some f' → fleet_step f f'
  | fs_shard i f f' : shard_step i f f' → fleet_step f f'.

Definition shard_new : Shard queue := MkShard unbounded 0 [] Serving.

Definition fleet_new (shard_count max_connections : nat) : Fleet queue sem :=
  MkFleet (replicate shard_count shard_new) (replicate shard_count true)
    (sem_new max_connections) Waiting STATE_READY [].

(** ** Vocabulary of the theorems *)

Definition shard_open sh : Prop := mpsc_rx (sh_rx sh) = true.

(** A shard the acceptor may still reach. *)
Definition reachable f (i : nat) sh : Prop :=
  fleet f !! i = Some sh ∧ live f !! i = Some true ∧ shard_open sh.

Definition in_hand f : nat := match acceptor f with Permitted => 1 | _ => 0 end.

Definition held f : nat := sum_list_with shard_held (fleet f).

(** [live'] is [live] with some shards whose channel is gone marked dead. *)
Definition marked f f' : Prop :=
  ∀ j sh, fleet f !! j = Some sh →
    live f' !! j = live f !! j ∨ (live f' !! j = Some false ∧ ¬ shard_open sh).

Definition loads_ok f : Prop := Forall (λ sh, u64_ok (sh_load sh)) (fleet f).

Definition shard_inv sh : Prop :=
  u64_ok (sh_load sh)
  ∧ (if mpsc_rx (sh_rx sh)
     then sh_load sh = Z.of_nat (shard_held sh) ∧ sh_pc sh ≠ ShardGone
     else shard_held sh = 0%nat ∧ sh_pc sh = ShardGone).

Definition fleet_inv (max_connections : nat) f : Prop :=
  length (live f) = length (fleet f)
  ∧ Forall shard_inv (fleet f)
  ∧ (available_permits (conn_limit f) + in_hand f + held f = max_connections)%nat.
End shards.

#[local] Arguments Z.of_nat : simpl never.

(** ** The least loaded shard *)

Lemma in_candidates loads lv i l :
  (i, l) ∈ candidates loads lv ↔ loads !! i = Some l ∧ nth i lv false = true.
Proof.
  unfold candidates. rewrite list_elem_of_In, filter_In. cbn.
  rewrite <-list_elem_of_In, elem_of_lookup_zip_with.
  split; [|intros [H1 H2]].
  - intros [(j & x & y & [= -> ->] & Hj & Hl) Hn]. apply lookup_seq in Hj as [-> _]. done.
  - split; [|done]. exists i, i, l. split_and!; [done| |done].
    apply lookup_seq. split; [done|]. by apply lookup_lt_Some in H1.
Qed.

Lemma candidates_sorted loads lv l1 l2 m p :
  candidates loads lv = l1 ++ m :: l2 → p ∈ l1 → (p.1 < m.1)%nat.
Proof.
  unfold candidates. generalize 0%nat. revert l1. induction loads as [|x loads IH]; intros l1 n; cbn.
  { intros E. by destruct l1. }
  assert (Hge : ∀ q k, q ∈ List.filter (λ p : nat * Z, nth p.1 lv false) (zip (seq k (length loads)) loads)
                       → (k ≤ q.1)%nat).
  { intros q k. rewrite list_elem_of_In, filter_In, <-list_elem_of_In, elem_of_lookup_zip_with.
    intros [(j & a & b & -> & Hj & _) _]. apply lookup_seq in Hj as [-> _]. cbn. lia. }
  destruct (nth n lv false); [|apply IH].
  destruct l1 as [|q l1]; [intros _ Hp%elem_of_nil; done|].
  intros [= <- E] [->|Hp]%elem_of_cons; [|by eapply IH].
  cbn. assert (S n ≤ m.1)%nat; [|lia]. apply (Hge m (S n)).
  rewrite E. apply elem_of_app. right. left.
Qed.

(** The chosen shard is live, and no live shard has fewer connections; among
    equals the first. *)
Lemma least_loaded_some loads lv i :
  least_loaded loads lv = Some i →
  ∃ l, loads !! i = Some l ∧ lv !! i = Some true
       ∧ ∀ j m, loads !! j = Some m → lv !! j = Some true → l ≤ m ∧ ((j < i)%nat → l < m).
Proof.
  unfold least_loaded. intros (p & Hp & ->)%fmap_Some. destruct p as [k l]. cbn.
  destruct (min_by_key_split _ _ _ Hp) as (l1 & l2 & E & H1 & H2).
  assert (Hin : (k, l) ∈ candidates loads lv) by (rewrite E; set_solver).
  apply in_candidates in Hin as [Hl Hlv].
  assert (Hnth : ∀ j, nth j lv false = true → lv !! j = Some true).
  { intros j Hj. destruct (lv !! j) eqn:Ej; [|rewrite nth_overflow in Hj; [done|by apply lookup_ge_None]].
    by rewrite (nth_lookup_Some _ _ _ _ Ej) in Hj; subst. }
  exists l. split_and!; [done|by apply Hnth|]. intros j m Hj Hjl.
  assert (Hm : (j, m) ∈ candidates loads lv).
  { apply in_candidates. split; [done|]. by apply nth_lookup_Some. }
  rewrite E, elem_of_app, elem_of_cons in Hm. rewrite Forall_forall in H1, H2. destruct Hm as [Hm|[Hm|Hm]].
  - pose proof (H1 _ Hm) as Hlt. cbn in Hlt. split; [lia|]. intros _. lia.
  - simplify_eq. split; lia.
  - pose proof (H2 _ Hm) as Hle. cbn in Hle. split; [lia|]. intros Hji. exfalso.
    (* a later candidate has a larger index *)
    apply list_elem_of_split in Hm as (m1 & m2 & ->).
    assert (k < j)%nat; [|lia].
    apply (candidates_sorted loads lv (l1 ++ (k, l) :: m1) m2 (j, m) (k, l)); [|set_solver].
    rewrite E. by rewrite <-app_assoc.
Qed.

Lemma least_loaded_none loads lv j :
  least_loaded loads lv = None → (j < length loads)%nat → lv !! j ≠ Some true.
Proof.
  unfold least_loaded. intros E%fmap_None%min_by_key_none Hj Hl.
  destruct (lookup_lt_is_Some_2 _ _ Hj) as [l Hll].
  assert ((j, l) ∈ candidates loads lv) as Hin.
  { apply in_candidates. split; [done|]. by apply nth_lookup_Some. }
  rewrite E in Hin. by apply elem_of_nil in Hin.
Qed.

(** ** The hand-off *)

Definition alive_count (l : list bool) : nat := length (List.filter (λ b, b) l).

Lemma alive_count_mark l i :
  l !! i = Some true → (alive_count (<[i := false]> l) < alive_count l)%nat.
Proof.
  unfold alive_count. revert i. induction l as [|b l IH]; intros [|i] Hi; try done.
  - injection Hi as ->. cbn. lia.
  - change (<[S i := false]> (b :: l)) with (b :: <[i := false]> l).
    pose proof (IH i Hi). cbn. destruct b; cbn; lia.
Qed.

Lemma alive_count_le l : (alive_count l ≤ length l)%nat.
Proof. apply List.filter_length_le. Qed.

Section hand_off_proofs.
Context {queue : Type → Type} {sem : Type}.
Context `{!Mpsc queue, !MpscSpec queue, !Semaphore sem, !SemaphoreSpec sem}.
Implicit Types (f : Fleet queue sem) (sh : Shard queue) (a : Accepted).

(** [f'] is [f] with [a] queued at shard [i]. *)
Definition landed a f (i : nat) f' : Prop :=
  ∃ sh q, reachable f i sh ∧ mpsc_view q = (mpsc_items (sh_rx sh) ++ [a], mpsc_tx (sh_rx sh), true)
    ∧ fleet f' = <[i := MkShard q (sh_load sh +w 1) (sh_conns sh) (sh_pc sh)]> (fleet f)
    ∧ (∀ j sh', reachable f j sh' → sh_load sh ≤ sh_load sh' ∧ ((j < i)%nat → sh_load sh < sh_load sh'))
    ∧ acceptor f' = Waiting ∧ f_state f' = f_state f ∧ conn_limit f' = conn_limit f.

(** [f'] is [f] with the acceptor gone for want of a shard. *)
Definition gave_up f f' : Prop :=
  (∀ j sh, ¬ reachable f j sh)
  ∧ fleet f' = drop_tx <$> fleet f ∧ acceptor f' = Ended ∧ f_state f' = STATE_DRAINING
  ∧ conn_limit f' = conn_limit (end_accept f)
  ∧ (∀ j, (j < length (fleet f))%nat → live f' !! j = Some false).

Lemma mpsc_view_inv {T} (q : queue T) l tx rx :
  mpsc_view q = (l, tx, rx) → mpsc_items q = l ∧ mpsc_tx q = tx ∧ mpsc_rx q = rx.
Proof. unfold mpsc_view. by intros [= -> -> ->]. Qed.

Lemma load_up_down z : u64_ok z → (z +w 1) -w 1 = z.
Proof.
  intros Hz. unfold u64_sub, u64_add. autorewrite with kino_u64.
  rewrite wrap64_small; [lia|]. by replace (z + 1 - 1) with z by lia.
Qed.

(** What one failed send leaves: the shard is out of the running, nothing else
    has changed. *)
Lemma mark_dead_same f i sh :
  fleet f !! i = Some sh → u64_ok (sh_load sh) →
  fleet (mark_dead i (put_shard i (set_load (sh_load (set_load (sh_load sh +w 1) sh) -w 1)
                                     (set_load (sh_load sh +w 1) sh)) f)) = fleet f.
Proof.
  intros Hi Hz. cbn. unfold set_load. cbn. rewrite load_up_down by done.
  apply list_insert_id. by destruct sh.
Qed.

Lemma hand_off_total fuel a f :
  length (live f) = length (fleet f) → loads_ok f → (alive_count (live f) < fuel)%nat →
  ∃ f', hand_off fuel a f = Some f' ∧ length (live f') = length (live f) ∧ marked f f'
        ∧ ((∃ i, landed a f i f') ∨ gave_up f f').
Proof.
  revert f. induction fuel as [|fuel IH]; intros f Hlen Hok Hfuel; [lia|]. cbn [hand_off].
  destruct (least_loaded (sh_load <$> fleet f) (live f)) as [i|] eqn:El.
  - destruct (least_loaded_some _ _ _ El) as (l & Hl & Hlive & Hmin).
    rewrite list_lookup_fmap in Hl. destruct (fleet f !! i) as [sh|] eqn:Hi; [|done].
    simplify_eq/=. destruct (mpsc_rx (sh_rx sh)) eqn:Hrx.
    + destruct (mpsc_send_open _ a (sh_rx sh) Hrx) as (q & -> & Hq).
      eexists. split_and!; [done|done|by left|]. left. exists i, sh, q. split_and!; try done.
      intros j sh' (Hj & Hjl & _). apply (Hmin j); [|done]. by rewrite list_lookup_fmap, Hj.
    + rewrite mpsc_send_closed by done.
      set (f1 := mark_dead i _).
      assert (Hsame : fleet f1 = fleet f) by (apply mark_dead_same; [done|by eapply Forall_lookup_1 in Hok]).
      assert (Hlive1 : live f1 = <[i := false]> (live f)) by done.
      destruct (IH f1) as (f' & Hf' & Hl' & Hm & Hres).
      { by rewrite Hsame, Hlive1, length_insert. }
      { unfold loads_ok. by rewrite Hsame. }
      { rewrite Hlive1. pose proof (alive_count_mark _ _ Hlive). lia. }
      assert (Hreach : ∀ j sh', reachable f j sh' ↔ reachable f1 j sh').
      { intros j sh'. unfold reachable. rewrite Hsame, Hlive1.
        destruct (decide (j = i)) as [->|Hne]; [|by rewrite list_lookup_insert_ne].
        rewrite list_lookup_insert_eq by (rewrite Hlen; by eapply lookup_lt_Some).
        unfold shard_open. split; intros (H1 & H2 & H3); congruence. }
      exists f'. split_and!; [done|by rewrite Hl', Hlive1, length_insert| |].
      * intros j sh' Hj. destruct (Hm j sh') as [->|]; [by rewrite Hsame| |by right].
        rewrite Hlive1. destruct (decide (j = i)) as [->|Hne]; [|left; by rewrite list_lookup_insert_ne].
        right. rewrite list_lookup_insert_eq by (rewrite Hlen; by eapply lookup_lt_Some).
        split; [done|]. unfold shard_open. congruence.
      * destruct Hres as [(j & sh' & q & Hr & Hq & Hfl & Hbest & Ha)|(Hr & Hfl & Ha & Hst & Hlim & Hdead)].
        -- left. exists j, sh', q. rewrite Hreach, Hfl, Hsame. split_and!; try done; try apply Ha.
           intros j' sh'' Hj'. apply Hbest. by rewrite <-Hreach.
        -- right. split_and!; try done; [|by rewrite Hfl, Hsame|by rewrite <-Hsame].
           intros j sh'. by rewrite Hreach.
  - eexists. split_and!; [done|done|by left|]. right.
    assert (Hnone : ∀ j, (j < length (fleet f))%nat → live f !! j ≠ Some true)
      by (intros j Hj; eapply least_loaded_none; [done|by rewrite length_fmap]).
    split_and!; try done.
    + intros j sh (Hj & Hjl & _). apply (Hnone j); [by eapply lookup_lt_Some|done].
    + intros j Hj. cbn. destruct (lookup_lt_is_Some_2 (live f) j) as [[|] Hb]; [lia| |done].
      by destruct (Hnone j Hj).
Qed.
End hand_off_proofs.

(** ** Accounting *)

Section accounting.
Context {queue : Type → Type} {sem : Type}.
Context `{!Mpsc queue, !MpscSpec queue, !Semaphore sem, !SemaphoreSpec sem}.
Implicit Types (f : Fleet queue sem) (sh : Shard queue) (a : Accepted).

Lemma mpsc_items_drop_tx {T} (q : queue T) :
  mpsc_items (mpsc_drop_tx q) = mpsc_items q ∧ mpsc_rx (mpsc_drop_tx q) = mpsc_rx q.
Proof. by destruct (mpsc_view_inv _ _ _ _ (mpsc_drop_tx_spec T q)) as (-> & _ & ->). Qed.

Lemma shard_held_drop_tx sh : shard_held (drop_tx sh) = shard_held sh.
Proof. unfold shard_held, drop_tx. cbn. by rewrite (proj1 (mpsc_items_drop_tx _)). Qed.

Lemma shard_inv_drop_tx sh : shard_inv sh → shard_inv (drop_tx sh).
Proof.
  unfold shard_inv. rewrite shard_held_drop_tx. cbn. by rewrite (proj2 (mpsc_items_drop_tx _)).
Qed.

Lemma held_drop_tx f : sum_list_with shard_held (drop_tx <$> fleet f) = held f.
Proof. apply sum_list_with_fmap, shard_held_drop_tx. Qed.

Lemma available_return n (s : sem) :
  available_permits (return_permits n s) = (n + available_permits s)%nat.
Proof. induction n as [|n IH]; cbn; [done|]. by rewrite drop_permit_spec, <-IH. Qed.

Lemma permits_end_accept f :
  available_permits (conn_limit (end_accept f)) = (available_permits (conn_limit f) + in_hand f)%nat.
Proof. unfold in_hand. cbn. destruct (acceptor f); rewrite ?drop_permit_spec; lia. Qed.

Lemma fleet_inv_end max f : fleet_inv max f → fleet_inv max (end_accept f).
Proof.
  intros (Hlen & Hsh & Hsum). unfold fleet_inv. rewrite permits_end_accept.
  unfold held. cbn [fleet end_accept live]. rewrite held_drop_tx, length_fmap. split_and!; [done| |cbn; lia].
  apply Forall_fmap. eapply Forall_impl; [done|]. apply shard_inv_drop_tx.
Qed.

(** One shard changes, and so do the permits by as much. *)
Lemma fleet_inv_put max f f' i sh sh' :
  fleet_inv max f → fleet f !! i = Some sh → shard_inv sh' →
  length (live f') = length (live f) → fleet f' = <[i := sh']> (fleet f) →
  (available_permits (conn_limit f') + in_hand f' + shard_held sh'
   = available_permits (conn_limit f) + in_hand f + shard_held sh)%nat →
  fleet_inv max f'.
Proof.
  intros (Hlen & Hsh & Hsum) Hi Hsh' Hl Hf Hp. unfold fleet_inv, held in *. rewrite Hf.
  pose proof (sum_list_with_insert shard_held _ _ _ sh' Hi).
  rewrite length_insert, Hl. split_and!; [done| |lia]. by apply Forall_insert.
Qed.

Lemma held_lookup f i sh : fleet f !! i = Some sh → (shard_held sh ≤ held f)%nat.
Proof.
  intros Hi. unfold held. apply list_elem_of_split_length in Hi as (l1 & l2 & -> & _).
  rewrite sum_list_with_app. cbn. lia.
Qed.

Lemma fleet_inv_bound max f i sh :
  Z.of_nat max < u64_modulus → fleet_inv max f → fleet f !! i = Some sh →
  u64_ok (Z.of_nat (shard_held sh + in_hand f)).
Proof. intros Hm (_ & _ & Hsum) Hi. pose proof (held_lookup f i sh Hi). unfold u64_ok. lia. Qed.

Lemma fleet_inv_accept max e f f' :
  Z.of_nat max < u64_modulus → accept_turn e f = Some f' → fleet_inv max f → fleet_inv max f'.
Proof.
  intros Hmax Ht Hinv. pose proof Hinv as (Hlen & Hsh & Hsum). unfold accept_turn in Ht.
  destruct (acceptor f) eqn:Ha, e; try discriminate Ht; try (injection Ht as <-);
    try by apply fleet_inv_end.
  - case_match eqn:E; [|done]. injection Ht as <-. apply acquire_inv in E.
    unfold fleet_inv, held, in_hand in *. rewrite Ha in Hsum. cbn. split_and!; [done|done|lia].
  - unfold fleet_inv, held, in_hand in *. rewrite Ha in Hsum. cbn. rewrite drop_permit_spec.
    split_and!; [done|done|lia].
  - unfold fleet_inv, held, in_hand in *. rewrite Ha in Hsum. cbn. rewrite drop_permit_spec.
    split_and!; [done|done|lia].
  - destruct (hand_off_total (retries f) a f) as (f1 & E & Hl & _ & Hres).
    { done. } { eapply Forall_impl; [done|]. by intros ? []. }
    { unfold retries. pose proof (alive_count_le (live f)). lia. }
    assert (f1 = f') as -> by congruence.
    destruct Hres as [(i & sh & q & (Hi & _ & Ho) & Hq & Hf & _ & Ha' & _ & Hc)|(_ & Hf & Ha' & _ & Hc & _)].
    + apply mpsc_view_inv in Hq as (Hq1 & _ & Hq2).
      assert (Hheld : shard_held (MkShard q (sh_load sh +w 1) (sh_conns sh) (sh_pc sh)) = S (shard_held sh))
        by (unfold shard_held; cbn; rewrite Hq1, length_app; cbn; lia).
      eapply (fleet_inv_put max f); [done|done| |done|done|].
      * pose proof (fleet_inv_bound max f i sh Hmax Hinv Hi) as Hb. unfold in_hand in Hb. rewrite Ha in Hb.
        apply (Forall_lookup_1 _ _ _ _ Hsh) in Hi as [_ Hi]. unfold shard_open in Ho. rewrite Ho in Hi.
        split; cbn; [apply u64_add_ok|]. rewrite Hq2, Hheld. split; [|apply Hi].
        unfold u64_add. rewrite (proj1 Hi), wrap64_small; [lia|]. by replace (Z.of_nat (shard_held sh) + 1) with (Z.of_nat (shard_held sh + 1)) by lia.
      * rewrite Hc, Hheld. unfold in_hand. rewrite Ha, Ha'. lia.
    + destruct (fleet_inv_end max f Hinv) as (Hlen' & Hsh' & Hsum'). unfold fleet_inv, held, in_hand in *.
      rewrite Hf, Hc, Ha', Hl. split_and!; [by rewrite length_fmap|done|done].
Qed.

Lemma fleet_inv_shard max i f f' :
  Z.of_nat max < u64_modulus → shard_step i f f' → fleet_inv max f → fleet_inv max f'.
Proof.
  intros Hmax Hs Hinv. pose proof Hinv as (_ & Hsh & _).
  destruct Hs as [f sh a q Hi Hp Hr|f sh l1 a l2 Hi Hp Hc|f sh Hi Hp Hr|f sh Hi Hp];
    pose proof (fleet_inv_bound max f i sh Hmax Hinv Hi) as Hb;
    pose proof (Forall_lookup_1 _ _ _ _ Hsh Hi) as [Hu Ho].
  - destruct (mpsc_items (sh_rx sh)) as [|x l] eqn:El.
    { rewrite mpsc_recv_nil in Hr by done. by destruct (mpsc_tx _). }
    destruct (mpsc_recv_ok _ _ _ _ El) as (q' & E & Hq). rewrite E in Hr. simplify_eq.
    apply mpsc_view_inv in Hq as (Hq1 & _ & Hq2).
    assert (Hheld : shard_held (start_conn a q sh) = shard_held sh)
      by (unfold shard_held; cbn; rewrite Hq1, El, length_app; cbn; lia).
    eapply (fleet_inv_put max f); [done|done| |done|done|cbn; rewrite Hheld; unfold in_hand; cbn; lia].
    split; [done|]. cbn [start_conn sh_rx sh_load sh_pc]. by rewrite Hq2, Hheld.
  - assert (Hheld : shard_held sh = S (shard_held (load_guard_drop (l1 ++ l2) sh)))
      by (unfold shard_held; cbn; rewrite Hc, !length_app; cbn; lia).
    eapply (fleet_inv_put max f); [done|done| |done|done|].
    + split; [apply u64_sub_ok|]. cbn [load_guard_drop sh_rx sh_load sh_pc].
      destruct (mpsc_rx (sh_rx sh)); [|lia]. split; [|done]. unfold u64_sub. rewrite (proj1 Ho).
      rewrite wrap64_small; [lia|]. unfold u64_ok in *. lia.
    + cbn. rewrite drop_permit_spec. unfold in_hand. cbn. lia.
  - eapply (fleet_inv_put max f); [done|done| |done|done|done].
    split; [done|]. cbn. destruct (mpsc_rx (sh_rx sh)); [split; [apply Ho|done]|]. destruct Ho as [_ Ho]. congruence.
  - assert (Hheld : shard_held (shard_end sh) = 0%nat).
    { unfold shard_held. cbn. by destruct (mpsc_view_inv _ _ _ _ (mpsc_drop_rx_spec _ (sh_rx sh))) as (-> & _ & _). }
    eapply (fleet_inv_put max f); [done|done| |done|done|].
    + split; [apply u64_sub_ok|]. cbn [shard_end sh_rx].
      destruct (mpsc_view_inv _ _ _ _ (mpsc_drop_rx_spec _ (sh_rx sh))) as (_ & _ & ->). done.
    + cbn [conn_limit with_permits set_acceptor put_shard]. rewrite available_return, Hheld.
      unfold in_hand. cbn. lia.
Qed.

Lemma fleet_inv_new n max : fleet_inv max (fleet_new n max : Fleet queue sem).
Proof.
  unfold fleet_inv. cbn. rewrite !length_replicate, sem_new_spec. split_and!; [done| |].
  - apply Forall_replicate. unfold shard_inv, shard_held. cbn.
    destruct (mpsc_view_inv _ _ _ _ (unbounded_spec Accepted)) as (-> & _ & ->). done.
  - unfold held. cbn. induction n as [|n IH]; cbn; [lia|].
    unfold shard_held at 1. cbn.
    destruct (mpsc_view_inv _ _ _ _ (unbounded_spec Accepted)) as (-> & _ & _). cbn. lia.
Qed.
End accounting.

Section claims.
Context {queue : Type → Type} {sem : Type}.
Context `{!Mpsc queue, !MpscSpec queue, !Semaphore sem, !SemaphoreSpec sem}.
Implicit Types (f : Fleet queue sem) (a : Accepted).

(** C28: Every accepted connection is placed: as long as one shard that is
    still in the running has a live thread, the connection is queued at such
    a shard with the fewest connections (the first among equals), whose count
    grows by one, and shards whose thread is gone are only marked and routed
    around. When none is left the acceptor stops, gives its permit back,
    drops the senders and flips the server to draining. The retry loop ends
    in either case. *)
Theorem hand_off_least_loaded f a :
  length (live f) = length (fleet f) → loads_ok f → acceptor f = Permitted →
  ∃ f', accept_turn (Detached a) f = Some f' ∧ marked f f'
        ∧ ((∃ i, landed a f i f') ∨ gave_up f f').
Proof.
  intros Hlen Hok Ha. unfold accept_turn. rewrite Ha.
  destruct (hand_off_total (retries f) a f Hlen Hok) as (f' & E & _ & Hm & Hres).
  - unfold retries. pose proof (alive_count_le (live f)). lia.
  - by exists f'.
Qed.

(** C27: In any interleaving of the acceptor and the shards, panics and
    teardowns included, every accepted connection is accounted for: the free
    permits, the one the acceptor holds and the connections queued at or
    served by a shard always add up to [max_connections], so that many are
    never exceeded and no slot ever leaks; and the count of a running shard
    is exactly the number of its connections. *)
Theorem connections_accounted shard_count max_connections f :
  Z.of_nat max_connections < u64_modulus →
  steps fleet_step (fleet_new shard_count max_connections) f →
  (available_permits (conn_limit f) + in_hand f + held f = max_connections)%nat
  ∧ ∀ i sh, fleet f !! i = Some sh → sh_pc sh ≠ ShardGone →
            sh_load sh = Z.of_nat (shard_held sh).
Proof.
  intros Hmax Hs.
  assert (Hinv : fleet_inv max_connections f).
  { eapply (steps_invariant fleet_step); [|exact Hs|apply fleet_inv_new].
    intros f1 f2 [e ? ? Ht|i ? ? Hsh]; [by apply fleet_inv_accept with e|by apply fleet_inv_shard with i]. }
  destruct Hinv as (_ & Hsh & Hsum). split; [done|]. intros i sh Hi Hpc.
  destruct (Forall_lookup_1 _ _ _ _ Hsh Hi) as [_ Ho].
  destruct (mpsc_rx (sh_rx sh)); [apply Ho|]. by destruct Ho as [_ Ho].
Qed.
End claims.

(** ** Boot of the threads *)

(** How a thread's start ends: its runtime is up, the OS refuses the thread,
    the runtime (or, for the acceptor, the listener's registration) fails, or
    the thread dies before reporting. *)
Inductive startup : Type :=
  | ThreadUp
  | NoThread (e : string)
  | StartError (e : string)
  | ThreadDied.

(** What the thread's own runtime does: it builds, reports an error, or the
    thread panics. *)
Inductive runtime_build : Type :=
  | RuntimeBuilt
  | RuntimeFailed (e : string)
  | RuntimePanicked.

Definition shard_name (index : nat) : string := "kino-io-" +:+ pretty (N.of_nat index).
Definition acceptor_name : string := "kino-accept".

(** [thread] is the OS's answer for a thread of that name; a report that never
    comes disconnects the ready channel. *)
Definition spawn_shard (thread : string → option string) (rt : runtime_build) (index : nat) : startup :=
  match thread (shard_name index) with
  | Some e => NoThread e
  | None =>
      match rt with
      | RuntimeBuilt => ThreadUp
      | RuntimeFailed e => StartError e
      | RuntimePanicked => ThreadDied
      end
  end.

(** The acceptor also registers the listener, on its own runtime, before it
    reports; [registration] is that error, if any. *)
Definition spawn_acceptor (thread : string → option string) (rt : runtime_build)
    (registration : option string) : startup :=
  match thread acceptor_name with
  | Some e => NoThread e
  | None =>
      match rt with
      | RuntimeBuilt => match registration with Some e => StartError e | None => ThreadUp end
      | RuntimeFailed e => StartError e
      | RuntimePanicked => ThreadDied
      end
  end.

(** The threads alive, and those whose connection channel has a sender. *)
Record Booting : Type := MkBooting {
  running : gset nat;
  txs : gset nat;
}.

Definition await_ready (what : string) (i : nat) (st : startup) (b : Booting)
  : (string + nat) * Booting :=
  match st with
  | ThreadUp => (inr i, MkBooting (running b ∪ {[i]}) (txs b))
  | NoThread e | StartError e => (inl e, b)
  | ThreadDied => (inl (what +:+ " thread exited during startup"), b)
  end.

(** A shard thread ends once its sender is gone: joining one before blocks. *)
Fixpoint join_all (handles : list nat) (b : Booting) : option Booting :=
  match handles with
  | [] => Some b
  | i :: handles =>
      if decide (i ∈ running b ∧ i ∈ txs b) then None
      else join_all handles (MkBooting (running b ∖ {[i]}) (txs b))
  end.

(** [todo] shards from index [i] on, then the acceptor. *)
Fixpoint spawn_loop (shards : nat → startup) (acceptor_start : startup) (i todo : nat)
    (handles : list nat) (b : Booting) : option ((string + list nat) * Booting) :=
  match todo with
  | S todo =>
      (* the channel, then the thread *)
      let b := MkBooting (running b) (txs b ∪ {[i]}) in
      match await_ready "shard" i (shards i) b with
      | (inr h, b) => spawn_loop shards acceptor_start (S i) todo (handles ++ [h]) b
      | (inl e, b) =>
          match join_all handles (MkBooting (running b) ∅) with
          | Some b => Some (inl e, b)
          | None => None
          end
      end
  | O =>
      match await_ready "accept" i acceptor_start b with
      | (inr h, b) => Some (inr (handles ++ [h]), b)
      | (inl e, b) =>
          (* the senders moved into the acceptor's closure and went with it *)
          match join_all handles (MkBooting (running b) ∅) with
          | Some b => Some (inl e, b)
          | None => None
          end
      end
  end.

Definition spawn (shards : nat → startup) (acceptor_start : startup) (shard_count : nat)
  : option ((string + list nat) * Booting) :=
  spawn_loop shards acceptor_start 0 (Nat.max shard_count 1) [] (MkBooting ∅ ∅).

(** What a failed start reports. *)
Definition start_error (what : string) (st : startup) : option string :=
  match st with
  | ThreadUp => None
  | NoThread e | StartError e => Some e
  | ThreadDied => Some (what +:+ " thread exited during startup")
  end.

Lemma await_ready_up what i st b :
  start_error what st = None → await_ready what i st b = (inr i, MkBooting (running b ∪ {[i]}) (txs b)).
Proof. by destruct st. Qed.

Lemma await_ready_error what i st b e :
  start_error what st = Some e → await_ready what i st b = (inl e, b).
Proof. destruct st; cbn; naive_solver. Qed.

Lemma join_all_no_tx handles run :
  join_all handles (MkBooting run ∅) = Some (MkBooting (run ∖ list_to_set handles) ∅).
Proof.
  revert run. induction handles as [|i handles IH]; intros run; cbn.
  - by rewrite difference_empty_L.
  - rewrite decide_False by set_solver. rewrite IH. f_equal. f_equal. set_solver.
Qed.

(** The thread that fails first, and what it reports. *)
Definition first_failure (shards : nat → startup) (acceptor_start : startup) (i n : nat)
  : option string :=
  match list_find (λ j, is_Some (start_error "shard" (shards j))) (seq i n) with
  | Some (_, j) => start_error "shard" (shards j)
  | None => start_error "accept" acceptor_start
  end.

Lemma first_failure_S shards acc i n :
  first_failure shards acc i (S n)
  = match start_error "shard" (shards i) with
    | Some e => Some e
    | None => first_failure shards acc (S i) n
    end.
Proof.
  unfold first_failure. cbn. destruct (start_error "shard" (shards i)) eqn:E.
  - rewrite decide_True by eauto. by rewrite E.
  - rewrite decide_False by (intros [? ?]; congruence).
    destruct (list_find _ (seq (S i) n)) as [[? ?]|]; done.
Qed.

Lemma spawn_loop_spec shards acc todo i b :
  running b = list_to_set (seq 0 i) →
  ∃ r b', spawn_loop shards acc i todo (seq 0 i) b = Some (r, b') ∧
    match first_failure shards acc i todo with
    | None => r = inr (seq 0 (S (i + todo))) ∧ running b' = list_to_set (seq 0 (S (i + todo)))
    | Some e => r = inl e ∧ running b' = ∅
    end.
Proof.
  assert (Hfail : ∀ j, join_all (seq 0 j) (MkBooting (list_to_set (seq 0 j)) ∅) = Some (MkBooting ∅ ∅))
    by (intros j; rewrite join_all_no_tx; do 2 f_equal; by rewrite difference_diag_L).
  assert (Hgrow : ∀ j, list_to_set (seq 0 j) ∪ {[j]} = (list_to_set (seq 0 (S j)) : gset nat))
    by (intros j; rewrite seq_S, list_to_set_app_L; cbn; by rewrite union_empty_r_L).
  revert i b. induction todo as [|todo IH]; intros i b Hb; cbn [spawn_loop].
  - unfold first_failure. cbn [seq list_find]. rewrite Nat.add_0_r.
    destruct (start_error "accept" acc) as [e|] eqn:E.
    + rewrite (await_ready_error _ _ _ _ _ E), Hb, Hfail. eauto.
    + rewrite (await_ready_up _ _ _ _ E). do 2 eexists. split; [done|]. cbn [running].
      change (0%nat :: seq 1 i) with (seq 0 (S i)). rewrite Hb, Hgrow. split; [by rewrite seq_S|done].
  - rewrite first_failure_S. destruct (start_error "shard" (shards i)) as [e|] eqn:E.
    + rewrite (await_ready_error _ _ _ _ _ E). cbn [running]. rewrite Hb, Hfail. eauto.
    + rewrite (await_ready_up _ _ _ _ E), <-Nat.add_succ_comm.
      change (seq 0 i ++ [i]) with (seq 0 i ++ [0 + i]%nat). rewrite <-seq_S. apply IH.
      cbn [running]. by rewrite Hb, Hgrow.
Qed.

(** C37: The sharded boot is all or nothing, and never hangs: either every
    shard (at least one) and the acceptor are up, or the error of the first
    thread that failed is reported and every thread already started has been
    joined. *)
Theorem spawn_all_or_nothing shards acceptor_start shard_count :
  ∃ r b, spawn shards acceptor_start shard_count = Some (r, b) ∧
    match first_failure shards acceptor_start 0 (Nat.max shard_count 1) with
    | None => r = inr (seq 0 (S (Nat.max shard_count 1)))
              ∧ running b = list_to_set (seq 0 (S (Nat.max shard_count 1)))
    | Some e => r = inl e ∧ running b = ∅
    end.
Proof. by apply spawn_loop_spec. Qed.

(** The second shard's runtime fails: its error is the boot's. *)
Example second_shard_fails :
  spawn (λ i, spawn_shard (λ _, None) (if (i =? 1)%nat then RuntimeFailed "EMFILE" else RuntimeBuilt) i)
    (spawn_acceptor (λ _, None) RuntimeBuilt None) 3
  = Some (inl "EMFILE", MkBooting ∅ ∅).
Proof. vm_compute. reflexivity. Qed.

(** The acceptor's listener cannot be registered: the shards are joined. *)
Example registration_fails :
  spawn (spawn_shard (λ _, None) RuntimeBuilt) (spawn_acceptor (λ _, None) RuntimeBuilt (Some "EBADF")) 2
  = Some (inl "EBADF", MkBooting ∅ ∅).
Proof. vm_compute. reflexivity. Qed.

(** ** Samples *)

Definition sample_accepted (n : nat) : Accepted :=
  MkAccepted n (MkSocketAddr (V4 127 0 0 1) 40000) (MkSocketAddr (V4 127 0 0 1) 9292).

(** Two shards, the emptier of which has panicked. *)
Definition one_down : Fleet ListMpsc.t nat :=
  MkFleet [MkShard ([], true, false) 0 [] ShardGone;
           MkShard ([], true, true) 2 [sample_accepted 1; sample_accepted 2] Serving]
    [true; true] 7%nat Permitted STATE_READY [].

Example hand_off_least_loaded_witness :
  ∃ f', accept_turn (Detached (sample_accepted 3)) one_down = Some f' ∧ live f' = [false; true].
Proof.
  destruct (hand_off_least_loaded one_down (sample_accepted 3)) as (f' & E & _).
  - reflexivity.
  - repeat constructor; done.
  - reflexivity.
  - exists f'. split; [exact E|]. vm_compute in E. injection E as <-. reflexivity.
Defined.

Example connections_accounted_witness :
  ∃ f : Fleet ListMpsc.t nat,
    steps fleet_step (fleet_new 2 8) f
    ∧ (available_permits (conn_limit f) + in_hand f + held f = 8)%nat ∧ available_permits (conn_limit f) = 7%nat.
Proof.
  eexists. assert (Hs : steps fleet_step (fleet_new 2 8 : Fleet ListMpsc.t nat)
    (set_acceptor Permitted 7%nat (fleet_new 2 8))).
  { eapply steps_cons; [apply (fs_accept Granted); reflexivity|apply steps_refl]. }
  split; [exact Hs|]. split; [|reflexivity].
  exact (proj1 (connections_accounted 2 8 _ eq_refl Hs)).
Defined.
