(* ===== verification/Outcomes.v ===== *)
(** What becomes of requests: an abstract specification in which a request is
    only a stage and an outcome, and the lemmas by which the responders' heap
    implements it. *)

From S2P Require Import Prelude Channels Gvl Response Request Registry Queue Lifecycle.

(** ** The specification

    A request enters, is queued, is worked on, and is finished; its outcome
    is what the head channel holds. Nothing else about the server shows. *)

Inductive stage : Type := Entering | Queued | Working | Finished.

Definition outcome : Type := oneshot_state HyperResponse.

(** A request moves on one stage at a time, or is given up; it is answered
    once, by a response or by a sender dropped unused; its client may leave
    at any time; and it is not finished before it has an outcome. *)
Inductive request_step : stage * outcome → stage * outcome → Prop :=
  | rs_enqueue o : request_step (Entering, o) (Queued, o)
  | rs_take o : request_step (Queued, o) (Working, o)
  | rs_settle st o : request_step (st, OsPending) (st, o)
  | rs_leave st o : request_step (st, o) (st, OsDeaf)
  | rs_finish st o : o ≠ OsPending → request_step (st, o) (Finished, o).

Notation Spec := (gmap nat (stage * outcome)).

Inductive spec_step : Spec → Spec → Prop :=
  | spec_arrive i a : a !! i = None → spec_step a (<[i := (Entering, OsPending)]> a)
  | spec_request i x y a : a !! i = Some x → request_step x y → spec_step a (<[i := y]> a).

(** ** Its reachable changes *)

Definition stage_rank (st : stage) : nat :=
  match st with Entering => 0 | Queued => 1 | Working => 2 | Finished => 3 end.

Definition stage_le (st st' : stage) : Prop := (stage_rank st ≤ stage_rank st')%nat.

Definition outcome_le (o o' : outcome) : Prop := o = o' ∨ o = OsPending ∨ o' = OsDeaf.

Lemma outcome_le_trans o1 o2 o3 : outcome_le o1 o2 → outcome_le o2 o3 → outcome_le o1 o3.
Proof. unfold outcome_le. naive_solver. Qed.

Lemma outcome_le_settled o o' : outcome_le o o' → o ≠ OsPending → o' ≠ OsPending.
Proof. unfold outcome_le. naive_solver. Qed.

(** Every later stage and outcome is reachable, a request being finished
    only with an outcome. *)
Lemma request_evolves st o st' o' :
  stage_le st st' → outcome_le o o' → (st' = Finished → st = Finished ∨ o' ≠ OsPending) →
  steps request_step (st, o) (st', o').
Proof.
  intros Hst Ho Hf.
  assert (Hout : ∀ s, steps request_step (s, o) (s, o')).
  { intros s. destruct Ho as [->|[->| ->]]; eauto using rs_settle, rs_leave with kino. }
  assert (Hmove : steps request_step (st, o') (st', o')).
  { unfold stage_le in Hst. destruct st, st'; simpl in Hst; try lia; try apply steps_refl;
      try (apply steps_one, rs_finish; destruct (Hf eq_refl); done);
      try apply steps_one, rs_enqueue; try apply steps_one, rs_take.
    eapply steps_cons; [apply rs_enqueue|]. apply steps_one, rs_take. }
  eapply steps_trans; [apply Hout|exact Hmove].
Qed.

Lemma spec_request_steps i x y a :
  a !! i = Some x → steps request_step x y → steps spec_step a (<[i:=y]> a).
Proof.
  intros Hi Hs. revert a Hi. induction Hs as [x|x y z Hxy _ IH]; intros a Hi.
  - rewrite insert_id by done. constructor.
  - eapply steps_cons; [by eapply spec_request|].
    rewrite <- (insert_insert_eq a i z y). apply IH. by rewrite lookup_insert_eq.
Qed.

(** Requests move independently, so that a change of many is made of changes
    of one. *)
Lemma spec_steps_pointwise (a b : Spec) :
  (∀ i, match a !! i, b !! i with
        | Some x, Some y => steps request_step x y
        | None, None => True
        | _, _ => False
        end) →
  steps spec_step a b.
Proof.
  intros H.
  assert (Hk : ∀ ks, NoDup ks →
    (∀ i, i ∉ ks → a !! i = b !! i) → steps spec_step a b).
  { intros ks. revert a H. induction ks as [|k ks IH]; intros a H Hnd Hrest.
    { replace a with b; [constructor|]. apply map_eq. intros i. symmetry. apply Hrest, not_elem_of_nil. }
    apply NoDup_cons in Hnd as [Hk Hnd]. pose proof (H k) as Hx.
    destruct (a !! k) as [x|] eqn:Ha, (b !! k) as [y|] eqn:Hb; try done.
    - eapply steps_trans; [by eapply spec_request_steps|]. apply IH; [|done|].
      + intros i. destruct (decide (i = k)) as [->|Hne].
        * rewrite lookup_insert_eq, Hb. constructor.
        * rewrite lookup_insert_ne by done. apply H.
      + intros i Hi. destruct (decide (i = k)) as [->|Hne]; [by rewrite lookup_insert_eq|].
        rewrite lookup_insert_ne by done. apply Hrest. by intros [?|?]%elem_of_cons.
    - apply IH; [done|done|]. intros i Hi. destruct (decide (i = k)) as [->|?]; [congruence|].
      apply Hrest. by intros [?|?]%elem_of_cons. }
  apply (Hk (elements (dom a ∪ dom b))); [apply NoDup_elements|].
  intros i. rewrite elem_of_elements, elem_of_union, !elem_of_dom. intros Hi.
  destruct (a !! i), (b !! i); try done; exfalso; apply Hi; eauto.
Qed.

(** A response once sent is never replaced, and its request never goes back. *)
Lemma spec_answer_kept (a b : Spec) i st x :
  steps spec_step a b → a !! i = Some (st, OsSent x) →
  ∃ st' (o : outcome), b !! i = Some (st', o) ∧ stage_le st st' ∧ (o = OsSent x ∨ o = OsDeaf).
Proof.
  intros Hs Ha.
  apply (steps_invariant spec_step
    (λ c : Spec, ∃ st' (o : outcome), c !! i = Some (st', o) ∧ stage_le st st' ∧ (o = OsSent x ∨ o = OsDeaf))) in Hs;
    [done| |exists st, (OsSent x); unfold stage_le; split_and!; [done|lia|by left]].
  clear. intros c c' Hstep (st' & o & Hc & Hle & Ho).
  revert Hc. destruct Hstep as [j c Hj|j y y' c Hj Hr]; intros Hc; destruct (decide (i = j)) as [Hij|Hne];
    try (rewrite lookup_insert_ne by done; by eauto); subst j; rewrite Hc in Hj; [done|].
  rewrite lookup_insert_eq. injection Hj as <-. unfold stage_le in *.
  inversion Hr; subst; do 2 eexists; (split; [done|]); simpl in *;
    try destruct st'; simpl in *; (split; [lia|naive_solver]).
Qed.

(** ** One responder *)

Section cells.
Context {chan oneshot : Type → Type} `{!Flume chan, !Oneshot oneshot, !OneshotSpec oneshot}.
Implicit Types (r : Responder chan oneshot).

(** What the responder shows of its request. *)
Definition outcome_of r : outcome := os_state (head r).

(** Between calls: unclaimed with its sender, or settled. *)
Definition cell_ok r : Prop :=
  (responded r = false → head_tx r = true ∧ unsent r)
  ∧ (responded r = true → outcome_of r ≠ OsPending).

Definition evolves r r' : Prop :=
  cell_ok r → cell_ok r' ∧ outcome_le (outcome_of r) (outcome_of r').

Lemma evolves_refl r : evolves r r.
Proof. intros H. split; [done|by left]. Qed.

Lemma evolves_trans r1 r2 r3 : evolves r1 r2 → evolves r2 r3 → evolves r1 r3.
Proof.
  intros H1 H2 H. destruct (H1 H) as [H' L1]. destruct (H2 H') as [? L2].
  split; [done|by eapply outcome_le_trans].
Qed.

(** What leaves flag, sender and head alone changes nothing. *)
Definition same_head r r' : Prop :=
  responded r' = responded r ∧ head_tx r' = head_tx r ∧ head r' = head r.

Lemma evolves_same r r' : same_head r r' → evolves r r'.
Proof.
  unfold evolves, cell_ok, unsent, outcome_of, outcome_le. intros (-> & -> & ->) H. split; [done|by left].
Qed.

(** Nobody else has claimed it, and the claimant gets the sender; or somebody
    has, and nothing changes. *)
Lemma claim_cases r :
  cell_ok r →
  (claim r = (false, r) ∧ responded r = true)
  ∨ (∃ r', claim r = (true, r') ∧ responded r' = true ∧ head r' = head r ∧ unsent r').
Proof.
  intros [Hun _]. unfold claim. cbn. destruct (responded r) eqn:Hr.
  - left. split; [|done]. destruct r. simpl in *. by subst.
  - right. destruct (Hun eq_refl) as [Ht Hu]. rewrite Ht. eexists. by split_and!.
Qed.

Lemma settled_ok r : responded r = true → outcome_of r ≠ OsPending → cell_ok r.
Proof. intros H1 H2. split; [congruence|done]. Qed.

(** The claimant settles the head, whatever it sends. *)
Lemma claimed_evolves r r' r'' :
  cell_ok r → claim r = (true, r') → head r' = head r → unsent r' →
  responded r'' = true → (outcome_of r'' = OsDeaf ∨ (outcome_of r = OsPending ∧ outcome_of r'' ≠ OsPending)) →
  cell_ok r'' ∧ outcome_le (outcome_of r) (outcome_of r'') ∧ outcome_of r'' ≠ OsPending.
Proof.
  intros Hok Hc Hh Hu Hr Ho.
  assert (Hne : outcome_of r'' ≠ OsPending) by (destruct Ho as [?|[_ ?]]; [congruence|done]).
  split; [by apply settled_ok|]. split; [|done]. unfold outcome_le. tauto.
Qed.

Lemma send_head_outcome x r :
  unsent r →
  let r' := (send_head x r).2 in
  outcome_of r' = OsDeaf ∨ (outcome_of r = OsPending ∧ outcome_of r' ≠ OsPending).
Proof.
  unfold unsent, outcome_of, send_head. intros [H|H]; cbn.
  - destruct (os_send_pending _ x _ H) as (o & -> & Ho). cbn. right. split; [done|]. congruence.
  - destruct (os_send_deaf _ x _ H) as (o & -> & Ho). by left.
Qed.

Lemma send_abandoned_same r b r' : send_abandoned r = (b, r') → same_head r r'.
Proof. unfold send_abandoned. intros H. by repeat case_match; simplify_eq/=. Qed.

(** A call that comes too late leaves the head alone. *)
Lemma call_claimed o r : claim r = (false, r) → same_head r (call o r).
Proof.
  intros Hc. destruct o as [resp|b|]; unfold call, send_response, send_stream_head, respond_500_if_unsent;
    rewrite Hc; [done..|]. cbn. destruct (body_tx r); [|done].
  destruct (send_abandoned _) as [b r'] eqn:Ha. apply send_abandoned_same in Ha.
  destruct Ha as (? & ? & ?). by split_and!.
Qed.

(** Every call settles the request. *)
Lemma call_evolves o r :
  cell_ok r →
  cell_ok (call o r) ∧ outcome_le (outcome_of r) (outcome_of (call o r))
  ∧ outcome_of (call o r) ≠ OsPending.
Proof.
  intros Hok. destruct (claim_cases r Hok) as [[Hc Hr]|(r1 & Hc & Hr & Hh & Hu)].
  - pose proof (call_claimed o r Hc) as Hs.
    destruct (evolves_same _ _ Hs Hok) as [H1 H2]. split_and!; [done..|].
    apply (outcome_le_settled _ _ H2). by apply Hok.
  - assert (Hsend : ∀ x r2, head r2 = head r → responded r2 = true →
      let r3 := (send_head x r2).2 in responded r3 = true ∧
      (outcome_of r3 = OsDeaf ∨ (outcome_of r = OsPending ∧ outcome_of r3 ≠ OsPending))).
    { intros x r2 H2 Hr2. cbn. split; [by rewrite (proj2 (send_head_frame x r2))|].
      unfold outcome_of at 2. rewrite <-H2. apply send_head_outcome. unfold unsent in *. congruence. }
    apply (claimed_evolves r r1); try done;
      destruct o as [resp|[h|]|]; unfold call, send_response, send_stream_head, respond_500_if_unsent;
      rewrite Hc; cbn.
    + by apply Hsend.
    + destruct (send_stream_head_of h (open_stream r1)) as (_ & _ & ->). done.
    + done.
    + by apply Hsend.
    + by apply Hsend.
    + unfold outcome_of at 1 3. destruct (send_stream_head_of h (open_stream r1)) as (-> & _).
      by apply (Hsend (MkResponse h StreamBody) (open_stream r1)).
    + unfold outcome_of, drop_head_tx. cbn. rewrite Hh in *. destruct Hu as [Hu|Hu]; rewrite Hh in Hu.
      * right. split; [done|]. by rewrite os_drop_sender_pending.
      * left. by rewrite os_drop_sender_deaf.
    + by apply Hsend.
Qed.

Lemma hangup_evolves r : evolves r (set_head (head_tx r) (os_drop_receiver (head r)) r).
Proof.
  intros [Hun Hre]. unfold cell_ok, unsent, outcome_of, outcome_le in *. cbn. rewrite os_drop_receiver_spec.
  split; [|by right; right]. split; [|done]. intros Hr. destruct (Hun Hr). auto.
Qed.

(** What hyper and the streaming worker do to an open stream. *)
Inductive stream_op : Responder chan oneshot → Responder chan oneshot → Prop :=
  | so_finish r : stream_op r (finish_stream r)
  | so_clone r : stream_op r (body_sender r).2
  | so_drop_clone r : stream_op r (map_frames drop_sender r)
  | so_write f r : stream_op r (map_frames (λ c, (try_send f c).2) r)
  | so_frame r : stream_op r (map_frames (λ c, (try_recv c).2) r)
  | so_gone r : stream_op r (map_frames drop_receiver r)
  | so_abandon why r : stream_op r (abandon_body why r).

Lemma stream_op_same r r' : stream_op r r' → same_head r r'.
Proof.
  destruct 1; unfold finish_stream, body_sender, take_body_tx; cbn; try case_match; by split_and!.
Qed.
End cells.

(** ** The heap of responders *)

Section heap.
Context {chan oneshot : Type → Type}
  `{!Flume chan, !FlumeSpec chan, !Oneshot oneshot, !OneshotSpec oneshot}.
Implicit Types (r : Responder chan oneshot) (h : heap chan oneshot) (s : WorkerSlot chan)
  (ctx : RequestCtx chan).

(** From [h] to [h'] the strong pointers [gone] were dropped, the requests
    [answered] have an outcome, and every cell evolved. *)
Definition heap_step (gone answered : list nat) h h' : Prop :=
  ∀ i, match h !! i, h' !! i with
       | Some (n, r), Some (n', r') =>
           n' = (n - occ i gone)%nat
           ∧ (cell_ok r → cell_ok r' ∧ outcome_le (outcome_of r) (outcome_of r')
              ∧ (i ∈ answered → outcome_of r' ≠ OsPending))
       | None, None => True
       | _, _ => False
       end.

Lemma heap_step_refl h : heap_step [] [] h h.
Proof.
  intros i. destruct (h !! i) as [[n r]|]; [|done]. split; [occ_lia|].
  intros H. split_and!; [done|by left|by intros ?%elem_of_nil].
Qed.

Lemma heap_step_trans g1 a1 g2 a2 h1 h2 h3 :
  heap_step g1 a1 h1 h2 → heap_step g2 a2 h2 h3 → heap_step (g1 ++ g2) (a1 ++ a2) h1 h3.
Proof.
  intros H1 H2 i. specialize (H1 i). specialize (H2 i).
  destruct (h1 !! i) as [[n1 r1]|], (h2 !! i) as [[n2 r2]|], (h3 !! i) as [[n3 r3]|]; try done.
  destruct H1 as [-> H1], H2 as [-> H2]. split; [rewrite occ_app; lia|].
  intros Hok. destruct (H1 Hok) as (Hok2 & L1 & A1). destruct (H2 Hok2) as (Hok3 & L2 & A2).
  split_and!; [done|by eapply outcome_le_trans|].
  intros [Ha|Ha]%elem_of_app; [|by apply A2]. eapply outcome_le_settled; [done|by apply A1].
Qed.

Lemma heap_step_weaken g a a' h h' : a' ⊆ a → heap_step g a h h' → heap_step g a' h h'.
Proof.
  intros Ha H i. specialize (H i). destruct (h !! i) as [[n r]|], (h' !! i) as [[n' r']|]; try done.
  destruct H as [-> H]. split; [done|]. intros Hok. destruct (H Hok) as (? & ? & Hs). split_and!; auto.
Qed.

Lemma heap_step_perm g a g' a' h h' :
  g ≡ₚ g' → a ≡ₚ a' → heap_step g a h h' → heap_step g' a' h h'.
Proof.
  intros Hg Ha H i. specialize (H i). destruct (h !! i) as [[n r]|], (h' !! i) as [[n' r']|]; try done.
  destruct H as [-> H]. split; [by rewrite (occ_perm _ _ _ Hg)|]. intros Hok.
  destruct (H Hok) as (? & ? & Hs). split_and!; [done..|]. by rewrite <-Ha.
Qed.

(** One cell replaced, the others as they were. *)
Lemma heap_step_store i n r r' (a : list nat) h :
  h !! i = Some (n, r) →
  (cell_ok r → cell_ok r' ∧ outcome_le (outcome_of r) (outcome_of r')
   ∧ (i ∈ a → outcome_of r' ≠ OsPending)) →
  (∀ j, j ∈ a → j = i) → heap_step [] a h (store i r' h).
Proof.
  intros Hi Hr Ha j. unfold store. destruct (decide (j = i)) as [->|Hne].
  - rewrite lookup_alter_eq, Hi. cbn. split; [occ_lia|done].
  - rewrite lookup_alter_ne by done. destruct (h !! j) as [[m x]|]; [|done]. split; [occ_lia|].
    intros Hok. split_and!; [done|by left|]. intros Hj. by destruct Hne; apply Ha.
Qed.

Lemma heap_step_arc_drop i h : heap_step [i] [] h (arc_drop i h).
Proof.
  intros j. unfold arc_drop. destruct (decide (j = i)) as [->|Hne].
  - rewrite lookup_alter_eq. destruct (h !! i) as [[n r]|]; [|done]. cbn -[occ].
    split; [occ_lia|].
    intros Hok. split_and!; [done|by left|by intros ?%elem_of_nil].
  - rewrite lookup_alter_ne by done. destruct (h !! j) as [[n r]|]; [|done].
    split; [occ_lia|].
    intros Hok. split_and!; [done|by left|by intros ?%elem_of_nil].
Qed.

(** Dropping a context: its request is answered, its pointer is gone. *)
Lemma heap_step_drop_ctx ctx h :
  heap_step [responder ctx] [responder ctx] h (drop_ctx ctx h).2.
Proof.
  unfold drop_ctx. destruct (h !! responder ctx) as [[n r]|] eqn:Hr; cbn [snd].
  - destruct (respond_500_if_unsent r) as [b r'] eqn:Hc. cbn [snd].
    assert (Hs : heap_step [] [responder ctx] h (store (responder ctx) r' h)).
    { eapply heap_step_store; [done| |by intros j ->%list_elem_of_singleton].
      intros Hok. destruct (call_evolves OpAbort r Hok) as (? & ? & ?). unfold call in *.
      rewrite Hc in *. by split_and!. }
    apply (heap_step_trans _ _ _ _ _ _ _ Hs (heap_step_arc_drop _ _)).
  - intros i. destruct (h !! i) as [[n r]|] eqn:Hi; [|done].
    assert (i ≠ responder ctx) by congruence.
    split; [occ_lia|]. intros Hok.
    split_and!; [done|by left|]. by intros ->%list_elem_of_singleton.
Qed.

(** The 500s of a dead worker's in-flight list. *)
Lemma heap_step_abort_each l h : heap_step [] [] h (abort_each l h).2.
Proof.
  revert h. induction l as [|i l IH]; intros h; cbn; [apply heap_step_refl|].
  destruct (upgrade i h) as [r|] eqn:Hu; [|apply IH].
  destruct (upgrade_some _ _ _ Hu) as [n Hi].
  destruct (respond_500_if_unsent r) as [b r'] eqn:Hc.
  assert (Hs : heap_step [] [] h (store i r' h)).
  { eapply heap_step_store; [done| |by intros j ?%elem_of_nil].
    intros Hok. destruct (call_evolves OpAbort r Hok) as (? & ? & ?). unfold call in *.
    rewrite Hc in *. by split_and!. }
  destruct b; [|done]. apply (heap_step_trans _ _ _ _ _ _ _ Hs (IH _)).
Qed.

(** Every listed request that is still alive is answered. *)
Lemma abort_each_answers l h h' i n r :
  (∀ j m x, h !! j = Some (m, x) → cell_ok x) → abort_each l h = (Returned, h') → i ∈ l →
  h' !! i = Some (S n, r) → outcome_of r ≠ OsPending.
Proof.
  intros Hok. revert h Hok. induction l as [|j l IH]; intros h Hok Ha Hi Hr; [by apply elem_of_nil in Hi|].
  cbn in Ha.
  assert (Hstep : ∀ h1 m x, (∀ k y z, h1 !! k = Some (y, z) → cell_ok z) →
      abort_each l h1 = (Returned, h') → h1 !! i = Some (m, x) → outcome_of x ≠ OsPending →
      outcome_of r ≠ OsPending).
  { intros h1 m x Hok1 Ha1 Hx Hne. pose proof (heap_step_abort_each l h1 i) as Hs.
    rewrite Ha1 in Hs. cbn [snd] in Hs. rewrite Hx, Hr in Hs. destruct Hs as [_ Hs].
    destruct (Hs (Hok1 _ _ _ Hx)) as (_ & Hle & _). by eapply outcome_le_settled. }
  destruct (upgrade j h) as [x|] eqn:Hu.
  - destruct (upgrade_some _ _ _ Hu) as [m Hj].
    destruct (call_evolves OpAbort x (Hok _ _ _ Hj)) as (Hx & _ & Hne). unfold call in *.
    destruct (respond_500_if_unsent x) as [[] x'] eqn:Hc; [|done]. cbn in *.
    assert (Hok' : ∀ k y z, store j x' h !! k = Some (y, z) → cell_ok z).
    { intros k y z. unfold store. destruct (decide (k = j)) as [->|Hkj];
        [rewrite lookup_alter_eq, Hj; cbn; intros [= _ <-]; done
        |rewrite lookup_alter_ne by done; apply Hok]. }
    apply elem_of_cons in Hi as [->|Hi]; [|by apply (IH _ Hok' Ha Hi Hr)].
    apply (Hstep _ m x' Hok' Ha); [|done]. unfold store. by rewrite lookup_alter_eq, Hj.
  - apply elem_of_cons in Hi as [->|Hi]; [|by apply (IH _ Hok Ha Hi Hr)].
    pose proof (heap_step_abort_each l h j) as Hs. rewrite Ha in Hs. cbn [snd] in Hs. rewrite Hr in Hs.
    unfold upgrade in Hu. destruct (h !! j) as [[[|m] x]|]; [|done..]. destruct Hs as [Hs _]. done.
Qed.

Definition ids (l : list (RequestCtx chan)) : list nat := responder <$> l.
#[global] Arguments ids : simpl never.

Lemma slot_ok_recv s (t : Taken chan) s' : recv_lane s = (t, s') → slot_ok s → slot_ok s'.
Proof.
  unfold recv_lane, slot_ok. destruct (lane_rx s) as [rx|] eqn:Hrx; [|by intros [= <- <-]; rewrite Hrx].
  destruct (try_recv rx) as [[x| |] rx'] eqn:Hr; intros [= <- <-]; rewrite ?Hrx; [|done..].
  intros (Hok & Hc & Hrc). cbn. pose proof (chan_ok_try_recv _ _ _ Hok Hr) as Hok'.
  apply try_recv_cases in Hr as [(y & l & _ & _ & _ & Hc' & _ & Hr')|[([=] & _)|([=] & _)]].
  by rewrite Hc', Hr'.
Qed.

Lemma slot_ok_close s : slot_ok s → slot_ok (close_lane s).
Proof.
  unfold close_lane. destruct (lane_tx s); [|done]. unfold slot_ok. cbn.
  destruct (lane_rx s) as [c|]; [|done]. unfold chan_ok. by autorewrite with kino_chan.
Qed.

(** A slot of a server that has lanes, or has none. *)
Definition slot_in (lanes : bool) s : Prop := slot_ok s ∧ bool_decide (is_Some (lane_rx s)) = lanes.

Lemma slot_in_recv b s (t : Taken chan) s' : recv_lane s = (t, s') → slot_in b s → slot_in b s'.
Proof.
  intros Hr [Hok Hb]. split; [by eapply slot_ok_recv|]. revert Hr. unfold recv_lane.
  destruct (lane_rx s) as [rx|] eqn:Hrx; [|by intros [= <- <-]; rewrite Hrx].
  by destruct (try_recv rx) as [[x| |] rx']; intros [= <- <-]; rewrite ?Hrx.
Qed.

Lemma slot_in_close b s : slot_in b s → slot_in b (close_lane s).
Proof.
  intros [Hok Hb]. split; [by apply slot_ok_close|]. unfold close_lane.
  destruct (lane_tx s); [|done]. simpl. by destruct (lane_rx s).
Qed.

(** Draining a lane drops a prefix of it. *)
Lemma drain_lane_step b0 fuel s h b s' h' :
  drain_lane fuel s h = (b, (s', h')) → slot_in b0 s →
  ∃ l, lane s = l ++ lane s' ∧ slot_in b0 s' ∧ heap_step (ids l) (ids l) h h'.
Proof.
  revert s h. induction fuel as [|fuel IH]; intros s h Hd Hok.
  { injection Hd as <- <- <-. exists []. split_and!; [done..|apply heap_step_refl]. }
  cbn in Hd. destruct (recv_lane s) as [[c|] s1] eqn:Hr; pose proof (recv_lane_spec _ _ _ Hr) as Hl.
  - cbn in Hl. pose proof (slot_in_recv _ _ _ _ Hr Hok) as Hok1.
    pose proof (heap_step_drop_ctx c h) as Hs. destruct (drop_ctx c h) as [[] h1] eqn:Hc; cbn [snd] in Hs.
    + destruct (IH _ _ Hd Hok1) as (l & Hl1 & Hok' & Hs').
      exists (c :: l). split; [rewrite Hl; simpl; by f_equal|]. split; [done|].
      apply (heap_step_trans _ _ _ _ _ _ _ Hs Hs').
    + injection Hd as <- <- <-. by exists [c].
  - destruct Hl as [-> _]. injection Hd as <- <- <-. exists []. split_and!; [done..|apply heap_step_refl].
Qed.

(** Aborting a slot drops what its lane holds, and leaves the lane empty. *)
Lemma abort_slot_step b0 s h s' h' :
  abort_slot s h = (Returned, (s', h')) → slot_in b0 s →
  ∃ l, lane s = l ++ lane s' ∧ slot_in b0 s' ∧ heap_step (ids l) (ids l) h h'.
Proof.
  unfold abort_slot. intros Ha Hok.
  pose proof (heap_step_abort_each (current s) h) as Hs.
  destruct (abort_each (current s) h) as [[] h1] eqn:He; cbn [snd] in Hs; [|done].
  destruct (drain_lane_step b0 _ _ _ _ _ _ Ha) as (l & Hl & Hok' & Hs').
  { by apply (slot_in_close b0). }
  exists l. split; [by rewrite <-Hl; symmetry; exact (lane_abort_prepared s)|]. split; [done|].
  apply (heap_step_trans _ _ _ _ _ _ _ Hs Hs').
Qed.
End heap.

(** ** What the drops keep

    An observation of responders that the backstop's 500 does not change is
    not changed by anything that gives contexts up. *)

Section kept.
Context {chan oneshot : Type → Type} `{!Flume chan, !Oneshot oneshot}.
Context {X : Type} (ok : Responder chan oneshot → Prop) (obs : Responder chan oneshot → X).
Implicit Types (r : Responder chan oneshot) (h : heap chan oneshot) (s : WorkerSlot chan)
  (ctx : RequestCtx chan).

Definition all_ok h : Prop := ∀ i n r, h !! i = Some (n, r) → ok r.

Definition observed h (i : nat) : option X := obs ∘ snd <$> h !! i.

Definition keeps r r' : Prop := ok r → ok r' ∧ obs r' = obs r.

(** No cell comes or goes, and each shows what it showed. *)
Definition kept h h' : Prop := all_ok h → all_ok h' ∧ ∀ i, observed h' i = observed h i.

#[export] Instance kept_preorder : PreOrder kept.
Proof.
  split; [by intros h H|]. intros h1 h2 h3 H1 H2 Hok. destruct (H1 Hok) as [Hok2 E1]. destruct (H2 Hok2) as [? E2].
  split; [done|]. intros i. by rewrite E2.
Qed.

Lemma kept_store i n r r' h : h !! i = Some (n, r) → keeps r r' → kept h (store i r' h).
Proof.
  intros Hi Hr Hok. destruct (Hr (Hok _ _ _ Hi)) as [Hok' He]. unfold store, observed. split.
  - intros j m x. destruct (decide (j = i)) as [->|Hne]; [|rewrite lookup_alter_ne by done; apply Hok].
    rewrite lookup_alter_eq, Hi. cbn. by intros [= _ <-].
  - intros j. destruct (decide (j = i)) as [->|Hne]; [|by rewrite lookup_alter_ne].
    rewrite lookup_alter_eq, Hi. cbn. by rewrite He.
Qed.

Lemma kept_arc_drop i h : kept h (arc_drop i h).
Proof.
  intros Hok. unfold arc_drop, observed. split.
  - intros j m x. destruct (decide (j = i)) as [->|Hne]; [|rewrite lookup_alter_ne by done; apply Hok].
    rewrite lookup_alter_eq. destruct (h !! i) as [[n r]|] eqn:Hi; [|done]. cbn. intros [= _ <-]. by eapply Hok.
  - intros j. destruct (decide (j = i)) as [->|Hne]; [|by rewrite lookup_alter_ne].
    rewrite lookup_alter_eq. by destruct (h !! i) as [[n r]|].
Qed.

Hypothesis abort_keeps : ∀ r, keeps r (call OpAbort r).

Lemma kept_drop_ctx ctx h : kept h (drop_ctx ctx h).2.
Proof.
  unfold drop_ctx. destruct (h !! responder ctx) as [[n r]|] eqn:Hi; [|done].
  pose proof (kept_store _ _ _ _ _ Hi (abort_keeps r)) as He. unfold call in He.
  destruct (respond_500_if_unsent r) as [b r']. cbn in *. etrans; [exact He|apply kept_arc_drop].
Qed.

Lemma kept_abort_each l h : kept h (abort_each l h).2.
Proof.
  revert h. induction l as [|i l IH]; intros h; [done|]. cbn.
  destruct (upgrade i h) as [r|] eqn:Hu; [|apply IH]. destruct (upgrade_some _ _ _ Hu) as [n Hi].
  pose proof (kept_store _ _ _ _ _ Hi (abort_keeps r)) as He. unfold call in He.
  destruct (respond_500_if_unsent r) as [[] r']; cbn in *; [etrans; [exact He|apply IH]|exact He].
Qed.

Lemma kept_drain fuel s h : kept h (drain_lane fuel s h).2.2.
Proof.
  revert s h. induction fuel as [|fuel IH]; intros s h; [done|]. cbn.
  destruct (recv_lane s) as [[c|] s1]; [|done]. pose proof (kept_drop_ctx c h) as He.
  destruct (drop_ctx c h) as [[] h1]; cbn in *; [etrans; [exact He|apply IH]|exact He].
Qed.

Lemma kept_abort_slot s h : kept h (abort_slot s h).2.2.
Proof.
  unfold abort_slot. pose proof (kept_abort_each (current s) h) as He.
  destruct (abort_each (current s) h) as [[] h1]; cbn [snd] in *; [etrans; [exact He|apply kept_drain]|exact He].
Qed.
End kept.
