(* ===== verification/System.v ===== *)
(** The whole server: requests, dispatchers, the queue and the lanes, workers,
    responders and the supervisor as one system whose steps are the
    operations of the other files, and the theorems the composition is for:
    every state is well formed, and the system implements the specification
    of [Outcomes].

    A step is one operation of the code run to its end. One that would park
    on a full frame channel (an abort, a drop) is a step not taken until there
    is room. *)

From S2P Require Import Prelude Channels Gvl Response Request Registry Dispatch Queue Lifecycle.
From S2P Require Import Outcomes Admission.
From S2P Require Pin.

(** ** The system *)

(** The natives of the Ruby side that neither take nor drop a request. *)
Inductive native : Type :=
  | NStopAccepting | NControlReady | NCloseQueue | NInterruptAll | NRegister
  | NQuarantine (w : nat) | NRetire (w : nat) | NReset (w : nat)
  | NRespawn | NActive (n : Z) | NScaleUp | NScaleDown | NReplacement.

Section system.
Context {chan oneshot : Type → Type} `{!Flume chan, !Oneshot oneshot}.
Context {env_t : Type} (build_env : RequestCtx chan → result env_t).
Variable to_str : string → option string.
Implicit Types (c : RequestCtx chan) (sv : ServerInner chan) (h : heap chan oneshot)
  (r : Responder chan oneshot) (g : Registry chan).

Definition native_fn (k : native) (i : nat) g : Registry chan :=
  match k with
  | NStopAccepting => stop_accepting i g
  | NControlReady => control_ready i g
  | NCloseQueue => close_queue i g
  | NInterruptAll => interrupt_all_workers i g
  | NRegister => (register_worker_native i g).2
  | NQuarantine w => (quarantine_slot i w g).2
  | NRetire w => (retire_slot i w g).2
  | NReset w => (reset_slot i w g).2
  | NRespawn => record_respawn i g
  | NActive n => set_active_workers i n g
  | NScaleUp => record_scale_up i g
  | NScaleDown => record_scale_down i g
  | NReplacement => record_quarantine_replacement i g
  end.

(** A native called on the table that holds the server. *)
Definition run_native (k : native) sv : ServerInner chan :=
  let i := id (config sv) in
  default sv (try_get i (native_fn k i (insert sv registry_new))).

(** Who owns a request's context: the handler placing it, the handler blocked
    on the queue's sender, the server, the worker that took it, or the Ruby
    handle. [forwarders] hold the second strong pointer of requests with a
    body; [clients] are the handlers that still run. *)
Record System : Type := MkSystem {
  server : ServerInner chan;
  cells : heap chan oneshot;
  placing : list (RequestCtx chan);
  sending : list (RequestCtx chan);
  taken : list (RequestCtx chan);
  handles : list (RequestCtx chan);
  forwarders : list nat;
  clients : list nat;
}.

Definition entering (s : System) : list (RequestCtx chan) := placing s ++ sending s.
Definition working (s : System) : list (RequestCtx chan) := taken s ++ handles s.
Definition owned (s : System) : list (RequestCtx chan) := entering s ++ waiting (server s) ++ working s.

Definition taken_of (t : take_outcome chan) : list (RequestCtx chan) :=
  match t with TakeEnded (Some c) => [c] | _ => [] end.

(** One operation on a request, by whoever owns it: its handler
    ([handle_request] of [server.rs]: arrival, [try_dispatch] or the send on
    the queue, the 503, the 413, the cancellation, the head), a worker
    ([checkout], the loops of [block_take] and [admit] of [queue.rs]), Ruby
    (the calls of [response.rs], the handle's [Drop]), the supervisor
    ([abort_slot] and the natives of [server.rs]), hyper and the body's
    forwarder task. *)
Inductive sys_step : System → System → Prop :=
  (** A request arrives. *)
  | sys_arrive sv h pl se ta ha fw cl rq peer lcl rid now c sv' h' :
      h !! rid = None → c = make_ctx to_str sv rq peer lcl rid now → enter rid c sv h = (sv', h') →
      sys_step (MkSystem sv h pl se ta ha fw cl)
        (MkSystem sv' h' (c :: pl) se ta ha ((if body_rx c then [rid] else []) ++ fw) (rid :: cl))
  (** Its handler places it: in a lane, by attempts, *)
  | sys_sent sv h l1 c l2 se ta ha fw cl sv' :
      lanes (config sv) = true → try_dispatch sv c = (Sent, sv') →
      sys_step (MkSystem sv h (l1 ++ c :: l2) se ta ha fw cl) (MkSystem sv' h (l1 ++ l2) se ta ha fw cl)
  | sys_not_sent sv h l1 c l2 se ta ha fw cl d sv' :
      lanes (config sv) = true → try_dispatch sv c = (d, sv') → d ≠ Sent →
      sys_step (MkSystem sv h (l1 ++ c :: l2) se ta ha fw cl) (MkSystem sv' h (l1 ++ c :: l2) se ta ha fw cl)
  (** or on the queue, through a clone of its sender. *)
  | sys_open sv h l1 c l2 se ta ha fw cl :
      lanes (config sv) = false → req_tx sv = true →
      sys_step (MkSystem sv h (l1 ++ c :: l2) se ta ha fw cl)
        (MkSystem (with_tx clone_sender sv) h (l1 ++ l2) (c :: se) ta ha fw cl)
  | sys_send sv h pl l1 c l2 ta ha fw cl q :
      lanes (config sv) = false → try_send c (req sv) = (SendOk, q) →
      sys_step (MkSystem sv h pl (l1 ++ c :: l2) ta ha fw cl)
        (MkSystem (with_tx drop_sender (set_queue (req_tx sv) q sv)) h pl (l1 ++ l2) ta ha fw cl)
  | sys_unsend sv h pl l1 c l2 ta ha fw cl :
      sys_step (MkSystem sv h pl (l1 ++ c :: l2) ta ha fw cl)
        (MkSystem (with_tx drop_sender sv) h (c :: pl) (l1 ++ l2) ta ha fw cl)
  (** It is refused (503), or dropped (413, or its client has gone). *)
  | sys_refuse sv h l1 c l2 se ta ha fw cl h' :
      drop_ctx c h = (Returned, h') →
      sys_step (MkSystem sv h (l1 ++ c :: l2) se ta ha fw cl)
        (MkSystem (unavailable sv).2 h' (l1 ++ l2) se ta ha fw cl)
  | sys_give_up sv h l1 c l2 se ta ha fw cl h' :
      drop_ctx c h = (Returned, h') →
      sys_step (MkSystem sv h (l1 ++ c :: l2) se ta ha fw cl) (MkSystem sv h' (l1 ++ l2) se ta ha fw cl)
  (** A worker starts a take, goes round its loop, gets up. *)
  | sys_take sv h pl se ta ha fw cl w t sv' :
      checkout true w [] sv = (t, sv') →
      sys_step (MkSystem sv h pl se ta ha fw cl) (MkSystem sv' h pl se (taken_of t ++ ta) ha fw cl)
  | sys_queue_tick sv h pl se ta ha fw cl w t sv' :
      lanes (config sv) = false → queue_tick w sv = (t, sv') →
      sys_step (MkSystem sv h pl se ta ha fw cl)
        (MkSystem sv' h pl se (option_list (mjoin t) ++ ta) ha fw cl)
  | sys_lane_tick sv h pl se ta ha fw cl w t sv' :
      lane_tick w sv = (t, sv') →
      sys_step (MkSystem sv h pl se ta ha fw cl)
        (MkSystem sv' h pl se (option_list (mjoin t) ++ ta) ha fw cl)
  | sys_unpark sv h pl se ta ha fw cl w :
      sys_step (MkSystem sv h pl se ta ha fw cl) (MkSystem (unpark w sv) h pl se ta ha fw cl)
  (** What it took is admitted, and is Ruby's; or its env cannot be built. *)
  | sys_admit sv h pl se l1 c l2 ha fw cl w now ms e c' sv' h' :
      admit_request build_env w now ms c sv h = (Ok (e, c'), (sv', h')) →
      sys_step (MkSystem sv h pl se (l1 ++ c :: l2) ha fw cl)
        (MkSystem sv' h' pl se (l1 ++ l2) (c' :: ha) fw cl)
  | sys_not_admitted sv h pl se l1 c l2 ha fw cl w now ms e sv' h' :
      admit_request build_env w now ms c sv h = (Err e, (sv', h')) →
      sys_step (MkSystem sv h pl se (l1 ++ c :: l2) ha fw cl) (MkSystem sv' h' pl se (l1 ++ l2) ha fw cl)
  (** Ruby answers, streams, aborts, and lets go of its handle. *)
  | sys_call sv h pl se ta l1 c l2 fw cl o n r :
      h !! responder c = Some (n, r) → (o = OpAbort → (respond_500_if_unsent r).1 = Returned) →
      sys_step (MkSystem sv h pl se ta (l1 ++ c :: l2) fw cl)
        (MkSystem sv (store (responder c) (call o r) h) pl se ta (l1 ++ c :: l2) fw cl)
  (** The bytes of an answer are pinned in the slab, and released once sent. *)
  | sys_pin sv h pl se ta ha fw cl value slot sl :
      Pin.insert value (pin_slab sv) = (slot, sl) →
      sys_step (MkSystem sv h pl se ta ha fw cl) (MkSystem (set_pins sl sv) h pl se ta ha fw cl)
  | sys_unpin sv h pl se ta ha fw cl slot :
      sys_step (MkSystem sv h pl se ta ha fw cl)
        (MkSystem (set_pins (Pin.release slot (pin_slab sv)) sv) h pl se ta ha fw cl)
  | sys_stream sv h pl se ta ha fw cl i n r r' :
      h !! i = Some (n, r) → stream_op r r' →
      sys_step (MkSystem sv h pl se ta ha fw cl) (MkSystem sv (store i r' h) pl se ta ha fw cl)
  | sys_release sv h pl se ta l1 c l2 fw cl h' :
      drop_ctx c h = (Returned, h') →
      sys_step (MkSystem sv h pl se ta (l1 ++ c :: l2) fw cl) (MkSystem sv h' pl se ta (l1 ++ l2) fw cl)
  (** The supervisor aborts a dead worker, or calls another native. *)
  | sys_abort sv h pl se ta ha fw cl w s s' h' :
      slots sv !! w = Some s → abort_slot s h = (Returned, (s', h')) →
      sys_step (MkSystem sv h pl se ta ha fw cl) (MkSystem (put_slot w s' sv) h' pl se ta ha fw cl)
  | sys_native sv h pl se ta ha fw cl k :
      sys_step (MkSystem sv h pl se ta ha fw cl) (MkSystem (run_native k sv) h pl se ta ha fw cl)
  (** A handler looks at its head channel, perhaps at its deadline. *)
  | sys_await sv h pl se ta ha fw l1 i l2 resp sv' :
      await_head i sv h = (resp, sv') →
      sys_step (MkSystem sv h pl se ta ha fw (l1 ++ i :: l2)) (MkSystem sv' h pl se ta ha fw (l1 ++ i :: l2))
  (** A handler ends, with a response, at its timeout, or cancelled; a
      forwarder ends. *)
  | sys_leave sv h pl se ta ha fw l1 i l2 sv' h' :
      leave i sv h = (sv', h') →
      sys_step (MkSystem sv h pl se ta ha fw (l1 ++ i :: l2)) (MkSystem sv' h' pl se ta ha fw (l1 ++ l2))
  | sys_forwarded sv h pl se ta ha l1 i l2 cl :
      sys_step (MkSystem sv h pl se ta ha (l1 ++ i :: l2) cl)
        (MkSystem sv (arc_drop i h) pl se ta ha (l1 ++ l2) cl).

(** A server that nothing has happened to. *)
Definition sys_init sv : System := MkSystem sv ∅ [] [] [] [] [] [].
End system.
Arguments System : clear implicits.

(** ** What each operation does to the server *)

Section server_steps.
Context {chan oneshot : Type → Type}
  `{!Flume chan, !FlumeSpec chan, !Oneshot oneshot, !OneshotSpec oneshot}.
Implicit Types (c : RequestCtx chan) (sv : ServerInner chan) (h : heap chan oneshot)
  (s : WorkerSlot chan) (l : list (WorkerSlot chan)) (t : Taken chan).

(** Every lane and the queue are within bounds; the slots have lanes exactly
    when the server does, and then nothing is on the queue. *)
Definition server_ok sv : Prop :=
  Forall (slot_in (lanes (config sv))) (slots sv)
  ∧ (chan_ok (req sv) ∧ (lanes (config sv) = true → contents (req sv) = [])).

Lemma server_slots_ok sv : server_ok sv → Forall slot_ok (slots sv).
Proof. intros [H _]. eapply Forall_impl; [exact H|]. by intros s [? _]. Qed.

(** The operation brings [added] into the queue and the lanes and takes
    [removed] out; it keeps the server well formed, its settings and the
    gauge. *)
Definition server_step (added removed : list (RequestCtx chan)) sv sv' : Prop :=
  (∀ i, occ i (ids added) + occ i (ids (waiting sv)) = occ i (ids removed) + occ i (ids (waiting sv')))%nat
  ∧ (server_ok sv → server_ok sv')
  ∧ (c_in_flight (counters sv') = c_in_flight (counters sv) ∧ config sv' = config sv).

Lemma ids_app (l1 l2 : list (RequestCtx chan)) : ids (l1 ++ l2) = ids l1 ++ ids l2.
Proof. apply fmap_app. Qed.

Lemma ids_cons c (l1 : list (RequestCtx chan)) : ids (c :: l1) = responder c :: ids l1.
Proof. done. Qed.

Lemma ids_perm (l1 l2 : list (RequestCtx chan)) i : l1 ≡ₚ l2 → occ i (ids l1) = occ i (ids l2).
Proof. intros H. by apply occ_perm, fmap_Permutation. Qed.

Lemma server_step_perm added removed sv sv' :
  added ++ waiting sv ≡ₚ removed ++ waiting sv' → (server_ok sv → server_ok sv') →
  c_in_flight (counters sv') = c_in_flight (counters sv) ∧ config sv' = config sv →
  server_step added removed sv sv'.
Proof.
  intros H Hok Hf. split; [|by split]. intros i.
  pose proof (ids_perm _ _ i H) as Hi. by rewrite !ids_app, !occ_app in Hi.
Qed.

Lemma server_step_trans r1 r2 sv1 sv2 sv3 :
  server_step [] r1 sv1 sv2 → server_step [] r2 sv2 sv3 → server_step [] (r1 ++ r2) sv1 sv3.
Proof.
  intros (H1 & K1 & G1 & C1) (H2 & K2 & G2 & C2). split; [|split; [auto|split; congruence]].
  intros i. specialize (H1 i). specialize (H2 i). rewrite ids_app, occ_app. simpl in *. lia.
Qed.

(** *** Slots *)

Lemma slots_alter (f : WorkerSlot chan → WorkerSlot chan) w sv :
  (∀ s, lane (f s) = lane s) → (∀ b s, slot_in b s → slot_in b (f s)) →
  server_step [] [] sv (set_slots (alter f w (slots sv)) sv).
Proof.
  intros Hl Hok. apply server_step_perm; [|intros [H ?]; split; [|done]|done].
  - unfold waiting. simpl. by rewrite lanes_alter.
  - simpl. apply Forall_alter; auto.
Qed.

Lemma slots_fmap (f : WorkerSlot chan → WorkerSlot chan) sv :
  (∀ s, lane (f s) = lane s) → (∀ b s, slot_in b s → slot_in b (f s)) →
  server_step [] [] sv (set_slots (f <$> slots sv) sv).
Proof.
  intros Hl Hok. apply server_step_perm; [|intros [H ?]; split; [|done]|done].
  - unfold waiting. simpl. f_equiv. induction (slots sv) as [|s l IH]; [done|]. simpl. by rewrite Hl, IH.
  - simpl. rewrite Forall_fmap. eapply Forall_impl; [exact H|]. intros s. apply Hok.
Qed.

Lemma slots_put (l1 : list (RequestCtx chan)) w s s' sv :
  slots sv !! w = Some s → lane s = l1 ++ lane s' →
  (slot_in (lanes (config sv)) s → slot_in (lanes (config sv)) s') →
  server_step [] l1 sv (put_slot w s' sv).
Proof.
  intros Hw Hl Hok. apply server_step_perm; [|intros [H ?]; split; [|done]|done].
  - unfold waiting, put_slot. simpl. apply list_elem_of_split_length in Hw as (k1 & k2 & Hk & ->).
    rewrite Hk. rewrite insert_app_r_alt by lia. rewrite Nat.sub_diag. simpl.
    rewrite !bind_app, !bind_cons, Hl. solve_Permutation.
  - simpl. apply Forall_insert; [done|]. apply Hok. rewrite Forall_lookup in H. eauto.
Qed.

Lemma server_step_refl sv : server_step [] [] sv sv.
Proof. by apply server_step_perm. Qed.

Lemma slots_recv w s t s' sv :
  slots sv !! w = Some s → recv_lane s = (t, s') →
  server_step [] (option_list t) sv (put_slot w s' sv).
Proof.
  intros Hw Hr. apply slots_put with s; [done| |by eapply slot_in_recv].
  apply recv_lane_spec in Hr. destruct t as [c|]; [done|]. by destruct Hr as [-> _].
Qed.

(** *** Takes *)

Lemma timeout_at_step w sv r sv' :
  timeout_at w sv = (r, sv') → server_step [] (option_list (mjoin r)) sv sv'.
Proof.
  unfold timeout_at, after_timeout. destruct (slots sv !! w) as [s|] eqn:Hw;
    [|intros [= <- <-]; apply server_step_refl].
  destruct (retired s); simpl.
  - destruct (recv_lane s) as [t s'] eqn:Hr. intros [= <- <-]. by apply (slots_recv w s t s').
  - intros [= <- <-]. by apply (slots_put [] w s s).
Qed.

Lemma req_take_step sv c q :
  try_recv (req sv) = (RecvOk c, q) → server_step [] [c] sv (set_queue (req_tx sv) q sv).
Proof.
  intros Hr. apply server_step_perm; [exact (req_took _ _ _ Hr)|intros (? & Hq & Hm); split; [done|]|done].
  simpl. split; [by eapply chan_ok_try_recv|]. intros Hl. specialize (Hm Hl).
  apply try_recv_cases in Hr as [(y & l & _ & Hc & _)|[([=] & _)|([=] & _)]]. congruence.
Qed.

Lemma queue_tick_step w sv r sv' :
  queue_tick w sv = (r, sv') → server_step [] (option_list (mjoin r)) sv sv'.
Proof.
  unfold queue_tick, recv_timeout. destruct (try_recv (req sv)) as [[c| |] q] eqn:Hr.
  - intros [= <- <-]. by apply req_take_step.
  - apply timeout_at_step.
  - intros [= <- <-]. apply server_step_refl.
Qed.

Lemma steal_from_ok w order l t l' :
  steal_from w order l = (t, l') → ∀ b, Forall (slot_in b) l → Forall (slot_in b) l'.
Proof.
  induction order as [|i order IH]; simpl; [by intros [= <- <-]|].
  destruct (i =? w)%nat; [done|]. destruct (l !! i) as [s|] eqn:Hi; [|done].
  destruct (recv_lane s) as [[c|] s'] eqn:Hr; [|done]. intros [= <- <-] b H.
  apply Forall_insert; [done|]. eapply slot_in_recv; [done|]. rewrite Forall_lookup in H. eauto.
Qed.

Lemma steal_step w sv t sv' : steal w sv = (t, sv') → server_step [] (option_list t) sv sv'.
Proof.
  intros Hs. pose proof (steal_took _ _ _ _ Hs) as Ht.
  unfold steal in Hs. destruct (steal_from _ _ _) as [t' l'] eqn:Hl. injection Hs as <- <-.
  apply server_step_perm; [|intros [H ?]; split; [by eapply steal_from_ok|done]|done].
  unfold took in Ht. destruct t' as [c|]; [exact Ht|by rewrite Ht].
Qed.

Lemma lane_tick_step w sv r sv' :
  lane_tick w sv = (r, sv') → server_step [] (option_list (mjoin r)) sv sv'.
Proof.
  unfold lane_tick. destruct (slots sv !! w) as [s|] eqn:Hw;
    [|intros [= <- <-]; apply server_step_refl].
  destruct (lane_rx s) as [rx|] eqn:Hrx; [|intros [= <- <-]; apply server_step_refl].
  unfold recv_timeout. destruct (try_recv rx) as [[c| |] rx'] eqn:Hr;
    [| |intros [= <- <-]; apply server_step_refl].
  - intros [= <- <-]. apply (slots_recv w s (Some c)); [done|]. unfold recv_lane. by rewrite Hrx, Hr.
  - destruct (timeout_at w sv) as [[t|] sv1] eqn:Ht; apply timeout_at_step in Ht;
      [by intros [= <- <-]|].
    destruct (steal w sv1) as [[c|] sv2] eqn:Hs; apply steal_step in Hs; intros [= <- <-];
      exact (server_step_trans _ _ _ _ _ Ht Hs).
Qed.

Lemma park_step w sv : server_step [] [] sv (park w sv).
Proof. exact (slots_alter (set_parked true (park_seq sv +w 1)) w sv (λ _, eq_refl) (λ _ _ H, H)). Qed.

Lemma unpark_step w sv : server_step [] [] sv (unpark w sv).
Proof. exact (slots_alter (λ s, set_parked false (parked_at s) s) w sv (λ _, eq_refl) (λ _ _ H, H)). Qed.

(** The first round of a take, before it blocks. *)
Lemma block_take_step w sv r sv' :
  block_take w [] sv = (r, sv') → server_step [] (taken_of r) sv sv'.
Proof.
  unfold block_take. destruct (slots sv !! w) as [s|] eqn:Hw;
    [|intros [= <- <-]; apply server_step_refl].
  destruct (lane_rx s) as [rx|] eqn:Hrx.
  - unfold lane_take. destruct (try_recv rx) as [[c| |] rx'] eqn:Hr;
      [| |intros [= <- <-]; apply server_step_refl].
    + intros [= <- <-]. apply (slots_recv w s (Some c)); [done|]. unfold recv_lane. by rewrite Hrx, Hr.
    + destruct (steal w sv) as [[c|] sv1] eqn:Hs; apply steal_step in Hs; simpl; intros [= <- <-]; [done|].
      exact (server_step_trans _ _ _ _ _ Hs (park_step w sv1)).
  - destruct (try_recv (req sv)) as [[c| |] q] eqn:Hr; simpl; intros [= <- <-].
    + by apply req_take_step.
    + apply server_step_refl.
    + apply server_step_refl.
Qed.

Lemma checkout_step w sv r sv' :
  checkout true w [] sv = (r, sv') → server_step [] (taken_of r) sv sv'.
Proof.
  unfold checkout. simpl. intros Hb. apply block_take_step in Hb.
  refine (server_step_trans [] _ _ _ _ _ Hb).
  exact (slots_alter (λ s, set_interrupted false (set_work [] (served s) 0 (last_started_ms s) s)) w sv
           (λ _, eq_refl) (λ _ _ H, H)).
Qed.

(** *** Dispatches and sends *)

Lemma slots_enqueued i s c s' sv :
  slots sv !! i = Some s → available s → enqueued s c s' →
  server_step [c] [] sv (set_slots (<[i:=s']> (slots sv)) sv).
Proof.
  intros Hi (_ & _ & rx0 & Hrx0 & Hroom) (rx & rx' & Hrx1 & (Hc & Hcap & _ & Hrc) & ->). simplify_eq.
  apply server_step_perm; [|intros [H ?]; split; [|done]|done].
  - unfold waiting. simpl. apply list_elem_of_split_length in Hi as (k1 & k2 & Hk & ->).
    rewrite Hk. rewrite insert_app_r_alt by lia. rewrite Nat.sub_diag. simpl.
    rewrite !bind_app, !bind_cons. unfold lane at 2 5. simpl. rewrite Hrx0, Hc. solve_Permutation.
  - simpl. apply Forall_insert; [done|]. rewrite Forall_lookup in H. destruct (H _ _ Hi) as [Hok Hb].
    split; [|by rewrite Hrx0 in Hb]. unfold slot_ok in *. simpl. rewrite Hrx0 in Hok.
    destruct Hok as ([H1 H2] & H3 & H4).
    unfold chan_ok. rewrite Hc, Hcap, Hrc, length_app. simpl. split_and!; [lia|lia|done|done].
Qed.

Lemma sweep_step skip order c sv o l any_open any :
  Forall slot_ok (slots sv) → sweep skip order (slots sv) c any_open = (o, l, any) →
  (o = None ∧ server_step [c] [] sv (set_slots l sv)) ∨ (o = Some c ∧ l = slots sv).
Proof.
  intros Hok Hs.
  destruct (sweep_spec skip order (slots sv) c any_open Hok) as [(l' & Hs' & Hsent)|(open & Hs' & _)];
    rewrite Hs in Hs'; simplify_eq; [left|by right]. split; [done|].
  destruct Hsent as (i & s & s' & _ & _ & -> & _ & Hi & _ & Hav & He & _). by eapply slots_enqueued.
Qed.

Lemma set_slots_id sv z : set_slots (slots sv) (set_lane_cursor z sv) = set_lane_cursor z sv.
Proof. done. Qed.

Lemma cursor_step z sv : server_step [] [] sv (set_lane_cursor z sv).
Proof. apply server_step_perm; [done| |done]. by intros H. Qed.

Lemma dispatch_step sv c d sv' :
  server_ok sv → try_dispatch sv c = (d, sv') →
  server_step (if d is Sent then [c] else []) [] sv sv'.
Proof.
  intros Hok%server_slots_ok. unfold try_dispatch. destruct (_ =? 0)%nat; [intros [= <- <-]; apply server_step_refl|].
  set (sv1 := set_lane_cursor _ sv). set (order := rotation _ _).
  destruct (sweep parked order _ c false) as [[o l] any] eqn:Hs1.
  destruct (sweep_step _ _ _ sv1 _ _ _ _ Hok Hs1) as [[-> H1]|[-> ->]].
  { intros [= <- <-]. exact H1. }
  set (order' := _ ++ order). destruct (sweep _ order' _ _ _) as [[o2 l2] any2] eqn:Hs2.
  destruct (sweep_step _ _ _ sv1 _ _ _ _ Hok Hs2) as [[-> H2]|[-> ->]].
  { intros [= <- <-]. exact H2. }
  destruct any2; intros [= <- <-]; exact (cursor_step (lane_cursor sv +w 1) sv).
Qed.

Lemma with_tx_step (f : chan (RequestCtx chan) → chan (RequestCtx chan)) sv :
  (∀ q, contents (f q) = contents q ∧ capacity (f q) = capacity q) → server_step [] [] sv (with_tx f sv).
Proof.
  intros H. apply server_step_perm; [|intros [? Hq]; split; [done|]|done].
  - unfold waiting. simpl. by rewrite (proj1 (H _)).
  - unfold chan_ok in *. simpl. destruct (H (req sv)) as [-> ->]. exact Hq.
Qed.

Lemma clone_step sv : server_step [] [] sv (with_tx clone_sender sv).
Proof. apply with_tx_step. intros q. by destruct (clone_sender_spec _ q) as (-> & -> & _). Qed.

Lemma drop_step sv : server_step [] [] sv (with_tx drop_sender sv).
Proof. apply with_tx_step. intros q. by destruct (drop_sender_spec _ q) as (-> & -> & _). Qed.

Lemma send_step c sv q :
  lanes (config sv) = false → server_ok sv → try_send c (req sv) = (SendOk, q) →
  server_step [c] [] sv (with_tx drop_sender (set_queue (req_tx sv) q sv)).
Proof.
  intros Hl (_ & Hq & _) Hs. pose proof (chan_ok_try_send _ _ _ _ Hq Hs) as Hq'.
  apply try_send_cases in Hs as [(_ & _ & _ & Hc & _)|[([=] & _)|([=] & _)]]; [|apply Hq].
  destruct (drop_step (set_queue (req_tx sv) q sv)) as (Hp & Hok & Hg). split; [|split; [|done]].
  - intros i. rewrite <-(Hp i). unfold waiting. cbn [req slots set_queue].
    rewrite Hc, !ids_app. occ_lia.
  - intros [? _]. apply Hok. split; [done|split; [done|]]. simpl. by rewrite Hl.
Qed.

(** *** Admission, the supervisor, the natives *)

Lemma admit_step {env_t} (build_env : RequestCtx chan → result env_t) w now ms c sv h res sv' h' :
  admit_request build_env w now ms c sv h = (res, (sv', h')) →
  server_step [] [] sv sv'
  ∧ match res with
    | Ok (_, c') => responder c' = responder c ∧ h' = h
    | Err _ => h' = (drop_ctx (set_admitted w (sat_sub now (enqueued_at c)) now c) h).2
    end.
Proof.
  unfold admit_request. intros H.
  assert (Hs : server_step [] [] sv sv'); [|split; [done|]].
  - assert (Ha := slots_alter (admit_slot w ms c) w sv (λ _, eq_refl) (λ _ _ H, H)).
    destruct (build_env _); injection H as <- <- <-; exact Ha.
  - destruct (build_env _); by injection H as <- <- <-.
Qed.

Lemma abort_step w s s' h h' sv :
  slots sv !! w = Some s → server_ok sv → abort_slot s h = (Returned, (s', h')) →
  ∃ l1 : list (RequestCtx chan), server_step [] l1 sv (put_slot w s' sv) ∧ heap_step (ids l1) (ids l1) h h'.
Proof.
  intros Hw [Hok _] Ha. rewrite Forall_lookup in Hok.
  destruct (abort_slot_step _ _ _ _ _ Ha (Hok _ _ Hw)) as (l1 & Hl & Hok' & Hh).
  exists l1. split; [|done]. by apply slots_put with s.
Qed.

Lemma on_one_server f sv :
  default sv (try_get (id (config sv)) (on_server (id (config sv)) f (insert sv registry_new))) = f sv.
Proof.
  unfold on_server, try_get, insert. simpl. rewrite lookup_insert_eq. simpl.
  by rewrite lookup_insert_eq.
Qed.

Lemma one_server sv : try_get (id (config sv)) (insert sv registry_new) = Some sv.
Proof. unfold try_get, insert. simpl. by rewrite lookup_insert_eq. Qed.

Lemma slot_native_step (f : WorkerSlot chan → WorkerSlot chan) w sv :
  (∀ s, lane (f s) = lane s) → (∀ b s, slot_in b s → slot_in b (f s)) →
  server_step [] [] sv
    (default sv (try_get (id (config sv)) (slot_native f (id (config sv)) w (insert sv registry_new)).2)).
Proof.
  intros Hl Hok. unfold slot_native. rewrite one_server. unfold slot.
  destruct (slots sv !! w) as [s|] eqn:Hw; cbn [snd].
  - rewrite on_one_server. apply slots_put with s; [done|by rewrite Hl|apply Hok].
  - rewrite one_server. apply server_step_refl.
Qed.

Lemma slot_in_new b : slot_in b (slot_new b : WorkerSlot chan).
Proof.
  split; [|by destruct b]. unfold slot_ok, slot_new. simpl. destruct b; [|done].
  destruct (bounded_spec (RequestCtx chan) LANE_DEPTH) as (_ & ? & _ & ?).
  split_and!; [|done..]. apply chan_ok_bounded. unfold LANE_DEPTH. lia.
Qed.

Lemma lane_new b : lane (slot_new b : WorkerSlot chan) = [].
Proof. destruct b; [|done]. apply (bounded_spec (RequestCtx chan) LANE_DEPTH). Qed.

Lemma close_req_step sv : server_step [] [] sv (close_req sv).
Proof.
  unfold close_req. destruct (req_tx sv); [|apply server_step_refl].
  destruct (drop_step sv) as (Hp & Hok & Hg). split; [exact Hp|split; [exact Hok|exact Hg]].
Qed.

(** What touches neither the queue, nor the slots, nor the gauge. *)
Lemma server_step_frame sv sv' :
  config sv' = config sv → req sv' = req sv → slots sv' = slots sv →
  c_in_flight (counters sv') = c_in_flight (counters sv) →
  server_step [] [] sv sv'.
Proof.
  intros Hc Hq Hs Hg. apply server_step_perm; [|unfold server_ok; by rewrite Hc, Hq, Hs|by split].
  unfold waiting. by rewrite Hq, Hs.
Qed.

Lemma await_step i sv h resp sv' : await_head i sv h = (resp, sv') → server_step [] [] sv sv'.
Proof.
  unfold await_head. intros H. repeat case_match; simplify_eq; try apply server_step_refl;
    by apply server_step_frame.
Qed.

Lemma on_one_server_step (f : ServerInner chan → ServerInner chan) sv :
  server_step [] [] sv (f sv) →
  server_step [] [] sv
    (default sv (try_get (id (config sv)) (on_server (id (config sv)) f (insert sv registry_new)))).
Proof. by rewrite on_one_server. Qed.

Lemma register_step sv :
  server_step [] [] sv
    (default sv (try_get (id (config sv)) (register_worker_native (id (config sv)) (insert sv registry_new)).2)).
Proof.
  unfold register_worker_native, get. cbn [servers insert]. rewrite lookup_insert_eq.
  cbn [register_worker snd]. apply on_one_server_step.
  apply server_step_perm; [|intros [H ?]; split; [|done]|done].
  - unfold waiting. simpl. rewrite bind_app. simpl. by rewrite lane_new, !app_nil_r.
  - simpl. apply Forall_app. split; [done|]. apply Forall_singleton, slot_in_new.
Qed.

Lemma close_queue_step sv :
  server_step [] [] sv
    (default sv (try_get (id (config sv)) (close_queue (id (config sv)) (insert sv registry_new)))).
Proof.
  apply on_one_server_step. refine (server_step_trans [] [] _ _ _ (close_req_step sv) _).
  apply (slots_fmap close_lane); [apply lane_of_close_lane|apply slot_in_close].
Qed.

Lemma native_step k sv : server_step [] [] sv (run_native k sv).
Proof.
  unfold run_native.
  destruct k; [| |apply close_queue_step| |apply register_step
    |by apply (slot_native_step (set_quarantined true))|by apply (slot_native_step retire)
    |by apply (slot_native_step reset)|..];
    apply on_one_server_step; try (by apply server_step_frame).
  by apply (slots_fmap (set_interrupted true)).
Qed.
End server_steps.

(** ** Every state is well formed *)

Section correctness.
Context {chan oneshot : Type → Type}
  `{!Flume chan, !FlumeSpec chan, !Oneshot oneshot, !OneshotSpec oneshot}.
Context {env_t : Type} (build_env : RequestCtx chan → result env_t).
Variable to_str : string → option string.
Implicit Types (s : System chan oneshot) (h : heap chan oneshot).

Notation sys_step := (sys_step build_env to_str).

(** The gauge counts the handlers that run. *)
Definition gauge_ok s : Prop :=
  c_in_flight (counters (server s)) = wrap64 (Z.of_nat (length (clients s))).

(** Lanes and queue are within bounds. A request is in one place at most, and
    the strong count of its responder is the number of its owners: that place
    and its forwarder. A responder between calls is unclaimed with its sender
    or settled, and a request nobody owns has its outcome. *)
Record sys_ok s : Prop := {
  ok_server : server_ok (server s);
  ok_once : ∀ i, (occ i (ids (owned s)) ≤ 1)%nat;
  ok_counts : ∀ i n r, cells s !! i = Some (n, r) →
    n = (occ i (ids (owned s)) + occ i (forwarders s))%nat;
  ok_known : ∀ i, cells s !! i = None → occ i (ids (owned s)) = 0%nat ∧ occ i (forwarders s) = 0%nat;
  ok_cells : ∀ i n r, cells s !! i = Some (n, r) →
    cell_ok r ∧ (occ i (ids (owned s)) = 0%nat → outcome_of r ≠ OsPending);
  ok_gauge : gauge_ok s;
}.

(** What a step other than an arrival does: the contexts [gone] are dropped,
    the forwarders [fw] end, and requests only move on. *)
Record effect (gone fw : list nat) s s' : Prop := {
  ef_server : server_ok (server s) → server_ok (server s');
  ef_owned : ∀ i, occ i (ids (owned s)) = (occ i gone + occ i (ids (owned s')))%nat;
  ef_forwarders : ∀ i, occ i (forwarders s) = (occ i fw + occ i (forwarders s'))%nat;
  ef_cells : heap_step (gone ++ fw) gone (cells s) (cells s');
  ef_gauge : gauge_ok s → gauge_ok s';
  ef_config : config (server s') = config (server s);
  ef_entering : ∀ i, (occ i (ids (entering s')) ≤ occ i (ids (entering s)))%nat;
  ef_queued : ∀ i, (occ i (ids (entering s')) + occ i (ids (waiting (server s')))
                    ≤ occ i (ids (entering s)) + occ i (ids (waiting (server s))))%nat;
}.

Lemma effect_ok gone fw s s' : effect gone fw s s' → sys_ok s → sys_ok s'.
Proof.
  intros E K. split.
  - by apply (ef_server _ _ _ _ E), ok_server.
  - intros i. pose proof (ef_owned _ _ _ _ E i). pose proof (ok_once _ K i). lia.
  - intros i n' r' Hi. pose proof (ef_cells _ _ _ _ E i) as Hc. rewrite Hi in Hc.
    destruct (cells s !! i) as [[n r]|] eqn:Hr; [|done]. destruct Hc as [-> _].
    pose proof (ef_owned _ _ _ _ E i). pose proof (ef_forwarders _ _ _ _ E i).
    pose proof (ok_counts _ K _ _ _ Hr). rewrite occ_app. lia.
  - intros i Hi. pose proof (ef_cells _ _ _ _ E i) as Hc. rewrite Hi in Hc.
    destruct (cells s !! i) as [[n r]|] eqn:Hr; [done|].
    pose proof (ef_owned _ _ _ _ E i). pose proof (ef_forwarders _ _ _ _ E i).
    pose proof (ok_known _ K _ Hr). lia.
  - intros i n' r' Hi. pose proof (ef_cells _ _ _ _ E i) as Hc. rewrite Hi in Hc.
    destruct (cells s !! i) as [[n r]|] eqn:Hr; [|done]. destruct Hc as [_ Hc].
    destruct (ok_cells _ K _ _ _ Hr) as [Hok Hset]. destruct (Hc Hok) as (Hok' & Hle & Hans).
    split; [done|]. intros H0. pose proof (ef_owned _ _ _ _ E i) as Ho.
    destruct (decide (i ∈ gone)) as [Hg|Hg%occ_not_elem_of]; [by apply Hans|].
    eapply outcome_le_settled; [done|]. apply Hset. lia.
  - apply (ef_gauge _ _ _ _ E), ok_gauge, K.
Qed.

(** *** Each step's effect *)

(** Counting the places of a request before and after a step. *)
Ltac count_places i :=
  unfold owned, working, entering; cbn [server placing sending taken handles forwarders];
  repeat match goal with
         | H : server_step _ _ _ _ |- _ => let Hp := fresh "Hp" in pose proof (proj1 H i) as Hp; clear H
         end;
  rewrite ?ids_app, ?ids_cons, ?ids_app in *; occ_lia.

(** A step that leaves the heap, the forwarders and the handlers alone. *)
Lemma effect_server sv sv' h pl se ta ha pl' se' ta' ha' fw cl added removed :
  server_step added removed sv sv' →
  (∀ i, occ i (ids (pl ++ se)) = occ i (ids (added ++ pl' ++ se')))%nat →
  (∀ i, occ i (ids (removed ++ ta ++ ha)) = occ i (ids (ta' ++ ha')))%nat →
  effect [] [] (MkSystem sv h pl se ta ha fw cl) (MkSystem sv' h pl' se' ta' ha' fw cl).
Proof.
  intros Hs Ha Hr. split; [apply Hs| |done|apply heap_step_refl| |apply Hs| |].
  - intros i. specialize (Ha i). specialize (Hr i). count_places i.
  - unfold gauge_ok. cbn. by rewrite (proj1 (proj2 (proj2 Hs))).
  - intros i. specialize (Ha i). clear Hr. count_places i.
  - intros i. specialize (Ha i). clear Hr. count_places i.
Qed.

(** A step that drops one context. *)
Lemma effect_drop sv sv' h pl se ta ha pl' se' ta' ha' fw cl (c : RequestCtx chan) :
  server_step [] [] sv sv' →
  (∀ i, occ i (ids (pl ++ se ++ ta ++ ha)) = occ i (ids (c :: pl' ++ se' ++ ta' ++ ha')))%nat →
  (∀ i, occ i (ids (pl' ++ se')) ≤ occ i (ids (pl ++ se)))%nat →
  effect [responder c] [] (MkSystem sv h pl se ta ha fw cl)
    (MkSystem sv' (drop_ctx c h).2 pl' se' ta' ha' fw cl).
Proof.
  intros Hs Ha Hr. split; [apply Hs| |done|apply heap_step_drop_ctx| |apply Hs| |].
  - intros i. specialize (Ha i). clear Hr. count_places i.
  - unfold gauge_ok. cbn. by rewrite (proj1 (proj2 (proj2 Hs))).
  - intros i. specialize (Hr i). clear Ha. count_places i.
  - intros i. specialize (Hr i). clear Ha. count_places i.
Qed.

(** A step that changes one cell's responder. *)
Lemma effect_cell sv h pl se ta ha fw cl i n r r' :
  h !! i = Some (n, r) → evolves r r' →
  effect [] [] (MkSystem sv h pl se ta ha fw cl) (MkSystem sv (store i r' h) pl se ta ha fw cl).
Proof.
  intros Hi Hr. split; try done.
  eapply heap_step_store; [done| |by intros j ?%elem_of_nil].
  intros Hok. destruct (Hr Hok) as [? ?]. split_and!; [done..|]. by intros ?%elem_of_nil.
Qed.

(** The step is an arrival. *)
Definition arrival s s' : Prop :=
  ∃ i (c : RequestCtx chan), cells s !! i = None ∧ responder c = i
    ∧ server_step [] [] (server s) (set_counters (counters (server s)) (server s'))
    ∧ c_in_flight (counters (server s')) = c_in_flight (counters (server s)) +w 1
    ∧ cells s' = <[i := ((if body_rx c then 2 else 1)%nat, responder_new)]> (cells s)
    ∧ placing s' = c :: placing s ∧ sending s' = sending s ∧ working s' = working s
    ∧ forwarders s' = (if body_rx c then [i] else []) ++ forwarders s ∧ clients s' = i :: clients s.

Lemma arrive_arrival sv h pl se ta ha fw cl rq peer lcl rid now c sv' h' :
  h !! rid = None → c = make_ctx to_str sv rq peer lcl rid now → enter rid c sv h = (sv', h') →
  arrival (MkSystem sv h pl se ta ha fw cl)
    (MkSystem sv' h' (c :: pl) se ta ha ((if body_rx c then [rid] else []) ++ fw) (rid :: cl)).
Proof.
  intros Hr Hc. unfold enter. intros [= <- <-].
  exists rid, c. split; [done|]. split; [by subst c|]. split; [by apply server_step_frame|].
  by split_and!.
Qed.

Lemma leave_effect sv h pl se ta ha fw l1 i l2 sv' h' :
  leave i sv h = (sv', h') →
  effect [] [] (MkSystem sv h pl se ta ha fw (l1 ++ i :: l2)) (MkSystem sv' h' pl se ta ha fw (l1 ++ l2)).
Proof.
  intros [= <- <-]. split; [by intros H|done|done| | |done|done|done]; cbn.
  - intros j. destruct (decide (j = i)) as [->|Hne].
    + rewrite lookup_alter_eq. destruct (h !! i) as [[n r]|]; [|done]. split; [occ_lia|].
      intros Hok. destruct (hangup_evolves r Hok). split_and!; [done..|]. by intros ?%elem_of_nil.
    + rewrite lookup_alter_ne by done. destruct (h !! j) as [[n r]|]; [|done]. split; [occ_lia|].
      intros Hok. split_and!; [done|by left|]. by intros ?%elem_of_nil.
  - unfold gauge_ok. cbn. intros ->. rewrite !length_app. cbn. unfold u64_sub.
    autorewrite with kino_u64. f_equal. lia.
Qed.

Lemma abort_effect sv h pl se ta ha fw cl w sl sl' h' :
  slots sv !! w = Some sl → server_ok sv → abort_slot sl h = (Returned, (sl', h')) →
  ∃ gone, effect gone [] (MkSystem sv h pl se ta ha fw cl) (MkSystem (put_slot w sl' sv) h' pl se ta ha fw cl).
Proof.
  intros Hw Hok Ha. destruct (abort_step _ _ _ _ _ _ Hw Hok Ha) as (l1 & Hs & Hh).
  exists (ids l1). split; [apply Hs| |done|by rewrite app_nil_r| |apply Hs| |].
  - intros i. count_places i.
  - unfold gauge_ok. cbn. done.
  - intros i. done.
  - intros i. count_places i.
Qed.

Lemma sys_step_effect s s' :
  sys_step s s' → sys_ok s → arrival s s' ∨ ∃ gone fw, effect gone fw s s'.
Proof.
  intros Hstep K. destruct Hstep; [left; by eapply arrive_arrival|right; pose proof (ok_server _ K) as Hok; cbn in Hok..].
  - pose proof (dispatch_step _ _ _ _ Hok H0) as Hs. do 2 eexists.
    apply (effect_server _ _ _ _ _ _ _ _ _ _ _ _ _ [c] []); [done|intros i; count_places i|done].
  - pose proof (dispatch_step _ _ _ _ Hok H0) as Hs. do 2 eexists.
    apply (effect_server _ _ _ _ _ _ _ _ _ _ _ _ _ [] []); [by destruct d|done|done].
  - do 2 eexists. apply (effect_server _ _ _ _ _ _ _ _ _ _ _ _ _ [] []); [apply clone_step|intros i; count_places i|done].
  - pose proof (send_step _ _ _ H Hok H0) as Hs. do 2 eexists.
    apply (effect_server _ _ _ _ _ _ _ _ _ _ _ _ _ [c] []); [done|intros i; count_places i|done].
  - do 2 eexists. apply (effect_server _ _ _ _ _ _ _ _ _ _ _ _ _ [] []); [apply drop_step|intros i; count_places i|done].
  - exists [responder c], []. replace h' with (drop_ctx c h).2 by (by rewrite H).
    apply effect_drop; [by apply server_step_frame|intros i; count_places i..].
  - exists [responder c], []. replace h' with (drop_ctx c h).2 by (by rewrite H).
    apply effect_drop; [apply server_step_refl|intros i; count_places i..].
  - pose proof (checkout_step _ _ _ _ H) as Hs. do 2 eexists.
    apply (effect_server _ _ _ _ _ _ _ _ _ _ _ _ _ [] (taken_of t)); [done|done|intros i; count_places i].
  - pose proof (queue_tick_step _ _ _ _ H0) as Hs. do 2 eexists.
    eapply (effect_server _ _ _ _ _ _ _ _ _ _ _ _ _ []); [done|done|intros i; count_places i].
  - pose proof (lane_tick_step _ _ _ _ H) as Hs. do 2 eexists.
    eapply (effect_server _ _ _ _ _ _ _ _ _ _ _ _ _ []); [done|done|intros i; count_places i].
  - do 2 eexists. apply (effect_server _ _ _ _ _ _ _ _ _ _ _ _ _ [] []); [apply unpark_step|done|done].
  - apply admit_step in H as (Hs & Hc & ->). do 2 eexists.
    apply (effect_server _ _ _ _ _ _ _ _ _ _ _ _ _ [] []); [done|done|].
    intros i. rewrite !ids_app, !ids_cons, Hc. occ_lia.
  - apply admit_step in H as (Hs & ->). eexists [responder c], [].
    set (c' := set_admitted _ _ _ c). change (responder c) with (responder c').
    apply effect_drop; [done|intros i; change (ids (c' :: ?x)) with (ids (c :: x)); count_places i..].
  - do 2 eexists. eapply effect_cell; [done|]. intros Hr. by destruct (call_evolves o r Hr) as (? & ? & _).
  - do 2 eexists. apply (effect_server _ _ _ _ _ _ _ _ _ _ _ _ _ [] []); [by apply server_step_frame|done|done].
  - do 2 eexists. apply (effect_server _ _ _ _ _ _ _ _ _ _ _ _ _ [] []); [by apply server_step_frame|done|done].
  - do 2 eexists. eapply effect_cell; [done|]. by apply evolves_same, stream_op_same.
  - exists [responder c], []. replace h' with (drop_ctx c h).2 by (by rewrite H).
    apply effect_drop; [apply server_step_refl|intros i; count_places i..].
  - destruct (abort_effect _ _ pl se ta ha fw cl _ _ _ _ H Hok H0) as [gone E]. eauto.
  - do 2 eexists. apply (effect_server _ _ _ _ _ _ _ _ _ _ _ _ _ [] []); [apply native_step|done|done].
  - do 2 eexists. apply (effect_server _ _ _ _ _ _ _ _ _ _ _ _ _ [] []); [by eapply await_step|done|done].
  - do 2 eexists. by apply leave_effect.
  - exists [], [i]. split; try done; [intros j; cbn; occ_lia|]. apply heap_step_arc_drop.
Qed.

(** *** Preservation *)

Lemma new_cell_ok : cell_ok (responder_new : Responder chan oneshot).
Proof. split; [intros _; split; [done|left; apply os_new_spec]|done]. Qed.

(** How an arrival changes the places of the requests. *)
Lemma arrival_places s s' i c :
  responder c = i → server_step [] [] (server s) (set_counters (counters (server s)) (server s')) →
  placing s' = c :: placing s → sending s' = sending s → working s' = working s →
  ∀ j, occ j (ids (owned s')) = ((if decide (j = i) then 1 else 0) + occ j (ids (owned s)))%nat
    ∧ occ j (ids (entering s')) = ((if decide (j = i) then 1 else 0) + occ j (ids (entering s)))%nat
    ∧ occ j (ids (waiting (server s'))) = occ j (ids (waiting (server s))).
Proof.
  intros <- Hs Hp Hse Hw j. pose proof (proj1 Hs j) as Hj.
  change (waiting (set_counters _ (server s'))) with (waiting (server s')) in Hj.
  unfold owned, entering. rewrite Hp, Hse, Hw, !ids_app, ids_cons. split_and!; occ_lia.
Qed.

Lemma arrival_ok s s' : arrival s s' → sys_ok s → sys_ok s'.
Proof.
  intros (i & c & Hi & Hc & Hs & Hg & Hh & Hp & Hse & Hw & Hf & Hcl) K.
  pose proof (arrival_places _ _ _ _ Hc Hs Hp Hse Hw) as Hpl.
  destruct (ok_known _ K i Hi) as [Hi0 Hf0].
  assert (Hfw : ∀ j, occ j (forwarders s') = ((if decide (j = i) then if body_rx c then 1 else 0 else 0)
                                              + occ j (forwarders s))%nat).
  { intros j. rewrite Hf. destruct (body_rx c); occ_lia. }
  split.
  - destruct Hs as (_ & Hok & _). exact (Hok (ok_server _ K)).
  - intros j. destruct (Hpl j) as (-> & _). pose proof (ok_once _ K j). case_decide; [subst j|]; lia.
  - intros j n r. rewrite Hh. destruct (Hpl j) as (-> & _). rewrite Hfw.
    case_decide as Hji; [subst j; rewrite lookup_insert_eq|rewrite lookup_insert_ne by done].
    + intros [= <- <-]. rewrite Hi0, Hf0. by destruct (body_rx c).
    + intros Hj. by rewrite (ok_counts _ K _ _ _ Hj).
  - intros j. rewrite Hh. destruct (Hpl j) as (-> & _). rewrite Hfw.
    case_decide as Hji; [subst j; by rewrite lookup_insert_eq|rewrite lookup_insert_ne by done].
    intros Hj. apply (ok_known _ K _ Hj).
  - intros j n r. rewrite Hh. destruct (Hpl j) as (-> & _).
    case_decide as Hji; [subst j; rewrite lookup_insert_eq|rewrite lookup_insert_ne by done].
    + intros [= <- <-]. split; [apply new_cell_ok|lia].
    + intros Hj. apply (ok_cells _ K _ _ _ Hj).
  - unfold gauge_ok. rewrite Hg, Hcl, (ok_gauge _ K). unfold u64_add. autorewrite with kino_u64.
    f_equal. simpl. lia.
Qed.

(** The settings never change. *)
Lemma sys_step_config s s' : sys_step s s' → sys_ok s → config (server s') = config (server s).
Proof.
  intros Hs K. destruct (sys_step_effect _ _ Hs K) as [(i & c & _ & _ & Ha & _)|(gone & fw & E)];
    [apply Ha|apply E].
Qed.

Lemma sys_ok_step s s' : sys_step s s' → sys_ok s → sys_ok s'.
Proof.
  intros Hs K. destruct (sys_step_effect _ _ Hs K) as [Ha|(gone & fw & E)];
    [by eapply arrival_ok|by eapply effect_ok].
Qed.

(** The server before its first request. *)
Definition fresh_server (sv : ServerInner chan) : Prop :=
  server_ok sv ∧ waiting sv = [] ∧ c_in_flight (counters sv) = 0.

Lemma sys_ok_init sv : fresh_server sv → sys_ok (sys_init sv).
Proof.
  intros (Hok & Hw & Hg).
  assert (Ho : owned (sys_init (oneshot:=oneshot) sv) = []) by (unfold owned; cbn; by rewrite Hw).
  split; [done|..]; unfold gauge_ok; rewrite ?Ho; try done.
  intros i. unfold occ. simpl. lia.
Qed.

Lemma sys_ok_reachable sv s : fresh_server sv → steps sys_step (sys_init sv) s → sys_ok s.
Proof.
  intros Hf Hs. eapply (steps_invariant sys_step sys_ok); [apply sys_ok_step|done|by apply sys_ok_init].
Qed.

(** *** Refinement *)

Definition stage_of s (i : nat) : stage :=
  if decide (i ∈ ids (entering s)) then Entering
  else if decide (i ∈ ids (waiting (server s))) then Queued
  else if decide (i ∈ ids (working s)) then Working
  else Finished.

(** What the specification sees of a state. *)
Definition spec_of s : Spec :=
  map_imap (λ i '(_, r), Some (stage_of s i, outcome_of r)) (cells s).

Lemma lookup_spec_of s i :
  spec_of s !! i = (λ '(_, r), (stage_of s i, outcome_of r)) <$> cells s !! i.
Proof. unfold spec_of. rewrite map_lookup_imap. by destruct (cells s !! i) as [[n r]|]. Qed.

Lemma stage_effect gone fw s s' i : effect gone fw s s' → stage_le (stage_of s i) (stage_of s' i).
Proof.
  intros E. pose proof (ef_owned _ _ _ _ E i) as Ho. pose proof (ef_entering _ _ _ _ E i).
  pose proof (ef_queued _ _ _ _ E i). unfold owned in Ho. rewrite !ids_app, !occ_app in Ho.
  unfold stage_of, stage_le.
  repeat case_decide; simpl; rewrite ?occ_elem_of in *; lia.
Qed.

Lemma stage_finished s i : stage_of s i = Finished → occ i (ids (owned s)) = 0%nat.
Proof.
  unfold stage_of, owned. repeat case_decide; try done. intros _.
  rewrite !ids_app, !occ_app, !occ_not_elem_of by done. done.
Qed.

Lemma effect_refines gone fw s s' :
  effect gone fw s s' → sys_ok s → steps spec_step (spec_of s) (spec_of s').
Proof.
  intros E K. pose proof (effect_ok _ _ _ _ E K) as K'. apply spec_steps_pointwise. intros i.
  rewrite !lookup_spec_of. pose proof (ef_cells _ _ _ _ E i) as Hc.
  destruct (cells s !! i) as [[n r]|] eqn:Hr, (cells s' !! i) as [[n' r']|] eqn:Hr'; try done.
  destruct Hc as [_ Hc]. destruct (ok_cells _ K _ _ _ Hr) as [Hok _]. destruct (Hc Hok) as (_ & Hle & _).
  simpl. apply request_evolves; [by eapply stage_effect|done|].
  intros Hf%stage_finished. right. by apply (ok_cells _ K' _ _ _ Hr').
Qed.

Lemma arrival_refines s s' : arrival s s' → sys_ok s → steps spec_step (spec_of s) (spec_of s').
Proof.
  intros (i & c & Hi & Hc & Hs & _ & Hh & Hp & Hse & Hw & _) K.
  pose proof (arrival_places _ _ _ _ Hc Hs Hp Hse Hw) as Hpl.
  replace (spec_of s') with (<[i := (Entering, OsPending)]> (spec_of s)).
  { apply steps_one, spec_arrive. by rewrite lookup_spec_of, Hi. }
  apply map_eq. intros j. rewrite lookup_spec_of, Hh. destruct (Hpl j) as (_ & He & Hq).
  destruct (decide (j = i)) as [->|Hne].
  - rewrite !lookup_insert_eq. simpl. unfold stage_of, outcome_of. cbn [head responder_new].
    rewrite os_new_spec, decide_True; [done|]. rewrite occ_elem_of. lia.
  - rewrite !lookup_insert_ne, lookup_spec_of by done.
    destruct (cells s !! j) as [[n r]|]; [|done]. simpl. do 2 f_equal. unfold stage_of.
    rewrite Hw. repeat case_decide; try done; exfalso; rewrite ?occ_elem_of in *; lia.
Qed.

Lemma sys_step_refines s s' : sys_step s s' → sys_ok s → steps spec_step (spec_of s) (spec_of s').
Proof.
  intros Hs K. destruct (sys_step_effect _ _ Hs K) as [Ha|(gone & fw & E)];
    [by eapply arrival_refines|by eapply effect_refines].
Qed.

Lemma sys_steps_refine s s' : steps sys_step s s' → sys_ok s → steps spec_step (spec_of s) (spec_of s').
Proof.
  induction 1 as [a|a b c Hab _ IH]; intros K; [constructor|].
  eapply steps_trans; [by apply sys_step_refines|]. apply IH. by eapply sys_ok_step.
Qed.

(** ** The theorems *)

Section reachable.
Variables (sv : ServerInner chan) (s : System chan oneshot).
Hypothesis Hfresh : fresh_server sv.
Hypothesis Hreach : steps sys_step (sys_init sv) s.

(** C16: The whole server stays well formed. From a fresh server on, whatever
    arrives, and however dispatches, queue sends, takes, steals, admissions,
    answers, streams, aborts, natives, cancellations and timeouts interleave:
    every lane and the queue stay within their bounds, no request is in two
    places, each responder's strong count is exactly its owners, a responder
    between calls is either unclaimed with its sender or settled, and the
    gauge counts the running handlers. *)
Theorem system_well_formed : sys_ok s.
Proof. by eapply sys_ok_reachable. Qed.

(** C2: No client is left hanging. In every reachable state a request whose head
    is still pending is in exactly one place, from which it will be answered
    (the handler placing it, the queue, a lane, a worker or a Ruby handle),
    and its weak pointers still upgrade, so that a supervisor aborting its
    worker reaches it; once nothing is placed, queued, taken or held,
    everybody has an answer. *)
Theorem no_request_stranded :
  (∀ i n r, cells s !! i = Some (n, r) → outcome_of r = OsPending →
     occ i (ids (owned s)) = 1%nat ∧ upgrade i (cells s) = Some r)
  ∧ (owned s = [] → ∀ i n r, cells s !! i = Some (n, r) → outcome_of r ≠ OsPending).
Proof.
  pose proof (sys_ok_reachable _ _ Hfresh Hreach) as K. split.
  - intros i n r Hi Hp. destruct (ok_cells _ K _ _ _ Hi) as [_ Hset].
    pose proof (ok_once _ K i). pose proof (ok_counts _ K _ _ _ Hi) as Hn.
    assert (occ i (ids (owned s)) ≠ 0%nat) by (intros H0; by destruct (Hset H0)).
    split; [lia|]. unfold upgrade. rewrite Hi. destruct n; [lia|done].
  - intros Ho i n r Hi. destruct (ok_cells _ K _ _ _ Hi) as [_ Hset]. apply Hset. by rewrite Ho.
Qed.

(** C1: The server implements its specification, in which a request is only a
    stage (entering, queued, worked on, finished) and an outcome: every run of
    the detailed system is a run of the specification, from its empty state,
    and so is every continuation. In particular a request's stages only go
    forward, it is answered at most once, and it is finished only with an
    outcome. *)
Theorem system_refines_spec :
  steps spec_step ∅ (spec_of s)
  ∧ ∀ s', steps sys_step s s' → steps spec_step (spec_of s) (spec_of s').
Proof.
  split.
  - apply (sys_steps_refine (sys_init sv)); [done|by apply sys_ok_init].
  - intros s' Hs. apply sys_steps_refine; [done|by eapply sys_ok_reachable].
Qed.

(** C15: What a client was sent stays what it was sent: in no continuation of a
    reachable state does a second response replace the first, whoever else
    answers, aborts or drops the request; the head channel keeps the
    response until the front-end lets go of it. *)
Theorem answer_never_replaced s' i n r x :
  cells s !! i = Some (n, r) → outcome_of r = OsSent x → steps sys_step s s' →
  ∃ n' r', cells s' !! i = Some (n', r') ∧ (outcome_of r' = OsSent x ∨ outcome_of r' = OsDeaf).
Proof.
  intros Hi Hx Hs. pose proof (sys_ok_reachable _ _ Hfresh Hreach) as K.
  pose proof (sys_steps_refine _ _ Hs K) as Hspec.
  destruct (spec_answer_kept _ _ i (stage_of s i) x Hspec) as (st' & o & Hl & _ & Ho).
  { by rewrite lookup_spec_of, Hi, <-Hx. }
  rewrite lookup_spec_of in Hl. destruct (cells s' !! i) as [[n' r']|]; simplify_eq/=. eauto.
Qed.
End reachable.
End correctness.

(** ** A request's life *)

Definition plain_request : HttpRequest := MkRequest "GET" (MkUri "/" None None) HTTP_11 [] true.

Definition plain_ctx : RequestCtx ListChan.t :=
  make_ctx Some capped_server plain_request (MkSocketAddr (V4 10 0 0 1) 5) (MkSocketAddr (V4 10 0 0 2) 80) 1 0.

Notation sample_step := (sys_step (chan:=ListChan.t) (oneshot:=oneshot_state) (λ _, Ok tt) Some).

Lemma capped_fresh : fresh_server capped_server.
Proof. split; [split; [apply Forall_nil_2|split; vm_compute; lia]|]. split; reflexivity. Defined.

(** It arrives, is queued, taken, admitted, answered and released. *)
Lemma sample_run :
  ∃ sv h, steps sample_step (sys_init capped_server) (MkSystem sv h [] [] [] [] [] [1%nat])
    ∧ (∃ n r, h !! 1%nat = Some (n, r) ∧ n = 0%nat ∧ outcome_of r = OsSent (plain_response 200 "hi"))
    ∧ c_served (counters sv) = 1 ∧ c_in_flight (counters sv) = 1 ∧ waiting sv = [].
Proof.
  do 2 eexists. split.
  - eapply steps_cons; [apply (sys_arrive _ _ capped_server ∅ [] [] [] [] [] [] plain_request (MkSocketAddr (V4 10 0 0 1) 5)
        (MkSocketAddr (V4 10 0 0 2) 80) 1 0 plain_ctx);
      reflexivity|].
    eapply steps_cons; [apply (sys_open _ _ _ _ [] plain_ctx []); reflexivity|].
    eapply steps_cons; [apply (sys_send _ _ _ _ _ [] plain_ctx []); [reflexivity|vm_compute; reflexivity]|].
    eapply steps_cons; [apply (sys_native _ _ _ _ _ _ _ _ _ _ NRegister)|].
    eapply steps_cons; [apply (sys_take _ _ _ _ _ _ _ _ _ _ 0); vm_compute; reflexivity|].
    eapply steps_cons; [apply (sys_admit _ _ _ _ _ _ [] plain_ctx [] _ _ _ 0 0 0 tt); vm_compute; reflexivity|].
    eapply steps_cons; [eapply (sys_call _ _ _ _ _ _ _ [] _ [] _ _ (OpRespond (plain_response 200 "hi")));
      [vm_compute; reflexivity|done]|].
    eapply steps_cons; [eapply (sys_release _ _ _ _ _ _ _ [] _ []); vm_compute; reflexivity|].
    apply steps_refl.
  - split; [|by split_and!; vm_compute]. do 2 eexists. split; [vm_compute; reflexivity|].
    split; reflexivity.
Defined.

Example system_well_formed_witness :
  ∃ s, steps sample_step (sys_init capped_server) s ∧ sys_ok s ∧ c_served (counters (server s)) = 1.
Proof.
  destruct sample_run as (sv & h & Hs & _ & Hc & _). eexists. split; [exact Hs|]. split; [|exact Hc].
  exact (system_well_formed _ _ _ _ capped_fresh Hs).
Defined.

Example no_request_stranded_witness :
  ∃ s, steps sample_step (sys_init capped_server) s ∧ owned s = []
    ∧ ∃ n r, cells s !! 1%nat = Some (n, r) ∧ outcome_of r ≠ OsPending.
Proof.
  destruct sample_run as (sv & h & Hs & (n & r & Hi & _) & _ & _ & Hw).
  assert (Ho : owned (MkSystem sv h [] [] [] [] [] [1%nat]) = []) by (unfold owned; simpl; by rewrite Hw).
  eexists. split; [exact Hs|]. split; [exact Ho|]. exists n, r. split; [exact Hi|].
  exact (proj2 (no_request_stranded _ _ _ _ capped_fresh Hs) Ho _ _ _ Hi).
Defined.

(** The sample run is a run of the specification that finishes request 1. *)
Example system_refines_spec_witness :
  ∃ a, steps spec_step ∅ a ∧ a !! 1%nat = Some (Finished, OsSent (plain_response 200 "hi")).
Proof.
  destruct sample_run as (sv & h & Hs & (n & r & Hi & _ & Ho) & _ & _ & Hw).
  eexists. split; [exact (proj1 (system_refines_spec _ _ _ _ capped_fresh Hs))|].
  rewrite lookup_spec_of. cbn [cells]. rewrite Hi. cbn [fmap option_fmap option_map]. rewrite Ho.
  unfold stage_of. simpl. by rewrite Hw.
Defined.

(** The client then goes; nobody has replaced its response. *)
Example answer_never_replaced_witness :
  ∃ s s' n r, steps sample_step s s' ∧ clients s' = []
    ∧ cells s' !! 1%nat = Some (n, r)
    ∧ (outcome_of r = OsSent (plain_response 200 "hi") ∨ outcome_of r = OsDeaf).
Proof.
  destruct sample_run as (sv & h & Hs & (n & r & Hi & _ & Ho) & _).
  pose (s := MkSystem sv h [] [] [] [] [] ([] ++ 1%nat :: [])).
  destruct (leave 1%nat sv h) as [sv' h'] eqn:Hl.
  assert (Hs' : steps sample_step s (MkSystem sv' h' [] [] [] [] [] ([] ++ [])))
    by (apply steps_one; by apply sys_leave).
  destruct (answer_never_replaced _ _ _ s capped_fresh Hs _ _ n r _ Hi Ho Hs') as (n' & r' & Hi' & Ho').
  exists s. do 3 eexists. split; [exact Hs'|]. split; [reflexivity|]. split; [exact Hi'|exact Ho'].
Defined.
