(* ===== verification/Progress.v ===== *)
(** No deadlock: from every state the server can reach, it can answer every
    request by steps of its own, its clients staying connected. *)

From S2P Require Import Prelude Channels Gvl Response Request Registry Dispatch Queue Lifecycle.
From S2P Require Import Outcomes Admission System.

(** ** Pending requests *)

Section progress.
Context {chan oneshot : Type → Type}
  `{!Flume chan, !FlumeSpec chan, !Oneshot oneshot, !OneshotSpec oneshot}.
Context {env_t : Type} (build_env : RequestCtx chan → result env_t).
Variable to_str : string → option string.
Implicit Types (s : System chan oneshot) (h : heap chan oneshot) (sv : ServerInner chan)
  (c : RequestCtx chan) (l : list (RequestCtx chan)).

Notation sys_step := (sys_step build_env to_str).

Definition is_pending h (i : nat) : bool :=
  match h !! i with
  | Some (_, r) => match outcome_of r with OsPending => true | _ => false end
  | None => false
  end.

(** How many of the contexts wait for their answer. *)
Definition pending_in h l : nat := sum_list_with (λ c, if is_pending h (responder c) then 1 else 0)%nat l.
#[local] Arguments pending_in h l : simpl never.

(** Somebody can take what is queued: every lane has its worker, the shared
    queue at least one. *)
Definition staffed sv : Prop := lanes (config sv) = true ∨ slots sv ≠ [].

Lemma is_pending_spec h i : is_pending h i = true ↔ ∃ n r, h !! i = Some (n, r) ∧ outcome_of r = OsPending.
Proof.
  unfold is_pending. destruct (h !! i) as [[n r]|]; split; try done.
  - destruct (outcome_of r) eqn:Ho; [eauto|done..].
  - by intros (? & ? & [= <- <-] & ->).
  - by intros (? & ? & ? & _).
Qed.

Lemma pending_in_app h l1 l2 : pending_in h (l1 ++ l2) = (pending_in h l1 + pending_in h l2)%nat.
Proof. apply sum_list_with_app. Qed.

Lemma pending_in_cons h c l :
  pending_in h (c :: l) = ((if is_pending h (responder c) then 1 else 0) + pending_in h l)%nat.
Proof. done. Qed.

(** No request becomes pending. *)
Definition settles h h' : Prop := ∀ i, is_pending h' i = true → is_pending h i = true.

Lemma pending_in_settles h h' l : settles h h' → (pending_in h' l ≤ pending_in h l)%nat.
Proof.
  intros H. induction l as [|c l IH]; [done|]. rewrite !pending_in_cons. specialize (H (responder c)).
  destruct (is_pending h' (responder c)); [rewrite H by done|]; destruct (is_pending h (responder c)); lia.
Qed.

(** Dropping a pending request's context answers it at once: nothing has been
    streamed for it. *)
Lemma drop_answers c h :
  is_pending h (responder c) = true → (∀ i n r, h !! i = Some (n, r) → cell_ok r) →
  ∃ h', drop_ctx c h = (Returned, h') ∧ is_pending h' (responder c) = false ∧ settles h h'.
Proof.
  intros (n & r & Hi & Ho)%is_pending_spec Hok. specialize (Hok _ _ _ Hi).
  destruct (call_evolves OpAbort r Hok) as (_ & _ & Hne). unfold drop_ctx. rewrite Hi.
  assert (Hr : (respond_500_if_unsent r).1 = Returned).
  { unfold respond_500_if_unsent. destruct (claim_cases r Hok) as [[_ Hr]|(r' & -> & _)]; [|done].
    by destruct (proj2 Hok Hr). }
  cbn [call] in Hne. destruct (respond_500_if_unsent r) as [b r']. cbn [fst snd] in *. subst b.
  eexists. split; [done|].
  assert (Hl : ∀ j, arc_drop (responder c) (store (responder c) r' h) !! j
                    = if decide (j = responder c) then Some (pred n, r') else h !! j).
  { intros j. unfold arc_drop, store. case_decide as Hj; [subst j|].
    - by rewrite !lookup_alter_eq, Hi.
    - by rewrite !lookup_alter_ne. }
  split.
  - unfold is_pending. rewrite Hl, decide_True by done. by destruct (outcome_of r').
  - intros j. unfold is_pending. rewrite Hl. case_decide as Hj; [|done].
    destruct (outcome_of r') eqn:Hr'; try done.
Qed.

(** ** Taking what waits *)

Lemma checkout_ready w sv (sl : WorkerSlot chan) :
  slots sv !! w = Some sl →
  (lane sl ≠ [] ∨ (lane_rx sl = None ∧ contents (req sv) ≠ [])) →
  ∃ c sv', checkout true w [] sv = (TakeEnded (Some c), sv')
    ∧ config sv' = config sv ∧ length (slots sv') = length (slots sv).
Proof.
  intros Hw Hr. unfold checkout, block_take. simpl. rewrite list_lookup_alter_eq, Hw. simpl.
  destruct Hr as [Hl|[Hn Hq]].
  - unfold lane in Hl. destruct (lane_rx sl) as [rx|]; [|done]. unfold lane_take.
    destruct (contents rx) as [|x k] eqn:Hc; [done|].
    destruct (try_recv_ok _ _ _ _ Hc) as (rx' & -> & _). do 2 eexists. split; [done|].
    split; [done|]. simpl. by rewrite length_insert, length_alter.
  - rewrite Hn. destruct (contents (req sv)) as [|x k] eqn:Hc; [done|].
    destruct (try_recv_ok _ _ _ _ Hc) as (q' & -> & _). do 2 eexists. split; [done|].
    split; [done|]. simpl. by rewrite length_alter.
Qed.

Lemma no_lanes (l : list (WorkerSlot chan)) :
  (∀ w sl, l !! w = Some sl → lane_rx sl = None) → l ≫= lane = [].
Proof.
  induction l as [|sl l IH]; intros Hn; [done|]. simpl. unfold lane at 1.
  rewrite (Hn 0%nat sl eq_refl). apply IH. intros w. exact (Hn (S w)).
Qed.

(** Whatever waits, some worker's take gets one of it without blocking. *)
Lemma take_ready sv :
  server_ok sv → staffed sv → waiting sv ≠ [] →
  ∃ w c sv', checkout true w [] sv = (TakeEnded (Some c), sv') ∧ staffed sv'
    ∧ length (waiting sv) = S (length (waiting sv')).
Proof.
  intros (Hslots & _ & Hempty) Hst Hwait. rewrite Forall_lookup in Hslots.
  assert (Hw : ∃ w sl, slots sv !! w = Some sl
    ∧ (lane sl ≠ [] ∨ (lane_rx sl = None ∧ contents (req sv) ≠ []))).
  { destruct (lanes (config sv)) eqn:Hl.
    - unfold waiting in Hwait. rewrite (Hempty eq_refl) in Hwait. simpl in Hwait.
      destruct (slots sv ≫= lane) as [|c l] eqn:Hb; [done|].
      assert (Hc : c ∈ slots sv ≫= lane) by (rewrite Hb; left).
      apply list_elem_of_bind in Hc as (sl & Hc & [w Hw]%list_elem_of_lookup).
      exists w, sl. split; [done|]. left. by intros H; rewrite H in Hc; apply elem_of_nil in Hc.
    - assert (Hnone : ∀ w sl, slots sv !! w = Some sl → lane_rx sl = None).
      { intros w sl [_ Hb]%Hslots. by destruct (lane_rx sl). }
      destruct Hst as [?|Hne]; [congruence|]. destruct (slots sv) as [|sl l] eqn:Hsl; [done|].
      exists 0%nat, sl. split; [done|]. right. split; [by apply (Hnone 0%nat)|].
      intros Hq. apply Hwait. unfold waiting. rewrite Hq, Hsl, no_lanes; done. }
  destruct Hw as (w & sl & Hw & Hready).
  destruct (checkout_ready w sv sl Hw Hready) as (c & sv' & Hco & Hcfg & Hlen).
  exists w, c, sv'. split; [done|]. split.
  - destruct Hst as [?|Hne]; [left; congruence|right]. intros H. rewrite H in Hlen.
    by destruct (slots sv).
  - destruct (checkout_step _ _ _ _ Hco) as (Hocc & _). cbn [taken_of ids] in Hocc.
    assert (Hp : waiting sv ≡ₚ c :: waiting sv').
    { unfold checkout in Hco. simpl in Hco. set (sv0 := set_slots _ sv) in Hco.
      assert (H0 : waiting sv0 = waiting sv).
      { unfold waiting. simpl. by rewrite lanes_alter. }
      destruct (block_take_took (λ l, l = waiting sv0) w [] sv0 (Some c) sv') as (l & -> & Hl); try done.
      - by intros f v ?%elem_of_nil.
      - by rewrite <-H0. }
    by rewrite Hp.
Qed.

(** ** One step nearer *)

(** What is left to do: contexts come back from the queue's sender, are taken
    from the queue, and are dropped where they then are. *)
Definition work_left s : nat :=
  4 * length (sending s) + 3 * length (waiting (server s)) + 2 * pending_in (cells s) (taken s)
  + pending_in (cells s) (placing s) + pending_in (cells s) (handles s).

Definition nearer s s' : Prop :=
  (work_left s' < work_left s)%nat ∧ clients s' = clients s ∧ staffed (server s').

Lemma pending_owned s i : sys_ok s → is_pending (cells s) i = true → ∃ c, c ∈ owned s ∧ responder c = i.
Proof.
  intros K (n & r & Hi & Ho)%is_pending_spec. destruct (ok_cells _ K _ _ _ Hi) as [_ Hset].
  destruct (decide (occ i (ids (owned s)) = 0%nat)) as [H0|H0]; [by destruct (Hset H0)|].
  apply occ_elem_of in H0. unfold ids in H0. apply list_elem_of_fmap in H0 as (c & -> & Hc). eauto.
Qed.

Lemma pending_le_one h l1 c l2 :
  pending_in h (l1 ++ c :: l2) = ((if is_pending h (responder c) then 1 else 0) + pending_in h (l1 ++ l2))%nat.
Proof. rewrite !pending_in_app, pending_in_cons. lia. Qed.

Lemma admit_frame w now ms c sv h res sv' h' :
  admit_request build_env w now ms c sv h = (res, (sv', h')) →
  waiting sv' = waiting sv ∧ (staffed sv → staffed sv').
Proof.
  unfold admit_request. intros H.
  assert (sv' = set_slots (alter (admit_slot w ms c) w (slots sv)) (set_histogram
    (Histogram.record (queue_histogram sv) (wrap64 (sat_sub now (enqueued_at c) / 1000)))
    (set_counters (set_served (c_served (counters sv) +w 1) (counters sv)) sv))) as ->.
  { by destruct (build_env _); injection H as _ <- _. }
  split; [unfold waiting; simpl; by rewrite lanes_alter|].
  intros [?|Hne]; [by left|right]. simpl. intros Hn. apply (f_equal length) in Hn.
  rewrite length_alter in Hn. by destruct (slots sv).
Qed.

(** The queue's sender gives up, or a worker takes. *)
Lemma nearer_moves s :
  sys_ok s → staffed (server s) → sending s ≠ [] ∨ waiting (server s) ≠ [] →
  ∃ s', sys_step s s' ∧ nearer s s'.
Proof.
  intros K Hst Hor. destruct s as [sv h pl se ta ha fw cl]. cbn [server sending] in *.
  destruct se as [|c se].
  - destruct Hor as [?|Hw]; [done|]. destruct (take_ready sv (ok_server _ K) Hst Hw) as (w & c & sv' & Hco & Hst' & Hlen).
    eexists. split; [by eapply sys_take|]. split_and!; [|done|done]. unfold work_left. cbn.
    rewrite Hlen, pending_in_cons. destruct (is_pending h (responder c)); lia.
  - eexists. split; [apply (sys_unsend _ _ _ _ _ [] c se)|]. split_and!; [|done|done].
    assert (Hw : waiting (with_tx drop_sender sv) = waiting sv).
    { unfold waiting. simpl. by rewrite (contents_drop_sender (req sv)). }
    unfold work_left. cbn. rewrite Hw, pending_in_cons. destruct (is_pending h (responder c)); lia.
Qed.

(** Where it then is, a pending request is refused, admitted or refused an
    env, or let go of. *)
Lemma nearer_drops s i :
  sys_ok s → staffed (server s) → sending s = [] → waiting (server s) = [] →
  is_pending (cells s) i = true →
  ∃ s', sys_step s s' ∧ nearer s s'.
Proof.
  intros K Hst Hse Hw Hi. destruct (pending_owned _ _ K Hi) as (c & Hc & <-).
  assert (Hcells : ∀ i n r, cells s !! i = Some (n, r) → cell_ok r)
    by (intros ? ? ? H; apply (ok_cells _ K _ _ _ H)).
  destruct s as [sv h pl se ta ha fw cl]. cbn [server sending cells] in *. subst se.
  destruct (drop_answers c h Hi Hcells) as (h' & Hd & Hc' & Hset).
  unfold owned, entering, working in Hc. cbn in Hc. rewrite Hw, app_nil_r in Hc. simpl in Hc.
  apply elem_of_app in Hc as [Hc|Hc]; [|apply elem_of_app in Hc as [Hc|Hc]];
    apply list_elem_of_split in Hc as (l1 & l2 & ->).
  - eexists. split; [by apply (sys_refuse _ _ sv h l1 c l2)|]. split_and!; [|done|done].
    pose proof (pending_in_settles h h' (l1 ++ l2) Hset). pose proof (pending_in_settles h h' ta Hset).
    pose proof (pending_in_settles h h' ha Hset).
    unfold work_left. cbn. rewrite pending_le_one, Hi. unfold waiting in *. cbn. rewrite Hw. cbn. lia.
  - destruct (admit_request build_env 0 0 0 c sv h) as [[[e c']|e] [sv1 h1]] eqn:Ha;
      destruct (admit_frame _ _ _ _ _ _ _ _ _ Ha) as [Hw1 Hst1];
      pose proof (admit_step _ _ _ _ _ _ _ _ _ _ Ha) as [Hs Hres].
    + destruct Hres as [Hresp ->]. eexists. split; [by eapply sys_admit|]. split_and!; [|done|by apply Hst1].
      unfold work_left. cbn. rewrite Hw1, pending_le_one, pending_in_cons, Hresp, Hi. lia.
    + set (c1 := set_admitted _ _ _ c) in Hres.
      destruct (drop_answers c1 h Hi Hcells) as (h2 & Hd1 & _ & Hset1). rewrite Hd1 in Hres. simpl in Hres. subst h1.
      eexists. split; [by eapply sys_not_admitted|]. split_and!; [|done|by apply Hst1].
      pose proof (pending_in_settles h h2 (l1 ++ l2) Hset1). pose proof (pending_in_settles h h2 pl Hset1).
      pose proof (pending_in_settles h h2 ha Hset1).
      unfold work_left. cbn. rewrite Hw1, pending_le_one, Hi. lia.
  - eexists. split; [by apply (sys_release _ _ sv h pl [] ta l1 c l2)|]. split_and!; [|done|done].
    pose proof (pending_in_settles h h' (l1 ++ l2) Hset). pose proof (pending_in_settles h h' ta Hset).
    pose proof (pending_in_settles h h' pl Hset).
    unfold work_left. cbn. rewrite pending_le_one, Hi. lia.
Qed.

Lemma nearer_step s i :
  sys_ok s → staffed (server s) → is_pending (cells s) i = true → ∃ s', sys_step s s' ∧ nearer s s'.
Proof.
  intros K Hst Hi. destruct (decide (sending s = [] ∧ waiting (server s) = [])) as [[Hse Hw]|Hne].
  - by eapply nearer_drops.
  - apply nearer_moves; [done..|]. destruct (sending s); [right|by left]. intros Hw. by destruct Hne.
Qed.

Lemma settle_all n s :
  (work_left s < n)%nat → sys_ok s → staffed (server s) →
  ∃ s', steps sys_step s s' ∧ clients s' = clients s ∧ ∀ i, is_pending (cells s') i = false.
Proof.
  revert s. induction n as [|n IH]; intros s Hn K Hst; [lia|].
  destruct (decide (map_Forall (λ i _, is_pending (cells s) i = false) (cells s))) as [Hall|Hex].
  - exists s. split_and!; [apply steps_refl|done|]. intros i. destruct (cells s !! i) as [x|] eqn:Hi.
    + exact (Hall _ _ Hi).
    + unfold is_pending. by rewrite Hi.
  - apply map_not_Forall in Hex as (i & x & _ & Hp); [|apply _]. apply not_false_is_true in Hp.
    destruct (nearer_step _ _ K Hst Hp) as (s1 & Hs1 & Hlt & Hcl & Hst1).
    destruct (IH s1) as (s' & Hs' & Hcl' & Hdone); [lia|by eapply sys_ok_step|done|].
    exists s'. split_and!; [by eapply steps_cons|congruence|done].
Qed.

End progress.

