(* ===== verification/Runs.v ===== *)
(** The program's own functions are runs of the system: a handler from the
    arrival of its request to its response ([handle_request]), and a worker's
    takes ([take_one], [take_batch]), each with whatever the other threads do
    while it waits. *)

From S2P Require Import Prelude Channels Gvl Response Request Registry Dispatch Queue Lifecycle.
From S2P Require Import Outcomes Admission System.

Section runs.
Context {chan oneshot : Type → Type}
  `{!Flume chan, !FlumeSpec chan, !Oneshot oneshot, !OneshotSpec oneshot}.
Context {env_t : Type} (build_env : RequestCtx chan → result env_t).
Variable to_str : string → option string.
Implicit Types (s : System chan oneshot) (h : heap chan oneshot) (sv : ServerInner chan)
  (c : RequestCtx chan).

Notation sys_step := (sys_step build_env to_str).

(** What the others do to the server is itself a run of the system, one that
    keeps [P] and touches no responder. *)
Definition others_at (P : System chan oneshot → Prop) (f : ServerInner chan → ServerInner chan) : Prop :=
  ∀ s, sys_ok s → P s → ∃ s', steps sys_step s s' ∧ server s' = f (server s) ∧ cells s' = cells s ∧ P s'.

(** From [s] there is a run that leaves the server [sv'] and the heap [h']. *)
Definition runs_to s sv' h' (P : System chan oneshot → Prop) : Prop :=
  ∃ s', steps sys_step s s' ∧ server s' = sv' ∧ cells s' = h' ∧ P s'.

Lemma sys_ok_steps s s' : steps sys_step s s' → sys_ok s → sys_ok s'.
Proof. intros Hs. by apply (steps_invariant sys_step sys_ok (sys_ok_step build_env to_str)). Qed.

Lemma config_steps s s' : steps sys_step s s' → sys_ok s → config (server s') = config (server s).
Proof.
  intros Hs. induction Hs as [s|s s1 s' H1 _ IH]; [done|]. intros K.
  rewrite IH by (by eapply sys_ok_step). by eapply sys_step_config.
Qed.

Lemma runs_refl s (P : System chan oneshot → Prop) : P s → runs_to s (server s) (cells s) P.
Proof. intros. exists s. split_and!; [apply steps_refl|done..]. Qed.

Lemma runs_after s s1 sv' h' P : steps sys_step s s1 → runs_to s1 sv' h' P → runs_to s sv' h' P.
Proof. intros Hs (s' & Hs' & ?). exists s'. split; [by eapply steps_trans|done]. Qed.

Lemma runs_weaken s sv' h' (P Q : System chan oneshot → Prop) :
  (∀ s', P s' → Q s') → runs_to s sv' h' P → runs_to s sv' h' Q.
Proof. intros HPQ (s' & ? & ? & ? & ?). exists s'. auto. Qed.

(** ** Placing a request *)

(** The handler still has the request: with lanes it is trying them, without
    it holds a clone of the queue's sender. *)
Definition in_lane_loop c s : Prop := c ∈ placing s ∧ responder c ∈ clients s.
Definition in_send c s : Prop := c ∈ sending s ∧ responder c ∈ clients s.
Definition still_connected (i : nat) s : Prop := i ∈ clients s.

Lemma try_dispatch_run s c d sv' :
  sys_ok s → lanes (config (server s)) = true → in_lane_loop c s → try_dispatch (server s) c = (d, sv') →
  runs_to s sv' (cells s) (if d is Sent then still_connected (responder c) else in_lane_loop c).
Proof.
  intros K Hl [Hc Hcl] Hd. destruct s as [sv h pl se ta ha fw cl]. cbn in *.
  apply list_elem_of_split in Hc as (l1 & l2 & ->).
  assert (d = Sent ∨ d ≠ Sent) as [->|Hne] by (destruct d; [by left|by right..]).
  - eexists. split; [apply steps_one; by eapply sys_sent|]. by split_and!.
  - eexists. split; [apply steps_one; by eapply sys_not_sent|]. split_and!; [done..|].
    destruct d; [done|..]; split; simpl; try done; apply elem_of_app; right; left.
Qed.

Lemma dispatch_loop_run deadline env c s r sv' :
  sys_ok s → lanes (config (server s)) = true → in_lane_loop c s →
  Forall (λ e, others_at (in_lane_loop c) e.1) env →
  dispatch_loop deadline env (server s) c = (r, sv') →
  runs_to s sv' (cells s) (if r is Some true then still_connected (responder c) else in_lane_loop c).
Proof.
  revert s. induction env as [|[f now] env IH]; intros s K Hl Hin Henv; simpl.
  { intros [= <- <-]. by apply runs_refl. }
  apply Forall_cons in Henv as [Hf Henv]. destruct (Hf s K Hin) as (s1 & Hs1 & Hsv1 & Hh1 & Hin1).
  cbn in Hsv1. rewrite <-Hsv1, <-Hh1. pose proof (sys_ok_steps _ _ Hs1 K) as K1.
  assert (Hl1 : lanes (config (server s1)) = true) by (by rewrite (config_steps _ _ Hs1 K)).
  destruct (try_dispatch (server s1) c) as [d sv2] eqn:Hd.
  pose proof (try_dispatch_run s1 c d sv2 K1 Hl1 Hin1 Hd) as Hrun.
  assert (Hstop : d ≠ Sent → d = Full c ∨ d = Closed c).
  { intros Hne. destruct (try_dispatch_failed _ _ _ _ (server_slots_ok _ (ok_server _ K1)) Hd Hne) as [_ ?]. tauto. }
  intros Hres. apply (runs_after _ _ _ _ _ Hs1). destruct d as [|c'|c'].
  - by simplify_eq.
  - destruct Hstop as [[= ->]|?]; [done| |done].
    destruct (deadline <=? now); [by simplify_eq|].
    destruct Hrun as (s2 & Hs2 & <- & Hh2 & Hin2). rewrite <-Hh2. apply (runs_after _ _ _ _ _ Hs2).
    apply IH; [by eapply sys_ok_steps|by rewrite (config_steps _ _ Hs2 K1)|done..].
  - by simplify_eq.
Qed.
(** The handler's half of the queue: its send, and the drop of its sender. *)
Lemma send_run s c q :
  lanes (config (server s)) = false → in_send c s → try_send c (req (server s)) = (SendOk, q) →
  runs_to s (with_tx drop_sender (set_queue (req_tx (server s)) q (server s))) (cells s)
    (still_connected (responder c)).
Proof.
  intros Hl [Hc Hcl] Hq. destruct s as [sv h pl se ta ha fw cl]. cbn in *.
  apply list_elem_of_split in Hc as (l1 & l2 & ->).
  eexists. split; [apply steps_one; by eapply sys_send|]. by split_and!.
Qed.

Lemma unsend_run s c :
  in_send c s → runs_to s (with_tx drop_sender (server s)) (cells s) (in_lane_loop c).
Proof.
  intros [Hc Hcl]. destruct s as [sv h pl se ta ha fw cl]. cbn in *.
  apply list_elem_of_split in Hc as (l1 & l2 & ->).
  eexists. split; [apply steps_one, sys_unsend|]. split_and!; [done..|]. split; [left|done].
Qed.

Lemma timed_send_run env c s b sv' :
  sys_ok s → lanes (config (server s)) = false → in_send c s → Forall (others_at (in_send c)) env →
  timed_send env c (server s) = (b, sv') →
  runs_to s (with_tx drop_sender sv') (cells s)
    (if b then still_connected (responder c) else in_lane_loop c).
Proof.
  revert s. induction env as [|f env IH]; intros s K Hl Hin Henv; simpl.
  { intros [= <- <-]. by apply unsend_run. }
  apply Forall_cons in Henv as [Hf Henv]. destruct (Hf s K Hin) as (s1 & Hs1 & Hsv1 & Hh1 & Hin1).
  rewrite <-Hsv1, <-Hh1. pose proof (sys_ok_steps _ _ Hs1 K) as K1.
  assert (Hl1 : lanes (config (server s1)) = false) by (by rewrite (config_steps _ _ Hs1 K)).
  destruct (try_send c (req (server s1))) as [[|c'|c'] q] eqn:Hq; intros Hr; apply (runs_after _ _ _ _ _ Hs1).
  - injection Hr as <- <-. by apply send_run.
  - by apply IH.
  - injection Hr as <- <-. by apply unsend_run.
Qed.

Lemma enqueue_run env c s b sv' :
  sys_ok s → lanes (config (server s)) = false → in_lane_loop c s → Forall (others_at (in_send c)) env →
  enqueue env c (server s) = (b, sv') →
  runs_to s sv' (cells s) (if b then still_connected (responder c) else in_lane_loop c).
Proof.
  intros K Hl [Hc Hcl] Henv. unfold enqueue. destruct (req_tx (server s)) eqn:Htx; simpl.
  2:{ intros [= <- <-]. by apply runs_refl. }
  destruct s as [sv h pl se ta ha fw cl]. cbn in *. apply list_elem_of_split in Hc as (l1 & l2 & ->).
  set (s1 := MkSystem (with_tx clone_sender sv) h (l1 ++ l2) (c :: se) ta ha fw cl).
  assert (Hs1 : steps sys_step (MkSystem sv h (l1 ++ c :: l2) se ta ha fw cl) s1)
    by (by apply steps_one, sys_open).
  pose proof (sys_ok_steps _ _ Hs1 K) as K1.
  assert (Hin1 : in_send c s1) by (split; [left|done]).
  intros Hr. apply (runs_after _ _ _ _ _ Hs1). change (clone_sender (req sv)) with (req (server s1)) in Hr.
  destruct (try_send c (req (server s1))) as [[|c'|c'] q] eqn:Hq.
  - injection Hr as <- <-. by apply (send_run s1).
  - destruct (timed_send env c _) as [b1 sv1] eqn:Ht. injection Hr as <- <-. by apply (timed_send_run env c s1).
  - injection Hr as <- <-. by apply (unsend_run s1).
Qed.

(** ** A request's handler *)

Lemma leave_run s i : still_connected i s → runs_to s (leave i (server s) (cells s)).1 (leave i (server s) (cells s)).2 (λ _, True).
Proof.
  intros Hi. destruct s as [sv h pl se ta ha fw cl]. unfold still_connected in Hi. cbn in *.
  apply list_elem_of_split in Hi as (l1 & l2 & ->). eexists. split; [by apply steps_one, sys_leave|]. done.
Qed.

Lemma await_run s i resp sv' :
  still_connected i s → await_head i (server s) (cells s) = (resp, sv') →
  runs_to s sv' (cells s) (still_connected i).
Proof.
  intros Hi Ha. destruct s as [sv h pl se ta ha fw cl]. unfold still_connected in Hi. cbn in *.
  apply list_elem_of_split in Hi as (l1 & l2 & ->). eexists. split; [by eapply steps_one, sys_await|].
  split_and!; try done. apply elem_of_app. right. left.
Qed.

(** Nobody has claimed the responder of a request that is still being placed. *)
Lemma drop_fresh c h n :
  h !! responder c = Some (n, responder_new) → (drop_ctx c h).1 = Returned.
Proof.
  intros Hi. unfold drop_ctx. rewrite Hi.
  assert (H : (respond_500_if_unsent (responder_new : Responder chan oneshot)).1 = Returned) by done.
  by destruct (respond_500_if_unsent _) as [b r].
Qed.

Lemma refuse_run s c n :
  in_lane_loop c s → cells s !! responder c = Some (n, responder_new) →
  runs_to s (unavailable (server s)).2 (drop_ctx c (cells s)).2 (still_connected (responder c)).
Proof.
  intros [Hc Hcl] Hi. pose proof (drop_fresh c _ _ Hi) as Hd.
  destruct s as [sv h pl se ta ha fw cl]. cbn in *. apply list_elem_of_split in Hc as (l1 & l2 & ->).
  destruct (drop_ctx c h) as [b h'] eqn:Hx. cbn in Hd. subst b.
  eexists. split; [by apply steps_one, (sys_refuse _ _ sv h l1 c l2)|]. done.
Qed.

Lemma give_up_run s c n :
  in_lane_loop c s → cells s !! responder c = Some (n, responder_new) →
  runs_to s (server s) (drop_ctx c (cells s)).2 (still_connected (responder c)).
Proof.
  intros [Hc Hcl] Hi. pose proof (drop_fresh c _ _ Hi) as Hd.
  destruct s as [sv h pl se ta ha fw cl]. cbn in *. apply list_elem_of_split in Hc as (l1 & l2 & ->).
  destruct (drop_ctx c h) as [b h'] eqn:Hx. cbn in Hd. subst b.
  eexists. split; [by apply steps_one, (sys_give_up _ _ sv h l1 c l2)|]. done.
Qed.

(** What the others may do while the handler places its request. *)
Definition others_placing c (lanes : bool) (env : list ((ServerInner chan → ServerInner chan) * Z)) : Prop :=
  if lanes then Forall (λ e, others_at (in_lane_loop c) e.1) env
  else Forall (others_at (in_send c)) (fst <$> env).

Lemma take_in_run over now env c s n o sv' h' :
  sys_ok s → in_lane_loop c s → cells s !! responder c = Some (n, responder_new) →
  others_placing c (lanes (config (server s))) env →
  take_in over now env c (server s) (cells s) = (o, (sv', h')) →
  runs_to s sv' h' (if o is Dispatching then in_lane_loop c else still_connected (responder c)).
Proof.
  intros K Hin Hi Henv. unfold take_in, others_placing in *. destruct over.
  { intros [= <- <- <-]. by eapply give_up_run. }
  assert (Hplace : ∀ sent sv1,
    (if lanes (config (server s)) then dispatch_to_lane now env (server s) c
     else let '(b, sv) := enqueue (fst <$> env) c (server s) in (Some b, sv)) = (sent, sv1) →
    runs_to s sv1 (cells s) (if sent is Some true then still_connected (responder c) else in_lane_loop c)).
  { intros sent sv1. destruct (lanes (config (server s))) eqn:Hl.
    - by apply dispatch_loop_run.
    - destruct (enqueue _ c (server s)) as [b sv2] eqn:He. intros [= <- <-].
      destruct b; by eapply enqueue_run in He. }
  destruct (if lanes (config (server s)) then _ else _) as [sent sv1] eqn:Hp.
  specialize (Hplace _ _ eq_refl). destruct sent as [[]|].
  - by intros [= <- <- <-].
  - destruct Hplace as (s1 & Hs1 & <- & Hh1 & Hin1). cbn [unavailable]. intros [= <- <- <-].
    apply (runs_after _ _ _ _ _ Hs1). rewrite <-Hh1. eapply refuse_run; [done|]. by rewrite Hh1.
  - by intros [= <- <- <-].
Qed.
(** What the others may do while the handler waits for its head. *)
Definition others_waiting (i : nat) (f : ServerInner chan * heap chan oneshot → ServerInner chan * heap chan oneshot)
  : Prop :=
  ∀ s, sys_ok s → still_connected i s →
    runs_to s (f (server s, cells s)).1 (f (server s, cells s)).2 (still_connected i).

Lemma handler_run s rq peer lcl rid now env1 env2 resp sv' h' :
  sys_ok s → cells s !! rid = None →
  others_placing (make_ctx to_str (server s) rq peer lcl rid now) (lanes (config (server s))) env1 →
  others_waiting rid env2 →
  handle_request to_str rq peer lcl rid now env1 env2 (server s) (cells s) = (resp, (sv', h')) →
  runs_to s sv' h' (λ s', resp = None → still_connected rid s').
Proof.
  intros K Hrid Henv1 Henv2 Hh. unfold handle_request in Hh.
  set (c := make_ctx _ _ _ _ _ _ _) in *. destruct (enter rid c (server s) (cells s)) as [sv1 h1] eqn:He.
  destruct s as [sv h pl se ta ha fw cl]. cbn [server cells] in *.
  set (s := MkSystem sv h pl se ta ha fw cl) in *.
  set (s1 := MkSystem sv1 h1 (c :: pl) se ta ha ((if body_rx c then [rid] else []) ++ fw) (rid :: cl)).
  assert (Hs1 : steps sys_step s s1) by (apply steps_one; by apply (sys_arrive _ _ sv h pl se ta ha fw cl rq peer lcl rid now c)).
  pose proof (sys_ok_steps _ _ Hs1 K) as K1. apply (runs_after _ _ _ _ _ Hs1).
  assert (Hin1 : in_lane_loop c s1) by (split; [left|left]).
  assert (Hcell : cells s1 !! responder c = Some ((if body_rx c then 2 else 1)%nat, responder_new)).
  { unfold enter in He. injection He as <- <-. apply lookup_insert_eq. }
  rewrite <-(config_steps _ _ Hs1 K : config sv1 = config sv) in Henv1.
  destruct (take_in _ now env1 c sv1 h1) as [o [sv2 h2]] eqn:Ht.
  destruct (take_in_run _ _ _ _ s1 _ _ _ _ K1 Hin1 Hcell Henv1 Ht) as (s2 & Hs2 & <- & <- & Hin2).
  pose proof (sys_ok_steps _ _ Hs2 K1) as K2. apply (runs_after _ _ _ _ _ Hs2). destruct o as [|r|].
  - destruct (Henv2 s2 K2 Hin2) as (s3 & Hs3 & Hsv3 & Hh3 & Hin3). apply (runs_after _ _ _ _ _ Hs3).
    destruct (env2 (server s2, cells s2)) as [sv3 h3]. cbn [fst snd] in *. subst sv3 h3.
    destruct (await_head rid (server s3) (cells s3)) as [[r|] sv4] eqn:Ha;
      destruct (await_run _ _ _ _ Hin3 Ha) as (s4 & Hs4 & <- & Hh4 & Hin4); rewrite <-Hh4 in Hh; apply (runs_after _ _ _ _ _ Hs4).
    + destruct (leave rid (server s4) (cells s4)) as [sv5 h5] eqn:Hl. injection Hh as <- <- <-.
      pose proof (leave_run _ _ Hin4) as Hrun. rewrite Hl in Hrun. by eapply runs_weaken; [|exact Hrun].
    + injection Hh as <- <- <-. by apply runs_refl.
  - destruct (leave rid (server s2) (cells s2)) as [sv5 h5] eqn:Hl. injection Hh as <- <- <-.
    pose proof (leave_run s2 rid Hin2) as Hrun. rewrite Hl in Hrun. by eapply runs_weaken; [|exact Hrun].
  - injection Hh as <- <- <-. apply runs_refl. intros _. exact (proj2 Hin2).
Qed.

(** ** A worker's takes *)

Definition others_any : (ServerInner chan → ServerInner chan) → Prop := others_at (λ _, True).

Definition taken_by (r : option (RequestCtx chan)) s : Prop :=
  match r with Some c => c ∈ taken s | None => True end.

(** A round of a take's loop is a step. *)
Definition tick_runs (tick : ServerInner chan → option (Taken chan) * ServerInner chan) (lanes_on : bool) : Prop :=
  ∀ s t sv', lanes (config (server s)) = lanes_on → tick (server s) = (t, sv') →
    runs_to s sv' (cells s) (taken_by (mjoin t)).

Lemma queue_tick_run w : tick_runs (queue_tick w) false.
Proof.
  intros [sv h pl se ta ha fw cl] t sv' Hl Ht. eexists. split; [by eapply steps_one, sys_queue_tick|].
  split_and!; [done..|]. destruct t as [[c|]|]; simpl; [left|done..].
Qed.

Lemma lane_tick_run w : tick_runs (lane_tick w) true.
Proof.
  intros [sv h pl se ta ha fw cl] t sv' Hl Ht. eexists. split; [by eapply steps_one, sys_lane_tick|].
  split_and!; [done..|]. destruct t as [[c|]|]; simpl; [left|done..].
Qed.

Lemma loop_run flag tick b env s (r : waited (Taken chan)) sv' :
  tick_runs tick b → sys_ok s → lanes (config (server s)) = b → Forall others_any env →
  interruptible flag tick env (server s) = (r, sv') →
  runs_to s sv' (cells s) (taken_by (if r is Gvl.Finished t then t else None)).
Proof.
  intros Htick. revert s. induction env as [|f env IH]; intros s K Hl Henv; simpl.
  { intros [= <- <-]. by apply runs_refl. }
  apply Forall_cons in Henv as [Hf Henv]. destruct (Hf s K I) as (s1 & Hs1 & <- & <- & _).
  pose proof (sys_ok_steps _ _ Hs1 K) as K1. pose proof (config_steps _ _ Hs1 K) as Hc1.
  destruct (flag (server s1)); intros Hr; apply (runs_after _ _ _ _ _ Hs1).
  { injection Hr as <- <-. by apply runs_refl. }
  destruct (tick (server s1)) as [t sv1] eqn:Ht.
  assert (Hrun := Htick s1 t sv1 ltac:(by rewrite Hc1) Ht). destruct t as [t|].
  - injection Hr as <- <-. exact Hrun.
  - destruct Hrun as (s2 & Hs2 & <- & Hh2 & _). rewrite <-Hh2. apply (runs_after _ _ _ _ _ Hs2).
    apply IH; [by eapply sys_ok_steps|by rewrite (config_steps _ _ Hs2 K1), Hc1|done|done].
Qed.

Lemma unpark_run w s (P : System chan oneshot → Prop) :
  (∀ s', taken s' = taken s → P s') → runs_to s (unpark w (server s)) (cells s) P.
Proof.
  intros HP. destruct s as [sv h pl se ta ha fw cl]. eexists.
  split; [by apply steps_one, sys_unpark|]. split_and!; [done..|]. by apply HP.
Qed.

Lemma lane_mode sv w (sl : WorkerSlot chan) :
  server_ok sv → slots sv !! w = Some sl → lanes (config sv) = bool_decide (is_Some (lane_rx sl)).
Proof. intros [H _] Hw. rewrite Forall_lookup in H. by destruct (H _ _ Hw). Qed.

(** A take: its first round, then the loop it blocks in. *)
Lemma checkout_run s w env r sv' :
  sys_ok s → Forall others_any env → checkout true w env (server s) = (r, sv') →
  runs_to s sv' (cells s) (taken_by (if r is TakeEnded t then t else None)).
Proof.
  intros K Henv Hco. destruct (checkout true w [] (server s)) as [t0 sv1] eqn:Hfirst.
  destruct s as [sv h pl se ta ha fw cl]. cbn [server cells] in *.
  set (s := MkSystem sv h pl se ta ha fw cl) in *.
  set (s1 := MkSystem sv1 h pl se (taken_of t0 ++ ta) ha fw cl).
  assert (Hs1 : steps sys_step s s1) by (by eapply steps_one, sys_take).
  pose proof (sys_ok_steps _ _ Hs1 K) as K1. pose proof (config_steps _ _ Hs1 K) as Hc1. cbn in Hc1.
  apply (runs_after _ _ _ _ _ Hs1).
  assert (Hended : (r, sv') = (t0, sv1) → runs_to s1 sv' h (taken_by (if r is TakeEnded t then t else None))).
  { intros [= -> ->]. apply runs_refl. destruct t0 as [|[c|]]; simpl; [done|left|done]. }
  unfold checkout in Hco, Hfirst. simpl in Hco, Hfirst. set (sv0 := set_slots _ sv) in Hco, Hfirst.
  assert (Hok0 : server_ok sv0).
  { refine (proj1 (proj2 (slots_alter _ w sv _ _)) (ok_server _ K)); [done|by intros b x Hx]. }
  unfold block_take in Hco, Hfirst. destruct (slots sv0 !! w) as [sl|] eqn:Hw; [|apply Hended; congruence].
  pose proof (lane_mode _ _ _ Hok0 Hw) as Hmode. change (config sv0) with (config sv) in Hmode.
  destruct (lane_rx sl) as [rx|] eqn:Hrx.
  - unfold lane_take in Hco, Hfirst. destruct (try_recv rx) as [[x| |] rx']; [apply Hended; congruence| |apply Hended; congruence].
    destruct (steal w sv0) as [[x|] sv2]; [apply Hended; congruence|].
    cbn [interruptible] in Hfirst. injection Hfirst as <- <-.
    destruct (interruptible (flag_of w) (lane_tick w) env (park w sv2)) as [l sv3] eqn:Hl.
    assert (Hrun : runs_to s1 sv3 h (taken_by (if l is Gvl.Finished t then t else None))).
    { eapply (loop_run _ _ true env s1); [apply lane_tick_run|done| |done|exact Hl]. simpl in *. congruence. }
    destruct Hrun as (s2 & Hs2 & <- & Hh2 & Ht2).
    destruct l as [| |t]; injection Hco as <- <-; apply (runs_after _ _ _ _ _ Hs2); rewrite <-Hh2;
      [by apply runs_refl|by apply unpark_run|apply unpark_run].
    intros s' Hs'. unfold taken_by in *. simpl. destruct t; [by rewrite Hs'|done].
  - destruct (try_recv (req sv0)) as [[x| |] q]; [apply Hended; congruence| |apply Hended; congruence].
    cbn [interruptible] in Hfirst. injection Hfirst as <- <-.
    destruct (interruptible (flag_of w) (queue_tick w) env sv0) as [l sv3] eqn:Hl.
    assert (Hrun : runs_to s1 sv3 h (taken_by (if l is Gvl.Finished t then t else None))).
    { eapply (loop_run _ _ false env s1); [apply queue_tick_run|done| |done|exact Hl]. simpl in *. congruence. }
    injection Hco as <- <-. destruct l; exact Hrun.
Qed.

(** What a worker hands to Ruby is a handle. *)
Definition handed (l : list (env_t * RequestCtx chan)) s : Prop := ∀ e c, (e, c) ∈ l → c ∈ handles s.

Lemma admit_run s w now ms c res sv' h' l :
  c ∈ taken s → handed l s → admit_request build_env w now ms c (server s) (cells s) = (res, (sv', h')) →
  runs_to s sv' h' (λ s', if res is Ok x then handed (l ++ [x]) s' else True).
Proof.
  intros Hc Hl Ha. destruct s as [sv h pl se ta ha fw cl]. cbn in *.
  apply list_elem_of_split in Hc as (l1 & l2 & ->). destruct res as [[e c']|e].
  - eexists. split; [by eapply steps_one, sys_admit|]. split_and!; [done..|].
    intros e1 c1 [Hin|Hin%list_elem_of_singleton]%elem_of_app; simpl; [right; by eapply Hl|].
    injection Hin as -> ->. left.
  - eexists. split; [by eapply steps_one, sys_not_admitted|]. done.
Qed.

Lemma take_one_run s w env now ms r sv' h' :
  sys_ok s → Forall others_any env →
  take_one build_env true w env now ms (server s) (cells s) = (r, (sv', h')) →
  runs_to s sv' h' (λ s', if r is Some (Ok (Some x)) then handed [x] s' else True).
Proof.
  intros K Henv. unfold take_one. destruct (checkout true w env (server s)) as [t sv1] eqn:Hco.
  destruct (checkout_run _ _ _ _ _ K Henv Hco) as (s1 & Hs1 & <- & Hh1 & Ht1). rewrite <-Hh1.
  destruct t as [|[c|]].
  - intros [= <- <- <-]. apply (runs_after _ _ _ _ _ Hs1). by apply runs_refl.
  - destruct (admit_request _ _ _ _ c _ _) as [res [sv2 h2]] eqn:Ha.
    assert (Hrun := admit_run s1 w now ms c res sv2 h2 [] Ht1 ltac:(by intros ? ? ?%elem_of_nil) Ha).
    intros Hr. apply (runs_after _ _ _ _ _ Hs1).
    destruct res as [x|e]; injection Hr as <- <- <-; [exact Hrun|by eapply runs_weaken; [|exact Hrun]].
  - intros [= <- <- <-]. apply (runs_after _ _ _ _ _ Hs1). by apply runs_refl.
Qed.
Lemma fill_batch_run n w now ms batch s r sv' h' :
  sys_ok s → handed batch s → fill_batch build_env n w now ms batch (server s) (cells s) = (r, (sv', h')) →
  runs_to s sv' h' (λ s', if r is Ok l then handed l s' else True).
Proof.
  revert batch s. induction n as [|n IH]; intros batch s K Hb; simpl.
  { intros [= <- <- <-]. by apply runs_refl. }
  destruct (try_recv (req (server s))) as [[c| |] q] eqn:Hq;
    [|intros [= <- <- <-]; by apply runs_refl..].
  destruct s as [sv h pl se ta ha fw cl]. cbn [server cells] in *.
  set (s := MkSystem sv h pl se ta ha fw cl) in *.
  set (s1 := MkSystem (set_queue (req_tx sv) q sv) h pl se (c :: ta) ha fw cl).
  assert (Hl : lanes (config sv) = false).
  { destruct (lanes (config sv)) eqn:Hl; [|done]. destruct (ok_server _ K) as (_ & _ & He). cbn in He.
    apply try_recv_cases in Hq as [(y & l & _ & Hc & _)|[([=] & _)|([=] & _)]]. by rewrite He in Hc. }
  assert (Hs1 : steps sys_step s s1).
  { apply steps_one. apply (sys_queue_tick _ _ sv h pl se ta ha fw cl w (Some (Some c))); [done|].
    unfold queue_tick, recv_timeout. by rewrite Hq. }
  destruct (admit_request build_env w now ms c _ h) as [res [sv2 h2]] eqn:Ha.
  assert (Hrun := admit_run s1 w now ms c res sv2 h2 batch ltac:(left) Hb Ha).
  intros Hr. apply (runs_after _ _ _ _ _ Hs1). destruct res as [x|e]; [|by injection Hr as <- <- <-].
  destruct Hrun as (s2 & Hs2 & <- & <- & Hb2). apply (runs_after _ _ _ _ _ Hs2).
  apply (IH (batch ++ [x])); [|done|done]. by eapply sys_ok_steps, sys_ok_steps.
Qed.

Lemma take_batch_run s w max env now ms r sv' h' :
  sys_ok s → Forall others_any env →
  take_batch build_env true w max env now ms (server s) (cells s) = (r, (sv', h')) →
  runs_to s sv' h' (λ s', if r is Some (Ok (Some l)) then handed l s' else True).
Proof.
  intros K Henv. unfold take_batch. destruct (checkout true w env (server s)) as [t sv1] eqn:Hco.
  destruct (checkout_run _ _ _ _ _ K Henv Hco) as (s1 & Hs1 & <- & Hh1 & Ht1). rewrite <-Hh1.
  destruct t as [|[c|]].
  - intros [= <- <- <-]. apply (runs_after _ _ _ _ _ Hs1). by apply runs_refl.
  - destruct (admit_request _ _ _ _ c _ _) as [res [sv2 h2]] eqn:Ha.
    assert (Hrun := admit_run s1 w now ms c res sv2 h2 [] Ht1 ltac:(by intros ? ? ?%elem_of_nil) Ha).
    intros Hr. apply (runs_after _ _ _ _ _ Hs1).
    destruct res as [x|e]; [|injection Hr as <- <- <-; by eapply runs_weaken; [|exact Hrun]].
    destruct Hrun as (s2 & Hs2 & <- & <- & Hb2). apply (runs_after _ _ _ _ _ Hs2).
    destruct (fill_batch _ _ _ _ _ _ _ _) as [rb [sv3 h3]] eqn:Hf.
    pose proof (fill_batch_run _ _ _ _ _ s2 _ _ _ (sys_ok_steps _ _ Hs2 (sys_ok_steps _ _ Hs1 K)) Hb2 Hf) as Hrun.
    destruct rb as [l|e]; injection Hr as <- <- <-; [exact Hrun|by eapply runs_weaken; [|exact Hrun]].
  - intros [= <- <- <-]. apply (runs_after _ _ _ _ _ Hs1). by apply runs_refl.
Qed.

(** ** The program's functions *)

Section reachable.
Variables (sv0 : ServerInner chan) (s : System chan oneshot).
Hypothesis Hfresh : fresh_server sv0.
Hypothesis Hreach : steps sys_step (sys_init sv0) s.


End reachable.
End runs.

(** Other threads that call natives. *)
Lemma native_others (P : System ListChan.t oneshot_state → Prop) k :
  (∀ sv h pl se ta ha fw cl sv', P (MkSystem sv h pl se ta ha fw cl) → P (MkSystem sv' h pl se ta ha fw cl)) →
  others_at (λ _, Ok tt) Some P (run_native k).
Proof.
  intros HP s _ Hp. destruct s as [sv h pl se ta ha fw cl].
  exists (MkSystem (run_native k sv) h pl se ta ha fw cl).
  split; [apply steps_one, sys_native|]. split_and!; [done..|]. by eapply HP.
Defined.

(** A worker registers while the handler waits for its head. *)
Definition registers (p : ServerInner ListChan.t * heap ListChan.t oneshot_state)
  : ServerInner ListChan.t * heap ListChan.t oneshot_state := (run_native NRegister p.1, p.2).

Lemma registers_waiting i : others_waiting (λ _, Ok tt) Some i registers.
Proof.
  intros s K Hi.
  destruct (native_others (still_connected i) NRegister (λ _ _ _ _ _ _ _ _ _ H, H) s K Hi) as (s' & Hs' & Hsv & Hh & Hi').
  exists s'. by split_and!.
Defined.

Definition placed : option HyperResponse * (ServerInner ListChan.t * heap ListChan.t oneshot_state) :=
  handle_request Some plain_request (MkSocketAddr (V4 10 0 0 1) 5) (MkSocketAddr (V4 10 0 0 2) 80) 1 0 []
    registers capped_server ∅.


Lemma placed_run :
  ∃ s', steps sample_step (sys_init capped_server) s' ∧ server s' = placed.2.1 ∧ cells s' = placed.2.2.
Proof.
  destruct (handler_run (λ _, Ok tt) Some (sys_init capped_server) plain_request (MkSocketAddr (V4 10 0 0 1) 5)
    (MkSocketAddr (V4 10 0 0 2) 80) 1 0 [] registers placed.1 placed.2.1 placed.2.2
    (sys_ok_init _ capped_fresh) eq_refl (Forall_nil_2 _) (registers_waiting 1) eq_refl)
    as (s' & Hs & Hsv & Hh & _).
  eauto.
Defined.

Definition took_it := take_one (λ _, Ok tt) true 0 [] 0 0 placed.2.1 placed.2.2.

