(* ===== verification/Order.v ===== *)
(** Order and ownership in the running system: no request overtakes another
    in the queue or in a lane, and the live senders of the queue and of every
    lane are exactly those the code still holds, so that a worker sees its
    channel disconnected when, and only when, it has been closed. *)

From S2P Require Import Prelude Channels Gvl Response Request Registry Dispatch Queue Lifecycle.
From S2P Require Import Outcomes Admission System Runs.

(** ** First in, first out *)

Section moves.
Context {A : Type}.
Implicit Types (l : list A) (x : A).

(** From [l] to [l'] elements left at the front and joined at the back. *)
Definition moves l l' : Prop := ∃ k new, l' = drop k l ++ new.

#[export] Instance moves_preorder : PreOrder moves.
Proof.
  split.
  - intros l. exists 0%nat, []. by rewrite app_nil_r.
  - intros l1 l2 l3 (k1 & n1 & ->) (k2 & n2 & ->).
    exists (k1 + k2)%nat, (drop (k2 - length (drop k1 l1)) n1 ++ n2).
    by rewrite drop_app, drop_drop, app_assoc.
Qed.

Lemma moves_suffix l l' : l' `suffix_of` l → moves l l'.
Proof. intros [k ->]. exists (length k), []. by rewrite drop_app_length, app_nil_r. Qed.

Lemma moves_append l new : moves l (l ++ new).
Proof. by exists 0%nat, new. Qed.

Lemma suffix_length_le l l' : l' `suffix_of` l → (length l' ≤ length l)%nat.
Proof. intros [k ->]. rewrite length_app. lia. Qed.
End moves.
#[export] Hint Resolve moves_suffix moves_append : kino.

(** ** One lane *)

Section slots.
Context {chan oneshot : Type → Type}
  `{!Flume chan, !FlumeSpec chan, !Oneshot oneshot, !OneshotSpec oneshot}.
Implicit Types (s : WorkerSlot chan) (l : list (WorkerSlot chan)) (sv : ServerInner chan)
  (c : RequestCtx chan) (h : heap chan oneshot).

(** A lane's only sender is the one in the slot's mutex. *)
Definition lane_counted s : Prop :=
  match lane_rx s with Some rx => senders rx = Nat.b2n (lane_tx s) | None => lane_tx s = false end.

(** A slot keeps its lane and its order; the sender goes with its flag; a
    closed lane stays closed and takes nothing in. *)
Record slot_moves s s' : Prop := {
  sm_mode : is_Some (lane_rx s') ↔ is_Some (lane_rx s);
  sm_order : moves (lane s) (lane s');
  sm_counted : lane_counted s → lane_counted s';
  sm_closed : lane_tx s = false → lane_tx s' = false ∧ lane s' `suffix_of` lane s;
}.

#[export] Instance slot_moves_preorder : PreOrder slot_moves.
Proof.
  split; [by intros s; split|].
  intros s1 s2 s3 [M1 O1 C1 X1] [M2 O2 C2 X2]. split; [by rewrite M2|by etrans|auto|].
  intros H1. destruct (X1 H1) as [H2 ?]. destruct (X2 H2) as [? ?]. split; [done|by etrans].
Qed.

(** What leaves the lane and its sender alone. *)
Lemma slot_moves_frame s s' : lane_rx s' = lane_rx s → lane_tx s' = lane_tx s → slot_moves s s'.
Proof. intros Hr Ht. by split; unfold lane, lane_counted; rewrite ?Hr, ?Ht. Qed.

Lemma slot_moves_recv s (t : Taken chan) s' : recv_lane s = (t, s') → slot_moves s s'.
Proof.
  unfold recv_lane. destruct (lane_rx s) as [rx|] eqn:Hrx; [|by intros [= <- <-]].
  destruct (try_recv rx) as [[c| |] rx'] eqn:Hr; intros [= <- <-]; [|done..].
  apply try_recv_cases in Hr as [(x & q & _ & Hq & Hc & _ & Hs & _)|[([=] & _)|([=] & _)]].
  assert (Hsuf : contents rx' `suffix_of` contents rx) by (rewrite Hc, Hq; by exists [x]).
  split; unfold lane, lane_counted; simpl; rewrite Hrx; [done|by apply moves_suffix|by rewrite Hs|done].
Qed.

Lemma slot_moves_close s : slot_moves s (close_lane s).
Proof.
  unfold close_lane. destruct (lane_tx s) eqn:Ht; [|done].
  split; unfold lane, lane_counted; simpl; [by destruct (lane_rx s)| | |by rewrite Ht].
  - destruct (lane_rx s); [|done]. by autorewrite with kino_chan.
  - destruct (lane_rx s); [|done]. autorewrite with kino_chan. by rewrite Ht; intros ->.
Qed.

Lemma slot_moves_enqueued s c s' : available s → enqueued s c s' → slot_moves s s'.
Proof.
  intros (Ht & _ & _) (rx & rx' & Hrx & (Hc & _ & Hs & _) & ->).
  split; unfold lane, lane_counted; simpl; rewrite ?Hrx, ?Hc, ?Hs; [done|apply moves_append| |].
  - by rewrite Ht.
  - by rewrite Ht.
Qed.

Lemma slot_moves_drain fuel s h b s' h' : drain_lane fuel s h = (b, (s', h')) → slot_moves s s'.
Proof.
  revert s h. induction fuel as [|fuel IH]; intros s h; cbn; [by intros [= _ <- _]|].
  destruct (recv_lane s) as [[c|] s1] eqn:Hr; apply slot_moves_recv in Hr; [|by intros [= _ <- _]].
  destruct (drop_ctx c h) as [[] h1]; [|by intros [= _ <- _]]. intros Hd. etrans; [done|by eapply IH].
Qed.

Lemma slot_moves_abort s h b s' h' : abort_slot s h = (b, (s', h')) → slot_moves s s'.
Proof.
  unfold abort_slot. destruct (abort_each (current s) h) as [[] h1]; [|by intros [= _ <- _]].
  intros Hd%slot_moves_drain. etrans; [|exact Hd].
  transitivity (set_work [] (served s) 0 (last_started_ms s) s); [by apply slot_moves_frame|].
  etrans; [apply slot_moves_close|by apply slot_moves_frame].
Qed.

(** ** All lanes *)

(** A slot just registered: its lane is empty, and open if the server has
    lanes. *)
Definition new_slot (b : bool) s : Prop := lane s = [] ∧ lane_tx s = b ∧ lane_counted s.

(** Every slot moves on where it is; slots join at the end. *)
Definition slots_move (b : bool) l l' : Prop :=
  ∃ l0 new, l' = l0 ++ new ∧ Forall2 slot_moves l l0 ∧ Forall (new_slot b) new.

Lemma slots_moved b l l' : Forall2 slot_moves l l' → slots_move b l l'.
Proof. intros H. exists l', []. by rewrite app_nil_r. Qed.

Lemma slots_move_refl b l : slots_move b l l.
Proof. apply slots_moved. reflexivity. Qed.

Lemma slots_moved_insert w s s' l : l !! w = Some s → slot_moves s s' → Forall2 slot_moves l (<[w:=s']> l).
Proof.
  intros Hw Hm. rewrite <-(list_insert_id l w s Hw) at 1. apply Forall2_insert; [|done].
  reflexivity.
Qed.

Lemma slots_moved_fmap (f : WorkerSlot chan → WorkerSlot chan) l :
  (∀ s, slot_moves s (f s)) → Forall2 slot_moves l (f <$> l).
Proof. intros Hf. induction l; constructor; auto. Qed.

Lemma slots_moved_alter (f : WorkerSlot chan → WorkerSlot chan) w l :
  (∀ s, slot_moves s (f s)) → Forall2 slot_moves l (alter f w l).
Proof. intros Hf. apply Forall2_alter_r; [done|]. intros s1 s2 _ _ ?. by etrans. Qed.

Lemma slots_moved_steal w order l (t : Taken chan) l' :
  steal_from w order l = (t, l') → Forall2 slot_moves l l'.
Proof.
  induction order as [|i order IH]; simpl; [by intros [= <- <-]|].
  destruct (i =? w)%nat; [done|]. destruct (l !! i) as [s|] eqn:Hi; [|done].
  destruct (recv_lane s) as [[c|] s'] eqn:Hr; [|done]. intros [= <- <-].
  eapply slots_moved_insert; [done|]. by eapply slot_moves_recv.
Qed.

Lemma slots_moved_sweep skip order l c any (o : option (RequestCtx chan)) l' any' :
  Forall slot_ok l → sweep skip order l c any = (o, l', any') → Forall2 slot_moves l l'.
Proof.
  intros Hok Hs. destruct (sweep_spec skip order l c any Hok) as [(l1 & Hs' & Hsent)|(open & Hs' & _)];
    rewrite Hs in Hs'; simplify_eq; [|done].
  destruct Hsent as (i & s & s' & _ & _ & -> & _ & Hi & _ & Hav & He & _).
  eapply slots_moved_insert; [done|]. by eapply slot_moves_enqueued.
Qed.

(** ** The queue *)

(** Its senders: the one in the mutex, and the clone of each of the [n]
    handlers blocked in their send. *)
Definition queue_counted (n : nat) sv : Prop := senders (req sv) = (Nat.b2n (req_tx sv) + n)%nat.

(** The queue keeps its order and its count; once closed it lets in only what
    the handlers that hold a clone bring. *)
Record queue_moves (n n' : nat) sv sv' : Prop := {
  qm_order : moves (contents (req sv)) (contents (req sv'));
  qm_counted : queue_counted n sv → queue_counted n' sv';
  qm_closed : req_tx sv = false →
    req_tx sv' = false ∧ (n' ≤ n ∧ n' + chan_len (req sv') ≤ n + chan_len (req sv))%nat;
}.

Lemma queue_moves_frame n sv sv' : req sv' = req sv → req_tx sv' = req_tx sv → queue_moves n n sv sv'.
Proof. intros Hq Ht. split; unfold queue_counted; by rewrite ?Hq, ?Ht. Qed.

Lemma queue_moves_recv n sv c q :
  try_recv (req sv) = (RecvOk c, q) → queue_moves n n sv (set_queue (req_tx sv) q sv).
Proof.
  intros Hr. apply try_recv_cases in Hr as [(x & l & _ & Hq & Hc & _ & Hs & _)|[([=] & _)|([=] & _)]].
  split; unfold queue_counted, chan_len; cbn [req req_tx set_queue]; rewrite ?Hc, ?Hq, ?Hs; [|done|].
  - apply moves_suffix. by exists [x].
  - intros H. split; [done|]. simpl. lia.
Qed.

Lemma queue_moves_clone n sv : req_tx sv = true → queue_moves n (S n) sv (with_tx clone_sender sv).
Proof.
  intros Ht. destruct (clone_sender_spec _ (req sv)) as (Hc & _ & Hs & _).
  split; unfold queue_counted; cbn [req req_tx set_queue with_tx]; rewrite ?Hc, ?Hs, ?Ht; [done|simpl; lia|done].
Qed.

Lemma queue_moves_drop n sv : queue_moves (S n) n sv (with_tx drop_sender sv).
Proof.
  split; unfold queue_counted, chan_len; cbn [req req_tx set_queue with_tx]; autorewrite with kino_chan;
    [done|intros ->; lia|]. intros H. split; [done|lia].
Qed.

Lemma queue_moves_send n sv c q :
  (0 < capacity (req sv))%nat → try_send c (req sv) = (SendOk, q) →
  queue_moves (S n) n sv (with_tx drop_sender (set_queue (req_tx sv) q sv)).
Proof.
  intros Hpos Hs. apply try_send_cases in Hs as [(_ & _ & _ & Hc & _ & Hs & _)|[([=] & _)|([=] & _)]]; [|done].
  split; unfold queue_counted, chan_len; cbn [req req_tx set_queue with_tx]; autorewrite with kino_chan;
    rewrite ?Hc, ?Hs; [apply moves_append|intros ->; lia|].
  intros H. rewrite length_app. simpl. split; [done|lia].
Qed.

Lemma queue_moves_close n sv : queue_moves n n sv (close_req sv).
Proof.
  unfold close_req. destruct (req_tx sv) eqn:Ht; [|by apply queue_moves_frame].
  split; unfold queue_counted; cbn [req req_tx set_queue]; autorewrite with kino_chan; [done| |by rewrite Ht].
  rewrite Ht. simpl. lia.
Qed.

(** ** The server *)

Definition server_moves (n n' : nat) sv sv' : Prop :=
  queue_moves n n' sv sv' ∧ slots_move (lanes (config sv)) (slots sv) (slots sv').

(** What leaves the slots alone, and what leaves the queue alone. *)
Lemma moves_queue n n' sv sv' : queue_moves n n' sv sv' → slots sv' = slots sv → server_moves n n' sv sv'.
Proof. intros Hq Hs. split; [done|]. rewrite Hs. apply slots_move_refl. Qed.

Lemma moves_slots n sv sv' :
  Forall2 slot_moves (slots sv) (slots sv') → req sv' = req sv → req_tx sv' = req_tx sv →
  server_moves n n sv sv'.
Proof. intros Hs Hq Ht. split; [by apply queue_moves_frame|by apply slots_moved]. Qed.

Lemma moves_frame n sv sv' :
  slots sv' = slots sv → req sv' = req sv → req_tx sv' = req_tx sv → server_moves n n sv sv'.
Proof. intros Hs Hq Ht. apply moves_slots; [by rewrite Hs|done..]. Qed.

Lemma moves_put n w s s' sv : slots sv !! w = Some s → slot_moves s s' → server_moves n n sv (put_slot w s' sv).
Proof. intros Hw Hm. apply moves_slots; [by eapply slots_moved_insert|done..]. Qed.

(** *** Takes *)

(** The queue and the lanes move on, the mutexes keep their senders. *)
Record take_moves sv sv' : Prop := {
  tm_queue : ∀ n, queue_moves n n sv sv';
  tm_slots : Forall2 slot_moves (slots sv) (slots sv');
}.

#[export] Instance queue_moves_refl n : Reflexive (queue_moves n n).
Proof. intros sv. by apply queue_moves_frame. Qed.

Lemma queue_moves_trans n1 n2 n3 sv1 sv2 sv3 :
  queue_moves n1 n2 sv1 sv2 → queue_moves n2 n3 sv2 sv3 → queue_moves n1 n3 sv1 sv3.
Proof.
  intros [O1 C1 X1] [O2 C2 X2]. split; [by etrans|auto|].
  intros H1. destruct (X1 H1) as (H2 & ?). destruct (X2 H2) as (? & ?). split; [done|lia].
Qed.

#[export] Instance take_moves_preorder : PreOrder take_moves.
Proof.
  split; [by intros sv; split|]. intros sv1 sv2 sv3 [Q1 S1] [Q2 S2].
  split; [intros n; exact (queue_moves_trans _ _ _ _ _ _ (Q1 n) (Q2 n))|by etrans].
Qed.

Lemma take_moves_slots sv l : Forall2 slot_moves (slots sv) l → take_moves sv (set_slots l sv).
Proof. intros H. split; [intros n; by apply queue_moves_frame|done]. Qed.

Lemma take_moves_put w s s' sv : slots sv !! w = Some s → slot_moves s s' → take_moves sv (put_slot w s' sv).
Proof. intros Hw Hm. by apply take_moves_slots, (slots_moved_insert w s). Qed.

Lemma take_moves_queue sv c q :
  try_recv (req sv) = (RecvOk c, q) → take_moves sv (set_queue (req_tx sv) q sv).
Proof. intros Hr. split; [intros n; by eapply queue_moves_recv|reflexivity]. Qed.

Lemma take_moves_lane w s rx c rx' sv :
  slots sv !! w = Some s → lane_rx s = Some rx → try_recv rx = (RecvOk c, rx') →
  take_moves sv (put_slot w (set_lane (lane_tx s) (Some rx') s) sv).
Proof.
  intros Hw Hrx Hr. eapply take_moves_put; [done|]. apply (slot_moves_recv s (Some c)).
  unfold recv_lane. by rewrite Hrx, Hr.
Qed.

Lemma take_moves_alter (f : WorkerSlot chan → WorkerSlot chan) w sv :
  (∀ s, lane_rx (f s) = lane_rx s ∧ lane_tx (f s) = lane_tx s) → take_moves sv (set_slots (alter f w (slots sv)) sv).
Proof. intros Hf. apply take_moves_slots, slots_moved_alter. intros s. apply slot_moves_frame; apply Hf. Qed.

Lemma park_moves w sv : take_moves sv (park w sv).
Proof.
  split; [intros n; by apply queue_moves_frame|]. apply slots_moved_alter. intros s. by apply slot_moves_frame.
Qed.

Lemma timeout_at_moves w sv r sv' : timeout_at w sv = (r, sv') → take_moves sv sv'.
Proof.
  unfold timeout_at, after_timeout. destruct (slots sv !! w) as [s|] eqn:Hw; [|by intros [= _ <-]].
  destruct (retired s); simpl.
  - destruct (recv_lane s) as [t s'] eqn:Hr. intros [= _ <-].
    eapply take_moves_put; [done|]. by eapply slot_moves_recv.
  - intros [= _ <-]. by eapply take_moves_put.
Qed.

Lemma queue_tick_moves w sv r sv' : queue_tick w sv = (r, sv') → take_moves sv sv'.
Proof.
  unfold queue_tick, recv_timeout. destruct (try_recv (req sv)) as [[c| |] q] eqn:Hr.
  - intros [= _ <-]. by eapply take_moves_queue.
  - apply timeout_at_moves.
  - by intros [= _ <-].
Qed.

Lemma steal_moves w sv t sv' : steal w sv = (t, sv') → take_moves sv sv'.
Proof.
  unfold steal. destruct (steal_from _ _ _) as [t' l'] eqn:Hl. intros [= _ <-].
  by eapply take_moves_slots, slots_moved_steal.
Qed.

Lemma lane_tick_moves w sv r sv' : lane_tick w sv = (r, sv') → take_moves sv sv'.
Proof.
  unfold lane_tick. destruct (slots sv !! w) as [s|] eqn:Hw; [|by intros [= _ <-]].
  destruct (lane_rx s) as [rx|] eqn:Hrx; [|by intros [= _ <-]].
  unfold recv_timeout. destruct (try_recv rx) as [[c| |] rx'] eqn:Hr; [| |by intros [= _ <-]].
  - intros [= _ <-]. by eapply take_moves_lane.
  - destruct (timeout_at w sv) as [[t|] sv1] eqn:Ht; apply timeout_at_moves in Ht; [by intros [= _ <-]|].
    destruct (steal w sv1) as [[c|] sv2] eqn:Hs; apply steal_moves in Hs; intros [= _ <-]; by etrans.
Qed.

Lemma block_take_moves w sv r sv' : block_take w [] sv = (r, sv') → take_moves sv sv'.
Proof.
  unfold block_take. destruct (slots sv !! w) as [s|] eqn:Hw; [|by intros [= _ <-]].
  destruct (lane_rx s) as [rx|] eqn:Hrx.
  - unfold lane_take. destruct (try_recv rx) as [[c| |] rx'] eqn:Hr; [| |by intros [= _ <-]].
    + intros [= _ <-]. by eapply take_moves_lane.
    + destruct (steal w sv) as [[c|] sv1] eqn:Hs; apply steal_moves in Hs; simpl; intros [= _ <-]; [done|].
      etrans; [done|]. apply park_moves.
  - destruct (try_recv (req sv)) as [[c| |] q] eqn:Hr; simpl; intros [= _ <-]; [|done..].
    by eapply take_moves_queue.
Qed.

Lemma checkout_moves w sv r sv' : checkout true w [] sv = (r, sv') → take_moves sv sv'.
Proof.
  unfold checkout. simpl. intros Hb%block_take_moves. etrans; [|exact Hb]. by apply take_moves_alter.
Qed.

Lemma take_server_moves n sv sv' : take_moves sv sv' → server_moves n n sv sv'.
Proof. intros [Q S]. split; [apply Q|by apply slots_moved]. Qed.

(** *** Dispatches, aborts and natives *)

Lemma dispatch_moves n sv c d sv' :
  Forall slot_ok (slots sv) → try_dispatch sv c = (d, sv') → server_moves n n sv sv'.
Proof.
  intros Hok. unfold try_dispatch. destruct (_ =? 0)%nat; [by intros [= _ <-]; apply moves_frame|].
  set (sv1 := set_lane_cursor _ sv). set (order := rotation _ _).
  destruct (sweep parked order _ c false) as [[o l] any] eqn:Hs1.
  pose proof (slots_moved_sweep _ _ _ _ _ _ _ _ Hok Hs1) as H1.
  destruct o as [c1|]; [|intros [= _ <-]; by apply moves_slots].
  destruct (sweep_step _ _ _ sv1 _ _ _ _ Hok Hs1) as [[[=] _]|[_ ->]].
  set (order' := _ ++ order). destruct (sweep _ order' _ _ _) as [[o2 l2] any2] eqn:Hs2.
  pose proof (slots_moved_sweep _ _ _ _ _ _ _ _ Hok Hs2) as H2.
  destruct o2; [destruct any2|]; intros [= _ <-]; by apply moves_slots.
Qed.

Lemma abort_moves n w s s' h h' b sv :
  slots sv !! w = Some s → abort_slot s h = (b, (s', h')) → server_moves n n sv (put_slot w s' sv).
Proof. intros Hw Ha. eapply moves_put; [done|]. by eapply slot_moves_abort. Qed.

Lemma new_slot_new b : new_slot b (slot_new b : WorkerSlot chan).
Proof.
  split; [apply lane_new|]. split; [done|]. unfold lane_counted, slot_new. simpl. destruct b; [|done].
  apply (bounded_spec (RequestCtx chan) LANE_DEPTH).
Qed.

Lemma register_moves n sv :
  server_moves n n sv
    (default sv (try_get (id (config sv)) (register_worker_native (id (config sv)) (insert sv registry_new)).2)).
Proof.
  unfold register_worker_native, get. cbn [servers insert]. rewrite lookup_insert_eq.
  cbn [register_worker snd]. rewrite on_one_server. split; [by apply queue_moves_frame|].
  exists (slots sv), [slot_new (lanes (config sv))].
  split; [done|]. split; [reflexivity|]. apply Forall_singleton, new_slot_new.
Qed.

Lemma slot_native_moves n (f : WorkerSlot chan → WorkerSlot chan) w sv :
  (∀ s, lane_rx (f s) = lane_rx s ∧ lane_tx (f s) = lane_tx s) →
  server_moves n n sv
    (default sv (try_get (id (config sv)) (slot_native f (id (config sv)) w (insert sv registry_new)).2)).
Proof.
  intros Hf. unfold slot_native. rewrite one_server. unfold slot.
  destruct (slots sv !! w) as [s|] eqn:Hw; cbn [snd].
  - rewrite on_one_server. apply moves_put with s; [done|]. apply slot_moves_frame; apply Hf.
  - rewrite one_server. by apply moves_frame.
Qed.

Lemma close_queue_moves n sv :
  server_moves n n sv
    (default sv (try_get (id (config sv)) (close_queue (id (config sv)) (insert sv registry_new)))).
Proof.
  unfold close_queue. rewrite on_one_server. split.
  - destruct (queue_moves_close n sv) as [O C X]. by split.
  - apply slots_moved. unfold close_req. destruct (req_tx sv); simpl; apply slots_moved_fmap, slot_moves_close.
Qed.

Lemma on_one_server_moves n (f : ServerInner chan → ServerInner chan) sv :
  server_moves n n sv (f sv) →
  server_moves n n sv
    (default sv (try_get (id (config sv)) (on_server (id (config sv)) f (insert sv registry_new)))).
Proof. by rewrite on_one_server. Qed.

Lemma native_moves n k sv : server_moves n n sv (run_native k sv).
Proof.
  unfold run_native.
  destruct k; [| |apply close_queue_moves| |apply register_moves
    |by apply (slot_native_moves _ (set_quarantined true))|by apply (slot_native_moves _ retire)
    |by apply (slot_native_moves _ reset)|..];
    apply on_one_server_moves; try (by apply moves_frame).
  apply moves_slots; [|done..]. apply slots_moved_fmap. intros s. by apply slot_moves_frame.
Qed.

Lemma await_moves n i sv h resp sv' : await_head i sv h = (resp, sv') → server_moves n n sv sv'.
Proof. unfold await_head. intros H. repeat case_match; simplify_eq; by apply moves_frame. Qed.

Lemma admit_moves n {env_t} (build_env : RequestCtx chan → result env_t) w now ms c sv h res sv' h' :
  admit_request build_env w now ms c sv h = (res, (sv', h')) → server_moves n n sv sv'.
Proof.
  unfold admit_request. destruct (build_env _); intros [= _ <- _];
    apply moves_slots; try done; apply slots_moved_alter; intros s; by apply slot_moves_frame.
Qed.
End slots.

(** ** What every state keeps *)

Section home.
Context {chan oneshot : Type → Type}
  `{!Flume chan, !FlumeSpec chan, !Oneshot oneshot, !OneshotSpec oneshot}.
Implicit Types (s : System chan oneshot) (sv : ServerInner chan).

(** The live senders are those the code holds. *)
Definition senders_counted s : Prop :=
  queue_counted (length (sending s)) (server s) ∧ Forall lane_counted (slots (server s)).

(** ** A worker goes home *)

(** What worker [w] takes from, and whether nothing can be added to it. *)
Definition source s (sl : WorkerSlot chan) : list (RequestCtx chan) :=
  if lanes (config (server s)) then lane sl else contents (req (server s)).
Definition source_closed s (sl : WorkerSlot chan) : Prop :=
  if lanes (config (server s)) then lane_tx sl = false
  else req_tx (server s) = false ∧ sending s = [].

Definition ended_empty (c : chan (RequestCtx chan)) : Prop := contents c = [] ∧ senders c = 0%nat.

Lemma recv_disconnected (c : chan (RequestCtx chan)) : (try_recv c).1 = RecvDisconnected ↔ ended_empty c.
Proof.
  destruct (try_recv c) as [r c'] eqn:Hr. cbn. unfold ended_empty.
  apply try_recv_cases in Hr as [(x & l & -> & Hc & _)|[(-> & _ & _ & Hs)|(-> & _ & Hc & Hs)]].
  - rewrite Hc. split; [done|by intros []].
  - split; [done|by intros [_ ?]].
  - by split.
Qed.

(** The first round of a take sends the worker home on an empty channel
    without senders, and only then. *)
Lemma block_take_home w sv (sl : WorkerSlot chan) :
  slots sv !! w = Some sl →
  (block_take w [] sv).1 = TakeEnded None ↔ ended_empty (default (req sv) (lane_rx sl)).
Proof.
  intros Hw. rewrite <-recv_disconnected. unfold block_take. rewrite Hw.
  destruct (lane_rx sl) as [rx|]; simpl.
  - unfold lane_take. destruct (try_recv rx) as [[c| |] rx']; simpl; [by split| |by split].
    destruct (steal w sv) as [[c|] sv1]; simpl; by split.
  - destruct (try_recv (req sv)) as [[c| |] q]; simpl; by split.
Qed.

Lemma checkout_home w sv (sl : WorkerSlot chan) :
  slots sv !! w = Some sl →
  (checkout true w [] sv).1 = TakeEnded None ↔ ended_empty (default (req sv) (lane_rx sl)).
Proof.
  intros Hw. unfold checkout. simpl.
  rewrite block_take_home; [|cbn [slots set_slots]; by rewrite list_lookup_alter_eq, Hw]. done.
Qed.

(** A round of the loop also sends home a retired worker with nothing to do. *)
Lemma timeout_at_home w sv (sl : WorkerSlot chan) :
  slots sv !! w = Some sl →
  (timeout_at w sv).1 = Some None ↔ retired sl = true ∧ lane sl = [].
Proof.
  intros Hw. unfold timeout_at, after_timeout. rewrite Hw. destruct (retired sl); simpl; [|split; [done|by intros [[=] _]]].
  destruct (recv_lane sl) as [[c|] sl'] eqn:Hr; pose proof (recv_lane_spec _ _ _ Hr) as Hl; simpl in *.
  - rewrite Hl. split; [done|by intros [_ [=]]].
  - destruct Hl as [_ Hl]. by split.
Qed.

Definition tick (w : nat) sv : option (Taken chan) * ServerInner chan :=
  if lanes (config sv) then lane_tick w sv else queue_tick w sv.

Lemma tick_home w sv (sl : WorkerSlot chan) :
  server_ok sv → slots sv !! w = Some sl →
  let c := default (req sv) (lane_rx sl) in
  (tick w sv).1 = Some None ↔ contents c = [] ∧ (senders c = 0%nat ∨ retired sl = true).
Proof.
  intros Hok Hw. unfold tick. pose proof (timeout_at_home _ _ _ Hw) as Ht.
  destruct Hok as [Hslots _]. rewrite Forall_lookup in Hslots. destruct (Hslots _ _ Hw) as [_ <-].
  destruct (lane_rx sl) as [rx|] eqn:Hrx; unfold lane in Ht; rewrite Hrx in Ht; simpl.
  - unfold lane_tick, recv_timeout. rewrite Hw, Hrx.
    destruct (try_recv rx) as [r rx'] eqn:Hr.
    apply try_recv_cases in Hr as [(x & l & -> & Hc & _)|[(-> & _ & Hc & Hs)|(-> & _ & Hc & Hs)]].
    + rewrite Hc. split; [done|by intros []].
    + destruct (timeout_at w sv) as [[t|] sv1] eqn:Hta; simpl in *; [naive_solver|].
      destruct (steal w sv1) as [[c|] sv2]; simpl; naive_solver.
    + naive_solver.
  - unfold queue_tick, recv_timeout. destruct (try_recv (req sv)) as [r q] eqn:Hr.
    apply try_recv_cases in Hr as [(x & l & -> & Hc & _)|[(-> & _ & Hc & Hs)|(-> & _ & Hc & Hs)]].
    + rewrite Hc. split; [done|by intros []].
    + rewrite Ht. naive_solver.
    + naive_solver.
Qed.

(** The senders of a worker's source, as the state counts them. *)
Lemma source_senders s w (sl : WorkerSlot chan) :
  sys_ok s → senders_counted s → slots (server s) !! w = Some sl →
  let c := default (req (server s)) (lane_rx sl) in
  contents c = source s sl ∧ (senders c = 0%nat ↔ source_closed s sl).
Proof.
  intros K [Hq Hl] Hw. rewrite Forall_lookup in Hl. specialize (Hl _ _ Hw). unfold lane_counted in Hl.
  destruct (ok_server _ K) as [Hslots _]. rewrite Forall_lookup in Hslots. destruct (Hslots _ _ Hw) as [_ Hb].
  unfold source, source_closed, lane. rewrite <-Hb.
  destruct (lane_rx sl) as [rx|]; simpl; split; [done| |done|].
  - rewrite Hl. by destruct (lane_tx sl).
  - rewrite Hq. destruct (req_tx (server s)), (sending s); simpl; naive_solver lia.
Qed.

(** A fresh server whose channels have no sender but its own. *)
Definition pristine sv : Prop := fresh_server sv ∧ queue_counted 0 sv ∧ Forall lane_counted (slots sv).

End home.

(** ** The system *)

Section system.
Context {chan oneshot : Type → Type}
  `{!Flume chan, !FlumeSpec chan, !Oneshot oneshot, !OneshotSpec oneshot}.
Context {env_t : Type} (build_env : RequestCtx chan → result env_t).
Variable to_str : string → option string.
Implicit Types (s : System chan oneshot) (sv : ServerInner chan).

Notation sys_step := (sys_step build_env to_str).

(** The handlers blocked in their send are the ones that hold a clone. *)
Lemma sys_step_moves s s' :
  sys_step s s' → sys_ok s →
  server_moves (length (sending s)) (length (sending s')) (server s) (server s').
Proof.
  intros Hstep K. pose proof (ok_server _ K) as Hok. pose proof (server_slots_ok _ Hok) as Hslots.
  assert (Hlen : ∀ (l1 l2 : list (RequestCtx chan)) c, length (l1 ++ c :: l2) = S (length (l1 ++ l2)))
    by (intros; rewrite !length_app; simpl; lia).
  destruct Hstep; cbn [server sending] in *; rewrite ?Hlen; try (by apply moves_frame).
  - unfold enter in *. simplify_eq. by apply moves_frame.
  - by eapply dispatch_moves.
  - by eapply dispatch_moves.
  - apply moves_queue; [by apply queue_moves_clone|done].
  - apply moves_queue; [|done]. eapply queue_moves_send; [apply Hok|done].
  - apply moves_queue; [apply queue_moves_drop|done].
  - by eapply take_server_moves, checkout_moves.
  - by eapply take_server_moves, queue_tick_moves.
  - by eapply take_server_moves, lane_tick_moves.
  - by apply take_server_moves, take_moves_alter.
  - by eapply admit_moves.
  - by eapply admit_moves.
  - by eapply abort_moves.
  - apply native_moves.
  - by eapply await_moves.
  - unfold leave in *. simplify_eq. by apply moves_frame.
Qed.

Lemma senders_counted_step s s' : sys_step s s' → sys_ok s → senders_counted s → senders_counted s'.
Proof.
  intros Hstep K [Hq Hl]. destruct (sys_step_moves _ _ Hstep K) as [Q (l0 & new & Hs & Hm & Hn)].
  split; [by apply (qm_counted _ _ _ _ Q)|]. rewrite Hs. apply Forall_app. split.
  - rewrite Forall_lookup in Hl |- *. intros w s1 Hw.
    destruct (Forall2_lookup_r _ _ _ _ _ Hm Hw) as (s0 & Hw0 & M). apply (sm_counted _ _ M). eauto.
  - eapply Forall_impl; [exact Hn|]. by intros s1 (_ & _ & ?).
Qed.

(** A run keeps the order of the queue and of each lane. *)
Definition in_order sv sv' : Prop :=
  moves (contents (req sv)) (contents (req sv'))
  ∧ ∀ w sl, slots sv !! w = Some sl → ∃ sl', slots sv' !! w = Some sl' ∧ moves (lane sl) (lane sl').

Lemma in_order_refl sv : in_order sv sv.
Proof. split; [done|]. intros w sl Hw. by exists sl. Qed.

Lemma in_order_trans sv1 sv2 sv3 : in_order sv1 sv2 → in_order sv2 sv3 → in_order sv1 sv3.
Proof.
  intros [Q1 S1] [Q2 S2]. split; [by etrans|]. intros w sl Hw.
  destruct (S1 _ _ Hw) as (sl2 & Hw2 & ?). destruct (S2 _ _ Hw2) as (sl3 & Hw3 & ?).
  exists sl3. split; [done|by etrans].
Qed.

Lemma server_moves_in_order n n' sv sv' : server_moves n n' sv sv' → in_order sv sv'.
Proof.
  intros [Q (l0 & new & Hs & Hm & _)]. split; [apply Q|]. intros w sl Hw.
  destruct (Forall2_lookup_l _ _ _ _ _ Hm Hw) as (sl' & Hw' & M).
  exists sl'. split; [|apply M]. rewrite Hs. by apply lookup_app_l_Some.
Qed.

Lemma in_order_steps s s' : sys_ok s → steps sys_step s s' → sys_ok s' ∧ in_order (server s) (server s').
Proof.
  intros K Hs. refine (steps_invariant sys_step (λ t, sys_ok t ∧ in_order (server s) (server t)) _ s s' Hs _).
  - intros t t' Hstep [Kt Ho]. split; [by eapply (sys_ok_step build_env to_str)|].
    eapply in_order_trans; [done|]. by eapply server_moves_in_order, sys_step_moves.
  - split; [done|apply in_order_refl].
Qed.

Lemma pristine_reachable sv s : pristine sv → steps sys_step (sys_init sv) s → sys_ok s ∧ senders_counted s.
Proof.
  intros [Hf Hc] Hs. refine (steps_invariant sys_step (λ t, sys_ok t ∧ senders_counted t) _ _ _ Hs _).
  - intros t t' Hstep [Kt Ct]. split; [by eapply (sys_ok_step build_env to_str)|by eapply senders_counted_step].
  - split; [by apply sys_ok_init|done].
Qed.

Section reachable.
Variables (sv0 : ServerInner chan) (s : System chan oneshot).
Hypothesis Hboot : pristine sv0.
Hypothesis Hreach : steps sys_step (sys_init sv0) s.

(** C14: Requests are served in the order in which they came in. Along every
    run from a reachable state, whatever dispatchers, thieves, aborts and
    closings do, what is on the shared queue only leaves at the front and
    only joins at the back, and so does each worker's lane, which stays at
    its place in the slot table: a request never overtakes another of the
    same queue or lane. *)
Theorem no_overtaking s' :
  steps sys_step s s' →
  moves (contents (req (server s))) (contents (req (server s')))
  ∧ ∀ w sl, slots (server s) !! w = Some sl →
      ∃ sl', slots (server s') !! w = Some sl' ∧ moves (lane sl) (lane sl').
Proof.
  intros Hs. destruct (pristine_reachable _ _ Hboot Hreach) as [K _]. exact (proj2 (in_order_steps _ _ K Hs)).
Qed.

(** C13: A worker is sent home exactly when it should be. In every reachable
    state its take answers nil if and only if what it takes from (its lane,
    or the shared queue) is empty and closed: the sender is gone from its
    mutex and, for the queue, no handler is still blocked in its send with a
    clone of it. A round of the loop it blocks in answers nil if and only if
    its source is empty and either closed or the slot retired. So no worker
    leaves while a request waits for it or could still come, and a drained
    server keeps none. *)
Theorem sent_home_exactly w (sl : WorkerSlot chan) :
  slots (server s) !! w = Some sl →
  ((checkout true w [] (server s)).1 = TakeEnded None ↔ source s sl = [] ∧ source_closed s sl)
  ∧ ((tick w (server s)).1 = Some None ↔ source s sl = [] ∧ (source_closed s sl ∨ retired sl = true)).
Proof.
  intros Hw. destruct (pristine_reachable _ _ Hboot Hreach) as [K C].
  destruct (source_senders _ _ _ K C Hw) as [Hc Hs]. split.
  - rewrite (checkout_home _ _ _ Hw). unfold ended_empty. by rewrite Hc, Hs.
  - rewrite (tick_home _ _ _ (ok_server _ K) Hw). by rewrite Hc, Hs.
Qed.
End reachable.
End system.

(** ** Examples: one request on the queue, one worker *)

Lemma capped_pristine : pristine capped_server.
Proof. split; [exact capped_fresh|]. split; [reflexivity|apply Forall_nil_2]. Defined.

Lemma queued_run :
  ∃ s, steps sample_step (sys_init capped_server) s ∧ server s = placed.2.1 ∧ cells s = placed.2.2
    ∧ sending s = [] ∧ taken s = [].
Proof.
  eexists. split.
  - eapply steps_cons; [apply (sys_arrive _ _ capped_server ∅ [] [] [] [] [] [] plain_request
        (MkSocketAddr (V4 10 0 0 1) 5) (MkSocketAddr (V4 10 0 0 2) 80) 1 0 plain_ctx); reflexivity|].
    eapply steps_cons; [apply (sys_open _ _ _ _ [] plain_ctx []); reflexivity|].
    eapply steps_cons; [apply (sys_send _ _ _ _ _ [] plain_ctx []); [reflexivity|vm_compute; reflexivity]|].
    eapply steps_cons; [apply (sys_native _ _ _ _ _ _ _ _ _ _ NRegister)|]. apply steps_refl.
  - split_and!; vm_compute; reflexivity.
Defined.

(** The worker takes the request. *)
Definition first_take := checkout true 0 [] placed.2.1.

Lemma first_take_step s :
  server s = placed.2.1 →
  ∃ s', sample_step s s' ∧ server s' = first_take.2 ∧ sending s' = sending s
    ∧ length (taken s') = S (length (taken s)).
Proof.
  destruct s as [sv h pl se ta ha fw cl]. cbn. intros ->.
  exists (MkSystem first_take.2 h pl se (taken_of first_take.1 ++ ta) ha fw cl).
  split; [by eapply (sys_take _ _ _ _ _ _ _ _ _ _ 0), surjective_pairing|]. by split_and!.
Defined.

(** The queue loses its front. *)
Example no_overtaking_witness :
  length (contents (req placed.2.1)) = 1%nat ∧ contents (req first_take.2) = []
  ∧ moves (contents (req placed.2.1)) (contents (req first_take.2)).
Proof.
  split; [reflexivity|]. split; [reflexivity|]. destruct queued_run as (s & Hs & Hsv & _).
  destruct (first_take_step s Hsv) as (s' & Hs' & Hsv' & _).
  rewrite <-Hsv, <-Hsv'.
  exact (proj1 (no_overtaking (λ _, Ok tt) Some capped_server s capped_pristine Hs s' (steps_one _ _ _ Hs'))).
Defined.

(** A request waits: the worker is not sent home. *)
Example sent_home_exactly_witness :
  ∃ s, steps sample_step (sys_init capped_server) s ∧ (checkout true 0 [] (server s)).1 ≠ TakeEnded None.
Proof.
  destruct queued_run as (s & Hs & Hsv & _). exists s. split; [exact Hs|].
  assert (Hw : ∃ sl, slots (server s) !! 0%nat = Some sl) by (rewrite Hsv; eexists; reflexivity).
  destruct Hw as [sl Hw].
  destruct (sent_home_exactly (λ _, Ok tt) Some capped_server s capped_pristine Hs 0 sl Hw) as [Hco _].
  intros Hn. destruct (proj1 Hco Hn) as [He _]. revert He. unfold source. rewrite Hsv. vm_compute. discriminate.
Defined.
