(* ===== verification/Shutdown.v ===== *)
(** The end of a server and of a worker: once the queue is closed the workers
    run out of requests and leave, and what a worker that crashed was holding
    is answered. *)

From S2P Require Import Prelude Channels Gvl Response Request Registry Dispatch Queue Lifecycle.
From S2P Require Import Outcomes Admission System Runs Order.

(** ** Draining *)

Section drain.
Context {chan oneshot : Type → Type}
  `{!Flume chan, !FlumeSpec chan, !Oneshot oneshot, !OneshotSpec oneshot}.
Context {env_t : Type} (build_env : RequestCtx chan → result env_t).
Variable to_str : string → option string.
Implicit Types (s : System chan oneshot) (sv : ServerInner chan) (c : RequestCtx chan).

Notation sys_step := (sys_step build_env to_str).

(** No mutex holds a sender any more. *)
Definition closed sv : Prop :=
  req_tx sv = false ∧ Forall (λ sl, lane_tx sl = false) (slots sv).

(** The native [close_queue], called in state [s]. *)
Definition queue_closed s : System chan oneshot :=
  MkSystem (run_native NCloseQueue (server s)) (cells s) (placing s) (sending s) (taken s)
    (handles s) (forwarders s) (clients s).

(** What the workers can still be given: what waits, and what the handlers
    blocked in their send may add. *)
Definition backlog s : nat := (length (sending s) + length (waiting (server s)))%nat.

(** The step hands a request to a worker. *)
Definition delivers s s' : Prop := sys_step s s' ∧ length (taken s') = S (length (taken s)).

(** A run in which [n] steps hand a request to a worker. *)
Inductive deliveries : nat → System chan oneshot → System chan oneshot → Prop :=
  | no_delivery s : deliveries 0 s s
  | other_step n s1 s2 s3 : sys_step s1 s2 → deliveries n s2 s3 → deliveries n s1 s3
  | delivery n s1 s2 s3 : delivers s1 s2 → deliveries n s2 s3 → deliveries (S n) s1 s3.

Lemma run_close_queue sv : run_native NCloseQueue sv = close_server sv.
Proof. unfold run_native. apply on_one_server. Qed.

Lemma closed_close_server sv : closed (close_server sv).
Proof.
  split; [unfold close_server, close_req; by destruct (req_tx sv) eqn:E|].
  assert (slots (close_server sv) = close_lane <$> slots sv) as ->
    by (unfold close_server, close_req; by destruct (req_tx sv)).
  apply Forall_fmap, Forall_true. intros sl. apply lane_tx_close_lane.
Qed.

Lemma queue_closed_step s : sys_step s (queue_closed s).
Proof. destruct s as [sv h pl se ta ha fw cl]. apply sys_native. Qed.

Lemma backlog_closed s : backlog (queue_closed s) = backlog s.
Proof. unfold backlog, queue_closed. cbn [server sending]. by rewrite run_close_queue, waiting_close. Qed.

(** No slot registers in a closed server, unless it has no lanes. *)
Definition none_registered sv sv' : Prop :=
  lanes (config sv) = true → length (slots sv') = length (slots sv).

Lemma slots_moved_closed (l l' : list (WorkerSlot chan)) :
  Forall2 slot_moves l l' → Forall (λ sl, lane_tx sl = false) l →
  Forall (λ sl, lane_tx sl = false) l' ∧ (length (l' ≫= lane) ≤ length (l ≫= lane))%nat.
Proof.
  induction 1 as [|sl sl' l l' M Hm IH]; [done|]. intros (Ht & Hl)%Forall_cons.
  destruct (sm_closed _ _ M Ht) as [Ht' Hsuf%suffix_length_le]. destruct (IH Hl) as [Hl' Hle].
  split; [by constructor|]. rewrite !bind_cons, !length_app. lia.
Qed.

(** A closed server stays closed, and its backlog only shrinks. *)
Lemma closed_step s s' :
  sys_step s s' → sys_ok s → closed (server s) → none_registered (server s) (server s') →
  closed (server s') ∧ (backlog s' ≤ backlog s)%nat ∧ (length (sending s') ≤ length (sending s))%nat.
Proof.
  intros Hstep K [Ht Hl] Hn.
  destruct (sys_step_moves build_env to_str _ _ Hstep K) as [Q (l0 & new & Hs & Hm & Hnew)].
  destruct (qm_closed _ _ _ _ Q Ht) as (Ht' & Hse & Hq). destruct (slots_moved_closed _ _ Hm Hl) as [Hl0 Hle].
  assert (Hnew' : Forall (λ sl, lane_tx sl = false) new ∧ new ≫= lane = []).
  { unfold none_registered in Hn. rewrite Hs, length_app in Hn. apply Forall2_length in Hm.
    destruct (lanes (config (server s))).
    - specialize (Hn eq_refl). destruct new; [done|]. simpl in Hn. lia.
    - clear -Hnew. induction Hnew as [|sl new (H1 & H2 & _) _ [IH1 IH2]]; [done|].
      split; [by constructor|]. by rewrite bind_cons, H1, IH2. }
  destruct Hnew' as [Hn1 Hn2]. split; [split; [done|]; rewrite Hs; by apply Forall_app|].
  split; [|done]. unfold backlog, waiting, chan_len in *.
  rewrite Hs, bind_app, Hn2, app_nil_r, !length_app. lia.
Qed.

Lemma checkout_delivers w sv c sv' :
  checkout true w [] sv = (TakeEnded (Some c), sv') → length (waiting sv) = S (length (waiting sv')).
Proof.
  unfold checkout. simpl. set (sv1 := set_slots _ sv). intros Hb.
  assert (waiting sv1 = waiting sv) as <- by (unfold waiting; simpl; by rewrite lanes_alter).
  destruct (block_take_took (λ l, l = waiting sv1) w [] sv1 (Some c) sv') as (l & -> & Hp);
    [by intros ? ? ?%elem_of_nil|done..|]. by rewrite Hp.
Qed.

(** A delivery takes one request off the backlog. *)
Lemma delivers_backlog s s' : delivers s s' → backlog s = S (backlog s').
Proof.
  intros [Hstep Ht]. unfold backlog.
  destruct Hstep; cbn [taken server sending] in *; rewrite ?length_app in Ht; simpl in Ht; try lia.
  - destruct t as [|[c|]]; simpl in Ht; try lia. rewrite (checkout_delivers _ _ _ _ H). lia.
  - apply queue_tick_took in H0. destruct t as [[c|]|]; simpl in *; try lia. rewrite H0. simpl. lia.
  - apply lane_tick_took in H. destruct t as [[c|]|]; simpl in *; try lia. rewrite H. simpl. lia.
Qed.

(** *** Runs of a closed server *)

Lemma slots_grow s s' :
  sys_step s s' → sys_ok s → (length (slots (server s)) ≤ length (slots (server s')))%nat.
Proof.
  intros Hstep K. destruct (sys_step_moves build_env to_str _ _ Hstep K) as [_ (l0 & new & Hs & Hm & _)].
  rewrite Hs, length_app, (Forall2_length _ _ _ Hm). lia.
Qed.

Lemma deliveries_steps n s s' : deliveries n s s' → steps sys_step s s'.
Proof. induction 1 as [|? ? ? ? ? _ IH|? ? ? ? [? _] _ IH]; eauto using steps. Qed.

Lemma slots_grow_steps s s' :
  steps sys_step s s' → sys_ok s → (length (slots (server s)) ≤ length (slots (server s')))%nat.
Proof.
  induction 1 as [|s1 s2 s3 Hstep _ IH]; intros K; [done|].
  pose proof (slots_grow _ _ Hstep K). specialize (IH ltac:(by eapply (sys_ok_step build_env to_str))). lia.
Qed.

Lemma none_registered_split s1 s2 s3 :
  sys_step s1 s2 → steps sys_step s2 s3 → sys_ok s1 → none_registered (server s1) (server s3) →
  none_registered (server s1) (server s2) ∧ none_registered (server s2) (server s3).
Proof.
  intros Hstep Hs K Hn. pose proof (sys_step_config _ _ _ _ Hstep K) as Hc.
  pose proof (slots_grow _ _ Hstep K).
  pose proof (slots_grow_steps _ _ Hs ltac:(by eapply (sys_ok_step build_env to_str))).
  unfold none_registered in *. rewrite Hc. split; intros Hl; specialize (Hn Hl); lia.
Qed.

(** Each delivery uses up one of the backlog, and nothing adds to it. *)
Lemma closed_deliveries n s s' :
  deliveries n s s' → sys_ok s → closed (server s) → none_registered (server s) (server s') →
  closed (server s') ∧ (n + backlog s' ≤ backlog s)%nat ∧ (length (sending s') ≤ length (sending s))%nat.
Proof.
  induction 1 as [s|n s1 s2 s3 Hstep Hd IH|n s1 s2 s3 Hd1 Hd IH]; intros K Hc Hn; [done| |].
  - destruct (none_registered_split _ _ _ Hstep (deliveries_steps _ _ _ Hd) K Hn) as [Hn1 Hn2].
    destruct (closed_step _ _ Hstep K Hc Hn1) as (Hc2 & Hb & Hl).
    destruct IH as (? & ? & ?); [by eapply (sys_ok_step build_env to_str)|done..|]. split_and!; [done|lia..].
  - pose proof (delivers_backlog _ _ Hd1) as Hb1. destruct Hd1 as [Hstep _].
    destruct (none_registered_split _ _ _ Hstep (deliveries_steps _ _ _ Hd) K Hn) as [Hn1 Hn2].
    destruct (closed_step _ _ Hstep K Hc Hn1) as (Hc2 & Hb & Hl).
    destruct IH as (? & ? & ?); [by eapply (sys_ok_step build_env to_str)|done..|]. split_and!; [done|lia..].
Qed.

(** With every sender gone, a take ends at once, whatever the others would do
    while it waited. *)
Lemma closed_take s w (sl : WorkerSlot chan) env :
  sys_ok s → senders_counted s → closed (server s) → sending s = [] → slots (server s) !! w = Some sl →
  ∃ t sv', checkout true w env (server s) = (TakeEnded t, sv') ∧ (t = None ↔ source s sl = []).
Proof.
  intros K C [Ht Hl] Hse Hw. destruct (source_senders _ _ _ K C Hw) as [Hc Hs].
  assert (Hcl : source_closed s sl).
  { unfold source_closed. rewrite Forall_lookup in Hl. destruct (lanes _); [by eapply Hl|done]. }
  apply Hs in Hcl. rewrite <-Hc. clear Hc Hs. unfold checkout. simpl.
  set (f := λ sl0 : WorkerSlot chan, _). unfold block_take. cbn [slots set_slots].
  rewrite list_lookup_alter_eq, Hw. cbn [fmap option_fmap option_map].
  change (lane_rx (f sl)) with (lane_rx sl). destruct (lane_rx sl) as [rx|]; simpl in *.
  - unfold lane_take. destruct (try_recv rx) as [r rx'] eqn:Hr.
    apply try_recv_cases in Hr as [(x & l & -> & -> & _)|[(-> & _ & _ & Hne)|(-> & _ & -> & _)]]; [|done|];
      by do 2 eexists.
  - destruct (try_recv (req (server s))) as [r q] eqn:Hr.
    apply try_recv_cases in Hr as [(x & l & -> & -> & _)|[(-> & _ & _ & Hne)|(-> & _ & -> & _)]]; [|done|];
      by do 2 eexists.
Qed.

(** C11: A drained server lets its workers go. Once [close_queue] has run, in
    any reachable state, and as long as no new slot registers: nothing is
    placed any more; the queue and the lanes stay closed; the requests the
    workers are still handed, however many workers there are and whatever
    else happens, are at most those that waited and those whose handlers were
    blocked in their send, so that every worker's loop runs out; and once
    those handlers have ended (they end with the queue timeout, and no new
    one starts), every take of every worker, an idle worker's included, ends
    at once: with a request if one waits for it, with nil if none does. *)
Theorem close_queue_empties sv0 s n s' :
  pristine sv0 → steps sys_step (sys_init sv0) s → deliveries n (queue_closed s) s' →
  none_registered (server s) (server s') →
  closed (server s')
  ∧ (n + backlog s' ≤ backlog s)%nat ∧ (length (sending s') ≤ length (sending s))%nat
  ∧ (∀ c, (try_dispatch (server s') c).1 ≠ Sent)
  ∧ (sending s' = [] → ∀ w sl env, slots (server s') !! w = Some sl →
      ∃ t sv', checkout true w env (server s') = (TakeEnded t, sv') ∧ (t = None ↔ source s' sl = [])).
Proof.
  intros Hb Hr Hd Hn. pose proof (queue_closed_step s) as Hq.
  assert (Hr1 : steps sys_step (sys_init sv0) (queue_closed s)) by (eapply steps_trans; [done|by apply steps_one]).
  destruct (pristine_reachable _ _ _ _ Hb Hr) as [K _]. destruct (pristine_reachable _ _ _ _ Hb Hr1) as [K1 _].
  assert (Hc1 : closed (server (queue_closed s))) by (cbn; rewrite run_close_queue; apply closed_close_server).
  destruct (none_registered_split _ _ _ Hq (deliveries_steps _ _ _ Hd) K Hn) as [_ Hn1].
  destruct (closed_deliveries _ _ _ Hd K1 Hc1 Hn1) as (Hc & Hbl & Hse).
  rewrite backlog_closed in Hbl. split_and!; [done..| |].
  - intros c. rewrite try_dispatch_closed; [by case_bool_decide|].
    destruct Hc as [_ Hl]. rewrite Forall_lookup in Hl. exact Hl.
  - intros Hs w sl env Hw.
    assert (Hr' : steps sys_step (sys_init sv0) s') by (eapply steps_trans; [done|by eapply deliveries_steps]).
    destruct (pristine_reachable _ _ _ _ Hb Hr') as [K' C']. by apply closed_take.
Qed.
End drain.

(** ** After a crash *)

Section crash.
Context {chan oneshot : Type → Type}
  `{!Flume chan, !FlumeSpec chan, !Oneshot oneshot, !OneshotSpec oneshot}.
Context {env_t : Type} (build_env : RequestCtx chan → result env_t).
Variable to_str : string → option string.
Implicit Types (s : System chan oneshot) (h : heap chan oneshot) (sv : ServerInner chan)
  (c : RequestCtx chan) (sl : WorkerSlot chan).

Notation sys_step := (sys_step build_env to_str).

(** *** What a slot knows its worker holds *)

Definition recorded (l : list (env_t * RequestCtx chan)) (w : nat) sv : Prop :=
  ∀ e c sl, (e, c) ∈ l → slots sv !! w = Some sl → responder c ∈ current sl.

Lemma recorded_admit w now ms c sv h e c' sv' h' l :
  admit_request build_env w now ms c sv h = (Ok (e, c'), (sv', h')) → recorded l w sv →
  recorded (l ++ [(e, c')]) w sv'.
Proof.
  unfold admit_request. destruct (build_env _); [|done]. intros [= _ <- <- _] Hl e1 c1 sl.
  cbn [slots set_slots set_histogram set_counters]. rewrite list_lookup_alter_eq, elem_of_app.
  intros [Hin|Hin%list_elem_of_singleton]; destruct (slots sv !! w) as [sl0|] eqn:Hw; intros [= <-]; cbn.
  - rewrite elem_of_app. left. by eapply Hl.
  - injection Hin as _ ->. rewrite elem_of_app. right. by left.
Qed.

Lemma recorded_fill n w now ms batch sv h l sv' h' :
  fill_batch build_env n w now ms batch sv h = (Ok l, (sv', h')) → recorded batch w sv → recorded l w sv'.
Proof.
  revert batch sv h. induction n as [|n IH]; intros batch sv h; cbn; [by intros [= <- <- _]|].
  destruct (try_recv (req sv)) as [[c| |] q]; [|by intros [= <- <- _]..].
  destruct (admit_request build_env w now ms c _ h) as [[[e c']|] [sv1 h1]] eqn:Ha; [|done].
  intros Hf Hb. eapply IH; [done|]. by eapply recorded_admit.
Qed.

(** What a worker's call hands over, one request or a batch. *)
Definition takes (w : nat) (env : list (ServerInner chan → ServerInner chan)) (now ms : Z) sv h
    (l : list (env_t * RequestCtx chan)) sv' h' : Prop :=
  (∃ x, take_one build_env true w env now ms sv h = (Some (Ok (Some x)), (sv', h')) ∧ l = [x])
  ∨ ∃ max, take_batch build_env true w max env now ms sv h = (Some (Ok (Some l)), (sv', h')).

Lemma takes_recorded w env now ms sv h l sv' h' : takes w env now ms sv h l sv' h' → recorded l w sv'.
Proof.
  assert (Hnil : ∀ sv0, recorded [] w sv0) by (intros ? ? ? ? ?%elem_of_nil; done).
  intros [(x & Ht & ->)|[max Ht]]; revert Ht; unfold take_one, take_batch;
    destruct (checkout true w env sv) as [[|[c|]] sv1]; try done;
    destruct (admit_request build_env w now ms c sv1 h) as [[[e c']|] [sv2 h2]] eqn:Ha; try done;
    pose proof (recorded_admit _ _ _ _ _ _ _ _ _ _ [] Ha (Hnil _)) as Hrec.
  - by intros [= <- <- _].
  - destruct (fill_batch build_env (max - 1) w now ms [(e, c')] sv2 h2) as [[l'|] [sv3 h3]] eqn:Hf; [|done].
    intros [= <- <- _]. by eapply recorded_fill.
Qed.

(** *** What an abort answers *)

Lemma drain_lane_empties fuel sl h sl' h' :
  drain_lane fuel sl h = (Returned, (sl', h')) → (length (lane sl) < fuel)%nat → lane sl' = [].
Proof.
  revert sl h. induction fuel as [|fuel IH]; intros sl h; cbn; [lia|].
  destruct (recv_lane sl) as [[c|] sl1] eqn:Hr; pose proof (recv_lane_spec _ _ _ Hr) as Hl; simpl in Hl.
  - destruct (drop_ctx c h) as [[] h1]; [|done]. intros Hd Hn. eapply IH; [done|].
    rewrite Hl in Hn. simpl in Hn. lia.
  - destruct Hl as [-> Hl]. by intros [= <- _].
Qed.

(** The requests in the lane, and those recorded whose pointers are alive. *)
Lemma abort_answers b sl h sl' h' i n r :
  abort_slot sl h = (Returned, (sl', h')) → slot_in b sl →
  (∀ j m x, h !! j = Some (m, x) → cell_ok x) →
  h' !! i = Some (n, r) → i ∈ ids (lane sl) ∨ (i ∈ current sl ∧ n ≠ 0%nat) → outcome_of r ≠ OsPending.
Proof.
  unfold abort_slot. destruct (abort_each (current sl) h) as [[] h1] eqn:Ha; [|done].
  set (sl1 := set_parked _ _ _). intros Hd Hb Hok Hi Hor.
  assert (Hl1 : lane sl1 = lane sl) by exact (lane_abort_prepared sl).
  pose proof (drain_lane_empties _ _ _ _ _ Hd ltac:(unfold lane_fuel; lia)) as He.
  destruct (drain_lane_step b _ _ _ _ _ _ Hd) as (l & Hl & _ & Hs); [by apply (slot_in_close b)|].
  rewrite He, app_nil_r, Hl1 in Hl. subst l. specialize (Hs i). rewrite Hi in Hs.
  pose proof (heap_step_abort_each (current sl) h i) as Hs1. rewrite Ha in Hs1. cbn [snd] in Hs1.
  destruct (h1 !! i) as [[n1 r1]|] eqn:H1; [|done]. destruct Hs as [Hn Hs].
  destruct (h !! i) as [[n0 r0]|] eqn:H0; [|done]. destruct Hs1 as [_ Hs1].
  destruct (Hs1 (Hok _ _ _ H0)) as (Hok1 & _ & _). destruct (Hs Hok1) as (_ & Hle & Hlane).
  destruct Hor as [Hin|[Hin Hne]]; [by apply Hlane|]. eapply outcome_le_settled; [exact Hle|].
  destruct n1 as [|n1]; [lia|]. by eapply (abort_each_answers (current sl)).
Qed.

(** Cells are never removed. *)
Lemma cells_kept s s' i :
  steps sys_step s s' → sys_ok s → is_Some (cells s !! i) → is_Some (cells s' !! i).
Proof.
  induction 1 as [|s1 s2 s3 Hstep _ IH]; [done|]. intros K Hi.
  apply IH; [by eapply (sys_ok_step build_env to_str)|].
  destruct (sys_step_effect _ _ _ _ Hstep K) as [(j & c & _ & _ & _ & _ & -> & _)|(gone & fw & E)].
  - destruct (decide (i = j)) as [->|Hne]; [by rewrite lookup_insert_eq|by rewrite lookup_insert_ne].
  - pose proof (ef_cells _ _ _ _ E i) as Hc. destruct Hi as [[n r] Hi]. rewrite Hi in Hc.
    by destruct (cells s2 !! i).
Qed.

(** A request in somebody's hands has its cell. *)
Lemma owned_cell s i : sys_ok s → i ∈ ids (owned s) → is_Some (cells s !! i).
Proof.
  intros K Hi%occ_elem_of. destruct (cells s !! i) eqn:H; [done|]. by destruct (ok_known _ K _ H).
Qed.

Lemma takes_state s w env now ms l sv1 h1 :
  sys_ok s → Forall (others_any (oneshot:=oneshot) build_env to_str) env → takes w env now ms (server s) (cells s) l sv1 h1 →
  runs_to build_env to_str s sv1 h1 (handed l).
Proof.
  intros K Henv [(x & Ht & ->)|[max Ht]].
  - exact (take_one_run _ _ _ _ _ _ _ _ _ _ K Henv Ht).
  - exact (take_batch_run _ _ _ _ _ _ _ _ _ _ _ K Henv Ht).
Qed.

(** The request has its answer, or nobody to give it to. *)
Definition answered_in h c : Prop := ∃ n r, h !! responder c = Some (n, r) ∧ outcome_of r ≠ OsPending.

Lemma abort_answered s w sl sl' h' c :
  sys_ok s → slots (server s) !! w = Some sl → abort_slot sl (cells s) = (Returned, (sl', h')) →
  is_Some (cells s !! responder c) → responder c ∈ ids (lane sl) ++ current sl → answered_in h' c.
Proof.
  intros K Hw Ha Hcell Hin.
  set (s' := MkSystem (put_slot w sl' (server s)) h' (placing s) (sending s) (taken s) (handles s)
               (forwarders s) (clients s)).
  assert (Hstep : sys_step s s') by (destruct s; by eapply sys_abort).
  pose proof (sys_ok_step _ _ _ _ Hstep K) as K'.
  destruct (cells_kept _ _ (responder c) (steps_one _ _ _ Hstep) K Hcell) as [[n r] Hr]. cbn in Hr.
  exists n, r. split; [done|]. destruct (ok_server _ K) as [Hslots _]. rewrite Forall_lookup in Hslots.
  destruct (decide (n = 0%nat)) as [->|Hne].
  - pose proof (ok_counts _ K' _ _ _ Hr). by apply (ok_cells _ K' _ _ _ Hr); lia.
  - eapply abort_answers; [done|by eapply Hslots| |done|].
    + intros j m x Hj. by apply (ok_cells _ K _ _ _ Hj).
    + apply elem_of_app in Hin as [?|?]; [by left|by right].
Qed.

End crash.

(** ** Examples: one request on the queue, one worker *)

(** The queue is closed, the worker takes the request, and is sent home. *)
Example close_queue_empties_witness :
  ∃ s' : System ListChan.t oneshot_state, backlog s' = 0%nat
    ∧ ∃ sv', checkout true 0 [] (server s') = (TakeEnded None, sv').
Proof.
  destruct queued_run as (s & Hs & Hsv & Hh & Hse & Hta).
  set (sv1 := run_native NCloseQueue placed.2.1).
  set (s' := MkSystem (checkout true 0 [] sv1).2 (cells s) (placing s) (sending s)
    (taken_of (checkout true 0 [] sv1).1 ++ taken s) (handles s) (forwarders s) (clients s)).
  assert (Hd : deliveries (λ _, Ok tt) Some 1 (queue_closed s) s').
  { eapply delivery; [|apply no_delivery]. split; [|reflexivity]. unfold queue_closed. rewrite Hsv.
    eapply (sys_take _ _ _ _ _ _ _ _ _ _ 0), surjective_pairing. }
  destruct (close_queue_empties (λ _, Ok tt) Some capped_server s 1 s' capped_pristine Hs Hd)
    as (_ & Hb & _ & _ & Hgo).
  { intros _. rewrite Hsv. vm_compute. reflexivity. }
  exists s'. split; [unfold backlog; cbn [sending server s']; rewrite Hse; vm_compute; reflexivity|].
  assert (Hw : ∃ sl, slots (server s') !! 0%nat = Some sl) by (eexists; reflexivity). destruct Hw as [sl Hw].
  destruct (Hgo Hse 0%nat sl [] Hw) as (t & sv' & Hco & Hnil). exists sv'. rewrite Hco.
  by rewrite (proj2 Hnil) by (vm_compute; reflexivity).
Defined.

Definition crash_take := take_one (λ _, Ok tt) true 0 [] 0 0 placed.2.1 placed.2.2.

Definition crash_abort :=
  match slots crash_take.2.1 !! 0%nat with Some sl => abort_slot sl crash_take.2.2 | None => (Parked, (slot_new false, ∅)) end.


(** [none_registered] is needed: a slot that registers after the queue was
    closed has a lane that nobody closes, in which a request is still placed
    and whose worker waits instead of leaving. *)
Example late_slot_stays_open :
  let sv := run_native NRegister (run_native NCloseQueue (sample_server true [slot_new true])) in
  (λ sl, lane_tx sl) <$> slots sv = [false; true]
  ∧ (try_dispatch sv plain_ctx).1 = Sent ∧ (checkout true 1 [] sv).1 = TakeBlocked.
Proof. by vm_compute. Qed.
