(* ===== verification/Delivery.v ===== *)
(** What the client is sent: the head channel of a running handler is never
    deaf, the drain's condition says what it means, a worker's answer is a run
    of the system, and the response the client gets is the one the application
    gave. *)

From S2P Require Import Prelude Channels Gvl Response Request Registry Dispatch Queue Lifecycle.
From S2P Require Import Outcomes Admission System Runs.
From S2P Require Pin Reply.

(** ** Deaf heads *)

Section deaf.
Context {chan oneshot : Type → Type}
  `{!Flume chan, !FlumeSpec chan, !Oneshot oneshot, !OneshotSpec oneshot}.
Implicit Types (r : Responder chan oneshot) (h : heap chan oneshot) (sl : WorkerSlot chan).

(** Nobody listens to the head any more. *)
Definition deaf r : Prop := outcome_of r = OsDeaf.

Lemma ear_cases r : deaf r ∨ ¬ deaf r.
Proof. unfold deaf. destruct (outcome_of r); (by left) || (by right). Qed.

(** What a server's own operations do to a head: they answer it, they do not
    hang up. *)
Definition keeps_ear r r' : Prop := cell_ok r → cell_ok r' ∧ (deaf r' ↔ deaf r).

Lemma keeps_ear_same r r' : same_head r r' → keeps_ear r r'.
Proof.
  intros Hs Hok. destruct (evolves_same _ _ Hs Hok) as [Hok' _]. split; [done|].
  destruct Hs as (_ & _ & Hh). unfold deaf, outcome_of. by rewrite Hh.
Qed.

Lemma send_head_ear x r : unsent r → deaf (send_head x r).2 ↔ deaf r.
Proof.
  unfold deaf, unsent, outcome_of, send_head. intros [H|H].
  - destruct (os_send_pending _ x _ H) as (o & -> & Ho). cbn. by rewrite H, Ho.
  - destruct (os_send_deaf _ x _ H) as (o & -> & Ho). cbn. by rewrite H, Ho.
Qed.

Lemma call_keeps_ear o r : keeps_ear r (call o r).
Proof.
  intros Hok. destruct (call_evolves o r Hok) as (Hok' & Hle & _). split; [done|].
  destruct (claim_cases r Hok) as [[Hc Hr]|(r1 & Hc & Hr & Hh & Hu)].
  - assert (Hs : same_head r (call o r)) by (by apply call_claimed). by apply keeps_ear_same in Hs as [].
  - assert (Hdeaf : ∀ r2, head r2 = head r → deaf r2 ↔ deaf r) by (unfold deaf, outcome_of; by intros r2 ->).
    assert (Hsend : ∀ x r2, head r2 = head r1 → deaf (send_head x r2).2 ↔ deaf r).
    { intros x r2 H2. rewrite send_head_ear by (unfold unsent in *; by rewrite H2). apply Hdeaf. congruence. }
    destruct o as [resp|[hd|]|]; unfold call, send_response, send_stream_head, respond_500_if_unsent;
      rewrite Hc; cbn [snd].
    + by apply Hsend.
    + unfold deaf, outcome_of. destruct (send_stream_head_of hd (open_stream r1)) as (-> & _).
      by apply (Hsend (MkResponse hd StreamBody) (open_stream r1)).
    + unfold deaf, outcome_of, drop_head_tx, unsent in *. cbn. rewrite Hh in *. destruct Hu as [Hu|Hu]; rewrite Hu.
      * by rewrite os_drop_sender_pending.
      * by rewrite os_drop_sender_deaf.
    + by apply Hsend.
Qed.

(** ** The heap *)

Definition is_deaf r : bool := match outcome_of r with OsDeaf => true | _ => false end.

Lemma is_deaf_iff r : is_deaf r = true ↔ deaf r.
Proof. unfold is_deaf, deaf. by destruct (outcome_of r). Qed.

Definition deaf_at h (i : nat) : Prop := ∃ n r, h !! i = Some (n, r) ∧ deaf r.

(** No cell comes or goes, and none turns deaf. *)
Notation ears_kept := (kept (oneshot:=oneshot) cell_ok is_deaf).

Lemma deaf_at_observed h i : deaf_at h i ↔ observed is_deaf h i = Some true.
Proof.
  unfold deaf_at, observed. destruct (h !! i) as [[n r]|]; cbn; [|by split; [intros (?&?&?&_)|]].
  split; [intros (? & ? & [= <- <-] & H%is_deaf_iff); congruence|].
  intros [= H%is_deaf_iff]. by do 2 eexists.
Qed.

Lemma keeps_ear_deaf r r' : keeps_ear r r' → keeps cell_ok is_deaf r r'.
Proof.
  intros H Hok. destruct (H Hok) as [Hok' Hd]. split; [done|]. rewrite <-!is_deaf_iff in Hd.
  destruct (is_deaf r), (is_deaf r'); naive_solver.
Qed.

Lemma ears_kept_at h h' :
  ears_kept h h' → all_ok cell_ok h →
  all_ok cell_ok h' ∧ ∀ i, (is_Some (h' !! i) ↔ is_Some (h !! i)) ∧ (deaf_at h' i ↔ deaf_at h i).
Proof.
  intros H Hok. destruct (H Hok) as [Hok' He]. split; [done|]. intros i. rewrite !deaf_at_observed, He. split; [|done].
  specialize (He i). unfold observed in He. destruct (h' !! i), (h !! i); naive_solver.
Qed.

Lemma abort_keeps_ear r : keeps cell_ok is_deaf r (call OpAbort r).
Proof. apply keeps_ear_deaf, call_keeps_ear. Qed.
End deaf.

(** ** Connected clients *)

Section connected.
Context {chan oneshot : Type → Type}
  `{!Flume chan, !FlumeSpec chan, !Oneshot oneshot, !OneshotSpec oneshot}.
Context {env_t : Type} (build_env : RequestCtx chan → result env_t).
Variable to_str : string → option string.
Implicit Types (s : System chan oneshot).

Notation sys_step := (sys_step build_env to_str).

(** A head is deaf exactly when its handler has ended. *)
Record connected_ok s : Prop := {
  co_once : NoDup (clients s);
  co_known : ∀ i, i ∈ clients s → is_Some (cells s !! i);
  co_deaf : ∀ i, is_Some (cells s !! i) → i ∈ clients s ↔ ¬ deaf_at (cells s) i;
}.

Lemma sys_ok_heap s : sys_ok s → all_ok cell_ok (cells s).
Proof. intros K i n r Hi. by apply (ok_cells _ K _ _ _ Hi). Qed.

Notation ears_kept := (kept (oneshot:=oneshot) cell_ok is_deaf).

(** What keeps handlers and ears. *)
Lemma connected_kept s s' :
  ears_kept (cells s) (cells s') → clients s' = clients s → sys_ok s → connected_ok s → connected_ok s'.
Proof.
  intros He Hc K [O1 O2 O3]. destruct (ears_kept_at _ _ He (sys_ok_heap _ K)) as [_ He'].
  split; rewrite Hc; [done|intros i Hi; by apply He', O2|].
  intros i Hi. destruct (He' i) as [Hs ->]. by apply O3, Hs.
Qed.

Lemma connected_step s s' : sys_step s s' → sys_ok s → connected_ok s → connected_ok s'.
Proof.
  intros Hstep K C. pose proof (connected_kept s s') as Hkept.
  destruct Hstep; cbn [cells clients] in *;
    try (by apply Hkept; [reflexivity|..]).
  - unfold enter in *. simplify_eq. destruct C as [O1 O2 O3]. cbn in *.
    assert (Hni : rid ∉ cl) by (intros Hin; destruct (O2 _ Hin); congruence).
    split; cbn.
    + by constructor.
    + intros j [->|Hj]%elem_of_cons; [by rewrite lookup_insert_eq|].
      rewrite lookup_insert_is_Some. destruct (decide (rid = j)); auto.
    + intros j Hj. rewrite elem_of_cons. unfold deaf_at. destruct (decide (j = rid)) as [->|Hne].
      * rewrite lookup_insert_eq. split; [|by left]. intros _ (m & x & [= <- <-] & Hx).
        unfold deaf, outcome_of in Hx. cbn in Hx. by rewrite os_new_spec in Hx.
      * rewrite lookup_insert_ne in Hj by done. rewrite lookup_insert_ne by done.
        rewrite <-(O3 j Hj). split; [by intros [?|?]|by right].
  - apply Hkept; [|done..]. replace h' with (drop_ctx c h).2 by (by rewrite H). apply kept_drop_ctx, abort_keeps_ear.
  - apply Hkept; [|done..]. replace h' with (drop_ctx c h).2 by (by rewrite H). apply kept_drop_ctx, abort_keeps_ear.
  - apply admit_step in H as (_ & _ & ->). by apply Hkept.
  - apply admit_step in H as (_ & ->). apply Hkept; [|done..]. apply kept_drop_ctx, abort_keeps_ear.
  - apply Hkept; [|done..]. eapply kept_store; [done|]. apply keeps_ear_deaf, call_keeps_ear.
  - apply Hkept; [|done..]. eapply kept_store; [done|]. by apply keeps_ear_deaf, keeps_ear_same, stream_op_same.
  - apply Hkept; [|done..]. replace h' with (drop_ctx c h).2 by (by rewrite H). apply kept_drop_ctx, abort_keeps_ear.
  - apply Hkept; [|done..]. replace h' with (abort_slot s h).2.2 by (by rewrite H0). apply kept_abort_slot, abort_keeps_ear.
  - unfold leave in *. simplify_eq. destruct C as [O1 O2 O3]. cbn in *.
    apply NoDup_app in O1 as (N1 & N2 & N3). apply NoDup_cons in N3 as [N3 N4].
    assert (Hi : i ∉ l1 ++ l2). { rewrite elem_of_app. intros [Hin|?]; [|done]. by apply (N2 i Hin); left. }
    split; cbn.
    + apply NoDup_app. split_and!; [done| |done]. intros j H1 H2. apply (N2 j H1). by right.
    + intros j Hj. destruct (decide (j = i)) as [->|Hne]; [done|]. rewrite lookup_alter_ne by done.
      apply O2. revert Hj. rewrite !elem_of_app, elem_of_cons. tauto.
    + intros j Hj. unfold deaf_at. destruct (decide (j = i)) as [->|Hne].
      * split; [done|]. intros Hd. destruct Hd. revert Hj. rewrite lookup_alter_eq.
        destruct (h !! i) as [[n r]|]; cbn; [|by intros []]. intros _. do 2 eexists. split; [done|].
        apply os_drop_receiver_spec.
      * rewrite lookup_alter_ne in Hj by done. rewrite lookup_alter_ne by done. rewrite <-(O3 j Hj).
        rewrite !elem_of_app, elem_of_cons. tauto.
  - apply Hkept; [|done..]. apply kept_arc_drop.
Qed.

Lemma connected_init (sv : ServerInner chan) : connected_ok (sys_init sv).
Proof. split; [apply NoDup_nil_2|by intros i ?%elem_of_nil|]. intros i Hx. cbn in Hx. rewrite lookup_empty in Hx. by destruct Hx. Qed.

Lemma connected_reachable sv s :
  fresh_server sv → steps sys_step (sys_init sv) s → sys_ok s ∧ connected_ok s.
Proof.
  intros Hf Hs. refine (steps_invariant sys_step (λ t, sys_ok t ∧ connected_ok t) _ _ _ Hs _).
  - intros t t' Hstep [K C]. split; [by eapply (sys_ok_step build_env to_str)|by eapply connected_step].
  - split; [by apply sys_ok_init|apply connected_init].
Qed.
End connected.

(** ** The drain's condition *)

Section drained.
Context {chan oneshot : Type → Type}
  `{!Flume chan, !FlumeSpec chan, !Oneshot oneshot, !OneshotSpec oneshot}.
Context {env_t : Type} (build_env : RequestCtx chan → result env_t).
Variable to_str : string → option string.
Implicit Types (s : System chan oneshot) (sv : ServerInner chan).

Notation sys_step := (sys_step build_env to_str).

Lemma Zsum_depths (l : list (WorkerSlot chan)) :
  Zsum (omap (λ sl, match lane_rx sl with Some rx => Some (Z.of_nat (chan_len rx)) | None => None end) l)
  = Z.of_nat (length (l ≫= lane)).
Proof.
  induction l as [|sl l IH]; [done|]. rewrite bind_cons, length_app. cbn [omap list_omap].
  unfold lane at 1. destruct (lane_rx sl) as [rx|]; simpl; [|by rewrite <-IH].
  rewrite IH. unfold chan_len. lia.
Qed.

(** [queued] counts every request that waits. *)
Lemma queued_waiting sv : server_ok sv → queued sv = Z.of_nat (length (waiting sv)).
Proof.
  intros [Hslots _]. unfold queued, lane_depths, waiting, chan_len. rewrite length_app.
  destruct (lanes (config sv)) eqn:Hl; simpl; [rewrite Zsum_depths; lia|].
  assert (slots sv ≫= lane = []) as ->; [|simpl; lia].
  induction Hslots as [|sl l [_ Hb] _ IH]; [done|]. rewrite bind_cons, IH, app_nil_r.
  unfold lane. by destruct (lane_rx sl).
Qed.

(** C12: The drain stops waiting exactly when there is nobody left to wait
    for. In every reachable state, with the server under its id, the figures
    [queue_stats] gives the drain loop are the number of requests waiting in
    the queue and the lanes, and the number of handlers that still run; both
    are zero if and only if no request waits and every client that ever came
    has had its handler end. *)
Theorem drained_exactly sv0 s g i :
  fresh_server sv0 → steps sys_step (sys_init sv0) s → try_get i g = Some (server s) →
  Z.of_nat (length (clients s)) < u64_modulus →
  queue_stats i g = (Z.of_nat (length (waiting (server s))), Z.of_nat (length (clients s)))
  ∧ (queue_stats i g = (0, 0) ↔
       waiting (server s) = [] ∧ ∀ j, is_Some (cells s !! j) → deaf_at (cells s) j).
Proof.
  intros Hf Hreach Hg Hlt. destruct (connected_reachable build_env to_str _ _ Hf Hreach) as [K [_ C2 C3]].
  assert (Hq : queue_stats i g = (Z.of_nat (length (waiting (server s))), Z.of_nat (length (clients s)))).
  { unfold queue_stats. rewrite Hg, (queued_waiting _ (ok_server _ K)), (ok_gauge _ K), wrap64_small; [done|].
    unfold u64_ok. lia. }
  split; [exact Hq|]. rewrite Hq. split.
  - intros [= Hw Hc]. split; [apply nil_length_inv; lia|]. intros j Hj.
    assert (Hcl : clients s = []) by (apply nil_length_inv; lia).
    specialize (C3 j Hj). rewrite Hcl in C3. destruct (cells s !! j) as [[n r]|] eqn:Hr; [|by destruct Hj].
    destruct (ear_cases r) as [Hd|Hd]; [by exists n, r|].
    exfalso. apply (not_elem_of_nil j), C3. intros (n' & r' & Hr' & Hd'). by simplify_eq.
  - intros [-> Hd]. destruct (clients s) as [|j cl] eqn:Hcl; [done|]. exfalso.
    assert (Hin : j ∈ j :: cl) by left. by apply C3 in Hin; [|by apply C2]; apply Hin, Hd, C2; left.
Qed.
End drained.

(** ** A worker answers *)

Section respond.
Context {chan oneshot : Type → Type}
  `{!Flume chan, !FlumeSpec chan, !Oneshot oneshot, !OneshotSpec oneshot}.
Context {env_t : Type} (build_env : RequestCtx chan → result env_t).
Variable to_str : string → option string.
Variables (to_s : Reply.RbValue → result string) (valid_status : Z → bool)
  (valid_header : string → string → bool) (http_error : string).
Variable acquire : Pin.RString → Pin.RString.
Implicit Types (s : System chan oneshot) (h : heap chan oneshot) (sv : ServerInner chan)
  (c : RequestCtx chan).

Notation sys_step := (sys_step build_env to_str).
Notation respond_request := (respond_request to_s valid_status valid_header http_error acquire).

(** Only the server and the heap changed: requests and handlers are where
    they were. *)
Definition only_answered s s' : Prop :=
  placing s' = placing s ∧ sending s' = sending s ∧ taken s' = taken s ∧ handles s' = handles s
  ∧ forwarders s' = forwarders s ∧ clients s' = clients s.

Definition with_pins (sl : Pin.PinSlab) s : System chan oneshot :=
  MkSystem (set_pins sl (server s)) (cells s) (placing s) (sending s) (taken s) (handles s)
    (forwarders s) (clients s).

Lemma with_pins_same s : with_pins (pin_slab (server s)) s = s.
Proof. by destruct s as [[] ? ? ? ? ? ? ?]. Qed.

Lemma body_bytes_run s body b sl :
  Pin.body_bytes acquire (pin_slab (server s)) body = (b, sl) → steps sys_step s (with_pins sl s).
Proof.
  assert (Hpin : ∀ v o sl0, Pin.insert v (pin_slab (server s)) = (o, sl0) → steps sys_step s (with_pins sl0 s))
    by (intros; destruct s; apply steps_one; by eapply sys_pin).
  assert (Hsame : steps sys_step s (with_pins (pin_slab (server s)) s)) by (rewrite with_pins_same; constructor).
  unfold Pin.body_bytes, Pin.pinned_bytes. intros H.
  repeat case_match; simplify_eq; try done; by eapply Hpin.
Qed.

Lemma drop_bytes_run s b :
  steps sys_step s (with_pins (Pin.drop_bytes b (pin_slab (server s))) s).
Proof.
  destruct b; cbn; [rewrite with_pins_same; constructor|]. destruct s. apply steps_one, sys_unpin.
Qed.

Lemma call_run s c n r o :
  c ∈ handles s → cells s !! responder c = Some (n, r) → o ≠ OpAbort →
  steps sys_step s
    (MkSystem (server s) (store (responder c) (call o r) (cells s)) (placing s) (sending s) (taken s)
       (handles s) (forwarders s) (clients s)).
Proof.
  intros Hc Hr Ho. destruct s as [sv h pl se ta ha fw cl]. cbn in *.
  apply list_elem_of_split in Hc as (l1 & l2 & ->). apply steps_one. by eapply sys_call.
Qed.

Lemma store_same i n r h : h !! i = Some (n, r) → store i r h = h.
Proof.
  intros Hi. unfold store. apply map_eq. intros j. destruct (decide (j = i)) as [->|Hne];
    [by rewrite lookup_alter_eq, Hi|by rewrite lookup_alter_ne].
Qed.

(** [respond]: pin the body, answer, release the body if nobody took it. *)
Lemma respond_run s now c st hs body res sv' h' :
  c ∈ handles s → respond_request now c st hs body (server s) (cells s) = (res, (sv', h')) →
  runs_to build_env to_str s sv' h' (only_answered s).
Proof.
  intros Hc. unfold respond_request, Reply.respond_simple.
  destruct (cells s !! responder c) as [[n r]|] eqn:Hr;
    [|intros [= _ <- <-]; exists s; split; [constructor|by split_and!]].
  assert (Hstay : ∀ s', steps sys_step s s' → only_answered s s' → cells s' = cells s →
    runs_to build_env to_str s (server s') (store (responder c) r (cells s)) (only_answered s)).
  { intros s' Hs Ho Hce. exists s'. rewrite (store_same _ _ _ _ Hr). by split_and!. }
  destruct (Reply.build_head _ _ _ _) as [bd|e].
  2:{ intros [= _ <- <-]. rewrite <-(with_pins_same s) at 3. apply (Hstay (with_pins (pin_slab (server s)) s)).
      - rewrite with_pins_same. constructor.
      - rewrite with_pins_same. by split_and!.
      - done. }
  destruct (Pin.body_bytes acquire (pin_slab (server s)) body) as [bytes sl] eqn:Hb.
  pose proof (body_bytes_run _ _ _ _ Hb) as Hs1.
  destruct (timed now c bd) as [hd|].
  2:{ intros [= _ <- <-]. apply (Hstay (with_pins (Pin.drop_bytes bytes sl) (with_pins sl s))); [|by split_and!|done].
      eapply steps_trans; [exact Hs1|]. exact (drop_bytes_run (with_pins sl s) bytes). }
  destruct (send_response _ r) as [[] r'] eqn:Hsend; intros [= _ <- <-];
    set (x := MkResponse hd (full_body bytes)) in *;
    assert (Hcall : call (OpRespond x) r = r') by (unfold call; by rewrite Hsend);
    pose proof (call_run (with_pins sl s) c n r (OpRespond x) Hc Hr ltac:(done)) as Hs2; rewrite Hcall in Hs2.
  - eexists. split; [eapply steps_trans; [exact Hs1|exact Hs2]|]. by split_and!.
  - eexists. split.
    + eapply steps_trans; [exact Hs1|]. eapply steps_trans; [exact Hs2|]. apply (drop_bytes_run _ bytes).
    + by split_and!.
Qed.

(** The fused calls: the answer, then the take. *)
Lemma respond_and_take_one_run s now c st hs body w env now' ms r sv' h' :
  sys_ok s → c ∈ handles s → Forall (others_any (oneshot:=oneshot) build_env to_str) env →
  respond_and_take_one to_s valid_status valid_header http_error acquire build_env
    now c st hs body true w env now' ms (server s) (cells s) = (r, (sv', h')) →
  runs_to build_env to_str s sv' h' (λ s', if r is Some (Ok (Some x)) then handed [x] s' else True).
Proof.
  intros K Hc Henv. unfold respond_and_take_one.
  destruct (respond_request now c st hs body (server s) (cells s)) as [res [sv1 h1]] eqn:Hresp.
  destruct (respond_run _ _ _ _ _ _ _ _ _ Hc Hresp) as (s1 & Hs1 & <- & <- & _).
  intros Hr. eapply runs_after; [exact Hs1|]. destruct res as [b|e].
  - apply (take_one_run build_env to_str s1 w env now' ms r); [by eapply sys_ok_steps|done|done].
  - injection Hr as <- <- <-. by apply runs_refl.
Qed.

Lemma respond_and_take_run s now c max st hs body w env now' ms r sv' h' :
  sys_ok s → c ∈ handles s → Forall (others_any (oneshot:=oneshot) build_env to_str) env →
  respond_and_take to_s valid_status valid_header http_error acquire build_env
    now c max st hs body true w env now' ms (server s) (cells s) = (r, (sv', h')) →
  runs_to build_env to_str s sv' h' (λ s', if r is Some (Ok (Some l)) then handed l s' else True).
Proof.
  intros K Hc Henv. unfold respond_and_take.
  destruct (respond_request now c st hs body (server s) (cells s)) as [res [sv1 h1]] eqn:Hresp.
  destruct (respond_run _ _ _ _ _ _ _ _ _ Hc Hresp) as (s1 & Hs1 & <- & <- & _).
  intros Hr. eapply runs_after; [exact Hs1|]. destruct res as [b|e].
  - apply (take_batch_run build_env to_str s1 w max env now' ms r); [by eapply sys_ok_steps|done|done].
  - injection Hr as <- <- <-. by apply runs_refl.
Qed.


(** What was sent is what a handler that still runs finds. *)
Lemma sent_is_found s s' i n r x :
  sys_ok s → steps sys_step s s' → connected_ok s' → i ∈ clients s' →
  cells s !! i = Some (n, r) → outcome_of r = OsSent x →
  await_head i (server s') (cells s') = (Some x, server s').
Proof.
  intros K Hs C Hi Hr Hx. pose proof (sys_steps_refine _ _ _ _ Hs K) as Hspec.
  destruct (spec_answer_kept _ _ i (stage_of s i) x Hspec) as (st' & o & Hl & _ & Ho);
    [by rewrite lookup_spec_of, Hr, <-Hx|].
  rewrite lookup_spec_of in Hl. destruct (cells s' !! i) as [[n' r']|] eqn:Hr'; simplify_eq/=.
  assert (Hsent : outcome_of r' = OsSent x).
  { destruct Ho as [?|Hd]; [done|]. exfalso. revert Hi. rewrite (co_deaf _ C) by (by rewrite Hr').
    intros Hnd. destruct Hnd. by exists n', r'. }
  unfold await_head. rewrite Hr'. cbn. unfold outcome_of in Hsent. by rewrite Hsent.
Qed.

Hypothesis acquire_bytes : ∀ b, Pin.rbytes (acquire b) = Pin.rbytes b.

(** C6: The client gets what the application answered, byte for byte. In any
    reachable state let a worker respond to a request it holds, that nobody
    has answered yet and whose handler still runs, with a valid status and
    valid header lines. Then the call says it was sent, it is a run of the
    system that moves no request and ends no handler, and from then on, whatever else happens (a supervisor aborting
    the worker, second answers, drops, closings, other requests), the handler,
    as long as it runs, finds exactly this response when it looks at its
    head: the status, the header lines in order, and the bytes of the Ruby
    body, pinned or copied. *)
Theorem client_gets_answer sv0 s now c n r st hs body :
  fresh_server sv0 → steps sys_step (sys_init sv0) s →
  c ∈ handles s → responder c ∈ clients s → cells s !! responder c = Some (n, r) → responded r = false →
  valid_status st && Reply.valid_lines valid_header (Reply.rack_lines hs) = true →
  ∃ sv1 h1 s1 x bytes,
    respond_request now c st (Reply.rack_hash hs) body (server s) (cells s) = (Ok true, (sv1, h1))
    ∧ steps sys_step s s1 ∧ server s1 = sv1 ∧ cells s1 = h1 ∧ only_answered s s1
    ∧ status x = st ∧ h_headers (head_of x) = Reply.rack_lines hs
    ∧ body_of x = FullBody bytes ∧ Pin.bytes_as_ref bytes = Pin.rbytes body
    ∧ ∀ s2, steps sys_step s1 s2 → responder c ∈ clients s2 →
        await_head (responder c) (server s2) (cells s2) = (Some x, server s2).
Proof.
  intros Hf Hreach Hc Hcl Hr Hun Hok.
  destruct (connected_reachable build_env to_str _ _ Hf Hreach) as [K C].
  destruct (ok_cells _ K _ _ _ Hr) as [[Hcell _] _]. destruct (Hcell Hun) as [Htx Hu].
  assert (Hpend : os_state (head r) = OsPending).
  { destruct Hu as [?|Hd]; [done|]. exfalso. revert Hcl. rewrite (co_deaf _ C) by (by rewrite Hr).
    intros Hnd. destruct Hnd. by exists n, r. }
  destruct (Reply.respond_simple_sends to_s valid_status valid_header http_error acquire acquire_bytes
    now c st hs body r (pin_slab (server s)) Hpend Htx Hun Hok)
    as (r' & sl & x & bytes & Hresp & Hsent & Hst & Hhd & Hbody & Hbytes).
  assert (Hreq : respond_request now c st (Reply.rack_hash hs) body (server s) (cells s)
    = (Ok true, (set_pins sl (server s), store (responder c) r' (cells s))))
    by (unfold respond_request; by rewrite Hr, Hresp).
  destruct (respond_run _ _ _ _ _ _ _ _ _ Hc Hreq) as (s1 & Hs1 & Hsv1 & Hh1 & Ho).
  do 2 eexists. exists s1, x, bytes. split; [exact Hreq|]. split; [exact Hs1|]. split; [done|]. split; [done|]. split; [exact Ho|].
  split_and!; [done..|].
  intros s2 Hs2 Hcl2. assert (Hreach2 : steps sys_step (sys_init sv0) s2)
    by (eapply steps_trans; [exact Hreach|]; eapply steps_trans; [exact Hs1|exact Hs2]).
  destruct (connected_reachable build_env to_str _ _ Hf Hreach2) as [_ C2].
  apply (sent_is_found s1 s2 _ n r'); [by eapply sys_ok_steps|done..| |exact Hsent].
  rewrite Hh1. unfold store. by rewrite lookup_alter_eq, Hr.
Qed.
End respond.

(** ** Examples *)

(** The handler waits, the worker holds the request. *)
Lemma held_run :
  ∃ s, steps sample_step (sys_init capped_server) s ∧ 1%nat ∈ clients s
    ∧ (∃ c, c ∈ handles s ∧ responder c = 1%nat)
    ∧ ∃ n r, cells s !! 1%nat = Some (n, r) ∧ responded r = false.
Proof.
  eexists. split.
  - eapply steps_cons; [apply (sys_arrive _ _ capped_server ∅ [] [] [] [] [] [] plain_request
        (MkSocketAddr (V4 10 0 0 1) 5) (MkSocketAddr (V4 10 0 0 2) 80) 1 0 plain_ctx); reflexivity|].
    eapply steps_cons; [apply (sys_open _ _ _ _ [] plain_ctx []); reflexivity|].
    eapply steps_cons; [apply (sys_send _ _ _ _ _ [] plain_ctx []); [reflexivity|vm_compute; reflexivity]|].
    eapply steps_cons; [apply (sys_native _ _ _ _ _ _ _ _ _ _ NRegister)|].
    eapply steps_cons; [apply (sys_take _ _ _ _ _ _ _ _ _ _ 0); vm_compute; reflexivity|].
    eapply steps_cons; [apply (sys_admit _ _ _ _ _ _ [] plain_ctx [] _ _ _ 0 0 0 tt); vm_compute; reflexivity|].
    apply steps_refl.
  - split; [by left|]. split; [eexists; split; [by left|reflexivity]|]. do 2 eexists.
    split; [vm_compute; reflexivity|reflexivity].
Defined.

Definition sample_answer (c : RequestCtx ListChan.t) :=
  respond_request (chan:=ListChan.t) (oneshot:=oneshot_state) (λ _, Ok "") (λ _, true) (λ _ _, true) "" (λ b, b)
    0 c 200 (Reply.rack_hash [("x", ["y"])]) (Pin.MkRString 8 "hi" false).

(** The client finds the answer. *)
Example client_gets_answer_witness :
  ∃ s c sv1 h1 x, steps sample_step (sys_init capped_server) s ∧ c ∈ handles s
    ∧ sample_answer c (server s) (cells s) = (Ok true, (sv1, h1))
    ∧ await_head 1 sv1 h1 = (Some x, sv1) ∧ status x = 200 ∧ h_headers (head_of x) = [("x", "y")].
Proof.
  destruct held_run as (s & Hs & Hcl & (c & Hc & Hi) & n & r & Hr & Hun). rewrite <-Hi in *.
  destruct (client_gets_answer (λ _, Ok tt) Some (λ _, Ok "") (λ _, true) (λ _ _, true) "" (λ b, b) (λ _, eq_refl)
    capped_server s 0 c n r 200 [("x", ["y"])] (Pin.MkRString 8 "hi" false) capped_fresh Hs Hc Hcl Hr Hun eq_refl)
    as (sv1 & h1 & s1 & x & bytes & Hreq & Hs1 & <- & <- & (_ & _ & _ & _ & _ & Hcl1) & Hst & Hhd & _ & _ & Hfind).
  exists s, c, (server s1), (cells s1), x. split; [exact Hs|]. split; [exact Hc|]. split; [exact Hreq|].
  split; [|split; [exact Hst|exact Hhd]]. apply Hfind; [constructor|]. by rewrite Hcl1.
Defined.


(** A request that waits, and the handler behind it: the drain goes on. *)
Lemma waiting_run :
  ∃ s, steps sample_step (sys_init capped_server) s ∧ length (waiting (server s)) = 1%nat
    ∧ length (clients s) = 1%nat.
Proof.
  eexists. split.
  - eapply steps_cons; [apply (sys_arrive _ _ capped_server ∅ [] [] [] [] [] [] plain_request
        (MkSocketAddr (V4 10 0 0 1) 5) (MkSocketAddr (V4 10 0 0 2) 80) 1 0 plain_ctx); reflexivity|].
    eapply steps_cons; [apply (sys_open _ _ _ _ [] plain_ctx []); reflexivity|].
    eapply steps_cons; [apply (sys_send _ _ _ _ _ [] plain_ctx []); [reflexivity|vm_compute; reflexivity]|].
    apply steps_refl.
  - split; vm_compute; reflexivity.
Defined.

Example drained_exactly_witness :
  ∃ s g, steps sample_step (sys_init capped_server) s ∧ try_get 0 g = Some (server s) ∧ queue_stats 0 g = (1, 1).
Proof.
  destruct waiting_run as (s & Hs & Hw & Hc). exists s, (MkRegistry {[0%nat := server s]} 1).
  assert (Hg : try_get 0 (MkRegistry {[0%nat := server s]} 1) = Some (server s))
    by (unfold try_get; cbn; by rewrite lookup_singleton_eq).
  destruct (drained_exactly (λ _, Ok tt) Some capped_server s _ 0 capped_fresh Hs Hg) as [Hq _]; [by rewrite Hc|].
  split; [exact Hs|]. split; [exact Hg|]. by rewrite Hq, Hw, Hc.
Defined.
