(* ===== verification/Buffers.v ===== *)
(** Who owns the zero-copy buffers. A body pinned by [pin.rs] moves, as a
    [Bytes], from the worker that answers to a head channel or a frame
    channel, from there to hyper, and whoever drops it frees its slot. The
    system of [System], with the buffers nobody but a thread holds next to it:
    every live buffer is rooted, no slot is freed twice, and none leaks. *)

From S2P Require Import Prelude Channels Gvl Response Request Registry Dispatch Queue Lifecycle.
From S2P Require Import Outcomes Admission System Delivery.
From S2P Require Text Pin Reply.

Import Pin (PinnedBuf, pb_index, pb_value, BytesPinned, BytesCopied, drop_bytes, body_bytes).

(** ** The slab and the live buffers *)

Section slab.
Implicit Types (bs : list PinnedBuf) (sl : Pin.PinSlab).

(** The slots in use are those of the live buffers, one each, and each holds
    its buffer's string. *)
Record pinned_ok sl bs : Prop := {
  po_once : NoDup (pb_index <$> bs);
  po_rooted : ∀ b, b ∈ bs → Pin.slots sl !! pb_index b = Some (pb_value b) ∧ pb_value b ≠ 0;
  po_owned : ∀ i v, Pin.slots sl !! i = Some v → v ≠ 0 → ∃ b, b ∈ bs ∧ pb_index b = i;
}.

#[export] Instance pinned_ok_perm sl : Proper ((≡ₚ) ==> iff) (pinned_ok sl).
Proof.
  assert (H : ∀ l k, l ≡ₚ k → pinned_ok sl l → pinned_ok sl k).
  { intros l k E [H1 H2 H3]. split.
    - by rewrite <-E.
    - intros b Hb. apply H2. by rewrite E.
    - intros i v Hi Hv. destruct (H3 i v Hi Hv) as (b & Hb & ?). exists b. by rewrite <-E. }
  intros l k E. split; apply H; [done|by symmetry].
Qed.

Lemma pinned_ok_slots sl sl' bs : Pin.slots sl' = Pin.slots sl → pinned_ok sl bs → pinned_ok sl' bs.
Proof. intros E [H1 H2 H3]. split; rewrite ?E; auto. Qed.

Lemma pinned_ok_pin sl sl' b bs :
  Pin.slots sl !! pb_index b = Some 0 → Pin.slots sl' = <[pb_index b:=pb_value b]> (Pin.slots sl) →
  pb_value b ≠ 0 → pinned_ok sl bs → pinned_ok sl' (b :: bs).
Proof.
  intros H0 E Hv [H1 H2 H3]. pose proof (lookup_lt_Some _ _ _ H0) as Hlt.
  assert (Hnew : ∀ b', b' ∈ bs → pb_index b' ≠ pb_index b) by (intros b' [Hb' ?]%H2 Hi; congruence).
  split.
  - cbn. apply NoDup_cons. split; [|done]. intros (b' & Hi & Hb')%list_elem_of_fmap. by apply (Hnew b' Hb').
  - intros b' [->|Hb']%elem_of_cons; rewrite E; [by rewrite list_lookup_insert_eq|].
    rewrite list_lookup_insert_ne; [by apply H2|]. by intros Hi; apply (Hnew b' Hb').
  - intros i v. rewrite E. destruct (decide (i = pb_index b)) as [->|Hne]; [intros; exists b; split; [left|]; done|].
    rewrite list_lookup_insert_ne by done. intros Hi Hne'. destruct (H3 i v Hi Hne') as (b' & ? & ?).
    exists b'. split; [by right|done].
Qed.

Lemma pinned_ok_release sl b bs : pinned_ok sl (b :: bs) → pinned_ok (Pin.release (pb_index b) sl) bs.
Proof.
  intros [H1 H2 H3]. cbn in H1. apply NoDup_cons in H1 as [Hn H1].
  assert (Hne : ∀ b', b' ∈ bs → pb_index b ≠ pb_index b')
    by (intros b' Hb' E; apply Hn; rewrite E; by apply list_elem_of_fmap_2).
  split; [done|..]; unfold Pin.release; cbn.
  - intros b' Hb'. rewrite list_lookup_insert_ne by (by apply Hne). apply H2. by right.
  - intros i v Hi Hv. destruct (decide (pb_index b = i)) as [<-|Hi'].
    + apply list_lookup_insert_Some in Hi. naive_solver.
    + rewrite list_lookup_insert_ne in Hi by done. destruct (H3 i v Hi Hv) as (b' & [->|?]%elem_of_cons & ?); [done|].
      by exists b'.
Qed.

(** What the mark hook marks: the strings of the live buffers, each once. *)
Lemma pinned_ok_marks sl bs : pinned_ok sl bs → Pin.mark_all sl ≡ₚ pb_value <$> bs.
Proof.
  intros [H1 H2 H3]. unfold Pin.mark_all.
  assert (Hz : ∀ (l : list Z) k, filter (λ v, v ≠ 0) l = snd <$> filter (λ p : nat * Z, p.2 ≠ 0) (imap (λ i v, (k + i, v)%nat) l)).
  { induction l as [|v l IH]; intros k; [done|]. cbn [imap]. rewrite !filter_cons. cbn [snd].
    rewrite (IH (S k)). replace (imap ((λ i v, (k + i, v)%nat) ∘ S) l) with (imap (λ i v, (S k + i, v)%nat) l)
      by (apply imap_ext; intros; cbn; f_equal; lia).
    by case_decide. }
  rewrite (Hz _ 0%nat). clear Hz.
  replace (pb_value <$> bs) with (snd <$> ((λ b, (pb_index b, pb_value b)) <$> bs)) by (by rewrite <-list_fmap_compose).
  apply fmap_Permutation, NoDup_Permutation.
  - apply NoDup_filter. apply (NoDup_fmap_1 fst). rewrite fmap_imap.
    replace (imap _ _) with (seq 0 (length (Pin.slots sl))); [apply NoDup_seq|].
    apply list_eq. intros i. rewrite list_lookup_imap. destruct (Pin.slots sl !! i) eqn:Hi; cbn.
    + apply lookup_seq. split; [done|]. by apply lookup_lt_Some in Hi.
    + apply lookup_seq_ge. by apply lookup_ge_None in Hi.
  - apply (NoDup_fmap_1 fst). by rewrite <-list_fmap_compose.
  - intros [i v]. rewrite list_elem_of_filter, list_elem_of_fmap. cbn [snd].
    assert (Hl : (i, v) ∈ imap (λ j w, (0 + j, w)%nat) (Pin.slots sl) ↔ Pin.slots sl !! i = Some v).
    { rewrite elem_of_lookup_imap. split; [by intros (j & w & [= -> ->] & ?)|intros; by exists i, v]. }
    rewrite Hl. split.
    + intros [Hv Hi]. destruct (H3 i v Hi Hv) as (b & Hb & <-). exists b. split; [|done].
      destruct (H2 b Hb) as [E _]. f_equal. congruence.
    + intros (b & [= -> ->] & Hb). by destruct (H2 b Hb).
Qed.
End slab.

(** ** The buffers a cell holds *)

Definition bufs_of (b : Pin.Bytes) : list PinnedBuf :=
  match b with BytesPinned b => [b] | BytesCopied _ => [] end.

Definition response_bufs (x : HyperResponse) : list PinnedBuf :=
  match body_of x with FullBody b => bufs_of b | StreamBody => [] end.

Definition frame_bufs (f : FrameResult) : list PinnedBuf :=
  match f with FrameData b => bufs_of b | FrameErr _ => [] end.

Section cells.
Context {chan oneshot : Type → Type}
  `{!Flume chan, !FlumeSpec chan, !Oneshot oneshot, !OneshotSpec oneshot}.
Implicit Types (r : Responder chan oneshot) (h : heap chan oneshot) (x : HyperResponse).

Definition head_bufs r : list PinnedBuf :=
  match outcome_of r with OsSent x => response_bufs x | _ => [] end.

(** The frames hyper has not taken yet, while it listens. *)
Definition queued_bufs r : list PinnedBuf :=
  match frames r with
  | Some c => if receiving c then contents c ≫= frame_bufs else []
  | None => []
  end.

Definition cell_bufs r : list PinnedBuf := head_bufs r ++ queued_bufs r.

(** No stream before the claim, and a bounded one after it. *)
Definition stream_ok r : Prop :=
  (responded r = false → frames r = None) ∧ (∀ c, frames r = Some c → (0 < capacity c)%nat).

Definition buf_cell_ok r : Prop := cell_ok r ∧ stream_ok r.

Notation bufs_kept := (kept (oneshot:=oneshot) buf_cell_ok cell_bufs).

Lemma unsent_bufs r : unsent r → head_bufs r = [].
Proof. unfold unsent, head_bufs, outcome_of. by intros [-> | ->]. Qed.

(** The claimant finds nothing, and opens what it sends. *)
Lemma claimed_bufs r r1 :
  buf_cell_ok r → claim r = (true, r1) →
  cell_bufs r = [] ∧ unsent r1 ∧ frames r1 = None ∧ responded r1 = true.
Proof.
  intros [Hok [Hf _]] Hc. destruct (claim_cases r Hok) as [[Hc' _]|(r' & Hc' & Hr & Hh & Hu)]; [congruence|].
  assert (r' = r1) as -> by congruence.
  unfold claim in Hc. cbn in Hc. destruct (responded r) eqn:Hresp; [done|]. specialize (Hf eq_refl).
  assert (Hfr : frames r1 = None) by (injection Hc as _ <-; done).
  split_and!; [|done..]. unfold cell_bufs, queued_bufs. rewrite Hf, app_nil_r.
  apply unsent_bufs. unfold unsent in *. by rewrite Hh in Hu.
Qed.

Lemma send_head_bufs x r :
  unsent r →
  cell_bufs (send_head x r).2 = (if (send_head x r).1 then response_bufs x else []) ++ queued_bufs r.
Proof.
  unfold send_head, cell_bufs, head_bufs, outcome_of, unsent. intros [H|H].
  - destruct (os_send_pending _ x _ H) as (o & -> & Ho). cbn. by rewrite Ho.
  - destruct (os_send_deaf _ x _ H) as (o & -> & Ho). cbn. by rewrite Ho.
Qed.

Lemma send_head_stream x r : frames (send_head x r).2 = frames r ∧ responded (send_head x r).2 = responded r.
Proof. unfold send_head. by destruct (os_send _ _). Qed.

Lemma map_frames_stream_ok f r :
  (∀ c, capacity (f c) = capacity c) → stream_ok r → stream_ok (map_frames f r).
Proof.
  intros Hf [H1 H2]. unfold stream_ok, map_frames. cbn. split; [intros Hr; by rewrite H1|].
  destruct (frames r) as [c|]; [|done]. intros c' [= <-]. rewrite Hf. by apply H2.
Qed.

(** The calls that carry no buffer, and the ones that come too late. *)
Lemma sent_stream_ok r : responded r = true → frames r = None → stream_ok r.
Proof. intros Hr Hf. split; [congruence|]. by rewrite Hf. Qed.

Lemma send_abandoned_bufs r :
  stream_ok r → let r' := (send_abandoned r).2 in
  stream_ok r' ∧ queued_bufs r' = queued_bufs r.
Proof.
  intros [Hf Hcap]. unfold send_abandoned, stream_ok, queued_bufs. destruct (frames r) as [c|] eqn:Hfr.
  2:{ cbn. by rewrite Hfr. }
  specialize (Hcap c eq_refl). destruct (try_send _ c) as [res c'] eqn:Hs.
  assert (Hres : responded r = true) by (destruct (responded r); [done|by specialize (Hf eq_refl)]).
  destruct (try_send_cases _ _ _ _ Hcap Hs) as [(-> & Hrx & _ & Hc & Hca & _ & Hr)|[(-> & -> & _)|(-> & -> & Hr)]]; cbn.
  - rewrite Hres, receiving_drop_sender, contents_drop_sender, Hr, Hrx, Hc, bind_app. cbn. rewrite app_nil_r.
    split; [|done]. split; [done|]. intros ? [= <-]. by rewrite capacity_drop_sender, Hca.
  - rewrite Hfr. split; [|done]. split; [done|]. by intros ? [= <-].
  - rewrite Hres, receiving_drop_sender, Hr. split; [|done]. split; [done|]. intros ? [= <-]. by rewrite capacity_drop_sender.
Qed.

Lemma same_head_bufs r r' : same_head r r' → head_bufs r' = head_bufs r.
Proof. unfold head_bufs, outcome_of. by intros (_ & _ & ->). Qed.

Lemma lost_call_bufs o r :
  buf_cell_ok r → claim r = (false, r) → stream_ok (call o r) ∧ cell_bufs (call o r) = cell_bufs r.
Proof.
  intros [Hok Hs] Hc. pose proof (same_head_bufs _ _ (call_claimed o r Hc)) as Hh. unfold cell_bufs. rewrite Hh.
  revert Hh. destruct o as [x|b|]; unfold call, send_response, send_stream_head, respond_500_if_unsent; rewrite Hc;
    cbn [snd]; intros _; [done|done|]. cbn. destruct (body_tx r); cbn; [|done].
  destruct (send_abandoned_bufs (set_body false (frames r) r)) as [Hs' Hq]; [done|].
  destruct (send_abandoned _) as [b r']. cbn in *. by rewrite Hq.
Qed.

Lemma claimed_send x r :
  unsent r → frames r = None → responded r = true →
  stream_ok (send_head x r).2 ∧ cell_bufs (send_head x r).2 = if (send_head x r).1 then response_bufs x else [].
Proof.
  intros Hu Hf Hr. destruct (send_head_stream x r) as [Hf' Hr']. split; [apply sent_stream_ok; congruence|].
  rewrite (send_head_bufs _ _ Hu). unfold queued_bufs. by rewrite Hf, app_nil_r.
Qed.

(** The stream's head: its frame channel opens, or is closed at once. *)
Lemma claimed_stream hd r :
  unsent r → responded r = true →
  stream_ok (send_stream hd (open_stream r)) ∧ cell_bufs (send_stream hd (open_stream r)) = [].
Proof.
  intros Hu Hr. set (x := MkResponse hd StreamBody). set (r1 := open_stream r).
  destruct (bounded_spec (chan:=chan) FrameResult STREAM_BUFFER) as (B1 & B2 & _ & B4).
  pose proof (send_head_bufs x r1 Hu) as Hs. destruct (send_head_stream x r1) as [Hf Hr'].
  assert (Hst : stream_ok (send_head x r1).2).
  { split; [rewrite Hr'; unfold r1; cbn; congruence|]. rewrite Hf. intros c [= <-]. rewrite B2. unfold STREAM_BUFFER. lia. }
  unfold queued_bufs at 1 in Hs. unfold r1 in Hs at 3. cbn in Hs. rewrite B4, B1, app_nil_r in Hs.
  unfold send_stream. fold x. destruct (send_head x r1) as [[] r2]; cbn in *; [done|]. split.
  - apply map_frames_stream_ok; [intros c; apply drop_receiver_spec|done].
  - apply app_eq_nil in Hs as [Hh _]. unfold cell_bufs. rewrite (same_head_bufs r2) by done. rewrite Hh.
    unfold queued_bufs. cbn. rewrite Hf. cbn.
    by destruct (drop_receiver_spec (chan:=chan) FrameResult (bounded STREAM_BUFFER)) as (_ & _ & ->).
Qed.

(** A whole response brings its buffer, if the claim is won and the client
    still waits; the others bring none. *)
Lemma send_response_bufs x r :
  buf_cell_ok r → let '(sent, r') := send_response x r in
  buf_cell_ok r' ∧ if sent : bool then cell_bufs r = [] ∧ cell_bufs r' = response_bufs x else cell_bufs r' = cell_bufs r.
Proof.
  intros Hok. pose proof (call_evolves (OpRespond x) r (proj1 Hok)) as (Hok' & _).
  unfold call in Hok'. destruct (claim_cases r (proj1 Hok)) as [[Hc Hr]|(r1 & Hc & _)].
  - unfold send_response in *. rewrite Hc in *. split; done.
  - destruct (claimed_bufs _ _ Hok Hc) as (Hb & Hu & Hf & Hr). unfold send_response in *. rewrite Hc in *.
    destruct (claimed_send x r1 Hu Hf Hr) as [Hst Hs].
    destruct (send_head x r1) as [[] r'] eqn:Hsend; cbn in *; rewrite Hs; (split; [done|]); [done|by rewrite Hb].
Qed.

Lemma call_keeps_bufs o r : (∀ x, o = OpRespond x → response_bufs x = []) → keeps buf_cell_ok cell_bufs r (call o r).
Proof.
  intros Ho Hok. pose proof (call_evolves o r (proj1 Hok)) as (Hok' & _).
  destruct (claim_cases r (proj1 Hok)) as [[Hc Hr]|(r1 & Hc & _)].
  { destruct (lost_call_bufs o r Hok Hc) as [Hs Hb]. split; [split; [done|exact Hs]|exact Hb]. }
  destruct (claimed_bufs _ _ Hok Hc) as (Hb & Hu & Hf & Hr).
  assert (Hsend : ∀ x, response_bufs x = [] → stream_ok (send_head x r1).2 ∧ cell_bufs (send_head x r1).2 = []).
  { intros x Hx. destruct (claimed_send x r1 Hu Hf Hr) as [Hs ->]. rewrite Hx. by destruct (send_head x r1).1. }
  rewrite Hb. unfold buf_cell_ok. destruct o as [x|[hd|]|]; unfold call, send_response, send_stream_head, respond_500_if_unsent in *;
    rewrite Hc in *; cbn [snd] in *.
  - destruct (Hsend x) as [? ?]; [by apply Ho|]. done.
  - destruct (claimed_stream hd r1 Hu Hr) as [? ?]. done.
  - split; [split; [done|by apply sent_stream_ok]|]. unfold cell_bufs, queued_bufs. cbn. rewrite Hf, app_nil_r.
    unfold head_bufs, outcome_of. cbn. destruct Hu as [Hu|Hu]; [by rewrite os_drop_sender_pending|by rewrite os_drop_sender_deaf].
  - destruct (Hsend internal_error) as [? ?]; [done|]. done.
Qed.

(** What hyper and the streaming worker do: a written frame is in the channel
    or still the writer's, a taken frame is hyper's, and the frames of a
    stream nobody listens to are dropped with it. *)
Definition write_back (f : FrameResult) r : list PinnedBuf :=
  match frames r with
  | Some c => match (try_send f c).1 with SendOk => [] | _ => frame_bufs f end
  | None => frame_bufs f
  end.

Definition frame_taken r : list PinnedBuf :=
  match frames r with
  | Some c => if receiving c then match (try_recv c).1 with RecvOk f => frame_bufs f | _ => [] end else []
  | None => []
  end.

Lemma map_frames_bufs f r :
  (∀ c, capacity (f c) = capacity c) → buf_cell_ok r →
  buf_cell_ok (map_frames f r)
  ∧ cell_bufs (map_frames f r)
    = head_bufs r ++ match frames r with Some c => if receiving (f c) then contents (f c) ≫= frame_bufs else [] | None => [] end.
Proof.
  intros Hf [Hok Hs]. split; [split; [|by apply map_frames_stream_ok]|].
  - by apply (evolves_same r).
  - unfold cell_bufs. rewrite (same_head_bufs r) by done. f_equal. unfold queued_bufs. cbn. by destruct (frames r).
Qed.

Lemma try_send_capacity f (c : chan FrameResult) : (0 < capacity c)%nat → capacity (try_send f c).2 = capacity c.
Proof.
  intros Hc. destruct (try_send f c) as [res c'] eqn:Hs.
  by destruct (try_send_cases _ _ _ _ Hc Hs) as [(_ & _ & _ & _ & ? & _)|[(_ & -> & _)|(_ & -> & _)]].
Qed.

Lemma try_recv_capacity (c : chan FrameResult) : capacity (try_recv c).2 = capacity c.
Proof.
  destruct (try_recv c) as [res c'] eqn:Hs.
  by destruct (try_recv_cases _ _ _ Hs) as [(? & ? & _ & _ & _ & ? & _)|[(_ & -> & _)|(_ & -> & _)]].
Qed.

Lemma write_bufs f r :
  buf_cell_ok r → let r' := map_frames (λ c, (try_send f c).2) r in
  buf_cell_ok r' ∧ cell_bufs r' ++ write_back f r ≡ₚ cell_bufs r ++ frame_bufs f.
Proof.
  intros Hok r'. unfold r', write_back. destruct (frames r) as [c|] eqn:Hfr.
  2:{ replace (map_frames _ r) with r; [done|]. unfold map_frames. rewrite Hfr. destruct r. cbn in *. by subst. }
  pose proof (proj2 (proj2 Hok) c Hfr) as Hcap.
  set (g := λ d : chan FrameResult, if decide (0 < capacity d)%nat then (try_send f d).2 else d).
  replace (map_frames (λ c, (try_send f c).2) r) with (map_frames g r)
    by (unfold map_frames, g; rewrite Hfr; by rewrite decide_True).
  destruct (map_frames_bufs g r) as [Hok' ->]; [|done|].
  { intros d. unfold g. case_decide; [by apply try_send_capacity|done]. }
  split; [done|]. unfold cell_bufs, queued_bufs. rewrite Hfr. unfold g. rewrite decide_True by done.
  destruct (try_send f c) as [res c'] eqn:Hs. cbn.
  destruct (try_send_cases _ _ _ _ Hcap Hs) as [(-> & Hrx & _ & Hc & _ & _ & Hr)|[(-> & -> & Hr & _)|(-> & -> & Hr)]].
  - rewrite Hr, Hrx, Hc, bind_app. cbn. rewrite !app_nil_r. by rewrite <-app_assoc.
  - by rewrite Hr.
  - by rewrite Hr.
Qed.

Lemma frame_taken_bufs r :
  buf_cell_ok r → let r' := map_frames (λ c, (try_recv c).2) r in
  buf_cell_ok r' ∧ cell_bufs r' ++ frame_taken r ≡ₚ cell_bufs r.
Proof.
  intros Hok r'. unfold r'; clear r'. destruct (map_frames_bufs (λ c, (try_recv c).2) r (try_recv_capacity) Hok) as [Hok' ->].
  split; [done|]. unfold cell_bufs, queued_bufs, frame_taken. destruct (frames r) as [c|]; [|by rewrite !app_nil_r].
  destruct (try_recv c) as [res c'] eqn:Hs. cbn.
  destruct (try_recv_cases _ _ _ Hs) as [(f & l & -> & Hc & Hl & _ & _ & Hr)|[(-> & -> & _)|(-> & -> & _)]].
  - rewrite Hr, Hc, Hl. destruct (receiving c); [|by rewrite !app_nil_r]. rewrite bind_cons, <-app_assoc.
    by rewrite (Permutation_app_comm (frame_bufs f)).
  - destruct (receiving c); by rewrite ?app_nil_r.
  - destruct (receiving c); by rewrite ?app_nil_r.
Qed.

Lemma gone_bufs r :
  buf_cell_ok r → let r' := map_frames drop_receiver r in
  buf_cell_ok r' ∧ cell_bufs r' ++ queued_bufs r = cell_bufs r.
Proof.
  intros Hok r'. unfold r'; clear r'. destruct (map_frames_bufs drop_receiver r) as [Hok' ->]; [intros c; apply drop_receiver_spec|done|].
  split; [done|]. unfold cell_bufs, queued_bufs. destruct (frames r) as [c|]; [|by rewrite !app_nil_r].
  destruct (drop_receiver_spec (chan:=chan) FrameResult c) as (_ & _ & ->). by rewrite app_nil_r.
Qed.

Lemma leave_bufs r :
  buf_cell_ok r → let r' := set_head (head_tx r) (os_drop_receiver (head r)) r in
  buf_cell_ok r' ∧ head_bufs r ++ cell_bufs r' = cell_bufs r.
Proof.
  intros [Hok Hs] r'. split; [split; [apply (hangup_evolves r Hok)|done]|].
  unfold cell_bufs. replace (head_bufs r') with (@nil PinnedBuf); [done|].
  unfold head_bufs, outcome_of, r'. cbn. by rewrite os_drop_receiver_spec.
Qed.

(** The rest of a stream's life moves no buffer. *)
Lemma stream_keeps_bufs r r' :
  stream_op r r' →
  keeps buf_cell_ok cell_bufs r r' ∨ (∃ f, r' = map_frames (λ c, (try_send f c).2) r)
  ∨ r' = map_frames (λ c, (try_recv c).2) r ∨ r' = map_frames drop_receiver r.
Proof.
  assert (Hkeep : ∀ f, (∀ c, capacity (f c) = capacity c ∧ receiving (f c) = receiving c ∧ contents (f c) = contents c) →
    keeps buf_cell_ok cell_bufs r (map_frames f r)).
  { intros f Hf Hok. destruct (map_frames_bufs f r) as [Hok' ->]; [intros; apply Hf|done|]. split; [done|].
    unfold cell_bufs, queued_bufs. destruct (frames r) as [c|]; [|done]. by destruct (Hf c) as (_ & -> & ->). }
  assert (Hdrop : ∀ c : chan FrameResult, capacity (drop_sender c) = capacity c
    ∧ receiving (drop_sender c) = receiving c ∧ contents (drop_sender c) = contents c)
    by (intros c; by destruct (drop_sender_spec (chan:=chan) FrameResult c) as (? & ? & _ & ?)).
  destruct 1; try (by eauto); left.
  - unfold finish_stream, take_body_tx. destruct (body_tx r); [|done]. exact (Hkeep _ Hdrop).
  - unfold body_sender. destruct (body_tx r); [|done]. apply Hkeep. intros c.
    by destruct (clone_sender_spec (chan:=chan) FrameResult c) as (? & ? & _ & ?).
  - done.
Qed.
End cells.

(** ** The buffers of the heap *)

Section heap.
Context {chan oneshot : Type → Type}
  `{!Flume chan, !FlumeSpec chan, !Oneshot oneshot, !OneshotSpec oneshot}.
Implicit Types (r : Responder chan oneshot) (h : heap chan oneshot).

Definition heap_bufs h : list PinnedBuf := map_to_list h ≫= (λ x, cell_bufs x.2.2).

(** What a cell holds; nothing where there is none. *)
Definition bufs_at h (i : nat) : list PinnedBuf := default [] (observed cell_bufs h i).

Lemma heap_bufs_delete i n r h : h !! i = Some (n, r) → heap_bufs h ≡ₚ cell_bufs r ++ heap_bufs (delete i h).
Proof. intros Hi. unfold heap_bufs. by rewrite <-(map_to_list_delete h i (n, r) Hi). Qed.

Lemma heap_bufs_insert i n r h : heap_bufs (<[i:=(n, r)]> h) ≡ₚ cell_bufs r ++ heap_bufs (delete i h).
Proof.
  rewrite <-insert_delete_eq. unfold heap_bufs. by rewrite map_to_list_insert by apply lookup_delete_eq.
Qed.

Lemma heap_bufs_at i h : heap_bufs h ≡ₚ bufs_at h i ++ heap_bufs (delete i h).
Proof.
  unfold bufs_at, observed. destruct (h !! i) as [[n r]|] eqn:Hi; [by apply heap_bufs_delete in Hi|].
  by rewrite delete_id.
Qed.

Lemma heap_bufs_ext h h' : (∀ i, bufs_at h' i = bufs_at h i) → heap_bufs h' ≡ₚ heap_bufs h.
Proof.
  revert h'. induction h as [|i x h Hi IH] using map_ind; intros h' He.
  - assert (Hnil : ∀ x, x ∈ map_to_list h' → cell_bufs x.2.2 = []).
    { intros [j [n r]] Hj%elem_of_map_to_list. specialize (He j). unfold bufs_at, observed in He.
      by rewrite Hj, lookup_empty in He. }
    unfold heap_bufs. rewrite map_to_list_empty. cbn. induction (map_to_list h') as [|y l IHl]; [done|].
    rewrite bind_cons, Hnil by left. apply IHl. intros z Hz. apply Hnil. by right.
  - rewrite (heap_bufs_at i h'), (heap_bufs_at i (<[i:=x]> h)), He. apply Permutation_app_head.
    rewrite (IH (delete i h')).
    + by rewrite delete_insert_id.
    + intros j. specialize (He j). unfold bufs_at, observed in *. destruct (decide (j = i)) as [->|Hne].
      * by rewrite lookup_delete_eq, Hi.
      * by rewrite lookup_insert_ne in He by done; rewrite lookup_delete_ne by done.
Qed.

Lemma kept_bufs h h' :
  kept buf_cell_ok cell_bufs h h' → all_ok buf_cell_ok h →
  all_ok buf_cell_ok h' ∧ ∀ i, bufs_at h' i = bufs_at h i.
Proof. intros H Hok. destruct (H Hok) as [? He]. split; [done|]. intros i. unfold bufs_at. by rewrite He. Qed.

(** One cell replaced: what it lets go of, and what it takes up. *)
Lemma heap_bufs_store i n r r' h L L' :
  h !! i = Some (n, r) → cell_bufs r' ++ L' ≡ₚ cell_bufs r ++ L →
  L' ++ heap_bufs (store i r' h) ≡ₚ L ++ heap_bufs h.
Proof.
  intros Hi He. rewrite (heap_bufs_delete _ _ _ _ Hi). unfold store.
  assert (alter (λ '(n, _), (n, r')) i h = <[i:=(n, r')]> h) as ->.
  { apply map_eq. intros j. destruct (decide (j = i)) as [->|Hne];
      [by rewrite lookup_alter_eq, lookup_insert_eq, Hi|by rewrite lookup_alter_ne, lookup_insert_ne]. }
  rewrite heap_bufs_insert, !app_assoc, (Permutation_app_comm L'), (Permutation_app_comm L). by rewrite He.
Qed.

Lemma store_all_ok (ok : Responder chan oneshot → Prop) i r' h :
  all_ok ok h → ok r' → all_ok ok (store i r' h).
Proof.
  intros Hok Hr j m x. unfold store. destruct (decide (j = i)) as [->|Hne]; [|rewrite lookup_alter_ne by done; apply Hok].
  rewrite lookup_alter_eq. destruct (h !! i) as [[n r]|]; [|done]. by intros [= _ <-].
Qed.
End heap.

(** ** What the server's operations do to the slab: nothing *)

Section slab_kept.
Context {chan oneshot : Type → Type}
  `{!Flume chan, !FlumeSpec chan, !Oneshot oneshot, !OneshotSpec oneshot}.
Implicit Types (sv : ServerInner chan) (h : heap chan oneshot).

Lemma timeout_at_slab w sv t sv' : timeout_at w sv = (t, sv') → pin_slab sv' = pin_slab sv.
Proof. unfold timeout_at. intros H. by repeat case_match; simplify_eq. Qed.

Lemma queue_tick_slab w sv t sv' : queue_tick w sv = (t, sv') → pin_slab sv' = pin_slab sv.
Proof.
  unfold queue_tick. destruct (recv_timeout _) as [[] ?]; intros H; [by simplify_eq|by eapply timeout_at_slab|by simplify_eq].
Qed.

Lemma steal_slab w sv t sv' : steal w sv = (t, sv') → pin_slab sv' = pin_slab sv.
Proof. unfold steal. destruct (steal_from _ _ _). by intros [= _ <-]. Qed.

Lemma lane_tick_slab w sv t sv' : lane_tick w sv = (t, sv') → pin_slab sv' = pin_slab sv.
Proof.
  unfold lane_tick. destruct (slots sv !! w) as [s|]; [|by intros [= _ <-]].
  destruct (lane_rx s) as [rx|]; [|by intros [= _ <-]].
  destruct (recv_timeout rx) as [[] ?]; [by intros [= _ <-]| |by intros [= _ <-]].
  destruct (timeout_at w sv) as [[?|] sv1] eqn:Ht; apply timeout_at_slab in Ht as <-; [by intros [= _ <-]|].
  destruct (steal w sv1) as [[?|] sv2] eqn:Hs; apply steal_slab in Hs as <-; by intros [= _ <-].
Qed.

Lemma checkout_slab w sv t sv' : checkout true w [] sv = (t, sv') → pin_slab sv' = pin_slab sv.
Proof.
  unfold checkout, block_take, lane_take. cbn. intros H.
  repeat case_match; simplify_eq/=; try done;
    repeat match goal with
      | E : steal _ _ = _ |- _ => apply steal_slab in E; cbn in E
      | E : interruptible _ _ _ _ = _ |- _ => cbn in E
      end; simplify_eq/=; congruence.
Qed.

Lemma dispatch_slab sv (c : RequestCtx chan) d sv' : try_dispatch sv c = (d, sv') → pin_slab sv' = pin_slab sv.
Proof. unfold try_dispatch. intros H. by repeat case_match; simplify_eq/=. Qed.

Lemma native_slab k sv : pin_slab (run_native k sv) = pin_slab sv.
Proof.
  unfold run_native. destruct k; cbn [native_fn];
    try (unfold register_worker_native, get; cbn [servers insert]; rewrite lookup_insert_eq; cbn [register_worker snd]);
    try (unfold quarantine_slot, retire_slot, reset_slot, slot_native; rewrite one_server; unfold slot;
         destruct (slots sv !! w); cbn [snd]; [|by rewrite one_server]);
    (etransitivity; [exact (f_equal pin_slab (on_one_server _ sv))|]); try done.
  unfold close_req. by repeat case_match.
Qed.

Lemma await_slab i sv h resp sv' : await_head i sv h = (resp, sv') → pin_slab sv' = pin_slab sv.
Proof. unfold await_head. intros H. by repeat case_match; simplify_eq. Qed.

Lemma admit_slab {env_t} (build_env : RequestCtx chan → result env_t) w now ms c sv h res sv' h' :
  admit_request build_env w now ms c sv h = (res, (sv', h')) → pin_slab sv' = pin_slab sv.
Proof. unfold admit_request. by destruct (build_env _); intros [= _ <- _]. Qed.
End slab_kept.

(** ** The system with its buffers *)

Section buffers.
Context {chan oneshot : Type → Type}
  `{!Flume chan, !FlumeSpec chan, !Oneshot oneshot, !OneshotSpec oneshot}.
Context {env_t : Type} (build_env : RequestCtx chan → result env_t).
Variable to_str : string → option string.
(** [rb_str_tmp_frozen_acquire]: an object, so not the VALUE 0 of [false]. *)
Variable acquire : Pin.RString → Pin.RString.
Hypothesis acquire_object : ∀ b, Pin.as_raw (acquire b) ≠ 0.
Implicit Types (s : System chan oneshot) (h : heap chan oneshot) (L : list PinnedBuf)
  (c : RequestCtx chan) (r : Responder chan oneshot).

Notation sys_step := (sys_step build_env to_str).

Definition with_cell (i : nat) r s : System chan oneshot :=
  MkSystem (server s) (store i r (cells s)) (placing s) (sending s) (taken s) (handles s)
    (forwarders s) (clients s).

(** A step that touches neither the slab nor a buffer. *)
Definition quiet s s' : Prop :=
  pin_slab (server s') = pin_slab (server s) ∧ ∀ i, bufs_at (cells s') i = bufs_at (cells s) i.

(** A thread, Ruby's or hyper's, holds the buffers of [L]. A worker pins
    ([body_bytes] of [request.rs]) and sends, in a response or in a frame;
    what cannot be sent is its own again. Hyper takes frames, and the handler
    the head; what a stream nobody reads still holds is left to whoever drops
    it. Any holder may drop a buffer ([PinnedBuf]'s [Drop]). *)
Inductive buf_step : System chan oneshot * list PinnedBuf → System chan oneshot * list PinnedBuf → Prop :=
  | bs_pin s body b sl L :
      body_bytes acquire (pin_slab (server s)) body = (b, sl) →
      buf_step (s, L) (with_pins sl s, bufs_of b ++ L)
  | bs_send s c n r x sent r' L1 L2 :
      c ∈ handles s → cells s !! responder c = Some (n, r) → send_response x r = (sent, r') →
      buf_step (s, L1 ++ response_bufs x ++ L2)
        (with_cell (responder c) r' s, L1 ++ (if sent : bool then [] else response_bufs x) ++ L2)
  | bs_write s i n r f L1 L2 :
      cells s !! i = Some (n, r) →
      buf_step (s, L1 ++ frame_bufs f ++ L2)
        (with_cell i (map_frames (λ d, (try_send f d).2) r) s, L1 ++ write_back f r ++ L2)
  | bs_frame s i n r L :
      cells s !! i = Some (n, r) →
      buf_step (s, L) (with_cell i (map_frames (λ d, (try_recv d).2) r) s, frame_taken r ++ L)
  | bs_gone s i n r L :
      cells s !! i = Some (n, r) →
      buf_step (s, L) (with_cell i (map_frames drop_receiver r) s, queued_bufs r ++ L)
  | bs_leave sv h pl se ta ha fw l1 i l2 n r sv' h' L :
      h !! i = Some (n, r) → leave i sv h = (sv', h') →
      buf_step (MkSystem sv h pl se ta ha fw (l1 ++ i :: l2), L)
        (MkSystem sv' h' pl se ta ha fw (l1 ++ l2), head_bufs r ++ L)
  | bs_drop s b L1 L2 :
      buf_step (s, L1 ++ b :: L2) (with_pins (Pin.release (pb_index b) (pin_slab (server s))) s, L1 ++ L2)
  | bs_quiet s s' L : sys_step s s' → quiet s s' → buf_step (s, L) (s', L).

(** The steps of the system that do move buffers, or pins. *)
Inductive moves_buffers : System chan oneshot → System chan oneshot → Prop :=
  | mb_pin s value slot sl :
      Pin.insert value (pin_slab (server s)) = (slot, sl) → moves_buffers s (with_pins sl s)
  | mb_unpin s slot : moves_buffers s (with_pins (Pin.release slot (pin_slab (server s))) s)
  | mb_send s c n r x :
      c ∈ handles s → cells s !! responder c = Some (n, r) → response_bufs x ≠ [] →
      moves_buffers s (with_cell (responder c) (call (OpRespond x) r) s)
  | mb_write s i n r f :
      cells s !! i = Some (n, r) → moves_buffers s (with_cell i (map_frames (λ d, (try_send f d).2) r) s)
  | mb_frame s i n r :
      cells s !! i = Some (n, r) → moves_buffers s (with_cell i (map_frames (λ d, (try_recv d).2) r) s)
  | mb_gone s i n r : cells s !! i = Some (n, r) → moves_buffers s (with_cell i (map_frames drop_receiver r) s)
  | mb_leave sv h pl se ta ha fw l1 i l2 sv' h' :
      leave i sv h = (sv', h') →
      moves_buffers (MkSystem sv h pl se ta ha fw (l1 ++ i :: l2)) (MkSystem sv' h' pl se ta ha fw (l1 ++ l2)).

Lemma abort_keeps_bufs r : keeps buf_cell_ok cell_bufs r (call OpAbort r).
Proof. by apply call_keeps_bufs. Qed.

Lemma drop_kept c h b h' : drop_ctx c h = (b, h') → kept buf_cell_ok cell_bufs h h'.
Proof. intros H. replace h' with (drop_ctx c h).2 by (by rewrite H). apply kept_drop_ctx, abort_keeps_bufs. Qed.

Lemma new_buf_cell : buf_cell_ok (responder_new (chan:=chan) (oneshot:=oneshot)) ∧ cell_bufs (responder_new (chan:=chan) (oneshot:=oneshot)) = [].
Proof.
  assert (Ho : outcome_of (responder_new (chan:=chan) (oneshot:=oneshot)) = OsPending) by apply os_new_spec.
  split; [split; [|done]|].
  - split; [|done]. split; [done|by left].
  - unfold cell_bufs, head_bufs. by rewrite Ho.
Qed.

Lemma new_cell_bufs h i k j : h !! i = None → bufs_at (<[i:=(k, responder_new)]> h) j = bufs_at h j.
Proof.
  intros Hi. unfold bufs_at, observed. destruct (decide (j = i)) as [->|Hne]; [|by rewrite lookup_insert_ne].
  rewrite lookup_insert_eq, Hi. apply new_buf_cell.
Qed.

Lemma carries_cases o :
  (∀ x, o = OpRespond x → response_bufs x = []) ∨ (∃ x, o = OpRespond x ∧ response_bufs x ≠ []).
Proof.
  destruct o as [x|b|]; [|by left..]. destruct (response_bufs x) eqn:Hx; [left; by intros ? [= <-]|].
  right. exists x. by rewrite Hx.
Qed.

(** Every other step is quiet. *)
Lemma sys_step_bufs s s' :
  sys_step s s' → all_ok buf_cell_ok (cells s) →
  all_ok buf_cell_ok (cells s') ∧ (quiet s s' ∨ moves_buffers s s').
Proof.
  intros Hstep Hok.
  assert (Hkept : pin_slab (server s') = pin_slab (server s) → kept buf_cell_ok cell_bufs (cells s) (cells s') →
    all_ok buf_cell_ok (cells s') ∧ (quiet s s' ∨ moves_buffers s s')).
  { intros Hp Hk. destruct (kept_bufs _ _ Hk Hok) as [? ?]. split; [done|]. by left. }
  destruct Hstep; cbn [server cells] in *; try (by apply Hkept).
  - unfold enter in *. simplify_eq. split.
    + intros j m x. destruct (decide (j = rid)) as [->|Hne]; [|rewrite lookup_insert_ne by done; apply Hok].
      rewrite lookup_insert_eq. intros [= _ <-]. apply new_buf_cell.
    + left. split; [done|]. intros j. by apply new_cell_bufs.
  - apply Hkept; [by eapply dispatch_slab|done].
  - apply Hkept; [by eapply dispatch_slab|done].
  - apply Hkept; [done|]. apply (drop_kept _ _ _ _ H).
  - apply Hkept; [done|]. apply (drop_kept _ _ _ _ H).
  - apply Hkept; [by eapply checkout_slab|done].
  - apply Hkept; [by eapply queue_tick_slab|done].
  - apply Hkept; [by eapply lane_tick_slab|done].
  - apply Hkept; [by eapply admit_slab|]. by apply admit_step in H as (_ & _ & ->).
  - apply Hkept; [by eapply admit_slab|]. apply admit_step in H as (_ & ->). apply kept_drop_ctx, abort_keeps_bufs.
  - destruct (carries_cases o) as [Ho|(x & -> & Hx)].
    + apply Hkept; [done|]. eapply kept_store; [done|]. by apply call_keeps_bufs.
    + split.
      * apply store_all_ok; [done|]. pose proof (send_response_bufs x r (Hok _ _ _ H)) as Hs. unfold call.
        destruct (send_response x r) as [sent r']. apply Hs.
      * right. by eapply (mb_send (MkSystem sv h pl se ta (l1 ++ c :: l2) fw cl)); [apply elem_of_app; right; left|..].
  - split; [done|]. right. by eapply (mb_pin (MkSystem sv h pl se ta ha fw cl)).
  - split; [done|]. right. apply (mb_unpin (MkSystem sv h pl se ta ha fw cl)).
  - destruct (stream_keeps_bufs _ _ H0) as [Hk|[[f ->]|[-> | ->]]].
    + apply Hkept; [done|]. by eapply kept_store.
    + split; [|right; by eapply (mb_write (MkSystem sv h pl se ta ha fw cl))]. apply store_all_ok; [done|]. by apply write_bufs, (Hok i n).
    + split; [|right; by eapply (mb_frame (MkSystem sv h pl se ta ha fw cl))]. apply store_all_ok; [done|]. by apply frame_taken_bufs, (Hok i n).
    + split; [|right; by eapply (mb_gone (MkSystem sv h pl se ta ha fw cl))]. apply store_all_ok; [done|]. by apply gone_bufs, (Hok i n).
  - apply Hkept; [done|]. apply (drop_kept _ _ _ _ H).
  - apply Hkept; [done|]. replace h' with (abort_slot s h).2.2 by (by rewrite H0). apply kept_abort_slot, abort_keeps_bufs.
  - apply Hkept; [by apply native_slab|done].
  - apply Hkept; [by eapply await_slab|done].
  - split; [|right; by eapply mb_leave]. unfold leave in H. simplify_eq. intros j m x.
    destruct (decide (j = i)) as [->|Hne]; [|rewrite lookup_alter_ne by done; apply Hok].
    rewrite lookup_alter_eq. destruct (h !! i) as [[k r]|] eqn:Hi; [|done]. intros [= _ <-]. by apply leave_bufs, (Hok i k).
  - apply Hkept; [done|]. apply kept_arc_drop.
Qed.

(** Everybody's buffers. *)
Definition live s L : list PinnedBuf := L ++ heap_bufs (cells s).

Definition bufs_ok (w : System chan oneshot * list PinnedBuf) : Prop :=
  let '(s, L) := w in all_ok buf_cell_ok (cells s) ∧ pinned_ok (pin_slab (server s)) (live s L).

(** The buffers' system is the system: every step of it is one. *)
Lemma buf_step_sys s L s' L' : buf_step (s, L) (s', L') → steps sys_step s s'.
Proof.
  assert (Hstream : ∀ s i n r r', cells s !! i = Some (n, r) → stream_op r r' → steps sys_step s (with_cell i r' s))
    by (intros [] ? ? ? ? ? ?; apply steps_one; by eapply sys_stream).
  inversion 1; subst.
  - by eapply body_bytes_run.
  - match goal with H : send_response ?x _ = _ |- _ =>
      replace r' with (call (OpRespond x) r) by (unfold call; by rewrite H) end.
    by eapply call_run.
  - eapply Hstream; [done|constructor].
  - eapply Hstream; [done|constructor].
  - eapply Hstream; [done|constructor].
  - apply steps_one. by eapply sys_leave.
  - apply (drop_bytes_run _ _ s (BytesPinned b)).
  - by apply steps_one.
Qed.

(** *** Every live buffer is rooted *)

Lemma live_swap (A B L1 L2 H1 H2 : list PinnedBuf) :
  A ++ H1 ≡ₚ B ++ H2 → (L1 ++ A ++ L2) ++ H1 ≡ₚ (L1 ++ B ++ L2) ++ H2.
Proof.
  intros E. assert (Hx : ∀ C H : list PinnedBuf, (L1 ++ C ++ L2) ++ H ≡ₚ (L1 ++ L2) ++ C ++ H).
  { intros C H. rewrite (Permutation_app_comm C L2), <-!app_assoc. done. }
  by rewrite !Hx, E.
Qed.

Lemma body_bytes_live slab body b sl bs :
  body_bytes acquire slab body = (b, sl) → pinned_ok slab bs → pinned_ok sl (bufs_of b ++ bs).
Proof.
  unfold body_bytes, Pin.pinned_bytes. destruct (_ <? _)%nat; [by intros [= <- <-]|].
  destruct (_ && _); [by intros [= <- <-]|].
  destruct (Pin.insert _ slab) as [[i|] sl1] eqn:Hi; intros [= <- <-] Hok.
  - apply Pin.insert_some in Hi as (H1 & H2 & _). apply (pinned_ok_pin slab); [exact H1|exact H2|apply acquire_object|done].
  - apply Pin.insert_none in Hi. by eapply pinned_ok_slots.
Qed.

(** One cell changes, with what its holder gives and gets. *)
Lemma bufs_ok_cell s i n r r' L1 L2 A B :
  cells s !! i = Some (n, r) → buf_cell_ok r' → cell_bufs r' ++ B ≡ₚ cell_bufs r ++ A →
  bufs_ok (s, L1 ++ A ++ L2) → bufs_ok (with_cell i r' s, L1 ++ B ++ L2).
Proof.
  intros Hi Hr He [Hc Hp]. split; [by apply store_all_ok|]. cbn. unfold live in *. cbn.
  rewrite (live_swap B A L1 L2 _ (heap_bufs (cells s))); [done|]. by eapply heap_bufs_store.
Qed.

Lemma buf_step_ok w w' : buf_step w w' → bufs_ok w → bufs_ok w'.
Proof.
  intros Hstep Hok. destruct Hstep as [s body b sl L Hb|s c n r x sent r' L1 L2 Hc Hr Hs|s i n r f L1 L2 Hi
    |s i n r L Hi|s i n r L Hi|sv h pl se ta ha fw l1 i l2 n r sv' h' L Hi Hl|s b L1 L2|s s' L Hs [Hp Hq]].
  - destruct Hok as [Hc Hp]. split; [done|]. unfold live. rewrite <-app_assoc. by eapply body_bytes_live.
  - eapply bufs_ok_cell; [exact Hr|..|exact Hok]; destruct Hok as [Hok _];
      pose proof (send_response_bufs x r (Hok _ _ _ Hr)) as Hsr; rewrite Hs in Hsr; [apply Hsr|].
    destruct sent; destruct Hsr as [_ Hsr]; [destruct Hsr as [-> ->]; by rewrite app_nil_r|by rewrite Hsr].
  - eapply bufs_ok_cell; [exact Hi|..|exact Hok]; destruct Hok as [Hok _]; by apply write_bufs, (Hok i n).
  - apply (bufs_ok_cell s i n r _ [] L [] (frame_taken r)); [done|..|exact Hok]; destruct Hok as [Hok _];
      rewrite ?app_nil_r; by apply frame_taken_bufs, (Hok i n).
  - apply (bufs_ok_cell s i n r _ [] L [] (queued_bufs r)); [done|..|exact Hok]; destruct Hok as [Hok _];
      destruct (gone_bufs r (Hok _ _ _ Hi)) as [? He]; [done|]. by rewrite He, app_nil_r.
  - unfold leave in Hl. simplify_eq. destruct (leave_bufs r (proj1 Hok _ _ _ Hi)) as [Hr He].
    pose proof (bufs_ok_cell (MkSystem sv h pl se ta ha fw (l1 ++ i :: l2)) i n r _ [] L [] (head_bufs r) Hi Hr) as Hcell.
    destruct Hcell as [Hc Hp]; [by rewrite app_nil_r, (Permutation_app_comm _ (head_bufs r)), He|exact Hok|].
    assert (Hst : alter (λ '(n, r), (n, set_head (head_tx r) (os_drop_receiver (head r)) r)) i h
      = store i (set_head (head_tx r) (os_drop_receiver (head r)) r) h).
    { unfold store. apply map_eq. intros j. destruct (decide (j = i)) as [->|Hne];
        [by rewrite !lookup_alter_eq, Hi|by rewrite !lookup_alter_ne]. }
    rewrite Hst. split; [exact Hc|exact Hp].
  - destruct Hok as [Hc Hp]. split; [done|]. unfold live in *. cbn. apply pinned_ok_release.
    revert Hp. rewrite <-!app_assoc. cbn. by rewrite <-Permutation_middle.
  - destruct Hok as [Hc Hb]. destruct (sys_step_bufs _ _ Hs Hc) as [Hc' _]. split; [done|].
    unfold live in *. rewrite (heap_bufs_ext _ _ Hq). rewrite Hp. exact Hb.
Qed.
(** A booted server: its slab is empty. *)
Definition unpinned_server (sv : ServerInner chan) : Prop :=
  fresh_server sv ∧ Forall (λ v, v = 0) (Pin.slots (pin_slab sv)).

Lemma bufs_ok_init sv : unpinned_server sv → bufs_ok (sys_init sv, []).
Proof.
  intros [_ Hz]. split; [intros i n r Hi; cbn in Hi; by rewrite lookup_empty in Hi|].
  assert (Hnil : live (sys_init sv) [] = []) by (unfold live, heap_bufs; cbn; by rewrite map_to_list_empty).
  rewrite Hnil. split; [by apply NoDup_nil_2|by intros b ?%elem_of_nil|].
  intros i v Hi Hv. rewrite Forall_lookup in Hz. by destruct Hv; apply (Hz i).
Qed.

Lemma buf_steps_sys w w' : steps buf_step w w' → steps sys_step w.1 w'.1.
Proof.
  induction 1 as [|w w1 w' H1 _ IH]; [constructor|]. eapply steps_trans; [|exact IH].
  destruct w as [s L], w1 as [s1 L1]. by eapply buf_step_sys.
Qed.

(** Nobody listens to a stream any more. *)
Definition streams_over s : Prop :=
  ∀ i n r d, cells s !! i = Some (n, r) → frames r = Some d → receiving d = false.

Lemma idle_bufs s : connected_ok s → clients s = [] → streams_over s → heap_bufs (cells s) = [].
Proof.
  intros C Hcl Hso. unfold heap_bufs.
  assert (Hall : ∀ y, y ∈ map_to_list (cells s) → cell_bufs y.2.2 = []).
  { intros [i [n r]] Hi%elem_of_map_to_list. cbn. unfold cell_bufs.
    assert (Hd : outcome_of r = OsDeaf).
    { destruct (ear_cases r) as [Hd|Hd]; [exact Hd|]. exfalso. apply (not_elem_of_nil i). rewrite <-Hcl.
      apply (co_deaf _ C); [by rewrite Hi|]. intros (n' & r' & Hr' & Hd'). by simplify_eq. }
    unfold head_bufs, queued_bufs. rewrite Hd. destruct (frames r) as [d|] eqn:Hf; [|done].
    by rewrite (Hso i n r d Hi Hf). }
  induction (map_to_list (cells s)) as [|y l IH]; [done|]. rewrite bind_cons, Hall by left.
  apply IH. intros z Hz. apply Hall. by right.
Qed.

(** C8: No buffer is read after it was freed, freed twice, or leaked. In
    every state the server can reach, whoever answers, writes frames, takes
    frames, hangs up, aborts or drops: every buffer that a worker, a head
    channel, a frame channel or hyper still has is rooted, its slot holding
    its own string; no two have the same slot, so that a drop never frees
    another's; the collector's mark hook marks the strings of exactly these
    buffers, each once; and when every handler has ended, no stream is
    listened to and no thread holds a buffer, it marks nothing. *)
Theorem pins_owned sv0 s L :
  unpinned_server sv0 → steps buf_step (sys_init sv0, []) (s, L) →
  (∀ b, b ∈ live s L → Pin.slots (pin_slab (server s)) !! pb_index b = Some (pb_value b))
  ∧ NoDup (pb_index <$> live s L)
  ∧ Pin.mark_all (pin_slab (server s)) ≡ₚ pb_value <$> live s L
  ∧ (clients s = [] → streams_over s → L = [] → Pin.mark_all (pin_slab (server s)) = []).
Proof.
  intros Hf Hs. assert (Hok : bufs_ok (s, L)).
  { apply (steps_invariant buf_step bufs_ok buf_step_ok _ _ Hs), bufs_ok_init, Hf. }
  destruct Hok as [_ Hp]. pose proof (pinned_ok_marks _ _ Hp) as Hm. pose proof Hp as [H1 H2 _].
  split_and!; [intros b Hb; by apply H2|done|done|]. intros Hcl Hso ->.
  apply buf_steps_sys in Hs. destruct (connected_reachable build_env to_str _ _ (proj1 Hf) Hs) as [_ C].
  unfold live in Hm. cbn in Hm. rewrite (idle_bufs s C Hcl Hso) in Hm. by apply Permutation_nil_r in Hm.
Qed.

(** *** The code moves buffers this way *)

Variables (to_s : Reply.RbValue → result string) (valid_status : Z → bool)
  (valid_header : string → string → bool) (http_error : string).

Notation respond_request := (respond_request to_s valid_status valid_header http_error acquire).

Lemma drop_bytes_hands s b L :
  steps buf_step (s, bufs_of b ++ L) (with_pins (drop_bytes b (pin_slab (server s))) s, L).
Proof.
  destruct b as [b|b]; cbn; [rewrite with_pins_same; constructor|]. apply steps_one, (bs_drop s b [] L).
Qed.

(** C9: A worker's answer hands its buffer over. For any request the
    worker holds and whatever the status, headers and body, [respond_request]
    is a run of the buffers' system that ends in exactly the server and the
    heap the code computes and leaves in no thread's hands a buffer that was
    not there: the pinned body is the head channel's, or, when the head was
    invalid, another answer came first or the client had gone, it is released
    again. And every step of the whole system is a step of the buffers'
    system that leaves all buffers where they are, unless it is a pin, a
    release, a send, a write, a taken frame, a hang-up or a handler's end. *)
Theorem answer_hands_over sv0 s L now c st hs body res sv' h' :
  unpinned_server sv0 → steps buf_step (sys_init sv0, []) (s, L) → c ∈ handles s →
  respond_request now c st hs body (server s) (cells s) = (res, (sv', h')) →
  (∃ s', steps buf_step (s, L) (s', L) ∧ server s' = sv' ∧ cells s' = h' ∧ only_answered s s')
  ∧ ∀ s', sys_step s s' → buf_step (s, L) (s', L) ∨ moves_buffers s s'.
Proof.
  intros Hf Hreach Hc Hresp. split.
  2:{ intros s' Hs'. assert (Hok : bufs_ok (s, L)).
      { apply (steps_invariant buf_step bufs_ok buf_step_ok _ _ Hreach), bufs_ok_init, Hf. }
      destruct (sys_step_bufs _ _ Hs' (proj1 Hok)) as [_ [Hq|Hm]]; [left; by apply bs_quiet|by right]. }
  revert Hresp. unfold Queue.respond_request, Reply.respond_simple.
  destruct (cells s !! responder c) as [[n r]|] eqn:Hr; [|intros [= _ <- <-]; exists s; split; [constructor|by split_and!]].
  assert (Hstay : ∀ s', steps buf_step (s, L) (s', L) → only_answered s s' → cells s' = cells s →
    ∃ s'', steps buf_step (s, L) (s'', L) ∧ server s'' = server s'
      ∧ cells s'' = store (responder c) r (cells s) ∧ only_answered s s'')
    by (intros s' Hs' Ho Hce; exists s'; rewrite (store_same _ _ _ _ Hr); by split_and!).
  destruct (Reply.build_head _ _ _ _) as [bd|e].
  2:{ intros [= _ <- <-]. apply (Hstay (with_pins (pin_slab (server s)) s)); [|by split_and!|done].
      rewrite with_pins_same. constructor. }
  destruct (body_bytes acquire (pin_slab (server s)) body) as [bytes sl] eqn:Hb.
  assert (Hpin : steps buf_step (s, L) (with_pins sl s, bufs_of bytes ++ L)) by (by eapply steps_one, bs_pin).
  destruct (timed now c bd) as [hd|].
  2:{ intros [= _ <- <-]. apply (Hstay (with_pins (drop_bytes bytes sl) (with_pins sl s))); [|by split_and!|done].
      eapply steps_trans; [exact Hpin|]. exact (drop_bytes_hands (with_pins sl s) bytes L). }
  set (x := MkResponse hd (full_body bytes)). destruct (send_response x r) as [sent r'] eqn:Hsend.
  pose proof (bs_send (with_pins sl s) c n r x sent r' [] L Hc Hr Hsend) as Hsnd.
  destruct sent; intros [= _ <- <-].
  - eexists. split; [eapply steps_trans; [exact Hpin|apply steps_one, Hsnd]|]. by split_and!.
  - eexists. split.
    + eapply steps_trans; [exact Hpin|]. eapply steps_cons; [exact Hsnd|]. apply (drop_bytes_hands _ bytes L).
    + by split_and!.
Qed.
End buffers.

(** ** Examples *)

Definition sample_acquire (b : Pin.RString) : Pin.RString :=
  Pin.MkRString (if Pin.as_raw b =? 0 then 8 else Pin.as_raw b) (Pin.rbytes b) true.

Lemma sample_acquire_object b : Pin.as_raw (sample_acquire b) ≠ 0.
Proof. unfold sample_acquire. cbn. destruct (Pin.as_raw b =? 0) eqn:E; [done|]. by apply Z.eqb_neq in E. Qed.

Notation sample_buf_step :=
  (buf_step (chan:=ListChan.t) (oneshot:=oneshot_state) (λ _, Ok tt) Some sample_acquire).

Lemma capped_unpinned : unpinned_server capped_server.
Proof. split; [exact capped_fresh|]. by repeat constructor. Defined.

Definition long_body : Pin.RString := Pin.MkRString 24 (Text.str_concat (replicate Pin.ZERO_COPY_MIN "x")) false.

(** A worker holds a request; no buffer has moved yet. *)
Lemma held_buffers :
  ∃ s c n r, steps sample_buf_step (sys_init capped_server, []) (s, []) ∧ c ∈ handles s
    ∧ cells s !! responder c = Some (n, r) ∧ r = responder_new ∧ pin_slab (server s) = Pin.with_capacity 2.
Proof.
  do 4 eexists. split.
  - eapply steps_cons.
    { apply bs_quiet; [apply (sys_arrive _ _ capped_server ∅ [] [] [] [] [] [] plain_request
        (MkSocketAddr (V4 10 0 0 1) 5) (MkSocketAddr (V4 10 0 0 2) 80) 1 0 plain_ctx); reflexivity|].
      split; [reflexivity|]. intros j. by apply (new_cell_bufs ∅ 1 1). }
    eapply steps_cons; [apply bs_quiet; [apply (sys_open _ _ _ _ [] plain_ctx []); reflexivity|done]|].
    eapply steps_cons; [apply bs_quiet; [apply (sys_send _ _ _ _ _ [] plain_ctx []); [reflexivity|vm_compute; reflexivity]|done]|].
    eapply steps_cons; [apply bs_quiet; [apply (sys_native _ _ _ _ _ _ _ _ _ _ NRegister)|done]|].
    eapply steps_cons; [apply bs_quiet; [apply (sys_take _ _ _ _ _ _ _ _ _ _ 0); vm_compute; reflexivity|done]|].
    eapply steps_cons; [apply bs_quiet; [apply (sys_admit _ _ _ _ _ _ [] plain_ctx [] _ _ _ 0 0 0 tt); vm_compute; reflexivity|done]|].
    apply steps_refl.
  - split; [by left|]. split; [vm_compute; reflexivity|]. split; reflexivity.
Defined.

(** The worker pins a long body: it is rooted, and the mark hook sees it. *)
Example pins_owned_witness :
  ∃ s b, steps sample_buf_step (sys_init capped_server, []) (s, [b]) ∧ Pin.mark_all (pin_slab (server s)) = [24].
Proof.
  destruct held_buffers as (s & c & n & r & Hs & _ & _ & _ & Hsl).
  destruct (body_bytes sample_acquire (pin_slab (server s)) long_body) as [x sl] eqn:Hb.
  pose proof Hb as Hb'. rewrite Hsl in Hb'. vm_compute in Hb'. injection Hb' as <- <-.
  assert (Hpin : steps sample_buf_step (sys_init capped_server, []) (_, _))
    by (eapply steps_trans; [exact Hs|apply steps_one, (bs_pin _ _ _ _ _ _ _ _ Hb)]).
  do 2 eexists. split; [exact Hpin|].
  destruct (pins_owned (λ _, Ok tt) Some sample_acquire sample_acquire_object capped_server _ _ capped_unpinned Hpin)
    as (_ & _ & Hm & _).
  revert Hm. cbn. intros Hm. apply Permutation_length_1_inv. by symmetry.
Defined.

(** It answers with the long body, and keeps no buffer. *)
Example answer_hands_over_witness :
  ∃ s s' c res, steps sample_buf_step (sys_init capped_server, []) (s', []) ∧ c ∈ handles s ∧ handles s' = handles s
    ∧ (respond_request (λ _, Ok "") (λ _, true) (λ _ _, true) "" sample_acquire 0 c 200
         (Reply.rack_hash [("x", ["y"])]) long_body (server s) (cells s)) = (res, (server s', cells s')).
Proof.
  destruct held_buffers as (s & c & n & r & Hs & Hc & _).
  destruct (respond_request (λ _, Ok "") (λ _, true) (λ _ _, true) "" sample_acquire 0 c 200
    (Reply.rack_hash [("x", ["y"])]) long_body (server s) (cells s)) as [res [sv' h']] eqn:Hresp.
  destruct (answer_hands_over (λ _, Ok tt) Some sample_acquire sample_acquire_object (λ _, Ok "") (λ _, true)
    (λ _ _, true) "" capped_server s [] 0 c 200 _ _ res sv' h' capped_unpinned Hs Hc Hresp)
    as [(s' & Hs' & <- & <- & (_ & _ & _ & Hh & _)) _].
  exists s, s', c, res. split; [eapply steps_trans; [exact Hs|exact Hs']|]. split; [exact Hc|]. split; [exact Hh|exact Hresp].
Defined.
