(* ===== verification/Connections.v ===== *)
(** HTTP connections ([server.rs], [io_shards.rs], [control.rs]): what is
    accepted and with which addresses, how long a TLS handshake may take, how
    hyper is configured, and the drain signal that ends connections
    gracefully. *)

From S2P Require Import Prelude Channels Request Registry.
From S2P Require Listen AccessLog Admission.

(** ** Accepting *)

Definition UNIX_PEER : SocketAddr := MkSocketAddr (V4 127 0 0 1) 0.
Definition UNIX_LOCAL : SocketAddr := MkSocketAddr (V4 127 0 0 1) 80.

Inductive AsyncListener : Type := AsyncTcp | AsyncUnix.

(** An accepted stream, by number. *)
Inductive Conn : Type :=
  | ConnTcp (stream : nat)
  | ConnUnix (stream : nat).

(** [refused] is the runtime's error at the registration, if any. *)
Definition from_std (refused : option string) (l : Listen.Listener) : string + AsyncListener :=
  match refused with
  | Some e => inl e
  | None => inr (match l with Listen.ListenTcp _ => AsyncTcp | Listen.ListenUnix _ => AsyncUnix end)
  end.

(** What the OS gives for one accept: an error, or the stream, its peer and,
    if the socket still knows it, its own address. *)
Definition accept (l : AsyncListener) (os : string + (nat * SocketAddr * option SocketAddr))
  : string + (Conn * SocketAddr * SocketAddr) :=
  match os with
  | inl e => inl e
  | inr (stream, peer, own) =>
      inr match l with
          | AsyncTcp => (ConnTcp stream, peer, default (MkSocketAddr (V4 0 0 0 0) 0) own)
          | AsyncUnix => (ConnUnix stream, UNIX_PEER, UNIX_LOCAL)
          end
  end.

(** ** Changing runtimes

    A sharded server's acceptor detaches a stream from its own runtime, and
    the shard it goes to registers it again; each may fail. *)

Inductive StdConn : Type :=
  | StdTcp (stream : nat)
  | StdUnix (stream : nat).

Definition detached (conn : Conn) : StdConn :=
  match conn with ConnTcp stream => StdTcp stream | ConnUnix stream => StdUnix stream end.

Definition into_std (refused : option string) (conn : Conn) : string + StdConn :=
  match refused with Some e => inl e | None => inr (detached conn) end.

Definition into_tokio (refused : option string) (conn : StdConn) : string + Conn :=
  match refused with
  | Some e => inl e
  | None => inr (match conn with StdTcp stream => ConnTcp stream | StdUnix stream => ConnUnix stream end)
  end.

Lemma detach_attach conn : match into_std None conn with inr c => into_tokio None c | inl e => inl e end = inr conn.
Proof. by destruct conn. Qed.

(** ** The handshake *)

Definition TLS_HANDSHAKE_TIMEOUT : Z := 10 * 1000000000.

(** When and how the handshake on a stream would end. *)
Inductive handshake : Type :=
  | HandshakeDone (at_ : Z)
  | HandshakeFailed (at_ : Z)
  | HandshakeStalled.

(** [timeout]: what comes by the deadline, and the time it is then. *)
Definition handshake_timeout (now : Z) (hs : handshake) : bool * Z :=
  let deadline := now + TLS_HANDSHAKE_TIMEOUT in
  match hs with
  | HandshakeDone t => if t <=? deadline then (true, t) else (false, deadline)
  | HandshakeFailed t => (false, Z.min t deadline)
  | HandshakeStalled => (false, deadline)
  end.

(** What the protocol layer reads and writes. *)
Inductive Io : Type :=
  | TlsIo (stream : nat)
  | PlainIo (conn : Conn).

(** The connection is served from some time on, or dropped. *)
Inductive conn_fate : Type :=
  | Served (io : Io) (from : Z)
  | Dropped (at_ : Z).

Definition serve_conn (conn : Conn) (acceptor : bool) (now : Z) (hs : handshake) : conn_fate :=
  match conn with
  | ConnTcp stream =>
      if acceptor then
        match handshake_timeout now hs with
        | (true, t) => Served (TlsIo stream) t
        | (false, t) => Dropped t
        end
      else Served (PlainIo conn) now
  | ConnUnix _ => Served (PlainIo conn) now
  end.

(** A shard's half of the hand-off: [refused] is the error of registering the
    stream on the shard's runtime. *)
Definition serve_accepted (refused : option string) (conn : StdConn) (acceptor : bool) (now : Z)
    (hs : handshake) : list (AccessLog.Level * string) * conn_fate :=
  match into_tokio refused conn with
  | inl _ => ([(AccessLog.Warn, "failed to register a stream on an I/O shard")], Dropped now)
  | inr conn => ([], serve_conn conn acceptor now hs)
  end.

(** ** hyper's configuration *)

Definition HEADER_READ_TIMEOUT : Z := 15 * 1000000000.

(** What was set on the builder; [None] leaves hyper's default. *)
Record ConnBuilder : Type := MkBuilder {
  h1_timer : bool;
  h1_header_read_timeout : option Z;
  h1_auto_date : option bool;
  h2_timer : bool;
  h2_auto_date : option bool;
  h2_max_concurrent_streams : option Z;
  only_http1 : bool;
}.

Definition builder_new : ConnBuilder := MkBuilder false None None false None None false.

Definition with_http1 (timer : bool) (timeout : Z) (date : bool) (b : ConnBuilder) : ConnBuilder :=
  MkBuilder timer (Some timeout) (Some date) (h2_timer b) (h2_auto_date b)
    (h2_max_concurrent_streams b) (only_http1 b).

Definition with_http2 (timer : bool) (date : bool) (max_streams : Z) (b : ConnBuilder) : ConnBuilder :=
  MkBuilder (h1_timer b) (h1_header_read_timeout b) (h1_auto_date b) timer (Some date)
    (Some max_streams) (only_http1 b).

Definition http1_only (b : ConnBuilder) : ConnBuilder :=
  MkBuilder (h1_timer b) (h1_header_read_timeout b) (h1_auto_date b) (h2_timer b) (h2_auto_date b)
    (h2_max_concurrent_streams b) true.

Definition conn_builder (http2 : bool) (max_streams : Z) : ConnBuilder :=
  let builder := with_http1 true HEADER_READ_TIMEOUT false builder_new in
  let builder := with_http2 true false max_streams builder in
  if http2 then builder else http1_only builder.

(** hyper's slow-header guard is inert without a timer. *)
Definition slow_header_guard (b : ConnBuilder) : option Z :=
  if h1_timer b then h1_header_read_timeout b else None.

(** ** Draining

    [shutdown_tx] is a watch channel: the accept loop holds a receiver, each
    connection subscribes its own when it begins to be served. *)

Section drain.
Context {watch receiver : Type → Type} `{!Watch watch receiver}.
Implicit Types (w : watch bool) (rx : receiver bool).

(** One poll of [drain_signal]: the first one looks at the current value. *)
Definition drain_signal (polled : bool) w rx : option (receiver bool) :=
  if polled then changed w rx
  else
    match borrow_and_update w rx with
    | (true, rx) => Some rx
    | (false, rx) => changed w rx
    end.

(** A connection: its task spawned (and perhaps in its handshake), served
    and waiting for the signal too, draining, or over. *)
Inductive conn_pc : Type :=
  | CSpawned
  | CServing (builder : ConnBuilder) (rx : receiver bool) (polled : bool)
  | CDraining (rx : receiver bool)
  | COver.

Record DrainSys : Type := MkDrain {
  shutdown : watch bool;
  accept_rx : option (receiver bool);
  conns : list conn_pc;
}.

(** One turn of [serve_connection]'s select on the signal's side: draining
    starts when it is ready; otherwise it has now been polled, its receiver
    having seen the value. *)
Definition drain_turn w (p : conn_pc) : conn_pc :=
  match p with
  | CServing b rx polled =>
      match drain_signal polled w rx with
      | Some rx => CDraining rx
      | None => CServing b (if polled then rx else (borrow_and_update w rx).2) true
      end
  | p => p
  end.

(** The server's settings a connection is served with. *)
Variables (http2 : bool) (topology : Topology).

Inductive drain_step : DrainSys → DrainSys → Prop :=
  | ds_accept w rx cs :
      drain_step (MkDrain w (Some rx) cs) (MkDrain w (Some rx) (cs ++ [CSpawned]))
  | ds_accept_over w rx rx' cs :
      changed w rx = Some rx' →
      drain_step (MkDrain w (Some rx) cs) (MkDrain (watch_drop_rx w) None cs)
  | ds_refused w arx cs i :
      cs !! i = Some CSpawned → drain_step (MkDrain w arx cs) (MkDrain w arx (<[i := COver]> cs))
  | ds_serve w arx cs i w' rx :
      cs !! i = Some CSpawned → subscribe w = (w', rx) →
      drain_step (MkDrain w arx cs)
        (MkDrain w' arx
           (<[i := CServing (conn_builder http2 (Admission.stream_capacity topology)) rx false]> cs))
  | ds_turn w arx cs i p :
      cs !! i = Some p → drain_step (MkDrain w arx cs) (MkDrain w arx (<[i := drain_turn w p]> cs))
  | ds_finished w arx cs i p :
      cs !! i = Some p → p ≠ CSpawned → p ≠ COver →
      drain_step (MkDrain w arx cs) (MkDrain (watch_drop_rx w) arx (<[i := COver]> cs))
  | ds_signal w arx cs : drain_step (MkDrain w arx cs) (MkDrain (watch_send true w) arx cs)
  | ds_teardown w arx cs : drain_step (MkDrain w arx cs) (MkDrain (watch_drop_tx w) arx cs).

Definition drain_init : DrainSys :=
  let '(w, rx) := watch_channel (watch := watch) (receiver := receiver) false in MkDrain w (Some rx) [].

Definition over (p : conn_pc) : bool := match p with COver => true | _ => false end.

(** The server drains, or is gone. *)
Definition signalled w : bool := latest w || watch_closed w.
End drain.
Arguments DrainSys : clear implicits.
Arguments conn_pc : clear implicits.

(** ** The drain signal reaches everybody *)

Section drain_proofs.
Context {watch receiver : Type → Type} `{!Watch watch receiver, !WatchSpec watch receiver}.
Variables (http2 : bool) (topology : Topology).
Implicit Types (w : watch bool) (rx : receiver bool) (s : DrainSys watch receiver).

Definition builder_of : ConnBuilder := conn_builder http2 (Admission.stream_capacity topology).

(** The value only ever changes to true. *)
Definition rx_ok w rx : Prop := belongs w rx ∧ (unseen w rx = true → latest w = true).

Definition conn_ok w (p : conn_pc receiver) : Prop :=
  match p with
  | CServing b rx polled =>
      rx_ok w rx ∧ b = builder_of ∧ (polled = true → latest w = true → unseen w rx = true)
  | CDraining _ => signalled w = true
  | _ => True
  end.

(** The receiver a connection holds. *)
Definition holds (p : conn_pc receiver) : nat :=
  match p with CServing _ _ _ | CDraining _ => 1 | _ => 0 end.

Definition drain_inv s : Prop :=
  let w := shutdown s in
  receivers w = ((if accept_rx s then 1 else 0) + sum_list_with holds (conns s))%nat
  ∧ match accept_rx s with Some rx => rx_ok w rx | None => signalled w = true end
  ∧ Forall (conn_ok w) (conns s).

(** [w'] follows [w]: nothing a receiver relies on is lost. *)
Definition follows w w' : Prop :=
  (∀ rx, rx_ok w rx → rx_ok w' rx) ∧ (signalled w = true → signalled w' = true)
  ∧ ∀ p, conn_ok w p → conn_ok w' p.

Lemma follows_same w w' :
  watch_same (receiver := receiver) w w' → (watch_closed w = true → watch_closed w' = true) →
  follows w w'.
Proof.
  intros [Hl Hrx] Hc.
  assert (Hok : ∀ rx, rx_ok w rx → rx_ok w' rx).
  { intros rx [Hb Hu]. destruct (Hrx rx Hb) as [Hb' Hu']. split; [done|]. by rewrite Hu', Hl. }
  assert (Hsig : signalled w = true → signalled w' = true).
  { unfold signalled. rewrite Hl, !orb_true_iff. tauto. }
  split_and!; [done|done|]. intros [|b rx polled|rx|]; simpl; auto.
  intros ([Hb Hu] & -> & Hp). destruct (Hrx rx Hb) as [Hb' Hu'].
  split_and!; [by apply Hok|done|]. by rewrite Hl, Hu'.
Qed.

Lemma follows_send w : receivers w ≠ 0%nat → follows w (watch_send true w) ∧ signalled (watch_send true w) = true.
Proof.
  intros Hr. destruct (watch_send_heard _ true w Hr) as (Hl & _ & Hc & Hrx).
  assert (Hok : ∀ rx, rx_ok w rx → rx_ok (watch_send true w) rx).
  { intros rx [Hb _]. destruct (Hrx rx Hb). by split. }
  assert (Hsig : signalled (watch_send true w) = true) by (unfold signalled; by rewrite Hl).
  split; [|done]. split_and!; [done|done|]. intros [|b rx polled|rx|]; simpl; auto.
  intros (Hok' & -> & _). split_and!; [by apply Hok|done|]. intros _ _.
  by destruct (Hrx rx (proj1 Hok')).
Qed.

(** A signal with nobody listening is lost, and changes nothing. *)
Lemma follows_signal w : follows w (watch_send true w) ∧ receivers (watch_send true w) = receivers w.
Proof.
  destruct (decide (receivers w = 0%nat)) as [Hr|Hr].
  - rewrite watch_send_unheard by done. split; [|done]. by split_and!.
  - split; [by apply follows_send|]. by apply watch_send_heard.
Qed.

(** The turn goes to draining exactly when the server drains. *)
Lemma drain_turn_spec w b rx polled :
  conn_ok w (CServing b rx polled) →
  if signalled w then ∃ rx', drain_turn w (CServing b rx polled) = CDraining rx'
  else ∃ rx', drain_turn w (CServing b rx polled) = CServing b rx' true ∧ rx_ok w rx'.
Proof.
  intros ([Hb Hu] & _ & Hp). unfold drain_turn, drain_signal, signalled.
  assert (Hseen : ∀ rx', belongs w rx' → unseen w rx' = false →
    changed w rx' = if watch_closed w then Some rx' else None).
  { intros rx' Hb' Hu'. destruct (watch_closed w) eqn:Hc; [by apply changed_closed|by apply changed_pending]. }
  destruct polled.
  - destruct (unseen w rx) eqn:Hun.
    + rewrite (Hu eq_refl). destruct (changed_unseen _ w rx Hb Hun) as (rx' & -> & _). simpl. eauto.
    + rewrite (Hseen rx) by done. destruct (latest w) eqn:Hl; [by specialize (Hp eq_refl eq_refl)|].
      destruct (watch_closed w); simpl; [eauto|]. exists rx. split; [done|]. split; [done|congruence].
  - destruct (borrow_and_update_spec _ w rx Hb) as (rx' & -> & Hb' & Hu').
    destruct (latest w) eqn:Hl; simpl; [eauto|]. rewrite (Hseen rx') by done.
    destruct (watch_closed w); simpl; [eauto|]. exists rx'. split; [done|]. split; [done|congruence].
Qed.

Lemma conn_ok_turn w p : conn_ok w p → conn_ok w (drain_turn w p).
Proof.
  destruct p as [|b rx polled|rx|]; try done. intros Hok. pose proof (drain_turn_spec _ _ _ _ Hok) as Ht.
  destruct (signalled w) eqn:Hs.
  - by destruct Ht as [rx' ->].
  - destruct Ht as (rx' & -> & Hrx). simpl. destruct Hok as (_ & -> & _).
    split_and!; [done|done|]. unfold signalled in Hs. by destruct (latest w).
Qed.

Lemma holds_turn w p : holds (drain_turn w p) = holds p.
Proof. destruct p as [|b rx polled|rx|]; try done. simpl. by destruct (drain_signal polled w rx). Qed.

Lemma accept_changed w rx rx' : rx_ok w rx → changed w rx = Some rx' → signalled w = true.
Proof.
  intros [Hb Hu] Hc. unfold signalled. destruct (unseen w rx) eqn:Hun; [by rewrite Hu|].
  destruct (watch_closed w) eqn:Hcl; [apply orb_true_r|].
  by rewrite changed_pending in Hc.
Qed.

Lemma drain_inv_step s s' : drain_step http2 topology s s' → drain_inv s → drain_inv s'.
Proof.
  destruct 1 as [w rx cs|w rx rx' cs Hch|w arx cs i Hi|w arx cs i w' rx Hi Hsub|w arx cs i p Hi
                |w arx cs i p Hi Hp1 Hp2|w arx cs|w arx cs]; intros (Hr & Ha & Hcs); unfold drain_inv; simpl in *.
  - rewrite sum_list_with_app. simpl. split_and!; [lia|done|]. apply Forall_app; by split; [|constructor].
  - destruct (watch_drop_rx_spec _ w) as (Hsame & Hn & Hc).
    assert (Hf := follows_same _ _ Hsame (λ H, eq_trans Hc H)).
    split_and!; [lia|eapply Hf, accept_changed; done|]. eapply Forall_impl; [done|apply Hf].
  - pose proof (sum_list_with_insert holds _ _ _ COver Hi). simpl in *.
    split_and!; [lia|done|by apply Forall_insert].
  - pose proof (subscribe_spec _ w) as Hs. rewrite Hsub in Hs. destruct Hs as (Hsame & Hn & Hc & Hb & Hu).
    assert (Hf := follows_same _ _ Hsame (λ H, eq_trans Hc H)).
    pose proof (sum_list_with_insert holds _ _ _ (CServing builder_of rx false) Hi). simpl in *.
    split_and!; [unfold builder_of in *; lia|destruct arx; by apply Hf|].
    apply Forall_insert; [eapply Forall_impl; [done|apply Hf]|]. simpl. split_and!; try done. split; [done|congruence].
  - pose proof (sum_list_with_insert holds _ _ _ (drain_turn w p) Hi) as Hsum. rewrite holds_turn in Hsum.
    split_and!; [lia|done|]. apply Forall_insert; [done|]. apply conn_ok_turn.
    rewrite Forall_lookup in Hcs. eauto.
  - destruct (watch_drop_rx_spec _ w) as (Hsame & Hn & Hc).
    assert (Hf := follows_same _ _ Hsame (λ H, eq_trans Hc H)).
    pose proof (sum_list_with_insert holds _ _ _ COver Hi).
    assert (holds p = 1%nat) by (by destruct p).
    split_and!; [simpl in *; lia|destruct arx; by apply Hf|].
    apply Forall_insert; [|done]. eapply Forall_impl; [done|apply Hf].
  - destruct (follows_signal w) as [Hf ->].
    split_and!; [done|destruct arx; by apply Hf|]. eapply Forall_impl; [done|apply Hf].
  - destruct (watch_drop_tx_spec _ w) as (Hsame & Hn & Hc).
    assert (Hf := follows_same _ _ Hsame (λ _, Hc)).
    split_and!; [lia|destruct arx; by apply Hf|]. eapply Forall_impl; [done|apply Hf].
Qed.

Lemma drain_inv_init : drain_inv (drain_init : DrainSys watch receiver).
Proof.
  unfold drain_init. pose proof (watch_channel_spec bool false) as H.
  destruct (watch_channel false) as [w rx]. destruct H as (_ & Hr & _ & Hb & Hu).
  split_and!; [done|split; [done|]|done]. simpl. congruence.
Qed.

(** C25: The drain signal reaches every connection, in time and in error to none.
    However connections are accepted, refused, served, turned, finished and
    signalled: a connection being served, built with the server's protocol
    setting and stream limit, starts draining at its next turn once the server
    drains (or its signal's sender is gone), also when it subscribed only
    after the signal; before that, no turn makes it drain, and none is
    draining; and the signal, when it is sent while any connection is not
    over, is not lost for want of a receiver. *)
Theorem drain_never_missed s :
  steps (drain_step http2 topology) drain_init s →
  let w := shutdown s in
  (∀ i b rx polled, conns s !! i = Some (CServing b rx polled) →
     b = conn_builder http2 (Admission.stream_capacity topology)
     ∧ (signalled w = true → ∃ rx', drain_turn w (CServing b rx polled) = CDraining rx')
     ∧ (signalled w = false → ∃ rx', drain_turn w (CServing b rx polled) = CServing b rx' true))
  ∧ (∀ i rx, conns s !! i = Some (CDraining rx) → signalled w = true)
  ∧ (Exists (λ p, over p = false) (conns s) → signalled (watch_send true w) = true).
Proof.
  intros Hs. pose proof (steps_invariant _ _ drain_inv_step _ _ Hs drain_inv_init) as (Hr & Ha & Hcs).
  rewrite Forall_lookup in Hcs. cbn zeta. split_and!.
  - intros i b rx polled Hi. pose proof (Hcs _ _ Hi) as Hok. pose proof (drain_turn_spec _ _ _ _ Hok) as Ht.
    split; [apply Hok|]. destruct (signalled (shutdown s)); split; intros; try done.
    destruct Ht as (rx' & ? & _). eauto.
  - intros i rx Hi. apply (Hcs _ _ Hi).
  - intros Hex%Exists_exists. destruct Hex as (p & Hp & Ho).
    destruct (decide (receivers (shutdown s) = 0%nat)) as [H0|H0]; [|by apply follows_send].
    rewrite watch_send_unheard by done. destruct (accept_rx s); [simpl in Hr; lia|done].
Qed.
End drain_proofs.

(** A connection subscribes after the signal and still drains. *)
Example drain_never_missed_witness :
  ∃ s : DrainSys VersionWatch.t VersionWatch.rx,
    steps (drain_step true (MkTopology "threaded" 2 2 1 1)) drain_init s
    ∧ signalled (shutdown s) = true
    ∧ ∃ b rx rx', conns s = [CServing b rx false] ∧ drain_turn (shutdown s) (CServing b rx false) = CDraining rx'.
Proof.
  set (b := conn_builder true 8).
  set (s := MkDrain (VersionWatch.Mk true 1 false 2) (Some 0%nat) [CServing b 1%nat false]
            : DrainSys VersionWatch.t VersionWatch.rx).
  assert (Hs : steps (drain_step true (MkTopology "threaded" 2 2 1 1)) drain_init s).
  { eapply steps_cons; [apply ds_accept|]. eapply steps_cons; [apply ds_signal|].
    eapply steps_cons; [by apply (ds_serve _ _ _ _ _ 0)|]. apply steps_refl. }
  destruct (proj1 (drain_never_missed _ _ _ Hs) 0%nat b 1%nat false eq_refl) as (_ & H & _).
  destruct (H eq_refl) as [rx' Hrx]. exists s. split; [exact Hs|]. split; [reflexivity|].
  exists b, 1%nat, rx'. by split.
Defined.

(** ** The handshake is bounded *)


