(* ===== verification/Boot.v ===== *)
(** Boot ([server_start] and [accept_loop] of [server.rs]): the configuration
    Hash, the listeners, the server's first state, its I/O threads and its
    control thread, and what a boot that fails half way leaves behind. *)

From S2P Require Import Prelude Text Channels Gvl Response Request Registry IoShards Listen.
From S2P Require Control Histogram Pin System Order Buffers.

(** ** The configuration Hash *)

(** What the code relies on of magnus: a Ruby value is nil or converts to a
    Rust type, or the conversion raises. *)
Class Magnus (V : Type) : Type := {
  is_nil : V → bool;
  to_string : V → result string;
  to_uint : Z → V → result Z;
  to_bool : V → result bool;
}.

Record BootConfig : Type := MkBoot {
  b_bind : string;
  b_port : Z;
  b_queue_depth : Z;
  b_queue_timeout_ms : Z;
  b_request_timeout_ms : Z;
  b_max_body_size : Z;
  b_max_connections : Z;
  b_io_shards : bool;
  b_io_threads : Z;
  b_tokio_threads : Z;
  b_tls_cert : option string;
  b_tls_key : option string;
  b_lanes : bool;
  b_http2 : bool;
  b_log_requests : bool;
  b_topology : Topology;
}.

Section config.
Context {V : Type} `{!Magnus V}.
Implicit Types (h : gmap string V).

Definition cfg_opt {A} (conv : V → result A) h (key : string) : result (option A) :=
  match h !! key with
  | None => Ok None
  | Some v => if is_nil v then Ok None else x ← conv v; Ok (Some x)
  end.

Definition cfg {A} (conv : V → result A) h (key : string) : result A :=
  x ← cfg_opt conv h key;
  match x with
  | Some x => Ok x
  | None => Err (ArgError ("server_start: missing config key :" +:+ key))
  end.

Definition to_u16 : V → result Z := to_uint (2 ^ 16 - 1).
Definition to_u64 : V → result Z := to_uint (u64_modulus - 1).

Definition cfg_or {A} (conv : V → result A) h (key : string) (d : A) : result A :=
  x ← cfg_opt conv h key; Ok (default d x).

Definition read_config h : result BootConfig :=
  bind ← cfg to_string h "bind";
  port ← cfg to_u16 h "port";
  queue_depth ← cfg to_u64 h "queue_depth";
  queue_timeout_ms ← cfg to_u64 h "queue_timeout_ms";
  request_timeout_ms ← cfg_or to_u64 h "request_timeout_ms" 0;
  max_body_size ← cfg_or to_u64 h "max_body_size" 0;
  max_connections ← cfg_or to_u64 h "max_connections" 1024;
  io_shards ← cfg_or to_bool h "io_shards" false;
  io_threads ← cfg_or to_u64 h "io_threads" 0;
  tokio_threads ← cfg_or to_u64 h "tokio_threads" 0;
  tls_cert ← cfg_opt to_string h "tls_cert";
  tls_key ← cfg_opt to_string h "tls_key";
  lanes ← cfg_or to_bool h "lanes" false;
  http2 ← cfg_or to_bool h "http2" true;
  log_requests ← cfg_or to_bool h "log_requests" false;
  mode ← cfg_or to_string h "mode" "threaded";
  workers ← cfg_or to_u64 h "workers" 0;
  max_workers ← cfg_or to_u64 h "max_workers" workers;
  threads ← cfg_or to_u64 h "threads" 0;
  batch ← cfg_or to_u64 h "batch" 1;
  Ok (MkBoot bind port queue_depth queue_timeout_ms request_timeout_ms max_body_size
        max_connections io_shards io_threads tokio_threads tls_cert tls_key lanes http2
        log_requests (MkTopology mode workers (Z.max max_workers workers) threads batch)).
End config.

(** ** The machine *)

(** What the operating system, and tokio, answer during this boot. *)
Record Machine : Type := MkMachine {
  tcp_bind : string → Z → io_error + Z;
  tcp_bind_addr : string → io_error + Z;
  local_addr : option io_error;
  read_file : string → string + string;
  show_io : io_error → string;
  cpus : option Z;
  shard_starts : nat → startup;
  acceptor_start : startup;
  (* when a thread, told to stop, is done *)
  thread_ends : nat → option Z;
  runtime_build : option io_error;
  listener_setup : option io_error;
  control_thread : option string;
  tokio_shutdown : Z → Z → Z;
  now : Z;
}.

(** The process: the server registry, the servers whose I/O threads run, the
    control threads and the file system. *)
Record Host (chan : Type → Type) : Type := MkHost {
  h_registry : Registry chan;
  h_running : gset nat;
  h_control : Control.ControlWorld;
}.
Arguments MkHost {chan}.
Arguments h_registry {chan}.
Arguments h_running {chan}.
Arguments h_control {chan}.

Definition raise_io (m : Machine) (what : string) (e : io_error) : Error :=
  RuntimeError (what +:+ ": " +:+ show_io m e).

Definition close_path (p : option string) (fs : Files) : Files :=
  match p with Some p => os_close p fs | None => fs end.

Section boot.
Context {chan : Type → Type} `{!Flume chan} {V : Type} `{!Magnus V}.
Context {cert key tls : Type} `{!Rustls cert key tls}.
Context (per_ractor_gc : bool) (m : Machine).
Implicit Types (c : BootConfig) (host : Host chan) (sv : ServerInner chan) (fs : Files).

Definition boot_acceptor c : result (option (ServerConfig tls)) :=
  match b_tls_cert c, b_tls_key c with
  | Some cert, Some key =>
      match build_acceptor (read_file m) cert key (b_http2 c) with
      | inr a => Ok (Some a)
      | inl e => Err (RuntimeError ("TLS: " +:+ e))
      end
  | None, None => Ok None
  | _, _ => Err (ArgError "TLS requires both cert and key")
  end.

(** A listener that is dropped on the way closes its socket. *)
Definition boot_listener c (tls_on : bool) fs : result (Listener * Z) * Files :=
  match listener_bind (tcp_bind m) (b_bind c) (b_port c) fs with
  | (inl e, fs) => (Err (raise_io m "bind failed" e), fs)
  | (inr l, fs) =>
      if tls_on && bool_decide (is_Some (listener_path l))
      then (Err (ArgError "TLS is not supported on a unix socket bind"), close_path (listener_path l) fs)
      else match l, local_addr m with
           | ListenTcp _, Some e => (Err (raise_io m "listener setup failed" e), fs)
           | _, _ => (Ok (l, listener_port l), fs)
           end
  end.

Definition boot_control_bind (h : gmap string V) fs : result (option ControlBind * option string) * Files :=
  match cfg_opt to_string h "control_bind", cfg_opt to_string h "control_token" with
  | Err e, _ => (Err e, fs)
  | Ok _, Err e => (Err e, fs)
  | Ok None, Ok token => (Ok (None, token), fs)
  | Ok (Some addr), Ok token =>
      match bind_control (tcp_bind_addr m) addr fs with
      | (inl e, fs) => (Err (raise_io m "control bind failed" e), fs)
      | (inr b, fs) => (Ok (Some b, token), fs)
      end
  end.

Definition server_new c (id : nat) (https : bool) (path : option string) : ServerInner chan :=
  MkServer
    (MkConfig id (b_queue_timeout_ms c) (b_request_timeout_ms c) (b_max_body_size c) (b_topology c)
       https (b_http2 c) path (b_log_requests c) (b_lanes c))
    true (bounded (Z.to_nat (b_queue_depth c))) false RtNone []
    (counters_new (workers (b_topology c))) STATE_BOOTING 0 0
    (Pin.for_responses per_ractor_gc (String.eqb (mode (b_topology c)) "ractor"))
    Histogram.histogram_new.

(** The threads that serve: a shard fleet, or tokio's own pool. [None] would
    be a boot that hangs. *)
Definition boot_runtime c : option (result RuntimeHandle) :=
  if b_io_shards c then
    '(r, _) ← spawn (shard_starts m) (acceptor_start m) (Z.to_nat (thread_count (cpus m) (b_io_threads c)));
    Some match r with
         | inr threads => Ok (Shards false (thread_ends m <$> threads))
         | inl e => Err (RuntimeError ("sharded runtime failed: " +:+ e))
         end
  else
    Some match runtime_build m, listener_setup m with
         | Some e, _ => Err (raise_io m "tokio runtime failed" e)
         | None, Some e => Err (raise_io m "listener setup failed" e)
         | None, None => Ok MultiThread
         end.

(** The control thread last; without it the runtime just started is stopped
    again, for no registry entry could ever reach it. *)
Definition boot_control (bind : option ControlBind) sv (w : Control.ControlWorld)
  : result (option Z) * bool * Control.ControlWorld :=
  match bind with
  | None => (Ok None, true, w)
  | Some bind =>
      match Control.start (control_thread m) bind (Registry.id (config sv)) w with
      | (inr p, w) => (Ok p, true, w)
      | (inl e, w) =>
          let '(_, _) := shutdown (tokio_shutdown m) (now m) (1000 * 1000000) (runtime sv) in
          (Err (RuntimeError ("control start failed: " +:+ e)), false,
           Control.MkControlWorld (Control.handles w) (close_path (Registry.unix_path (config sv)) (Control.files w)))
      end
  end.

Definition with_files fs host : Host chan :=
  MkHost (h_registry host) (h_running host)
    (Control.MkControlWorld (Control.handles (h_control host)) fs).

Definition server_start (h : gmap string V) host : option (result (nat * Z * option Z) * Host chan) :=
  let fs := Control.files (h_control host) in
  match read_config h with
  | Err e => Some (Err e, host)
  | Ok c =>
      match boot_acceptor c with
      | Err e => Some (Err e, host)
      | Ok acceptor =>
          let tls_on := bool_decide (is_Some acceptor) in
          match boot_listener c tls_on fs with
          | (Err e, fs) => Some (Err e, with_files fs host)
          | (Ok (l, port), fs) =>
              match boot_control_bind h fs with
              | (Err e, fs) => Some (Err e, with_files (close_path (listener_path l) fs) host)
              | (Ok (cbind, _), fs) =>
                  let '(i, reg) := next_server_id (h_registry host) in
                  let host := MkHost reg (h_running host) (h_control host) in
                  let sv := server_new c i tls_on (listener_path l) in
                  match boot_runtime c with
                  | None => None
                  | Some (Err e) =>
                      Some (Err e, with_files (close_path (listener_path l)
                         (close_path (b ← cbind; control_path b) fs)) host)
                  | Some (Ok rt) =>
                      let sv := set_draining false rt sv in
                      match boot_control cbind sv (Control.MkControlWorld (Control.handles (h_control host)) fs) with
                      | (Ok cport, up, w) =>
                          Some (Ok (i, port, cport),
                           MkHost (insert sv reg) (if up then {[i]} ∪ h_running host else h_running host) w)
                      | (Err e, up, w) =>
                          Some (Err e, MkHost reg (if up then {[i]} ∪ h_running host else h_running host) w)
                      end
                  end
              end
          end
      end
  end.
End boot.

(** ** Listening sockets, before and after *)

Definition accepting (fs : Files) (p : string) : Prop := nodes fs !! p = Some (SocketFile true).

(** The sockets accepting in [fs'] are those of [P], and those of [fs]. *)
Definition opened (P : list string) (fs fs' : Files) : Prop :=
  ∀ p, accepting fs' p → p ∈ P ∨ accepting fs p.

Lemma opened_refl fs : opened [] fs fs.
Proof. intros p Hp. by right. Qed.
#[local] Hint Resolve opened_refl : kino.

Lemma opened_trans P Q fs1 fs2 fs3 :
  opened P fs1 fs2 → opened Q fs2 fs3 → opened (Q ++ P) fs1 fs3.
Proof.
  intros H1 H2 p Hp. rewrite elem_of_app. destruct (H2 p Hp) as [|Hp']; [tauto|].
  destruct (H1 p Hp'); tauto.
Qed.

Lemma opened_close p P fs fs' : opened (p :: P) fs fs' → opened P fs (os_close p fs').
Proof.
  intros H q Hq. unfold accepting, os_close in Hq. cbn in Hq.
  destruct (decide (q = p)) as [->|Hne].
  - rewrite lookup_alter_eq in Hq. by destruct (nodes fs' !! p) as [[|]|].
  - rewrite lookup_alter_ne in Hq by done. destruct (H q Hq) as [Hin|]; [|by right].
    left. by apply elem_of_cons in Hin as [|].
Qed.

Lemma opened_close_path o P fs fs' : opened (option_list o ++ P) fs fs' → opened P fs (close_path o fs').
Proof. destruct o as [p|]; [apply opened_close|done]. Qed.

Lemma opened_remove p P fs fs' : opened P fs fs' → opened P fs (os_remove_file p fs').2.
Proof.
  intros H q Hq. apply H. unfold accepting, os_remove_file in *.
  repeat case_match; cbn in *; try done. by apply lookup_delete_Some in Hq as [].
Qed.

Lemma opened_reclaim o P fs fs' :
  opened (option_list o ++ P) fs fs' → opened P fs (Control.reclaim o fs').
Proof. destruct o as [p|]; [|done]. intros H. apply opened_remove. by apply opened_close. Qed.

Lemma opened_bind path fs :
  opened (match (os_bind path fs).1 with None => [path] | Some _ => [] end) fs (os_bind path fs).2.
Proof.
  intros p Hp. unfold accepting, os_bind in *. repeat case_match; cbn in *; try by right.
  destruct (decide (p = path)) as [->|]; [left; set_solver|]. right. by rewrite lookup_insert_ne in Hp.
Qed.

Lemma opened_bind_unix path fs :
  opened (match (bind_unix path fs).1 with None => [path] | Some _ => [] end) fs (bind_unix path fs).2.
Proof.
  unfold bind_unix. destruct (os_connect path fs) as [e|]; [|apply opened_refl].
  case_decide; [|case_decide; [apply opened_bind|apply opened_refl]].
  pose proof (opened_remove path [] fs fs (opened_refl fs)) as Hr.
  destruct (os_remove_file path fs) as [[e'|] fs']; cbn in Hr; [case_decide; [|done]|].
  all: pose proof (opened_trans _ _ _ _ _ Hr (opened_bind path fs')) as Ht; by rewrite app_nil_r in Ht.
Qed.

Section boot_proofs.
Context {chan : Type → Type} `{!Flume chan, !FlumeSpec chan} {V : Type} `{!Magnus V}.
Context {cert key tls : Type} `{!Rustls cert key tls}.
Context (per_ractor_gc : bool) (m : Machine).
Implicit Types (c : BootConfig) (host : Host chan) (fs : Files).

Lemma boot_listener_opened c tls_on fs :
  match boot_listener m c tls_on fs with
  | (Ok (l, _), fs') => opened (option_list (listener_path l)) fs fs'
  | (Err _, fs') => opened [] fs fs'
  end.
Proof.
  unfold boot_listener, listener_bind. destruct (unix_path (b_bind c)) as [path|].
  - pose proof (opened_bind_unix path fs) as H. destruct (bind_unix path fs) as [[e|] fs']; cbn in *; [done|].
    destruct tls_on; cbn; [|done]. by apply opened_close.
  - destruct (tcp_bind m _ _); cbn; [apply opened_refl|]. rewrite andb_false_r.
    destruct (local_addr m); apply opened_refl.
Qed.

Lemma boot_control_opened h fs :
  match boot_control_bind (V := V) m h fs with
  | (Ok (b, _), fs') => opened (option_list (b ← b; control_path b)) fs fs'
  | (Err _, fs') => opened [] fs fs'
  end.
Proof.
  unfold boot_control_bind. destruct (cfg_opt to_string h "control_bind") as [[addr|]|];
    destruct (cfg_opt to_string h "control_token") as [token|]; try apply opened_refl.
  unfold bind_control. destruct (unix_path addr) as [path|].
  - pose proof (opened_bind_unix path fs) as H. by destruct (bind_unix path fs) as [[e|] fs'].
  - destruct (tcp_bind_addr m addr); apply opened_refl.
Qed.

Lemma boot_runtime_total c : is_Some (boot_runtime m c).
Proof.
  unfold boot_runtime. destruct (b_io_shards c); [|done].
  destruct (spawn_loop_spec (shard_starts m) (acceptor_start m)
              (Nat.max (Z.to_nat (thread_count (cpus m) (b_io_threads c))) 1) 0 (MkBooting ∅ ∅) eq_refl)
    as (r & b & E & _).
  unfold spawn. cbn in E |- *. rewrite E. by cbn.
Qed.

Lemma boot_control_spec bind (sv : ServerInner chan) w fs :
  opened (option_list (b ← bind; control_path b) ++ option_list (Registry.unix_path (config sv))) fs
    (Control.files w) →
  match boot_control m bind sv w with
  | (Ok _, up, w') =>
      up = true ∧ (Control.handles w' = Control.handles w
                   ∨ ∃ hd, Control.handles w' = <[Registry.id (config sv) := hd]> (Control.handles w))
  | (Err _, up, w') =>
      up = false ∧ Control.handles w' = Control.handles w ∧ opened [] fs (Control.files w')
  end.
Proof.
  intros Ho. unfold boot_control. destruct bind as [b|]; [|by eauto].
  unfold Control.start. destruct (control_thread m); [|cbn; eauto].
  destruct (shutdown _ _ _ _) as [? ?]. cbn. split_and!; [done|done|].
  apply opened_close_path, opened_reclaim. by rewrite app_nil_r.
Qed.

(** A boot either registers the server it configures, or leaves the process
    as it was. *)
Definition booted (h : gmap string V) host (i : nat) host' : Prop :=
  i = next_id (h_registry host)
  ∧ ∃ c sv, read_config h = Ok c
    ∧ servers (h_registry host') = <[i := sv]> (servers (h_registry host))
    ∧ Registry.id (config sv) = i ∧ state sv = STATE_BOOTING ∧ slots sv = [] ∧ waiting sv = []
    ∧ capacity (req sv) = Z.to_nat (b_queue_depth c) ∧ req_tx sv = true
    ∧ topology (config sv) = b_topology c
    ∧ s_https (config sv) = bool_decide (is_Some (b_tls_cert c))
    ∧ h_running host' = {[i]} ∪ h_running host
    ∧ (0 < b_queue_depth c → Order.pristine sv ∧ Buffers.unpinned_server sv).

Definition untouched host host' : Prop :=
  servers (h_registry host') = servers (h_registry host)
  ∧ h_running host' = h_running host
  ∧ Control.handles (h_control host') = Control.handles (h_control host)
  ∧ opened [] (Control.files (h_control host)) (Control.files (h_control host')).

Lemma boot_acceptor_on c a :
  boot_acceptor (tls := tls) m c = Ok a → bool_decide (is_Some a) = bool_decide (is_Some (b_tls_cert c)).
Proof. unfold boot_acceptor. repeat case_match; intros; by simplify_eq. Qed.

Lemma waiting_server_new c i on path : waiting (server_new (chan := chan) per_ractor_gc c i on path) = [].
Proof. unfold waiting. cbn. destruct (bounded_spec (RequestCtx chan) (Z.to_nat (b_queue_depth c))) as (-> & _). done. Qed.

Lemma capacity_server_new c i on path :
  capacity (req (server_new (chan := chan) per_ractor_gc c i on path)) = Z.to_nat (b_queue_depth c).
Proof. cbn. apply bounded_spec. Qed.

Lemma pristine_server_new c i on path rt :
  0 < b_queue_depth c →
  let sv := set_draining false rt (server_new (chan := chan) per_ractor_gc c i on path) in
  Order.pristine sv ∧ Buffers.unpinned_server sv.
Proof.
  intros Hd sv. assert (Hf : System.fresh_server sv).
  { split; [|split; [apply waiting_server_new|done]]. split; [apply Forall_nil_2|]. split.
    - apply chan_ok_bounded. lia.
    - intros _. apply bounded_spec. }
  split; [split; [done|split; [apply bounded_spec|apply Forall_nil_2]]|]. split; [done|].
  by apply Forall_replicate.
Qed.
End boot_proofs.


(** ** The configuration *)

Section config_proofs.
Context {V : Type} `{!Magnus V}.
Implicit Types (h : gmap string V).

Definition absent h (key : string) : Prop :=
  match h !! key with Some v => is_nil v = true | None => True end.

Definition missing (key : string) : Error := ArgError ("server_start: missing config key :" +:+ key).

Definition present {A} (conv : V → result A) h (key : string) (x : A) : Prop :=
  ∃ v, h !! key = Some v ∧ is_nil v = false ∧ conv v = Ok x.

Lemma cfg_opt_absent {A} (conv : V → result A) h key : absent h key → cfg_opt conv h key = Ok None.
Proof. unfold absent, cfg_opt. destruct (h !! key); [by intros ->|done]. Qed.

Lemma cfg_absent {A} (conv : V → result A) h key : absent h key → cfg conv h key = Err (missing key).
Proof. intros H. unfold cfg. by rewrite cfg_opt_absent. Qed.

Lemma cfg_or_absent {A} (conv : V → result A) h key d : absent h key → cfg_or conv h key d = Ok d.
Proof. intros H. unfold cfg_or. by rewrite cfg_opt_absent. Qed.

Lemma cfg_present {A} (conv : V → result A) h key x : present conv h key x → cfg conv h key = Ok x.
Proof. intros (v & E & Hn & Hc). unfold cfg, cfg_opt. by rewrite E, Hn, Hc. Qed.
End config_proofs.

Definition required_keys : list string := ["bind"; "port"; "queue_depth"; "queue_timeout_ms"].

Definition optional_keys : list string :=
  ["request_timeout_ms"; "max_body_size"; "max_connections"; "io_shards"; "io_threads";
   "tokio_threads"; "tls_cert"; "tls_key"; "lanes"; "http2"; "log_requests"; "mode"; "workers";
   "max_workers"; "threads"; "batch"].

(** The required keys are looked at in order, before any option: the
    first that is absent or nil is the error, by name. With the four of them
    and nothing else, every option has its default: no body limit, no request
    timeout, 1024 connections, HTTP/2 on, TLS, lanes, access log and shards
    off, a fixed pool. The pool's ceiling is never below its floor. *)
Theorem read_config_spec {V} `{!Magnus V} (h : gmap string V) :
  (absent h "bind" → read_config h = Err (missing "bind"))
  ∧ (∀ b p q t,
       present to_string h "bind" b →
       (absent h "port" → read_config h = Err (missing "port"))
       ∧ (present to_u16 h "port" p → absent h "queue_depth" → read_config h = Err (missing "queue_depth"))
       ∧ (present to_u16 h "port" p → present to_u64 h "queue_depth" q →
          (absent h "queue_timeout_ms" → read_config h = Err (missing "queue_timeout_ms"))
          ∧ (present to_u64 h "queue_timeout_ms" t → Forall (absent h) optional_keys →
             read_config h = Ok (MkBoot b p q t 0 0 1024 false 0 0 None None false true false
                                   (MkTopology "threaded" 0 0 0 1)))))
  ∧ (∀ c, read_config h = Ok c → workers (b_topology c) ≤ max_workers (b_topology c)).
Proof.
  split_and!.
  - intros H. unfold read_config. by rewrite (cfg_absent _ h "bind").
  - intros b p q t Hb. split_and!; unfold read_config; rewrite (cfg_present _ _ _ _ Hb); cbn.
    + intros H. by rewrite (cfg_absent _ h "port").
    + intros Hp H. rewrite (cfg_present _ _ _ _ Hp). cbn. by rewrite (cfg_absent _ h "queue_depth").
    + intros Hp Hq. rewrite (cfg_present _ _ _ _ Hp). cbn. rewrite (cfg_present _ _ _ _ Hq). cbn.
      split; [intros H; by rewrite (cfg_absent _ h "queue_timeout_ms")|]. intros Ht Hopt. rewrite (cfg_present _ _ _ _ Ht). cbn.
      unfold optional_keys in Hopt. decompose_Forall_hyps.
      repeat (rewrite cfg_or_absent by done; cbn). repeat (rewrite cfg_opt_absent by done; cbn).
      repeat (rewrite cfg_or_absent by done; cbn). done.
  - intros c H. unfold read_config in H.
    repeat match type of H with
           | (_ ← ?r; _) = _ => destruct r eqn:?; cbn in H; [|done]
           end.
    injection H as <-. cbn. lia.
Qed.

(** ** The default accept loop

    The same backpressure without shards: the permit comes before the accept
    and travels into the connection's task. *)

Record AcceptLoop (sem : Type) : Type := MkAcceptLoop {
  al_limit : sem;
  al_pc : acceptor_pc;
  al_conns : list Accepted;
}.
Arguments MkAcceptLoop {sem}.
Arguments al_limit {sem}.
Arguments al_pc {sem}.
Arguments al_conns {sem}.

Section accept_loop.
Context {sem : Type} `{!Semaphore sem}.
Implicit Types (l : AcceptLoop sem).

Definition accept_loop_new (max_connections : nat) : AcceptLoop sem :=
  MkAcceptLoop (sem_new max_connections) Waiting [].

Definition accept_loop_turn (e : accept_event) l : option (AcceptLoop sem) :=
  match al_pc l, e with
  | Waiting, Shutdown => Some (MkAcceptLoop (al_limit l) Ended (al_conns l))
  | Waiting, Granted =>
      match try_acquire_owned (al_limit l) with
      | Some s => Some (MkAcceptLoop s Permitted (al_conns l))
      | None => None
      end
  | Permitted, Shutdown => Some (MkAcceptLoop (drop_permit (al_limit l)) Ended (al_conns l))
  | Permitted, AcceptError => Some (MkAcceptLoop (drop_permit (al_limit l)) Waiting (al_conns l))
  | Permitted, Detached a => Some (MkAcceptLoop (al_limit l) Waiting (a :: al_conns l))
  | _, _ => None
  end.

Inductive accept_loop_step : AcceptLoop sem → AcceptLoop sem → Prop :=
  | al_turn e l l' : accept_loop_turn e l = Some l' → accept_loop_step l l'
  | al_over l (before after : list Accepted) a :
      al_conns l = before ++ a :: after →
      accept_loop_step l (MkAcceptLoop (drop_permit (al_limit l)) (al_pc l) (before ++ after)).

Definition al_in_hand l : nat := match al_pc l with Permitted => 1 | _ => 0 end.
End accept_loop.

(** The default accept loop holds at most [max_connections]
    connections, and a client beyond them waits in the kernel's backlog: the
    free permits, the one in hand and the connections being served always add
    up to the limit; no turn of the loop accepts without a permit; and after
    shutdown no turn does anything while the connections left finish. *)
Theorem accept_loop_limit {sem} `{!Semaphore sem, !SemaphoreSpec sem} max_connections (l : AcceptLoop sem) :
  steps accept_loop_step (accept_loop_new max_connections) l →
  (available_permits (al_limit l) + al_in_hand l + length (al_conns l) = max_connections)%nat
  ∧ (∀ e l', accept_loop_turn e l = Some l' → al_conns l' ≠ al_conns l → al_in_hand l = 1%nat)
  ∧ (al_pc l = Ended → ∀ e, accept_loop_turn e l = None)
  ∧ (length (al_conns l) = max_connections → ∀ l', accept_loop_turn Granted l ≠ Some l').
Proof.
  intros Hs.
  assert (Hinv : (available_permits (al_limit l) + al_in_hand l + length (al_conns l) = max_connections)%nat).
  { eapply (steps_invariant accept_loop_step (λ l,
      (available_permits (al_limit l) + al_in_hand l + length (al_conns l) = max_connections)%nat)); [|exact Hs|].
    - intros l1 l2 [e l0 l' Ht|l0 c1 c2 a E] H.
      + unfold accept_loop_turn, al_in_hand in *.
        destruct (al_pc l0) eqn:Hpc, e; try discriminate Ht; try (injection Ht as <-);
          cbn; rewrite ?drop_permit_spec; try lia.
        destruct (try_acquire_owned _) eqn:Eq; [|done]. injection Ht as <-. apply acquire_inv in Eq. cbn. lia.
      + unfold al_in_hand in *. cbn. rewrite drop_permit_spec. rewrite E, length_app in H. cbn in H.
        rewrite length_app. lia.
    - cbn. rewrite sem_new_spec. lia. }
  split_and!; [done| | |].
  - intros e l' Ht Hne. unfold accept_loop_turn, al_in_hand in *. by repeat case_match; simplify_eq/=.
  - intros He e. unfold accept_loop_turn. by rewrite He.
  - intros Hfull l'. unfold accept_loop_turn. destruct (al_pc l) eqn:Hpc; try done.
    rewrite acquire_none; [done|]. unfold al_in_hand in Hinv. rewrite Hpc in Hinv. lia.
Qed.

Example accept_loop_limit_witness :
  ∃ l : AcceptLoop nat, steps accept_loop_step (accept_loop_new 1) l
    ∧ (available_permits (al_limit l) + al_in_hand l + length (al_conns l) = 1)%nat
    ∧ length (al_conns l) = 1%nat.
Proof.
  set (l := MkAcceptLoop 0%nat Waiting [sample_accepted 1]).
  assert (Hs : steps accept_loop_step (accept_loop_new 1) l).
  { eapply steps_cons; [apply (al_turn Granted); reflexivity|].
    eapply steps_cons; [apply (al_turn (Detached (sample_accepted 1))); reflexivity|]. apply steps_refl. }
  exists l. split; [exact Hs|]. split; [exact (proj1 (accept_loop_limit 1 l Hs))|reflexivity].
Defined.

(** ** A sample boot *)

Inductive sample_value : Type := VNil | VInt (z : Z) | VStr (s : string) | VBool (b : bool).

#[export] Instance sample_magnus : Magnus sample_value := {
  is_nil v := match v with VNil => true | _ => false end;
  to_string v := match v with VStr s => Ok s | _ => Err (RubyRaised "TypeError") end;
  to_uint max v :=
    match v with
    | VInt z => if (0 <=? z) && (z <=? max) then Ok z else Err (RubyRaised "RangeError")
    | _ => Err (RubyRaised "TypeError")
    end;
  to_bool v := match v with VBool b => Ok b | VNil => Ok false | _ => Ok true end;
}.

Definition sample_hash : gmap string sample_value :=
  {["bind" := VStr "unix:///run/kino.sock"; "port" := VInt 0; "queue_depth" := VInt 64;
    "queue_timeout_ms" := VInt 1000]}.

(** A machine where everything works, but for the control thread. *)
Definition sample_machine : Machine :=
  MkMachine (λ _ p, inr p) (λ _, inr 9293) None (λ _, inl "no such file") (λ _, "error") (Some 4)
    (λ _, ThreadUp) ThreadUp (λ _, Some 0) None None (Some "EAGAIN") Z.add 0.

Definition sample_host : Host ListChan.t :=
  MkHost registry_new ∅ (Control.MkControlWorld ∅ (MkFiles ∅ ∅ ConnectionRefused)).

