(* ===== verification/Init.v ===== *)
(** The extension's entry point ([lib.rs]): the table of native methods and the
    order in which the VM is told about them. *)

From S2P Require Import Prelude.

(** ** What [init] asks of the VM *)

Inductive action : Type :=
  | RactorSafe
  | Define (path : string)
  | Method (owner name function : string) (arity : nat)
  | Resolve (class : string)
  | InitEnv.

Definition PIN_KEEPER : string := "Kino::Native::PinKeeper".

Definition init_actions : list action :=
  [RactorSafe;
   Define "Kino";
   Define "Kino::Native";
   Method "Kino::Native" "server_start" "server::server_start" 1;
   Method "Kino::Native" "register_worker" "server::register_worker" 1;
   Method "Kino::Native" "worker" "queue::worker" 2;
   Method "Kino::Native" "stop_accepting" "server::stop_accepting" 1;
   Method "Kino::Native" "close_queue" "server::close_queue" 1;
   Method "Kino::Native" "queue_stats" "server::queue_stats" 1;
   Method "Kino::Native" "server_stats" "server::server_stats" 1;
   Method "Kino::Native" "worker_stats" "server::worker_stats" 1;
   Method "Kino::Native" "queue_time" "server::queue_time" 1;
   Method "Kino::Native" "quarantine_slot" "server::quarantine_slot" 2;
   Method "Kino::Native" "retire_slot" "server::retire_slot" 2;
   Method "Kino::Native" "reset_slot" "server::reset_slot" 2;
   Method "Kino::Native" "set_active_workers" "server::set_active_workers" 2;
   Method "Kino::Native" "record_scale_up" "server::record_scale_up" 1;
   Method "Kino::Native" "record_scale_down" "server::record_scale_down" 1;
   Method "Kino::Native" "pool_stats" "server::pool_stats" 1;
   Method "Kino::Native" "record_quarantine_replacement" "server::record_quarantine_replacement" 1;
   Method "Kino::Native" "control_ready" "server::control_ready" 1;
   Method "Kino::Native" "record_respawn" "server::record_respawn" 1;
   Method "Kino::Native" "control_stop" "control::control_stop" 1;
   Method "Kino::Native" "abort_inflight" "server::abort_inflight" 2;
   Method "Kino::Native" "abort_all_inflight" "server::abort_all_inflight" 1;
   Method "Kino::Native" "interrupt_all_workers" "server::interrupt_all_workers" 1;
   Method "Kino::Native" "shutdown_runtime" "server::shutdown_runtime" 2;
   Method "Kino::Native" "log_line" "log::log_line" 3;
   Method "Kino::Native" "sleep_chunk" "timer::sleep_chunk" 1;
   Method "Kino::Native" "available_parallelism" "cpus::available_parallelism" 0;
   Method "Kino::Native" "log_device_open" "logsink::device_open" 1;
   Method "Kino::Native" "log_device_write" "logsink::device_write" 2;
   Method "Kino::Native" "log_device_close" "logsink::device_close" 1;
   Method "Kino::Native" "register_defaults" "env_strings::register_defaults" 2;
   Define "Kino::Native::PinKeeper";
   Method "Kino::Native" "pin_keeper" "server::pin_keeper" 1;
   Define "Kino::Native::Worker";
   Method "Kino::Native::Worker" "take_one" "queue::Worker::take_one" 0;
   Method "Kino::Native::Worker" "take_batch" "queue::Worker::take_batch" 1;
   Define "Kino::Native::Request";
   Method "Kino::Native::Request" "respond_and_take" "queue::respond_and_take" 5;
   Method "Kino::Native::Request" "respond_and_take_one" "queue::respond_and_take_one" 4;
   Method "Kino::Native::Request" "read_body" "Request::read_body" 1;
   Method "Kino::Native::Request" "send_simple" "request::respond_simple" 3;
   Method "Kino::Native::Request" "send_headers" "Request::send_headers" 2;
   Method "Kino::Native::Request" "write_chunk" "Request::write_chunk" 1;
   Method "Kino::Native::Request" "finish" "Request::finish" 0;
   Method "Kino::Native::Request" "abort" "Request::abort" 0;
   Method "Kino::Native::Request" "timing" "Request::set_timing" 2;
   Resolve "Kino::Native::Request";
   Resolve "Kino::Native::Worker";
   Resolve "Kino::Native::PinKeeper";
   InitEnv;
   Method "Kino::Native" "_test_channel_create" "test_support::create" 1;
   Method "Kino::Native" "_test_push" "test_support::push" 2;
   Method "Kino::Native" "_test_take" "test_support::take" 1;
   Method "Kino::Native" "_test_close" "test_support::close" 1;
   Method "Kino::Native" "_test_panic" "test_support::panic_in_release" 0;
   Method "Kino::Native" "_test_env_probe" "test_support::env_probe" 4].

(** ** The VM

    A method remembers whether the extension was marked ractor-safe when it
    was defined. A class that wraps native data is resolved once, lazily:
    [resolved] are those already done. *)

Record Native : Type := MkNative {
  nat_function : string;
  nat_arity : nat;
  nat_safe : bool;
}.

Record Vm : Type := MkVm {
  ractor_safe : bool;
  constants : list string;
  methods : gmap (string * string) Native;
  resolved : list string;
  env_ready : bool;
}.

Definition vm_boot : Vm := MkVm false [] ∅ [] false.

Definition known (path : string) (vm : Vm) : bool := bool_decide (path ∈ constants vm).

(** [None]: the VM raises, and the extension does not load. *)
Definition exec (vm : Vm) (a : action) : option Vm :=
  match a with
  | RactorSafe => Some (MkVm true (constants vm) (methods vm) (resolved vm) (env_ready vm))
  | Define path =>
      Some (MkVm (ractor_safe vm) (path :: constants vm) (methods vm) (resolved vm) (env_ready vm))
  | Method owner name f n =>
      if known owner vm
      then Some (MkVm (ractor_safe vm) (constants vm)
                   (<[(owner, name) := MkNative f n (ractor_safe vm)]> (methods vm))
                   (resolved vm) (env_ready vm))
      else None
  | Resolve class =>
      if known class vm
      then Some (MkVm (ractor_safe vm) (constants vm) (methods vm) (class :: resolved vm) (env_ready vm))
      else None
  (* its cache slab is wrapped in a keeper and registered as a root *)
  | InitEnv =>
      if known PIN_KEEPER vm
      then Some (MkVm (ractor_safe vm) (constants vm) (methods vm) (resolved vm) true)
      else None
  end.

Fixpoint exec_all (l : list action) (vm : Vm) : option Vm :=
  match l with
  | [] => Some vm
  | a :: l => vm ← exec vm a; exec_all l vm
  end.

Definition init (vm : Vm) : option Vm := exec_all init_actions vm.

(** A call from Ruby: which function runs, or what is raised. *)
Inductive call_error : Type := NoMethodError | UnsafeError | ArgumentError.

Definition call (vm : Vm) (main : bool) (owner name : string) (argc : nat) : call_error + string :=
  match methods vm !! (owner, name) with
  | None => inl NoMethodError
  | Some m =>
      if negb (nat_safe m) && negb main then inl UnsafeError
      else if (argc =? nat_arity m)%nat then inr (nat_function m)
      else inl ArgumentError
  end.

(** ** The table is sound *)

Definition declared (l : list action) : list (string * string) :=
  omap (λ a, match a with Method owner name _ _ => Some (owner, name) | _ => None end) l.

Definition callable (vm : Vm) (a : action) : bool :=
  match a with
  | Method owner name f n =>
      forallb (λ main, match call vm main owner name n with inr g => String.eqb g f | inl _ => false end) [true; false]
  | Resolve class => bool_decide (class ∈ resolved vm)
  | _ => true
  end.

(** The extension loads; every native it lists, at its arity, runs its own
    function from the main ractor and from worker ractors; no two share a
    name; every class that wraps native data is resolved, and the env caches
    are built, before the first call from Ruby. *)
Theorem natives_callable :
  ∃ vm, init vm_boot = Some vm
    ∧ Forall (λ a, callable vm a = true) init_actions
    ∧ NoDup (declared init_actions)
    ∧ env_ready vm = true
    ∧ ∀ class, Define class ∈ init_actions → class ∉ ["Kino"; "Kino::Native"] → class ∈ resolved vm.
Proof.
  assert (H : match init vm_boot with
    | Some vm => forallb (callable vm) init_actions && env_ready vm
                 && forallb (λ a, match a with
                                  | Define c => bool_decide (c ∈ ["Kino"; "Kino::Native"] ∨ c ∈ resolved vm)
                                  | _ => true end) init_actions
    | None => false end = true) by (vm_compute; reflexivity).
  destruct (init vm_boot) as [vm|]; [|done]. exists vm.
  apply andb_true_iff in H as [[Hc He]%andb_true_iff Hr]. split_and!; [done| | |done|].
  - apply List.Forall_forall. by apply forallb_forall.
  - apply (bool_decide_unpack _). vm_compute. exact I.
  - intros class Hin Hn. rewrite forallb_forall in Hr.
    apply list_elem_of_In in Hin. specialize (Hr _ Hin). simpl in Hr.
    apply bool_decide_eq_true in Hr. by destruct Hr.
Qed.

(** Marked ractor-safe any later, the natives before it would be refused to
    the workers. *)
Example late_flag_refused :
  match exec_all [Define "Kino::Native"; Method "Kino::Native" "worker" "queue::worker" 2; RactorSafe] vm_boot with
  | Some vm => call vm false "Kino::Native" "worker" 2 = inl UnsafeError
  | None => False
  end.
Proof. reflexivity. Qed.
